(* ===== verification/_CoqProject ===== *)
-Q . S2P
Prelude.v
Order.v
World.v
Tree.v
OrderedQueue.v
Std.v
Bytes.v
Error.v
Platform.v
Metadata.v
DirEntry.v
Callback.v
ReadDirIter.v
DirEntryIter.v
ParWalk.v
ParComplete.v
ParStop.v
PoolWorld.v
Abandon.v
UnixEnum.v
FsDetect.v
IoUring.v
LinuxReadDir.v
Targets.v
LegacyReadDir.v
NtLoad.v
NtEnum.v
Layout.v
UnitTests.v
Windows.v
WindowsReadDir.v
WalkDir.v
WalkTypes.v
Loops.v
WalkModes.v
Bare.v
FileTree.v
UnixWalk.v
Du.v
WindowsWalk.v
Scan.v
ScanExt.v
LinuxTree.v
LegacyTree.v
WindowsTree.v
Integration.v
Bench.v
WalkDrop.v
WindowsDrop.v
Class77.v
HexDump.v
