(* ===== verification/Prelude.v ===== *)
(** * A verified model of jwalk-meta, a parallel directory walker

    ** The program

    jwalk-meta lists a directory tree.  A [WalkDir] (src/lib.rs) holds the
    options of a walk; [into_iter] makes of them a callback that reads one
    directory, and an iterator of entries over it:

    - the callback reads a directory through the system ([getdents64], [statx],
      [io_uring] on Linux, [std::fs] on other Unix systems,
      [NtQueryDirectoryFileEx] on Windows), follows links, sorts, filters, retries
      transient errors, calls the client's [process_read_dir], and, in parallel mode,
      may schedule sub-directories while the directory is still being enumerated
      (streaming);
    - [ReadDirIter] gives the reads of the walk.  In serial mode it keeps a stack
      of directories to read.  In parallel mode workers of a rayon pool take
      directories from a weighted priority queue, read them, push the
      sub-directories and send each result, with its position in the walk, to
      the consumer;
    - the consumer, [OrderedQueueIter], puts the results that arrive in any order
      back into strict depth-first order;
    - [DirEntryIter] turns the stream of reads into the stream of entries.

    The hard part is that a walk must list every entry once, in depth-first
    order, in both modes, whatever the interleaving of the workers, the order of
    arrival, the errors of single directories and the moment it is stopped.

    ** Files and the code they model (under src/src/ unless said otherwise)

    The ground:
    - [Prelude]: [Result], the [exec] type ([Ret], [Panic] for [panic!],
      [unreachable!] and undefined behaviour, [NoFuel] for a loop given too little
      fuel), [usize] arithmetic, [yields] (an iterator gives a list and then [None]),
      [starting] (what is built, or blocks for ever), shared lemmas and tactics.
    - [Std]: byte strings, Unix paths, [Duration], [SystemTime], [FileType],
      [fs::Metadata], as on Unix.
    - [Bytes]: buffers and little-endian integers.
    - [Order]: core/index_path.rs, core/ordered.rs, core/weighted.rs and the
      [BinaryHeap] they are kept in (a list; [pop] removes a greatest element).
    - [Tree]: the reference; a walk is a tree of reads, [labels] its elements
      with their positions in depth-first order, [preorder] its values.
    - [Error]: core/error.rs, and [retry_transient_io] of lib.rs.
    - [Platform]: the interface to the target platform, what the [cfg] attributes
      select; everything between the readers and the iterators is stated over it.
      [Metadata] (core/metadata.rs and the time and device conversions of lib.rs)
      implements it for Unix, [Windows] (the [cfg(windows)] variants of
      core/metadata.rs and core/dir_entry.rs) for Windows.

    The iterators and the pool, for every platform:
    - [DirEntry]: core/dir_entry.rs, core/read_dir_spec.rs, core/read_dir.rs, and
      [process_dir_entry_result] and the sorting of lib.rs.
    - [Callback]: [ReadDirCallback] and [StreamingContext] of
      core/read_dir_iter.rs; a running callback is a tree of calls to the context.
    - [World]: the interface through which the consumer sees stop flag, clock and
      channel; [Script] implements it.
    - [OrderedQueue]: core/ordered_queue.rs: [OrderedMatcher] (the cursor) and
      [OrderedQueueIter] (reorder buffer, draining, waiting with a deadline).
    - [ReadDirIter], [DirEntryIter]: the iterators of core/read_dir_iter.rs and
      core/dir_entry_iter.rs.
    - [ParWalk]: core/priority_queue.rs, core/run_context.rs and
      [multi_threaded_walk_dir] of core/read_dir_iter.rs, as a machine whose steps
      are the atomic operations of its threads.  [ParComplete] proves that it loses
      nothing, [ParStop] how it ends, [Abandon] that it ends when the iterator is
      dropped and there is room for what its calls may still schedule.
    - [PoolWorld]: the pool as a [World] of the consumer, so that the two run at the
      same time, as [try_new] starts them.

    The readers of directories:
    - [UnixEnum]: core/unix_dir_enum.rs, over bytes; [FsDetect]: core/fs_detect.rs;
      [IoUring]: core/linux_io_uring.rs; [LinuxReadDir]: [read_dir_linux_via_getdents]
      and its helpers in lib.rs.
    - [LegacyReadDir]: [read_dir_unix_fs_legacy] of lib.rs, the reader over [std::fs].
    - [NtEnum]: core/nt_dir_enum.rs, over bytes; [WindowsReadDir]: [read_dir_windows]
      and its helpers in lib.rs.
    - [Layout]: the structs of both kernels as the rule of [repr(C)] lays them out, and
      examples/check_layout.rs; the offsets the parsers read at are what it computes.

    The walk:
    - [WalkDir]: the options, the builder, [Parallelism::spawn], [into_iter] and its
      callback in lib.rs, [ReadDirIter::try_new], over the interface [DirReader].  Building
      the iterator blocks when the roots do not fit in the channel; a pool starts from the
      queues with the roots in them.
    - [WalkTypes]: what a walk lists ([DirReaderWf] is the promise of a reader);
      [Loops]: what the detection of loops misses; [WalkModes]: the two modes agree,
      from the contract [settled] of a reader; [Bare]: walks equal up to metadata.
    - [UnixWalk], [WindowsWalk]: the readers as instances of [DirReader] and
      [DirReaderWf], and the contract discharged.  [WalkDrop], [WindowsDrop]: the
      bound of [Abandon] on what a call schedules, from the size of the directories.
    - [FileTree]: the specification of the program: a directory tree as its user sees it
      ([node]) and what a walk of it lists ([walk_of]), computed by recursion over the tree.
      [TreeReader] is what a reader promises about the directories of a tree; [LinuxTree],
      [LegacyTree] and [WindowsTree] show that the three readers keep it.

    What targets and loaders select:
    - [Targets]: [linux_io_uring_available], and [make_dir_entry_linux]
      where [libc] has no [statx]; [NtLoad]: the loading of the functions of ntdll.

    Clients (under src/examples/, and src/benches/):
    - [Du]: du.rs; [Scan]: scan_bench.rs; [ScanExt]: scan_bench_ext.rs, scan_unix.rs,
      smb_enum_bench.rs, debug_hang.rs and the metadata options on Linux; [Class77]:
      class77_poc.rs, which uses the system and not the library, [HexDump]: its dumps;
      [Bench]: the recursion over [std::fs] that benches/walk_benchmark.rs measures the
      library against.

    The repository's own tests:
    - [UnitTests]: the modules [tests] of core/unix_dir_enum.rs, core/fs_detect.rs and
      core/linux_io_uring.rs, shown to pass on every system on which their setup holds;
      [Integration]: the tests of tests/integration.rs about what a walk lists, links
      followed and not, evaluated on the model of the program for Linux.

    ** What the theorems show

    - Room.  The channels of a parallel walk hold [channel_capacity] elements, an option
      that is 4096 by default.  What is said of a walk consumed while the pool is at work
      supposes a thread, a pool that starts within its timeout, and room for all the directories of the tree ([WalkModes.walk_lists]
      is about the options [at_capacity], with that capacity); without room the walk may
      hang (C35), or never start (C33).  What is said of a pool that has ended supposes no
      room.
    - The specification (C1, C13): a walk of a tree lists what [walk_of] computes from the
      tree, the depths and the order asked for: on Linux and on Windows, by the serial walk
      and, with room, by the parallel walk, each with its own readers, down to the records
      of the kernel.
      [LegacyTree.legacy_walk_lists_tree] is the same for [std::fs].  [walk_of] does
      not look at the metadata options, so no platform lists anything else with them.
    - The two modes (C2, C14, C15): on Linux, on Windows and where [std::fs] reads
      the directories, the streaming parallel walk and the serial walk list the same
      entries in the same order, from the options of the builder up, the parallel one
      once its pool has ended and, with room, also when it is consumed while the pool is at
      work.  No tree is assumed here: when the listing is sorted or processed as a whole, or
      [std::fs] reads it, links may be followed and [process_read_dir] may change what is
      listed; when the reader streams, links are not followed, types are known, and every
      directory is listed to its end or not opened ([regular_walk]).
      It is composed from the following groups, each proved against an interface and not
      against the implementation of its neighbours.
    - The pool (C3, C5, C7, C10, C12, C33, C35, C36): an exact counting invariant for
      [pending_count] in every interleaving; a pool that has ended has read and
      sent every directory once; as long as the channel has room it can always
      end, after a bounded amount of work; once stopped it makes a bounded number of
      steps; when the channel is full and every worker waits to push, or one does
      and the iterator, stopped, takes nothing more from the channel, it never ends.  The callback is any one that meets
      [streaming_contract]; [WalkModes] discharges it for the real one.
      The roots have to fit in the channel, or the walk never starts; an iterator
      dropped early leaves no thread behind when there is room for what the calls
      under way may schedule.
    - The ordered queue (C8, C11): strict depth-first order from any order of
      arrival, with termination; when the walk is stopped or not all results arrive, an
      initial segment of those that do, put in that order, and nothing once the stop flag
      reads as set.
    - Both together (C4): the consumer interleaved with the pool, each operation of
      it preceded by any steps of the pool and any delay, gets everything in order.
    - The iterators (C9): both modes of [ReadDirIter] give the pre-order of the tree of
      reads; [DirEntryIter] lists what the specification [emits] says; [min_depth] is a
      filter.
    - What is listed (C18, C19, C27, C28): every entry, the root included, is well formed;
      with [process_read_dir] only what it returns is listed; every case of following a
      link, loops being reported exactly when the target is an ancestor, and missed below
      a link.
    - The Unix readers (C6, C16, C21, C22, C26, C29, C30): the byte parser
      inverts the record format, stays inside its buffer and finds every entry;
      the batch interface fills the right entries; the streaming reader schedules
      exactly the sub-directories it returns, when their types are known and
      links are not followed; the reader over [std::fs] agrees with it when no metadata is
      asked for; the metadata options change the metadata and nothing else, also where
      links are followed, when there is no [process_read_dir].
    - The Windows reader (C17, C23, C24, C32): the same for the chains of
      records of the NT interface and their links.
    - Where streaming fails (C37, C38): with followed links or a Windows reparse
      point, what the callback has scheduled is not what the result has to be read;
      [LinuxReadDir] has two more such cases.
    - Data (C31, C34): retries, time stamps; [DirEntry] has the scheduling of children,
      [Order] the order of the heap.
    - Clients (C20, C25, C39, C40): the example du counts the bytes of every file,
      scan_unix counts the files and directories of the tree, the benchmark counts what a
      recursion over [std::fs] counts, the tool recovers the layout of the records it
      looks at.

    ** Bounds and fuel

    Integers are [Z]; [usize] is 64 bits wide, [pending_count] wraps around,
    weights saturate.  Loops that wait or read until the kernel says so take
    fuel; running out of it is [NoFuel], a result of its own, and every
    theorem about them gives an amount that is enough: the results still to
    arrive plus the fruitless waits ([patience]) for the consumer, the number of
    batches for the enumeration, [fuel0], found by the proof, for [DirEntryIter].
    While the pool is at work its remaining steps count as patience; a consumer that
    waits when the oracle of [PoolWorld] has nothing left lets every thread run for a
    round, which is all the fairness there is.
    The parsers get the length of the buffer: they advance at every turn.
    [usize] bounds on the size of a tree are hypotheses of the theorems of the
    pool; they say that the tree has less than [2^64] directories.

    ** Assumptions

    - Atomics are sequentially consistent, [par_bridge] gives every item to one
      call of the closure and runs [next] on one thread at a time.
    - Channels are first in, first out; the channel of directories is bounded.
    - The system is a parameter ([Sys], [FsSys], [Ring], [NtSys], [FileSystem],
      [WindowsStd]) with the laws its documentation states ([RingLaws], [SaneKernel],
      the two record formats), each with an instance.
    - System calls and calls of a callback to its [StreamingContext] do not influence
      each other, so the readers compute the listing first and schedule then.
    - A walk reads each directory once.  Where a theorem compares two walks, the state
      in which a directory is read (of the system, and of the thread that reads it) is a
      function of the directory: the file system may change between the reads of
      different directories.  The state is the same for both walks, or, in C21,
      agrees on the entries of the directory.  What [FileSystem] answers about single
      paths stands still.

    ** Not modelled

    The registry of busy pools behind rayon's [spawn] (whether the pool has started in
    time is an argument of [try_new]); derived [Debug] output (the one written by hand, of
    [DirEntry], is modelled); the tests of timing, memory and many files; test_ft.rs, which
    prints the bytes of a [FileType] of [std]; the other walkers of the benchmark, which are
    third-party code.
    The [statx] and [stat] fields are those of the GNU target.

    The theorems of the specification are for walks that neither follow links nor run a
    [process_read_dir].  With these, what is listed depends on the client, or on a file
    system that is a graph: there the two modes are compared with each other (C2, C14, C15)
    and links treated one at a time (C27, C28).

    ** Plan

    Carried out, but for this: C5 needs a bound on the directories in place of a hypothesis
    when [process_read_dir] adds entries. *)
From Stdlib Require Export ZArith Lia.
Set Warnings "-register-all".
From stdpp Require Export prelude strings list sorting numbers.
Export stdpp.list_basics.list stdpp.list_relations.list stdpp.list_monad.list
  stdpp.list_misc.list stdpp.list_tactics.list stdpp.list_numbers.list.

Declare Scope jwalk_scope.
Delimit Scope jwalk_scope with jwalk.
#[global] Open Scope jwalk_scope.
#[global] Open Scope Z_scope.

(** ** [Result]: the sum type every fallible function of the crate returns *)

Inductive result (A E : Type) : Type :=
| Ok (a : A)
| Err (e : E).
Arguments Ok {A E} a.
Arguments Err {A E} e.

Definition res_bind {A B E} (r : result A E) (k : A -> result B E) : result B E :=
  match r with Ok a => k a | Err e => Err e end.

Definition res_map {A B E} (f : A -> B) (r : result A E) : result B E :=
  match r with Ok a => Ok (f a) | Err e => Err e end.

Definition res_map_err {A E F} (f : E -> F) (r : result A E) : result A F :=
  match r with Ok a => Ok a | Err e => Err (f e) end.

(** [Result::ok] *)
Definition res_ok {A E} (r : result A E) : option A :=
  match r with Ok a => Some a | Err _ => None end.

Definition res_is_ok {A E} (r : result A E) : bool :=
  match r with Ok _ => true | Err _ => false end.

(** The [?] operator. *)
Notation "'let?' x := r 'in' k" := (res_bind r (fun x => k))
  (at level 10, x name, r at level 100, k at level 200) : jwalk_scope.

(** ** Running code: a value, a panic, or a loop that needs more fuel *)

Inductive exec (A : Type) : Type :=
| Ret (a : A)
| Panic
| NoFuel.
Arguments Ret {A} a.
Arguments Panic {A}.
Arguments NoFuel {A}.

Definition exec_bind {A B} (r : exec A) (k : A -> exec B) : exec B :=
  match r with Ret a => k a | Panic => Panic | NoFuel => NoFuel end.

(** [Option::unwrap] *)
Definition unwrap {A} (o : option A) : exec A :=
  match o with Some a => Ret a | None => Panic end.

Notation "'let!' x := r 'in' k" := (exec_bind r (fun x => k))
  (at level 10, x name, r at level 100, k at level 200) : jwalk_scope.

(** ** Machine integers: a [w]-bit unsigned integer is a [Z] in [0, 2^w) *)

Definition usize_bits : Z := 64.
Definition usize_max : Z := 2 ^ usize_bits - 1.
Definition is_usize (n : Z) : Prop := 0 <= n <= usize_max.

(** [x + y] in release builds: wraps around. *)
Definition usize_add (x y : Z) : Z := (x + y) mod 2 ^ usize_bits.
Definition saturating_add (x y : Z) : Z := Z.min usize_max (x + y).
Definition saturating_sub (x y : Z) : Z := Z.max 0 (x - y).

Lemma usize_max_eq : usize_max = 18446744073709551615.
Proof. reflexivity. Qed.

Lemma usize_add_small x y : 0 <= x + y <= usize_max -> usize_add x y = x + y.
Proof.
  unfold usize_add, usize_max. intros H. apply Z.mod_small.
  assert (0 < 2 ^ usize_bits) by reflexivity. lia.
Qed.

Lemma saturating_add_usize x y : is_usize x -> is_usize y -> is_usize (saturating_add x y).
Proof. unfold is_usize, saturating_add. lia. Qed.

Lemma saturating_add_small x y : x + y <= usize_max -> saturating_add x y = x + y.
Proof. unfold saturating_add. lia. Qed.

(** ** Vectors: the operations on the last element that [Vec] and [SmallVec] offer *)

(** Assigning through [v.last_mut()] when it is [Some]. *)
Fixpoint update_last {A} (f : A -> A) (l : list A) : list A :=
  match l with
  | [] => []
  | [x] => [f x]
  | x :: l' => x :: update_last f l'
  end.

Lemma update_last_snoc {A} (f : A -> A) l x : update_last f (l ++ [x]) = l ++ [f x].
Proof.
  induction l as [|y l IH]; [done|]. simpl. rewrite IH.
  destruct (l ++ [x]) eqn:E; [|done]. by destruct l.
Qed.

Lemma length_update_last {A} (f : A -> A) l : length (update_last f l) = length l.
Proof. induction l as [|x [|y l] IH]; simpl in *; congruence. Qed.

Lemma last_inv {A} (l : list A) : l = [] \/ exists l' x, l = l' ++ [x].
Proof. induction l using rev_ind; eauto. Qed.

Lemma snoc_ne_nil {A} (l : list A) x : l ++ [x] <> [].
Proof. by destruct l. Qed.

Lemma removelast_snoc {A} (l : list A) x : removelast (l ++ [x]) = l.
Proof. apply removelast_last. Qed.

(** Searching a vector backwards: [iter().rev()] and a test. *)
Lemma find_rev_some {A} (f : A -> bool) l :
  Exists (fun a => f a = true) l ->
  exists before a after, l = before ++ a :: after /\ f a = true /\
    Forall (fun a' => f a' = false) after /\ find f (rev l) = Some a.
Proof.
  induction l as [|x l IH] using rev_ind; intros H; [by apply Exists_nil in H|].
  rewrite rev_app_distr. simpl. destruct (f x) eqn:Ex.
  - exists l, x, []. by split_and!.
  - apply Exists_app in H as [H|H].
    + destruct (IH H) as (b & a & c & -> & Ha & Hc & ->).
      exists b, a, (c ++ [x]). rewrite <- app_assoc. split_and!; try done.
      apply Forall_app; auto.
    + apply Exists_cons in H as [H|H]; [congruence|by apply Exists_nil in H].
Qed.

Lemma find_rev_none {A} (f : A -> bool) l :
  Forall (fun a => f a = false) l -> find f (rev l) = None.
Proof.
  induction l as [|x l IH] using rev_ind; intros H; [done|].
  apply Forall_app in H as [H Hx]. apply Forall_cons in Hx as [Hx _].
  rewrite rev_app_distr. simpl. rewrite Hx. auto.
Qed.

(** ** Hint databases: [jwalk] resolves side conditions, [jwalk_rw] rewrites *)

Create HintDb jwalk.
Create Rewrite HintDb jwalk_rw.
#[export] Hint Resolve saturating_add_usize snoc_ne_nil : jwalk.
#[export] Hint Rewrite @update_last_snoc @removelast_snoc @last_snoc : jwalk_rw.

(** ** Tactics *)

(** Case analysis on the scrutinee of every [match] and [if] of the goal. *)
Ltac case_goal :=
  repeat match goal with
  | |- context [match ?x with _ => _ end] => destruct x eqn:?; simplify_eq/=
  end.

(** The same on a hypothesis, dropping the contradictory branches. *)
Ltac case_hyp H :=
  repeat match type of H with
  | context [match ?x with _ => _ end] => destruct x eqn:?; simplify_eq/=
  end.

(** A closed equation, computed: the virtual machine compares the values of the two
    sides without writing them out (their types may be large). *)
Ltac vm_refl := lazymatch goal with |- _ = ?b => vm_cast_no_check (@eq_refl _ b) end.

(** ** Parts of a list *)

Lemma sublist_sorted {A} (R : A -> A -> Prop) (l1 l2 : list A) :
  l1 `sublist_of` l2 -> StronglySorted R l2 -> StronglySorted R l1.
Proof.
  induction 1 as [|x l1 l2 Hl IH|x l1 l2 Hl IH]; intros Hs; [done|..];
    apply StronglySorted_inv in Hs as [Hs Hx]; [|by apply IH].
  constructor; [by apply IH|]. rewrite !Forall_forall in Hx |- *.
  intros y Hy. by apply Hx, (elem_of_sublist l1).
Qed.

Lemma sublist_tail {A} (x : A) l1 l2 : x :: l1 `sublist_of` l2 -> l1 `sublist_of` l2.
Proof. intros H. etransitivity; [|exact H]. by apply sublist_cons. Qed.

(** ** What is left of a list *)

Section Filter.
Context {A B : Type} `{!EqDecision B} (f : A -> B).

Lemma filter_none (Q : A -> Prop) `{!forall x, Decision (Q x)} l :
  Forall (fun x => ~ Q x) l -> filter Q l = [].
Proof. induction 1; [done|]. by rewrite filter_cons_False. Qed.

Lemma filter_every (Q : A -> Prop) `{!forall x, Decision (Q x)} l :
  Forall Q l -> filter Q l = l.
Proof. induction 1; [done|]. rewrite filter_cons_True by done. by f_equal. Qed.

(** Without the elements [l1], known by their keys, [l2] is left. *)
Lemma filter_rest (l1 l2 all : list A) :
  l1 ++ l2 ≡ₚ all -> NoDup (map f all) -> filter (fun x => f x ∉ map f l1) all ≡ₚ l2.
Proof.
  intros Hp Hn. rewrite <- Hp in Hn |- *. rewrite map_app in Hn.
  apply NoDup_app in Hn as (_ & Hn & _).
  rewrite filter_app, filter_none, filter_every; [done|..]; apply Forall_forall; intros x Hx Hf.
  - by apply (Hn (f x)), list_elem_of_fmap_2; [exact Hf|].
  - by apply Hf, list_elem_of_fmap_2.
Qed.
End Filter.

(** ** Iterators

    [yields next s l]: calling [next] from state [s] returns the elements of
    [l] one after the other and then [None], without a panic.  Each iterator of
    the crate is characterised by the list it yields. *)

Section Yields.
Context {St A : Type} (next : St -> exec (option A * St)).

Inductive yields : St -> list A -> Prop :=
| yields_nil s s' : next s = Ret (None, s') -> yields s []
| yields_cons s s' x l : next s = Ret (Some x, s') -> yields s' l -> yields s (x :: l).

(** What the first [n] calls return. *)
Fixpoint take_n (n : nat) (s : St) : exec (list (option A)) :=
  match n with
  | O => Ret []
  | S n' =>
      let! r := next s in
      let! l := take_n n' (snd r) in Ret (fst r :: l)
  end.

Lemma yields_det s l l' : yields s l -> yields s l' -> l = l'.
Proof.
  intros H. revert l'. induction H as [s s' E|s s' x l E _ IH]; intros l' H';
    inversion H' as [? ? E'|? ? ? ? E']; subst; rewrite E in E'; simplify_eq;
    f_equal; auto.
Qed.

Lemma yields_take_n s l :
  yields s l -> take_n (length l + 1) s = Ret (map Some l ++ [None]).
Proof.
  induction 1 as [s s' E|s s' x l E _ IH]; simpl; rewrite E; [done|].
  simpl. by rewrite IH.
Qed.
End Yields.

(** Building something, which may block for ever. *)
Inductive starting (A : Type) : Type :=
| Started (a : A)
| Blocks.
Arguments Started {A} a.
Arguments Blocks {A}.

Definition starting_map {A B} (f : A -> B) (start : starting A) : starting B :=
  match start with Started a => Started (f a) | Blocks => Blocks end.

(** The iterator is built, and lists [l]. *)
Definition iterates {St A} (next : St -> exec (option A * St)) (start : starting St) (l : list A) :
    Prop :=
  exists s, start = Started s /\ yields next s l.
