(* ===== verification/Order.v ===== *)
(** * Scheduling order: [index_path.rs], [ordered.rs], [weighted.rs], and the max-heap

    [IndexPath] is the position of a directory in the walk; [Ordered] and
    [Weighted] are the elements of the two queues, each with the [Ord]
    instance that decides what [std]'s [BinaryHeap] (a max-heap) pops first.
    [SmallVec<[usize; 8]>] is used through its [Vec] interface only, so it is
    a list here, its last element being the one [push] and [pop] act on. *)
From S2P Require Import Prelude.

(** ** [std::cmp]: three-way comparison of [usize] and of slices *)

(** Lexicographic comparison of slices ([impl Ord for \[T\]]). *)
Fixpoint slice_cmp (l1 l2 : list Z) : comparison :=
  match l1, l2 with
  | [], [] => Eq
  | [], _ :: _ => Lt
  | _ :: _, [] => Gt
  | x :: l1', y :: l2' =>
      match x ?= y with
      | Eq => slice_cmp l1' l2'
      | c => c
      end
  end.

(** The laws [std::cmp::Ord] requires of an implementation. *)
Class TotalCmp {A : Type} (cmp : A -> A -> comparison) : Prop := {
  cmp_refl x : cmp x x = Eq;
  cmp_antisym x y : cmp y x = CompOpp (cmp x y);
  cmp_trans x y z c : cmp x y = c -> cmp y z = c -> cmp x z = c;
}.

Arguments cmp_refl {A} cmp {_} x.
Arguments cmp_antisym {A} cmp {_} x y.
Arguments cmp_trans {A} cmp {_} x y z c.

(** [a <= b] for an [Ord] instance. *)
Definition cmp_le {A} (cmp : A -> A -> comparison) (x y : A) : Prop := cmp x y <> Gt.

Section CmpLe.
Context {A : Type} (cmp : A -> A -> comparison) `{!TotalCmp cmp}.

Lemma cmp_le_refl x : cmp_le cmp x x.
Proof. unfold cmp_le. by rewrite (cmp_refl cmp). Qed.

Lemma cmp_le_total x y : cmp_le cmp x y \/ cmp_le cmp y x.
Proof. unfold cmp_le. rewrite (cmp_antisym cmp x y). destruct (cmp x y); simpl; auto. Qed.

Lemma cmp_gt_lt x y : cmp x y = Gt <-> cmp y x = Lt.
Proof. rewrite (cmp_antisym cmp x y). by destruct (cmp x y). Qed.

Lemma cmp_le_trans x y z : cmp_le cmp x y -> cmp_le cmp y z -> cmp_le cmp x z.
Proof.
  unfold cmp_le. intros H1 H2 H3. apply cmp_gt_lt in H3.
  destruct (cmp x y) eqn:E1; try done.
  - destruct (cmp y z) eqn:E2; try done.
    + pose proof (cmp_trans cmp x y z Eq E1 E2) as H. rewrite cmp_antisym, H3 in H; done.
    + pose proof (cmp_trans cmp y z x Lt E2 H3) as H. rewrite cmp_antisym, E1 in H; done.
  - pose proof (cmp_trans cmp z x y Lt H3 E1) as H. apply H2, cmp_gt_lt, H.
Qed.
End CmpLe.
#[export] Hint Resolve cmp_le_refl : jwalk.

Lemma slice_cmp_eq l1 l2 : slice_cmp l1 l2 = Eq <-> l1 = l2.
Proof.
  revert l2. induction l1 as [|x l1 IH]; intros [|y l2]; simpl; try done.
  destruct (x ?= y) eqn:E; split; intros H; try done.
  - apply Z.compare_eq in E. apply IH in H. congruence.
  - simplify_eq. by apply IH.
  - simplify_eq. by rewrite Z.compare_refl in E.
  - simplify_eq. by rewrite Z.compare_refl in E.
Qed.

#[export] Instance slice_cmp_total : TotalCmp slice_cmp.
Proof.
  split.
  - intros l. by apply slice_cmp_eq.
  - intros x. induction x as [|a x IH]; intros [|b y]; simpl; try done.
    rewrite (Z.compare_antisym a b). destruct (a ?= b); simpl; auto.
  - intros x. induction x as [|a x IH]; intros [|b y] [|d z] c; simpl; try congruence.
    destruct (Z.compare_spec a b); destruct (Z.compare_spec b d);
      destruct (Z.compare_spec a d); subst; intros; try congruence; try lia; eauto.
Qed.

Lemma slice_cmp_app p l1 l2 : slice_cmp (p ++ l1) (p ++ l2) = slice_cmp l1 l2.
Proof. induction p as [|x p IH]; simpl; [done|]. by rewrite Z.compare_refl. Qed.

Lemma slice_cmp_prefix p x l : slice_cmp p (p ++ x :: l) = Lt.
Proof. rewrite <- (app_nil_r p) at 1. by rewrite slice_cmp_app. Qed.

Lemma slice_cmp_sibling p i j l1 l2 :
  i < j -> slice_cmp (p ++ i :: l1) (p ++ j :: l2) = Lt.
Proof. intros H. rewrite slice_cmp_app. simpl. by rewrite (proj2 (Z.compare_lt_iff i j)). Qed.

(** ** [IndexPath] *)

Module IndexPath.
Record t := mk { indices : list Z }.

Definition new (indices : list Z) : t := mk indices.

(** [adding]: a copy with one more index. *)
Definition adding (self : t) (index : Z) : t := new (indices self ++ [index]).

Definition push (self : t) (index : Z) : t := mk (indices self ++ [index]).

(** [increment_last]: [*last += 1], when there is a last element.  The
    [debug_assert!] is compiled out of release builds. *)
Definition increment_last (self : t) : t :=
  mk (update_last (fun last => usize_add last 1) (indices self)).

Definition pop (self : t) : option Z * t :=
  match last (indices self) with
  | Some x => (Some x, mk (removelast (indices self)))
  | None => (None, self)
  end.

Definition is_empty (self : t) : bool :=
  match indices self with [] => true | _ :: _ => false end.

(** [impl PartialEq] *)
Definition eq (self o : t) : bool := bool_decide (indices self = indices o).

(** [impl Ord]: the slices compared with the arguments swapped. *)
Definition cmp (self o : t) : comparison := slice_cmp (indices o) (indices self).

(** [impl PartialOrd], the same comparison in [Some]. *)
Definition partial_cmp (self o : t) : option comparison :=
  Some (slice_cmp (indices o) (indices self)).

#[global] Instance t_eq_dec : EqDecision t.
Proof. solve_decision. Defined.

Lemma eq_spec p q : eq p q = true <-> p = q.
Proof.
  unfold eq. rewrite bool_decide_eq_true. destruct p, q; simpl; split; congruence.
Qed.

#[global] Instance cmp_total : TotalCmp cmp.
Proof.
  split; unfold cmp; intros.
  - apply (cmp_refl slice_cmp).
  - apply (cmp_antisym slice_cmp).
  - eapply (cmp_trans slice_cmp); eassumption.
Qed.

Lemma cmp_eq p q : cmp p q = Eq <-> p = q.
Proof.
  unfold cmp. rewrite slice_cmp_eq. destruct p, q; simpl; split; congruence.
Qed.
End IndexPath.

(** ** [Ordered]: a result with its position and its number of children *)

Module Ordered.
Record t (T : Type) := mk {
  value : T;
  index_path : IndexPath.t;
  child_count : Z;
}.
Arguments mk {T} value index_path child_count.
Arguments value {T} t.
Arguments index_path {T} t.
Arguments child_count {T} t.

Definition new {T} (value : T) (index_path : IndexPath.t) (child_count : Z) : t T :=
  mk value index_path child_count.

Definition eq {T} (self o : t T) : bool := IndexPath.eq (index_path self) (index_path o).
Definition partial_cmp {T} (self o : t T) : option comparison :=
  IndexPath.partial_cmp (index_path self) (index_path o).
Definition cmp {T} (self o : t T) : comparison :=
  IndexPath.cmp (index_path self) (index_path o).

#[global] Instance cmp_total {T} : TotalCmp (@cmp T).
Proof.
  split; unfold cmp; intros.
  - apply (cmp_refl IndexPath.cmp).
  - apply (cmp_antisym IndexPath.cmp).
  - eapply (cmp_trans IndexPath.cmp); eassumption.
Qed.
End Ordered.

(** ** [Weighted]: a directory to read with its position and its scheduling weight *)

Module Weighted.
Record t (T : Type) := mk {
  value : T;
  index_path : IndexPath.t;
  weight : Z;
}.
Arguments mk {T} value index_path weight.
Arguments value {T} t.
Arguments index_path {T} t.
Arguments weight {T} t.

Definition new {T} (value : T) (index_path : IndexPath.t) (weight : Z) : t T :=
  mk value index_path weight.

Definition eq {T} (self other : t T) : bool :=
  (weight self =? weight other) && IndexPath.eq (index_path self) (index_path other).

(** [impl Ord]: the weights compared with the arguments swapped, then the
    positions with [IndexPath]'s order. *)
Definition cmp {T} (self other : t T) : comparison :=
  match weight other ?= weight self with
  | Eq => IndexPath.cmp (index_path self) (index_path other)
  | ord => ord
  end.

Definition partial_cmp {T} (self other : t T) : option comparison := Some (cmp self other).

#[global] Instance cmp_total {T} : TotalCmp (@cmp T).
Proof.
  split; unfold cmp.
  - intros x. rewrite Z.compare_refl. apply (cmp_refl IndexPath.cmp).
  - intros x y. rewrite (Z.compare_antisym (weight y) (weight x)).
    destruct (weight y ?= weight x); simpl; [apply (cmp_antisym IndexPath.cmp)|done|done].
  - intros x y z c.
    destruct (Z.compare_spec (weight y) (weight x));
      destruct (Z.compare_spec (weight z) (weight y));
      destruct (Z.compare_spec (weight z) (weight x)); intros; subst;
      try congruence; try lia.
    by eapply (cmp_trans IndexPath.cmp).
Qed.
End Weighted.

(** ** [std::collections::BinaryHeap]

    A multiset from which [peek] and [pop] take a greatest element.  Which of
    several equal elements comes first is unspecified by [std]; the model takes
    the last pushed one. *)

Module Heap.
Section Heap.
Context {A : Type} (cmp : A -> A -> comparison).

Definition push (x : A) (h : list A) : list A := x :: h.

Fixpoint pop (h : list A) : option (A * list A) :=
  match h with
  | [] => None
  | x :: h' =>
      match pop h' with
      | None => Some (x, [])
      | Some (m, rest) =>
          match cmp x m with
          | Lt => Some (m, x :: rest)
          | _ => Some (x, h')
          end
      end
  end.

Definition peek (h : list A) : option A := fst <$> pop h.

Lemma pop_none h : pop h = None <-> h = [].
Proof. destruct h as [|x h]; simpl; [done|]. case_goal; done. Qed.

Lemma pop_perm h m rest : pop h = Some (m, rest) -> h ≡ₚ m :: rest.
Proof.
  revert m rest. induction h as [|x h IH]; simpl; intros m rest H; [done|].
  destruct (pop h) as [[m' rest']|] eqn:E.
  - specialize (IH _ _ eq_refl). destruct (cmp x m'); simplify_eq; auto.
    rewrite IH. apply Permutation_swap.
  - apply pop_none in E. by simplify_eq.
Qed.

Lemma pop_peek h m rest : pop h = Some (m, rest) -> peek h = Some m.
Proof. unfold peek. by intros ->. Qed.

Lemma peek_none h : peek h = None <-> h = [].
Proof. rewrite <- pop_none. unfold peek. destruct (pop h); simpl; split; congruence. Qed.

Lemma peek_pop h m : peek h = Some m -> exists rest, pop h = Some (m, rest).
Proof. unfold peek. destruct (pop h) as [[? ?]|]; simpl; intros; simplify_eq; eauto. Qed.

Context `{!TotalCmp cmp}.

Lemma pop_max h m rest : pop h = Some (m, rest) -> Forall (fun y => cmp_le cmp y m) h.
Proof.
  revert m rest. induction h as [|x h IH]; simpl; intros m rest H; [done|].
  assert (forall y, cmp_le cmp y y) as Hrefl by apply (cmp_le_refl cmp).
  destruct (pop h) as [[m' rest']|] eqn:E.
  - specialize (IH _ _ eq_refl).
    assert (cmp x m' <> Lt -> cmp_le cmp m' x) as Hge.
    { unfold cmp_le. rewrite (cmp_antisym cmp x m'). by destruct (cmp x m'). }
    destruct (cmp x m') eqn:C; simplify_eq; constructor; try done.
    + eapply Forall_impl; [exact IH|]. intros y Hy. eapply (cmp_le_trans cmp); [exact Hy|by auto].
    + unfold cmp_le. congruence.
    + eapply Forall_impl; [exact IH|]. intros y Hy. eapply (cmp_le_trans cmp); [exact Hy|by auto].
  - apply pop_none in E. simplify_eq. by constructor.
Qed.
End Heap.
End Heap.

(** ** What the two queues pop first *)

(** [IndexPath]'s order is reversed, so the heap of results pops the
    lexicographically smallest position: the next one of a depth-first walk. *)
Lemma ordered_pop_first {T} (h : list (Ordered.t T)) m rest :
  Heap.pop Ordered.cmp h = Some (m, rest) ->
  Forall (fun y => slice_cmp (IndexPath.indices (Ordered.index_path m))
                     (IndexPath.indices (Ordered.index_path y)) <> Gt) h.
Proof. intros H. exact (Heap.pop_max Ordered.cmp h m rest H). Qed.

(** The heap of pending directories pops an entry of least weight, and
    among those of equal weight the one that comes first in the walk. *)
Theorem weighted_pop_least {T} (h : list (Weighted.t T)) m rest :
  Heap.pop Weighted.cmp h = Some (m, rest) ->
  h ≡ₚ m :: rest /\
  Forall (fun y => Weighted.weight m < Weighted.weight y \/
            Weighted.weight m = Weighted.weight y /\
            slice_cmp (IndexPath.indices (Weighted.index_path m))
              (IndexPath.indices (Weighted.index_path y)) <> Gt) h.
Proof.
  intros H. split; [by eapply Heap.pop_perm|].
  eapply Forall_impl; [by eapply (Heap.pop_max Weighted.cmp)|].
  unfold cmp_le, Weighted.cmp, IndexPath.cmp. intros y Hy.
  destruct (Z.compare_spec (Weighted.weight m) (Weighted.weight y)); auto. done.
Qed.

Lemma weighted_pop_least_witness :
  let a := Weighted.mk 1 (IndexPath.mk [0; 1]) 7 in
  let b := Weighted.mk 2 (IndexPath.mk [0; 0]) 7 in
  let c := Weighted.mk 3 (IndexPath.mk [0; 2]) 9 in
  [a; c; b] ≡ₚ b :: [a; c] /\
  Forall (fun y => 7 < Weighted.weight y \/ 7 = Weighted.weight y /\
            slice_cmp [0; 0] (IndexPath.indices (Weighted.index_path y)) <> Gt) [a; c; b].
Proof.
  intros a b c. assert (Heap.pop Weighted.cmp [a; c; b] = Some (b, [a; c])) as H by reflexivity.
  exact (weighted_pop_least _ _ _ H).
Defined.
