(* ===== verification/World.v ===== *)
(** * The consumer's surroundings: stop flag, clock and channel

    [OrderedQueueIter] runs on the calling thread while other threads send
    results, set the stop flag and take time.  What it can observe of them is
    the interface [World]: the [AtomicBool], [Instant::now] and the receiving
    end of the crossbeam channel.  [WorldLaws] states what the queue relies on,
    with the future made explicit: [arrivals] is the collection of results that will
    still be received, and [patience] bounds the fruitless waits (and the scheduling
    stalls) that remain.  [Script] is an implementation: a world that plays a list of
    events; [PoolWorld] is the other one, whose results the pool sends meanwhile. *)
From S2P Require Import Prelude.

Inductive TryRecvError : Set := Empty | Disconnected.
Inductive RecvTimeoutError : Set := RecvTimeout | RecvDisconnected.

Class World (E T : Type) := {
  load_stop : E -> bool * E;
  now : E -> Z * E;
  try_recv : E -> result T TryRecvError * E;
  recv_timeout : Z -> E -> result T RecvTimeoutError * E;
  yield_now : E -> E;
}.

(** [e'] follows [e] with the same future: what will be received is the same, but the
    threads that send it may have changed the order in which it will be. *)
Record same_future {E T} (arrivals : E -> list T) (patience : E -> nat) (running : E -> Prop)
    (e e' : E) : Prop := {
  sf_arrivals : arrivals e' ≡ₚ arrivals e;
  sf_patience : (patience e' <= patience e)%nat;
  sf_running : running e -> running e';
}.

(** One result has been taken from the channel. *)
Record received {E T} (arrivals : E -> list T) (patience : E -> nat) (running : E -> Prop)
    (x : T) (e e' : E) : Prop := {
  rc_arrivals : arrivals e ≡ₚ x :: arrivals e';
  rc_patience : (patience e' <= patience e)%nat;
  rc_running : running e -> running e';
}.

(** [stall]: between two instants less than [stall] apart the thread may be
    preempted for free; longer stalls are counted by [patience]. *)
Class WorldLaws (E T : Type) `{World E T} (stall : Z) := {
  arrivals : E -> list T;
  patience : E -> nat;
  running : E -> Prop;
  clock : E -> Z;
  load_stop_law e b e' : load_stop e = (b, e') ->
    same_future arrivals patience running e e' /\ clock e' = clock e /\
    (running e -> b = false);
  now_law e t e' : now e = (t, e') ->
    same_future arrivals patience running e e' /\ clock e' = t /\ clock e <= t /\
    (clock e + stall <= t -> (patience e' < patience e)%nat);
  try_recv_law e r e' : try_recv e = (r, e') ->
    clock e' = clock e /\
    match r with
    | Ok x => received arrivals patience running x e e'
    | Err _ => same_future arrivals patience running e e'
    end;
  recv_timeout_law d e r e' : recv_timeout d e = (r, e') ->
    match r with
    | Ok x => received arrivals patience running x e e'
    | Err RecvTimeout =>
        same_future arrivals patience running e e' /\ (patience e' < patience e)%nat
    | Err RecvDisconnected =>
        same_future arrivals patience running e e' /\ arrivals e = []
    end;
  yield_law e : same_future arrivals patience running e (yield_now e);
}.

(** [f] forgets something of [E'] that none of the operations depends on. *)
Record world_map {E' E T : Type} `{World E' T, World E T} (f : E' -> E) : Prop := {
  wm_load_stop e : load_stop (f e) = prod_map id f (load_stop e);
  wm_now e : now (f e) = prod_map id f (now e);
  wm_try_recv e : try_recv (f e) = prod_map id f (try_recv e);
  wm_recv_timeout d e : recv_timeout d (f e) = prod_map id f (recv_timeout d e);
  wm_yield_now e : yield_now (f e) = f (yield_now e);
}.

(** ** A world that plays a script *)

Inductive event (T : Type) : Type :=
| Arrive (x : T)      (** a result is in the channel *)
| Wait (dt : Z)       (** the channel stays empty for [dt] nanoseconds *)
| StopSet.            (** the stop flag is set while the channel is empty *)
Arguments Arrive {T} x.
Arguments Wait {T} dt.
Arguments StopSet {T}.

Record script (T : Type) : Type := mk_script {
  sc_now : Z;
  sc_stop : bool;
  sc_events : list (event T);
}.
Arguments mk_script {T} sc_now sc_stop sc_events.
Arguments sc_now {T} s.
Arguments sc_stop {T} s.
Arguments sc_events {T} s.

Section Script.
Context {T : Type}.
Implicit Types s : script T.

Definition script_try_recv s : result T TryRecvError * script T :=
  match sc_events s with
  | Arrive x :: l => (Ok x, mk_script (sc_now s) (sc_stop s) l)
  | [] => (Err Disconnected, s)
  | _ => (Err Empty, s)
  end.

Definition script_recv_timeout (d : Z) s : result T RecvTimeoutError * script T :=
  match sc_events s with
  | Arrive x :: l => (Ok x, mk_script (sc_now s) (sc_stop s) l)
  | Wait dt :: l => (Err RecvTimeout, mk_script (sc_now s + Z.max 0 dt) (sc_stop s) l)
  | StopSet :: l => (Err RecvTimeout, mk_script (sc_now s + Z.max 0 d) true l)
  | [] => (Err RecvDisconnected, s)
  end.

#[global] Instance script_world : World (script T) T := {
  load_stop s := (sc_stop s, s);
  now s := (sc_now s, s);
  try_recv := script_try_recv;
  recv_timeout := script_recv_timeout;
  yield_now s := s;
}.

Fixpoint script_arrivals (l : list (event T)) : list T :=
  match l with
  | [] => []
  | Arrive x :: l' => x :: script_arrivals l'
  | _ :: l' => script_arrivals l'
  end.

Fixpoint script_waits (l : list (event T)) : nat :=
  match l with
  | [] => O
  | Arrive _ :: l' => script_waits l'
  | _ :: l' => S (script_waits l')
  end.

Fixpoint script_stops (l : list (event T)) : bool :=
  match l with
  | [] => false
  | StopSet :: _ => true
  | _ :: l' => script_stops l'
  end.

#[local] Obligation Tactic := idtac.

#[global] Program Instance script_laws (stall : Z) `{!TCEq (0 <? stall) true} :
    WorldLaws (script T) T stall := {
  arrivals s := script_arrivals (sc_events s);
  patience s := script_waits (sc_events s);
  running s := sc_stop s = false /\ script_stops (sc_events s) = false;
  clock := sc_now;
}.
Next Obligation.
  intros stall Hs e b e' [= <- <-]. split_and!; [by split|done|]. by intros [? ?].
Qed.
Next Obligation.
  intros stall Hs e t e' [= <- <-]. apply TCEq_eq, Z.ltb_lt in Hs.
  split_and!; [by split|done|lia|lia].
Qed.
Next Obligation.
  intros stall Hs e r e'. simpl. unfold script_try_recv.
  destruct (sc_events e) as [|[x|dt|] l] eqn:E; intros [= <- <-];
    (split; [done|]); split; simpl; rewrite ?E; done.
Qed.
Next Obligation.
  intros stall Hs d e r e'. simpl. unfold script_recv_timeout.
  destruct (sc_events e) as [|[x|dt|] l] eqn:E; intros [= <- <-]; simpl;
    rewrite ?E; simpl; [split| |split|split]; try done; try lia;
    (split; simpl; rewrite ?E; simpl; [done|lia|by intros [? ?]]).
Qed.
Next Obligation. intros. by split. Qed.

(** The results [l] arrive one after the other, nothing else happens. *)
Definition in_order (l : list T) : script T := mk_script 0 false (map Arrive l).

Context (stall : Z) `{!TCEq (0 <? stall) true}.

Lemma in_order_arrivals l : arrivals (stall := stall) (in_order l) = l.
Proof. simpl. induction l as [|x l IH]; simpl; [done|by rewrite IH]. Qed.

Lemma in_order_running l : running (stall := stall) (in_order l).
Proof. split; [done|]. simpl. by induction l. Qed.

Lemma in_order_patience l : patience (stall := stall) (in_order l) = 0%nat.
Proof. simpl. by induction l. Qed.

(** The fuel the consumer needs. *)
Lemma in_order_fuel l n f :
  length l = n -> (n < f)%nat ->
  (length (arrivals (stall := stall) (in_order l)) + patience (stall := stall) (in_order l) < f)%nat.
Proof. rewrite in_order_arrivals, in_order_patience. lia. Qed.
End Script.
