(* ===== verification/Tree.v ===== *)
(** * Walk trees: the reads of a walk, their positions and their depth-first order

    A walk reads one directory per node of a tree; [labels p t] lists, in
    depth-first order, the element the ordered queue receives for each node:
    its value, its position and its number of children.  This is the reference
    the queues and both iterators are compared with. *)
From S2P Require Import Prelude Order.
#[local] Set Warnings "-register-all".

Inductive tree (T : Type) : Type :=
| Node (value : T) (children : list (tree T)).
Arguments Node {T} value children.

Section TreeInd.
Context {T : Type} (P : tree T -> Prop)
  (HNode : forall v cs, Forall P cs -> P (Node v cs)).

Fixpoint tree_nested_ind (t : tree T) : P t :=
  match t with
  | Node v cs =>
      HNode v cs ((fix go (l : list (tree T)) : Forall P l :=
                     match l with
                     | [] => @Forall_nil_2 _ P
                     | c :: l' => @Forall_cons_2 _ P c l' (tree_nested_ind c) (go l')
                     end) cs)
  end.
End TreeInd.

Section Labels.
Context {T : Type}.
Implicit Types (t : tree T) (cs : list (tree T)) (p : list Z).

(** The root of [t] is at position [p], its children at [p ++ [0]], [p ++ [1]], ... *)
Fixpoint labels p t {struct t} : list (Ordered.t T) :=
  match t with
  | Node v cs =>
      Ordered.mk v (IndexPath.mk p) (Z.of_nat (length cs)) ::
      (fix go (i : Z) (l : list (tree T)) : list (Ordered.t T) :=
         match l with
         | [] => []
         | c :: l' => labels (p ++ [i]) c ++ go (i + 1) l'
         end) 0 cs
  end.

Fixpoint forest p (i : Z) cs : list (Ordered.t T) :=
  match cs with
  | [] => []
  | c :: cs' => labels (p ++ [i]) c ++ forest p (i + 1) cs'
  end.

Lemma labels_node p v cs :
  labels p (Node v cs) =
    Ordered.mk v (IndexPath.mk p) (Z.of_nat (length cs)) :: forest p 0 cs.
Proof.
  simpl. f_equal. generalize 0. induction cs as [|c cs IH]; intros i; simpl; [done|].
  by rewrite IH.
Qed.

Lemma forest_app p i cs1 cs2 :
  forest p i (cs1 ++ cs2) = forest p i cs1 ++ forest p (i + Z.of_nat (length cs1)) cs2.
Proof.
  revert i. induction cs1 as [|c cs1 IH]; intros i; simpl.
  - by rewrite Z.add_0_r.
  - rewrite IH, <- app_assoc. do 3 f_equal. lia.
Qed.

(** Every directory has at most [usize::MAX] sub-directories. *)
Inductive sized : tree T -> Prop :=
| sized_node v cs :
    Z.of_nat (length cs) <= usize_max -> Forall sized cs -> sized (Node v cs).

(** Depth-first pre-order of the values. *)
Fixpoint preorder t : list T :=
  match t with Node v cs => v :: flat_map preorder cs end.

Lemma forest_values p i cs :
  Forall (fun t => forall p, map Ordered.value (labels p t) = preorder t) cs ->
  map Ordered.value (forest p i cs) = flat_map preorder cs.
Proof.
  intros H. revert i. induction H as [|c cs Hc _ IH]; intros i; simpl; [done|].
  by rewrite map_app, Hc, IH.
Qed.

Lemma labels_values p t : map Ordered.value (labels p t) = preorder t.
Proof.
  revert p. induction t as [v cs IH] using tree_nested_ind. intros p.
  rewrite labels_node. simpl. by rewrite forest_values.
Qed.

(** ** Positions *)

Definition path_of (o : Ordered.t T) : list Z := IndexPath.indices (Ordered.index_path o).
Definition before (o1 o2 : Ordered.t T) : Prop := slice_cmp (path_of o1) (path_of o2) = Lt.

Lemma labels_below t p : Forall (fun o => exists l, path_of o = p ++ l) (labels p t).
Proof.
  revert p. induction t as [v cs IH] using tree_nested_ind. intros p.
  rewrite labels_node. constructor.
  - exists []. by rewrite app_nil_r.
  - generalize 0. induction IH as [|c cs Hc _ IHcs]; intros i; simpl; [done|].
    apply Forall_app; split; [|auto]. eapply Forall_impl; [apply Hc|].
    intros o [l Hl]. exists (i :: l). by rewrite Hl, <- app_assoc.
Qed.

Lemma forest_below p i cs :
  Forall (fun o => exists j l, path_of o = p ++ j :: l /\ i <= j) (forest p i cs).
Proof.
  revert i. induction cs as [|c cs IH]; intros i; simpl; [done|].
  apply Forall_app; split.
  - eapply Forall_impl; [apply labels_below|]. intros o [l Hl].
    exists i, l. rewrite Hl, <- app_assoc. split; [done|lia].
  - eapply Forall_impl; [apply IH|]. intros o (j & l & Hl & Hj). exists j, l. split; [done|lia].
Qed.

Lemma StronglySorted_app_intro (R : relation (Ordered.t T)) l1 l2 :
  StronglySorted R l1 -> StronglySorted R l2 ->
  (forall x y, x ∈ l1 -> y ∈ l2 -> R x y) -> StronglySorted R (l1 ++ l2).
Proof.
  induction 1 as [|x l1 _ IH Hx]; simpl; intros H2 HR; [done|].
  constructor; [apply IH; set_solver|].
  apply Forall_app; split; [done|]. apply Forall_forall. intros y Hy. apply HR; set_solver.
Qed.

(** Depth-first order is the lexicographic order of the positions. *)
Lemma labels_sorted p t : StronglySorted before (labels p t).
Proof.
  revert p. induction t as [v cs IH] using tree_nested_ind. intros p.
  rewrite labels_node. constructor.
  - generalize 0. induction IH as [|c cs Hc _ IHcs]; intros i; simpl; [constructor|].
    apply StronglySorted_app_intro; [auto..|]. intros x y Hx Hy.
    pose proof (labels_below c (p ++ [i])) as Hb. rewrite Forall_forall in Hb.
    apply Hb in Hx as [l Hl].
    pose proof (forest_below p (i + 1) cs) as Hf. rewrite Forall_forall in Hf.
    apply Hf in Hy as (j & l' & Hl' & Hj).
    unfold before. rewrite Hl, Hl', <- app_assoc. apply slice_cmp_sibling. lia.
  - eapply Forall_impl; [apply forest_below|]. intros o (j & l & Hl & _).
    unfold before. rewrite Hl. apply slice_cmp_prefix.
Qed.

(** Each position is that of one directory. *)
Lemma labels_nodup p t : NoDup (map Ordered.index_path (labels p t)).
Proof.
  induction (labels_sorted p t) as [|o l _ IH Ho]; [constructor|]. simpl. constructor; [|done].
  intros (o' & E & Ho')%list_elem_of_fmap_1. rewrite Forall_forall in Ho. specialize (Ho o' Ho').
  unfold before, path_of in Ho. by rewrite E, (cmp_refl slice_cmp) in Ho.
Qed.

Lemma labels_paths_nonempty p t :
  p <> [] -> Forall (fun o => path_of o <> []) (labels p t).
Proof.
  intros Hp. eapply Forall_impl; [apply labels_below|]. intros o [l Hl] E.
  rewrite Hl in E. by destruct p.
Qed.
End Labels.
