(* ===== verification/OrderedQueue.v ===== *)
(** * The ordered queue: [ordered_queue.rs]

    Module [OrderedMatcher] is the depth-first cursor; module [OrderedQueueIter]
    is the consumer that turns results arriving in any order into a stream in
    strict depth-first order.  The channel, the clock and the stop flag are the
    interface [World]. *)
From S2P Require Import Prelude Order World Tree.

(** ** The cursor *)

Module OrderedMatcher.
Record t := mk {
  looking_for : IndexPath.t;
  child_count_stack : list Z;
}.

Definition default : t := mk (IndexPath.new [0]) [1].

Definition is_none (self : t) : bool := IndexPath.is_empty (looking_for self).

Definition decrement_remaining_children (self : t) : t :=
  mk (looking_for self)
     (update_last (fun count => saturating_sub count 1) (child_count_stack self)).

(** The [while] loop of [advance_past]: leave every finished directory.  It
    pops the stack at each turn, so as many turns as the stack has elements
    are enough. *)
Fixpoint leave_finished (n : nat) (self : t) : t :=
  match n with
  | O => self
  | S n' =>
      match last (child_count_stack self) with
      | None => self
      | Some count =>
          if count =? 0 then
            let lf := snd (IndexPath.pop (looking_for self)) in
            let stack := removelast (child_count_stack self) in
            let lf := if IndexPath.is_empty lf then lf else IndexPath.increment_last lf in
            leave_finished n' (mk lf stack)
          else self
      end
  end.

Definition advance_past {T} (self : t) (ordered : Ordered.t T) : t :=
  let self := decrement_remaining_children self in
  if 0 <? Ordered.child_count ordered then
    mk (IndexPath.push (looking_for self) 0)
       (child_count_stack self ++ [Ordered.child_count ordered])
  else
    let self := mk (IndexPath.increment_last (looking_for self)) (child_count_stack self) in
    leave_finished (length (child_count_stack self)) self.
End OrderedMatcher.

(** ** The consumer *)

(** [STRICT_WAIT_TIMEOUT] (100 ms) and the floor of one wait (100 us), in nanoseconds. *)
Definition STRICT_WAIT_TIMEOUT : Z := 100000000.
Definition MIN_WAIT : Z := 100000.

Module OrderedQueueIter.
Record t (T : Type) := mk {
  receive_buffer : list (Ordered.t T);
  ordered_matcher : OrderedMatcher.t;
  max_receive_buffer_size : nat;
}.
Arguments mk {T} receive_buffer ordered_matcher max_receive_buffer_size.
Arguments receive_buffer {T} t.
Arguments ordered_matcher {T} t.
Arguments max_receive_buffer_size {T} t.

(** The consumer half of [new_ordered_queue]. *)
Definition new_ordered_queue {T} (max_receive_buffer_size : nat) : t T :=
  mk [] OrderedMatcher.default max_receive_buffer_size.

Section Run.
Context {E T : Type} {HW : World E (Ordered.t T)}.

Definition set_buffer (self : t T) (h : list (Ordered.t T)) : t T :=
  mk h (ordered_matcher self) (max_receive_buffer_size self).

Definition is_stop (e : E) : bool * E := load_stop e.

(** [drain_channel]: at most [max_receive_buffer_size - len] receptions. *)
Fixpoint drain_n (n : nat) (h : list (Ordered.t T)) (e : E) : list (Ordered.t T) * E :=
  match n with
  | O => (h, e)
  | S n' =>
      match try_recv e with
      | (Ok ordered, e) => drain_n n' (Heap.push ordered h) e
      | (Err _, e) => (h, e)
      end
  end.

Definition drain_channel (self : t T) (e : E) : t T * E :=
  let '(h, e) := drain_n (max_receive_buffer_size self - length (receive_buffer self))
                   (receive_buffer self) e in
  (set_buffer self h, e).

(** Is the top of the buffer the element the cursor is looking for? *)
Definition top_matches (self : t T) : bool :=
  match Heap.peek Ordered.cmp (receive_buffer self) with
  | Some top =>
      IndexPath.eq (Ordered.index_path top)
        (OrderedMatcher.looking_for (ordered_matcher self))
  | None => false
  end.

(** [self.receive_buffer.pop().unwrap()] then [advance_past]. *)
Definition take_top (self : t T) : exec (Ordered.t T * t T) :=
  let! p := unwrap (Heap.pop Ordered.cmp (receive_buffer self)) in
  Ret (fst p, mk (snd p) (OrderedMatcher.advance_past (ordered_matcher self) (fst p))
                 (max_receive_buffer_size self)).

Definition answer : Type := result (Ordered.t T) TryRecvError.

(** The branch taken when the channel is disconnected. *)
Definition on_disconnected (self : t T) (e : E) : exec (answer * t T * E) :=
  let '(self, e) := drain_channel self e in
  if top_matches self then
    let! p := take_top self in Ret (Ok (fst p), snd p, e)
  else
    match Heap.pop Ordered.cmp (receive_buffer self) with
    | Some (fallback, h) => Ret (Ok fallback, set_buffer self h, e)
    | None => Ret (Err Disconnected, self, e)
    end.

(** The loop of [try_next_strict]; one unit of fuel per iteration. *)
Fixpoint strict_loop (fuel : nat) (deadline : Z) (self : t T) (e : E) :
    exec (answer * t T * E) :=
  match fuel with
  | O => NoFuel
  | S fuel' =>
      let '(stop, e) := is_stop e in
      if stop then Ret (Err Disconnected, self, e) else
      let '(self, e) := if top_matches self then (self, e) else drain_channel self e in
      if top_matches self then
        let! p := take_top self in Ret (Ok (fst p), snd p, e)
      else if OrderedMatcher.is_none (ordered_matcher self) then
        Ret (Err Disconnected, self, e)
      else
        let '(t, e) := now e in
        if deadline <=? t then Ret (Err Empty, self, e) else
        let '(t, e) := now e in
        let remaining := saturating_sub deadline t in
        let wait_time := Z.max remaining MIN_WAIT in
        match recv_timeout wait_time e with
        | (Ok ordered, e) =>
            strict_loop fuel' deadline
              (set_buffer self (Heap.push ordered (receive_buffer self))) e
        | (Err RecvTimeout, e) => strict_loop fuel' deadline self e
        | (Err RecvDisconnected, e) => on_disconnected self e
        end
  end.

Definition try_next_strict (fuel : nat) (self : t T) (e : E) : exec (answer * t T * E) :=
  let '(t, e) := now e in
  let deadline := t + STRICT_WAIT_TIMEOUT in
  strict_loop fuel deadline self e.

(** [Iterator::next]; one unit of fuel per call of [try_next_strict]. *)
Fixpoint next (fuel : nat) (se : t T * E) : exec (option (Ordered.t T) * (t T * E)) :=
  match fuel with
  | O => NoFuel
  | S fuel' =>
      let! r := try_next_strict fuel (fst se) (snd se) in
      match r with
      | (Ok next, self, e) => Ret (Some next, (self, e))
      | (Err Empty, self, e) => next fuel' (self, yield_now e)
      | (Err Disconnected, self, e) => Ret (None, (self, e))
      end
  end.
End Run.
End OrderedQueueIter.

(** ** The consumer in two worlds, one with less in it than the other *)

Module MapFacts.
Import OrderedQueueIter.

Section Map.
Context {E' E T : Type} {HW' : World E' (Ordered.t T)} {HW : World E (Ordered.t T)} (f : E' -> E)
  (Hf : world_map f).
Implicit Types (self : t T) (e : E').

Definition map_result {R} (r : exec (R * E')) : exec (R * E) :=
  let! p := r in Ret (fst p, f (snd p)).

Lemma drain_n_map n h e : drain_n n h (f e) = prod_map id f (drain_n n h e).
Proof.
  revert h e. induction n as [|n IH]; intros h e; simpl; [done|].
  rewrite (wm_try_recv f Hf). by destruct (try_recv e) as [[o|err] e1]; simpl; [rewrite IH|].
Qed.

Lemma drain_channel_map self e : drain_channel self (f e) = prod_map id f (drain_channel self e).
Proof. unfold drain_channel. rewrite drain_n_map. by destruct (drain_n _ _ _). Qed.

Lemma on_disconnected_map self e : on_disconnected self (f e) = map_result (on_disconnected self e).
Proof.
  unfold on_disconnected. rewrite drain_channel_map. destruct (drain_channel self e) as [self' e'].
  simpl. destruct (top_matches self').
  - by destruct (take_top self').
  - by destruct (Heap.pop _ _) as [[o h]|].
Qed.

Lemma strict_loop_map fuel deadline self e :
  strict_loop fuel deadline self (f e) = map_result (strict_loop fuel deadline self e).
Proof.
  revert self e. induction fuel as [|fuel IH]; intros self e; [done|]. cbn [strict_loop].
  unfold is_stop. rewrite (wm_load_stop f Hf). destruct (load_stop e) as [[|] e1]; [done|]. simpl.
  assert ((if top_matches self then (self, f e1) else drain_channel self (f e1)) =
    prod_map id f (if top_matches self then (self, e1) else drain_channel self e1)) as ->
    by (rewrite drain_channel_map; by destruct (top_matches self)).
  destruct (if top_matches self then _ else _) as [self2 e2]. simpl.
  destruct (top_matches self2); [by destruct (take_top self2)|].
  destruct (OrderedMatcher.is_none _); [done|].
  rewrite (wm_now f Hf). destruct (now e2) as [t1 e3]. simpl. destruct (deadline <=? t1); [done|].
  rewrite (wm_now f Hf). destruct (now e3) as [t2 e4]. simpl.
  rewrite (wm_recv_timeout f Hf).
  by destruct (recv_timeout _ e4) as [[o|[|]] e5]; simpl; rewrite ?IH, ?on_disconnected_map.
Qed.

Lemma next_map fuel self e :
  next fuel (self, f e) = (let! r := next fuel (self, e) in Ret (fst r, prod_map id f (snd r))).
Proof.
  revert self e. induction fuel as [|fuel IH]; intros self e; [done|]. cbn [next fst snd].
  unfold try_next_strict. rewrite (wm_now f Hf). destruct (now e) as [t1 e1]. simpl fst. simpl snd.
  cbn [prod_map fst snd]. unfold id at 1. rewrite strict_loop_map.
  destruct (strict_loop _ _ _ _) as [[[[o|[|]] self2] e2]| |]; simpl; try done.
  by rewrite (wm_yield_now f Hf), IH.
Qed.

Lemma yields_next_map fuel self e l :
  yields (next fuel) (self, e) l -> yields (next fuel) (self, f e) l.
Proof.
  remember (self, e) as se eqn:Ese. intros H. revert self e Ese.
  induction H as [se se' E1|se [self' e'] x l E1 _ IH]; intros self e ->.
  - eapply yields_nil. rewrite next_map, E1. done.
  - eapply yields_cons; [rewrite next_map, E1; done|]. by apply IH.
Qed.
End Map.
End MapFacts.

(** ** The cursor follows the depth-first order *)

Module MatcherFacts.
Import OrderedMatcher.

Lemma leave_finished_fuel n m :
  (length (child_count_stack m) <= n)%nat ->
  leave_finished n m = leave_finished (length (child_count_stack m)) m.
Proof.
  revert m. induction n as [n IH] using lt_wf_ind. intros [lf st]; simpl. intros Hn.
  destruct (last_inv st) as [->|(st' & c & ->)]; [by destruct n|].
  rewrite length_app in Hn |- *. simpl in *.
  destruct n as [|n]; [lia|]. rewrite Nat.add_comm. simpl.
  rewrite !last_snoc, !removelast_snoc. destruct (c =? 0); [|done].
  rewrite IH; simpl; [done|lia|lia].
Qed.

(** The state after the child at index [i - 1] of the directory at [p] has
    been passed, [r] of its siblings being left; [s] is the rest of the stack. *)
Definition settle (p : list Z) (i : Z) (s : list Z) (r : Z) : t :=
  leave_finished (length (s ++ [r])) (mk (IndexPath.mk (p ++ [i])) (s ++ [r])).

Lemma settle_more p i s r :
  r <> 0 -> settle p i s r = mk (IndexPath.mk (p ++ [i])) (s ++ [r]).
Proof.
  intros Hr. unfold settle. rewrite length_app, Nat.add_comm. simpl.
  rewrite last_snoc. by rewrite (proj2 (Z.eqb_neq r 0)).
Qed.

Lemma settle_up q j i s r :
  0 <= j < usize_max -> settle (q ++ [j]) i (s ++ [r]) 0 = settle q (j + 1) s r.
Proof.
  intros Hj. unfold settle at 1. rewrite length_app, Nat.add_comm. simpl.
  rewrite last_snoc, removelast_snoc. unfold IndexPath.pop; simpl.
  rewrite last_snoc, removelast_snoc. simpl.
  unfold IndexPath.is_empty; simpl. destruct (q ++ [j]) eqn:E; [by destruct q|].
  rewrite <- E. unfold IndexPath.increment_last; simpl. rewrite update_last_snoc.
  rewrite usize_add_small by lia. done.
Qed.

Lemma settle_root i : settle [] i [] 0 = mk (IndexPath.mk []) [].
Proof. reflexivity. Qed.

(** [accepts m l m']: started in [m], the cursor looks for the elements of [l]
    one after the other and ends in [m']. *)
Fixpoint accepts {T} (m : t) (l : list (Ordered.t T)) (m' : t) : Prop :=
  match l with
  | [] => m = m'
  | o :: l' =>
      looking_for m = Ordered.index_path o /\ accepts (advance_past m o) l' m'
  end.

Lemma accepts_app {T} m (l1 l2 : list (Ordered.t T)) m' m'' :
  accepts m l1 m' -> accepts m' l2 m'' -> accepts m (l1 ++ l2) m''.
Proof.
  revert m. induction l1 as [|o l1 IH]; simpl; intros m.
  - by intros ->.
  - intros [H1 H2] H3. eauto.
Qed.

Section Tree.
Context {T : Type}.
Implicit Types (cs : list (tree T)).

(** What passing a whole tree does to the cursor. *)
Definition passes (t : tree T) : Prop := forall p i s r,
  0 <= i < usize_max -> 1 <= r ->
  accepts (mk (IndexPath.mk (p ++ [i])) (s ++ [r])) (labels (p ++ [i]) t)
    (settle p (i + 1) s (r - 1)).

Lemma passes_forest cs p i s r :
  Forall passes cs -> cs <> [] ->
  0 <= i -> i + Z.of_nat (length cs) <= usize_max -> Z.of_nat (length cs) <= r ->
  accepts (mk (IndexPath.mk (p ++ [i])) (s ++ [r])) (forest p i cs)
    (settle p (i + Z.of_nat (length cs)) s (r - Z.of_nat (length cs))).
Proof.
  intros HF. revert i r. induction HF as [|c cs Hc _ IH]; intros i r Hne Hi Hb Hr; [done|].
  cbn [length forest] in *. destruct cs as [|c' cs].
  - cbn [forest]. rewrite app_nil_r. replace (i + Z.of_nat 1) with (i + 1) by lia.
    replace (r - Z.of_nat 1) with (r - 1) by lia. apply Hc; simpl in *; lia.
  - eapply accepts_app.
    + apply Hc; simpl in *; lia.
    + rewrite settle_more by (simpl in *; lia).
      replace (i + Z.of_nat (S (length (c' :: cs))))
        with (i + 1 + Z.of_nat (length (c' :: cs))) by lia.
      replace (r - Z.of_nat (S (length (c' :: cs))))
        with (r - 1 - Z.of_nat (length (c' :: cs))) by lia.
      apply IH; [done|simpl in *; lia..].
Qed.

Lemma passes_tree (t : tree T) : sized t -> passes t.
Proof.
  induction t as [v cs IH] using tree_nested_ind. intros Hs p i s r Hi Hr.
  inversion Hs as [? ? Hlen Hcs]; subst. rewrite labels_node. cbn [accepts]. split; [done|].
  unfold advance_past, decrement_remaining_children. cbn [looking_for child_count_stack].
  rewrite update_last_snoc. unfold saturating_sub. rewrite Z.max_r by lia.
  destruct cs as [|c cs]; cbn [Ordered.child_count length].
  - simpl. unfold IndexPath.increment_last; simpl. rewrite update_last_snoc.
    rewrite usize_add_small by lia. done.
  - rewrite (proj2 (Z.ltb_lt 0 _)) by lia.
    unfold IndexPath.push; cbn [IndexPath.indices].
    pose proof (passes_forest (c :: cs) (p ++ [i]) 0 (s ++ [r - 1])
                  (Z.of_nat (S (length cs)))) as HF.
    cbn [length] in HF. rewrite Z.sub_diag, settle_up in HF by lia.
    apply HF; simpl in *; try done; try lia.
    rewrite Forall_forall in IH, Hcs |- *. auto.
Qed.

(** The cursor's default state accepts the walk of any tree rooted at [0],
    and then looks for nothing. *)
Lemma default_accepts (t : tree T) :
  sized t -> accepts default (labels [0] t) (mk (IndexPath.mk []) []).
Proof.
  intros Hs. rewrite <- (settle_root 1). apply (passes_tree t Hs [] 0 [] 1); [|lia].
  unfold usize_max, usize_bits. lia.
Qed.
End Tree.
End MatcherFacts.

(** ** The consumer's loops *)

Module IterFacts.
Import OrderedQueueIter MatcherFacts.

Section Facts.
Context {E T : Type} {HW : World E (Ordered.t T)} {HL : WorldLaws E (Ordered.t T) STRICT_WAIT_TIMEOUT}.
Implicit Types (self : t T) (e : E) (o : Ordered.t T) (rem h : list (Ordered.t T)).

(** What remains to be received and waited for. *)
Definition fuel_needed e : nat := length (arrivals e) + patience e.

(** The buffer and the channel hold exactly the elements of [rem].  The cursor is about
    to look for the elements of [full] in this order; those that are not in [rem] will
    never arrive. *)
Record expects self e rem full : Prop := {
  ex_perm : receive_buffer self ++ arrivals e ≡ₚ rem;
  ex_sublist : rem `sublist_of` full;
  ex_sorted : StronglySorted before full;
  ex_accepts : accepts (ordered_matcher self) full (OrderedMatcher.mk (IndexPath.mk []) []);
  ex_paths : Forall (fun o => path_of o <> []) full;
}.

Lemma expects_future self e e' rem full :
  same_future arrivals patience running e e' -> expects self e rem full ->
  expects self e' rem full.
Proof. intros [Ha _ _] [Hp ? ? ? ?]. split; try done. by rewrite Ha. Qed.

Lemma expects_received self e e' o rem full :
  received arrivals patience running o e e' -> expects self e rem full ->
  expects (set_buffer self (Heap.push o (receive_buffer self))) e' rem full.
Proof.
  intros [Ha _ _] [Hp ? ? ? ?]. split; try done. rewrite <- Hp, Ha. simpl.
  apply Permutation_middle.
Qed.

Lemma fuel_future e e' :
  same_future arrivals patience running e e' -> (fuel_needed e' <= fuel_needed e)%nat.
Proof. intros [Ha%Permutation_length Hp _]. unfold fuel_needed. lia. Qed.

Lemma fuel_received e e' o :
  received arrivals patience running o e e' -> (fuel_needed e' < fuel_needed e)%nat.
Proof. intros [Ha%Permutation_length Hp _]. simpl in Ha. unfold fuel_needed. lia. Qed.

Lemma fuel_waited e e' :
  same_future arrivals patience running e e' -> (patience e' < patience e)%nat ->
  (fuel_needed e' < fuel_needed e)%nat.
Proof. intros [Ha%Permutation_length _ _]. unfold fuel_needed. lia. Qed.

Lemma drain_n_expects n self e rem full :
  expects self e rem full ->
  let '(h, e') := drain_n n (receive_buffer self) e in
  expects (set_buffer self h) e' rem full /\ (fuel_needed e' <= fuel_needed e)%nat /\
  (running e -> running e') /\ clock e' = clock e /\ (arrivals e = [] -> arrivals e' = []).
Proof.
  revert self e. induction n as [|n IH]; intros self e Hex; simpl.
  { split_and!; try done. by destruct self. }
  destruct (try_recv e) as [[x|err] e1] eqn:Er; apply try_recv_law in Er as [Hc Er].
  - specialize (IH _ _ (expects_received _ _ _ _ _ _ Er Hex)). simpl in IH.
    destruct (drain_n n (Heap.push x (receive_buffer self)) e1) as [h e'].
    destruct IH as (? & ? & ? & ? & ?). pose proof (fuel_received _ _ _ Er).
    destruct Er as [Ha _ ?]. split_and!; [done|lia|auto|congruence|].
    intros Hn. rewrite Hn in Ha. by apply Permutation_nil_cons in Ha.
  - split_and!; [|by apply fuel_future|by destruct Er|done|].
    + destruct self. by eapply expects_future.
    + destruct Er as [Ha _ _]. intros Hn. rewrite Hn in Ha. by apply Permutation_nil_r in Ha.
Qed.

Lemma drain_channel_expects self e rem full :
  expects self e rem full ->
  let '(self', e') := drain_channel self e in
  expects self' e' rem full /\ (fuel_needed e' <= fuel_needed e)%nat /\
  (running e -> running e') /\ clock e' = clock e /\ (arrivals e = [] -> arrivals e' = []).
Proof.
  intros Hex. unfold drain_channel.
  pose proof (drain_n_expects (max_receive_buffer_size self - length (receive_buffer self))
                self e rem full Hex) as H.
  by destruct (drain_n _ _ _) as [h e'].
Qed.

(** The first element of [rem], when buffered, is what the heap pops. *)
Lemma pop_first h o rem :
  StronglySorted before (o :: rem) -> (forall x, x ∈ h -> x ∈ o :: rem) -> o ∈ h ->
  exists h', Heap.pop Ordered.cmp h = Some (o, h').
Proof.
  intros Hs Hsub Ho. destruct (Heap.pop Ordered.cmp h) as [[m h']|] eqn:Eh.
  2:{ apply Heap.pop_none in Eh. subst. set_solver. }
  assert (m = o) as ->; [|by eauto].
  pose proof (ordered_pop_first _ _ _ Eh) as Hmin. rewrite Forall_forall in Hmin.
  specialize (Hmin o Ho). apply Heap.pop_perm in Eh.
  assert (m ∈ o :: rem) as Hm by (apply Hsub; rewrite Eh; set_solver).
  apply elem_of_cons in Hm as [->|Hm]; [done|].
  inversion Hs as [|? ? _ Hb]; subst. rewrite Forall_forall in Hb.
  specialize (Hb m Hm). unfold before, path_of in Hb.
  by rewrite (cmp_antisym slice_cmp), Hb in Hmin.
Qed.

Lemma expects_sub self e rem full o :
  expects self e rem full -> o ∈ receive_buffer self -> o ∈ rem.
Proof. intros [Hp _ _ _ _] Ho. rewrite <- Hp. set_solver. Qed.

(** In strictly sorted paths, only the first has its path. *)
Lemma first_path o full x :
  StronglySorted before (o :: full) -> x ∈ o :: full -> path_of x = path_of o -> x = o.
Proof.
  intros Hs [->|Hx]%elem_of_cons Hp; [done|]. exfalso.
  inversion Hs as [|? ? _ Hb]; subst. rewrite Forall_forall in Hb. specialize (Hb x Hx).
  unfold before in Hb. by rewrite Hp, (cmp_refl slice_cmp) in Hb.
Qed.

(** What arrives of [o :: full], when [o] does, starts with [o]. *)
Lemma sublist_first o full rem :
  StronglySorted before (o :: full) -> rem `sublist_of` o :: full -> o ∈ rem ->
  exists rem', rem = o :: rem' /\ rem' `sublist_of` full.
Proof.
  intros Hs [Hr|(rem' & -> & Hr)]%sublist_cons_r Ho; [|by eauto]. exfalso.
  inversion Hs as [|? ? _ Hb]; subst. rewrite Forall_forall in Hb.
  specialize (Hb o (elem_of_sublist _ _ _ Ho Hr)).
  unfold before in Hb. by rewrite (cmp_refl slice_cmp) in Hb.
Qed.

(** The top of the buffer matches: it is the first element expected. *)
Lemma top_matches_true self e rem full :
  expects self e rem full -> top_matches self = true ->
  exists o rem' full' self', rem = o :: rem' /\ take_top self = Ret (o, self') /\
    expects self' e rem' full'.
Proof.
  intros Hex Ht. pose proof Hex as [Hp Hsub Hs Ha Hn]. unfold top_matches in Ht.
  destruct (Heap.peek Ordered.cmp (receive_buffer self)) as [top|] eqn:Ek; [|done].
  apply IndexPath.eq_spec in Ht. apply Heap.peek_pop in Ek as [h' Ek].
  pose proof (Heap.pop_perm _ _ _ _ Ek) as Hperm.
  assert (top ∈ rem) as Htop by (eapply expects_sub; [exact Hex|]; rewrite Hperm; set_solver).
  pose proof (elem_of_sublist _ _ _ Htop Hsub) as Hfull.
  destruct full as [|o full']; [set_solver|]. destruct Ha as [Hl Ha].
  assert (top = o) as ->.
  { eapply first_path; [done..|]. unfold path_of. by rewrite Ht, Hl. }
  destruct (sublist_first o full' rem) as (rem' & -> & Hsub'); [done..|].
  exists o, rem', full'. unfold take_top. rewrite Ek. simpl. eexists. split; [done|]. split; [done|].
  inversion Hs; inversion Hn; subst. split; try done. simpl.
  apply (Permutation_cons_inv (a := o)). rewrite <- Hp, Hperm. done.
Qed.

(** The cursor knows that it is looking for something. *)
Lemma expects_cons self e rem o full :
  expects self e rem (o :: full) -> OrderedMatcher.is_none (ordered_matcher self) = false.
Proof.
  intros [_ _ _ [Hl _] Hn]. unfold OrderedMatcher.is_none, IndexPath.is_empty. rewrite Hl.
  inversion Hn as [|? ? Hne _]; subst. unfold path_of in Hne.
  by destruct (IndexPath.indices (Ordered.index_path o)).
Qed.

Lemma expects_nil self e rem :
  expects self e rem [] ->
  rem = [] /\ OrderedMatcher.is_none (ordered_matcher self) = true.
Proof.
  intros [_ Hsub _ Ha _]. simpl in Ha. rewrite Ha. by apply sublist_nil_r in Hsub.
Qed.

(** What one call of [try_next_strict] may answer when [rem] is to come. *)
Definition strict_post (deadline : Z) e rem full (r : exec (answer * t T * E)) : Prop :=
  match r with
  | Ret (Ok x, self', e') =>
      exists rem' full', rem = x :: rem' /\ expects self' e' rem' full' /\
        (fuel_needed e' <= fuel_needed e)%nat /\ (running e -> running e')
  | Ret (Err Empty, self', e') =>
      expects self' e' rem full /\ (fuel_needed e' <= fuel_needed e)%nat /\
      (clock e + STRICT_WAIT_TIMEOUT <= deadline -> (fuel_needed e' < fuel_needed e)%nat) /\
      (running e -> running e')
  | Ret (Err Disconnected, self', e') => rem = [] \/ ~ running e
  | Panic | NoFuel => False
  end.

(** Weakening: the loop may have consumed something before [e']. *)
Lemma strict_post_mono deadline e e' rem full r :
  (fuel_needed e' < fuel_needed e)%nat -> (running e -> running e') ->
  strict_post deadline e' rem full r -> strict_post deadline e rem full r.
Proof.
  intros Hf Hr. destruct r as [[[[x|[|]] self'] e'']| |]; simpl; try done.
  - intros (rem' & full' & -> & ? & ? & ?). do 2 eexists. split_and!; [done|done|lia|auto].
  - intros (? & ? & ? & ?). split_and!; [done|lia|lia|auto].
  - intros [?|?]; [auto|]. right. auto.
Qed.

Lemma take_top_post deadline e e' self rem full :
  expects self e' rem full -> (fuel_needed e' <= fuel_needed e)%nat ->
  (running e -> running e') -> top_matches self = true ->
  strict_post deadline e rem full (let! p := take_top self in Ret (Ok (fst p), snd p, e')).
Proof.
  intros Hex Hf Hr Ht.
  destruct (top_matches_true _ _ _ _ Hex Ht) as (o & rem' & full' & self' & -> & -> & Hex').
  simpl. eauto 7.
Qed.

(** The channel is disconnected: what the cursor was looking for will not arrive, and the
    first of what has arrived is handed out instead. *)
Lemma on_disconnected_post deadline e e' self rem full :
  expects self e' rem full -> (fuel_needed e' <= fuel_needed e)%nat ->
  (running e -> running e') -> arrivals e' = [] ->
  strict_post deadline e rem full (on_disconnected self e').
Proof.
  intros Hex Hf Hr Ha. unfold on_disconnected.
  pose proof (drain_channel_expects _ _ _ _ Hex) as Hd.
  destruct (drain_channel self e') as [self2 e2].
  destruct Hd as (Hex2 & L2 & R2 & _ & A2). specialize (A2 Ha).
  destruct (top_matches self2) eqn:Ht.
  { apply take_top_post; [done|lia|auto|done]. }
  pose proof Hex2 as [Hp Hsub Hs Hacc Hn]. rewrite A2, app_nil_r in Hp.
  destruct (Heap.pop _ _) as [[x h]|] eqn:Eh; simpl.
  2: { left. apply Heap.pop_none in Eh. rewrite Eh in Hp. by apply Permutation_nil_l in Hp. }
  destruct rem as [|o rem].
  { apply Heap.pop_perm in Eh. rewrite Hp in Eh. by apply Permutation_nil_cons in Eh. }
  pose proof (sublist_sorted _ _ _ Hsub Hs) as Hsr.
  destruct (pop_first (receive_buffer self2) o rem) as [h' Eh']; [done| | |].
  { intros y. by rewrite Hp. }
  { rewrite Hp. set_solver. }
  rewrite Eh in Eh'. simplify_eq. exists rem, full. split; [done|]. split_and!; [|lia|auto].
  split; [|by eapply sublist_tail|done..]. simpl. rewrite A2, app_nil_r.
  apply Heap.pop_perm in Eh. apply (Permutation_cons_inv (a := o)). by rewrite <- Eh, Hp.
Qed.

Lemma strict_loop_post fuel deadline self e rem full :
  (fuel_needed e < fuel)%nat -> expects self e rem full ->
  strict_post deadline e rem full (strict_loop fuel deadline self e).
Proof.
  revert self e. induction fuel as [|fuel IH]; intros self e Hfuel Hex; [lia|].
  cbn [strict_loop]. unfold is_stop.
  destruct (load_stop e) as [stop e1] eqn:E1. apply load_stop_law in E1 as (F1 & C1 & S1).
  pose proof (fuel_future _ _ F1) as L1. pose proof (sf_running _ _ _ _ _ F1) as R1.
  destruct stop. { simpl. right. intros Hr. by apply S1 in Hr. }
  apply (expects_future _ _ _ _ _ F1) in Hex.
  set (d := if top_matches self then (self, e1) else drain_channel self e1).
  assert (let '(self', e') := d in
    expects self' e' rem full /\ (fuel_needed e' <= fuel_needed e1)%nat /\
    (running e1 -> running e') /\ clock e' = clock e1) as Hd.
  { unfold d. destruct (top_matches self); [done|].
    pose proof (drain_channel_expects _ _ _ _ Hex) as Hdr. destruct (drain_channel self e1).
    by destruct Hdr as (? & ? & ? & ? & _). }
  destruct d as [self2 e2]. clear Hex. destruct Hd as (Hex & L2 & R2 & C2).
  destruct (top_matches self2) eqn:Ht.
  { apply take_top_post; try done; [lia|auto]. }
  destruct full as [|o full].
  { destruct (expects_nil _ _ _ Hex) as [-> ->]. simpl. by left. }
  rewrite (expects_cons _ _ _ _ _ Hex).
  destruct (now e2) as [t e3] eqn:E3. apply now_law in E3 as (F3 & C3 & M3 & S3).
  pose proof (fuel_future _ _ F3) as L3. pose proof (sf_running _ _ _ _ _ F3) as R3.
  apply (expects_future _ _ _ _ _ F3) in Hex.
  destruct (Z.leb_spec deadline t) as [Hdl|Hdl].
  { simpl. split_and!; [done|lia| |auto]. intros Hd.
    assert (patience e3 < patience e2)%nat by (apply S3; lia).
    pose proof (fuel_waited _ _ F3). lia. }
  destruct (now e3) as [t' e4] eqn:E4. apply now_law in E4 as (F4 & _ & _ & _).
  pose proof (fuel_future _ _ F4) as L4. pose proof (sf_running _ _ _ _ _ F4) as R4.
  apply (expects_future _ _ _ _ _ F4) in Hex.
  destruct (recv_timeout _ e4) as [[x|[|]] e5] eqn:E5; apply recv_timeout_law in E5.
  - pose proof (fuel_received _ _ _ E5). apply (expects_received _ _ _ _ _ _ E5) in Hex.
    eapply strict_post_mono; [| |apply IH; [|exact Hex]]; [lia| |lia].
    intros; apply (rc_running _ _ _ _ _ _ E5); auto.
  - destruct E5 as [F5 P5]. apply (expects_future _ _ _ _ _ F5) in Hex.
    pose proof (fuel_waited _ _ F5 P5).
    eapply strict_post_mono; [| |apply IH; [|exact Hex]]; [lia| |lia].
    intros; apply (sf_running _ _ _ _ _ F5); auto.
  - destruct E5 as [F5 A5]. apply (expects_future _ _ _ _ _ F5) in Hex.
    pose proof (fuel_future _ _ F5). apply on_disconnected_post; [done|lia| |].
    + intros; apply (sf_running _ _ _ _ _ F5); auto.
    + destruct F5 as [Ha _ _]. rewrite A5 in Ha. by apply Permutation_nil_r in Ha.
Qed.

Lemma next_spec fuel self e rem full :
  (fuel_needed e < fuel)%nat -> expects self e rem full ->
  match next fuel (self, e) with
  | Ret (Some x, (self', e')) =>
      exists rem' full', rem = x :: rem' /\ expects self' e' rem' full' /\
        (fuel_needed e' <= fuel_needed e)%nat /\ (running e -> running e')
  | Ret (None, (self', e')) => rem = [] \/ ~ running e
  | _ => False
  end.
Proof.
  revert self e. induction fuel as [|fuel IH]; intros self e Hfuel Hex; [lia|].
  cbn [next fst snd]. unfold try_next_strict.
  destruct (now e) as [t e1] eqn:E1. apply now_law in E1 as (F1 & C1 & _ & _).
  pose proof (fuel_future _ _ F1) as L1. pose proof (sf_running _ _ _ _ _ F1) as R1.
  apply (expects_future _ _ _ _ _ F1) in Hex.
  pose proof (strict_loop_post (S fuel) (t + STRICT_WAIT_TIMEOUT) self e1 rem full) as H.
  specialize (H ltac:(lia) Hex).
  destruct (strict_loop _ _ _ _) as [[[[x|[|]] self2] e2]| |]; simpl in H |- *; try done.
  - destruct H as (rem' & full' & -> & ? & ? & ?). do 2 eexists. split_and!; [done|done|lia|auto].
  - destruct H as (Hex2 & _ & L2 & R2). specialize (L2 ltac:(lia)).
    pose proof (yield_law e2) as F3. pose proof (fuel_future _ _ F3) as L3.
    apply (expects_future _ _ _ _ _ F3) in Hex2.
    specialize (IH self2 (yield_now e2) ltac:(lia) Hex2).
    pose proof (sf_running _ _ _ _ _ F3) as R3.
    destruct (next fuel (self2, yield_now e2)) as [[[x|] [self4 e4]]| |]; try done.
    + destruct IH as (rem' & full' & -> & ? & ? & ?). do 2 eexists. split_and!; [done|done|lia|auto].
    + destruct IH as [?|Hn]; [by left|right; intros Hr; apply Hn; auto].
  - destruct H as [?|Hn]; [by left|right; intros Hr; apply Hn; auto].
Qed.

Lemma yields_prefix fuel self e rem full :
  (fuel_needed e < fuel)%nat -> expects self e rem full ->
  exists l, yields (next fuel) (self, e) l /\ l `prefix_of` rem /\ (running e -> l = rem).
Proof.
  remember (length rem) as n eqn:Hn. revert self e rem full Hn.
  induction n as [n IH] using lt_wf_ind; intros self e rem full -> Hfuel Hex.
  pose proof (next_spec fuel self e rem full Hfuel Hex) as H.
  destruct (next fuel (self, e)) as [[[x|] [self1 e1]]| |] eqn:En; simpl in *; try done.
  - destruct H as (rem' & full' & -> & Hex1 & L1 & R1).
    destruct (IH (length rem') ltac:(simpl; lia) self1 e1 rem' full' eq_refl ltac:(lia) Hex1)
      as (l & Hy & Hl & Hall).
    exists (x :: l). split_and!; [by eapply yields_cons|by apply prefix_cons|].
    intros Hr. f_equal. auto.
  - exists []. split_and!; [by eapply yields_nil|apply prefix_nil|].
    intros Hr. by destruct H as [->|?].
Qed.

Lemma new_queue_expects max e (tr : tree T) rem :
  sized tr -> arrivals e ≡ₚ rem -> rem `sublist_of` labels [0] tr ->
  expects (new_ordered_queue max) e rem (labels [0] tr).
Proof.
  intros Hs Ha Hsub. split; simpl; [done|done|apply labels_sorted| |].
  - by apply default_accepts.
  - by apply labels_paths_nonempty.
Qed.

(** The flag read as set: [next] ends at once. *)
Lemma next_stopped fuel self e :
  (0 < fuel)%nat -> fst (load_stop (snd (now e))) = true ->
  next fuel (self, e) = Ret (None, (self, snd (load_stop (snd (now e))))).
Proof.
  intros Hf Hs. destruct fuel as [|fuel]; [lia|]. cbn [next fst snd]. unfold try_next_strict.
  destruct (now e) as [t e1]. simpl in Hs |- *. unfold is_stop.
  destruct (load_stop e1) as [b e2]. simpl in Hs |- *. by subst.
Qed.
End Facts.
End IterFacts.

(** ** What the ordered queue promises *)

Section OrderedStream.
Context {E T : Type} {HW : World E (Ordered.t T)}
  {HL : WorldLaws E (Ordered.t T) STRICT_WAIT_TIMEOUT}.

(** A new queue fed the results [rem] of a walk, stopped or not. *)
Lemma partial_stream (tr : tree T) (max fuel : nat) (e : E) rem :
  sized tr -> arrivals e ≡ₚ rem -> rem `sublist_of` labels [0] tr ->
  (length (arrivals e) + patience e < fuel)%nat ->
  exists l,
    yields (OrderedQueueIter.next fuel) (OrderedQueueIter.new_ordered_queue max, e) l /\
    l `prefix_of` rem /\ (running e -> l = rem).
Proof.
  intros Hs Ha Hsub Hf. eapply (IterFacts.yields_prefix _ _ _ _ (labels [0] tr)); [done|].
  by apply IterFacts.new_queue_expects.
Qed.

(** The same when all of them arrive. *)
Lemma new_stream (tr : tree T) (max fuel : nat) (e : E) :
  sized tr -> arrivals e ≡ₚ labels [0] tr ->
  (length (arrivals e) + patience e < fuel)%nat ->
  exists l,
    yields (OrderedQueueIter.next fuel) (OrderedQueueIter.new_ordered_queue max, e) l /\
    l `prefix_of` labels [0] tr /\ (running e -> l = labels [0] tr).
Proof. intros Hs Ha Hf. by apply (partial_stream tr). Qed.

(** C8: whatever the order in which the results of a walk arrive, whatever the
    waits, and whatever the size of the reorder buffer (0 included), as long as
    the walk is not stopped the consumer yields exactly the results, in strict
    depth-first order, and then ends; it never panics. *)
Theorem ordered_stream_dfs (tr : tree T) (max fuel : nat) (e : E) :
  sized tr -> arrivals e ≡ₚ labels [0] tr -> running e ->
  (length (arrivals e) + patience e < fuel)%nat ->
  yields (OrderedQueueIter.next fuel) (OrderedQueueIter.new_ordered_queue max, e)
    (labels [0] tr).
Proof.
  intros Hs Ha Hr Hf. destruct (new_stream tr max fuel e) as (l & Hy & _ & Hl); [done..|].
  by rewrite <- Hl.
Qed.

(** C11: what is left of a walk that is stopped, or whose threads stop sending: only some of
    its results arrive ([missing] never will), in any order, and the stop flag may be set
    at any moment.  The consumer never panics and ends.  Put in depth-first order, the
    results that arrive start with what it has yielded: it never yields two results in
    the wrong order, none twice, and none is skipped before the last one yielded but those
    that never arrive.  When the flag is never set it yields every result that arrives.
    And from any state of the consumer, whatever is buffered, once the flag reads as set
    the next call ends the stream without yielding anything. *)
Theorem ordered_stream_prefix (tr : tree T) (max fuel : nat) (e : E) (missing : list (Ordered.t T)) :
  sized tr -> arrivals e ++ missing ≡ₚ labels [0] tr ->
  (length (arrivals e) + patience e < fuel)%nat ->
  (exists all l,
    all ≡ₚ arrivals e /\ all `sublist_of` labels [0] tr /\
    yields (OrderedQueueIter.next fuel) (OrderedQueueIter.new_ordered_queue max, e) l /\
    l `prefix_of` all /\ (running e -> l = all)) /\
  (forall self e', fst (load_stop (snd (now e'))) = true ->
    yields (OrderedQueueIter.next fuel) (self, e') []).
Proof.
  intros Hs Ha Hf. split.
  - assert (arrivals e ⊆+ labels [0] tr) as (all & Hall & Hsub)%submseteq_sublist_r.
    { rewrite <- Ha. apply submseteq_inserts_r. done. }
    destruct (partial_stream tr max fuel e all) as (l & ? & ? & ?); [done..|]. by exists all, l.
  - intros self e' He'. eapply yields_nil. apply IterFacts.next_stopped; [lia|done].
Qed.
End OrderedStream.

(** The cursor, started in its default state, looks for the directories of
    any walk in depth-first order, and then for nothing ([is_none]). *)
Theorem matcher_follows_dfs {T} (tr : tree T) :
  sized tr ->
  exists m, MatcherFacts.accepts OrderedMatcher.default (labels [0] tr) m /\
    OrderedMatcher.is_none m = true /\ OrderedMatcher.child_count_stack m = [].
Proof.
  intros Hs. eexists. split; [by apply MatcherFacts.default_accepts|done].
Qed.

(** ** Witnesses: a root with two sub-directories, the first with one of its own *)

Definition sample_tree : tree Z := Node 10 [Node 11 [Node 12 []]; Node 13 []].

Lemma sample_tree_sized : sized sample_tree.
Proof.
  repeat constructor; unfold usize_max, usize_bits; simpl; lia.
Qed.

(** The results arrive in reverse order, with waits in between. *)
Definition sample_script : script (Ordered.t Z) :=
  mk_script 0 false
    [Wait 5; Arrive (Ordered.mk 13 (IndexPath.mk [0; 1]) 0);
     Arrive (Ordered.mk 12 (IndexPath.mk [0; 0; 0]) 0); Wait 200000000;
     Arrive (Ordered.mk 11 (IndexPath.mk [0; 0]) 1);
     Arrive (Ordered.mk 10 (IndexPath.mk [0]) 2)].

Lemma sample_arrivals : arrivals (stall := STRICT_WAIT_TIMEOUT) sample_script ≡ₚ labels [0] sample_tree.
Proof. change (rev (labels [0] sample_tree) ≡ₚ labels [0] sample_tree). symmetry. apply Permutation_rev. Qed.

Lemma ordered_stream_dfs_witness :
  yields (OrderedQueueIter.next 9) (OrderedQueueIter.new_ordered_queue 0, sample_script)
    (labels [0] sample_tree).
Proof.
  apply (ordered_stream_dfs sample_tree 0 9 sample_script).
  - apply sample_tree_sized.
  - apply sample_arrivals.
  - by split.
  - simpl. lia.
Defined.

(** A stopped walk: the root arrives and one of its directories, the flag is set, another
    result arrives, and the last one never does. *)
Definition stopped_script : script (Ordered.t Z) :=
  mk_script 0 false
    [Arrive (Ordered.mk 10 (IndexPath.mk [0]) 2);
     Arrive (Ordered.mk 13 (IndexPath.mk [0; 1]) 0); StopSet;
     Arrive (Ordered.mk 11 (IndexPath.mk [0; 0]) 1)].

(** The same, the flag being left alone: the channel is disconnected. *)
Definition cut_script : script (Ordered.t Z) :=
  mk_script 0 false
    [Arrive (Ordered.mk 10 (IndexPath.mk [0]) 2);
     Arrive (Ordered.mk 13 (IndexPath.mk [0; 1]) 0);
     Arrive (Ordered.mk 11 (IndexPath.mk [0; 0]) 1)].

Definition never_sent : list (Ordered.t Z) := [Ordered.mk 12 (IndexPath.mk [0; 0; 0]) 0].

Lemma cut_arrivals :
  arrivals (stall := STRICT_WAIT_TIMEOUT) stopped_script ++ never_sent ≡ₚ labels [0] sample_tree.
Proof.
  change (hd (Ordered.mk 10 (IndexPath.mk [0]) 2) (labels [0] sample_tree) ::
    [Ordered.mk 13 (IndexPath.mk [0; 1]) 0; Ordered.mk 11 (IndexPath.mk [0; 0]) 1] ++ never_sent ≡ₚ
    labels [0] sample_tree).
  simpl. apply perm_skip. etransitivity; [apply perm_swap|]. apply perm_skip, perm_swap.
Qed.

Lemma ordered_stream_prefix_witness :
  (exists all l,
    all ≡ₚ arrivals (stall := STRICT_WAIT_TIMEOUT) stopped_script /\
    all `sublist_of` labels [0] sample_tree /\
    yields (OrderedQueueIter.next 9) (OrderedQueueIter.new_ordered_queue 1, stopped_script) l /\
    l `prefix_of` all /\ (running (stall := STRICT_WAIT_TIMEOUT) stopped_script -> l = all)) /\
  yields (OrderedQueueIter.next 9)
    (OrderedQueueIter.new_ordered_queue 1, mk_script 0 true (sc_events stopped_script)) [].
Proof.
  destruct (ordered_stream_prefix sample_tree 1 9 stopped_script never_sent) as [H1 H2].
  - apply sample_tree_sized.
  - apply cut_arrivals.
  - simpl. lia.
  - split; [exact H1|]. apply H2. reflexivity.
Defined.

(** What the scripts make the consumer answer, computed. *)
Example sample_run :
  take_n (OrderedQueueIter.next 9) 5 (OrderedQueueIter.new_ordered_queue 0, sample_script) =
    Ret (map Some (labels [0] sample_tree) ++ [None]).
Proof. by vm_compute. Qed.

Example stopped_run :
  take_n (OrderedQueueIter.next 9) 2 (OrderedQueueIter.new_ordered_queue 1, stopped_script) =
    Ret [Some (Ordered.mk 10 (IndexPath.mk [0]) 2); None].
Proof. by vm_compute. Qed.

(** Without the flag: what has arrived, in depth-first order, around the missing one. *)
Example cut_run :
  take_n (OrderedQueueIter.next 9) 4 (OrderedQueueIter.new_ordered_queue 1, cut_script) =
    Ret (map Some [Ordered.mk 10 (IndexPath.mk [0]) 2; Ordered.mk 11 (IndexPath.mk [0; 0]) 1;
      Ordered.mk 13 (IndexPath.mk [0; 1]) 0] ++ [None]).
Proof. by vm_compute. Qed.

Lemma matcher_follows_dfs_witness :
  exists m, MatcherFacts.accepts OrderedMatcher.default (labels [0] sample_tree) m /\
    OrderedMatcher.is_none m = true /\ OrderedMatcher.child_count_stack m = [].
Proof. apply (matcher_follows_dfs sample_tree), sample_tree_sized. Defined.
