(* ===== verification/Std.v ===== *)
(** * The parts of [std] the crate's data is made of

    Byte strings and Unix paths, [Duration] and [SystemTime], [FileType] and the
    accessors of [fs::Metadata].  File-system calls are not functions of [std]
    alone: they are the fields of [FileSystem], an argument of the code that
    makes them. *)
From S2P Require Import Prelude.

(** ** Strings and paths *)

(** The bytes of an [OsStr] on Unix (on Windows, its UTF-16 code units). *)
Abbreviation OsString := (list Z).
Abbreviation Path := (list Z).

(** The bytes of a string literal. *)
Fixpoint bytes (s : string) : list Z :=
  match s with
  | EmptyString => []
  | String c s' => Z.of_N (Ascii.N_of_ascii c) :: bytes s'
  end.

Definition SLASH : Z := 47.
Definition DOT : Z := 46.

Definition is_absolute (p : Path) : bool :=
  match p with c :: _ => c =? SLASH | [] => false end.

(** [Path::join] on Unix. *)
Definition path_join (p name : Path) : Path :=
  if is_absolute name then name
  else match last p with
       | None => name
       | Some c => if c =? SLASH then p ++ name else p ++ SLASH :: name
       end.

(** [Path::components] on Unix works from the back for [file_name] and
    [parent]: [strip_back] removes, from a reversed path, the separators and the
    "." components that are not the first component. *)
Fixpoint strip_back (rp : list Z) : list Z :=
  match rp with
  | c :: rp' =>
      if c =? SLASH then
        match rp' with
        | [] => [c]
        | _ :: _ => strip_back rp'
        end
      else if c =? DOT then
        match rp' with
        | c' :: _ => if c' =? SLASH then strip_back rp' else rp
        | [] => rp
        end
      else rp
  | [] => []
  end.

(** The component at the front of a reversed path, and what follows it. *)
Fixpoint take_component (rp : list Z) : list Z * list Z :=
  match rp with
  | c :: rp' =>
      if c =? SLASH then ([], rp)
      else let '(comp, rest) := take_component rp' in (c :: comp, rest)
  | [] => ([], [])
  end.

Definition path_file_name (p : Path) : option OsString :=
  let '(rcomp, _) := take_component (strip_back (rev p)) in
  match rev rcomp with
  | [] => None
  | name => if bool_decide (name = [DOT]) then None
            else if bool_decide (name = [DOT; DOT]) then None else Some name
  end.

Definition path_parent (p : Path) : option Path :=
  let '(rcomp, rest) := take_component (strip_back (rev p)) in
  match rcomp with
  | [] => None
  | _ => Some (rev (strip_back rest))
  end.

Example path_file_name_ex :
  path_file_name (bytes "/usr/lib/") = Some (bytes "lib") /\
  path_file_name (bytes "/") = None /\ path_file_name (bytes "a/..") = None /\
  path_file_name (bytes "a/b/.") = Some (bytes "b") /\
  path_parent (bytes "/usr") = Some (bytes "/") /\ path_parent (bytes "foo") = Some [] /\
  path_parent (bytes "a//b") = Some (bytes "a") /\ path_parent (bytes "/") = None.
Proof. by vm_compute. Qed.

Lemma path_join_relative p name :
  is_absolute name = false -> exists sep, path_join p name = p ++ sep ++ name /\ (sep = [] \/ sep = [SLASH]).
Proof.
  intros H. unfold path_join. rewrite H. destruct (last p) as [c|] eqn:E.
  - destruct (c =? SLASH); [exists []|exists [SLASH]]; auto.
  - apply last_None in E as ->. exists []. auto.
Qed.

(** ** Integers *)

(** [as u32], [as u64] *)
Definition as_u32 (n : Z) : Z := n mod 2 ^ 32.
Definition as_u64 (n : Z) : Z := n mod 2 ^ 64.

(** ** Time *)

(** [Duration]: whole seconds ([u64]) and nanoseconds below [10^9]. *)
Record Duration := mk_duration { secs : Z; nanos : Z }.

Definition u64_max : Z := 2 ^ 64 - 1.
Definition NANOS_PER_SEC : Z := 1000000000.

(** [Duration::new] carries whole seconds out of [nanos], and panics when the
    seconds overflow. *)
Definition duration_new (secs nanos : Z) : exec Duration :=
  if nanos <? NANOS_PER_SEC then Ret (mk_duration secs nanos)
  else
    let s := secs + nanos / NANOS_PER_SEC in
    if s <=? u64_max then Ret (mk_duration s (nanos mod NANOS_PER_SEC)) else Panic.

(** [SystemTime] as the duration since [UNIX_EPOCH] (the crate builds no
    earlier instant).  On Unix its seconds are an [i64]. *)
Definition SystemTime : Type := Duration.

(** [UNIX_EPOCH.checked_add(d)] on Unix. *)
Definition epoch_checked_add (d : Duration) : option SystemTime :=
  if secs d <=? 2 ^ 63 - 1 then Some d else None.

(** ** Files *)

(** [st_mode] bits of [libc]. *)
Definition S_IFMT : Z := 0xF000.
Definition S_IFIFO : Z := 0x1000.
Definition S_IFCHR : Z := 0x2000.
Definition S_IFDIR : Z := 0x4000.
Definition S_IFBLK : Z := 0x6000.
Definition S_IFREG : Z := 0x8000.
Definition S_IFLNK : Z := 0xA000.
Definition S_IFSOCK : Z := 0xC000.

(** [std::fs::FileType] on Unix holds the mode. *)
Record FileType := mk_file_type { ft_mode : Z }.
Definition ft_is (ft : FileType) (kind : Z) : bool := Z.land (ft_mode ft) S_IFMT =? kind.
Definition is_dir (ft : FileType) : bool := ft_is ft S_IFDIR.
Definition is_file (ft : FileType) : bool := ft_is ft S_IFREG.
Definition is_symlink (ft : FileType) : bool := ft_is ft S_IFLNK.

#[export] Instance FileType_eq_dec : EqDecision FileType.
Proof. solve_decision. Defined.

(** [std::fs::Permissions] holds the mode on Unix, the file attributes on Windows. *)
Record Permissions := mk_permissions { perm_mode : Z }.

(** What the accessors of [fs::Metadata] return on Unix. *)
Record fs_Metadata := mk_fs_metadata {
  md_mode : Z; md_ino : Z; md_dev : Z; md_nlink : Z; md_blksize : Z; md_blocks : Z;
  md_uid : Z; md_gid : Z; md_rdev : Z; md_len : Z;
  md_created : option SystemTime;   (** [created().ok()] *)
  md_modified : option SystemTime;  (** [modified().ok()] *)
  md_accessed : option SystemTime;  (** [accessed().ok()] *)
}.

Definition md_file_type (m : fs_Metadata) : FileType := mk_file_type (md_mode m).

(** [c] is exactly one of the kinds. *)
Lemma ft_kinds_disjoint ft :
  (is_dir ft = true -> is_file ft = false /\ is_symlink ft = false) /\
  (is_symlink ft = true -> is_dir ft = false /\ is_file ft = false).
Proof.
  unfold is_dir, is_file, is_symlink, ft_is. split; intros H; apply Z.eqb_eq in H;
    rewrite H; by vm_compute.
Qed.
