(* ===== verification/Bytes.v ===== *)
(** * Memory as bytes

    A buffer is a list of bytes (each a [Z] below 256); integers are stored
    little-endian, as on every target with the code modelled here. *)
From S2P Require Import Prelude.

(** [to_ne_bytes] on a little-endian machine, and back. *)
Fixpoint to_le_bytes (n : nat) (x : Z) : list Z :=
  match n with
  | O => []
  | S n' => x mod 256 :: to_le_bytes n' (x / 256)
  end.

Fixpoint of_le_bytes (l : list Z) : Z :=
  match l with
  | [] => 0
  | b :: l' => b + 256 * of_le_bytes l'
  end.

Lemma length_to_le_bytes n x : length (to_le_bytes n x) = n.
Proof. revert x. induction n; intros x; simpl; auto. Qed.

Lemma of_to_le_bytes n x : of_le_bytes (to_le_bytes n x) = x mod 2 ^ (8 * Z.of_nat n).
Proof.
  revert x. induction n as [|n IH]; intros x; simpl.
  - by rewrite Z.mod_1_r.
  - rewrite IH. replace (8 * Z.of_nat (S n)) with (8 + 8 * Z.of_nat n) by lia.
    rewrite Z.pow_add_r by lia. change (2 ^ 8) with 256.
    rewrite Z.rem_mul_r by lia. lia.
Qed.

(** The buffer from [offset] on. *)
Definition bytes_at (buf : list Z) (offset : Z) : list Z := drop (Z.to_nat offset) buf.

Lemma bytes_at_app l1 l2 k :
  0 <= k -> bytes_at (l1 ++ l2) (Z.of_nat (length l1) + k) = bytes_at l2 k.
Proof.
  intros Hk. unfold bytes_at. replace (Z.to_nat (Z.of_nat (length l1) + k))
    with (length l1 + Z.to_nat k)%nat by lia. apply drop_app_add.
Qed.
