(* ===== verification/Error.v ===== *)
(** * Errors and retries: [error.rs] and [retry_transient_io] of [lib.rs] *)
From S2P Require Import Prelude Std.

(** ** [std::io::Error] *)

(** The kinds the crate names; [OtherKind] stands for all the others. *)
Inductive ErrorKind : Set :=
| TimedOut | Interrupted | WouldBlock | ConnectionReset | ConnectionAborted
| InvalidInput | Other | OtherKind (n : Z).

(** An [io::Error] is an operating-system error (its code, and the kind [std]
    gives this code), a message with a kind, or a boxed error with a kind: the
    walk error itself, in [From<Error> for io::Error]. *)
Inductive io_Error : Type :=
| Os (code : Z) (kind : ErrorKind)
| Message (kind : ErrorKind) (msg : string)
| Custom (kind : ErrorKind) (depth : Z) (inner : ErrorInner)
with ErrorInner : Type :=
| Io (path : option Path) (err : io_Error)
| Loop (ancestor child : Path)
| ThreadpoolBusy.

Definition raw_os_error (e : io_Error) : option Z :=
  match e with Os code _ => Some code | _ => None end.

Definition kind (e : io_Error) : ErrorKind :=
  match e with Os _ k => k | Message k _ => k | Custom k _ _ => k end.

Module Error.
Record t := mk { err_depth : Z; inner : ErrorInner }.

Definition path (self : t) : option Path :=
  match inner self with
  | ThreadpoolBusy => None
  | Io None _ => None
  | Io (Some path) _ => Some path
  | Loop _ child => Some child
  end.

Definition loop_ancestor (self : t) : option Path :=
  match inner self with
  | Loop ancestor _ => Some ancestor
  | _ => None
  end.

Definition depth (self : t) : Z := err_depth self.

Definition io_error (self : t) : option io_Error :=
  match inner self with
  | Io _ err => Some err
  | _ => None
  end.

Definition is_busy (self : t) : bool :=
  match inner self with ThreadpoolBusy => true | _ => false end.

Definition into_io_error (self : t) : option io_Error :=
  match inner self with
  | Io _ err => Some err
  | _ => None
  end.

Definition busy : t := mk 0 ThreadpoolBusy.
Definition from_path (depth : Z) (pb : Path) (err : io_Error) : t :=
  mk depth (Io (Some pb) err).
(** [from_entry] takes the entry's depth and path. *)
Definition from_entry (depth : Z) (path : Path) (err : io_Error) : t :=
  mk depth (Io (Some path) err).
Definition from_io (depth : Z) (err : io_Error) : t := mk depth (Io None err).
Definition from_loop (depth : Z) (ancestor child : Path) : t :=
  mk depth (Loop ancestor child).

(** [error::Error::source] *)
Definition source (self : t) : option io_Error :=
  match inner self with
  | Io _ err => Some err
  | Loop _ _ | ThreadpoolBusy => None
  end.

(** [From<Error> for io::Error] *)
Definition into_io (walk_err : t) : io_Error :=
  let kind :=
    match walk_err with
    | mk _ (Io _ err) => kind err
    | mk _ (Loop _ _) => Other
    | mk _ ThreadpoolBusy => Other
    end in
  Custom kind (err_depth walk_err) (inner walk_err).

(** [Display], with the rendering of paths and of [io::Error] by [std] as arguments. *)
Definition fmt (display_path : Path -> string) (display_io : io_Error -> string)
    (self : t) : string :=
  match inner self with
  | ThreadpoolBusy =>
      "rayon thread-pool too busy or dependency loop detected - aborting before possibility of deadlock"
  | Io None err => display_io err
  | Io (Some path) err =>
      "IO error for operation on " +:+ display_path path +:+ ": " +:+ display_io err
  | Loop ancestor child =>
      "File system loop found: " +:+ display_path child +:+ " points to an ancestor " +:+
      display_path ancestor
  end%string.
End Error.

Abbreviation Result T := (result T Error.t).

(** ** Transient errors *)

Inductive Target : Set := Windows | NotWindows.

Definition is_transient_io_error (os : Target) (err : io_Error) : bool :=
  match raw_os_error err with
  | Some code =>
      match os with
      | Windows => existsb (Z.eqb code) [32; 33; 54; 121; 1237]
      | NotWindows => existsb (Z.eqb code) [11; 16; 150]
      end
  | None =>
      match kind err with
      | TimedOut | Interrupted | WouldBlock | ConnectionReset | ConnectionAborted => true
      | _ => false
      end
  end.

Definition is_transient_error (os : Target) (err : Error.t) : bool :=
  match Error.inner err with
  | Io _ err => is_transient_io_error os err
  | Loop _ _ | ThreadpoolBusy => false
  end.

(** ** Retrying *)

Section Retry.
Context {St T : Type} (os : Target) (op : St -> Result T * St).

(** The [for] loop over the attempts; [yields] counts the calls of
    [std::thread::yield_now].  Falling off the loop is the [unreachable!]. *)
Fixpoint retry_loop (max_retries : Z) (attempts : list Z) (yields : nat) (s : St) :
    exec (Result T * nat * St) :=
  match attempts with
  | [] => Panic
  | attempt :: attempts' =>
      match op s with
      | (Ok result, s) => Ret (Ok result, yields, s)
      | (Err e, s) =>
          if (attempt <? max_retries) && is_transient_error os e then
            retry_loop max_retries attempts' (if 0 <? attempt then S yields else yields) s
          else Ret (Err e, yields, s)
      end
  end.

Definition retry_transient_io (max_retries : Z) (s : St) : exec (Result T * nat * St) :=
  retry_loop max_retries (seqZ 0 (max_retries + 1)) 0 s.

(** The result of the [k]-th call of [op] (from 0), and the state after it. *)
Fixpoint nth_call (k : nat) (s : St) : Result T * St :=
  match k with
  | O => op s
  | S k' => nth_call k' (snd (op s))
  end.

Definition retryable (r : Result T) : bool :=
  match r with Ok _ => false | Err e => is_transient_error os e end.

Lemma retry_loop_spec max_retries n a yields s :
  a + Z.of_nat n = max_retries -> 0 <= a ->
  exists k, (k <= n)%nat /\
    retry_loop max_retries (seqZ a (Z.of_nat n + 1)) yields s =
      Ret (fst (nth_call k s), (yields + (k - (if (0 <? a)%Z then 0 else 1)))%nat, snd (nth_call k s)) /\
    (forall j, (j < k)%nat -> retryable (fst (nth_call j s)) = true) /\
    (k = n \/ retryable (fst (nth_call k s)) = false).
Proof.
  revert a yields s. induction n as [|n IH]; intros a yields s Ha H0.
  - exists O. rewrite seqZ_cons by lia. cbn [retry_loop nth_call].
    split; [lia|]. split; [|split; [lia|by left]].
    rewrite (proj2 (Z.ltb_ge a max_retries)) by lia. simpl.
    destruct (op s) as [[r|e] s']; simpl; by rewrite Nat.add_0_r.
  - rewrite seqZ_cons by lia. cbn [retry_loop].
    rewrite (proj2 (Z.ltb_lt a max_retries)) by lia.
    destruct (op s) as [[r|e] s'] eqn:Eo.
    + exists O. simpl. rewrite Eo. simpl. rewrite Nat.add_0_r.
      split_and!; [lia|done|lia|by right].
    + cbn [andb]. destruct (is_transient_error os e) eqn:Et.
      * replace (Z.pred (Z.of_nat (S n) + 1)) with (Z.of_nat n + 1) by lia.
        destruct (IH (Z.succ a) (if 0 <? a then S yields else yields) s' ltac:(lia) ltac:(lia))
          as (k & Hk & Hr & Hj & He).
        exists (S k). rewrite Hr. cbn [nth_call]. rewrite Eo. simpl snd.
        split_and!; [lia| | |].
        -- f_equal. f_equal. f_equal. rewrite (proj2 (Z.ltb_lt 0 (Z.succ a))) by lia.
           destruct (0 <? a); lia.
        -- intros [|j] Hlt; simpl; rewrite Eo; [done|]. apply Hj. lia.
        -- destruct He; [left; lia|by right].
      * exists O. simpl. rewrite Eo. simpl. rewrite Nat.add_0_r.
        split_and!; [lia|done|lia|by right].
Qed.
End Retry.

(** C31: [retry_transient_io] always returns (its [unreachable!] is), calling the
    operation between once and [max_retries + 1] times: every call but the last
    failed with a transient error, and the last one succeeded, or failed for
    good, or was the last one allowed.  It yields the thread before every
    retry but the first. *)
Theorem retry_transient_io_spec {St T} os (op : St -> Result T * St) max_retries s :
  0 <= max_retries <= 255 ->
  exists k, Z.of_nat k <= max_retries /\
    retry_transient_io os op max_retries s =
      Ret (fst (nth_call op k s), (k - 1)%nat, snd (nth_call op k s)) /\
    (forall j, (j < k)%nat -> retryable os (fst (nth_call op j s)) = true) /\
    (Z.of_nat k = max_retries \/ retryable os (fst (nth_call op k s)) = false).
Proof.
  intros H. unfold retry_transient_io.
  destruct (retry_loop_spec os op max_retries (Z.to_nat max_retries) 0 0 s ltac:(lia) ltac:(lia))
    as (k & Hk & Hr & Hj & He).
  replace (Z.of_nat (Z.to_nat max_retries) + 1) with (max_retries + 1) in Hr by lia.
  exists k. simpl in Hr. split_and!; [lia|done|done|]. destruct He as [->|?]; [left; lia|by right].
Qed.

(** An operation that fails twice with [EAGAIN] and then succeeds. *)
Definition sample_op (n : nat) : Result Z * nat :=
  match n with
  | O | 1%nat => (Err (Error.from_io 0 (Os 11 WouldBlock)), S n)
  | _ => (Ok 7, S n)
  end.

Lemma retry_transient_io_spec_witness :
  exists k, Z.of_nat k <= 3 /\
    retry_transient_io NotWindows sample_op 3 O =
      Ret (fst (nth_call sample_op k O), (k - 1)%nat, snd (nth_call sample_op k O)) /\
    (forall j, (j < k)%nat -> retryable NotWindows (fst (nth_call sample_op j O)) = true) /\
    (Z.of_nat k = 3 \/ retryable NotWindows (fst (nth_call sample_op k O)) = false).
Proof. apply (retry_transient_io_spec NotWindows sample_op 3 O). lia. Defined.
