(* ===== verification/Platform.v ===== *)
(** * The target platform: what the [cfg] attributes of the crate select

    The crate is compiled for one platform.  Its entries, specs and results have the
    same fields everywhere, but the types of some of them, and what [std] does with
    paths and names, differ.  [Platform] is the interface through which the rest of
    the development uses them; [Metadata] implements it for Unix and [Windows] for
    Windows. *)
From S2P Require Import Prelude Order Std Error.

(** [MetaData] has the same fields on all platforms. *)
Record MetaData := mk_metadata {
  m_is_dir : bool;
  m_is_file : bool;
  m_is_symlink : bool;
  m_size : Z;
  m_created : option SystemTime;
  m_changed : option SystemTime;
  m_modified : option SystemTime;
  m_accessed : option SystemTime;
  m_permissions : option Permissions;
}.

Class Platform := {
  target : Target;
  (** [std::fs::FileType] *)
  FileType : Type;
  is_dir : FileType -> bool;
  is_file : FileType -> bool;
  is_symlink : FileType -> bool;
  (** [std::fs::Metadata], and what [metadata.rs] makes of it *)
  fs_Metadata : Type;
  md_file_type : fs_Metadata -> FileType;
  md_len : fs_Metadata -> Z;
  MetaDataExt : Type;
  get_metadata_ext : fs_Metadata -> MetaDataExt;
  from_fs_metadata : fs_Metadata -> MetaData;
  (** [AncestorIdentity]: [identify] builds it from a path and its metadata *)
  ancestor : Type;
  ancestor_path : ancestor -> Path;
  identify : Path -> fs_Metadata -> ancestor;
  ancestor_identity_eq : MetaDataExt -> ancestor -> bool;
  (** [std::path] and the order of [OsString] *)
  path_join : Path -> Path -> Path;
  is_absolute : Path -> bool;
  path_file_name : Path -> option OsString;
  path_parent : Path -> option Path;
  os_str_cmp : OsString -> OsString -> comparison;
  os_str_cmp_total :: TotalCmp os_str_cmp;
}.

(** The file-system calls of [std] the crate makes on paths. *)
Section FileSystem.
Context {P : Platform}.

Record FileSystem := mk_fs {
  fs_metadata : Path -> result fs_Metadata io_Error;          (** follows links *)
  fs_symlink_metadata : Path -> result fs_Metadata io_Error;  (** does not *)
  fs_read_link : Path -> result Path io_Error;
  fs_canonicalize : Path -> result Path io_Error;
}.
End FileSystem.

Module AncestorIdentity.
Abbreviation t := ancestor.
Abbreviation path := ancestor_path.

Definition from_path {P : Platform} (fs : FileSystem) (path : Path) : option ancestor :=
  match fs_symlink_metadata fs path with
  | Ok meta => Some (identify path meta)
  | Err _ => None
  end.
End AncestorIdentity.

(** [is_hidden] of [lib.rs], the same on all platforms *)
Definition is_hidden (file_name : OsString) : bool :=
  match head file_name with Some c => c =? DOT | None => false end.
