(* ===== verification/Metadata.v ===== *)
(** * File metadata: [metadata.rs] and the Linux conversions of [lib.rs]

    The [cfg(unix)] variants of the types, with the instance of [Platform] they make;
    [libc]'s [stat] and [statx] are the records of the fields the crate reads. *)
From S2P Require Import Prelude Order Error Platform Std.

(** ** [metadata.rs] *)

Record MetaDataExt := mk_metadata_ext {
  st_mode : Z; st_ino : Z; st_dev : Z; st_nlink : Z; st_blksize : Z; st_blocks : Z;
  st_uid : Z; st_gid : Z; st_rdev : Z;
}.

Definition get_metadata_ext (metadata : fs_Metadata) : MetaDataExt := {|
  st_mode := md_mode metadata;
  st_ino := md_ino metadata;
  st_dev := md_dev metadata;
  st_nlink := md_nlink metadata;
  st_blksize := md_blksize metadata;
  st_blocks := md_blocks metadata;
  st_uid := md_uid metadata;
  st_gid := md_gid metadata;
  st_rdev := md_rdev metadata;
|}.

(** [changed_time_from_metadata] on Unix *)
Definition changed_time_from_metadata (_metadata : fs_Metadata) : option SystemTime := None.

Definition created_time_from_metadata (metadata : fs_Metadata) : option SystemTime :=
  md_created metadata.

Definition from_fs_metadata (metadata : fs_Metadata) : MetaData := {|
  m_is_dir := is_dir (md_file_type metadata);
  m_is_file := is_file (md_file_type metadata);
  m_is_symlink := is_symlink (md_file_type metadata);
  m_size := md_len metadata;
  m_created := created_time_from_metadata metadata;
  m_changed := changed_time_from_metadata metadata;
  m_modified := md_modified metadata;
  m_accessed := md_accessed metadata;
  m_permissions := Some (mk_permissions (md_mode metadata));
|}.

(** [AncestorIdentity]: device and inode *)
Module AncestorIdentity.
Record t := mk { path : Path; dev : Z; ino : Z }.
End AncestorIdentity.

(** The body of [AncestorIdentity::from_path] once the metadata is there. *)
Definition identify (path : Path) (meta : fs_Metadata) : AncestorIdentity.t :=
  AncestorIdentity.mk path (md_dev meta) (md_ino meta).

(** The Unix body of [ancestor_identity_eq]. *)
Definition ancestor_identity_eq (target : MetaDataExt) (ancestor : AncestorIdentity.t) : bool :=
  (st_dev target =? AncestorIdentity.dev ancestor) &&
  (st_ino target =? AncestorIdentity.ino ancestor).

#[export] Instance unix_platform : Platform := {
  Platform.target := NotWindows;
  Platform.FileType := FileType;
  Platform.is_dir := is_dir;
  Platform.is_file := is_file;
  Platform.is_symlink := is_symlink;
  Platform.fs_Metadata := fs_Metadata;
  Platform.md_file_type := md_file_type;
  Platform.md_len := md_len;
  Platform.MetaDataExt := MetaDataExt;
  Platform.get_metadata_ext := get_metadata_ext;
  Platform.from_fs_metadata := from_fs_metadata;
  Platform.ancestor := AncestorIdentity.t;
  Platform.ancestor_path := AncestorIdentity.path;
  Platform.identify := identify;
  Platform.ancestor_identity_eq := ancestor_identity_eq;
  Platform.path_join := path_join;
  Platform.is_absolute := is_absolute;
  Platform.path_file_name := path_file_name;
  Platform.path_parent := path_parent;
  Platform.os_str_cmp := slice_cmp;
}.

(** ** Linux: [stat], [statx] and their conversions *)

Record stat := mk_stat {
  s_mode : Z; s_ino : Z; s_dev : Z; s_nlink : Z; s_blksize : Z; s_blocks : Z;
  s_uid : Z; s_gid : Z; s_rdev : Z; s_size : Z;
  s_ctime : Z; s_ctime_nsec : Z; s_mtime : Z; s_mtime_nsec : Z; s_atime : Z; s_atime_nsec : Z;
}.

Record statx_timestamp := mk_statx_timestamp { tv_sec : Z; tv_nsec : Z }.

Record statx := mk_statx {
  stx_mask : Z; stx_mode : Z; stx_ino : Z; stx_nlink : Z; stx_blksize : Z; stx_blocks : Z;
  stx_uid : Z; stx_gid : Z; stx_size : Z;
  stx_dev_major : Z; stx_dev_minor : Z; stx_rdev_major : Z; stx_rdev_minor : Z;
  stx_btime : statx_timestamp; stx_ctime : statx_timestamp;
  stx_mtime : statx_timestamp; stx_atime : statx_timestamp;
}.

Definition STATX_BTIME : Z := 0x800.

Definition time_to_systemtime (sec nsec : Z) : exec (option SystemTime) :=
  if sec <? 0 then Ret None
  else
    let! d := duration_new (as_u64 sec) (as_u32 nsec) in
    Ret (epoch_checked_add d).

Definition statx_time_to_systemtime (ts : statx_timestamp) : exec (option SystemTime) :=
  if tv_sec ts <? 0 then Ret None
  else
    let! d := duration_new (as_u64 (tv_sec ts)) (tv_nsec ts) in
    Ret (epoch_checked_add d).

Definition linux_makedev (major minor : Z) : Z :=
  Z.lor (Z.lor (Z.lor (Z.shiftl (Z.land major 0xfff) 8)
                      (Z.shiftl (Z.land major 0xfffff000) 32))
               (Z.land minor 0xff))
        (Z.shiftl (Z.land minor 0xffffff00) 12).

(** The macros of [sys/sysmacros.h] that take a [dev_t] apart. *)
Definition gnu_dev_major (dev : Z) : Z :=
  Z.lor (Z.land (Z.shiftr dev 8) 0xfff) (Z.land (Z.shiftr dev 32) 0xfffff000).
Definition gnu_dev_minor (dev : Z) : Z :=
  Z.lor (Z.land dev 0xff) (Z.land (Z.shiftr dev 12) 0xffffff00).

(** *** Masks as bit intervals *)

Lemma mask_0xfff : 0xfff = Z.ones 12. Proof. reflexivity. Qed.
Lemma mask_0xff : 0xff = Z.ones 8. Proof. reflexivity. Qed.
Lemma mask_0xfffff000 : 0xfffff000 = Z.shiftl (Z.ones 20) 12. Proof. reflexivity. Qed.
Lemma mask_0xffffff00 : 0xffffff00 = Z.shiftl (Z.ones 24) 8. Proof. reflexivity. Qed.

Lemma testbit_mask lo len n :
  0 <= len -> 0 <= n ->
  Z.testbit (Z.shiftl (Z.ones len) lo) n = (lo <=? n) && (n <? lo + len).
Proof.
  intros Hl Hn. rewrite Z.shiftl_spec, Z.testbit_ones by done.
  f_equal; [destruct (Z.leb_spec 0 (n - lo)), (Z.leb_spec lo n); lia|].
  destruct (Z.ltb_spec (n - lo) len), (Z.ltb_spec n (lo + len)); lia.
Qed.

Lemma testbit_masked_shift x lo len sh k :
  0 <= lo -> 0 <= len -> 0 <= sh -> 0 <= k ->
  Z.testbit (Z.shiftl (Z.land x (Z.shiftl (Z.ones len) lo)) sh) k =
    (lo <=? k - sh) && (k - sh <? lo + len) && Z.testbit x (k - sh).
Proof.
  intros. rewrite Z.shiftl_spec, Z.land_spec by lia. destruct (Z.leb_spec 0 (k - sh)).
  - rewrite testbit_mask by lia. apply andb_comm.
  - rewrite (Z.testbit_neg_r x) by lia. by rewrite andb_false_r.
Qed.

(** A bit of the encoded device number. *)
Lemma testbit_makedev major minor k :
  0 <= k ->
  Z.testbit (linux_makedev major minor) k =
    (((0 <=? k - 8) && (k - 8 <? 12) && Z.testbit major (k - 8)) ||
     ((12 <=? k - 32) && (k - 32 <? 32) && Z.testbit major (k - 32)) ||
     ((k <? 8) && Z.testbit minor k) ||
     ((8 <=? k - 12) && (k - 12 <? 32) && Z.testbit minor (k - 12)))%bool.
Proof.
  intros Hk. unfold linux_makedev.
  rewrite mask_0xfff, mask_0xff, mask_0xfffff000, mask_0xffffff00.
  rewrite !Z.lor_spec. f_equal; [f_equal; [f_equal|]|].
  - rewrite Z.shiftl_spec, Z.land_spec, Z.testbit_ones by lia. apply andb_comm.
  - apply testbit_masked_shift; lia.
  - rewrite Z.land_spec, Z.testbit_ones by lia.
    rewrite (proj2 (Z.leb_le 0 k)) by lia. apply andb_comm.
  - apply testbit_masked_shift; lia.
Qed.

(** Decide every comparison of the goal. *)
Ltac decide_bounds :=
  repeat match goal with
  | |- context [?a <=? ?b] =>
      first [rewrite (proj2 (Z.leb_le a b)) by lia | rewrite (proj2 (Z.leb_gt a b)) by lia]
  | |- context [?a <? ?b] =>
      first [rewrite (proj2 (Z.ltb_lt a b)) by lia | rewrite (proj2 (Z.ltb_ge a b)) by lia]
  end.

Lemma testbit_u32 x n : 0 <= x < 2 ^ 32 -> 32 <= n -> Z.testbit x n = false.
Proof.
  intros Hx Hn. destruct (decide (x = 0)) as [->|]; [apply Z.testbit_0_l|].
  apply Z.bits_above_log2; [lia|]. apply Z.log2_lt_pow2; [lia|].
  eapply Z.lt_le_trans; [apply Hx|]. apply Z.pow_le_mono_r; lia.
Qed.

Lemma gnu_dev_major_makedev major minor :
  0 <= major < 2 ^ 32 -> gnu_dev_major (linux_makedev major minor) = major.
Proof.
  intros Hmaj. apply Z.bits_inj'. intros n Hn. unfold gnu_dev_major.
  rewrite mask_0xfff, mask_0xfffff000.
  rewrite Z.lor_spec, !Z.land_spec, !Z.shiftr_spec, testbit_mask, Z.testbit_ones by lia.
  rewrite !testbit_makedev by lia.
  assert (n < 12 \/ 12 <= n < 32 \/ 32 <= n) as [?|[?|?]] by lia; decide_bounds; simpl;
    rewrite ?andb_true_r, ?andb_false_r, ?orb_false_r; simpl; try (f_equal; lia).
  by rewrite testbit_u32.
Qed.

Lemma gnu_dev_minor_makedev major minor :
  0 <= minor < 2 ^ 32 -> gnu_dev_minor (linux_makedev major minor) = minor.
Proof.
  intros Hmin. apply Z.bits_inj'. intros n Hn. unfold gnu_dev_minor.
  rewrite mask_0xff, mask_0xffffff00.
  rewrite Z.lor_spec, !Z.land_spec, !Z.shiftr_spec, testbit_mask, Z.testbit_ones by lia.
  rewrite !testbit_makedev by lia.
  assert (n < 8 \/ 8 <= n < 32 \/ 32 <= n) as [?|[?|?]] by lia; decide_bounds; simpl;
    rewrite ?andb_true_r, ?andb_false_r, ?orb_false_r; simpl; try (f_equal; lia).
  by rewrite testbit_u32.
Qed.

(** The device number built from the two 32-bit halves of [statx] decodes
    back to them with glibc's [major] and [minor]: no device is confused with
    another, so the identity used for loop detection is that of [stat]. *)
Theorem linux_makedev_roundtrip major minor :
  0 <= major < 2 ^ 32 -> 0 <= minor < 2 ^ 32 ->
  gnu_dev_major (linux_makedev major minor) = major /\
  gnu_dev_minor (linux_makedev major minor) = minor.
Proof. split; [by apply gnu_dev_major_makedev|by apply gnu_dev_minor_makedev]. Qed.

Lemma linux_makedev_roundtrip_witness :
  gnu_dev_major (linux_makedev 0x12345678 0x9abcdef0) = 0x12345678 /\
  gnu_dev_minor (linux_makedev 0x12345678 0x9abcdef0) = 0x9abcdef0.
Proof. apply linux_makedev_roundtrip; by split. Defined.

(** C34: the conversion of a kernel time stamp never panics, gives [None] exactly
    for instants before the epoch, and keeps the seconds and nanoseconds. *)
Theorem statx_time_to_systemtime_spec ts :
  - 2 ^ 63 <= tv_sec ts < 2 ^ 63 -> 0 <= tv_nsec ts < NANOS_PER_SEC ->
  statx_time_to_systemtime ts =
    Ret (if tv_sec ts <? 0 then None else Some (mk_duration (tv_sec ts) (tv_nsec ts))).
Proof.
  intros Hs Hn. unfold statx_time_to_systemtime. destruct (Z.ltb_spec (tv_sec ts) 0); [done|].
  unfold duration_new, as_u64. rewrite (proj2 (Z.ltb_lt _ _)) by lia. simpl.
  unfold epoch_checked_add; simpl. rewrite Z.mod_small by lia.
  by rewrite (proj2 (Z.leb_le _ _)) by lia.
Qed.

Lemma statx_time_to_systemtime_spec_witness :
  statx_time_to_systemtime (mk_statx_timestamp 1700000000 5) =
    Ret (Some (mk_duration 1700000000 5)).
Proof.
  exact (statx_time_to_systemtime_spec (mk_statx_timestamp 1700000000 5)
    ltac:(by vm_compute) ltac:(by vm_compute)).
Defined.
