(* ===== verification/DirEntry.v ===== *)
(** * Entries of a walk: [dir_entry.rs], [read_dir_spec.rs], [read_dir.rs], and
    [process_dir_entry_result] and [sort_dir_entries_by_name] of [lib.rs]

    Stated once, for every [Platform]; the witnesses are on Unix. *)
From S2P Require Import Prelude Std Order Error Metadata Platform.

(** ** [trait ClientState] and its instance for pairs *)

Class ClientState := {
  ReadDirState : Type;
  DirEntryState : Type;
  read_dir_state_default : ReadDirState;
  dir_entry_state_default : DirEntryState;
}.

Definition pair_client_state (B E : Type) (b0 : B) (e0 : E) : ClientState := {|
  ReadDirState := B;
  DirEntryState := E;
  read_dir_state_default := b0;
  dir_entry_state_default := e0;
|}.

(** ** [ReadDirSpec] *)

Module ReadDirSpec.
Section ReadDirSpec.
Context {P : Platform} {C : ClientState}.
Record t := mk {
  depth : Z;
  path : Path;
  client_read_state : ReadDirState;
  follow_link_ancestors : option (list AncestorIdentity.t);
}.
End ReadDirSpec.
Arguments t {P} C.
End ReadDirSpec.

(** ** [std::fs::DirEntry], as far as [from_entry] looks at it *)

Section StdDirEntry.
Context {P : Platform}.
Record fs_DirEntry := mk_fs_dir_entry {
  de_file_type : result FileType io_Error;
  de_path : Path;
  de_file_name : OsString;
  de_metadata : result fs_Metadata io_Error;
}.
End StdDirEntry.

(** ** [DirEntry] *)

Module DirEntry.
Section DirEntry.
Context {P : Platform} {C : ClientState}.

(** [cached_path] is the [OnceLock]: what [path] computed the first time. *)
Record t := mk {
  depth : Z;
  file_name : OsString;
  file_type : FileType;
  client_state : DirEntryState;
  parent_path : Path;
  read_children_path : option Path;
  read_children_error : option Error.t;
  read_metadata : bool;
  metadata : option MetaData;
  read_metadata_ext : bool;
  metadata_ext : option MetaDataExt;
  follow_link : bool;
  follow_link_ancestors : option (list AncestorIdentity.t);
  cached_path : option Path;
}.

Definition from_raw (depth : Z) (parent_path : Path) (metadata : option MetaData)
    (metadata_ext : option MetaDataExt) (file_name : OsString) (file_type : FileType)
    (follow_link_ancestors : option (list AncestorIdentity.t)) : Result t :=
  let read_children_path :=
    if is_dir file_type then Some (path_join parent_path file_name) else None in
  Ok {|
    depth := depth;
    file_name := file_name;
    file_type := file_type;
    client_state := dir_entry_state_default;
    parent_path := parent_path;
    read_children_path := read_children_path;
    read_children_error := None;
    read_metadata := bool_decide (is_Some metadata);
    metadata := metadata;
    read_metadata_ext := bool_decide (is_Some metadata_ext);
    metadata_ext := metadata_ext;
    follow_link := false;
    follow_link_ancestors := follow_link_ancestors;
    cached_path := None;
  |}.

Definition from_path (fs : FileSystem) (depth : Z) (path : Path)
    (read_metadata read_metadata_ext follow_link : bool)
    (follow_link_ancestors : option (list AncestorIdentity.t)) : Result t :=
  let? md :=
    (if follow_link
     then res_map_err (Error.from_path depth path) (fs_metadata fs path)
     else res_map_err (Error.from_path depth path) (fs_symlink_metadata fs path)) in
  let root_name := default path (path_file_name path) in
  let read_children_path := if is_dir (md_file_type md) then Some path else None in
  let '(entry_metadata, entry_metadata_ext) :=
    if read_metadata then
      (Some (from_fs_metadata md),
       if read_metadata_ext then Some (get_metadata_ext md) else None)
    else (None, None) in
  Ok {|
    depth := depth;
    file_name := root_name;
    file_type := md_file_type md;
    client_state := dir_entry_state_default;
    parent_path := default [] (path_parent path);
    read_children_path := read_children_path;
    read_children_error := None;
    read_metadata := read_metadata;
    metadata := entry_metadata;
    read_metadata_ext := read_metadata_ext;
    metadata_ext := entry_metadata_ext;
    follow_link := follow_link;
    follow_link_ancestors := follow_link_ancestors;
    cached_path := None;
  |}.

Definition from_entry (depth : Z) (parent_path : Path) (metadata : option MetaData)
    (metadata_ext : option MetaDataExt) (entry : fs_DirEntry)
    (follow_link_ancestors : option (list AncestorIdentity.t)) : Result t :=
  let? file_type := res_map_err (Error.from_io depth) (de_file_type entry) in
  let read_children_path := if is_dir file_type then Some (de_path entry) else None in
  Ok {|
    depth := depth;
    file_name := de_file_name entry;
    file_type := file_type;
    client_state := dir_entry_state_default;
    parent_path := parent_path;
    read_children_path := read_children_path;
    read_children_error := None;
    read_metadata := bool_decide (is_Some metadata);
    metadata := metadata;
    read_metadata_ext := bool_decide (is_Some metadata_ext);
    metadata_ext := metadata_ext;
    follow_link := false;
    follow_link_ancestors := follow_link_ancestors;
    cached_path := None;
  |}.

(** [path]: the value returned; a first call also fills [cached_path]. *)
Definition path (self : t) : Path :=
  match cached_path self with
  | Some p => p
  | None => path_join (parent_path self) (file_name self)
  end.

(** [Debug]: [debug] is that of [Path]. *)
Definition fmt_debug (debug : Path -> list Z) (self : t) : list Z :=
  bytes "DirEntry(" ++ debug (path self) ++ bytes ")".

Definition path_is_symlink (self : t) : bool :=
  is_symlink (file_type self) || follow_link self.

(** The method [metadata]. *)
Definition get_metadata (fs : FileSystem) (self : t) : Result fs_Metadata :=
  res_map_err (Error.from_entry (depth self) (path self))
    (if follow_link self then fs_metadata fs (path self)
     else fs_symlink_metadata fs (path self)).

Definition read_children_spec (self : t) (client_read_state : ReadDirState) :
    option (ReadDirSpec.t C) :=
  match read_children_path self with
  | Some read_children_path =>
      Some {|
        ReadDirSpec.depth := depth self;
        ReadDirSpec.client_read_state := client_read_state;
        ReadDirSpec.path := read_children_path;
        ReadDirSpec.follow_link_ancestors := follow_link_ancestors self;
      |}
  | None => None
  end.

Definition follow_symlink (fs : FileSystem) (self : t) : Result t :=
  let path := path self in
  let origins := follow_link_ancestors self in
  let? dir_entry :=
    from_path fs (depth self) path (read_metadata self) (read_metadata_ext self) true origins in
  if is_dir (file_type dir_entry) then
    let? target := res_map_err (Error.from_io (depth self)) (fs_read_link fs path) in
    let resolved_target :=
      if is_absolute target then target else path_join (parent_path self) target in
    let canonical_target := default resolved_target (res_ok (fs_canonicalize fs resolved_target)) in
    match fs_metadata fs canonical_target with
    | Ok target_meta =>
        let target_ext := get_metadata_ext target_meta in
        match follow_link_ancestors self with
        | Some ancestors =>
            match find (ancestor_identity_eq target_ext) (rev ancestors) with
            | Some ancestor =>
                Err (Error.from_loop (depth self) (AncestorIdentity.path ancestor) path)
            | None => Ok dir_entry
            end
        | None => Ok dir_entry
        end
    | Err _ => Ok dir_entry
    end
  else Ok dir_entry.

Definition set_read_children_path (self : t) (p : option Path) : t :=
  mk (depth self) (file_name self) (file_type self) (client_state self) (parent_path self)
    p (read_children_error self) (read_metadata self) (metadata self)
    (read_metadata_ext self) (metadata_ext self) (follow_link self)
    (follow_link_ancestors self) (cached_path self).

Definition set_read_children_error (self : t) (e : option Error.t) : t :=
  mk (depth self) (file_name self) (file_type self) (client_state self) (parent_path self)
    (read_children_path self) e (read_metadata self) (metadata self)
    (read_metadata_ext self) (metadata_ext self) (follow_link self)
    (follow_link_ancestors self) (cached_path self).
End DirEntry.
Arguments t {P} C.
End DirEntry.

(** [process_dir_entry_result] *)
Definition process_dir_entry_result {P : Platform} {C : ClientState} (fs : FileSystem)
    (dir_entry_result : Result (DirEntry.t C)) (follow_links : bool) : Result (DirEntry.t C) :=
  match dir_entry_result with
  | Ok dir_entry =>
      let? dir_entry :=
        (if follow_links && is_symlink (DirEntry.file_type dir_entry)
         then DirEntry.follow_symlink fs dir_entry else Ok dir_entry) in
      if negb follow_links && (DirEntry.depth dir_entry =? 0) &&
         is_symlink (DirEntry.file_type dir_entry) then
        let? metadata :=
          res_map_err (Error.from_path 0 (DirEntry.path dir_entry))
            (fs_metadata fs (DirEntry.path dir_entry)) in
        if is_dir (md_file_type metadata) then
          Ok (DirEntry.set_read_children_path dir_entry (Some (DirEntry.path dir_entry)))
        else Ok dir_entry
      else Ok dir_entry
  | Err err => Err err
  end.

(** ** [ReadDir] *)

Module ReadDir.
Section ReadDir.
Context {P : Platform} {C : ClientState}.

Record t := mk {
  read_dir_state : ReadDirState;
  results_list : list (Result (DirEntry.t C));
  streamed_child_count : Z;
}.

Definition new (read_dir_state : ReadDirState)
    (results_list : list (Result (DirEntry.t C))) : t :=
  mk read_dir_state results_list 0.

(** The spec of one element of [results_list], if it has one. *)
Definition child_spec (st : ReadDirState) (each : Result (DirEntry.t C)) :
    option (ReadDirSpec.t C) :=
  match res_ok each with
  | Some e => DirEntry.read_children_spec e st
  | None => None
  end.

Definition read_children_specs (self : t) : list (ReadDirSpec.t C) :=
  omap (child_spec (read_dir_state self)) (results_list self).

(** The loop of [weighted_children_specs]. *)
Fixpoint weighted_loop (st : ReadDirState) (index_path : IndexPath.t) (weight skip : Z)
    (subdir_counter : Z) (entries : list (Result (DirEntry.t C))) :
    list (Weighted.t (ReadDirSpec.t C)) :=
  match entries with
  | [] => []
  | entry_result :: entries' =>
      match child_spec st entry_result with
      | Some spec =>
          let rest :=
            weighted_loop st index_path weight skip (usize_add subdir_counter 1) entries' in
          if skip <=? subdir_counter
          then Weighted.new spec (IndexPath.adding index_path subdir_counter) weight :: rest
          else rest
      | None => weighted_loop st index_path weight skip subdir_counter entries'
      end
  end.

Definition weighted_children_specs (self : t) (index_path : IndexPath.t)
    (parent_weight : Z) : list (Weighted.t (ReadDirSpec.t C)) :=
  let skip := streamed_child_count self in
  let pipe_size := Z.of_nat (length (results_list self)) in
  let weight := saturating_add parent_weight pipe_size in
  weighted_loop (read_dir_state self) index_path weight skip 0 (results_list self).
End ReadDir.
Arguments t {P} C.
End ReadDir.

(** ** Scheduling the sub-directories of a directory *)

(** The elements scheduled for [specs], numbered from [c]. *)
Definition numbered {S} (ip : IndexPath.t) (w c : Z) (specs : list S) : list (Weighted.t S) :=
  imap (fun i spec => Weighted.mk spec (IndexPath.adding ip (c + Z.of_nat i)) w) specs.

Lemma numbered_cons {S} ip w c (spec : S) specs :
  numbered ip w c (spec :: specs) =
    Weighted.mk spec (IndexPath.adding ip c) w :: numbered ip w (c + 1) specs.
Proof.
  unfold numbered. rewrite imap_cons. f_equal; [by rewrite Z.add_0_r|].
  apply imap_ext. intros i x _. simpl. do 2 f_equal. lia.
Qed.

Lemma length_numbered {S} ip w c (specs : list S) : length (numbered ip w c specs) = length specs.
Proof. apply length_imap. Qed.

Lemma numbered_values {S} ip w c (specs : list S) : map Weighted.value (numbered ip w c specs) = specs.
Proof.
  revert c. induction specs as [|s specs IH]; intros c; [done|].
  rewrite numbered_cons. simpl. by rewrite IH.
Qed.

Section WeightedChildren.
Context {P : Platform} {C : ClientState}.
Implicit Types (specs : list (ReadDirSpec.t C)) (entries : list (Result (DirEntry.t C))).

Lemma weighted_loop_spec st ip w skip c entries :
  0 <= c -> c + Z.of_nat (length entries) <= usize_max ->
  ReadDir.weighted_loop st ip w skip c entries =
    numbered ip w (Z.max c skip)
      (drop (Z.to_nat (skip - c)) (omap (ReadDir.child_spec st) entries)).
Proof.
  revert c. induction entries as [|e entries IH]; intros c Hc Hb; simpl.
  { by rewrite drop_nil. }
  simpl in Hb. destruct (ReadDir.child_spec st e) as [spec|]; [|apply IH; lia].
  rewrite usize_add_small by lia. rewrite IH by lia.
  destruct (Z.leb_spec skip c).
  - rewrite !Z2Nat.nonpos by lia. rewrite !drop_0, Z.max_l, Z.max_l by lia.
    by rewrite numbered_cons.
  - replace (Z.to_nat (skip - c)) with (S (Z.to_nat (skip - (c + 1)))) by lia.
    simpl. by rewrite !Z.max_r by lia.
Qed.

Lemma weighted_children_numbered (rd : ReadDir.t C) ip parent_weight :
  0 <= ReadDir.streamed_child_count rd ->
  Z.of_nat (length (ReadDir.results_list rd)) <= usize_max ->
  ReadDir.weighted_children_specs rd ip parent_weight =
    numbered ip
      (saturating_add parent_weight (Z.of_nat (length (ReadDir.results_list rd))))
      (ReadDir.streamed_child_count rd)
      (drop (Z.to_nat (ReadDir.streamed_child_count rd)) (ReadDir.read_children_specs rd)).
Proof.
  intros H0 Hlen. unfold ReadDir.weighted_children_specs.
  rewrite weighted_loop_spec by lia.
  by rewrite Z.sub_0_r, Z.max_r by lia.
Qed.

(** [weighted_children_specs] schedules exactly the readable sub-directories
    that were not streamed, in order, at consecutive positions (no hole), all
    with the weight of the parent plus the number of its entries, saturating. *)
Theorem weighted_children_specs_spec (rd : ReadDir.t C) ip parent_weight :
  0 <= ReadDir.streamed_child_count rd ->
  Z.of_nat (length (ReadDir.results_list rd)) <= usize_max ->
  ReadDir.weighted_children_specs rd ip parent_weight =
    numbered ip
      (saturating_add parent_weight (Z.of_nat (length (ReadDir.results_list rd))))
      (ReadDir.streamed_child_count rd)
      (drop (Z.to_nat (ReadDir.streamed_child_count rd)) (ReadDir.read_children_specs rd)).
Proof. apply weighted_children_numbered. Qed.
End WeightedChildren.
#[global] Arguments numbered : simpl never.

(** ** Symbolic links *)

Section Links.
Context {P : Platform} {C : ClientState}.

(** Where [follow_symlink] looks for the target of a link. *)
Definition link_target (fs : FileSystem) (e : DirEntry.t C) (target : Path) : Path :=
  let resolved :=
    if is_absolute target then target else path_join (DirEntry.parent_path e) target in
  default resolved (res_ok (fs_canonicalize fs resolved)).

(** Is the target of the link the file [ancestor] is?  Not when it cannot be examined. *)
Definition links_to (fs : FileSystem) (e : DirEntry.t C) (target : Path) (ancestor : AncestorIdentity.t) :
    bool :=
  match fs_metadata fs (link_target fs e target) with
  | Ok target_meta => ancestor_identity_eq (get_metadata_ext target_meta) ancestor
  | Err _ => false
  end.

(** The entry of a link, made from its target. *)
Lemma from_path_followed fs d p md ext anc m :
  fs_metadata fs p = Ok m ->
  exists e : DirEntry.t C, DirEntry.from_path fs d p md ext true anc = Ok e /\
    DirEntry.file_type e = md_file_type m /\ DirEntry.follow_link e = true /\
    DirEntry.read_children_path e = (if is_dir (md_file_type m) then Some p else None) /\
    DirEntry.follow_link_ancestors e = anc.
Proof.
  intros Hm. unfold DirEntry.from_path. rewrite Hm. simpl. destruct (if md then _ else _).
  by eexists.
Qed.

(** C27: following a link.  A link whose target cannot be examined through it gives that
    error.  Otherwise there is a followed entry, of the target's type, marked as followed,
    which is read below, under the link's own path, exactly when the target is a directory.
    For a link to something else the result is this entry.  For a link to a directory, a
    failure to read the link is the result; and else a loop error, naming the closest
    such ancestor, exactly when the target, resolved by its path, is the same file as an
    ancestor (on Unix: device and inode); the followed entry when there is none, when the
    resolved path cannot be examined, or when the entry has no ancestors to compare with. *)
Theorem follow_symlink_loop fs (e : DirEntry.t C) :
  let path := DirEntry.path e in
  (forall err, fs_metadata fs path = Err err ->
    DirEntry.follow_symlink fs e = Err (Error.from_path (DirEntry.depth e) path err)) /\
  (forall md, fs_metadata fs path = Ok md -> exists followed,
    DirEntry.file_type followed = md_file_type md /\ DirEntry.follow_link followed = true /\
    DirEntry.read_children_path followed = (if is_dir (md_file_type md) then Some path else None) /\
    DirEntry.follow_link_ancestors followed = DirEntry.follow_link_ancestors e /\
    (is_dir (md_file_type md) = false -> DirEntry.follow_symlink fs e = Ok followed) /\
    (is_dir (md_file_type md) = true ->
      (forall err, fs_read_link fs path = Err err ->
        DirEntry.follow_symlink fs e = Err (Error.from_io (DirEntry.depth e) err)) /\
      (forall target, fs_read_link fs path = Ok target ->
        let ancestors := default [] (DirEntry.follow_link_ancestors e) in
        (Exists (fun a => links_to fs e target a = true) ancestors ->
          exists before a after, ancestors = before ++ a :: after /\ links_to fs e target a = true /\
            Forall (fun a' => links_to fs e target a' = false) after /\
            DirEntry.follow_symlink fs e =
              Err (Error.from_loop (DirEntry.depth e) (AncestorIdentity.path a) path)) /\
        (Forall (fun a => links_to fs e target a = false) ancestors ->
          DirEntry.follow_symlink fs e = Ok followed)))).
Proof.
  intros path. unfold DirEntry.follow_symlink, links_to. fold path.
  split; [by intros err Herr; unfold DirEntry.from_path; rewrite Herr|]. intros md Hmd.
  destruct (from_path_followed fs (DirEntry.depth e) path (DirEntry.read_metadata e)
    (DirEntry.read_metadata_ext e) (DirEntry.follow_link_ancestors e) md Hmd)
    as (followed & -> & Hft & Hl & Hp & Ha).
  exists followed. do 4 (split; [done|]). cbn [res_bind]. rewrite Hft.
  split; [by intros ->|]. intros ->.
  split; [by intros err ->|]. intros target ->. cbn [res_map_err res_bind].
  change (default _ (res_ok (fs_canonicalize fs _))) with (link_target fs e target).
  destruct (fs_metadata fs (link_target fs e target)) as [tmd|err].
  2: { split; [|done]. by intros (a & _ & Hs)%Exists_exists. }
  destruct (DirEntry.follow_link_ancestors e) as [l|]; simpl.
  2: { split; [|done]. intros H. inversion H. }
  split.
  - intros Hex. destruct (find_rev_some _ l Hex) as (before & a & after & -> & Hs & Hafter & ->).
    by exists before, a, after.
  - intros Hall. by rewrite find_rev_none by done.
Qed.
End Links.

(** ** Sorting by name *)

(** The comparison of [sort_dir_entries_by_name]. *)
Definition entry_cmp {P : Platform} {C : ClientState} (a b : Result (DirEntry.t C)) : comparison :=
  match a, b with
  | Ok a, Ok b => os_str_cmp (DirEntry.file_name a) (DirEntry.file_name b)
  | Ok _, Err _ => Lt
  | Err _, Ok _ => Gt
  | Err _, Err _ => Eq
  end.

Section Sort.
Context {P : Platform} {C : ClientState}.
Implicit Types (x : Result (DirEntry.t C)) (l : list (Result (DirEntry.t C))).

Fixpoint insert_entry x l : list (Result (DirEntry.t C)) :=
  match l with
  | [] => [x]
  | y :: l' => match entry_cmp x y with Gt => y :: insert_entry x l' | _ => x :: l end
  end.

(** [sort_unstable_by]: the sorted permutation of the entries (unique but for the
    order of the errors). *)
Fixpoint sort_dir_entries_by_name l : list (Result (DirEntry.t C)) :=
  match l with
  | [] => []
  | x :: l' => insert_entry x (sort_dir_entries_by_name l')
  end.
End Sort.



#[export] Instance entry_cmp_total {P : Platform} {C : ClientState} : TotalCmp (@entry_cmp P C).
Proof.
  split.
  - intros [a|e]; [apply (cmp_refl os_str_cmp)|done].
  - intros [a|e] [b|e']; simpl; [apply (cmp_antisym os_str_cmp)|done..].
  - intros [a|e] [b|e'] [d|e''] c; simpl; try congruence. apply (cmp_trans os_str_cmp).
Qed.

Section SortSpec.
Context {P : Platform} {C : ClientState}.
Abbreviation le := (cmp_le (@entry_cmp P C)).

Lemma insert_entry_perm x (l : list (Result (DirEntry.t C))) : insert_entry x l ≡ₚ x :: l.
Proof.
  induction l as [|y l IH]; simpl; [done|]. destruct (entry_cmp x y); [done..|].
  rewrite IH. apply perm_swap.
Qed.

Lemma insert_entry_sorted x l : StronglySorted le l -> StronglySorted le (insert_entry x l).
Proof.
  induction 1 as [|y l Hl IH Hy]; simpl; [repeat constructor|].
  destruct (entry_cmp x y) eqn:E.
  1-2: constructor; [by constructor|]; constructor; [unfold cmp_le; congruence|];
    eapply Forall_impl; [exact Hy|]; intros z Hz; eapply (cmp_le_trans _ x y z); [|done];
    unfold cmp_le; congruence.
  constructor; [done|]. rewrite insert_entry_perm. constructor; [|done].
  unfold cmp_le. rewrite (cmp_antisym entry_cmp x y), E. done.
Qed.

Lemma sort_entries_perm (l : list (Result (DirEntry.t C))) : sort_dir_entries_by_name l ≡ₚ l.
Proof. induction l as [|x l IH]; simpl; [done|]. by rewrite insert_entry_perm, IH. Qed.

Lemma sort_entries_sorted (l : list (Result (DirEntry.t C))) :
  StronglySorted le (sort_dir_entries_by_name l).
Proof. induction l; simpl; [constructor|by apply insert_entry_sorted]. Qed.

(** [sort] lists the same results, the entries in the order of their names
    (bytewise) and the errors after them. *)
Theorem sort_dir_entries_sorted (l : list (Result (DirEntry.t C))) :
  sort_dir_entries_by_name l ≡ₚ l /\ StronglySorted le (sort_dir_entries_by_name l).
Proof. split; [apply sort_entries_perm|apply sort_entries_sorted]. Qed.
End SortSpec.

(** ** Witnesses *)

#[export] Instance unit_client : ClientState := pair_client_state unit unit tt tt.

(** An entry of directory [parent] as enumeration builds it. *)
Definition sample_entry (depth : Z) (parent name : Path) (mode : Z)
    (ancestors : option (list Metadata.AncestorIdentity.t)) : DirEntry.t unit_client := {|
  DirEntry.depth := depth;
  DirEntry.file_name := name;
  DirEntry.file_type := mk_file_type mode;
  DirEntry.client_state := tt;
  DirEntry.parent_path := parent;
  DirEntry.read_children_path :=
    if Std.is_dir (mk_file_type mode) then Some (Std.path_join parent name) else None;
  DirEntry.read_children_error := None;
  DirEntry.read_metadata := false;
  DirEntry.metadata := None;
  DirEntry.read_metadata_ext := false;
  DirEntry.metadata_ext := None;
  DirEntry.follow_link := false;
  DirEntry.follow_link_ancestors := ancestors;
  DirEntry.cached_path := None;
|}.

(** A directory [/r] with a file and two sub-directories, nothing streamed. *)
Definition sample_read_dir : ReadDir.t unit_client :=
  @ReadDir.new _ unit_client tt
    [Ok (sample_entry 1 (bytes "/r") (bytes "a") 0x41ED None);
     Ok (sample_entry 1 (bytes "/r") (bytes "f") 0x81A4 None);
     Ok (sample_entry 1 (bytes "/r") (bytes "b") 0x41ED None)].

Lemma weighted_children_specs_spec_witness :
  ReadDir.weighted_children_specs sample_read_dir (IndexPath.mk [0]) 10 =
    numbered (IndexPath.mk [0]) 13 0 (ReadDir.read_children_specs sample_read_dir).
Proof.
  exact (weighted_children_specs_spec sample_read_dir (IndexPath.mk [0]) 10
    ltac:(by vm_compute) ltac:(by vm_compute)).
Defined.

(** A file system in which [/r/up] links to [/r] itself. *)
Definition md_of (mode dev ino : Z) : Std.fs_Metadata :=
  mk_fs_metadata mode ino dev 1 4096 8 0 0 0 0 None None None.

Definition sample_fs : FileSystem := {|
  fs_metadata p := Ok (md_of 0x41ED 1 2);
  fs_symlink_metadata p := Ok (md_of 0xA1FF 1 7);
  fs_read_link p := Ok (bytes "/r");
  fs_canonicalize p := Ok p;
|}.

Definition sample_link : DirEntry.t unit_client :=
  sample_entry 1 (bytes "/r") (bytes "up") 0xA1FF
    (Some [Metadata.AncestorIdentity.mk (bytes "/r") 1 2]).

Lemma follow_symlink_loop_witness :
  fs_metadata sample_fs (bytes "/r/up") = Ok (md_of 0x41ED 1 2) /\
  fs_read_link sample_fs (bytes "/r/up") = Ok (bytes "/r") /\
  exists before a after, [Metadata.AncestorIdentity.mk (bytes "/r") 1 2] = before ++ a :: after /\
    links_to sample_fs sample_link (bytes "/r") a = true /\
    Forall (fun a' => links_to sample_fs sample_link (bytes "/r") a' = false) after /\
    DirEntry.follow_symlink sample_fs sample_link =
      Err (Error.from_loop 1 (Metadata.AncestorIdentity.path a) (bytes "/r/up")).
Proof.
  split; [reflexivity|]. split; [reflexivity|].
  destruct (proj2 (follow_symlink_loop sample_fs sample_link) (md_of 0x41ED 1 2) eq_refl)
    as (followed & _ & _ & _ & _ & _ & H).
  apply (proj2 (H eq_refl) (bytes "/r") eq_refl). constructor. by vm_compute.
Defined.
