(* ===== verification/Callback.v ===== *)
(** * The callback that reads a directory: [ReadDirCallback] and [StreamingContext]
    of [read_dir_iter.rs]

    In parallel mode the callback gets a [StreamingContext], through which it may
    schedule sub-directories while it runs.  A running callback is a tree: it
    returns, or it calls a method of the context and goes on with the answer.
    Whatever else it does (system calls) is computed on the way. *)
From S2P Require Import Prelude Order Std Error Metadata Platform DirEntry.

(** The fields of [StreamingContext] that the callback reads. *)
Record StreamingContext := mk_streaming_context {
  sc_index_path : IndexPath.t;
  sc_parent_weight : Z;
}.

Section Callback.
Context {Spec : Type}.

(** A run that schedules elements of [Spec] and returns an [R]; [Schedule] and
    [IsStopped] are the methods [schedule] and [is_stopped]. *)
Inductive run_with (R : Type) : Type :=
| Returns (r : R)
| Schedule (w : Weighted.t Spec) (k : bool -> run_with R)
| IsStopped (k : bool -> run_with R).
Arguments Returns {R} r.
Arguments Schedule {R} w k.
Arguments IsStopped {R} k.

(** Going on after the return. *)
Fixpoint run_bind {R R'} (c : run_with R) (f : R -> run_with R') : run_with R' :=
  match c with
  | Returns r => f r
  | Schedule w k => Schedule w (fun b => run_bind (k b) f)
  | IsStopped k => IsStopped (fun b => run_bind (k b) f)
  end.

(** What it schedules and returns when every [schedule] succeeds and the walk is
    not stopped. *)
Fixpoint undisturbed {R} (c : run_with R) : list (Weighted.t Spec) * R :=
  match c with
  | Returns r => ([], r)
  | Schedule w k => let '(ws, r) := undisturbed (k true) in (w :: ws, r)
  | IsStopped k => undisturbed (k false)
  end.

Lemma undisturbed_bind {R R'} (c : run_with R) (f : R -> run_with R') :
  undisturbed (run_bind c f) =
    let '(ws1, r) := undisturbed c in
    let '(ws2, r') := undisturbed (f r) in (ws1 ++ ws2, r').
Proof.
  induction c as [r|w k IH|k IH]; simpl.
  - by destruct (undisturbed (f r)).
  - rewrite IH. destruct (undisturbed (k true)) as [ws1 r]. by destruct (undisturbed (f r)).
  - apply IH.
Qed.
End Callback.
Arguments run_with Spec R : clear implicits.
Arguments Returns {Spec R} r.
Arguments Schedule {Spec R} w k.
Arguments IsStopped {Spec R} k.

Abbreviation run_of C R := (run_with (ReadDirSpec.t C) R).

(** [dyn Fn(ReadDirSpec<C>, Option<StreamingContext<C>>) -> Result<ReadDir<C>>] *)
Abbreviation callback_run C := (run_of C (Result (ReadDir.t C))).
Definition ReadDirCallback {P : Platform} (C : ClientState) : Type :=
  ReadDirSpec.t C -> option StreamingContext -> callback_run C.
