(* ===== verification/ReadDirIter.v ===== *)
(** * The stream of directory reads: [read_dir_iter.rs]

    [core_read_dir_callback] is an argument: what reading the directory of a
    spec gives, the file system being left alone during the walk.  [reads]
    relates a spec to the tree of the reads below it, and the serial iterator
    yields this tree in depth-first order. *)
From S2P Require Import Prelude Order Tree Std Error Metadata Platform DirEntry OrderedQueue.
#[local] Set Warnings "-register-all".

Section Reads.
Context {P : Platform} {C : ClientState} (callback : ReadDirSpec.t C -> Result (ReadDir.t C)).

Abbreviation Spec := (ReadDirSpec.t C).
Abbreviation Read := (Result (ReadDir.t C)).

(** The sub-directories to read after a read: none when it failed. *)
Definition children (r : Read) : list Spec :=
  match r with Ok read_dir => ReadDir.read_children_specs read_dir | Err _ => [] end.

(** [reads s t]: reading [s] and, recursively, every directory below it gives
    the tree [t].  It exists exactly when this recursion is finite. *)
Inductive reads : Spec -> tree Read -> Prop :=
| reads_node s ts :
    Forall2 reads (children (callback s)) ts -> reads s (Node (callback s) ts).

Lemma reads_inv s v ts :
  reads s (Node v ts) -> v = callback s /\ Forall2 reads (children (callback s)) ts.
Proof. by inversion 1. Qed.

Lemma reads_det s t t' : reads s t -> reads s t' -> t = t'.
Proof.
  revert s t'. induction t as [v ts IH] using tree_nested_ind. intros s [v' ts'] H H'.
  apply reads_inv in H as [-> H], H' as [-> H']. f_equal.
  clear -H H' IH. revert ts' H'. induction H as [|c t cs ts Hc H IHl]; intros ts' H'.
  - by inversion H'.
  - inversion H' as [|? t' ? ts'' Hc' H'']; subst. inversion IH; subst. f_equal; eauto.
Qed.

(** What holds of every read of a directory holds of the reads of a walk. *)
Lemma reads_forall (valid : Spec -> Prop) (Q : Read -> Prop) s t :
  (forall s, valid s -> Q (callback s) /\ Forall valid (children (callback s))) ->
  valid s -> reads s t -> Forall Q (preorder t).
Proof.
  intros HQ. revert s. induction t as [v ts IH] using tree_nested_ind. intros s Hs Hr.
  apply reads_inv in Hr as [-> Hr]. simpl. destruct (HQ s Hs) as [H1 Hc].
  constructor; [done|]. clear Hs H1.
  induction Hr as [|c t cs ts Hct _ IHts]; simpl; [constructor|].
  apply Forall_cons in IH as [IH1 IH2]. apply Forall_cons in Hc as [Hc1 Hc2].
  apply Forall_app; split; eauto.
Qed.

Lemma reads_forest (valid : Spec -> Prop) (Q : Read -> Prop) specs ts :
  (forall s, valid s -> Q (callback s) /\ Forall valid (children (callback s))) ->
  Forall valid specs -> Forall2 reads specs ts -> Forall Q (flat_map preorder ts).
Proof.
  intros HQ Hs H. induction H as [|s t specs ts Ht _ IH]; simpl; [constructor|].
  apply Forall_cons in Hs as [Hs1 Hs2]. apply Forall_app; split; [by eapply reads_forall|auto].
Qed.
End Reads.

(** ** The iterator *)

Module ReadDirIter.
Section ReadDirIter.
Context {P : Platform} {C : ClientState} {E : Type} {HW : World.World E (Ordered.t (Result (ReadDir.t C)))}.

(** The two variants; the callback of [Walk] is the argument of [next]. *)
Inductive t : Type :=
| Walk (read_dir_spec_stack : list (ReadDirSpec.t C))
| ParWalk (read_dir_result_iter : OrderedQueueIter.t (Result (ReadDir.t C))) (e : E).

(** [Vec::pop] and the pushes of the [Walk] branch. *)
Definition walk_next (core_read_dir_callback : ReadDirSpec.t C -> Result (ReadDir.t C))
    (read_dir_spec_stack : list (ReadDirSpec.t C)) :
    option (Result (ReadDir.t C)) * list (ReadDirSpec.t C) :=
  match last read_dir_spec_stack with
  | None => (None, read_dir_spec_stack)
  | Some read_dir_spec =>
      let stack := removelast read_dir_spec_stack in
      let read_dir_result := core_read_dir_callback read_dir_spec in
      let stack :=
        match read_dir_result with
        | Ok read_dir =>
            let specs := rev (ReadDir.read_children_specs read_dir) in
            fold_left (fun stack each_spec => stack ++ [each_spec]) specs stack
        | Err _ => stack
        end in
      (Some read_dir_result, stack)
  end.

Definition next (core_read_dir_callback : ReadDirSpec.t C -> Result (ReadDir.t C))
    (fuel : nat) (self : t) : exec (option (Result (ReadDir.t C)) * t) :=
  match self with
  | Walk read_dir_spec_stack =>
      let '(r, stack) := walk_next core_read_dir_callback read_dir_spec_stack in
      Ret (r, Walk stack)
  | ParWalk read_dir_result_iter e =>
      let! r := OrderedQueueIter.next fuel (read_dir_result_iter, e) in
      let '(o, (iter, e)) := r in
      Ret (Ordered.value <$> o, ParWalk iter e)
  end.
End ReadDirIter.
Arguments t {P} C E.
End ReadDirIter.

(** ** The serial iterator yields the depth-first order *)

Section Serial.
Context {P : Platform} {C : ClientState} {E : Type} {HW : World.World E (Ordered.t (Result (ReadDir.t C)))}.
Context (callback : ReadDirSpec.t C -> Result (ReadDir.t C)).
Import ReadDirIter.

Abbreviation Walk := (@ReadDirIter.Walk P C E).
Abbreviation walk_yields fuel := (yields (ReadDirIter.next callback fuel)).

Lemma fold_left_push {A} (l stack : list A) :
  fold_left (fun st x => st ++ [x]) l stack = stack ++ l.
Proof.
  revert stack. induction l as [|x l IH]; intros stack; simpl; [by rewrite app_nil_r|].
  by rewrite IH, <- app_assoc.
Qed.

(** Taking the top spec of the stack replaces it by its children, the first on top. *)
Lemma walk_next_snoc stack s :
  walk_next callback (stack ++ [s]) =
    (Some (callback s), stack ++ rev (children (callback s))).
Proof.
  unfold walk_next. rewrite last_snoc, removelast_snoc.
  destruct (callback s) as [rd|e]; simpl; [by rewrite fold_left_push|by rewrite app_nil_r].
Qed.

Definition serial_ok (t : tree (Result (ReadDir.t C))) : Prop := forall fuel s stack L,
  reads callback s t -> walk_yields fuel (Walk stack) L ->
  walk_yields fuel (Walk (stack ++ [s])) (preorder t ++ L).

Lemma serial_forest fuel specs ts stack L :
  Forall serial_ok ts -> Forall2 (reads callback) specs ts ->
  walk_yields fuel (Walk stack) L ->
  walk_yields fuel (Walk (stack ++ rev specs)) (flat_map preorder ts ++ L).
Proof.
  intros Hok H. revert stack L Hok.
  induction H as [|s t specs ts Hs _ IH]; intros stack L Hok HL; simpl.
  - by rewrite app_nil_r.
  - inversion Hok as [|? ? Ht Hok']; subst.
    rewrite (app_assoc stack), <- (app_assoc (preorder t)).
    apply (Ht fuel s (stack ++ rev specs)); auto.
Qed.

Lemma serial_tree t : serial_ok t.
Proof.
  induction t as [v ts IH] using tree_nested_ind. intros fuel s stack L Hr HL.
  apply reads_inv in Hr as [-> Hr]. simpl. eapply yields_cons.
  - simpl. by rewrite walk_next_snoc.
  - by apply serial_forest.
Qed.

Lemma serial_root s t fuel :
  reads callback s t -> walk_yields fuel (Walk [s]) (preorder t).
Proof.
  intros Hr. rewrite <- (app_nil_r (preorder t)).
  apply (serial_tree t fuel s []); [done|]. by eapply yields_nil.
Qed.

(** In serial mode the iterator over the root's spec yields the result of
    every directory of the tree, each once, in depth-first pre-order, and ends. *)
Theorem serial_walk_dfs s t fuel :
  reads callback s t -> walk_yields fuel (Walk [s]) (preorder t).
Proof. apply serial_root. Qed.
End Serial.

(** ** The parallel iterator *)

Section Parallel.
Context {P : Platform} {C : ClientState} {E : Type} {HW : World.World E (Ordered.t (Result (ReadDir.t C)))}
  {HL : World.WorldLaws E (Ordered.t (Result (ReadDir.t C))) STRICT_WAIT_TIMEOUT}.
Context (callback : ReadDirSpec.t C -> Result (ReadDir.t C)).

Lemma par_yields fuel iter e l :
  yields (OrderedQueueIter.next fuel) (iter, e) l ->
  yields (ReadDirIter.next callback fuel) (ReadDirIter.ParWalk iter e) (map Ordered.value l).
Proof.
  remember (iter, e) as s eqn:Es. intros H. revert iter e Es.
  induction H as [s [it' e'] En|s [it' e'] x l En _ IH]; intros iter e ->.
  - eapply (yields_nil _ _ (ReadDirIter.ParWalk it' e')). simpl. by rewrite En.
  - simpl. eapply (yields_cons _ _ (ReadDirIter.ParWalk it' e')).
    + simpl. by rewrite En.
    + by apply IH.
Qed.

(** The parallel iterator, fed the results of the tree in any order, yields
    them in depth-first pre-order. *)
Lemma parallel_walk_dfs (t : tree (Result (ReadDir.t C))) max fuel e :
  sized t -> World.arrivals e ≡ₚ labels [0] t -> World.running e ->
  (length (World.arrivals e) + World.patience e < fuel)%nat ->
  yields (ReadDirIter.next callback fuel)
    (ReadDirIter.ParWalk (OrderedQueueIter.new_ordered_queue max) e) (preorder t).
Proof.
  intros Hs Ha Hr Hf. rewrite <- (labels_values [0] t). apply par_yields.
  destruct (new_stream t max fuel e) as (l & Hy & _ & Hl); [done..|]. by rewrite <- Hl.
Qed.
End Parallel.

(** ** A directory to walk: [/r] with [a] (empty), a file [f] and [b] (unreadable) *)

Definition sample_spec (depth : Z) (path : Path) : ReadDirSpec.t unit_client :=
  @ReadDirSpec.mk _ unit_client depth path tt None.

Definition sample_callback (s : ReadDirSpec.t unit_client) : Result (ReadDir.t unit_client) :=
  if decide (ReadDirSpec.path s = bytes "/r") then Ok sample_read_dir
  else if decide (ReadDirSpec.path s = bytes "/r/a") then Ok (@ReadDir.new _ unit_client tt [])
  else Err Error.busy.

Definition sample_reads : tree (Result (ReadDir.t unit_client)) :=
  Node (Ok sample_read_dir) [Node (Ok (@ReadDir.new _ unit_client tt [])) []; Node (Err Error.busy) []].

Lemma sample_reads_ok : reads sample_callback (sample_spec 0 (bytes "/r")) sample_reads.
Proof.
  apply (reads_node sample_callback (sample_spec 0 (bytes "/r"))).
  assert (children (sample_callback (sample_spec 0 (bytes "/r"))) =
    [sample_spec 1 (bytes "/r/a"); sample_spec 1 (bytes "/r/b")]) as -> by vm_refl.
  constructor; [|constructor; [|constructor]].
  - apply (reads_node sample_callback (sample_spec 1 (bytes "/r/a"))). constructor.
  - apply (reads_node sample_callback (sample_spec 1 (bytes "/r/b"))). constructor.
Qed.

Lemma sample_reads_sized : sized sample_reads.
Proof. repeat constructor; unfold usize_max, usize_bits; simpl; lia. Qed.

Lemma serial_walk_dfs_witness :
  yields (ReadDirIter.next (E := World.script (Ordered.t (Result (ReadDir.t unit_client))))
      sample_callback 0)
    (ReadDirIter.Walk [sample_spec 0 (bytes "/r")])
    [Ok sample_read_dir; Ok (@ReadDir.new _ unit_client tt []); Err Error.busy].
Proof. exact (serial_walk_dfs sample_callback _ sample_reads 0 sample_reads_ok). Defined.
