(* ===== verification/DirEntryIter.v ===== *)
(** * The stream of entries: [dir_entry_iter.rs]

    [DirEntryIter] interleaves the entries of the directories already read with
    the reads that the underlying iterator yields.  That iterator is an argument
    ([iter_next], with the list it [yields]), so the theorems hold of both modes
    of [ReadDirIter].  [emits] is the specification: what a list of entries
    turns into, given the reads of its sub-directories. *)
From S2P Require Import Prelude Order Tree World Std Error Metadata Platform DirEntry.
From S2P Require Import OrderedQueue ReadDirIter.
#[local] Set Warnings "-register-all".

Module DirEntryIter.
Section DirEntryIter.
Context {P : Platform} {C : ClientState} {I : Type}
  (iter_next : I -> exec (option (Result (ReadDir.t C)) * I)).

(** [Peekable] is never peeked: it is the iterator itself.  A stack element is
    what remains of a [vec::IntoIter]; the top is the last one.  [stop] is
    the flag shared with the workers. *)
Record t := mk {
  min_depth : Z;
  read_dir_iter : option I;
  read_dir_results_stack : list (list (Result (DirEntry.t C)));
  stop : option bool;
}.

(** [Drop::drop]: the value of the shared flag afterwards. *)
Definition drop (self : t) : option bool :=
  match stop self with
  | Some _ => Some true
  | None => None
  end.

(** [try_new] is [ReadDirIter::try_new] applied to everything but the specs; it may block. *)
Definition new (root_entry_results : list (Result (DirEntry.t C))) (min_depth : Z)
    (root_read_dir_state : ReadDirState)
    (try_new : list (ReadDirSpec.t C) -> starting (option (I * option bool))) : starting t :=
  let read_dir_specs := omap (ReadDir.child_spec root_read_dir_state) root_entry_results in
  starting_map (fun started =>
    let '(read_dir_iter, stop) :=
      match started with
      | Some (iter, stop) => (Some iter, stop)
      | None => (None, None)
      end in
    mk min_depth read_dir_iter [root_entry_results] stop) (try_new read_dir_specs).

Definition push_next_read_dir_results (iter : I)
    (results : list (list (Result (DirEntry.t C)))) :
    exec (Result unit * I * list (list (Result (DirEntry.t C)))) :=
  let! r := iter_next iter in
  let '(read_dir_result, iter) := r in
  Ret (match read_dir_result with
       | None => (Err Error.busy, iter, results)
       | Some (Err err) => (Err err, iter, results)
       | Some (Ok read_dir) => (Ok tt, iter, results ++ [ReadDir.results_list read_dir])
       end).

(** [Iterator::next]; one unit of fuel per turn of its loop. *)
Fixpoint next (fuel : nat) (self : t) : exec (option (Result (DirEntry.t C)) * t) :=
  match fuel with
  | O => NoFuel
  | S fuel' =>
      match last (read_dir_results_stack self) with
      | None => Ret (None, self)
      | Some [] =>
          next fuel' (mk (min_depth self) (read_dir_iter self)
            (removelast (read_dir_results_stack self)) (stop self))
      | Some (dir_entry_result :: rest) =>
          let stack := removelast (read_dir_results_stack self) ++ [rest] in
          match dir_entry_result with
          | Err err =>
              Ret (Some (Err err), mk (min_depth self) (read_dir_iter self) stack (stop self))
          | Ok dir_entry =>
              match DirEntry.read_children_path dir_entry with
              | Some _ =>
                  match read_dir_iter self with
                  | None =>
                      Ret (Some (Err Error.busy), mk (min_depth self) None stack (stop self))
                  | Some iter =>
                      let! r := push_next_read_dir_results iter stack in
                      let '(pushed, iter, stack) := r in
                      let dir_entry :=
                        match pushed with
                        | Err err => DirEntry.set_read_children_error dir_entry (Some err)
                        | Ok _ => dir_entry
                        end in
                      let self := mk (min_depth self) (Some iter) stack (stop self) in
                      if min_depth self <=? DirEntry.depth dir_entry
                      then Ret (Some (Ok dir_entry), self) else next fuel' self
                  end
              | None =>
                  let self := mk (min_depth self) (read_dir_iter self) stack (stop self) in
                  if min_depth self <=? DirEntry.depth dir_entry
                  then Ret (Some (Ok dir_entry), self) else next fuel' self
              end
          end
      end
  end.
End DirEntryIter.
Arguments t {P} C I.
End DirEntryIter.

(** ** Specification *)

Section Emits.
Context {P : Platform} {C : ClientState} (min_depth : Z).
Abbreviation Entry := (DirEntry.t C).
Abbreviation Read := (Result (ReadDir.t C)).
Implicit Types (es : list (Result Entry)) (reads : list Read) (out : list (Result Entry)).

(** An entry is shown from [min_depth] on; errors always are. *)
Definition shown (d : Entry) : list (Result Entry) :=
  if min_depth <=? DirEntry.depth d then [Ok d] else [].

(** [emits es reads out]: the entries [es], whose sub-directories read (in
    depth-first order) as [reads], are listed as [out]: each entry before its
    contents, a failed read being noted in the entry of the directory. *)
Inductive emits : list (Result Entry) -> list Read -> list (Result Entry) -> Prop :=
| emits_nil : emits [] [] []
| emits_err e es reads out :
    emits es reads out -> emits (Err e :: es) reads (Err e :: out)
| emits_leaf d es reads out :
    DirEntry.read_children_path d = None ->
    emits es reads out -> emits (Ok d :: es) reads (shown d ++ out)
| emits_failed d p e es reads out :
    DirEntry.read_children_path d = Some p -> emits es reads out ->
    emits (Ok d :: es) (Err e :: reads)
      (shown (DirEntry.set_read_children_error d (Some e)) ++ out)
| emits_dir d p rd es reads1 reads2 out1 out2 :
    DirEntry.read_children_path d = Some p ->
    emits (ReadDir.results_list rd) reads1 out1 -> emits es reads2 out2 ->
    emits (Ok d :: es) (Ok rd :: reads1 ++ reads2) (shown d ++ out1 ++ out2).

(** The same with the number of turns of the loop. *)
Inductive emits_n : nat -> list (Result Entry) -> list Read -> list (Result Entry) -> Prop :=
| emits_n_nil : emits_n 1 [] [] []
| emits_n_err n e es reads out :
    emits_n n es reads out -> emits_n (S n) (Err e :: es) reads (Err e :: out)
| emits_n_leaf n d es reads out :
    DirEntry.read_children_path d = None ->
    emits_n n es reads out -> emits_n (S n) (Ok d :: es) reads (shown d ++ out)
| emits_n_failed n d p e es reads out :
    DirEntry.read_children_path d = Some p -> emits_n n es reads out ->
    emits_n (S n) (Ok d :: es) (Err e :: reads)
      (shown (DirEntry.set_read_children_error d (Some e)) ++ out)
| emits_n_dir n1 n2 d p rd es reads1 reads2 out1 out2 :
    DirEntry.read_children_path d = Some p ->
    emits_n n1 (ReadDir.results_list rd) reads1 out1 -> emits_n n2 es reads2 out2 ->
    emits_n (S (n1 + n2)) (Ok d :: es) (Ok rd :: reads1 ++ reads2) (shown d ++ out1 ++ out2).

Lemma emits_turns es reads out : emits es reads out -> exists n, emits_n n es reads out.
Proof.
  induction 1; repeat match goal with H : exists n, _ |- _ => destruct H end;
    eauto using emits_n.
Qed.

(** A stack of entries, its top last. *)
Inductive emits_stack : nat -> list (list (Result Entry)) -> list Read ->
    list (Result Entry) -> Prop :=
| emits_stack_nil : emits_stack 0 [] [] []
| emits_stack_snoc n1 n2 st es reads1 reads2 out1 out2 :
    emits_n n1 es reads1 out1 -> emits_stack n2 st reads2 out2 ->
    emits_stack (n1 + n2) (st ++ [es]) (reads1 ++ reads2) (out1 ++ out2).

Lemma emits_det_app es reads1 out1 : emits es reads1 out1 -> forall rest1 reads2 out2 rest2,
  emits es reads2 out2 -> reads1 ++ rest1 = reads2 ++ rest2 ->
  reads1 = reads2 /\ out1 = out2 /\ rest1 = rest2.
Proof.
  induction 1 as [|e es r1 o1 _ IH|d es r1 o1 Hp _ IH|d p e es r1 o1 Hp _ IH
    |d p rd es r1 r1' o1 o1' Hp _ IH _ IH']; intros rest1 reads2 out2 rest2 H2 E;
    inversion H2; simplify_eq/=; try done.
  1-3: match goal with H : emits _ _ _, E : _ ++ _ = _ ++ _ |- _ =>
    by destruct (IH _ _ _ _ H E) as (-> & -> & ->) end.
  match goal with E : (_ ++ _) ++ _ = _ |- _ => rewrite <- !app_assoc in E; rename E into Eq end.
  match goal with H : emits (ReadDir.results_list _) _ _ |- _ =>
    destruct (IH _ _ _ _ H Eq) as (-> & -> & E') end.
  match goal with H : emits _ _ _ |- _ =>
    by destruct (IH' _ _ _ _ H E') as (-> & -> & ->) end.
Qed.

Lemma emits_det es reads out out' : emits es reads out -> emits es reads out' -> out = out'.
Proof. intros H1 H2. by destruct (emits_det_app _ _ _ H1 [] _ _ [] H2 eq_refl) as (_ & -> & _). Qed.

(** What holds of all the entries read holds of the entries listed, if setting a read
    error keeps it; and [min_depth] is respected. *)
Lemma emits_forall (Q : Result Entry -> Prop) es reads out :
  (forall e p err, DirEntry.read_children_path e = Some p -> Q (Ok e) ->
     Q (Ok (DirEntry.set_read_children_error e (Some err)))) ->
  emits es reads out -> Forall Q es ->
  Forall (fun r => match r with Ok rd => Forall Q (ReadDir.results_list rd) | Err _ => True end) reads ->
  Forall (fun r => Q r /\ match r with Ok e => min_depth <= DirEntry.depth e | Err _ => True end) out.
Proof.
  intros HQ. assert (forall e, Q (Ok e) -> Forall (fun r => Q r /\
    match r with Ok e => min_depth <= DirEntry.depth e | Err _ => True end) (shown e)) as Hshown.
  { intros e He. unfold shown. destruct (Z.leb_spec min_depth (DirEntry.depth e)); by repeat constructor. }
  induction 1 as [|e es r1 o1 _ IH|d es r1 o1 _ _ IH|d p e es r1 o1 Hp _ IH
    |d p rd es r1 r2 o1 o2 _ _ IH1 _ IH2]; intros Hes Hr; [constructor|..];
    apply Forall_cons in Hes as [He Hes].
  - constructor; [by split|auto].
  - apply Forall_app; split; auto.
  - apply Forall_cons in Hr as [_ Hr]. apply Forall_app; split; [|auto]. by eapply Hshown, HQ.
  - apply Forall_cons in Hr as [Hrd Hr]. apply Forall_app in Hr as [Hr1 Hr2].
    repeat (apply Forall_app; split); auto.
Qed.

(** The entries of a directory that was read list as something, given the
    reads below it. *)
Definition lists (t : tree Read) : Prop :=
  match t with
  | Node (Ok rd) ts => exists out, emits (ReadDir.results_list rd) (flat_map preorder ts) out
  | Node (Err _) ts => ts = []
  end.

Lemma child_spec_ok st d :
  ReadDir.child_spec st (Ok d) = None <-> DirEntry.read_children_path d = None.
Proof.
  unfold ReadDir.child_spec, DirEntry.read_children_spec. simpl.
  by destruct (DirEntry.read_children_path d).
Qed.

Lemma emits_entries st es ts :
  Forall lists ts -> length (omap (ReadDir.child_spec st) es) = length ts ->
  exists out, emits es (flat_map preorder ts) out.
Proof.
  revert ts. induction es as [|[d|e] es IH]; intros ts Hts Hlen;
    cbn [omap list_omap] in Hlen.
  - destruct ts; [|done]. eauto using emits.
  - destruct (ReadDir.child_spec st (Ok d)) as [spec|] eqn:Ed.
    + destruct ts as [|[v cs] ts]; [done|]. inversion Hts as [|? ? Ht Hts']; subst.
      destruct (IH ts Hts' ltac:(simpl in Hlen; lia)) as [out Hout].
      destruct (DirEntry.read_children_path d) as [p|] eqn:Hp;
        [|apply (child_spec_ok st) in Hp; congruence].
      destruct v as [rd|e]; simpl in Ht.
      * destruct Ht as [out1 Hout1]. eexists. simpl. by eapply emits_dir.
      * subst cs. eexists. simpl. by eapply emits_failed.
    + destruct (IH ts Hts Hlen) as [out Hout]. eexists.
      apply emits_leaf; [by apply (child_spec_ok st)|done].
  - destruct (IH ts Hts Hlen) as [out Hout]. eexists. by apply emits_err.
Qed.

Lemma reads_lists (callback : ReadDirSpec.t C -> Read) t s : reads callback s t -> lists t.
Proof.
  revert s. induction t as [v ts IH] using tree_nested_ind. intros s Hr.
  apply reads_inv in Hr as [-> Hr]. simpl. destruct (callback s) as [rd|e]; simpl in Hr.
  - apply (emits_entries (ReadDir.read_dir_state rd)); [|by eapply Forall2_length].
    clear -IH Hr. induction Hr; inversion IH; subst; eauto.
  - by inversion Hr.
Qed.

Lemma emits_forest (callback : ReadDirSpec.t C -> Read) st es ts :
  Forall2 (reads callback) (omap (ReadDir.child_spec st) es) ts ->
  exists out, emits es (flat_map preorder ts) out.
Proof.
  intros H. apply (emits_entries st); [|by eapply Forall2_length].
  induction H; eauto using reads_lists.
Qed.
End Emits.

(** ** The iterator implements the specification *)

Section Refinement.
Context {P : Platform} {C : ClientState} {I : Type}
  (iter_next : I -> exec (option (Result (ReadDir.t C)) * I)).
Import DirEntryIter.

Abbreviation next := (DirEntryIter.next iter_next).

(** One call of [next], the underlying iterator yielding the reads needed: it
    returns the first entry listed, if any, and the rest remains. *)
Definition next_ok (n fuel : nat) (self : t C I) (out : list (Result (DirEntry.t C))) : Prop :=
  match out with
  | [] => exists self', next fuel self = Ret (None, self')
  | x :: out' =>
      exists self' it' n' reads',
        next fuel self = Ret (Some x, self') /\ read_dir_iter self' = Some it' /\
        yields iter_next it' reads' /\ min_depth self' = min_depth self /\
        emits_stack (min_depth self) n' (read_dir_results_stack self') reads' out' /\
        (n' <= n)%nat
  end.

Lemma next_ok_weaken n n' fuel fuel' self self' out :
  (n' <= n)%nat -> min_depth self' = min_depth self ->
  next fuel self = next fuel' self' ->
  next_ok n' fuel' self' out -> next_ok n fuel self out.
Proof.
  intros Hn Hm E. unfold next_ok. destruct out as [|x out]; rewrite E; [done|].
  intros (s2 & it' & m & reads' & ? & ? & ? & ? & ? & ?). exists s2, it', m, reads'.
  rewrite Hm in *. split_and!; try done. lia.
Qed.

(** The end of a turn: the entry is shown and returned, or the loop goes on. *)
Lemma shown_ok md (d : DirEntry.t C) n fuel self it reads out :
  read_dir_iter self = Some it -> yields iter_next it reads -> min_depth self = md ->
  emits_stack md n (read_dir_results_stack self) reads out ->
  next_ok n fuel self out ->
  forall m fuel0 self0, (n <= m)%nat -> min_depth self0 = md ->
    next fuel0 self0 =
      (if md <=? DirEntry.depth d then Ret (Some (Ok d), self) else next fuel self) ->
    next_ok m fuel0 self0 (shown md d ++ out).
Proof.
  intros Hi Hy Hmd Hst Hok m fuel0 self0 Hm Hmd0. unfold shown.
  destruct (md <=? DirEntry.depth d); simpl; intros E.
  - exists self, it, n, reads. rewrite Hmd0. split_and!; try done; congruence.
  - apply (next_ok_weaken m n fuel0 fuel self0 self); congruence || done.
Qed.

Lemma next_stack n st it stop reads out fuel md :
  emits_stack md n st reads out -> yields iter_next it reads -> (n < fuel)%nat ->
  next_ok n fuel (mk md (Some it) st stop) out.
Proof.
  revert st it reads out fuel. induction n as [n IH] using lt_wf_ind.
  intros st it reads out fuel Hst Hy Hf. destruct fuel as [|fuel]; [lia|].
  inversion Hst as [|n1 n2 st' es r1 r2 o1 o2 Hes Hst' Hn Hs Hr Ho]; subst.
  { simpl. by eexists. }
  destruct Hes as [|n1 e es r1 o1 H|n1 d es r1 o1 Hp H|n1 d p e es r1 o1 Hp H
    |n1 n1' d p rd es r1 r1' o1 o1' Hp H H'].
  - (* the directory is finished *)
    eapply (next_ok_weaken _ n2 _ fuel _ (mk md (Some it) st' stop)); [lia|done| |].
    + simpl. by rewrite last_snoc, removelast_snoc.
    + apply IH with (reads := r2); try done; lia.
  - (* an error *)
    exists (mk md (Some it) (st' ++ [es]) stop), it, (n1 + n2)%nat, (r1 ++ r2).
    simpl. rewrite last_snoc, removelast_snoc. split_and!; try done; [|lia].
    by constructor.
  - (* an entry without children *)
    rewrite <- app_assoc.
    eapply (shown_ok md d (n1 + n2) fuel (mk md (Some it) (st' ++ [es]) stop) it (r1 ++ r2));
      try done; [by constructor| |lia|].
    + apply IH with (reads := r1 ++ r2); [lia|by constructor|done|lia].
    + simpl. by rewrite last_snoc, removelast_snoc, Hp.
  - (* a directory that could not be read *)
    inversion Hy as [|? it' ? ? En Hy']; subst. rewrite <- app_assoc.
    eapply (shown_ok md _ (n1 + n2) fuel (mk md (Some it') (st' ++ [es]) stop) it' (r1 ++ r2));
      try done; [by constructor| |lia|].
    + apply IH with (reads := r1 ++ r2); [lia|by constructor|done|lia].
    + cbn [next]. cbn [read_dir_results_stack]. rewrite last_snoc, removelast_snoc.
      cbn [read_dir_iter]. rewrite Hp. unfold push_next_read_dir_results. by rewrite En.
  - (* a directory and its contents *)
    inversion Hy as [|? it' ? ? En Hy']; subst. rewrite <- app_assoc in Hy'.
    replace ((shown md d ++ o1 ++ o1') ++ o2) with (shown md d ++ o1 ++ o1' ++ o2)
      by by rewrite <- !app_assoc.
    assert (emits_stack md (n1 + (n1' + n2)) ((st' ++ [es]) ++ [ReadDir.results_list rd])
      (r1 ++ r1' ++ r2) (o1 ++ o1' ++ o2)) as Hst2 by (repeat constructor; done).
    eapply (shown_ok md d (n1 + (n1' + n2)) fuel
      (mk md (Some it') ((st' ++ [es]) ++ [ReadDir.results_list rd]) stop) it' (r1 ++ r1' ++ r2));
      try done; [|lia|].
    + apply IH with (reads := r1 ++ r1' ++ r2); [lia|done|done|lia].
    + cbn [next]. cbn [read_dir_results_stack]. rewrite last_snoc, removelast_snoc.
      cbn [read_dir_iter]. rewrite Hp. unfold push_next_read_dir_results. by rewrite En.
Qed.

Lemma yields_stack n st it stop reads out fuel md :
  emits_stack md n st reads out -> yields iter_next it reads -> (n < fuel)%nat ->
  yields (next fuel) (mk md (Some it) st stop) out.
Proof.
  revert n st it stop reads. induction out as [|x out IH]; intros n st it stop0 reads Hst Hy Hf;
    pose proof (next_stack n st it stop0 reads _ fuel md Hst Hy Hf) as H.
  - destruct H as [self' H]. by eapply yields_nil.
  - destruct H as ([md' ri st' stop'] & it' & n' & reads' & En & Hi & Hy' & Hm & Hst' & Hn).
    simpl in *. subst. eapply yields_cons; [done|]. eapply IH; [done..|lia].
Qed.
End Refinement.

(** ** What a walk lists *)

Section Listing.
Context {P : Platform} {C : ClientState} (callback : ReadDirSpec.t C -> Result (ReadDir.t C)).
Import DirEntryIter.

Lemma listing st es ts md :
  Forall2 (reads callback) (omap (ReadDir.child_spec st) es) ts ->
  exists out fuel0, emits md es (flat_map preorder ts) out /\
    forall I (iter_next : I -> exec (option (Result (ReadDir.t C)) * I)) fuel it stop,
      (fuel0 <= fuel)%nat -> yields iter_next it (flat_map preorder ts) ->
      yields (next iter_next fuel) (mk md (Some it) [es] stop) out.
Proof.
  intros H. destruct (emits_forest md _ _ _ _ H) as [out Hout].
  destruct (emits_turns _ _ _ _ Hout) as [n Hn]. exists out, (S n). split; [done|].
  intros I iter_next fuel it stop Hf Hy. eapply (yields_stack _ n); [|exact Hy|lia].
  rewrite <- (app_nil_r out), <- (app_nil_r (flat_map _ _)).
  replace n with (n + 0)%nat by lia. apply (emits_stack_snoc md n 0 []); [done|constructor].
Qed.

(** What the walk shows from [md] on. *)
Definition visible (md : Z) (r : Result (DirEntry.t C)) : bool :=
  match r with Ok d => md <=? DirEntry.depth d | Err _ => true end.

Lemma filter_shown md md' d :
  md' <= md -> List.filter (visible md) (shown md' d) = shown md d.
Proof.
  intros Hm. unfold shown. destruct (Z.leb_spec md' (DirEntry.depth d)),
    (Z.leb_spec md (DirEntry.depth d)); simpl; try lia; try done.
  - by destruct (Z.leb_spec md (DirEntry.depth d)); [|lia].
  - by destruct (Z.leb_spec md (DirEntry.depth d)); [lia|].
Qed.

Lemma emits_filter md md' es reads out :
  md' <= md -> emits md' es reads out -> emits md es reads (List.filter (visible md) out).
Proof.
  intros Hm. induction 1; rewrite ?List.filter_app, ?filter_shown by done;
    try (by econstructor; eauto).
Qed.

(** C9: whatever iterator delivers the reads of the tree below the root entries in
    depth-first order, the entry iterator goes through the root entries and, recursively, the
    entries of every directory: each entry once and before its contents, siblings in the
    order of their directory, a failed read noted in the entry of its directory; it lists
    those of depth [min_depth] or more, and every error; then it ends.  It never panics. *)
Theorem entry_stream st es ts md :
  Forall2 (reads callback) (omap (ReadDir.child_spec st) es) ts ->
  exists out fuel0, emits md es (flat_map preorder ts) out /\
    forall I (iter_next : I -> exec (option (Result (ReadDir.t C)) * I)) fuel it stop,
      (fuel0 <= fuel)%nat -> yields iter_next it (flat_map preorder ts) ->
      yields (next iter_next fuel) (mk md (Some it) [es] stop) out.
Proof. apply listing. Qed.

(** [min_depth] only filters: the walk with a larger [min_depth] lists what
    the walk with the smaller one lists, less the entries above [min_depth]. *)
Theorem min_depth_filters {I} (iter_next : I -> exec (option (Result (ReadDir.t C)) * I))
    st es ts md md' :
  md' <= md -> Forall2 (reads callback) (omap (ReadDir.child_spec st) es) ts ->
  exists out fuel0, forall fuel it stop,
    (fuel0 <= fuel)%nat -> yields iter_next it (flat_map preorder ts) ->
    yields (next iter_next fuel) (mk md' (Some it) [es] stop) out /\
    yields (next iter_next fuel) (mk md (Some it) [es] stop) (List.filter (visible md) out).
Proof.
  intros Hm H. destruct (listing st es ts md' H) as (out & f1 & E1 & Y1).
  destruct (listing st es ts md H) as (out2 & f2 & E2 & Y2).
  exists out, (f1 + f2)%nat. intros fuel it stop Hf Hy. split; [apply Y1; [lia|done]|].
  rewrite (emits_det _ _ _ _ _ (emits_filter md md' _ _ _ Hm E1) E2). apply Y2; [lia|done].
Qed.
End Listing.

(** ** Both modes list the same entries *)

Section BothModes.
Context {P : Platform} {C : ClientState} {E : Type} {HW : World.World E (Ordered.t (Result (ReadDir.t C)))}
  {HL : World.WorldLaws E (Ordered.t (Result (ReadDir.t C))) STRICT_WAIT_TIMEOUT}.
Context (callback : ReadDirSpec.t C -> Result (ReadDir.t C)).

(** For a root entry whose directory reads as the tree [t], the serial walk
    and the parallel walk, whatever the order in which its workers deliver the
    reads and the size of its reorder buffer, list the same entries in the
    same order. *)
Theorem serial_parallel_same_entries st root s t md :
  ReadDir.child_spec st (Ok root) = Some s -> reads callback s t -> sized t ->
  exists out fuel0, emits md [Ok root] (preorder t) out /\
    forall fuel e max stop1 stop2,
      World.arrivals e ≡ₚ labels [0] t -> World.running e ->
      (length (World.arrivals e) + World.patience e < fuel)%nat -> (fuel0 <= fuel)%nat ->
      yields (DirEntryIter.next (ReadDirIter.next callback fuel) fuel)
        (DirEntryIter.mk md (Some (ReadDirIter.Walk (E := E) [s])) [[Ok root]] stop1) out /\
      yields (DirEntryIter.next (ReadDirIter.next callback fuel) fuel)
        (DirEntryIter.mk md
          (Some (ReadDirIter.ParWalk (OrderedQueueIter.new_ordered_queue max) e))
          [[Ok root]] stop2) out.
Proof.
  intros Hs Hr Hsz.
  assert (Forall2 (reads callback) (omap (ReadDir.child_spec st) [Ok root]) [t]) as H2.
  { cbn [omap list_omap]. rewrite Hs. by constructor. }
  destruct (listing callback st [Ok root] [t] md H2) as (out & fuel0 & Hout & Hy).
  simpl in Hout, Hy. rewrite app_nil_r in Hout, Hy. exists out, fuel0. split; [done|].
  intros fuel e max stop1 stop2 Ha Hrun Hf Hf0. split; apply Hy; try done.
  - by apply serial_root.
  - by apply parallel_walk_dfs.
Qed.
End BothModes.

(** ** Witnesses *)

Definition sample_root : DirEntry.t unit_client :=
  sample_entry 0 [] (bytes "/r") 0x41ED None.

(** The reads of the sample arrive in reverse order. *)
Definition sample_deliveries : World.script (Ordered.t (Result (ReadDir.t unit_client))) :=
  World.mk_script 0 false (map World.Arrive (rev (labels [0] sample_reads))).

Lemma sample_root_reads :
  Forall2 (reads sample_callback) (omap (@ReadDir.child_spec _ unit_client tt) [Ok sample_root])
    [sample_reads].
Proof. constructor; [apply sample_reads_ok|constructor]. Qed.

Lemma entry_stream_witness :
  exists out fuel0,
    emits 1 [Ok sample_root] (flat_map preorder [sample_reads]) out /\
    forall I (iter_next : I -> exec (option (Result (ReadDir.t unit_client)) * I)) fuel it stop,
      (fuel0 <= fuel)%nat -> yields iter_next it (flat_map preorder [sample_reads]) ->
      yields (DirEntryIter.next iter_next fuel)
        (DirEntryIter.mk 1 (Some it) [[Ok sample_root]] stop) out.
Proof.
  exact (entry_stream sample_callback tt [Ok sample_root] [sample_reads] 1 sample_root_reads).
Defined.

Lemma min_depth_filters_witness :
  exists out fuel0, forall fuel stop, (fuel0 <= fuel)%nat ->
    yields (DirEntryIter.next (ReadDirIter.next (E := World.script _) sample_callback 0) fuel)
      (DirEntryIter.mk 0 (Some (ReadDirIter.Walk [sample_spec 0 (bytes "/r")]))
        [[Ok sample_root]] stop) out /\
    yields (DirEntryIter.next (ReadDirIter.next (E := World.script _) sample_callback 0) fuel)
      (DirEntryIter.mk 1 (Some (ReadDirIter.Walk [sample_spec 0 (bytes "/r")]))
        [[Ok sample_root]] stop) (List.filter (visible 1) out).
Proof.
  destruct (min_depth_filters sample_callback
    (ReadDirIter.next (E := World.script _) sample_callback 0)
    tt [Ok sample_root] [sample_reads] 1 0 ltac:(lia) sample_root_reads) as (out & fuel0 & H).
  exists out, fuel0. intros fuel stop Hf. apply H; [done|].
  apply (serial_root sample_callback _ sample_reads 0 sample_reads_ok).
Defined.

Lemma serial_parallel_same_entries_witness :
  exists out fuel0, emits 0 [Ok sample_root] (preorder sample_reads) out /\
    forall fuel stop1 stop2, (3 < fuel)%nat -> (fuel0 <= fuel)%nat ->
      yields (DirEntryIter.next (ReadDirIter.next sample_callback fuel) fuel)
        (DirEntryIter.mk 0 (Some (ReadDirIter.Walk
          (E := World.script (Ordered.t (Result (ReadDir.t unit_client))))
          [sample_spec 0 (bytes "/r")])) [[Ok sample_root]] stop1) out /\
      yields (DirEntryIter.next (ReadDirIter.next sample_callback fuel) fuel)
        (DirEntryIter.mk 0 (Some (ReadDirIter.ParWalk
          (OrderedQueueIter.new_ordered_queue 1) sample_deliveries)) [[Ok sample_root]] stop2) out.
Proof.
  destruct (serial_parallel_same_entries
    (E := World.script (Ordered.t (Result (ReadDir.t unit_client)))) sample_callback tt sample_root
    (sample_spec 0 (bytes "/r")) sample_reads 0 eq_refl sample_reads_ok sample_reads_sized)
    as (out & fuel0 & Hout & H).
  exists out, fuel0. split; [done|]. intros fuel stop1 stop2 Hf Hf0.
  apply H; [|by split|simpl; lia|done].
  change (rev (labels [0] sample_reads) ≡ₚ labels [0] sample_reads). symmetry. apply Permutation_rev.
Defined.

(** The names the serial walk lists, computed: [b] carries its read error. *)
Example sample_listing :
  take_n (DirEntryIter.next (ReadDirIter.next (E := World.script _) sample_callback 0) 9) 5
    (DirEntryIter.mk 0 (Some (ReadDirIter.Walk [sample_spec 0 (bytes "/r")]))
      [[Ok sample_root]] None) =
  Ret [Some (Ok sample_root);
       Some (Ok (sample_entry 1 (bytes "/r") (bytes "a") 0x41ED None));
       Some (Ok (sample_entry 1 (bytes "/r") (bytes "f") 0x81A4 None));
       Some (Ok (DirEntry.set_read_children_error
         (sample_entry 1 (bytes "/r") (bytes "b") 0x41ED None) (Some Error.busy)));
       None].
Proof. vm_refl. Qed.
