(* ===== verification/ParWalk.v ===== *)
(** * The parallel walk: [priority_queue.rs], [run_context.rs], [StreamingContext]
    and [multi_threaded_walk_dir] of [read_dir_iter.rs]

    The threads of the pool are interleaved: a state holds what they share (stop
    flag, counter of pending items, the two channels, the heap of the iterator)
    and where each of them is; [step] performs one atomic operation of one of
    them, chosen by the [action].  Atomics are taken sequentially consistent.
    Of [par_bridge] the model uses its contract only: one thread at a time runs
    the iterator's [next], every item goes to one call of the closure, and the
    iterator is dropped when it has ended and no call is running. *)
From S2P Require Import Prelude Order Tree World Std Error Metadata Platform DirEntry.
From S2P Require Import OrderedQueue ReadDirIter DirEntryIter Callback.

(** ** Atomic operations on what the threads share *)

Definition usize_sub (x y : Z) : Z := (x - y) mod 2 ^ usize_bits.

(** [try_next]: how long to wait after [spin_count] empty turns, in nanoseconds. *)
Definition backoff_timeout (spin_count : Z) : Z :=
  if spin_count <=? 10 then 10000
  else if spin_count <=? 50 then 100000
  else 1000000.

Section Machine.
Context {P : Platform} {C : ClientState}.
Abbreviation Spec := (ReadDirSpec.t C).
Abbreviation Read := (Result (ReadDir.t C)).

(** Where [PriorityQueue::push] is: before [fetch_add], before [send], or
    before the [fetch_sub] after a failed [send]. *)
Inductive push_pc : Set := PAdd | PSend | PUndo.

(** Where a call of [multi_threaded_walk_dir] is. *)
Inductive worker : Type :=
| Starting (w : Weighted.t Spec)                 (** about to load [stop] *)
| Calling (w : Weighted.t Spec) (c : callback_run C) (pc : push_pc)
                                                 (** in the callback; [pc] of its [schedule] *)
| Sending (o : Ordered.t Read) (specs : list (Weighted.t Spec))
| Scheduling (specs : list (Weighted.t Spec)) (pc : push_pc)
| Completing.                                    (** about to call [complete_item] *)

(** Where the thread that runs [PriorityQueueIter::next] is in [try_next]. *)
Inductive iter_pc : Type :=
| IIdle                     (** nobody runs it *)
| IStop (spin_count : Z)    (** about to load [stop] *)
| IDrain (spin_count : Z)   (** in the [while let] *)
| IPop (spin_count : Z)
| IPending (spin_count : Z) (** the heap is empty: about to load [pending_count] *)
| IWait (timeout spin_count : Z)  (** in [recv_timeout(timeout)] *)
| IEnded.                   (** it has returned [None] *)

Record state := mk_state {
  stop : bool;
  pending_count : Z;
  spec_chan : list (Weighted.t Spec);
  spec_open : bool;                     (** the iterator, so its receiver, is alive *)
  receive_buffer : list (Weighted.t Spec);
  iter : iter_pc;
  workers : list worker;
  result_chan : list (Ordered.t Read);
  result_open : bool;                   (** the consumer's receiver is alive *)
  sent : list (Ordered.t Read);         (** every result sent so far, in order *)
}.

(** [num_threads] threads, channels of [channel_capacity > 0] elements. *)
Context (callback : ReadDirCallback C) (num_threads channel_capacity : nat).

Definition set_iter (s : state) (pc : iter_pc) : state :=
  mk_state (stop s) (pending_count s) (spec_chan s) (spec_open s) (receive_buffer s) pc
    (workers s) (result_chan s) (result_open s) (sent s).

Definition set_pending (s : state) (n : Z) : state :=
  mk_state (stop s) n (spec_chan s) (spec_open s) (receive_buffer s) (iter s)
    (workers s) (result_chan s) (result_open s) (sent s).

Definition set_workers (s : state) (ws : list worker) : state :=
  mk_state (stop s) (pending_count s) (spec_chan s) (spec_open s) (receive_buffer s) (iter s)
    ws (result_chan s) (result_open s) (sent s).

Definition set_spec_chan (s : state) (ch : list (Weighted.t Spec)) : state :=
  mk_state (stop s) (pending_count s) ch (spec_open s) (receive_buffer s) (iter s)
    (workers s) (result_chan s) (result_open s) (sent s).

Definition set_receive_buffer (s : state) (h : list (Weighted.t Spec)) : state :=
  mk_state (stop s) (pending_count s) (spec_chan s) (spec_open s) h (iter s)
    (workers s) (result_chan s) (result_open s) (sent s).

(** [PriorityQueue::complete_item] *)
Definition complete_item (s : state) : state :=
  set_pending s (usize_sub (pending_count s) 1).

(** One atomic operation of [PriorityQueue::push w]: the new state and, when it
    has returned, whether it succeeded; [None] while [send] blocks on the full
    channel. *)
Definition push (s : state) (w : Weighted.t Spec) (pc : push_pc) :
    option (state * (push_pc + bool)) :=
  match pc with
  | PAdd => Some (set_pending s (usize_add (pending_count s) 1), inl PSend)
  | PSend =>
      if spec_open s then
        if (length (spec_chan s) <? channel_capacity)%nat
        then Some (set_spec_chan s (spec_chan s ++ [w]), inr true)
        else None
      else Some (s, inl PUndo)
  | PUndo => Some (set_pending s (usize_sub (pending_count s) 1), inr false)
  end.

(** [OrderedQueue::push], also through [send_read_dir_result]. *)
Definition send_read_dir_result (s : state) (o : Ordered.t Read) : option (state * bool) :=
  if result_open s then
    if (length (result_chan s) <? channel_capacity)%nat
    then Some (mk_state (stop s) (pending_count s) (spec_chan s) (spec_open s)
                 (receive_buffer s) (iter s) (workers s) (result_chan s ++ [o])
                 (result_open s) (sent s ++ [o]), true)
    else None
  else Some (s, false).

(** [multi_threaded_walk_dir] after the callback: the children it will schedule
    itself, and the result it sends. *)
Definition regular_specs (read_dir_result : Read) (index_path : IndexPath.t)
    (parent_weight : Z) : option (list (Weighted.t Spec)) :=
  let schedule_regular :=
    match read_dir_result with
    | Ok read_dir => ReadDir.streamed_child_count read_dir =? 0
    | Err _ => false
    end in
  if schedule_regular then
    match read_dir_result with
    | Ok read_dir => Some (ReadDir.weighted_children_specs read_dir index_path parent_weight)
    | Err _ => None
    end
  else None.

Definition ordered_result (read_dir_result : Read) (index_path : IndexPath.t)
    (parent_weight : Z) : Ordered.t Read :=
  let streamed_count :=
    match read_dir_result with Ok rd => ReadDir.streamed_child_count rd | Err _ => 0 end in
  let regular_count :=
    match regular_specs read_dir_result index_path parent_weight with
    | Some specs => Z.of_nat (length specs)
    | None => 0
    end in
  let child_count := usize_add streamed_count regular_count in
  Ordered.new read_dir_result index_path child_count.

(** One atomic operation of a call of [multi_threaded_walk_dir]: the new state
    and where the call is afterwards ([None]: it has returned). *)
Definition walk_dir_step (s : state) (wk : worker) : option (state * option worker) :=
  match wk with
  | Starting w =>
      if stop s then Some (s, Some Completing)
      else
        let streaming_ctx :=
          mk_streaming_context (Weighted.index_path w) (Weighted.weight w) in
        Some (s, Some (Calling w (callback (Weighted.value w) (Some streaming_ctx)) PAdd))
  | Calling w (Schedule each k) pc =>
      match push s each pc with
      | None => None
      | Some (s', inl pc') => Some (s', Some (Calling w (Schedule each k) pc'))
      | Some (s', inr ok) => Some (s', Some (Calling w (k ok) PAdd))
      end
  | Calling w (IsStopped k) _ => Some (s, Some (Calling w (k (stop s)) PAdd))
  | Calling w (Returns r) _ =>
      Some (s, Some (Sending (ordered_result r (Weighted.index_path w) (Weighted.weight w))
        (default [] (regular_specs r (Weighted.index_path w) (Weighted.weight w)))))
  | Sending o specs =>
      match send_read_dir_result s o with
      | None => None
      | Some (s', true) => Some (s', Some (Scheduling specs PAdd))
      | Some (s', false) => Some (s', Some Completing)
      end
  | Scheduling [] _ => Some (s, Some Completing)
  | Scheduling (each :: specs) pc =>
      match push s each pc with
      | None => None
      | Some (s', inl pc') => Some (s', Some (Scheduling (each :: specs) pc'))
      | Some (s', inr true) => Some (s', Some (Scheduling specs PAdd))
      | Some (s', inr false) => Some (s', Some Completing)
      end
  | Completing => Some (complete_item s, None)
  end.

(** One atomic operation of [PriorityQueueIter::try_next]; returning [Ok w] hands
    [w] to a new call of [multi_threaded_walk_dir] on the same thread.  [next]
    has nothing to add: [try_next] never returns [Empty]. *)
Definition try_next_step (s : state) : option state :=
  match iter s with
  | IIdle =>
      if (length (workers s) <? num_threads)%nat then Some (set_iter s (IStop 0)) else None
  | IStop n => Some (set_iter s (if stop s then IEnded else IDrain n))
  | IDrain n =>
      match spec_chan s with
      | w :: ch =>
          Some (set_iter (set_receive_buffer (set_spec_chan s ch)
            (Heap.push w (receive_buffer s))) (IDrain 0))
      | [] => Some (set_iter s (IPop n))
      end
  | IPop n =>
      match Heap.pop Weighted.cmp (receive_buffer s) with
      | Some (w, rest) =>
          Some (set_iter (set_workers (set_receive_buffer s rest)
            (workers s ++ [Starting w])) IIdle)
      | None => Some (set_iter s (IPending n))
      end
  | IPending n =>
      Some (set_iter s (if pending_count s =? 0 then IEnded
                        else IWait (backoff_timeout n) ((n + 1) mod 2 ^ 32)))
  | IWait _ n =>
      match spec_chan s with
      | w :: ch =>
          Some (set_iter (set_receive_buffer (set_spec_chan s ch)
            (Heap.push w (receive_buffer s))) (IStop n))
      | [] => Some (set_iter s (IStop n))
      end
  | IEnded => None
  end.

(** ** The interleaving *)

Inductive action : Set :=
| Work (i : nat)      (** call [i] of [multi_threaded_walk_dir] *)
| TryNext             (** the iterator *)
| DropIter            (** [par_bridge] is over *)
| Consume             (** the consumer takes a result from its channel *)
| SetStop             (** [DirEntryIter::drop], or the busy timeout of [try_new] *)
| CloseResults.       (** the consumer's receiver is dropped, after [drop] *)

Definition step (a : action) (s : state) : option state :=
  match a with
  | Work i =>
      match workers s !! i with
      | None => None
      | Some wk =>
          match walk_dir_step s wk with
          | None => None
          | Some (s', Some wk') => Some (set_workers s' (<[i := wk']> (workers s')))
          | Some (s', None) => Some (set_workers s' (delete i (workers s')))
          end
      end
  | TryNext => try_next_step s
  | DropIter =>
      match iter s, workers s with
      | IEnded, [] =>
          Some (mk_state (stop s) (pending_count s) (spec_chan s) false (receive_buffer s)
            (iter s) (workers s) (result_chan s) (result_open s) (sent s))
      | _, _ => None
      end
  | Consume =>
      match result_chan s with
      | [] => None
      | _ :: ch =>
          Some (mk_state (stop s) (pending_count s) (spec_chan s) (spec_open s)
            (receive_buffer s) (iter s) (workers s) ch (result_open s) (sent s))
      end
  | SetStop =>
      Some (mk_state true (pending_count s) (spec_chan s) (spec_open s) (receive_buffer s)
        (iter s) (workers s) (result_chan s) (result_open s) (sent s))
  | CloseResults =>
      if stop s then
        Some (mk_state (stop s) (pending_count s) (spec_chan s) (spec_open s)
          (receive_buffer s) (iter s) (workers s) [] false (sent s))
      else None
  end.

Fixpoint run (l : list action) (s : state) : option state :=
  match l with
  | [] => Some s
  | a :: l' => match step a s with Some s' => run l' s' | None => None end
  end.

(** [try_new] before the pool starts: [ROOT_WEIGHT], and the root specs pushed. *)
Definition ROOT_WEIGHT : Z := Z.shiftr usize_max 1.

Definition init (read_dir_specs : list Spec) : state :=
  mk_state false (Z.of_nat (length read_dir_specs) mod 2 ^ usize_bits)
    (map (fun read_dir_spec => Weighted.new read_dir_spec (IndexPath.new [0]) ROOT_WEIGHT)
      read_dir_specs)
    true [] IIdle [] [] true [].

(** The queues just created, and the loop of [try_new] that pushes the root specs on the
    calling thread, before the pool is spawned; [None]: a [send] blocks for ever, since
    nobody receives. *)
Definition new_queues : state := mk_state false 0 [] true [] IIdle [] [] true [].

Fixpoint push_roots (read_dir_specs : list Spec) (s : state) : option state :=
  match read_dir_specs with
  | [] => Some s
  | read_dir_spec :: specs =>
      let w := Weighted.new read_dir_spec (IndexPath.new [0]) ROOT_WEIGHT in
      match push s w PAdd with
      | Some (s, inl pc) =>
          match push s w pc with
          | Some (s, inr true) => push_roots specs s
          | _ => None
          end
      | _ => None
      end
  end.

Inductive reachable (s0 : state) : state -> Prop :=
| reachable_refl : reachable s0 s0
| reachable_step s a s' : reachable s0 s -> step a s = Some s' -> reachable s0 s'.

Lemma run_reachable s0 l s s' : reachable s0 s -> run l s = Some s' -> reachable s0 s'.
Proof.
  revert s. induction l as [|a l IH]; intros s Hr E; simpl in E; [by simplify_eq|].
  destruct (step a s) eqn:Es; [|done]. eapply IH; [|done]. by econstructor.
Qed.

(** The state at the end of a schedule, the initial one if it cannot be played. *)
Definition play (l : list action) (s : state) : state := default s (run l s).

Lemma play_run l s : bool_decide (is_Some (run l s)) = true -> run l s = Some (play l s).
Proof. unfold play. intros [s' ->]%bool_decide_eq_true. done. Qed.

Lemma play_reachable l s : reachable s (play l s).
Proof.
  unfold play. destruct (run l s) eqn:E; [|constructor]. by eapply run_reachable; [constructor|].
Qed.
End Machine.
Arguments state {P} C.
Arguments worker {P} C.

#[export] Instance iter_pc_eq_dec : EqDecision iter_pc.
Proof. solve_decision. Defined.

(** ** The counter of pending items is exact *)

Lemma usize_add_mod x y : usize_add (x mod 2 ^ usize_bits) y = (x + y) mod 2 ^ usize_bits.
Proof. apply Zplus_mod_idemp_l. Qed.

Lemma usize_sub_mod x y : usize_sub (x mod 2 ^ usize_bits) y = (x - y) mod 2 ^ usize_bits.
Proof. apply Zminus_mod_idemp_l. Qed.

#[export] Hint Rewrite usize_add_mod usize_sub_mod : jwalk_rw.

Section Counting.
Context {P : Platform} {C : ClientState} (callback : ReadDirCallback C) (num_threads channel_capacity : nat).
Implicit Types (s : state C) (wk : worker C).

(** What a running call still has in the counter: its own item, and the item
    it has announced ([fetch_add]) and not sent yet. *)
Definition owed wk : Z :=
  match wk with
  | Calling _ (Schedule _ _) (PSend | PUndo) => 2
  | Scheduling (_ :: _) (PSend | PUndo) => 2
  | _ => 1
  end.

Definition owed_by (ws : list (worker C)) : Z := foldr (fun wk n => owed wk + n) 0 ws.

(** Items announced and not completed. *)
Definition obligations s : Z :=
  Z.of_nat (length (spec_chan s)) + Z.of_nat (length (receive_buffer s)) + owed_by (workers s).

Lemma owed_by_app ws1 ws2 : owed_by (ws1 ++ ws2) = owed_by ws1 + owed_by ws2.
Proof. unfold owed_by. induction ws1; simpl; lia. Qed.

Lemma owed_pos wk : 1 <= owed wk.
Proof. unfold owed. repeat case_match; lia. Qed.

Lemma owed_by_length ws : Z.of_nat (length ws) <= owed_by ws.
Proof. induction ws as [|wk ws IH]; simpl; [lia|]. pose proof (owed_pos wk). lia. Qed.

Lemma owed_le wk : owed wk <= 2.
Proof. unfold owed. repeat case_match; lia. Qed.

Lemma owed_by_bound ws : owed_by ws <= 2 * Z.of_nat (length ws).
Proof. induction ws as [|wk ws IH]; simpl; [lia|]. pose proof (owed_le wk). lia. Qed.

Definition counted s (n : Z) : Prop :=
  pending_count s = (Z.of_nat (length (spec_chan s)) +
    Z.of_nat (length (receive_buffer s)) + n) mod 2 ^ usize_bits.

(** A call keeps the counter exact whatever the other threads owe ([n]). *)
Lemma walk_dir_step_counted s wk s' o n :
  counted s (owed wk + n) -> walk_dir_step callback channel_capacity s wk = Some (s', o) ->
  counted s' (match o with Some wk' => owed wk' | None => 0 end + n) /\
  workers s' = workers s.
Proof.
  unfold counted, walk_dir_step, push, send_read_dir_result, complete_item.
  intros Hp E. repeat (case_match; simplify_eq/=); (split; [|done]);
    rewrite ?length_app; simpl; rewrite ?Hp; autorewrite with jwalk_rw;
    try done; f_equal; lia.
Qed.

Lemma try_next_step_counted s s' n :
  counted s (owed_by (workers s) + n) -> try_next_step num_threads s = Some s' ->
  counted s' (owed_by (workers s') + n).
Proof.
  unfold counted, try_next_step. intros Hp E.
  repeat (case_match; simplify_eq/=); rewrite Hp; try done; f_equal;
    repeat match goal with H : spec_chan _ = _ |- _ => rewrite H end; try (simpl; lia).
  match goal with H : Heap.pop _ _ = Some _ |- _ =>
    apply Heap.pop_perm, Permutation_length in H; rewrite H end.
  rewrite owed_by_app. simpl. lia.
Qed.

Lemma step_counted a s s' :
  counted s (owed_by (workers s)) -> step callback num_threads channel_capacity a s = Some s' ->
  counted s' (owed_by (workers s')).
Proof.
  intros Hp E. destruct a; simpl in E.
  - destruct (workers s !! i) as [wk|] eqn:Ei; [|done].
    destruct (walk_dir_step callback channel_capacity s wk) as [[s1 o]|] eqn:Ew; [|done].
    apply list_elem_of_split_length in Ei as (l1 & l2 & Hl & ->).
    apply walk_dir_step_counted with (n := owed_by l1 + owed_by l2) in Ew as [Hc Hw].
    2: { rewrite Hl, owed_by_app in Hp. simpl in Hp. unfold counted in *. rewrite Hp. f_equal. lia. }
    destruct o as [wk'|]; simplify_eq/=; unfold counted in *; simpl; rewrite Hc, Hw, Hl; f_equal.
    + rewrite insert_app_r_alt, Nat.sub_diag by lia. rewrite !owed_by_app. simpl. lia.
    + rewrite delete_middle. rewrite !owed_by_app. lia.
  - eapply (try_next_step_counted s s' 0) in E; rewrite Z.add_0_r in *; done.
  - repeat (case_match; simplify_eq/=); done.
  - repeat (case_match; simplify_eq/=); done.
  - by simplify_eq.
  - repeat (case_match; simplify_eq/=); done.
Qed.

Lemma reachable_counted specs s :
  reachable callback num_threads channel_capacity (init specs) s ->
  counted s (owed_by (workers s)).
Proof.
  induction 1 as [|s a s' _ IH E]; [|by eapply step_counted].
  unfold counted. simpl. rewrite length_map. f_equal. lia.
Qed.
End Counting.

(** ** Starting the pool *)

Section Roots.
Context {P : Platform} {C : ClientState} (channel_capacity : nat).
Implicit Types (s : state C) (specs : list (ReadDirSpec.t C)).

Definition root_items specs : list (Weighted.t (ReadDirSpec.t C)) :=
  map (fun spec => Weighted.new spec (IndexPath.new [0]) ROOT_WEIGHT) specs.

Lemma push_roots_from specs n ch :
  push_roots channel_capacity specs
    (mk_state false (n mod 2 ^ usize_bits) ch true [] IIdle [] [] true []) =
  if (length specs =? 0)%nat || (length ch + length specs <=? channel_capacity)%nat then
    Some (mk_state false ((n + Z.of_nat (length specs)) mod 2 ^ usize_bits)
      (ch ++ root_items specs) true [] IIdle [] [] true [])
  else None.
Proof.
  revert n ch. induction specs as [|spec specs IH]; intros n ch; cbn [push_roots push].
  { simpl. by rewrite Z.add_0_r, app_nil_r. }
  unfold set_pending, set_spec_chan. simpl. rewrite usize_add_mod.
  destruct (Nat.ltb_spec (length ch) channel_capacity) as [Hlt|Hge].
  - rewrite IH, length_app, <- app_assoc. simpl.
    replace (n + 1 + Z.of_nat (length specs)) with (n + Z.of_nat (S (length specs))) by lia.
    replace (length ch + 1 + length specs)%nat with (length ch + S (length specs))%nat by lia.
    destruct (length specs) eqn:El; [|done]. simpl.
    by rewrite (proj2 (Nat.leb_le _ _)) by lia.
  - by rewrite (proj2 (Nat.leb_gt _ _)) by lia.
Qed.

(** With room for them, the roots are pushed. *)
Lemma roots_pushed specs :
  (length specs <= channel_capacity)%nat ->
  push_roots channel_capacity specs new_queues = Some (init specs).
Proof.
  intros Hl. etransitivity; [exact (push_roots_from specs 0 [])|]. simpl.
  rewrite (proj2 (Nat.leb_le _ _) Hl), orb_true_r. done.
Qed.

Lemma roots_blocked specs :
  (channel_capacity < length specs)%nat ->
  push_roots channel_capacity specs new_queues = None.
Proof.
  intros Hl. etransitivity; [exact (push_roots_from specs 0 [])|]. simpl.
  rewrite (proj2 (Nat.leb_gt _ _) Hl). destruct specs; simpl in *; [lia|done].
Qed.

(** Nothing is sent through channels without room. *)
Lemma sent_room (callback : ReadDirCallback C) num_threads s0 s :
  sent s0 = [] -> reachable callback num_threads channel_capacity s0 s -> sent s <> [] ->
  (0 < channel_capacity)%nat.
Proof.
  intros H0. induction 1 as [|s a s' _ IH E]; [done|]. intros Hs'.
  destruct (decide (sent s = [])) as [Hs|Hs]; [|auto]. clear IH.
  destruct a; simpl in E; unfold walk_dir_step, push, send_read_dir_result, complete_item,
    try_next_step in E; simplify_eq/=; repeat (case_match; simplify_eq/=); try congruence;
    match goal with H : (_ <? _)%nat = true |- _ => apply Nat.ltb_lt in H; lia end.
Qed.
End Roots.

(** ** What a step leaves alone *)

Section Frames.
Context {P : Platform} {C : ClientState} (callback : ReadDirCallback C) (num_threads channel_capacity : nat).
Implicit Types (s : state C) (wk : worker C).
Abbreviation step := (step callback num_threads channel_capacity).
Abbreviation reachable := (reachable callback num_threads channel_capacity).

Definition no_undo wk : Prop :=
  match wk with
  | Calling _ _ PUndo | Scheduling _ PUndo => False
  | _ => True
  end.

Lemma walk_dir_step_frame s wk s' o :
  walk_dir_step callback channel_capacity s wk = Some (s', o) ->
  stop s' = stop s /\ spec_open s' = spec_open s /\ result_open s' = result_open s /\
  iter s' = iter s /\ workers s' = workers s /\
  (spec_open s = true -> no_undo wk -> Forall no_undo (option_list o)).
Proof.
  unfold walk_dir_step, push, send_read_dir_result, complete_item. intros E.
  repeat (case_match; simplify_eq/=); split_and!; try done; intros; repeat constructor; congruence.
Qed.

(** The workers after a step of call [i]. *)
Lemma work_inv i s s' :
  step (Work i) s = Some s' ->
  exists l1 wk l2 s1 o, workers s = l1 ++ wk :: l2 /\
    walk_dir_step callback channel_capacity s wk = Some (s1, o) /\
    s' = set_workers s1 (l1 ++ option_list o ++ l2).
Proof.
  simpl. destruct (workers s !! i) as [wk|] eqn:Ei; [|done].
  destruct (walk_dir_step callback channel_capacity s wk) as [[s1 o]|] eqn:Ew; [|done].
  apply list_elem_of_split_length in Ei as (l1 & l2 & Hl & ->). intros E.
  exists l1, wk, l2, s1, o. split_and!; [done..|].
  pose proof (walk_dir_step_frame _ _ _ _ Ew) as (_ & _ & _ & _ & Hw & _).
  destruct o as [wk'|]; simplify_eq/=; rewrite Hw, Hl.
  - by rewrite insert_app_r_alt, Nat.sub_diag by lia.
  - by rewrite delete_middle.
Qed.

(** The stop flag is never cleared. *)
Lemma step_stop a s s' : step a s = Some s' -> stop s' = false -> stop s = false.
Proof.
  destruct a; intros E.
  - apply work_inv in E as (l1 & wk & l2 & s1 & o & _ & Ew & ->).
    apply walk_dir_step_frame in Ew as (E1 & _). simpl. congruence.
  - simpl in E. unfold try_next_step in E. by repeat (case_match; simplify_eq/=).
  - simpl in E. by repeat (case_match; simplify_eq/=).
  - simpl in E. by repeat (case_match; simplify_eq/=).
  - simpl in E. by simplify_eq.
  - simpl in E. by repeat (case_match; simplify_eq/=).
Qed.

Lemma reachable_left s a s1 s' : step a s = Some s1 -> reachable s1 s' -> reachable s s'.
Proof. intros E. induction 1; [|by econstructor]. by econstructor; [constructor|]. Qed.

Lemma reachable_trans s1 s2 s3 : reachable s1 s2 -> reachable s2 s3 -> reachable s1 s3.
Proof. intros H. induction 1; [done|by econstructor]. Qed.

End Frames.

(** ** What the counter promises *)

Section Promises.
Context {P : Platform} {C : ClientState} (callback : ReadDirCallback C) (num_threads channel_capacity : nat).

(** C7: in every interleaving, stopped or not, the counter [pending_count] is the
    number of items queued, buffered or in processing plus those announced and
    not yet sent (modulo [2^64]): it is never decremented too often. *)
Theorem pending_count_exact specs (s : state C) :
  reachable callback num_threads channel_capacity (init specs) s ->
  pending_count s = obligations s mod 2 ^ usize_bits.
Proof. intros Hr. exact (reachable_counted _ _ _ _ _ Hr). Qed.
End Promises.

(** C33: the roots are pushed, and the pool can be spawned, exactly when the channel has
    room for all of them: with [channel_capacity(0)], or more directories at the root than
    the capacity, building the iterator never returns. *)
Theorem roots_need_room {P : Platform} {C : ClientState} channel_capacity
    (specs : list (ReadDirSpec.t C)) :
  push_roots channel_capacity specs new_queues =
    if (length specs <=? channel_capacity)%nat then Some (init specs) else None.
Proof.
  etransitivity; [exact (push_roots_from channel_capacity specs 0 [])|]. by destruct specs.
Qed.

(** ** Witnesses: the sample directory walked with and without streaming *)

(** Reading the sample, every sub-directory counted as streamed. *)
Definition sample_streamed_read (s : ReadDirSpec.t unit_client) : Result (ReadDir.t unit_client) :=
  res_map (fun rd => ReadDir.mk (ReadDir.read_dir_state rd) (ReadDir.results_list rd)
    (Z.of_nat (length (ReadDir.read_children_specs rd)))) (sample_callback s).

Definition sample_streaming_callback : ReadDirCallback unit_client := fun s ctx =>
  match ctx, sample_streamed_read s with
  | Some ctx, Ok rd =>
      foldr (fun w c => Schedule w (fun _ => c)) (Returns (Ok rd))
        (numbered (sc_index_path ctx) (sc_parent_weight ctx) 0 (ReadDir.read_children_specs rd))
  | _, r => Returns r
  end.

Lemma undisturbed_schedules {R} (l : list (Weighted.t (ReadDirSpec.t unit_client))) (r : R) :
  undisturbed (foldr (fun w c => Schedule w (fun _ => c)) (Returns r) l) = (l, r).
Proof. induction l as [|w l IH]; simpl; [done|]. by rewrite IH. Qed.

(** A schedule: the first call if it can step, else the iterator. *)
Fixpoint sample_schedule {P : Platform} {C : ClientState} (callback : ReadDirCallback C) (threads capacity n : nat)
    (s : state C) : list action :=
  match n with
  | O => []
  | S n' =>
      match step callback threads capacity (Work 0) s with
      | Some s' => Work 0 :: sample_schedule callback threads capacity n' s'
      | None =>
          match step callback threads capacity TryNext s with
          | Some s' => TryNext :: sample_schedule callback threads capacity n' s'
          | None => []
          end
      end
  end.

Definition sample_init : state unit_client := init [sample_spec 0 (bytes "/r")].

Definition sample_final : state unit_client :=
  play sample_streaming_callback 2 8
    (sample_schedule sample_streaming_callback 2 8 100 sample_init) sample_init.

Lemma sample_final_reachable :
  reachable sample_streaming_callback 2 8 sample_init sample_final.
Proof. apply play_reachable. Qed.

Lemma sample_final_ended : stop sample_final = false /\ iter sample_final = IEnded.
Proof. split; vm_refl. Qed.

Lemma pending_count_exact_witness :
  pending_count sample_final = obligations sample_final mod 2 ^ usize_bits /\
  pending_count sample_final = 0.
Proof.
  split; [|vm_refl].
  exact (pending_count_exact sample_streaming_callback 2 8 [sample_spec 0 (bytes "/r")]
    sample_final sample_final_reachable).
Defined.
