(* ===== verification/ParComplete.v ===== *)
(** * The parallel walk is complete: nothing is lost, nothing is read twice

    For a callback that keeps the contract of [StreamingContext], the machine of
    [ParWalk] reads, sends and schedules every directory of the tree exactly once, and
    can always be brought to its end. *)
From S2P Require Import Prelude Order Tree World Std Error Metadata Platform DirEntry.
From S2P Require Import OrderedQueue ReadDirIter DirEntryIter Callback ParWalk.

(** ** Every directory is read, sent and scheduled once *)

Section Complete.
Context {P : Platform} {C : ClientState} (callback : ReadDirCallback C) (num_threads channel_capacity : nat).
Context (valid : ReadDirSpec.t C -> Prop) (read : ReadDirSpec.t C -> Result (ReadDir.t C)).
Abbreviation Spec := (ReadDirSpec.t C).
Abbreviation Read := (Result (ReadDir.t C)).
Implicit Types (s : state C) (wk : worker C) (ws : list (Weighted.t Spec)).

Definition placed (w : Weighted.t Spec) : Spec * IndexPath.t :=
  (Weighted.value w, Weighted.index_path w).

(** What the queues rely on, for the directories of the walk ([valid]):
    undisturbed, the callback returns [read spec]; it has streamed nothing, or
    every child of what it returns, at consecutive positions and in order; and
    it counts what it has streamed. *)
Definition streaming_contract : Prop := forall spec ip weight, valid spec ->
  let '(ws, r) := undisturbed (callback spec (Some (mk_streaming_context ip weight))) in
  r = read spec /\
  match r with
  | Err _ => ws = []
  | Ok rd =>
      Forall valid (ReadDir.read_children_specs rd) /\
      Z.of_nat (length (ReadDir.results_list rd)) <= usize_max /\
      ReadDir.streamed_child_count rd = Z.of_nat (length ws) /\
      (ws = [] \/
       map placed ws = map placed (numbered ip 0 0 (ReadDir.read_children_specs rd)))
  end.

(** [covers ws l]: [l] lists the results of the directories [ws] and of all the
    directories below them. *)
Inductive covers : list (Weighted.t Spec) -> list (Ordered.t Read) -> Prop :=
| covers_nil : covers [] []
| covers_cons w ws t l :
    valid (Weighted.value w) -> reads read (Weighted.value w) t -> covers ws l ->
    covers (w :: ws) (labels (IndexPath.indices (Weighted.index_path w)) t ++ l).

Lemma covers_app ws1 ws2 l1 l2 : covers ws1 l1 -> covers ws2 l2 -> covers (ws1 ++ ws2) (l1 ++ l2).
Proof.
  induction 1 as [|w ws t l Hv Ht _ IH]; intros H2; simpl; [done|].
  rewrite <- app_assoc. constructor; auto.
Qed.

Lemma covers_perm ws ws' l : ws ≡ₚ ws' -> covers ws l -> exists l', covers ws' l' /\ l ≡ₚ l'.
Proof.
  intros Hp. revert l. induction Hp as [|w ws ws' _ IH|w1 w2 ws|ws1 ws2 ws3 _ IH1 _ IH2];
    intros l H.
  - inversion H; subst. by exists [].
  - inversion H as [|? ? t l1 Hv Ht H1]; subst. destruct (IH _ H1) as (l' & H' & Hl).
    eexists. split; [by constructor|]. by rewrite Hl.
  - inversion H as [|? ? t1 ? Hv1 Ht1 H1]; subst. inversion H1 as [|? ? t2 l2 Hv2 Ht2 H2]; subst.
    eexists. split; [do 2 (eapply covers_cons; [eassumption..|]); eassumption|]. rewrite !app_assoc. f_equiv.
    apply Permutation_app_comm.
  - destruct (IH1 _ H) as (l' & H' & Hl). destruct (IH2 _ H') as (l'' & H'' & Hl').
    exists l''. split; [done|]. by rewrite Hl.
Qed.

Lemma covers_length ws l : covers ws l -> (length ws <= length l)%nat.
Proof.
  induction 1 as [|w ws [v ts] l _ _ _ IH]; [done|]. rewrite labels_node. simpl.
  rewrite length_app. lia.
Qed.

Lemma covers_nil_inv l : covers [] l -> l = [].
Proof. by inversion 1. Qed.

Lemma covers_placed ws ws' l : map placed ws = map placed ws' -> covers ws l -> covers ws' l.
Proof.
  intros E H. revert ws' E. induction H as [|w ws t l Hv Ht _ IH]; intros [|w' ws'] E; simplify_eq/=;
    [constructor|].
  destruct w as [v ip wt], w' as [v' ip' wt']. unfold placed in *. simplify_eq/=.
  change ip' with (Weighted.index_path (Weighted.mk v' ip' wt')). constructor; auto.
Qed.

Lemma covers_numbered ip wt c specs ts :
  Forall valid specs -> Forall2 (reads read) specs ts ->
  covers (numbered ip wt c specs) (forest (IndexPath.indices ip) c ts).
Proof.
  intros Hv H. revert c Hv. induction H as [|spec t specs ts Ht _ IH]; intros c Hv; [constructor|].
  apply Forall_cons in Hv as [Hv Hvs]. rewrite numbered_cons. simpl.
  change (IndexPath.indices ip ++ [c]) with
    (IndexPath.indices (Weighted.index_path (Weighted.mk spec (IndexPath.adding ip c) wt))).
  constructor; auto.
Qed.

Lemma length_children (rd : ReadDir.t C) :
  (length (ReadDir.read_children_specs rd) <= length (ReadDir.results_list rd))%nat.
Proof.
  unfold ReadDir.read_children_specs. generalize (ReadDir.read_dir_state rd) as st.
  intros st. induction (ReadDir.results_list rd) as [|e es IH]; [done|]. cbn [omap list_omap].
  destruct (ReadDir.child_spec st e); simpl; lia.
Qed.

(** Reading a directory: its result, with the number of its children, and its
    children, streamed or not, replace its item. *)
Lemma read_expands spec ip weight v ts ws r :
  streaming_contract -> valid spec -> reads read spec (Node v ts) ->
  undisturbed (callback spec (Some (mk_streaming_context ip weight))) = (ws, r) ->
  covers (ws ++ default [] (regular_specs r ip weight)) (forest (IndexPath.indices ip) 0 ts) /\
  ordered_result r ip weight = Ordered.mk v ip (Z.of_nat (length ts)).
Proof.
  intros HC Hval Hr Hu. specialize (HC spec ip weight Hval). rewrite Hu in HC. destruct HC as [-> HC].
  apply reads_inv in Hr as [-> Hts]. pose proof (Forall2_length _ _ _ Hts) as Hlen.
  unfold ordered_result, regular_specs. destruct (read spec) as [rd|e]; simpl in *.
  - destruct HC as (Hvs & Hb & Hk & Hws). rewrite Hk. pose proof (length_children rd) as Hch.
    assert (ws = [] \/ (ws <> [] /\
      map placed ws = map placed (numbered ip 0 0 (ReadDir.read_children_specs rd))))
      as [-> | [Hne Hws']] by (destruct Hws; auto; destruct ws; auto).
    + simpl in Hk |- *.
      rewrite weighted_children_numbered by lia. rewrite Hk. simpl. rewrite drop_0. split.
      * by apply covers_numbered.
      * rewrite length_numbered, Hlen. unfold Ordered.new. f_equal.
        rewrite usize_add_small; lia.
    + assert (length ws = length ts) as Hl.
      { rewrite <- Hlen, <- (length_numbered ip 0 0 (ReadDir.read_children_specs rd)).
        rewrite <- (length_map placed), Hws', length_map. done. }
      destruct (Z.eqb_spec (Z.of_nat (length ws)) 0) as [E|E]; [by destruct ws|].
      simpl. rewrite app_nil_r. split.
      * eapply covers_placed; [symmetry; exact Hws'|]. by apply covers_numbered.
      * unfold Ordered.new. f_equal. rewrite usize_add_small; lia.
  - subst ws. inversion Hts; subst. split; [constructor|]. done.
Qed.

(** The directories a call has still to schedule, and the result it has still to send. *)
Definition remaining wk : list (Weighted.t Spec) :=
  match wk with
  | Starting w => [w]
  | Calling w c _ =>
      let '(ws, r) := undisturbed c in
      ws ++ default [] (regular_specs r (Weighted.index_path w) (Weighted.weight w))
  | Sending _ specs => specs
  | Scheduling specs _ => specs
  | Completing => []
  end.

Definition unsent wk : list (Ordered.t Read) :=
  match wk with
  | Calling w c _ =>
      [ordered_result (snd (undisturbed c)) (Weighted.index_path w) (Weighted.weight w)]
  | Sending o _ => [o]
  | _ => []
  end.

Definition busy (pc : iter_pc) : nat := match pc with IIdle | IEnded => 0 | _ => 1 end.

(** The channels are open while they are used; at most [num_threads] threads run. *)
Record sane s : Prop := {
  sane_results : stop s = false -> result_open s = true;
  sane_specs : workers s <> [] \/ iter s <> IEnded -> spec_open s = true;
  sane_undo : Forall no_undo (workers s);
  sane_threads : (length (workers s) + busy (iter s) <= num_threads)%nat;
}.

Definition items s : list (Weighted.t Spec) :=
  spec_chan s ++ receive_buffer s ++ flat_map remaining (workers s).

Definition results s : list (Ordered.t Read) := sent s ++ flat_map unsent (workers s).

(** Everything the walk has to send is sent, or still to come from the items held. *)
Definition accounts (all : list (Ordered.t Read)) s : Prop :=
  exists l, covers (items s) l /\ results s ++ l ≡ₚ all.

Lemma accounts_perm all s s' :
  items s ≡ₚ items s' -> results s ≡ₚ results s' -> accounts all s -> accounts all s'.
Proof.
  intros Hi Hr (l & Hc & Hl). destruct (covers_perm _ _ _ Hi Hc) as (l' & Hc' & Hl').
  exists l'. split; [done|]. by rewrite <- Hr, <- Hl'.
Qed.

Definition opt_list {A B} (f : A -> list B) (o : option A) : list B :=
  match o with Some x => f x | None => [] end.

(** A call only moves items and results, except when it starts reading. *)
Lemma walk_dir_step_moves s wk s' o :
  stop s = false -> result_open s = true -> spec_open s = true -> no_undo wk ->
  (forall w, wk <> Starting w) ->
  walk_dir_step callback channel_capacity s wk = Some (s', o) ->
  spec_chan s' ++ opt_list remaining o ≡ₚ spec_chan s ++ remaining wk /\
  receive_buffer s' = receive_buffer s /\
  sent s' ++ opt_list unsent o ≡ₚ sent s ++ unsent wk.
Proof.
  unfold walk_dir_step, push, send_read_dir_result, complete_item.
  intros Hs Hro Hso Hu Hw E. destruct wk as [w|w [r|each k|k] pc|o' specs|[|each specs] pc|];
    [by destruct (Hw w)|..]; simpl in *; rewrite ?Hs, ?Hro, ?Hso in E;
    repeat (case_match; simplify_eq/=); simplify_eq/=; rewrite ?app_nil_r; try done.
  all: rewrite <- app_assoc; simpl; done.
Qed.

(** The call that begins to read [w]. *)
Definition start (w : Weighted.t Spec) : worker C :=
  Calling w (callback (Weighted.value w)
    (Some (mk_streaming_context (Weighted.index_path w) (Weighted.weight w)))) PAdd.

(** Bounds on the steps left to an undisturbed call. *)
Fixpoint undisturbed_steps (c : callback_run C) : nat :=
  match c with
  | Returns _ => 2
  | Schedule _ k => 2 + undisturbed_steps (k true)
  | IsStopped k => 2 + undisturbed_steps (k false)
  end.

Definition announced (pc : push_pc) : nat := match pc with PAdd => 0 | _ => 1 end.

Definition steps_to_go wk : nat :=
  match wk with
  | Starting _ => 0
  | Calling w c pc =>
      undisturbed_steps c - announced pc + 4 + 2 * length (default []
        (regular_specs (snd (undisturbed c)) (Weighted.index_path w) (Weighted.weight w)))
  | Sending _ specs => 4 + 2 * length specs
  | Scheduling specs pc => 3 + 2 * length specs - announced pc
  | Completing => 1
  end.

Lemma undisturbed_steps_pos c : (2 <= undisturbed_steps c)%nat.
Proof. induction c as [r|each k IH|k IH]; simpl; lia. Qed.

Lemma walk_dir_step_to_go s wk s' o :
  stop s = false -> result_open s = true -> spec_open s = true -> no_undo wk ->
  (forall w, wk <> Starting w) ->
  walk_dir_step callback channel_capacity s wk = Some (s', o) ->
  (sum_list_with steps_to_go (option_list o) < steps_to_go wk)%nat.
Proof.
  unfold walk_dir_step, push, send_read_dir_result, complete_item.
  intros Hs Hro Hso Hu Hw E. destruct wk as [w|w [r|each k|k] pc|o' specs|[|each specs] pc|];
    [by destruct (Hw w)|..]; simpl in *; rewrite ?Hs, ?Hro, ?Hso in E;
    repeat (case_match; simplify_eq/=); simplify_eq/=; lia.
Qed.

(** Starting to read [w] replaces it by its result and its children. *)
Lemma accounts_start all s l1 l2 w :
  streaming_contract -> workers s = l1 ++ Starting w :: l2 -> accounts all s ->
  accounts all (set_workers s (l1 ++ start w :: l2)).
Proof.
  intros HC Hw Ha.
  assert (exists l, covers (w :: spec_chan s ++ receive_buffer s ++
      flat_map remaining (l1 ++ l2)) l /\
    (sent s ++ flat_map unsent (l1 ++ l2)) ++ l ≡ₚ all) as (l & Hc & Hl).
  { destruct Ha as (l & Hc & Hl). unfold items, results in *.
    rewrite Hw, !flat_map_app in *. simpl in *.
    eapply covers_perm in Hc as (l' & Hc & Hl'); [exists l'; split; [exact Hc|by rewrite <- Hl']|].
    by rewrite !app_assoc, <- Permutation_middle. }
  inversion Hc as [|? ? [v ts] l' Hval Ht Hc']; subst.
  unfold start. set (c := callback _ _). destruct (undisturbed c) as [ws r] eqn:Eu.
  destruct (read_expands _ (Weighted.index_path w) (Weighted.weight w) _ _ _ _ HC Hval Ht Eu)
    as [He Ho].
  pose proof (covers_app _ _ _ _ He Hc') as Hc2.
  eapply covers_perm in Hc2 as (l2' & Hc2 & Hl2); [exists l2'; split; [exact Hc2|]|].
  - unfold results. simpl. rewrite flat_map_app. simpl. rewrite Eu. simpl. rewrite Ho.
    rewrite labels_node in Hl. simpl in Hl. rewrite <- Hl2, <- Hl, flat_map_app.
    destruct w as [sp [p] wt]. simpl. solve_Permutation.
  - unfold items. simpl. rewrite !flat_map_app. simpl. rewrite Eu. solve_Permutation.
Qed.

Abbreviation walk_dir_step_frame := (ParWalk.walk_dir_step_frame callback channel_capacity).
Abbreviation work_inv := (ParWalk.work_inv callback num_threads channel_capacity).
Abbreviation step_stop := (ParWalk.step_stop callback num_threads channel_capacity).
Abbreviation step := (step callback num_threads channel_capacity).
Abbreviation reachable := (reachable callback num_threads channel_capacity).

Lemma step_sane a s s' : sane s -> step a s = Some s' -> sane s'.
Proof.
  intros [Hr Hs Hu Ht] E. destruct a.
  - apply work_inv in E as (l1 & wk & l2 & s1 & o & Hw & Ew & ->).
    apply walk_dir_step_frame in Ew as (E1 & E2 & E3 & E4 & _ & Hu').
    rewrite Hw in *. assert (spec_open s = true) as Hso by (apply Hs; left; by destruct l1).
    apply Forall_app in Hu as [Hu1 Hu2]. apply Forall_cons in Hu2 as [Hu2 Hu3].
    split; simpl; rewrite ?E1, ?E2, ?E3, ?E4; try done.
    + repeat (apply Forall_app; split); auto.
    + rewrite length_app in *. simpl in *. rewrite length_app. destruct o; simpl; lia.
  - simpl in E. unfold try_next_step in E.
    assert (iter s <> IEnded -> spec_open s = true) as Hso by auto.
    repeat (case_match; simplify_eq/=); split; simpl in *; try done;
      try (intros; apply Hso; congruence); try lia;
      rewrite ?length_app; simpl; try lia; try (by apply Forall_app; auto).
    all: first [intros; congruence | by intros; apply Hr | apply Forall_app; split; [done|by repeat constructor]
      | apply Nat.ltb_lt in H0; lia].
  - simpl in E. repeat (case_match; simplify_eq/=). split; simpl; try done.
    intros [?|?]; congruence.
  - simpl in E. repeat (case_match; simplify_eq/=). by split.
  - simpl in E. simplify_eq. by split.
  - simpl in E. repeat (case_match; simplify_eq/=). split; simpl; try done.
Qed.

Definition of_worker (a : action) : bool := match a with Work _ => true | _ => false end.

(** A step either starts to read a directory, or leaves the items and the results as they
    are; and each step of a call brings it closer to its end. *)
Lemma step_moves a s s' :
  sane s -> stop s = false -> step a s = Some s' -> stop s' = false ->
  (exists l1 w l2, workers s = l1 ++ Starting w :: l2 /\ s' = set_workers s (l1 ++ start w :: l2)) \/
  (items s' ≡ₚ items s /\ results s' ≡ₚ results s /\
   (sum_list_with steps_to_go (workers s') + Nat.b2n (of_worker a) <=
      sum_list_with steps_to_go (workers s))%nat).
Proof.
  intros [Hr Hs Hu _] Hst E Hst'. destruct a.
  - apply work_inv in E as (l1 & wk & l2 & s1 & o & Hw & Ew & ->).
    assert (spec_open s = true) as Hso by (apply Hs; left; rewrite Hw; by destruct l1).
    assert ((exists w, wk = Starting w) \/ forall w, wk <> Starting w) as [[w ->]|Hns]
      by (destruct wk; eauto; right; congruence).
    { left. simpl in Ew. rewrite Hst in Ew. simplify_eq/=. eauto. }
    right. rewrite Hw in Hu. apply Forall_app in Hu as [_ Hu]. apply Forall_cons in Hu as [Hu _].
    destruct (walk_dir_step_moves s wk s1 o) as (Hi & Hh & Hres); auto.
    pose proof (walk_dir_step_to_go s wk s1 o Hst (Hr Hst) Hso Hu Hns Ew) as Hl.
    unfold items, results; simpl; rewrite Hw, !flat_map_app, !sum_list_with_app; simpl.
    split_and!; [| |lia].
    + rewrite Hh. transitivity ((spec_chan s ++ remaining wk) ++ receive_buffer s ++
        flat_map remaining l1 ++ flat_map remaining l2); [|solve_Permutation].
      rewrite <- Hi. destruct o; simpl; rewrite ?app_nil_r; solve_Permutation.
    + transitivity ((sent s ++ unsent wk) ++ flat_map unsent l1 ++ flat_map unsent l2);
        [|solve_Permutation].
      rewrite <- Hres. destruct o; simpl; rewrite ?app_nil_r; solve_Permutation.
  - right. simpl in E. unfold try_next_step in E. unfold items, results.
    repeat (case_match; simplify_eq/=);
      repeat match goal with
      | H : spec_chan _ = _ |- _ => rewrite H
      | H : Heap.pop _ _ = Some _ |- _ => apply Heap.pop_perm in H; rewrite H
      end; rewrite ?flat_map_app, ?sum_list_with_app; simpl; rewrite ?app_nil_r; unfold Heap.push;
      split_and!; try done; try lia; solve_Permutation.
  - right. simpl in E. repeat (case_match; simplify_eq/=). unfold items, results. simpl.
    rewrite ?H0. split_and!; [done..|simpl; lia].
  - right. simpl in E. repeat (case_match; simplify_eq/=). split_and!; [done..|simpl; lia].
  - right. simpl in E. by simplify_eq.
  - simpl in E. by rewrite Hst in E.
Qed.

Lemma step_accounts all a s s' :
  streaming_contract -> sane s -> stop s = false -> step a s = Some s' -> stop s' = false ->
  accounts all s -> accounts all s'.
Proof.
  intros HC Hsane Hst E Hst' Ha.
  destruct (step_moves a s s' Hsane Hst E Hst') as [(l1 & w & l2 & Hw & ->)|(Hi & Hres & _)].
  - by apply accounts_start.
  - by eapply accounts_perm; [..|exact Ha].
Qed.

Lemma reachable_sane specs s : reachable (init specs) s -> sane s.
Proof.
  induction 1 as [|s a s' _ IH E]; [|by eapply step_sane].
  split; simpl; try done. lia.
Qed.

(** ** A walk from one root *)

Context (spec : Spec) (t : tree Read).
Context (HC : streaming_contract) (Hvalid : valid spec) (Ht : reads read spec t)
  (Hsize : Z.of_nat (length (labels [0] t)) + 2 * Z.of_nat num_threads <= usize_max).

Lemma reachable_accounts s :
  reachable (init [spec]) s -> stop s = false -> accounts (labels [0] t) s.
Proof.
  induction 1 as [|s a s' Hs IH E]; intros Hst.
  - exists (labels [0] t ++ []). split; [|simpl; by rewrite app_nil_r].
    apply (covers_cons (Weighted.new spec (IndexPath.new [0]) ROOT_WEIGHT)); [done|done|constructor].
  - pose proof (step_stop _ _ _ E Hst). eapply step_accounts; eauto using reachable_sane.
Qed.

Lemma obligations_bound s :
  reachable (init [spec]) s -> stop s = false -> 0 <= obligations s <= usize_max.
Proof.
  intros Hr Hst. destruct (reachable_accounts s Hr Hst) as (l & Hc & Hl).
  apply covers_length in Hc. apply Permutation_length in Hl.
  unfold items, results in *. rewrite !length_app in *.
  pose proof (sane_threads s (reachable_sane _ s Hr)).
  pose proof (owed_by_bound (workers s)). pose proof (owed_by_length (workers s)).
  unfold obligations. lia.
Qed.

Lemma pending_exact s :
  reachable (init [spec]) s -> stop s = false -> pending_count s = obligations s.
Proof.
  intros Hr Hst. pose proof (reachable_counted _ _ _ _ _ Hr) as Hp.
  pose proof (obligations_bound s Hr Hst) as Hb. unfold counted in Hp. rewrite Hp.
  apply Z.mod_small. fold (obligations s). unfold usize_max in Hb. lia.
Qed.

(** Nothing is left when the iterator has ended by itself. *)
Lemma ended_empty s :
  reachable (init [spec]) s -> stop s = false -> iter s = IEnded ->
  spec_chan s = [] /\ receive_buffer s = [] /\ workers s = [].
Proof.
  induction 1 as [|s a s' Hs IH E]; intros Hst Hi; [done|].
  pose proof (step_stop _ _ _ E Hst) as Hst0. destruct a.
  - pose proof (work_inv _ _ _ E) as (l1 & wk & l2 & s1 & o & Hw & Ew & ->).
    apply walk_dir_step_frame in Ew as (_ & _ & _ & E4 & _). simpl in Hi.
    destruct IH as (_ & _ & IH); [done|congruence|]. rewrite IH in Hw. by destruct l1.
  - pose proof (pending_exact s Hs Hst0) as Hp. simpl in E. unfold try_next_step in E.
    destruct (iter s) eqn:Ei; repeat (case_match; simplify_eq/=); try congruence.
    match goal with H : (pending_count s =? 0) = true |- _ => apply Z.eqb_eq in H; rewrite H in Hp end.
    unfold obligations in Hp. pose proof (owed_by_length (workers s)).
    split_and!; apply length_zero_iff_nil; lia.
  - simpl in E. repeat (case_match; simplify_eq/=). by destruct IH.
  - simpl in E. repeat (case_match; simplify_eq/=). by destruct IH.
  - simpl in E. by simplify_eq/=.
  - simpl in E. by rewrite Hst0 in E.
Qed.

Lemma ended_sent s :
  reachable (init [spec]) s -> stop s = false -> iter s = IEnded -> sent s ≡ₚ labels [0] t.
Proof.
  intros Hr Hst Hi. destruct (ended_empty s Hr Hst Hi) as (E1 & E2 & E3).
  destruct (reachable_accounts s Hr Hst) as (l & Hc & Hl). unfold items, results in *.
  rewrite E1, E2, E3 in *. apply covers_nil_inv in Hc. subst l. by rewrite !app_nil_r in Hl.
Qed.
End Complete.

(** ** With room in the channel, the walk can always be completed *)

Section Liveness.
Context {P : Platform} {C : ClientState} (callback : ReadDirCallback C) (num_threads channel_capacity : nat).
Context (valid : ReadDirSpec.t C -> Prop) (read : ReadDirSpec.t C -> Result (ReadDir.t C)).
Context (spec : ReadDirSpec.t C) (t : tree (Result (ReadDir.t C))).
Context (HC : streaming_contract callback valid read) (Hvalid : valid spec)
  (Ht : reads read spec t)
  (Hsize : Z.of_nat (length (labels [0] t)) + 2 * Z.of_nat num_threads <= usize_max)
  (Hthreads : (0 < num_threads)%nat)
  (Hcap : (length (labels [0%Z] t) <= channel_capacity)%nat).
Abbreviation reachable_left := (ParWalk.reachable_left callback num_threads channel_capacity).
Abbreviation reachable_trans := (ParWalk.reachable_trans callback num_threads channel_capacity).
Abbreviation reachable := (reachable callback num_threads channel_capacity).
Abbreviation step := (step callback num_threads channel_capacity).
Implicit Types (s : state C) (wk : worker C) (ws : list (worker C)).

Definition live s : Prop := reachable (init [spec]) s /\ stop s = false.

Lemma live_step a s s' : live s -> step a s = Some s' -> stop s' = false -> live s'.
Proof. intros [Hr _] E Hst. split; [by econstructor|done]. Qed.

(** From [s] the walk can get to a live state with workers [ws], the iterator
    where it was and [n] results sent. *)
Definition gets_to s ws (n : nat) : Prop :=
  exists s', reachable s s' /\ live s' /\ workers s' = ws /\ iter s' = iter s /\
    length (sent s') = n.

(** One step of the first call. *)
Lemma first_call s wk ws s1 o n :
  live s -> workers s = wk :: ws ->
  walk_dir_step callback channel_capacity s wk = Some (s1, o) ->
  (live (set_workers s1 (option_list o ++ ws)) ->
    gets_to (set_workers s1 (option_list o ++ ws)) ws n) ->
  gets_to s ws n.
Proof.
  intros Hl Hw E Hk.
  assert (step (Work 0) s = Some (set_workers s1 (option_list o ++ ws))) as Es.
  { pose proof (walk_dir_step_frame _ _ _ _ _ _ E) as (_ & _ & _ & _ & Hw1 & _).
    simpl. rewrite Hw. simpl. rewrite E. destruct o; simpl; by rewrite Hw1, Hw. }
  pose proof (walk_dir_step_frame _ _ _ _ _ _ E) as (Hst & _ & _ & Hi & _).
  destruct Hk as (s' & Hr & Hl' & Hw' & Hi' & Hn).
  { eapply live_step; [done..|]. simpl. rewrite Hst. apply Hl. }
  exists s'. split_and!; try done; [by eapply reachable_left|]. simpl in Hi'. congruence.
Qed.

Lemma live_open s wk ws :
  live s -> workers s = wk :: ws ->
  spec_open s = true /\ result_open s = true /\ no_undo wk.
Proof.
  intros [Hr Hst] Hw. pose proof Hr as Hs. apply reachable_sane in Hs as [H1 H2 H3 _].
  rewrite Hw in *. apply Forall_cons in H3 as [H3 _].
  split_and!; [by apply H2; left|by apply H1|done].
Qed.

(** There is room for what a call is about to send. *)
Lemma live_room s wk ws :
  live s -> workers s = wk :: ws -> remaining wk <> [] ->
  (length (spec_chan s) <? channel_capacity)%nat = true.
Proof.
  intros [Hr Hst] Hw Hne.
  assert (accounts valid read (labels [0] t) s) as (l & Hc & Hl) by (by eapply reachable_accounts).
  apply covers_length in Hc. apply Permutation_length in Hl.
  unfold items in Hc. rewrite Hw in Hc. simpl in Hc. rewrite !length_app in *.
  destruct (remaining wk); [done|]. simpl in *. apply Nat.ltb_lt. lia.
Qed.

Lemma finish_completing s ws :
  live s -> workers s = Completing :: ws -> gets_to s ws (length (sent s)).
Proof.
  intros Hl Hw. eapply first_call; [done..|]. intros Hl'.
  eexists. split_and!; [constructor|exact Hl'|done..].
Qed.

Lemma finish_scheduling s ws specs pc :
  live s -> workers s = Scheduling specs pc :: ws -> gets_to s ws (length (sent s)).
Proof.
  revert s pc. induction specs as [|each specs IH]; intros s pc Hl Hw.
  - eapply first_call; [done..|]. intros Hl'. pose proof (finish_completing _ _ Hl' eq_refl) as G. exact G.
  - assert (forall s, live s -> workers s = Scheduling (each :: specs) PSend :: ws ->
      gets_to s ws (length (sent s))) as Hsend.
    { clear s pc Hl Hw. intros s Hl Hw. destruct (live_open _ _ _ Hl Hw) as (Ho & _).
      pose proof (live_room _ _ _ Hl Hw ltac:(done)) as Hroom.
      eapply first_call; [done..| |].
      - simpl. by rewrite Ho, Hroom.
      - intros Hl'. pose proof (IH _ PAdd Hl' eq_refl) as G. exact G. }
    destruct (live_open _ _ _ Hl Hw) as (_ & _ & Hu). destruct pc; [|auto|done].
    eapply first_call; [done..|]. intros Hl'. pose proof (Hsend _ Hl' eq_refl) as G. exact G.
Qed.

Lemma finish_sending s ws o specs :
  live s -> workers s = Sending o specs :: ws -> gets_to s ws (S (length (sent s))).
Proof.
  assert (forall s, live s -> workers s = Sending o specs :: ws ->
    (length (result_chan s) <? channel_capacity)%nat = true ->
    gets_to s ws (S (length (sent s)))) as Hsend.
  { intros s0 Hl Hw Hroom. destruct (live_open _ _ _ Hl Hw) as (_ & Ho & _).
    eapply first_call; [done..| |].
    - simpl. unfold send_read_dir_result. by rewrite Ho, Hroom.
    - intros Hl'. eapply finish_scheduling in Hl'; [|done]. simpl in Hl'.
      rewrite length_app in Hl'. simpl in Hl'. by rewrite Nat.add_1_r in Hl'. }
  remember (length (result_chan s)) as n eqn:Hn. revert s Hn.
  induction n as [|n IH]; intros s Hn Hl Hw;
    destruct (length (result_chan s) <? channel_capacity)%nat eqn:Hroom; auto.
  - apply Nat.ltb_ge in Hroom. destruct t as [v ts]. rewrite labels_node in Hcap.
    simpl in Hcap. lia.
  - destruct (result_chan s) as [|r ch] eqn:Er; [done|].
    destruct (step Consume s) as [s1|] eqn:Es; [|simpl in Es; by rewrite Er in Es].
    assert (live s1) as Hl1.
    { eapply live_step; [done..|]. simpl in Es. rewrite Er in Es. simplify_eq/=. apply Hl. }
    simpl in Es. rewrite Er in Es. simplify_eq/=.
    match type of Hl1 with live ?x => destruct (IH x eq_refl Hl1 Hw) as (s' & ? & ? & ? & ? & ?) end.
    exists s'. split_and!; try done. eapply (reachable_left _ Consume); [|done].
    simpl. by rewrite Er.
Qed.

Lemma finish_calling s ws w c pc :
  live s -> workers s = Calling w c pc :: ws -> gets_to s ws (S (length (sent s))).
Proof.
  revert s pc. induction c as [r|each k IH|k IH]; intros s pc Hl Hw.
  - eapply first_call; [done..|]. intros Hl'. pose proof (finish_sending _ _ _ _ Hl' eq_refl) as G. exact G.
  - assert (forall s, live s -> workers s = Calling w (Schedule each k) PSend :: ws ->
      gets_to s ws (S (length (sent s)))) as Hsend.
    { clear s pc Hl Hw. intros s Hl Hw. destruct (live_open _ _ _ Hl Hw) as (Ho & _).
      assert (remaining (Calling w (Schedule each k) PSend) <> []) as Hne
        by (simpl; by destruct (undisturbed (k true))).
      pose proof (live_room _ _ _ Hl Hw Hne) as Hroom.
      eapply first_call; [done..| |].
      - simpl. by rewrite Ho, Hroom.
      - intros Hl'. pose proof (IH true _ PAdd Hl' eq_refl) as G. exact G. }
    destruct (live_open _ _ _ Hl Hw) as (_ & _ & Hu). destruct pc; [|auto|done].
    eapply first_call; [done..|]. intros Hl'. pose proof (Hsend _ Hl' eq_refl) as G. exact G.
  - eapply first_call; [done..|]. intros Hl'. pose proof (IH _ _ PAdd Hl' eq_refl) as G. exact G.
Qed.

Lemma finish_starting s ws w :
  live s -> workers s = Starting w :: ws -> gets_to s ws (S (length (sent s))).
Proof.
  intros Hl Hw. eapply first_call; [done..| |].
  - simpl. by rewrite (proj2 Hl).
  - intros Hl'. pose proof (finish_calling _ _ _ _ _ Hl' eq_refl) as G. exact G.
Qed.

Lemma finish_workers s :
  live s -> exists n, (length (sent s) <= n)%nat /\ gets_to s [] n.
Proof.
  remember (workers s) as ws eqn:Hw. revert s Hw.
  induction ws as [|wk ws IH]; intros s Hw Hl.
  - exists (length (sent s)). split; [lia|]. exists s. split_and!; try done. constructor.
  - assert (exists n, (length (sent s) <= n)%nat /\ gets_to s ws n) as (n & Hn & G).
    { destruct wk; eauto using finish_starting, finish_calling, finish_sending,
        finish_scheduling, finish_completing. }
    destruct G as (s1 & Hr1 & Hl1 & Hw1 & Hi1 & Hn1).
    destruct (IH s1) as (n2 & Hn2 & s2 & Hr2 & Hl2 & Hw2 & Hi2 & Hs2); [done..|].
    exists n2. split; [lia|]. exists s2. split_and!; try done; [by eapply reachable_trans|congruence].
Qed.

(** With no call running, the iterator hands out an item or ends. *)
Definition advances s : Prop :=
  exists s', reachable s s' /\ live s' /\ sent s' = sent s /\
    (iter s' = IEnded \/ exists w, workers s' = [Starting w]).

Lemma advances_step s s1 :
  live s -> try_next_step num_threads s = Some s1 -> stop s1 = stop s -> sent s1 = sent s ->
  (live s1 -> advances s1) -> advances s.
Proof.
  intros Hl E Hst Hs Hk.
  destruct Hk as (s' & Hr & Hl' & Hs' & Hd).
  { eapply (live_step TryNext); [done..|]. rewrite Hst. apply Hl. }
  exists s'. split_and!; try done; [by eapply (reachable_left _ TryNext)|congruence].
Qed.

(** One turn of [try_next], given what the rest of it does. *)
Ltac turn Hl Hi :=
  eapply advances_step; [exact Hl|unfold try_next_step; rewrite Hi; try done|done|done|];
  let H := fresh "Hl" in intros H.

Lemma advances_pending s n :
  live s -> workers s = [] -> spec_chan s = [] -> receive_buffer s = [] ->
  iter s = IPending n -> advances s.
Proof.
  intros Hl Hw Hc Hh Hi.
  assert (pending_count s = 0) as Hp.
  { destruct Hl as [Hr Hst]. erewrite pending_exact by eauto.
    unfold obligations. by rewrite Hw, Hc, Hh. }
  turn Hl Hi. rewrite Hp in *. eexists. split_and!; [constructor|done|done|]. by left.
Qed.

Lemma advances_pop s n :
  live s -> workers s = [] -> iter s = IPop n ->
  (forall s1, live s1 -> workers s1 = [] -> spec_chan s1 = spec_chan s ->
    receive_buffer s1 = [] -> iter s1 = IPending n -> advances s1) ->
  advances s.
Proof.
  intros Hl Hw Hi Hk. destruct (Heap.pop Weighted.cmp (receive_buffer s)) as [[w rest]|] eqn:Ep;
    (eapply advances_step; [exact Hl|unfold try_next_step; rewrite Hi, Ep; done|done|done|]);
    intros Hl'.
  - eexists. split_and!; [constructor|exact Hl'|done|].
    right. exists w. simpl. by rewrite Hw.
  - apply Heap.pop_none in Ep. by apply Hk.
Qed.

Lemma advances_drain s n : live s -> workers s = [] -> iter s = IDrain n -> advances s.
Proof.
  remember (spec_chan s) as ch eqn:Hc. revert s n Hc.
  induction ch as [|w ch IH]; intros s n Hc Hl Hw Hi; symmetry in Hc.
  - eapply advances_step; [exact Hl|unfold try_next_step; rewrite Hi, Hc; done|done|done|].
    intros Hl'. apply (advances_pop _ n); [done..|].
    intros s1 Hl1 Hw1 Hc1 Hh1 Hi1. apply (advances_pending _ n); try done. by rewrite Hc1.
  - eapply advances_step; [exact Hl|unfold try_next_step; rewrite Hi, Hc; done|done|done|].
    intros Hl'. by apply (IH _ 0).
Qed.

Lemma advances_stop s n : live s -> workers s = [] -> iter s = IStop n -> advances s.
Proof.
  intros Hl Hw Hi. turn Hl Hi. apply (advances_drain _ n); [done..|]. simpl.
  by rewrite (proj2 Hl).
Qed.

Lemma advances_wait s d n : live s -> workers s = [] -> iter s = IWait d n -> advances s.
Proof.
  intros Hl Hw Hi. destruct (spec_chan s) as [|w ch] eqn:Hc;
    (eapply advances_step; [exact Hl|unfold try_next_step; rewrite Hi, Hc; done|done|done|];
     intros Hl'; by apply (advances_stop _ n)).
Qed.

Lemma advances_pending_any s n : live s -> workers s = [] -> iter s = IPending n -> advances s.
Proof.
  intros Hl Hw Hi. destruct (pending_count s =? 0) eqn:Ep; turn Hl Hi.
  - eexists. split_and!; [constructor|done|done|]. left. simpl. by rewrite Ep.
  - eapply advances_wait; [done..|]. simpl. by rewrite Ep.
Qed.

Lemma iterate s : live s -> workers s = [] -> iter s <> IEnded -> advances s.
Proof.
  intros Hl Hw Hne. destruct (iter s) as [|n|n|n|n|d n|] eqn:Hi; [..|done];
    eauto using advances_stop, advances_drain, advances_wait, advances_pending_any, advances_pop.
  assert ((length (workers s) <? num_threads)%nat = true) as Hn
    by (rewrite Hw; apply Nat.ltb_lt; simpl; lia).
  eapply advances_step; [exact Hl|unfold try_next_step; rewrite Hi, Hn; done|done|done|].
  intros Hl'. by apply (advances_stop _ 0).
Qed.

Lemma sent_bound s : live s -> (length (sent s) <= length (labels [0%Z] t))%nat.
Proof.
  intros [Hr Hst].
  assert (accounts valid read (labels [0] t) s) as (l & _ & Hl) by (by eapply reachable_accounts).
  apply Permutation_length in Hl. unfold results in Hl. rewrite !length_app in Hl. lia.
Qed.

Lemma can_finish s :
  live s -> exists s', reachable s s' /\ stop s' = false /\ iter s' = IEnded.
Proof.
  remember (length (labels [0%Z] t) - length (sent s))%nat as n eqn:Hn. revert s Hn.
  induction n as [n IH] using lt_wf_ind. intros s Hn Hl.
  destruct (finish_workers s Hl) as (k & Hk & s1 & Hr1 & Hl1 & Hw1 & Hi1 & Hs1).
  destruct (decide (iter s1 = IEnded)) as [Hd|Hd].
  { exists s1. split_and!; [done|apply Hl1|done]. }
  destruct (iterate s1 Hl1 Hw1 Hd) as (s2 & Hr2 & Hl2 & Hs2 & [Hi2|[w Hw2]]).
  { exists s2. split_and!; [by eapply reachable_trans|apply Hl2|done]. }
  destruct (finish_starting s2 [] w Hl2 Hw2) as (s3 & Hr3 & Hl3 & Hw3 & Hi3 & Hs3).
  pose proof (sent_bound s3 Hl3).
  destruct (IH (length (labels [0%Z] t) - length (sent s3))%nat ltac:(rewrite Hs2 in Hs3; lia)
    s3 eq_refl Hl3) as (s4 & Hr4 & Hst4 & Hi4).
  exists s4. split_and!; try done. eauto using ParWalk.reachable_trans.
Qed.
End Liveness.

(** ** What the parallel walk promises *)

Section Promises.
Context {P : Platform} {C : ClientState} (callback : ReadDirCallback C) (num_threads channel_capacity : nat).
Abbreviation reachable := (reachable callback num_threads channel_capacity).
Abbreviation step := (step callback num_threads channel_capacity).
Abbreviation run := (run callback num_threads channel_capacity).

(** C3: the pool does not end early: when a walk that was not stopped ends, and its callback
    keeps the [streaming_contract], no directory is left in the channel, in the heap or in a
    worker, and every directory of the tree was read and sent exactly once, at its position
    and with the number of its children; for any interleaving, number of threads and
    capacity, whether the callback streams or not. *)
Theorem parallel_walk_complete valid read spec t (s : state C) :
  streaming_contract callback valid read -> valid spec -> reads read spec t ->
  Z.of_nat (length (labels [0] t)) + 2 * Z.of_nat num_threads <= usize_max ->
  reachable (init [spec]) s -> stop s = false -> iter s = IEnded ->
  (spec_chan s = [] /\ receive_buffer s = [] /\ workers s = []) /\
  sent s ≡ₚ labels [0] t.
Proof. eauto using ended_empty, ended_sent. Qed.

(** End to end: the consumer that receives what the workers of such a walk
    have sent yields the reads of the tree in depth-first order. *)
Theorem parallel_walk_ordered {E} {HW : World.World E (Ordered.t (Result (ReadDir.t C)))}
    {HL : World.WorldLaws E (Ordered.t (Result (ReadDir.t C))) STRICT_WAIT_TIMEOUT}
    valid read spec t (s : state C) max fuel (e : E) :
  streaming_contract callback valid read -> valid spec -> reads read spec t -> sized t ->
  Z.of_nat (length (labels [0] t)) + 2 * Z.of_nat num_threads <= usize_max ->
  reachable (init [spec]) s -> stop s = false -> iter s = IEnded ->
  World.arrivals e = sent s -> World.running e ->
  (length (World.arrivals e) + World.patience e < fuel)%nat ->
  yields (ReadDirIter.next read fuel)
    (ReadDirIter.ParWalk (OrderedQueueIter.new_ordered_queue max) e) (preorder t).
Proof.
  intros HC Hv Ht Hs Hb Hr Hst Hi Ha Hrun Hf. apply parallel_walk_dfs; try done.
  rewrite Ha. eauto using ended_sent.
Qed.

(** With a thread and a channel that has room for the directories of the
    tree, a walk that is not stopped never gets stuck: from whatever state an
    interleaving has reached, some continuation ends it (and then everything
    has been read and sent). *)
Theorem parallel_walk_never_stuck valid read spec t (s : state C) :
  streaming_contract callback valid read -> valid spec -> reads read spec t ->
  Z.of_nat (length (labels [0] t)) + 2 * Z.of_nat num_threads <= usize_max ->
  (0 < num_threads)%nat -> (length (labels [0%Z] t) <= channel_capacity)%nat ->
  reachable (init [spec]) s -> stop s = false ->
  exists s', reachable s s' /\ stop s' = false /\ iter s' = IEnded.
Proof. intros. by eapply can_finish. Qed.

End Promises.

Lemma numbered_placed {P : Platform} {C : ClientState} ip w w' c (specs : list (ReadDirSpec.t C)) :
  map placed (numbered ip w c specs) = map placed (numbered ip w' c specs).
Proof.
  revert c. induction specs as [|s specs IH]; intros c; [done|].
  rewrite !numbered_cons. simpl. by rewrite (IH (c + 1)).
Qed.

(** ** Witnesses *)

Lemma sample_streaming_contract :
  streaming_contract sample_streaming_callback (fun _ => True) sample_streamed_read.
Proof.
  intros s ip weight _. unfold sample_streaming_callback.
  destruct (sample_streamed_read s) as [rd|e] eqn:Es; simpl; [|done].
  rewrite undisturbed_schedules. split; [done|]. rewrite length_numbered.
  unfold sample_streamed_read, sample_callback in Es.
  split_and!; [by apply Forall_true|repeat case_decide; simplify_eq/=; vm_compute; congruence
    |repeat case_decide; simplify_eq/=; done|right; apply numbered_placed].
Qed.

Definition sample_streamed_tree : tree (Result (ReadDir.t unit_client)) :=
  let node p ts := Node (sample_streamed_read (sample_spec 1 p)) ts in
  node (bytes "/r") [node (bytes "/r/a") []; node (bytes "/r/b") []].

Lemma sample_streamed_reads :
  reads sample_streamed_read (sample_spec 0 (bytes "/r")) sample_streamed_tree.
Proof.
  apply (reads_node sample_streamed_read (sample_spec 0 (bytes "/r"))).
  assert (children (sample_streamed_read (sample_spec 0 (bytes "/r"))) =
    [sample_spec 1 (bytes "/r/a"); sample_spec 1 (bytes "/r/b")]) as -> by vm_refl.
  constructor; [|constructor; [|constructor]].
  - apply (reads_node sample_streamed_read (sample_spec 1 (bytes "/r/a"))). constructor.
  - apply (reads_node sample_streamed_read (sample_spec 1 (bytes "/r/b"))). constructor.
Qed.

Lemma parallel_walk_complete_witness :
  (spec_chan sample_final = [] /\ receive_buffer sample_final = [] /\ workers sample_final = []) /\
  sent sample_final ≡ₚ labels [0] sample_streamed_tree.
Proof.
  exact (parallel_walk_complete sample_streaming_callback 2 8 (fun _ => True) sample_streamed_read
    (sample_spec 0 (bytes "/r")) sample_streamed_tree sample_final
    sample_streaming_contract I sample_streamed_reads ltac:(by vm_compute) sample_final_reachable
    (proj1 sample_final_ended) (proj2 sample_final_ended)).
Defined.

Definition sample_sent : World.script (Ordered.t (Result (ReadDir.t unit_client))) :=
  World.in_order (sent sample_final).

Lemma sample_streamed_sized : sized sample_streamed_tree.
Proof. repeat constructor; unfold usize_max, usize_bits; simpl; lia. Qed.

Lemma parallel_walk_ordered_witness :
  yields (ReadDirIter.next sample_streamed_read 4)
    (ReadDirIter.ParWalk (OrderedQueueIter.new_ordered_queue 1) sample_sent)
    (preorder sample_streamed_tree).
Proof.
  apply (parallel_walk_ordered sample_streaming_callback 2 8 (fun _ => True) sample_streamed_read
    (sample_spec 0 (bytes "/r")) sample_streamed_tree sample_final 1 4 sample_sent
    sample_streaming_contract I sample_streamed_reads sample_streamed_sized ltac:(by vm_compute)
    sample_final_reachable (proj1 sample_final_ended) (proj2 sample_final_ended)).
  - apply World.in_order_arrivals.
  - apply World.in_order_running.
  - apply (World.in_order_fuel _ _ 3); [vm_refl|lia].
Defined.

Lemma parallel_walk_never_stuck_witness :
  exists s', reachable sample_streaming_callback 2 8 sample_init s' /\
    stop s' = false /\ iter s' = IEnded.
Proof.
  exact (parallel_walk_never_stuck sample_streaming_callback 2 8 (fun _ => True) sample_streamed_read
    (sample_spec 0 (bytes "/r")) sample_streamed_tree sample_init
    sample_streaming_contract I sample_streamed_reads ltac:(by vm_compute) ltac:(lia)
    ltac:(vm_compute; lia) (reachable_refl _ _ _ _) eq_refl).
Defined.
