(* ===== verification/ParStop.v ===== *)
(** * Stopping the parallel walk: deadlock, hanging and termination

    When every thread waits for room in the channel of directories, or one does when
    the walk is stopped, the pool never ends.  Otherwise its work is bounded: by
    [steps_left] once the stop flag is set, by [work_left] for a finite tree. *)
From S2P Require Import Prelude Order Tree World Std Error Metadata Platform DirEntry.
From S2P Require Import OrderedQueue ReadDirIter DirEntryIter Callback ParWalk ParComplete.

Section Stopping.
Context {P : Platform} {C : ClientState} (callback : ReadDirCallback C) (num_threads channel_capacity : nat).
Implicit Types (s : state C) (wk : worker C).
Abbreviation step := (step callback num_threads channel_capacity).
Abbreviation run := (run callback num_threads channel_capacity).

(** A call that waits for room in the full channel of directories. *)
Definition blocked (wk : worker C) : bool :=
  match wk with
  | Calling _ (Schedule _ _) PSend | Scheduling (_ :: _) PSend => true
  | _ => false
  end.

Lemma blocked_stuck s wk :
  spec_open s = true -> (channel_capacity <= length (spec_chan s))%nat -> blocked wk = true ->
  walk_dir_step callback channel_capacity s wk = None.
Proof.
  intros Ho Hc Hb. destruct wk as [w|w [r|each k|k] []|o specs|[|each specs] []|]; try done;
    simpl; rewrite Ho; by destruct (Nat.ltb_spec (length (spec_chan s)) channel_capacity); [lia|].
Qed.

Lemma deadlock_step a s s' :
  spec_open s = true -> (channel_capacity <= length (spec_chan s))%nat ->
  length (workers s) = num_threads -> forallb blocked (workers s) = true -> iter s = IIdle ->
  step a s = Some s' ->
  workers s' = workers s /\ spec_open s' = true /\ spec_chan s' = spec_chan s /\ iter s' = IIdle.
Proof.
  intros Ho Hc Hn Hb Hi E. destruct a; simpl in E.
  - destruct (workers s !! i) as [wk|] eqn:Ei; [|done].
    rewrite blocked_stuck in E; [done..|].
    eapply (proj1 (forallb_forall _ _) Hb), list_elem_of_In, list_elem_of_lookup_2, Ei.
  - unfold try_next_step in E. rewrite Hi in E.
    by destruct (Nat.ltb_spec (length (workers s)) num_threads); [lia|].
  - by rewrite Hi in E.
  - by repeat (case_match; simplify_eq/=).
  - by simplify_eq.
  - by repeat (case_match; simplify_eq/=).
Qed.

(** C35: when every thread of the pool waits for room in the channel of
    directories, nobody is left to empty it: the walk hangs, even after the
    consumer has drained the results, set the stop flag and gone away. *)
Theorem full_channel_deadlock l (s s' : state C) :
  spec_open s = true -> (channel_capacity <= length (spec_chan s))%nat ->
  length (workers s) = num_threads -> forallb blocked (workers s) = true -> iter s = IIdle ->
  run l s = Some s' -> workers s' = workers s /\ iter s' = IIdle.
Proof.
  revert s. induction l as [|a l IH]; intros s Ho Hc Hn Hb Hi E; simpl in E; [by simplify_eq|].
  destruct (step a s) as [s1|] eqn:Es; [|done].
  destruct (deadlock_step _ _ _ Ho Hc Hn Hb Hi Es) as (Ew & Eo & Ec & Ei).
  rewrite <- Ew. apply IH; congruence.
Qed.
(** The iterator takes nothing more from the channel of directories: it is over; or the
    walk is stopped and it will read the stop flag next; or it is about to hand out a
    directory of its own buffer, and then will. *)
Definition leaving s : bool :=
  match iter s with
  | IEnded => true
  | IIdle | IStop _ => stop s
  | IPop _ => stop s && match receive_buffer s with [] => false | _ => true end
  | IDrain _ | IPending _ | IWait _ _ => false
  end.

(** Such an iterator, and a call that waits for room in the full channel. *)
Definition hung s : Prop :=
  leaving s = true /\ spec_open s = true /\
  (channel_capacity <= length (spec_chan s))%nat /\ existsb blocked (workers s) = true.

Lemma full_chan_step s wk s1 o :
  spec_open s = true -> (channel_capacity <= length (spec_chan s))%nat ->
  walk_dir_step callback channel_capacity s wk = Some (s1, o) ->
  spec_chan s1 = spec_chan s /\ receive_buffer s1 = receive_buffer s.
Proof.
  intros Ho Hc. unfold walk_dir_step, push, send_read_dir_result, complete_item. intros E.
  rewrite ?Ho in E. apply Nat.ltb_ge in Hc. by repeat (case_match; simplify_eq/=).
Qed.

Lemma leaving_next s s' :
  leaving s = true -> existsb blocked (workers s) = true ->
  try_next_step num_threads s = Some s' ->
  leaving s' = true /\ existsb blocked (workers s') = true /\
  spec_open s' = spec_open s /\ spec_chan s' = spec_chan s.
Proof.
  unfold leaving, try_next_step. intros Hi Hb E.
  destruct (iter s) as [|n|n|n|n| |] eqn:Ei; try done.
  - case_match; simplify_eq/=. by rewrite Hi, Hb.
  - rewrite Hi in E. by simplify_eq/=.
  - apply andb_prop in Hi as [Hst Hne]. destruct (Heap.pop _ _) as [[w h]|] eqn:Eh; simplify_eq/=.
    + by rewrite existsb_app, Hb.
    + apply Heap.pop_none in Eh. by rewrite Eh in Hne.
Qed.

Lemma hung_step a s s' : hung s -> step a s = Some s' -> hung s'.
Proof.
  intros (Hi & Ho & Hc & Hb) E. destruct a.
  - apply work_inv in E as (l1 & wk & l2 & s1 & o & Hw & Ew & ->).
    pose proof (walk_dir_step_frame _ _ _ _ _ _ Ew) as (E1 & E2 & _ & E4 & _).
    pose proof (full_chan_step _ _ _ _ Ho Hc Ew) as [E5 E6].
    split_and!; simpl; [|congruence|by rewrite E5|].
    { unfold leaving in *. simpl. by rewrite E1, E4, E6. }
    rewrite Hw, existsb_app in Hb. simpl in Hb. rewrite !existsb_app.
    destruct (blocked wk) eqn:Hbw; [by rewrite (blocked_stuck _ _ Ho Hc Hbw) in Ew|].
    destruct (existsb blocked l1); simpl in Hb |- *; [done|]. rewrite Hb. apply orb_true_r.
  - destruct (leaving_next s s' Hi Hb E) as (? & ? & E1 & E2).
    split_and!; [done|congruence|by rewrite E2|done].
  - simpl in E. destruct (iter s); [done..|]. by destruct (workers s).
  - simpl in E. repeat (case_match; simplify_eq/=). by split_and!.
  - simpl in E. simplify_eq. split_and!; [|done..]. unfold leaving in *. simpl.
    destruct (iter s); try done. by apply andb_prop in Hi as [_ ?].
  - simpl in E. destruct (stop s) eqn:Est; simplify_eq. split_and!; [|done..].
    unfold leaving in *. simpl. by rewrite Est in Hi.
Qed.

(** C36: a walk never ends once a call waits for room in the full channel of directories
    and the iterator takes nothing more from it, which it does from a stop on when it is
    about to read the flag, or to hand out a directory it has already buffered ([leaving];
    an iterator that is draining the channel, or waiting on it, may still make room).
    Whatever follows, a call is left: [par_bridge] does not return, and the channel is
    not closed, which would free the call. *)
Theorem stopped_walk_hangs l (s s' : state C) :
  hung s -> run l s = Some s' -> workers s' <> [] /\ spec_open s' = true.
Proof.
  revert s. induction l as [|a l IH]; intros s Hs E; simpl in E.
  - simplify_eq. destruct Hs as (_ & Ho & _ & Hb). split; [|done]. intros Hw.
    by rewrite Hw in Hb.
  - destruct (step a s) as [s1|] eqn:Es; [|done]. apply (IH s1); [by eapply hung_step|done].
Qed.
(** ** After the stop flag is set, the pool has a bounded number of steps left *)

Definition of_pool (a : action) : bool :=
  match a with Work _ | TryNext => true | _ => false end.

Definition pc_done (pc : push_pc) : nat :=
  match pc with PAdd => 0 | PSend => 1 | PUndo => 2 end.

(** Bounds on the steps left to a call, whatever the answers to its calls of [schedule]
    and [is_stopped]: three for each directory, two for the result. *)
Fixpoint call_steps (w : Weighted.t (ReadDirSpec.t C)) (c : callback_run C) : nat :=
  match c with
  | Returns r =>
      3 * length (default [] (regular_specs r (Weighted.index_path w) (Weighted.weight w))) + 8
  | Schedule _ k | IsStopped k => 3 + Nat.max (call_steps w (k true)) (call_steps w (k false))
  end.

Definition worker_steps wk : nat :=
  match wk with
  | Starting _ => 2
  | Calling w c pc => call_steps w c - pc_done pc
  | Sending _ specs => 3 * length specs + 5
  | Scheduling specs pc => 3 * length specs + 4 - pc_done pc
  | Completing => 1
  end.

Definition iter_steps (pc : iter_pc) (waiting : nat) : nat :=
  match pc with
  | IEnded => 0
  | IStop _ => 1
  | IIdle | IWait _ _ => 2
  | IPending _ => 3
  | IPop _ => 7
  | IDrain _ => 8 + waiting
  end.

(** A call counts twice: what it sends on the channel is drained. *)
Definition steps_left s : nat :=
  2 * sum_list_with worker_steps (workers s) + iter_steps (iter s) (length (spec_chan s)).

Lemma pc_done_le pc : (pc_done pc <= 2)%nat.
Proof. destruct pc; simpl; lia. Qed.

Lemma call_steps_pos w c : (8 <= call_steps w c)%nat.
Proof. induction c as [r|each k IH|k IH]; simpl; [lia|..]; specialize (IH true); lia. Qed.

Lemma walk_dir_step_decreases s wk s1 o :
  stop s = true -> walk_dir_step callback channel_capacity s wk = Some (s1, o) ->
  (sum_list_with worker_steps (option_list o) < worker_steps wk)%nat /\
  (length (spec_chan s1) <= S (length (spec_chan s)))%nat.
Proof.
  intros Hs. unfold walk_dir_step, push, send_read_dir_result, complete_item.
  destruct wk as [w|w c pc|o' specs|specs pc|]; intros E; rewrite ?Hs in E; simplify_eq/=;
    repeat (case_match; simplify_eq/=); rewrite ?length_app; simpl;
    try match goal with |- context [pc_done ?pc] => pose proof (pc_done_le pc) end;
    split; lia.
Qed.

Lemma pool_step_decreases a s s' :
  stop s = true -> of_pool a = true -> step a s = Some s' -> (steps_left s' < steps_left s)%nat.
Proof.
  intros Hs Ha E. unfold steps_left. destruct a; try done; clear Ha.
  - apply work_inv in E as (l1 & wk & l2 & s1 & o & Hw & Ew & ->).
    pose proof (walk_dir_step_frame _ _ _ _ _ _ Ew) as (_ & _ & _ & E4 & _).
    destruct (walk_dir_step_decreases _ _ _ _ Hs Ew) as [H1 H2]. simpl.
    rewrite Hw, !sum_list_with_app, E4. simpl.
    assert (iter_steps (iter s) (length (spec_chan s1)) <= S (iter_steps (iter s) (length (spec_chan s))))%nat
      by (destruct (iter s); simpl; lia). lia.
  - simpl in E. unfold try_next_step in E. destruct (iter s) eqn:Ei;
      repeat (case_match; simplify_eq/=); try congruence; rewrite ?sum_list_with_app;
      repeat match goal with H : spec_chan _ = _ |- _ => rewrite H end; simpl; lia.
Qed.

Lemma other_step_keeps a s s' :
  of_pool a = false -> step a s = Some s' -> (steps_left s' <= steps_left s)%nat.
Proof.
  intros Ha E. unfold steps_left. destruct a; try done; simpl in E;
    repeat (case_match; simplify_eq/=); simplify_eq/=; lia.
Qed.

Lemma step_flags a s s' :
  step a s = Some s' ->
  (stop s = true -> stop s' = true) /\ (result_open s = false -> result_open s' = false).
Proof.
  intros E. destruct a.
  - apply work_inv in E as (l1 & wk & l2 & s1 & o & _ & Ew & ->).
    apply walk_dir_step_frame in Ew as (E1 & _ & E3 & _). simpl. split; congruence.
  - simpl in E. unfold try_next_step in E. by repeat (case_match; simplify_eq/=).
  - simpl in E. by repeat (case_match; simplify_eq/=).
  - simpl in E. by repeat (case_match; simplify_eq/=).
  - simpl in E. by simplify_eq/=.
  - simpl in E. by repeat (case_match; simplify_eq/=).
Qed.

Lemma run_stopped l s s' :
  stop s = true -> run l s = Some s' ->
  (length (List.filter of_pool l) + steps_left s' <= steps_left s)%nat /\
  stop s' = true /\ (result_open s = false -> result_open s' = false).
Proof.
  revert s. induction l as [|a l IH]; intros s Hs E; cbn [ParWalk.run] in E; [by simplify_eq|].
  destruct (step a s) as [s1|] eqn:Es; [|done].
  destruct (step_flags _ _ _ Es) as [F1 F2]. destruct (IH s1 (F1 Hs) E) as (H1 & H2 & H3).
  split_and!; [|done|auto]. cbn [List.filter]. destruct (of_pool a) eqn:Ea.
  - pose proof (pool_step_decreases _ _ _ Hs Ea Es). simpl. lia.
  - pose proof (other_step_keeps _ _ _ Ea Es). lia.
Qed.

(** A call that cannot step, its results being dropped, waits for room in the channel. *)
Lemma stuck_blocked s wk :
  result_open s = false -> walk_dir_step callback channel_capacity s wk = None ->
  blocked wk = true /\ (channel_capacity <= length (spec_chan s))%nat.
Proof.
  intros Hr. unfold walk_dir_step, push, send_read_dir_result. rewrite Hr.
  destruct wk as [w|w [r|each k|k] []|o specs|[|each specs] []|]; intros E;
    repeat (case_match; simplify_eq/=); split; try done; by apply Nat.ltb_ge.
Qed.

Lemma work_enabled s :
  result_open s = false ->
  (exists i s', step (Work i) s = Some s') \/
  forallb blocked (workers s) = true /\
  (workers s = [] \/ (channel_capacity <= length (spec_chan s))%nat).
Proof.
  intros Hr. destruct (decide (Forall (fun wk => walk_dir_step callback channel_capacity s wk = None)
    (workers s))) as [Hall|Hex].
  - right. split.
    + apply forallb_forall. intros wk Hin. apply list_elem_of_In in Hin.
      rewrite Forall_forall in Hall. by apply (stuck_blocked s wk Hr), Hall.
    + destruct (workers s) as [|wk wks]; [by left|right]. apply Forall_cons in Hall as [Hwk _].
      by apply (stuck_blocked s wk Hr).
  - left. apply not_Forall_Exists in Hex; [|apply _].
    apply Exists_exists in Hex as (wk & Hin & Hwk).
    apply list_elem_of_lookup in Hin as [i Hi]. exists i. simpl in *. rewrite Hi.
    destruct (walk_dir_step _ _ _ _) as [[s1 [o|]]|]; [by eexists..|by destruct Hwk].
Qed.

(** What is left of a stopped pool whose consumer is gone when it can make no step. *)
Lemma stopped_pool_state l (s s' : state C) :
  (0 < num_threads)%nat -> stop s = true -> result_open s = false -> run l s = Some s' ->
  (exists a s'', of_pool a = true /\ step a s' = Some s'') \/
  iter s' = IEnded /\ workers s' = [] \/
  (iter s' = IEnded \/ iter s' = IIdle /\ (num_threads <= length (workers s'))%nat) /\
  workers s' <> [] /\ forallb blocked (workers s') = true /\
  (channel_capacity <= length (spec_chan s'))%nat.
Proof.
  intros Hn Hs Hr E. destruct (run_stopped l s s' Hs E) as (_ & Hs' & Hr').
  destruct (work_enabled s' (Hr' Hr)) as [(i & s'' & Ei)|[Hbl Hch]].
  { left. by exists (Work i), s''. }
  destruct (try_next_step num_threads s') as [s''|] eqn:Et; [left; by exists TryNext, s''|].
  right. assert (iter s' = IEnded \/ iter s' = IIdle /\ (num_threads <= length (workers s'))%nat) as Hi.
  { unfold try_next_step in Et. destruct (iter s'); repeat (case_match; simplify_eq/=); auto.
    right. split; [done|]. by apply Nat.ltb_ge. }
  destruct (workers s') as [|wk wks] eqn:Ew.
  - left. destruct Hi as [Hi|[_ Hi]]; [done|simpl in Hi; lia].
  - right. split_and!; try done. by destruct Hch.
Qed.

(** C10: a stopped walk terminates: once the flag is set and the consumer has dropped its
    receiver, the pool makes at most [steps_left] more steps, whatever the interleaving; and
    as long as none is possible the pool has ended, or it is one of the two hangs: every call
    that is left waits for room in the full channel. *)
Theorem stopped_walk_terminates l (s s' : state C) :
  (0 < num_threads)%nat -> stop s = true -> result_open s = false -> run l s = Some s' ->
  (length (List.filter of_pool l) + steps_left s' <= steps_left s)%nat /\
  ((exists a s'', of_pool a = true /\ step a s' = Some s'') \/
   iter s' = IEnded /\ workers s' = [] \/
   (iter s' = IEnded \/ iter s' = IIdle /\ (num_threads <= length (workers s'))%nat) /\
   workers s' <> [] /\ forallb blocked (workers s') = true /\
   (channel_capacity <= length (spec_chan s'))%nat).
Proof.
  intros Hn Hs Hr E. split; [|exact (stopped_pool_state l s s' Hn Hs Hr E)].
  by destruct (run_stopped l s s' Hs E).
Qed.
End Stopping.

(** ** A walk that is not stopped does a bounded amount of work *)

Section Work.
Context {P : Platform} {C : ClientState} (callback : ReadDirCallback C) (num_threads channel_capacity : nat).
Context (valid : ReadDirSpec.t C -> Prop) (read : ReadDirSpec.t C -> Result (ReadDir.t C)).
Context (HC : streaming_contract callback valid read).
Abbreviation start := (start callback).
Abbreviation step := (step callback num_threads channel_capacity).
Abbreviation run := (run callback num_threads channel_capacity).
Abbreviation reachable := (reachable callback num_threads channel_capacity).
Implicit Types (s : state C) (ws : list (Weighted.t (ReadDirSpec.t C))).

(** [costs ws n]: reading the directories [ws], and all those below them, takes the
    calls at most [n] steps. *)
Inductive costs : list (Weighted.t (ReadDirSpec.t C)) -> nat -> Prop :=
| costs_nil : costs [] 0
| costs_cons w ws n m :
    costs (remaining (start w)) n -> costs ws m ->
    costs (w :: ws) (S (steps_to_go (start w)) + n + m).

Lemma costs_app ws1 ws2 n m : costs ws1 n -> costs ws2 m -> costs (ws1 ++ ws2) (n + m).
Proof.
  induction 1 as [|w ws n1 m1 H1 _ _ IH]; intros H2; [done|].
  rewrite <- Nat.add_assoc. simpl app. constructor; [done|by apply IH].
Qed.

Lemma costs_perm ws ws' n : ws ≡ₚ ws' -> costs ws n -> costs ws' n.
Proof.
  intros H. revert n. induction H as [|w ws ws' _ IH|w w' ws|ws1 ws2 ws3 _ IH1 _ IH2]; intros n Hc.
  - done.
  - inversion Hc; subst. constructor; auto.
  - inversion Hc as [|? ? n1 m1 H1 H2]; subst. inversion H2 as [|? ? n2 m2 H3 H4]; subst.
    replace (S _ + n1 + _)%nat with
      (S (steps_to_go (start w)) + n2 + (S (steps_to_go (start w')) + n1 + m2))%nat by lia.
    by repeat constructor.
  - auto.
Qed.

Lemma costs_det ws n m : costs ws n -> costs ws m -> n = m.
Proof.
  intros H. revert m. induction H as [|w ws n1 n2 _ IH1 _ IH2]; intros m Hm; inversion Hm; subst; auto.
Qed.

(** The cost of a tree of at most [k] directories. *)
Fixpoint cost (k : nat) (w : Weighted.t (ReadDirSpec.t C)) : nat :=
  match k with
  | O => 0
  | S k' => S (steps_to_go (start w)) + sum_list_with (cost k') (remaining (start w))
  end.

Lemma covers_costs k ws l :
  (length l <= k)%nat -> covers valid read ws l -> costs ws (sum_list_with (cost k) ws).
Proof.
  revert ws l. induction k as [|k IH]; intros ws l Hk Hc.
  - destruct Hc as [|w ws [v ts] l _ _ _]; [constructor|].
    rewrite labels_node in Hk. simpl in Hk. lia.
  - induction Hc as [|w ws t l Hv Ht Hc IHc]; [constructor|].
    rewrite length_app in Hk. specialize (IHc ltac:(lia)).
    destruct t as [v ts]. rewrite labels_node in Hk. simpl in Hk.
    destruct (undisturbed (callback (Weighted.value w)
      (Some (mk_streaming_context (Weighted.index_path w) (Weighted.weight w))))) as [ws' r] eqn:Eu.
    destruct (read_expands _ _ _ _ _ _ _ _ _ _ HC Hv Ht Eu) as [He _].
    cbn [sum_list_with cost]. constructor; [|exact IHc]. eapply IH.
    2: { unfold start, remaining. rewrite Eu. exact He. }
    lia.
Qed.

(** The work left in a state. *)
Definition work_left s (n : nat) : Prop :=
  exists m, costs (items s) m /\ n = (m + sum_list_with steps_to_go (workers s))%nat.

Lemma step_work a s s' n :
  sane num_threads s -> stop s = false -> step a s = Some s' -> stop s' = false -> work_left s n ->
  exists n', work_left s' n' /\ (n' + Nat.b2n (of_worker a) <= n)%nat.
Proof.
  intros Hsane Hst E Hst' (m & Hm & ->).
  destruct (step_moves _ _ _ a s s' Hsane Hst E Hst') as [(l1 & w & l2 & Hw & ->)|(Hi & _ & Hl)].
  - assert (costs (w :: spec_chan s ++ receive_buffer s ++ flat_map remaining (l1 ++ l2)) m) as Hc.
    { eapply costs_perm; [|exact Hm]. unfold items. rewrite Hw, !flat_map_app. simpl. solve_Permutation. }
    inversion Hc as [|? ? n1 m1 H1 H2]; subst. exists (n1 + m1 + sum_list_with steps_to_go (l1 ++ start w :: l2))%nat.
    split.
    + exists (n1 + m1)%nat. split; [|done]. eapply costs_perm; [|exact (costs_app _ _ _ _ H1 H2)].
      unfold items. cbn [workers spec_chan receive_buffer set_workers]. rewrite !flat_map_app.
      cbn [flat_map]. solve_Permutation.
    + rewrite Hw, !sum_list_with_app. cbn [sum_list_with]. destruct a; simpl; lia.
  - eexists. split; [exists m; split; [by eapply costs_perm|reflexivity]|lia].
Qed.

Lemma run_work l s s' n :
  sane num_threads s -> run l s = Some s' -> stop s' = false -> work_left s n ->
  (length (List.filter of_worker l) <= n)%nat.
Proof.
  revert s n. induction l as [|a l IH]; intros s n Hsane E Hst' Hn; [simpl; lia|].
  simpl in E. destruct (step a s) as [s1|] eqn:Es; [|done].
  assert (stop s1 = false) as Hst1.
  { destruct (stop s1) eqn:E1; [|done].
    by destruct (run_stopped callback num_threads channel_capacity l s1 s' E1 E) as (_ & ? & _); congruence. }
  pose proof (step_stop _ _ _ _ _ _ Es Hst1) as Hst.
  destruct (step_work a s s1 n Hsane Hst Es Hst1 Hn) as (n' & Hn' & Hle).
  pose proof (IH s1 n' (step_sane _ _ _ _ _ _ Hsane Es) E Hst' Hn').
  cbn [List.filter]. destruct (of_worker a); simpl in *; lia.
Qed.

Lemma init_work spec t :
  valid spec -> reads read spec t -> exists n, work_left (init [spec]) n.
Proof.
  intros Hv Ht. eexists _, _. split; [|done].
  apply (covers_costs (length (labels [0] t ++ [])) (items (init [spec])) (labels [0] t ++ [])); [done|].
  apply (covers_cons _ _ (Weighted.new spec (IndexPath.new [0]) ROOT_WEIGHT)); [done|done|constructor].
Qed.

Lemma step_total_work a s s' n n' :
  sane num_threads s -> stop s = false -> step a s = Some s' -> stop s' = false ->
  work_left s n -> work_left s' n' -> (n' + Nat.b2n (of_worker a) <= n)%nat.
Proof.
  intros Hsane Hst E Hst' Hn (m & Hm & ->).
  destruct (step_work a s s' n Hsane Hst E Hst' Hn) as (n2 & (m2 & Hm2 & ->) & Hle).
  by rewrite (costs_det _ _ _ Hm Hm2).
Qed.
End Work.

(** C12: a walk of a finite tree does a bounded amount of work: there is a number of steps
    that the calls that read its directories never exceed, whatever the number of
    threads, the capacity and the interleaving, as long as the walk is not stopped. *)
Theorem parallel_walk_work_bounded {P : Platform} {C : ClientState} (callback : ReadDirCallback C)
    valid read spec t :
  streaming_contract callback valid read -> valid spec -> reads read spec t ->
  exists n, forall num_threads channel_capacity l s,
    run callback num_threads channel_capacity l (init [spec]) = Some s -> stop s = false ->
    (length (List.filter of_worker l) <= n)%nat.
Proof.
  intros HC Hv Ht. destruct (init_work callback valid read HC spec t Hv Ht) as [n Hn].
  exists n. intros nt cap l s E Hst. eapply run_work; [|exact E|done|exact Hn].
  by split; simpl; try done; lia.
Qed.

(** ** Witnesses *)

(** One thread, channels of one element: reading [/r], which has two
    sub-directories, blocks. *)
Definition sample_hung : state unit_client :=
  play sample_streaming_callback 1 1
    (sample_schedule sample_streaming_callback 1 1 100 sample_init) sample_init.

Lemma full_channel_deadlock_witness :
  reachable sample_streaming_callback 1 1 sample_init sample_hung /\
  forall l s', run sample_streaming_callback 1 1 l sample_hung = Some s' ->
    length (workers s') = 1%nat /\ iter s' = IIdle.
Proof.
  split.
  - apply play_reachable.
  - intros l s' Hr.
    destruct (full_channel_deadlock sample_streaming_callback 1 1 l sample_hung s') as [-> ?];
      [vm_refl|vm_compute; lia|vm_refl|vm_refl|vm_refl|done|]. split; [vm_refl|done].
Defined.

(** Two threads, channels of one element: the call that reads [/r] schedules its first
    sub-directory and waits to schedule the second when the walk is stopped, the iterator
    being between two calls of [try_next]. *)
Definition sample_stopping : list action :=
  repeat TryNext 5 ++ repeat (Work 0) 4 ++ [SetStop].

Definition sample_stopped : state unit_client :=
  play sample_streaming_callback 2 1 sample_stopping sample_init.

Lemma stopped_walk_hangs_witness :
  reachable sample_streaming_callback 2 1 sample_init sample_stopped /\
  hung 1 sample_stopped /\ iter sample_stopped = IIdle /\
  forall l s', run sample_streaming_callback 2 1 l sample_stopped = Some s' -> workers s' <> [].
Proof.
  split; [|assert (hung 1 sample_stopped) as Hh].
  - apply play_reachable.
  - split_and!; [vm_refl..|vm_compute; lia|vm_refl].
  - split; [exact Hh|]. split; [vm_refl|]. intros l s' Hr.
    exact (proj1 (stopped_walk_hangs sample_streaming_callback 2 1 l sample_stopped s' Hh Hr)).
Defined.

(** Stopped while the iterator drains the channel, the same walk runs to its end. *)
Example sample_stopped_draining :
  let s := play sample_streaming_callback 2 1
    (repeat TryNext 5 ++ repeat (Work 0) 4 ++ [TryNext; TryNext; SetStop]) sample_init in
  let s' := play sample_streaming_callback 2 1
    (sample_schedule sample_streaming_callback 2 1 100 s) s in
  existsb blocked (workers s) = true /\ iter s = IDrain 0 /\ iter s' = IEnded /\ workers s' = [].
Proof. split_and!; vm_refl. Qed.

(** Two threads, room in the channels: stopped while [/r] is read, and left to run. *)
Definition sample_leaving : state unit_client :=
  play sample_streaming_callback 2 8
    (repeat TryNext 5 ++ repeat (Work 0) 3 ++ [SetStop; CloseResults]) sample_init.

Definition sample_left : list action :=
  sample_schedule sample_streaming_callback 2 8 100 sample_leaving.

Definition sample_gone : state unit_client := play sample_streaming_callback 2 8 sample_left sample_leaving.

Lemma stopped_walk_terminates_witness :
  (length (List.filter of_pool sample_left) <= steps_left sample_leaving)%nat /\
  length sample_left = 7%nat /\ iter sample_gone = IEnded /\ workers sample_gone = [].
Proof.
  destruct (stopped_walk_terminates sample_streaming_callback 2 8 sample_left sample_leaving sample_gone)
    as [Hb _]; [lia|vm_refl|vm_refl|apply play_run; vm_refl|].
  split_and!; [lia|vm_refl..].
Defined.

Lemma parallel_walk_work_bounded_witness :
  exists n, forall num_threads channel_capacity l s,
    run sample_streaming_callback num_threads channel_capacity l sample_init = Some s ->
    stop s = false -> (length (List.filter of_worker l) <= n)%nat.
Proof.
  exact (parallel_walk_work_bounded sample_streaming_callback (fun _ => True) sample_streamed_read
    (sample_spec 0 (bytes "/r")) sample_streamed_tree sample_streaming_contract I
    sample_streamed_reads).
Defined.
