(* ===== verification/PoolWorld.v ===== *)
(** * The consumer and the pool, running at the same time

    [PoolWorld] is the world of the consumer when the results come from the machine of
    [ParWalk]: between any two operations of the consumer the threads of the pool make
    an arbitrary list of steps, chosen by an oracle, and any time may pass.  The results
    are taken from the pool's channel, and the channel is disconnected when the pool has
    dropped its senders.  [running_laws] shows that this is a world as the ordered queue
    wants it; so what was proved of the queue holds while the walk is going on. *)
From S2P Require Import Prelude Order Tree World Std Error Metadata Platform DirEntry.
From S2P Require Import OrderedQueue ReadDirIter DirEntryIter Callback ParWalk ParComplete ParStop.

Section PoolWorld.
Context {P : Platform} {C : ClientState} (callback : ReadDirCallback C) (num_threads channel_capacity : nat).
Abbreviation Read := (Result (ReadDir.t C)).
Abbreviation step := (step callback num_threads channel_capacity).

(** The pool, the clock, and the oracle: [chunks] are the steps the pool makes before
    each operation of the consumer, [delays] what the consumer waits for the processor
    before it reads the clock. *)
Record world_state := mk_world {
  pool : state C;
  time : Z;
  chunks : list (list action);
  delays : list Z;
}.

(** The steps of the pool's own threads. *)
Definition pool_action (a : action) : bool :=
  match a with Work _ | TryNext | DropIter => true | _ => false end.

(** One step of the pool, when it is possible. *)
Definition act (a : action) (s : state C) : state C :=
  if pool_action a then default s (step a s) else s.

Definition acts (l : list action) (s : state C) : state C := fold_left (fun s a => act a s) l s.

Definition set_pool (e : world_state) (s : state C) : world_state :=
  mk_world s (time e) (chunks e) (delays e).

Definition pool_runs (l : list action) (e : world_state) : world_state :=
  set_pool e (acts l (pool e)).

(** The oracle's next chunk. *)
Definition advance (e : world_state) : world_state :=
  match chunks e with
  | [] => e
  | l :: ls => pool_runs l (mk_world (pool e) (time e) ls (delays e))
  end.

(** A round in which every thread gets the processor: the iterator runs until it hands
    out a directory or ends, a call makes a step, and [par_bridge] returns if it can. *)
Definition fair_round (s : state C) : list action :=
  repeat TryNext (length (spec_chan s) + 8) ++ [Work 0; DropIter].

(** The receiving end of the channel of results. *)
Definition receive (e : world_state) : result (Ordered.t Read) TryRecvError * world_state :=
  match result_chan (pool e) with
  | o :: _ => (Ok o, set_pool e (default (pool e) (step Consume (pool e))))
  | [] => (Err (if spec_open (pool e) then Empty else Disconnected), e)
  end.

Definition pool_now (e : world_state) : Z * world_state :=
  let e := advance e in
  match delays e with
  | [] => (time e, e)
  | dt :: l =>
      (time e + Z.max 0 dt, mk_world (pool e) (time e + Z.max 0 dt) (chunks e) l)
  end.

(** A wait on the empty channel is as long as the oracle's next chunk, or, when there is
    none left, as a round of the pool. *)
Definition pool_recv_timeout (d : Z) (e : world_state) :
    result (Ordered.t Read) RecvTimeoutError * world_state :=
  let e1 := match chunks e with
            | [] => pool_runs (fair_round (pool e)) e
            | _ => advance e
            end in
  match receive e1 with
  | (Ok o, e') => (Ok o, e')
  | (Err Disconnected, e') => (Err RecvDisconnected, e')
  | (Err Empty, e') =>
      (Err RecvTimeout,
       mk_world (pool e') (time e' + Z.max 0 d) (chunks e') (delays e'))
  end.

(** The world at the start of a walk. *)
Definition new_world (spec : ReadDirSpec.t C) (chunks : list (list action)) (delays : list Z) :
    world_state :=
  mk_world (init [spec]) 0 chunks delays.

Definition pool_load_stop (e : world_state) : bool * world_state :=
  (stop (pool (advance e)), advance e).

Definition pool_try_recv (e : world_state) : result (Ordered.t Read) TryRecvError * world_state :=
  receive (advance e).

#[global] Instance pool_world : World world_state (Ordered.t Read) := {
  load_stop := pool_load_stop;
  now := pool_now;
  try_recv := pool_try_recv;
  recv_timeout := pool_recv_timeout;
  yield_now := advance;
}.

(** ** A walk from one root, with room for its directories *)

Record rooted_walk : Type := {
  rw_valid : ReadDirSpec.t C -> Prop;
  rw_read : ReadDirSpec.t C -> Read;
  rw_spec : ReadDirSpec.t C;
  rw_tree : tree Read;
  rw_contract : streaming_contract callback rw_valid rw_read;
  rw_root : rw_valid rw_spec;
  rw_reads : reads rw_read rw_spec rw_tree;
  rw_size : Z.of_nat (length (labels [0] rw_tree)) + 2 * Z.of_nat num_threads <= usize_max;
  rw_threads : (0 < num_threads)%nat;
  rw_capacity : (length (labels [0%Z] rw_tree) <= channel_capacity)%nat;
}.

Context (W : rooted_walk).
Abbreviation valid := (rw_valid W).
Abbreviation read := (rw_read W).
Abbreviation spec := (rw_spec W).
Abbreviation t := (rw_tree W).
Abbreviation HC := (rw_contract W).
Abbreviation Hvalid := (rw_root W).
Abbreviation Ht := (rw_reads W).
Abbreviation Hsize := (rw_size W).
Abbreviation Hthreads := (rw_threads W).
Abbreviation Hcap := (rw_capacity W).
Abbreviation reachable := (reachable callback num_threads channel_capacity (init [spec])).
Abbreviation live := (live callback num_threads channel_capacity spec).
Implicit Types (e : world_state) (s : state C).

(** What a world keeps: the pool is running. *)
Definition ok e : Prop := live (pool e).

(** The work left. *)
Definition work (s : state C) : nat :=
  sum_list_with (cost callback (length (labels [0%Z] t))) (items s) +
  sum_list_with steps_to_go (workers s).

(** What is still to be sent. *)
Definition unsent_labels (s : state C) : list (Ordered.t Read) :=
  filter (fun o => Ordered.index_path o ∉ map Ordered.index_path (sent s)) (labels [0] t).

Definition pool_arrivals e : list (Ordered.t Read) :=
  result_chan (pool e) ++ unsent_labels (pool e).

Definition pool_patience e : nat := work (pool e) + length (chunks e) + length (delays e).

(** *** The steps of the pool *)

Lemma pool_step_sends a s s' :
  pool_action a = true -> step a s = Some s' ->
  stop s' = stop s /\
  exists d, sent s' = sent s ++ d /\ result_chan s' = result_chan s ++ d.
Proof.
  intros Ha E. destruct a as [i| | | | |]; try done.
  - apply work_inv in E as (l1 & wk & l2 & s1 & o & _ & Ew & ->). simpl.
    pose proof (walk_dir_step_frame _ _ _ _ _ _ Ew) as (-> & _). split; [done|].
    revert Ew. unfold walk_dir_step, push, send_read_dir_result, complete_item.
    intros E. repeat (case_match; simplify_eq/=); first [by eexists|exists []; by rewrite !app_nil_r].
  - simpl in E. unfold try_next_step in E.
    repeat (case_match; simplify_eq/=); (split; [congruence|exists []; by rewrite !app_nil_r]).
  - simpl in E.
    repeat (case_match; simplify_eq/=); (split; [done|exists []; by rewrite !app_nil_r]).
Qed.

Lemma live_accounts s : live s -> accounts valid read (labels [0] t) s.
Proof.
  intros [Hr Hst]. eapply reachable_accounts; [exact HC|exact Hvalid|exact Ht|exact Hr|exact Hst].
Qed.

Lemma live_work s : live s -> work_left callback s (work s).
Proof.
  intros Hl. destruct (live_accounts s Hl) as (l & Hc & Hp). eexists. split; [|done].
  eapply covers_costs; [exact HC| |exact Hc].
  rewrite <- Hp, length_app. lia.
Qed.

(** The pool has gone on from [s] to [s']. *)
Record follows (s s' : state C) : Prop := {
  fl_live : live s';
  fl_work : (work s' <= work s)%nat;
  fl_sends : exists d, sent s' = sent s ++ d /\ result_chan s' = result_chan s ++ d;
}.

Lemma follows_refl s : live s -> follows s s.
Proof. split; [done..|]. exists []. by rewrite !app_nil_r. Qed.

Lemma follows_trans s1 s2 s3 : follows s1 s2 -> follows s2 s3 -> follows s1 s3.
Proof.
  intros [_ H2 (d1 & H3 & H4)] [H5 H6 (d2 & H7 & H8)]. split; [done|lia|].
  exists (d1 ++ d2). by rewrite H7, H8, H3, H4, !app_assoc.
Qed.

Lemma step_live a s s' :
  live s -> step a s = Some s' -> stop s' = false ->
  live s' /\ (work s' + Nat.b2n (of_worker a) <= work s)%nat.
Proof.
  intros Hl E Hst'. assert (live s') as Hl' by (by eapply live_step). split; [done|].
  eapply (step_total_work callback num_threads channel_capacity a s s'); try done;
    [by eapply reachable_sane, Hl|apply Hl|by apply live_work..].
Qed.

Lemma pool_step_live a s s' :
  live s -> pool_action a = true -> step a s = Some s' ->
  live s' /\ (work s' + Nat.b2n (of_worker a) <= work s)%nat.
Proof.
  intros Hl Ha E. destruct (pool_step_sends _ _ _ Ha E) as [Hst' _].
  apply step_live; [done..|]. rewrite Hst'. apply Hl.
Qed.

Lemma act_follows a s : live s -> follows s (act a s).
Proof.
  intros H. unfold act. destruct (pool_action a) eqn:Ha; [|by apply follows_refl].
  destruct (step a s) as [s'|] eqn:E; simpl; [|by apply follows_refl].
  destruct (pool_step_live _ _ _ H Ha E) as [Hl Hw].
  split; [done|lia|by eapply pool_step_sends].
Qed.

Lemma acts_app l1 l2 s : acts (l1 ++ l2) s = acts l2 (acts l1 s).
Proof. apply fold_left_app. Qed.

Lemma acts_follows l s : live s -> follows s (acts l s).
Proof.
  revert s. induction l as [|a l IH]; intros s H; [by apply follows_refl|].
  pose proof (act_follows a s H) as Ha. eapply follows_trans; [exact Ha|].
  apply IH, Ha.
Qed.

(** *** What is still to be received *)

Lemma live_unsent s : live s -> sent s ++ unsent_labels s ≡ₚ labels [0] t.
Proof.
  intros Hl. destruct (live_accounts s Hl) as (l & _ & Hp).
  unfold results in Hp. rewrite <- app_assoc in Hp.
  unfold unsent_labels. rewrite (filter_rest Ordered.index_path _ _ _ Hp); [done|].
  apply labels_nodup.
Qed.

Lemma follows_arrivals s s' :
  live s -> follows s s' ->
  result_chan s' ++ unsent_labels s' ≡ₚ result_chan s ++ unsent_labels s.
Proof.
  intros Hl [Hl' _ (d & Hs & ->)]. rewrite <- app_assoc. f_equiv.
  apply live_unsent in Hl, Hl'. rewrite Hs, <- app_assoc in Hl'.
  apply (Permutation_app_inv_l (sent s)). by rewrite Hl'.
Qed.

(** *** A fair round makes progress *)

(** With no result waiting, the first call can make a step. *)
Lemma call_enabled s wk ws :
  live s -> workers s = wk :: ws -> result_chan s = [] ->
  exists s', step (Work 0) s = Some s'.
Proof.
  intros Hl Hw Hch.
  assert (exists r, walk_dir_step callback channel_capacity s wk = Some r) as [[s1 o] E].
  { pose proof (live_open _ _ _ _ _ _ _ Hl Hw) as (Hso & Hro & _).
    pose proof (live_room callback num_threads channel_capacity valid read spec t HC Hvalid Ht
      Hthreads Hcap s wk ws Hl Hw) as Hroom.
    assert ((length (result_chan s) <? channel_capacity)%nat = true) as Hrr.
    { pose proof Hcap as Hc. rewrite Hch. apply Nat.ltb_lt. destruct t as [v ts].
      rewrite labels_node in Hc. simpl in *. lia. }
    unfold walk_dir_step, push, send_read_dir_result. rewrite Hso, Hro, Hrr.
    destruct wk as [w|w [r|each k|k] []|o specs|[|each specs] []|]; try (case_match; by eexists);
      try by eexists.
    - rewrite Hroom; [by eexists|]. simpl. by destruct (undisturbed (k true)).
    - rewrite Hroom; [by eexists|done]. }
  simpl. rewrite Hw. simpl. rewrite E. destruct o; by eexists.
Qed.

(** How far the iterator is from handing out a directory, or ending, while no call runs. *)
Definition turns (s : state C) : nat :=
  match iter s with
  | IEnded => 0
  | IIdle | IWait _ _ => length (spec_chan s) + 6
  | IStop _ => length (spec_chan s) + 5
  | IDrain _ => length (spec_chan s) + 4
  | IPop _ =>
      match receive_buffer s, spec_chan s with
      | _ :: _, _ => 1
      | [], [] => 3
      | [], _ => length (spec_chan s) + 8
      end
  | IPending _ =>
      match receive_buffer s, spec_chan s with
      | [], [] => 2
      | _, _ => length (spec_chan s) + 7
      end
  end.

Lemma turns_le s : (turns s <= length (spec_chan s) + 8)%nat.
Proof. unfold turns. repeat case_match; simpl; lia. Qed.

Lemma try_next_turns s :
  live s -> workers s = [] -> iter s <> IEnded ->
  exists s', step TryNext s = Some s' /\ (workers s' <> [] \/ (turns s' < turns s)%nat).
Proof.
  intros [Hr Hst] Hw Hi.
  pose proof (pending_exact callback num_threads channel_capacity valid read spec t HC Hvalid Ht
    Hsize s Hr Hst) as Hp.
  unfold obligations in Hp. rewrite Hw in Hp. simpl in Hp.
  simpl. unfold try_next_step, turns. destruct (iter s) as [|n|n|n|n|d n|] eqn:Ei; [..|done].
  - pose proof Hthreads. rewrite Hw, (proj2 (Nat.ltb_lt _ _)) by (simpl; lia). eexists. split; [done|].
    right. simpl. lia.
  - rewrite Hst. eexists. split; [done|]. right. simpl. lia.
  - destruct (spec_chan s) eqn:Ec; (eexists; split; [done|]); right; simpl; rewrite ?Ec;
      repeat case_match; simpl; lia.
  - destruct (Heap.pop _ _) as [[w rest]|] eqn:Ep; (eexists; split; [done|]).
    + left. simpl. by destruct (workers s).
    + right. apply Heap.pop_none in Ep. simpl. rewrite Ep. destruct (spec_chan s); simpl; lia.
  - destruct (pending_count s =? 0) eqn:E0; (eexists; split; [done|]); right; simpl.
    { repeat case_match; simpl; lia. }
    destruct (receive_buffer s), (spec_chan s); simpl in *; lia.
  - destruct (spec_chan s) eqn:Ec; (eexists; split; [done|]); right; simpl; rewrite ?Ec; simpl; lia.
Qed.

Lemma try_next_workers s s' :
  step TryNext s = Some s' -> workers s <> [] -> workers s' <> [].
Proof.
  simpl. unfold try_next_step. intros E. repeat (case_match; simplify_eq/=); try done.
  by destruct (workers s).
Qed.

Lemma try_nexts k s :
  live s -> workers s <> [] \/ (turns s <= k)%nat ->
  let s' := acts (repeat TryNext k) s in workers s' <> [] \/ iter s' = IEnded.
Proof.
  revert s. induction k as [|k IH]; intros s Hl Hk; simpl.
  - destruct Hk as [?|Hk]; [by left|right]. unfold turns in Hk. repeat case_match; first [done|lia].
  - pose proof (act_follows TryNext s Hl) as [Hl' _ _]. apply IH; [done|].
    unfold act. cbn [pool_action].
    destruct (decide (workers s = [])) as [Hw|Hw].
    2: { left. destruct (step TryNext s) eqn:E; simpl; [by eapply try_next_workers|done]. }
    destruct Hk as [Hk|Hk]; [done|].
    destruct (decide (iter s = IEnded)) as [Hi|Hi].
    { right. simpl. unfold try_next_step. rewrite Hi. simpl. unfold turns. rewrite Hi. lia. }
    destruct (try_next_turns s Hl Hw Hi) as (s2 & -> & [Hw2|Ht2]); simpl; [by left|right; lia].
Qed.

Lemma follows_chan s s' : follows s s' -> result_chan s' = [] -> result_chan s = [].
Proof. intros [_ _ (d & _ & ->)] E. by apply app_eq_nil in E as [-> _]. Qed.

Lemma fair_round_progress s :
  live s -> let s' := acts (fair_round s) s in
  result_chan s' = [] -> spec_open s' = false \/ (work s' < work s)%nat.
Proof.
  intros Hl. unfold fair_round. rewrite acts_app.
  pose proof (try_nexts (length (spec_chan s) + 8) s Hl (or_intror (turns_le s))) as Hd.
  pose proof (acts_follows (repeat TryNext (length (spec_chan s) + 8)) s Hl) as F1.
  revert Hd F1. generalize (acts (repeat TryNext (length (spec_chan s) + 8)) s). intros s1 Hd F1.
  cbv zeta in Hd |- *. change (acts [Work 0; DropIter] s1) with (act DropIter (act (Work 0) s1)).
  pose proof (act_follows (Work 0) s1 (fl_live _ _ F1)) as F2.
  pose proof (act_follows DropIter _ (fl_live _ _ F2)) as F3.
  pose proof (fl_work _ _ F1). pose proof (fl_work _ _ F3). intros Hch.
  apply (follows_chan _ _ F3), (follows_chan _ _ F2) in Hch as Hch1.
  destruct (workers s1) as [|wk ws] eqn:Hw.
  - left. destruct Hd as [?|Hi]; [done|]. unfold act. simpl. rewrite Hw. simpl. by rewrite Hi, Hw.
  - right. destruct (call_enabled s1 wk ws) as [s2 E2]; [apply F1|done|done|].
    destruct (pool_step_live (Work 0) s1 s2 (fl_live _ _ F1) eq_refl E2) as [_ Hlt].
    enough (work (act (Work 0) s1) < work s1)%nat by lia.
    unfold act. cbn [pool_action]. rewrite E2. simpl in *. lia.
Qed.

(** *** The operations of the world *)

Abbreviation future := (same_future pool_arrivals pool_patience (fun _ => True)).

Lemma pool_runs_future l e : ok e -> ok (pool_runs l e) /\ future e (pool_runs l e).
Proof.
  intros He. pose proof (acts_follows l (pool e) He) as F. split; [apply F|].
  split; [|unfold pool_patience; simpl; pose proof (fl_work _ _ F); lia|done].
  by apply follows_arrivals.
Qed.

Lemma advance_future e :
  ok e -> ok (advance e) /\ future e (advance e) /\ time (advance e) = time e /\
  (chunks e <> [] -> (pool_patience (advance e) < pool_patience e)%nat).
Proof.
  intros He. unfold advance. destruct (chunks e) as [|l ls] eqn:Ec; [by split_and!|].
  set (e1 := mk_world (pool e) (time e) ls (delays e)).
  destruct (pool_runs_future l e1 He) as (Ho & [Ha Hp _]).
  assert (pool_patience e1 < pool_patience e)%nat by (unfold pool_patience; rewrite Ec; simpl; lia).
  split; [done|]. split_and!; [split; [exact Ha|lia|done]|done|lia].
Qed.

(** Receiving, or not. *)
Lemma receive_spec e :
  ok e ->
  match receive e with
  | (Ok o, e') =>
      ok e' /\ received pool_arrivals pool_patience (fun _ => True) o e e' /\ time e' = time e
  | (Err Empty, e') => e' = e /\ result_chan (pool e) = [] /\ spec_open (pool e) = true
  | (Err Disconnected, e') => e' = e /\ pool_arrivals e = []
  end.
Proof.
  intros Hl. unfold receive. destruct (result_chan (pool e)) as [|o ch] eqn:Ec.
  - destruct (spec_open (pool e)) eqn:Ho; (split; [done|]); [done|].
    pose proof Hl as [Hr Hst].
    assert (iter (pool e) = IEnded) as Hi.
    { destruct (decide (iter (pool e) = IEnded)) as [|Hi]; [done|].
      pose proof (sane_specs _ _ (reachable_sane _ _ _ _ _ Hr) (or_intror Hi)). congruence. }
    pose proof (live_unsent (pool e) Hl) as Hu.
    rewrite (ended_sent callback num_threads channel_capacity valid read spec t HC Hvalid Ht Hsize
      (pool e) Hr Hst Hi) in Hu.
    unfold pool_arrivals. rewrite Ec. simpl. apply Permutation_nil_r.
    apply (Permutation_app_inv_l (labels [0] t)). by rewrite app_nil_r.
  - destruct (step Consume (pool e)) as [s'|] eqn:E; [|simpl in E; by rewrite Ec in E].
    assert (stop s' = false /\ sent s' = sent (pool e) /\ result_chan s' = ch) as (Hs1 & Hs2 & Hs3).
    { simpl in E. rewrite Ec in E. simplify_eq. by destruct Hl. }
    destruct (step_live Consume (pool e) s' Hl E Hs1) as [Hl' Hw].
    split; [exact Hl'|]. split; [|done]. split; [|unfold pool_patience; simpl in *; lia|done].
    unfold pool_arrivals, unsent_labels. simpl. by rewrite Ec, Hs2, Hs3.
Qed.

Lemma pool_now_future e :
  ok e -> let '(x, e') := pool_now e in
  ok e' /\ future e e' /\ time e' = x /\ time e <= x /\
  (time e < x -> (pool_patience e' < pool_patience e)%nat).
Proof.
  intros He. unfold pool_now. destruct (advance_future e He) as (Ho & [Ha Hp _] & Hti & _).
  destruct (advance e) as [s ti ch [|dt l]]; unfold pool_patience in *; simpl in *; subst;
    (split; [done|]);
    (split_and!; [split; [done|unfold pool_patience; simpl; lia|done]|done|lia|lia]).
Qed.

Lemma pool_recv_timeout_spec d e :
  ok e ->
  match pool_recv_timeout d e with
  | (Ok o, e') => ok e' /\ received pool_arrivals pool_patience (fun _ => True) o e e'
  | (Err RecvTimeout, e') =>
      ok e' /\ future e e' /\ (pool_patience e' < pool_patience e)%nat
  | (Err RecvDisconnected, e') => ok e' /\ future e e' /\ pool_arrivals e = []
  end.
Proof.
  intros He. unfold pool_recv_timeout.
  set (e1 := match chunks e with [] => pool_runs (fair_round (pool e)) e | _ => advance e end).
  assert (ok e1 /\ future e e1 /\
    (result_chan (pool e1) = [] -> spec_open (pool e1) = true ->
      (pool_patience e1 < pool_patience e)%nat)) as (Ho & F & Hprog).
  { unfold e1. destruct (chunks e) as [|l ls] eqn:Ec.
    - destruct (pool_runs_future (fair_round (pool e)) e He) as (Ho & F). split; [done|]. split; [done|].
      pose proof (fair_round_progress (pool e) He) as Hf. unfold pool_patience. simpl in *.
      intros Hch Hso. destruct (Hf Hch) as [?|?]; [congruence|lia].
    - destruct (advance_future e He) as (Ho & F & _ & Hc). split; [done|]. split; [done|].
      intros _ _. apply Hc. by rewrite Ec. }
  clearbody e1. destruct F as [Ha Hp _]. pose proof (receive_spec e1 Ho) as Hrec.
  destruct (receive e1) as [[o|[|]] e'].
  - destruct Hrec as (Ho' & [Ha' Hp' _] & _). split; [done|]. split; [by rewrite <- Ha|lia|done].
  - destruct Hrec as (-> & Hch & Hso). specialize (Hprog Hch Hso). split; [done|].
    assert (pool_patience (mk_world (pool e1) (time e1 + Z.max 0 d) (chunks e1) (delays e1)) =
      pool_patience e1) as Heq by done.
    split; [split; [done|rewrite Heq; lia|done]|by rewrite Heq].
  - destruct Hrec as (-> & Hn). split; [done|]. split; [by split|]. rewrite Hn in Ha. by apply Permutation_nil_l in Ha.
Qed.

(** *** The laws, for the states of this walk *)

Definition running_pool : Type := { e : world_state | ok e }.

Definition keeping {R} (op : world_state -> R * world_state) (Hop : forall e, ok e -> ok (snd (op e)))
    (e : running_pool) : R * running_pool :=
  (fst (op (`e)), exist _ (snd (op (`e))) (Hop _ (proj2_sig e))).

Lemma load_stop_ok e : ok e -> ok (snd (pool_load_stop e)).
Proof. intros He. apply (advance_future e He). Qed.

Lemma now_ok e : ok e -> ok (snd (pool_now e)).
Proof. intros He. pose proof (pool_now_future e He) as H. destruct (pool_now e). apply H. Qed.

Lemma try_recv_ok e : ok e -> ok (snd (pool_try_recv e)).
Proof.
  intros He. unfold pool_try_recv. destruct (advance_future e He) as (Ho & _).
  pose proof (receive_spec _ Ho) as H.
  destruct (receive (advance e)) as [[o|[|]] e']; simpl; [apply H|by destruct H as [-> _]..].
Qed.

Lemma recv_timeout_ok d e : ok e -> ok (snd (pool_recv_timeout d e)).
Proof.
  intros He. pose proof (pool_recv_timeout_spec d e He) as H.
  destruct (pool_recv_timeout d e) as [[o|[|]] e']; apply H.
Qed.

Lemma yield_ok e : ok e -> ok (advance e).
Proof. intros He. apply (advance_future e He). Qed.

Definition running_yield_now (e : running_pool) : running_pool :=
  exist ok (advance (proj1_sig e)) (yield_ok _ (proj2_sig e)).

#[global] Instance running_world : World running_pool (Ordered.t Read) := {
  load_stop := keeping pool_load_stop load_stop_ok;
  now := keeping pool_now now_ok;
  try_recv := keeping pool_try_recv try_recv_ok;
  recv_timeout d := keeping (pool_recv_timeout d) (recv_timeout_ok d);
  yield_now := running_yield_now;
}.

#[local] Obligation Tactic := idtac.

#[global] Program Instance running_laws :
    WorldLaws running_pool (Ordered.t Read) STRICT_WAIT_TIMEOUT := {
  arrivals r := pool_arrivals (proj1_sig r);
  patience r := pool_patience (proj1_sig r);
  running _ := True;
  clock r := time (proj1_sig r);
}.
Next Obligation.
  intros [e He] b e' [= <- <-]. simpl. destruct (advance_future e He) as (Ho & [Ha Hp _] & Hti & _).
  split_and!; [by split|done|]. intros _. apply Ho.
Qed.
Next Obligation.
  intros [e He] x e' [= <- <-]. simpl. pose proof (pool_now_future e He) as H. generalize (now_ok e He).
  destruct (pool_now e) as [x e']. simpl. intros Ho'. destruct H as (Ho & [Ha Hp _] & Hti & Hle & Hlt).
  split_and!; [by split|done|done|]. intros Hs. apply Hlt. unfold STRICT_WAIT_TIMEOUT in Hs. lia.
Qed.
Next Obligation.
  intros [e He] r e' [= <- <-]. simpl. generalize (try_recv_ok e He). unfold pool_try_recv.
  destruct (advance_future e He) as (Ho & [Ha Hp _] & Hti & _).
  pose proof (receive_spec _ Ho) as H. destruct (receive (advance e)) as [[o|[|]] e']; simpl; intros Ho'.
  - destruct H as (_ & [Ha' Hp' _] & Hti'). split; [by rewrite Hti'|].
    split; simpl; [by rewrite <- Ha|lia|done].
  - destruct H as [-> _]. split; [done|]. by split.
  - destruct H as [-> _]. split; [done|]. by split.
Qed.
Next Obligation.
  intros d [e He] r e' [= <- <-]. simpl. pose proof (pool_recv_timeout_spec d e He) as H.
  generalize (recv_timeout_ok d e He).
  destruct (pool_recv_timeout d e) as [[o|[|]] e']; simpl; intros Ho'.
  - destruct H as (_ & [Ha Hp _]). by split.
  - destruct H as (_ & [Ha Hp _] & Hlt). split; [by split|done].
  - destruct H as (_ & [Ha Hp _] & Hn). split; [by split|done].
Qed.
Next Obligation.
  intros [e He]. simpl. destruct (advance_future e He) as (_ & [Ha Hp _] & _). by split.
Qed.

(** The operations do not depend on the proofs. *)
Lemma running_map : world_map (@proj1_sig world_state ok).
Proof.
  split; [intros r; exact (surjective_pairing _)..| |done].
  intros d r. exact (surjective_pairing (pool_recv_timeout d (proj1_sig r))).
Qed.

(** A new queue of results, the walk being under way. *)
Lemma concurrent_stream chunks delays max fuel :
  sized t ->
  (length (labels [0%Z] t) + work (init [spec]) + length chunks + length delays < fuel)%nat ->
  yields (OrderedQueueIter.next fuel)
    (OrderedQueueIter.new_ordered_queue max, new_world spec chunks delays) (labels [0] t).
Proof.
  intros Hs Hf. assert (ok (new_world spec chunks delays)) as Ho by (split; [constructor|done]).
  pose proof (live_unsent (init [spec]) Ho) as Hu. simpl in Hu.
  set (e := exist ok _ Ho : running_pool).
  destruct (new_stream t max fuel e) as (l & Hy & _ & Hl); [done|exact Hu| |].
  - apply Permutation_length in Hu. simpl. unfold pool_arrivals, pool_patience. simpl. lia.
  - rewrite (Hl I) in Hy. exact (MapFacts.yields_next_map _ running_map fuel _ e _ Hy).
Qed.
End PoolWorld.

(** ** What the consumer promises while the walk is going on *)

(** C4: the ordered queue consumed while the pool is at work: for a callback that keeps the
    [streaming_contract], whatever the steps the pool makes between two operations of the
    consumer and the time they take, whatever the size of the reorder buffer, with a thread
    and room in the channels for the directories of a finite tree, the consumer gets every
    result, in strict depth-first order, and then ends: the pool closing its channel is the
    end, never a result lost. *)
Theorem concurrent_walk_dfs {P : Platform} {C : ClientState} (callback : ReadDirCallback C)
    num_threads capacity valid read spec t :
  streaming_contract callback valid read -> valid spec -> reads read spec t -> sized t ->
  Z.of_nat (length (labels [0] t)) + 2 * Z.of_nat num_threads <= usize_max ->
  (0 < num_threads)%nat -> (length (labels [0%Z] t) <= capacity)%nat ->
  exists n, forall chunks delays max fuel,
    (n + length chunks + length delays < fuel)%nat ->
    yields (OrderedQueueIter.next (HW := pool_world callback num_threads capacity) fuel)
      (OrderedQueueIter.new_ordered_queue max, new_world spec chunks delays) (labels [0] t).
Proof.
  intros HC Hv Ht Hsz Hb Hnt Hcap.
  set (W := Build_rooted_walk callback num_threads capacity valid read spec t HC Hv Ht Hb Hnt Hcap).
  exists (length (labels [0%Z] t) + work _ _ _ W (init [spec]))%nat. intros chunks delays max fuel Hf.
  by apply (concurrent_stream _ _ _ W).
Qed.

(** ** Witness: the sample, walked by two threads while it is consumed *)

(** The pool takes [/r] up and makes seven steps of its reading before the first operation
    of the consumer; its iterator and another call go on before the next ones; then the
    consumer is delayed for a second, and nothing moves for two operations. *)
Definition sample_chunks : list (list action) :=
  [repeat TryNext 5 ++ repeat (Work 0) 7; repeat TryNext 6; [Work 1; Work 1; Work 1]; []; []].

Definition sample_world : world_state :=
  new_world (sample_spec 0 (bytes "/r")) sample_chunks [5; 1000000000].

Abbreviation sample_pool_world := (pool_world sample_streaming_callback 2 8).

Lemma concurrent_walk_dfs_witness :
  exists n, forall fuel, (n + 7 < fuel)%nat ->
    yields (OrderedQueueIter.next (HW := sample_pool_world) fuel)
      (OrderedQueueIter.new_ordered_queue 1, sample_world) (labels [0] sample_streamed_tree).
Proof.
  destruct (concurrent_walk_dfs sample_streaming_callback 2 8 (fun _ => True) sample_streamed_read
    (sample_spec 0 (bytes "/r")) sample_streamed_tree sample_streaming_contract I
    sample_streamed_reads sample_streamed_sized) as [n Hn]; [by vm_compute|lia|vm_compute; lia|].
  exists n. intros fuel Hf. apply Hn. simpl. lia.
Defined.

(** The same, computed. *)
Example sample_concurrent_run :
  take_n (OrderedQueueIter.next (HW := sample_pool_world) 40) 4
    (OrderedQueueIter.new_ordered_queue 1, sample_world) =
  Ret (map Some (labels [0] sample_streamed_tree) ++ [None]).
Proof. vm_refl. Qed.

Example sample_idle_run :
  take_n (OrderedQueueIter.next (HW := sample_pool_world) 40) 4
    (OrderedQueueIter.new_ordered_queue 0, new_world (sample_spec 0 (bytes "/r")) [] []) =
  Ret (map Some (labels [0] sample_streamed_tree) ++ [None]).
Proof. vm_refl. Qed.
