(* ===== verification/Abandon.v ===== *)
(** * Dropping the iterator before the end: [Drop for DirEntryIter]

    [DirEntryIter::drop] sets the stop flag and the receiver of the results goes away;
    the pool is left alone.  [ParStop] shows that it can then hang, when calls wait for
    room in the channel of directories; here there is room for what the calls under way
    may still schedule, and the pool ends.  [WalkDrop] bounds that for the readers. *)
From S2P Require Import Prelude Order Tree World Std Error Metadata Platform DirEntry.
From S2P Require Import OrderedQueue ReadDirIter DirEntryIter Callback ParWalk ParComplete ParStop.

Section Abandon.
Context {P : Platform} {C : ClientState} (callback : ReadDirCallback C) (num_threads channel_capacity : nat).
Abbreviation step := (step callback num_threads channel_capacity).
Abbreviation run := (run callback num_threads channel_capacity).
Implicit Types (s : state C) (wk : worker C).

(** The most that a run of a callback may schedule, whatever the answers of [schedule] and
    [is_stopped], and then [after] what it returns. *)
Fixpoint max_pushes {R} (after : R -> nat) (c : run_of C R) : nat :=
  match c with
  | Returns r => after r
  | Schedule _ k => Nat.max (S (max_pushes after (k true))) (max_pushes after (k false))
  | IsStopped k => Nat.max (max_pushes after (k true)) (max_pushes after (k false))
  end.

(** What the call schedules itself after the callback. *)
Definition own_pushes (w : Weighted.t (ReadDirSpec.t C)) (r : Result (ReadDir.t C)) : nat :=
  length (default [] (regular_specs r (Weighted.index_path w) (Weighted.weight w))).

Definition pushes_left wk : nat :=
  match wk with
  | Starting _ | Completing => 0
  | Calling w c _ => max_pushes (own_pushes w) c
  | Sending _ specs => length specs
  | Scheduling specs _ => length specs
  end.

(** There is room for all of it. *)
Definition roomy s : Prop :=
  (length (spec_chan s) + sum_list_with pushes_left (workers s) <= channel_capacity)%nat.

Lemma walk_dir_step_pushes s wk s1 o :
  stop s = true \/ (forall w, wk <> Starting w) ->
  walk_dir_step callback channel_capacity s wk = Some (s1, o) ->
  (length (spec_chan s1) + sum_list_with pushes_left (option_list o) <=
    length (spec_chan s) + pushes_left wk)%nat.
Proof.
  unfold walk_dir_step, push, send_read_dir_result, complete_item, pushes_left, own_pushes. intros Hs E.
  destruct wk as [w|w [r|each k|k] pc|o' specs|[|each specs] pc|];
    [destruct Hs as [Hs|Hs]; [rewrite Hs in E; by simplify_eq/=|by destruct (Hs w)]|..];
    repeat (case_match; simplify_eq/=); simplify_eq/=; rewrite ?length_app; simpl;
    try destruct (stop _); lia.
Qed.

Lemma step_roomy a s s' : stop s = true -> roomy s -> step a s = Some s' -> roomy s'.
Proof.
  unfold roomy. intros Hs Hr E. destruct a.
  - apply work_inv in E as (l1 & wk & l2 & s1 & o & Hw & Ew & ->).
    apply walk_dir_step_pushes in Ew; [|by left].
    rewrite Hw, sum_list_with_app in Hr. simpl in *. rewrite !sum_list_with_app. lia.
  - simpl in E. unfold try_next_step in E.
    repeat (case_match; simplify_eq/=); rewrite ?sum_list_with_app;
      repeat match goal with H : spec_chan _ = _ |- _ => rewrite H in * end; simpl in *; lia.
  - simpl in E. by repeat (case_match; simplify_eq/=).
  - simpl in E. by repeat (case_match; simplify_eq/=).
  - simpl in E. by simplify_eq/=.
  - simpl in E. by repeat (case_match; simplify_eq/=).
Qed.

Lemma run_roomy l s s' : stop s = true -> roomy s -> run l s = Some s' -> roomy s'.
Proof.
  revert s. induction l as [|a l IH]; intros s Hs Hr E; cbn [ParWalk.run] in E; [by simplify_eq|].
  destruct (step a s) as [s1|] eqn:Es; [|done]. apply (IH s1); [|by eapply step_roomy|done].
  by eapply step_flags.
Qed.

(** A call that waits has something to push. *)
Lemma roomy_not_full s :
  roomy s -> workers s <> [] -> forallb blocked (workers s) = true ->
  (length (spec_chan s) < channel_capacity)%nat.
Proof.
  unfold roomy. destruct (workers s) as [|wk wks]; [done|]. simpl. intros Hr _ Hb.
  apply andb_true_iff in Hb as [Hb _].
  assert (1 <= pushes_left wk)%nat; [|lia].
  destruct wk as [w|w [r|each k|k] []|o specs|[|each specs] []|]; simpl in *; try done; lia.
Qed.

(** *** A walk whose directories have at most [fan_out] sub-directories *)

Context (valid : ReadDirSpec.t C -> Prop) (read : ReadDirSpec.t C -> Result (ReadDir.t C)).
Context (spec : ReadDirSpec.t C) (t : tree (Result (ReadDir.t C))) (fan_out : nat).
Context (HC : streaming_contract callback valid read) (Hvalid : valid spec)
  (Ht : reads read spec t)
  (Hfan : forall w ctx, valid (Weighted.value w) ->
     (max_pushes (own_pushes w) (callback (Weighted.value w) (Some ctx)) <= fan_out)%nat)
  (Hroom : (length (labels [0%Z] t) + num_threads * fan_out <= channel_capacity)%nat).
Abbreviation reachable := (reachable callback num_threads channel_capacity).

Lemma walk_dir_step_fan s wk s1 o :
  (pushes_left wk <= fan_out)%nat -> Forall valid (map Weighted.value (remaining wk)) ->
  walk_dir_step callback channel_capacity s wk = Some (s1, o) ->
  (sum_list_with pushes_left (option_list o) <= fan_out)%nat.
Proof.
  unfold walk_dir_step, push, send_read_dir_result, complete_item, pushes_left, own_pushes. intros Hp Hv E.
  destruct wk as [w|w [r|each k|k] pc|o' specs|[|each specs] pc|];
    repeat (case_match; simplify_eq/=); simplify_eq/=;
    try (first [lia|destruct (stop _); lia]).
  apply Forall_cons in Hv as [Hv _]. rewrite Nat.add_0_r. by apply Hfan.
Qed.

Lemma covers_valid ws l : covers valid read ws l -> Forall valid (map Weighted.value ws).
Proof. induction 1; simpl; by constructor. Qed.

(** While the walk is not stopped, every call schedules at most [fan_out] directories. *)
Lemma live_fan s :
  reachable (init [spec]) s -> stop s = false ->
  Forall (fun wk => pushes_left wk <= fan_out)%nat (workers s).
Proof.
  induction 1 as [|s a s' Hr IH E]; intros Hst; [constructor|].
  pose proof (step_stop _ _ _ _ _ _ E Hst) as Hst0. specialize (IH Hst0). destruct a.
  - destruct (reachable_accounts callback num_threads channel_capacity valid read spec t HC Hvalid Ht
      s Hr Hst0) as (l & Hc & _).
    apply covers_valid in Hc. unfold items in Hc. rewrite !map_app in Hc.
    apply Forall_app in Hc as [_ Hc]. apply Forall_app in Hc as [_ Hc].
    apply work_inv in E as (l1 & wk & l2 & s1 & o & Hw & Ew & ->). simpl.
    rewrite Hw in *. rewrite flat_map_app, map_app in Hc. apply Forall_app in Hc as [_ Hc].
    simpl in Hc. rewrite map_app in Hc. apply Forall_app in Hc as [Hc _].
    apply Forall_app in IH as [IH1 IH2]. apply Forall_cons in IH2 as [IHw IH2].
    pose proof (walk_dir_step_fan _ _ _ _ IHw Hc Ew) as Ho.
    apply Forall_app. split; [done|]. apply Forall_app. split; [|done].
    destruct o; simpl in *; repeat constructor. lia.
  - simpl in E. unfold try_next_step in E.
    repeat (case_match; simplify_eq/=); try done. apply Forall_app. split; [done|]. repeat constructor. simpl. lia.
  - simpl in E. by repeat (case_match; simplify_eq/=).
  - simpl in E. by repeat (case_match; simplify_eq/=).
  - simpl in E. by simplify_eq/=.
  - simpl in E. by repeat (case_match; simplify_eq/=).
Qed.

Lemma sum_list_bound ws :
  Forall (fun wk => pushes_left wk <= fan_out)%nat ws ->
  (sum_list_with pushes_left ws <= length ws * fan_out)%nat.
Proof. induction 1; simpl; lia. Qed.

Lemma live_roomy s : reachable (init [spec]) s -> stop s = false -> roomy s.
Proof.
  intros Hr Hst. pose proof (sum_list_bound _ (live_fan s Hr Hst)) as Hsum.
  destruct (reachable_accounts callback num_threads channel_capacity valid read spec t HC Hvalid Ht
    s Hr Hst) as (l & Hc & Hl).
  apply covers_length in Hc. apply Permutation_length in Hl.
  unfold items, results in *. rewrite !length_app in *.
  pose proof (sane_threads _ _ (reachable_sane _ _ _ _ _ Hr)).
  unfold roomy. nia.
Qed.
End Abandon.

(** The iterator dropped at any moment of a walk, with room in the channel of
    directories for those of the tree and for what the calls under way may schedule: the
    pool makes a bounded number of further steps, whatever the interleaving, and as long
    as it can make none it has ended; no thread is left behind. *)
Theorem abandoned_walk_ends {P : Platform} {C : ClientState} (callback : ReadDirCallback C)
    num_threads capacity valid read spec t fan_out (s s1 s' : state C) l :
  streaming_contract callback valid read -> valid spec -> reads read spec t ->
  (0 < num_threads)%nat ->
  (forall w ctx, valid (Weighted.value w) ->
    (max_pushes (own_pushes w) (callback (Weighted.value w) (Some ctx)) <= fan_out)%nat) ->
  (length (labels [0%Z] t) + num_threads * fan_out <= capacity)%nat ->
  reachable callback num_threads capacity (init [spec]) s -> stop s = false ->
  run callback num_threads capacity [SetStop; CloseResults] s = Some s1 ->
  run callback num_threads capacity l s1 = Some s' ->
  (length (List.filter of_pool l) + steps_left s' <= steps_left s1)%nat /\
  ((exists a s'', of_pool a = true /\ step callback num_threads capacity a s' = Some s'') \/
   iter s' = IEnded /\ workers s' = []).
Proof.
  intros HC Hv Ht Hn Hfan Hroom Hr Hst E1 E. simpl in E1. simplify_eq.
  pose proof (live_roomy _ _ _ _ _ _ _ _ HC Hv Ht Hfan Hroom s Hr Hst) as Hs.
  match type of E with ParWalk.run _ _ _ _ ?x = _ => set (s1 := x) in * end.
  destruct (run_stopped _ _ _ l s1 s' eq_refl E) as [Hb _]. split; [done|].
  destruct (stopped_pool_state _ _ _ l s1 s' Hn eq_refl eq_refl E) as [Hd|[Hd|(_ & Hw & Hbl & Hfull)]]; [by left|by right|].
  assert (roomy capacity s') as Hs' by (by eapply (run_roomy _ _ _ l s1)).
  pose proof (roomy_not_full _ _ Hs' Hw Hbl). lia.
Qed.

(** ** Witness: the sample, left while its root is being read *)

Lemma sample_fan w ctx :
  (max_pushes (own_pushes w) (sample_streaming_callback (Weighted.value w) (Some ctx)) <= 2)%nat.
Proof.
  unfold sample_streaming_callback, sample_streamed_read, sample_callback.
  repeat case_decide; simpl; vm_compute; lia.
Qed.

Definition sample_dropped : state unit_client :=
  play sample_streaming_callback 2 8 (repeat TryNext 5 ++ repeat (Work 0) 3) sample_init.

(** What is left of the walk when nothing hinders it. *)
Definition sample_rest : list action :=
  sample_schedule sample_streaming_callback 2 8 100
    (play sample_streaming_callback 2 8 [SetStop; CloseResults] sample_dropped).

Lemma abandoned_walk_ends_witness :
  exists s1 s', run sample_streaming_callback 2 8 [SetStop; CloseResults] sample_dropped = Some s1 /\
    run sample_streaming_callback 2 8 sample_rest s1 = Some s' /\
    (length (List.filter of_pool sample_rest) + steps_left s' <= steps_left s1)%nat /\
    iter s' = IEnded /\ workers s' = [].
Proof.
  set (s1 := play sample_streaming_callback 2 8 [SetStop; CloseResults] sample_dropped).
  assert (run sample_streaming_callback 2 8 [SetStop; CloseResults] sample_dropped = Some s1) as E1
    by (apply play_run; vm_refl).
  assert (run sample_streaming_callback 2 8 sample_rest s1 =
    Some (play sample_streaming_callback 2 8 sample_rest s1)) as E by (apply play_run; vm_refl).
  destruct (abandoned_walk_ends sample_streaming_callback 2 8 (fun _ => True) sample_streamed_read
    (sample_spec 0 (bytes "/r")) sample_streamed_tree 2 sample_dropped s1 _ sample_rest
    sample_streaming_contract I sample_streamed_reads ltac:(lia) (fun w ctx _ => sample_fan w ctx)
    ltac:(vm_compute; lia) (play_reachable _ _ _ _ _) ltac:(vm_refl) E1 E) as [Hb _].
  exists s1, (play sample_streaming_callback 2 8 sample_rest s1).
  split_and!; [exact E1|exact E|exact Hb|vm_refl..].
Defined.
