(* ===== verification/UnixEnum.v ===== *)
(** * Directory enumeration on Linux: [unix_dir_enum.rs]

    Memory is a list of bytes; reading outside of it is undefined behaviour in
    the source and [Panic] here, so a theorem that an enumeration returns shows
    that its [unsafe] code stays inside the buffer.  The system calls are the
    fields of [Sys]; [dirent_bytes] is the record format [getdents64] documents. *)
From S2P Require Import Prelude Std Bytes Error Metadata.

(** ** C strings *)

(** [libc::strlen]: the bytes before the first NUL; reading on past the end of
    the buffer is undefined. *)
Fixpoint c_str (l : list Z) : exec (list Z) :=
  match l with
  | [] => Panic
  | b :: l' => if b =? 0 then Ret [] else let! r := c_str l' in Ret (b :: r)
  end.

(** [CString::new]: the bytes, unless one of them is NUL. *)
Definition CString_new (b : list Z) : option (list Z) :=
  if bool_decide (0 ∈ b) then None else Some b.

Definition invalid_input (msg : string) : io_Error := Message InvalidInput msg.

(** ** System calls *)

(** [K] is the state of the kernel as far as this process observes it. *)
Class Sys (K : Type) := {
  sys_open_dir : list Z -> K -> result Z io_Error * K;
  (** [getdents64 fd size]: the bytes written at the start of the buffer *)
  sys_getdents64 : Z -> Z -> K -> result (list Z) io_Error * K;
  sys_close : Z -> K -> K;
  (** [fstatat] and [statx] with [AT_SYMLINK_NOFOLLOW] *)
  sys_fstatat : Z -> list Z -> K -> result stat io_Error * K;
  sys_statx : Z -> list Z -> K -> result statx io_Error * K;
}.

Definition open_dir_fd `{Sys K} (path : Path) (s : K) : result Z io_Error * K :=
  match CString_new path with
  | None => (Err (invalid_input "path contains NUL byte"), s)
  | Some cstr => sys_open_dir cstr s
  end.

Definition fstatat_metadata `{Sys K} (dirfd : Z) (name : OsString) (s : K) :
    result stat io_Error * K :=
  match CString_new name with
  | None => (Err (invalid_input "name contains NUL byte"), s)
  | Some cstr => sys_fstatat dirfd cstr s
  end.

Definition statx_metadata `{Sys K} (dirfd : Z) (name : OsString) (s : K) :
    result statx io_Error * K :=
  match CString_new name with
  | None => (Err (invalid_input "name contains NUL byte"), s)
  | Some cstr => sys_statx dirfd cstr s
  end.

(** ** File types *)

Definition DT_UNKNOWN : Z := 0.
Definition DT_FIFO : Z := 1.
Definition DT_CHR : Z := 2.
Definition DT_DIR : Z := 4.
Definition DT_BLK : Z := 6.
Definition DT_REG : Z := 8.
Definition DT_LNK : Z := 10.
Definition DT_SOCK : Z := 12.

(** The bytes of the mode written into a zeroed [FileType] and read back: on
    Linux [FileType] holds the [mode_t] in its first four bytes. *)
Definition FT_SIZE : nat := 4.
Definition MODE_SIZE : nat := 4.

Definition file_type_from_mode (mode : Z) : FileType :=
  let buf := repeat 0 FT_SIZE in
  let buf := to_le_bytes MODE_SIZE mode ++ drop MODE_SIZE buf in
  mk_file_type (of_le_bytes (take MODE_SIZE buf)).

Definition file_type_from_dtype (d_type : Z) : option FileType :=
  if d_type =? DT_DIR then Some (file_type_from_mode S_IFDIR)
  else if d_type =? DT_REG then Some (file_type_from_mode S_IFREG)
  else if d_type =? DT_LNK then Some (file_type_from_mode S_IFLNK)
  else if d_type =? DT_FIFO then Some (file_type_from_mode S_IFIFO)
  else if d_type =? DT_SOCK then Some (file_type_from_mode S_IFSOCK)
  else if d_type =? DT_BLK then Some (file_type_from_mode S_IFBLK)
  else if d_type =? DT_CHR then Some (file_type_from_mode S_IFCHR)
  else None.

(** ** Parsing *)

Definition DIRENT_NAME_OFFSET : Z := 19.
Definition DENTS_BUF_SIZE : Z := 64 * 1024.

(** [size_of::<LinuxDirent64>()]: 19 bytes of fields, rounded up to the alignment of [u64]. *)
Definition header_size : Z := 24.

(** The fields of the record at [offset]. *)
Definition d_reclen (buf : list Z) (offset : Z) : Z :=
  of_le_bytes (take 2 (bytes_at buf (offset + 16))).
Definition d_type_at (buf : list Z) (offset : Z) : exec Z :=
  unwrap (head (bytes_at buf (offset + 18))).

(** [parse_dirents]: the calls [on_entry(d_type, name)], in order; one unit of fuel
    per turn of the loop. *)
Fixpoint parse_dirents_loop (fuel : nat) (buf : list Z) (len offset : Z) :
    exec (list (Z * OsString)) :=
  match fuel with
  | O => NoFuel
  | S fuel' =>
      if offset + header_size <=? len then
        let reclen := d_reclen buf offset in
        if (reclen =? 0) || (len <? offset + reclen) then Ret []
        else
          let! d_type := d_type_at buf offset in
          let! name := c_str (bytes_at buf (offset + DIRENT_NAME_OFFSET)) in
          let! rest := parse_dirents_loop fuel' buf len (offset + reclen) in
          Ret ((d_type, name) :: rest)
      else Ret []
  end.

(** Every turn advances by at least one byte. *)
Definition parse_dirents (buf : list Z) (len : Z) : exec (list (Z * OsString)) :=
  parse_dirents_loop (S (Z.to_nat len)) buf len 0.

(** ** Enumeration *)

Record LinuxDirEntryOwned := mk_linux_entry {
  le_d_type : Z;
  le_name : OsString;
  le_statx : option statx;
}.

Definition is_dot (name : OsString) : bool :=
  bool_decide (name = [DOT]) || bool_decide (name = [DOT; DOT]).

(** The entries one call of [parse_dirents] pushes. *)
Definition owned_entries (l : list (Z * OsString)) : list LinuxDirEntryOwned :=
  omap (fun '(d_type, name) =>
    if is_dot name then None else Some (mk_linux_entry d_type name None)) l.

(** [with_tls_buffer]: the buffer, of at least [DENTS_BUF_SIZE] bytes, cut to that size. *)
Definition with_tls_buffer (tls : list Z) : list Z :=
  let tls :=
    if Z.of_nat (length tls) <? DENTS_BUF_SIZE
    then tls ++ repeat 0 (Z.to_nat DENTS_BUF_SIZE - length tls) else tls in
  take (Z.to_nat DENTS_BUF_SIZE) tls.

Section Enumerate.
Context {K : Type} {HS : Sys K}.

(** The loop of both enumerations, [on_batch] being what is done with the entries
    of one buffer; [buf] keeps what earlier calls have left in it. *)
Fixpoint getdents_loop {U} (on_batch : list LinuxDirEntryOwned -> U -> U) (fuel : nat)
    (fd : Z) (buf : list Z) (u : U) (s : K) : exec (result unit io_Error * U * K) :=
  match fuel with
  | O => NoFuel
  | S fuel' =>
      match sys_getdents64 fd (Z.of_nat (length buf)) s with
      | (Err e, s) => Ret (Err e, u, s)
      | (Ok written, s) =>
          let n := Z.of_nat (length written) in
          if n =? 0 then Ret (Ok tt, u, s)
          else
            let buf := written ++ drop (length written) buf in
            let! l := parse_dirents buf n in
            getdents_loop on_batch fuel' fd buf (on_batch (owned_entries l) u) s
      end
  end.

Definition enumerate_dir_unix (fuel : nat) (path : Path) (tls : list Z) (s : K) :
    exec (result (Z * list LinuxDirEntryOwned) io_Error * K) :=
  match open_dir_fd path s with
  | (Err e, s) => Ret (Err e, s)
  | (Ok fd, s) =>
      let! r := getdents_loop (fun batch entries => entries ++ batch) fuel fd
                  (with_tls_buffer tls) [] s in
      let '(result, entries, s) := r in
      match result with
      | Ok _ => Ret (Ok (fd, entries), s)
      | Err e => Ret (Err e, sys_close fd s)
      end
  end.

(** The closure of the streaming enumeration: [on_subdir] for a sub-directory,
    before it is pushed. *)
Definition stream_entry {V} (on_subdir : LinuxDirEntryOwned -> V -> V)
    (owned : LinuxDirEntryOwned) (u : list LinuxDirEntryOwned * V) :
    list LinuxDirEntryOwned * V :=
  let '(entries, v) := u in
  let v := if le_d_type owned =? DT_DIR then on_subdir owned v else v in
  (entries ++ [owned], v).

Definition stream_batch {V} (on_subdir : LinuxDirEntryOwned -> V -> V)
    (batch : list LinuxDirEntryOwned) (u : list LinuxDirEntryOwned * V) :
    list LinuxDirEntryOwned * V :=
  fold_left (fun u owned => stream_entry on_subdir owned u) batch u.

(** [v] is what [on_subdir] has captured. *)
Definition enumerate_dir_unix_streaming {V} (on_subdir : LinuxDirEntryOwned -> V -> V)
    (fuel : nat) (path : Path) (tls : list Z) (v : V) (s : K) :
    exec (result (Z * list LinuxDirEntryOwned) io_Error * V * K) :=
  match open_dir_fd path s with
  | (Err e, s) => Ret (Err e, v, s)
  | (Ok fd, s) =>
      let! r := getdents_loop (stream_batch on_subdir) fuel fd (with_tls_buffer tls) ([], v) s in
      let '(result, (entries, v), s) := r in
      match result with
      | Ok _ => Ret (Ok (fd, entries), v, s)
      | Err e => Ret (Err e, v, sys_close fd s)
      end
  end.
End Enumerate.

(** ** The record format *)

(** A record as the kernel writes it: the length is rounded up to a multiple of 8. *)
Record dirent := mk_dirent {
  de_ino : Z; de_off : Z; de_type : Z; de_name : OsString;
}.

Definition dirent_reclen (d : dirent) : Z :=
  8 * ((DIRENT_NAME_OFFSET + Z.of_nat (length (de_name d)) + 1 + 7) / 8).

Definition dirent_bytes (d : dirent) : list Z :=
  to_le_bytes 8 (de_ino d) ++ to_le_bytes 8 (de_off d) ++
  to_le_bytes 2 (dirent_reclen d) ++ [de_type d] ++ de_name d ++
  repeat 0 (Z.to_nat (dirent_reclen d - DIRENT_NAME_OFFSET - Z.of_nat (length (de_name d)))).

(** A name has no NUL, and the length of the record fits its field. *)
Record dirent_ok (d : dirent) : Prop := {
  dirent_ok_name : 0 ∉ de_name d;
  dirent_ok_len : dirent_reclen d < 2 ^ 16;
}.

Lemma dirent_reclen_bounds d :
  header_size <= dirent_reclen d /\
  DIRENT_NAME_OFFSET + Z.of_nat (length (de_name d)) < dirent_reclen d.
Proof.
  unfold dirent_reclen, header_size, DIRENT_NAME_OFFSET.
  pose proof (Z.mod_bound_pos (19 + Z.of_nat (length (de_name d)) + 1 + 7) 8).
  pose proof (Z.div_mod (19 + Z.of_nat (length (de_name d)) + 1 + 7) 8). lia.
Qed.

Lemma length_dirent_bytes d : Z.of_nat (length (dirent_bytes d)) = dirent_reclen d.
Proof.
  pose proof (dirent_reclen_bounds d). unfold header_size, DIRENT_NAME_OFFSET in *.
  unfold dirent_bytes. rewrite !length_app, !length_to_le_bytes, repeat_length. simpl length.
  unfold DIRENT_NAME_OFFSET. lia.
Qed.

Lemma c_str_app name l : 0 ∉ name -> c_str (name ++ 0 :: l) = Ret name.
Proof.
  induction name as [|b name IH]; intros H; simpl; [done|].
  destruct (Z.eqb_spec b 0); [subst; set_solver|]. rewrite IH; [done|set_solver].
Qed.

(** The fields read from a record that starts the rest of the buffer. *)
Lemma dirent_fields d l :
  dirent_ok d ->
  d_reclen (dirent_bytes d ++ l) 0 = dirent_reclen d /\
  d_type_at (dirent_bytes d ++ l) 0 = Ret (de_type d) /\
  c_str (bytes_at (dirent_bytes d ++ l) DIRENT_NAME_OFFSET) = Ret (de_name d).
Proof.
  intros [Hn Hl]. pose proof (dirent_reclen_bounds d) as [_ Hb]. unfold DIRENT_NAME_OFFSET in *.
  unfold d_reclen, d_type_at, dirent_bytes. rewrite <- !app_assoc.
  set (ino := to_le_bytes 8 (de_ino d)). set (off := to_le_bytes 8 (de_off d)).
  assert (length ino = 8%nat /\ length off = 8%nat) as [H1 H2]
    by (by unfold ino, off; rewrite !length_to_le_bytes).
  assert (forall k X, 0 <= k -> bytes_at (ino ++ off ++ X) (16 + k) = bytes_at X k) as Hat.
  { intros k X Hk. rewrite app_assoc. replace 16 with (Z.of_nat (length (ino ++ off)))
      by (rewrite length_app; lia). by apply bytes_at_app. }
  split_and!.
  - rewrite (Hat 0) by lia. unfold bytes_at. rewrite drop_0.
    rewrite take_app_length' by (by rewrite length_to_le_bytes).
    rewrite of_to_le_bytes. apply Z.mod_small.
    unfold dirent_reclen in *. split; [|done]. apply Z.mul_nonneg_nonneg; [lia|].
    apply Z.div_pos; unfold DIRENT_NAME_OFFSET; lia.
  - by rewrite (Hat 2) by lia.
  - rewrite (Hat 3) by lia. unfold bytes_at. simpl drop. unfold DIRENT_NAME_OFFSET.
    destruct (Z.to_nat (dirent_reclen d - 19 - Z.of_nat (length (de_name d)))) as [|k] eqn:Ek;
      [lia|]. rewrite drop_0. simpl. by apply c_str_app.
Qed.

Definition dirents_bytes (ds : list dirent) : list Z := flat_map dirent_bytes ds.
Definition dirent_view (d : dirent) : Z * OsString := (de_type d, de_name d).

Lemma length_dirents_bytes ds :
  24 * Z.of_nat (length ds) <= Z.of_nat (length (dirents_bytes ds)).
Proof.
  induction ds as [|d ds IH]; [simpl; lia|].
  change (dirents_bytes (d :: ds)) with (dirent_bytes d ++ dirents_bytes ds).
  rewrite length_app, length_cons. pose proof (length_dirent_bytes d). pose proof (dirent_reclen_bounds d) as [? _].
  unfold header_size in *. lia.
Qed.

Lemma parse_loop_records fuel pre ds rest :
  Forall dirent_ok ds -> (length ds < fuel)%nat ->
  parse_dirents_loop fuel (pre ++ dirents_bytes ds ++ rest)
    (Z.of_nat (length pre) + Z.of_nat (length (dirents_bytes ds))) (Z.of_nat (length pre)) =
  Ret (map dirent_view ds).
Proof.
  intros Hok. revert fuel pre. induction Hok as [|d ds Hd _ IH]; intros fuel pre Hf;
    (destruct fuel as [|fuel]; [simpl in Hf; lia|]); cbn [parse_dirents_loop].
  - rewrite (proj2 (Z.leb_gt _ _)); [done|]. unfold header_size. simpl. lia.
  - change (dirents_bytes (d :: ds)) with (dirent_bytes d ++ dirents_bytes ds).
    rewrite <- !app_assoc.
    destruct (dirent_fields d (dirents_bytes ds ++ rest) Hd) as (E1 & E2 & E3).
    pose proof (dirent_reclen_bounds d) as [Hr _]. pose proof (length_dirent_bytes d) as Hl.
    unfold d_reclen, d_type_at in *.
    rewrite !bytes_at_app by (unfold DIRENT_NAME_OFFSET; lia).
    rewrite Z.add_0_l in E1, E2. rewrite E1, E2, E3, length_app.
    unfold header_size in *. rewrite (proj2 (Z.leb_le _ _)) by lia.
    rewrite (proj2 (Z.eqb_neq _ _)), (proj2 (Z.ltb_ge _ _)) by lia. cbn [orb exec_bind map].
    specialize (IH fuel (pre ++ dirent_bytes d) ltac:(simpl in Hf; lia)).
    rewrite <- app_assoc, length_app in IH. rewrite <- Hl.
    rewrite Nat2Z.inj_add in IH. rewrite Nat2Z.inj_add, Z.add_assoc. by rewrite IH.
Qed.

Lemma parse_records ds rest :
  Forall dirent_ok ds ->
  parse_dirents (dirents_bytes ds ++ rest) (Z.of_nat (length (dirents_bytes ds))) =
    Ret (map dirent_view ds).
Proof.
  intros Hok. pose proof (length_dirents_bytes ds). unfold parse_dirents.
  apply (parse_loop_records _ [] ds rest Hok). lia.
Qed.

(** C16: parsing a buffer of [getdents64] records, whatever follows them in the
    buffer, gives the type and the name of each record, in order, and never
    reads outside the buffer. *)
Theorem parse_dirents_roundtrip ds rest :
  Forall dirent_ok ds ->
  parse_dirents (dirents_bytes ds ++ rest) (Z.of_nat (length (dirents_bytes ds))) =
    Ret (map dirent_view ds).
Proof. apply parse_records. Qed.

(** ** Enumerating a directory *)

Section EnumerateSpec.
Context {K : Type} {HS : Sys K}.

(** What the successive calls of [getdents64] on [fd] return: batches of records
    that fit the buffer, then the end of the directory or an error. *)
Inductive dir_stream (fd : Z) : K -> list (list dirent) -> result unit io_Error -> K -> Prop :=
| stream_end s s' :
    sys_getdents64 fd DENTS_BUF_SIZE s = (Ok [], s') -> dir_stream fd s [] (Ok tt) s'
| stream_error s e s' :
    sys_getdents64 fd DENTS_BUF_SIZE s = (Err e, s') -> dir_stream fd s [] (Err e) s'
| stream_batch_of s b bs r s1 s' :
    b <> [] -> Forall dirent_ok b ->
    Z.of_nat (length (dirents_bytes b)) <= DENTS_BUF_SIZE ->
    sys_getdents64 fd DENTS_BUF_SIZE s = (Ok (dirents_bytes b), s1) ->
    dir_stream fd s1 bs r s' -> dir_stream fd s (b :: bs) r s'.

(** The entries of a directory, "." and ".." left out. *)
Definition entries_of (ds : list dirent) : list LinuxDirEntryOwned :=
  owned_entries (map dirent_view ds).

Lemma owned_entries_app l1 l2 : owned_entries (l1 ++ l2) = owned_entries l1 ++ owned_entries l2.
Proof. unfold owned_entries. apply omap_app. Qed.

Lemma length_written (b : list dirent) : b <> [] -> Z.of_nat (length (dirents_bytes b)) <> 0.
Proof. intros Hb. pose proof (length_dirents_bytes b). destruct b; [done|]. simpl in *. lia. Qed.

Lemma getdents_loop_spec {U} (on_batch : list LinuxDirEntryOwned -> U -> U) fd s bs r s' :
  dir_stream fd s bs r s' -> forall fuel buf u,
  (length bs < fuel)%nat -> Z.of_nat (length buf) = DENTS_BUF_SIZE ->
  getdents_loop on_batch fuel fd buf u s =
    Ret (r, fold_left (fun u b => on_batch (entries_of b) u) bs u, s').
Proof.
  induction 1 as [s s' E|s e s' E|s b bs r s1 s' Hb Hok Hlen E _ IH]; intros fuel buf u Hf Hbuf;
    (destruct fuel as [|fuel]; [simpl in Hf; lia|]); cbn [getdents_loop]; rewrite Hbuf, E.
  - done.
  - done.
  - rewrite (proj2 (Z.eqb_neq _ _)) by (by apply length_written).
    rewrite parse_records by done. cbn [exec_bind]. apply IH; [simpl in Hf; lia|].
    rewrite length_app, length_drop. lia.
Qed.

Lemma with_tls_buffer_length tls : Z.of_nat (length (with_tls_buffer tls)) = DENTS_BUF_SIZE.
Proof.
  assert (0 <= DENTS_BUF_SIZE) by done. unfold with_tls_buffer. rewrite length_take.
  destruct (Z.ltb_spec (Z.of_nat (length tls)) DENTS_BUF_SIZE);
    rewrite ?length_app, ?repeat_length; lia.
Qed.

Lemma fold_batches {U} (f : LinuxDirEntryOwned -> U -> U) (on_batch : list LinuxDirEntryOwned -> U -> U) bs u :
  (forall b u, on_batch b u = fold_left (fun u e => f e u) b u) ->
  fold_left (fun u b => on_batch (entries_of b) u) bs u =
    fold_left (fun u e => f e u) (entries_of (concat bs)) u.
Proof.
  intros Hf. revert u. induction bs as [|b bs IH]; intros u; simpl; [done|].
  rewrite IH, Hf. unfold entries_of. rewrite map_app, owned_entries_app, fold_left_app. done.
Qed.

Lemma fold_push (l entries : list LinuxDirEntryOwned) :
  fold_left (fun u e => u ++ [e]) l entries = entries ++ l.
Proof.
  revert entries. induction l as [|e l IH]; intros entries; simpl; [by rewrite app_nil_r|].
  by rewrite IH, <- app_assoc.
Qed.

Lemma plain_enumeration path cstr tls s fd s1 bs r s' fuel :
  CString_new path = Some cstr -> sys_open_dir cstr s = (Ok fd, s1) ->
  dir_stream fd s1 bs r s' -> (length bs < fuel)%nat ->
  enumerate_dir_unix fuel path tls s =
    Ret (match r with
         | Ok _ => (Ok (fd, entries_of (concat bs)), s')
         | Err e => (Err e, sys_close fd s')
         end).
Proof.
  intros Hc Ho Hs Hf. unfold enumerate_dir_unix, open_dir_fd. rewrite Hc, Ho.
  rewrite (getdents_loop_spec _ _ _ _ _ _ Hs) by (done || apply with_tls_buffer_length).
  cbn [exec_bind]. rewrite (fold_batches (fun e u => u ++ [e]) (fun b u => u ++ b)).
  - rewrite fold_push. by destruct r.
  - intros b u. by rewrite fold_push.
Qed.

(** The enumeration returns every entry of the directory except "." and
    "..", each once, in the order the kernel lists them, with the descriptor
    still open; on an error the descriptor is closed.  It stays inside its
    buffer whatever an earlier enumeration left there. *)
Theorem enumerate_dir_unix_spec path cstr tls s fd s1 bs r s' fuel :
  CString_new path = Some cstr -> sys_open_dir cstr s = (Ok fd, s1) ->
  dir_stream fd s1 bs r s' -> (length bs < fuel)%nat ->
  enumerate_dir_unix fuel path tls s =
    Ret (match r with
         | Ok _ => (Ok (fd, entries_of (concat bs)), s')
         | Err e => (Err e, sys_close fd s')
         end).
Proof. apply plain_enumeration. Qed.

(** What the streaming enumeration captures. *)
Lemma stream_fold {V} (on_subdir : LinuxDirEntryOwned -> V -> V) l entries v :
  stream_batch on_subdir l (entries, v) =
    (entries ++ l,
     fold_left (fun v e => on_subdir e v) (List.filter (fun e => le_d_type e =? DT_DIR) l) v).
Proof.
  unfold stream_batch. revert entries v. induction l as [|e l IH]; intros entries v; simpl.
  - by rewrite app_nil_r.
  - rewrite IH, <- app_assoc. by destruct (le_d_type e =? DT_DIR).
Qed.

Lemma streaming_enumeration {V} (on_subdir : LinuxDirEntryOwned -> V -> V)
    path cstr tls v s fd s1 bs r s' fuel :
  CString_new path = Some cstr -> sys_open_dir cstr s = (Ok fd, s1) ->
  dir_stream fd s1 bs r s' -> (length bs < fuel)%nat ->
  let v' := fold_left (fun v e => on_subdir e v)
              (List.filter (fun e => le_d_type e =? DT_DIR) (entries_of (concat bs))) v in
  enumerate_dir_unix_streaming on_subdir fuel path tls v s =
    Ret (match r with
         | Ok _ => (Ok (fd, entries_of (concat bs)), v', s')
         | Err e => (Err e, v', sys_close fd s')
         end).
Proof.
  intros Hc Ho Hs Hf v'. unfold enumerate_dir_unix_streaming, open_dir_fd. rewrite Hc, Ho.
  rewrite (getdents_loop_spec _ _ _ _ _ _ Hs) by (done || apply with_tls_buffer_length).
  cbn [exec_bind]. rewrite (fold_batches (stream_entry on_subdir)) by done.
  fold (stream_batch on_subdir (entries_of (concat bs)) ([], v)). rewrite stream_fold.
  by destruct r.
Qed.

(** C22: the streaming enumeration returns the same entries, and has called
    [on_subdir] once for each entry of type directory, in the order of the
    entries, also when it ends in an error. *)
Theorem enumerate_dir_unix_streaming_spec {V} (on_subdir : LinuxDirEntryOwned -> V -> V)
    path cstr tls v s fd s1 bs r s' fuel :
  CString_new path = Some cstr -> sys_open_dir cstr s = (Ok fd, s1) ->
  dir_stream fd s1 bs r s' -> (length bs < fuel)%nat ->
  let v' := fold_left (fun v e => on_subdir e v)
              (List.filter (fun e => le_d_type e =? DT_DIR) (entries_of (concat bs))) v in
  enumerate_dir_unix_streaming on_subdir fuel path tls v s =
    Ret (match r with
         | Ok _ => (Ok (fd, entries_of (concat bs)), v', s')
         | Err e => (Err e, v', sys_close fd s')
         end).
Proof. apply streaming_enumeration. Qed.
End EnumerateSpec.

(** ** File types without [stat] *)

(** [IFTODT], how the kernel derives [d_type] from the mode. *)
Definition dtype_of_mode (mode : Z) : Z := Z.shiftr (Z.land mode S_IFMT) 12.

Lemma dtype_kind mode : Z.land mode S_IFMT = Z.shiftl (dtype_of_mode mode) 12.
Proof.
  unfold dtype_of_mode. apply Z.bits_inj'. intros n Hn.
  rewrite Z.shiftl_spec, Z.land_spec by done. change S_IFMT with (Z.shiftl (Z.ones 4) 12).
  rewrite testbit_mask by lia. destruct (Z.leb_spec 12 n); simpl.
  - rewrite Z.shiftr_spec, Z.land_spec, testbit_mask by lia.
    replace (n - 12 + 12) with n by lia. by rewrite (proj2 (Z.leb_le 12 n)).
  - rewrite andb_false_r. rewrite Z.testbit_neg_r by lia. done.
Qed.

Lemma file_type_from_mode_eq mode : 0 <= mode < 2 ^ 32 -> file_type_from_mode mode = mk_file_type mode.
Proof.
  intros H. unfold file_type_from_mode. rewrite take_app_length'.
  - rewrite of_to_le_bytes. by rewrite Z.mod_small.
  - symmetry. apply length_to_le_bytes.
Qed.

(** The type taken from [d_type], when there is one, answers [is_dir],
    [is_file], [is_symlink] (and every other test of the kind) as the type taken
    from the [st_mode] of the same file. *)
Theorem file_type_from_dtype_agrees mode ft kind :
  0 <= mode < 2 ^ 32 -> file_type_from_dtype (dtype_of_mode mode) = Some ft ->
  ft_is ft kind = ft_is (file_type_from_mode mode) kind.
Proof.
  intros Hm E. rewrite file_type_from_mode_eq by done. unfold ft_is. simpl ft_mode.
  rewrite (dtype_kind mode). unfold file_type_from_dtype in E.
  repeat match type of E with context [Z.eqb ?a ?b] =>
    destruct (Z.eqb_spec a b) as [->|_]; [injection E as <-; f_equal; by vm_compute|] end. done.
Qed.

Lemma file_type_from_dtype_agrees_witness :
  file_type_from_dtype (dtype_of_mode 0x41ED) = Some (mk_file_type S_IFDIR) /\
  ft_is (mk_file_type S_IFDIR) S_IFDIR = ft_is (file_type_from_mode 0x41ED) S_IFDIR.
Proof.
  split; [by vm_compute|].
  apply (file_type_from_dtype_agrees 0x41ED (mk_file_type S_IFDIR) S_IFDIR); by vm_compute.
Defined.

(** ** Witnesses *)

Definition sample_dirents : list dirent :=
  [mk_dirent 1 1 DT_DIR (bytes "."); mk_dirent 7 2 DT_DIR (bytes "sub");
   mk_dirent 9 3 DT_REG (bytes "f.txt")].

(** Concrete records are well formed. *)
Ltac solve_dirents_ok :=
  repeat constructor; simpl; try (by vm_compute);
  repeat (apply not_elem_of_cons; split; [by vm_compute|]); apply not_elem_of_nil.

Lemma sample_dirents_ok : Forall dirent_ok sample_dirents.
Proof. solve_dirents_ok. Qed.

Lemma parse_dirents_roundtrip_witness :
  parse_dirents (dirents_bytes sample_dirents ++ [1; 2; 3]) 80 =
    Ret [(DT_DIR, bytes "."); (DT_DIR, bytes "sub"); (DT_REG, bytes "f.txt")].
Proof. exact (parse_dirents_roundtrip sample_dirents [1; 2; 3] sample_dirents_ok). Defined.

(** A kernel that serves the batches it holds, and remembers what was closed. *)
Record sample_kernel := mk_sample_kernel {
  sk_batches : list (list dirent); sk_closed : list Z;
}.

#[export] Instance sample_sys : Sys sample_kernel := {
  sys_open_dir _ k := (Ok 3, k);
  sys_getdents64 _ _ k :=
    match sk_batches k with
    | [] => (Ok [], k)
    | b :: bs => (Ok (dirents_bytes b), mk_sample_kernel bs (sk_closed k))
    end;
  sys_close fd k := mk_sample_kernel (sk_batches k) (fd :: sk_closed k);
  sys_fstatat _ _ k := (Err (Os 2 Other), k);
  sys_statx _ _ k := (Err (Os 2 Other), k);
}.

Definition sample_kernel_state : sample_kernel := mk_sample_kernel [sample_dirents] [].

Lemma sample_stream :
  dir_stream 3 sample_kernel_state [sample_dirents] (Ok tt) (mk_sample_kernel [] []).
Proof.
  eapply stream_batch_of; [done|apply sample_dirents_ok|by vm_compute|done|]. by constructor.
Qed.

Lemma enumerate_dir_unix_spec_witness :
  enumerate_dir_unix 2 (bytes "/r") [] sample_kernel_state =
    Ret (Ok (3, [mk_linux_entry DT_DIR (bytes "sub") None;
                 mk_linux_entry DT_REG (bytes "f.txt") None]), mk_sample_kernel [] []).
Proof.
  exact (enumerate_dir_unix_spec (bytes "/r") (bytes "/r") [] sample_kernel_state 3
    sample_kernel_state [sample_dirents] (Ok tt) _ 2 ltac:(by vm_compute) eq_refl
    sample_stream ltac:(simpl; lia)).
Defined.

Lemma enumerate_dir_unix_streaming_spec_witness :
  enumerate_dir_unix_streaming (fun e v => v ++ [le_name e]) 2 (bytes "/r") [] []
    sample_kernel_state =
    Ret (Ok (3, [mk_linux_entry DT_DIR (bytes "sub") None;
                 mk_linux_entry DT_REG (bytes "f.txt") None]), [bytes "sub"],
         mk_sample_kernel [] []).
Proof.
  exact (enumerate_dir_unix_streaming_spec (fun e v => v ++ [le_name e]) (bytes "/r") (bytes "/r")
    [] [] sample_kernel_state 3 sample_kernel_state [sample_dirents] (Ok tt) _ 2
    ltac:(by vm_compute) eq_refl sample_stream ltac:(simpl; lia)).
Defined.
