(* ===== verification/FsDetect.v ===== *)
(** * Choosing how to fetch metadata: [fs_detect.rs]

    The system calls, with the time they take, are the fields of [FsSys]; the
    per-worker cache is a finite map from device numbers. *)
From stdpp Require Import gmap.
From S2P Require Import Prelude Std Error UnixEnum.

Definition SMB_SUPER_MAGIC : Z := 0x517B.
Definition NFS_SUPER_MAGIC : Z := 0x6969.
Definition CIFS_MAGIC_NUMBER : Z := 0xFF534D42.
Definition SMB2_SUPER_MAGIC : Z := 0xFE534D42.
Definition EXT4_SUPER_MAGIC : Z := 0xEF53.
Definition XFS_SUPER_MAGIC : Z := 0x58465342.
Definition BTRFS_SUPER_MAGIC : Z := 0x9123683E.
Definition TMPFS_MAGIC : Z := 0x01021994.
Definition OVERLAYFS_SUPER_MAGIC : Z := 0x794C7630.
Definition MSDOS_SUPER_MAGIC : Z := 0x4D44.
Definition EXFAT_SUPER_MAGIC : Z := 0x2011BAB0.

Inductive IoStrategy : Set := LocalSync | NetworkAsync | SkipNlinks.

#[export] Instance IoStrategy_eq_dec : EqDecision IoStrategy.
Proof. solve_decision. Defined.

Definition strategy_from_ftype (f_type : Z) : IoStrategy :=
  if bool_decide (f_type ∈ [SMB_SUPER_MAGIC; NFS_SUPER_MAGIC; CIFS_MAGIC_NUMBER; SMB2_SUPER_MAGIC])
  then NetworkAsync
  else if bool_decide (f_type ∈ [MSDOS_SUPER_MAGIC; EXFAT_SUPER_MAGIC]) then SkipNlinks
  else if bool_decide (f_type ∈ [EXT4_SUPER_MAGIC; XFS_SUPER_MAGIC; BTRFS_SUPER_MAGIC;
                                 TMPFS_MAGIC; OVERLAYFS_SUPER_MAGIC])
  then LocalSync
  else LocalSync.

(** [LATENCY_THRESHOLD], in nanoseconds. *)
Definition LATENCY_THRESHOLD : Z := 1000 * 1000.

(** The directory descriptor [probe_latency] passes to [fstatat]. *)
Definition PROBE_DIRFD : Z := -1.

(** The per-worker cache, keyed by [st_dev]. *)
Abbreviation IoStrategyCache := (gmap Z IoStrategy).

Class FsSys (K : Type) := {
  sys_stat_dev : list Z -> K -> result Z io_Error * K;
  (** [statfs]: the [f_type], or [None] on an error *)
  sys_statfs : list Z -> K -> option Z * K;
  (** [fstatat dirfd path]: whether it succeeds, and how long it takes *)
  sys_timed_fstatat : Z -> list Z -> K -> bool * Z * K;
}.

Section Detect.
Context {K : Type} {HF : FsSys K}.

Definition stat_dev (path : Path) (k : K) : result Z io_Error * K :=
  match CString_new path with
  | None => (Err (invalid_input "path contains NUL byte"), k)
  | Some cstr => sys_stat_dev cstr k
  end.

Definition probe_latency (path : Path) (k : K) : IoStrategy * K :=
  match CString_new path with
  | None => (LocalSync, k)
  | Some cstr =>
      let '(ok, elapsed, k) := sys_timed_fstatat PROBE_DIRFD cstr k in
      if negb ok then (LocalSync, k)
      else if LATENCY_THRESHOLD <=? elapsed then (NetworkAsync, k)
      else (LocalSync, k)
  end.

Definition statfs_strategy (path : Path) (k : K) : option IoStrategy * K :=
  match CString_new path with
  | None => (None, k)
  | Some cstr =>
      match sys_statfs cstr k with
      | (None, k) => (None, k)
      | (Some f_type, k) =>
          let preliminary := strategy_from_ftype f_type in
          if bool_decide (preliminary = NetworkAsync) then
            let '(s, k) := probe_latency path k in (Some s, k)
          else (Some preliminary, k)
      end
  end.

Definition cache_new : IoStrategyCache := ∅.

Definition detect (cache : IoStrategyCache) (path : Path) (k : K) :
    IoStrategy * IoStrategyCache * K :=
  match stat_dev path k with
  | (Ok dev, k) =>
      match cache !! dev with
      | Some s => (s, cache, k)
      | None =>
          let '(o, k) := statfs_strategy path k in
          let strategy := default LocalSync o in
          (strategy, <[dev := strategy]> cache, k)
      end
  | (Err _, k) => (LocalSync, cache, k)
  end.

(** The batch interface is chosen for a network file system that answers slowly,
    and nothing else. *)
Lemma statfs_strategy_network path k k' :
  statfs_strategy path k = (Some NetworkAsync, k') ->
  exists cstr f_type k1 elapsed,
    CString_new path = Some cstr /\ sys_statfs cstr k = (Some f_type, k1) /\
    f_type ∈ [SMB_SUPER_MAGIC; NFS_SUPER_MAGIC; CIFS_MAGIC_NUMBER; SMB2_SUPER_MAGIC] /\
    sys_timed_fstatat PROBE_DIRFD cstr k1 = (true, elapsed, k') /\
    LATENCY_THRESHOLD <= elapsed.
Proof.
  unfold statfs_strategy, probe_latency. intros E.
  destruct (CString_new path) as [cstr|] eqn:Ec; [|done].
  destruct (sys_statfs cstr k) as [[f_type|] k1] eqn:Es; [|done].
  case_bool_decide as Hp; [|by simplify_eq].
  destruct (sys_timed_fstatat PROBE_DIRFD cstr k1) as [[ok elapsed] k2] eqn:Et.
  destruct ok; simpl in E; [|done].
  destruct (Z.leb_spec LATENCY_THRESHOLD elapsed); simplify_eq.
  exists cstr, f_type, k1, elapsed. split_and!; try done.
  unfold strategy_from_ftype in Hp. by repeat case_bool_decide.
Qed.

(** C30: a device is probed once: after [detect] on one path, every path on the
    same device gets the same strategy from the cache, with no system call but
    the [stat] that names the device; entries for other devices are kept; and
    the batch interface is newly chosen only for a network file system whose
    probe took at least the threshold. *)
Theorem detect_cached cache path k s cache' k' dev k1 :
  stat_dev path k = (Ok dev, k1) -> detect cache path k = (s, cache', k') ->
  cache' !! dev = Some s /\
  (forall d, d <> dev -> cache' !! d = cache !! d) /\
  (forall path2 k2 k3, stat_dev path2 k2 = (Ok dev, k3) ->
     detect cache' path2 k2 = (s, cache', k3)) /\
  (cache !! dev = None -> s = NetworkAsync ->
     exists cstr f_type k2 elapsed, sys_statfs cstr k1 = (Some f_type, k2) /\
       f_type ∈ [SMB_SUPER_MAGIC; NFS_SUPER_MAGIC; CIFS_MAGIC_NUMBER; SMB2_SUPER_MAGIC] /\
       sys_timed_fstatat PROBE_DIRFD cstr k2 = (true, elapsed, k') /\
       LATENCY_THRESHOLD <= elapsed).
Proof.
  intros Hd E. unfold detect in E. rewrite Hd in E.
  assert (cache' !! dev = Some s) as Hs.
  { destruct (cache !! dev) eqn:El; [by simplify_eq|].
    destruct (statfs_strategy path k1). simplify_eq. apply lookup_insert_eq. }
  split_and!; [done| | |].
  - intros d Hne. destruct (cache !! dev); [by simplify_eq|].
    destruct (statfs_strategy path k1). simplify_eq. by rewrite lookup_insert_ne.
  - intros path2 k2 k3 H2. unfold detect. by rewrite H2, Hs.
  - intros El ->. rewrite El in E. destruct (statfs_strategy path k1) as [o k2] eqn:Ef.
    destruct o as [s'|]; simplify_eq/=.
    apply statfs_strategy_network in Ef as (cstr & f & k2 & el & _ & ? & ? & ? & ?).
    exists cstr, f, k2, el. by split_and!.
Qed.
End Detect.

(** A slow NFS mount on device 7. *)
#[export] Instance sample_fs_sys : FsSys unit := {
  sys_stat_dev _ k := (Ok 7, k);
  sys_statfs _ k := (Some NFS_SUPER_MAGIC, k);
  sys_timed_fstatat _ _ k := (true, 5000000, k);
}.

Lemma detect_cached_witness :
  (<[7 := NetworkAsync]> cache_new) !! 7 = Some NetworkAsync /\
  detect (<[7 := NetworkAsync]> cache_new) (bytes "/mnt/other") tt =
    (NetworkAsync, <[7 := NetworkAsync]> cache_new, tt).
Proof.
  destruct (detect_cached cache_new (bytes "/mnt") tt NetworkAsync (<[7 := NetworkAsync]> cache_new)
    tt 7 tt ltac:(by vm_compute) ltac:(by vm_compute)) as (H1 & _ & H2 & _).
  split; [exact H1|]. apply H2. by vm_compute.
Defined.
