(* ===== verification/IoUring.v ===== *)
(** * Batched [statx]: [linux_io_uring.rs]

    The ring of the [io_uring] crate and the kernel behind it are the fields of
    [Ring]; completions carry the content of the buffer they have filled.
    [RingLaws] states what the documentation of [io_uring] promises: a ring
    built with room for [n] accepts [n] submissions, and waiting for all of them
    gives one completion for each, in any order. *)
From S2P Require Import Prelude Std Error Metadata UnixEnum.

Definition RING_SIZE : nat := 256.
Definition MIN_BATCH_FOR_IO_URING : nat := 8.

Record cqe := mk_cqe { cqe_user_data : nat; cqe_result : Z; cqe_statx : statx }.

Class Ring (K : Type) := {
  ring_build : nat -> K -> result unit io_Error * K;
  (** room for one more submission: ring size, submissions so far *)
  ring_push : nat -> nat -> bool;
  (** descriptor, names in the order of their [user_data] *)
  ring_submit_and_wait : Z -> list (list Z) -> K -> result (list cqe) io_Error * K;
}.

(** [IO_URING_AVAILABLE.get_or_init(probe_io_uring)]: the answer and the cell. *)
Definition io_uring_enabled {K} `{Ring K} (available : option bool) (k : K) : bool * option bool * K :=
  match available with
  | Some b => (b, available, k)
  | None =>
      let '(r, k) := ring_build 1 k in
      let b := res_is_ok r in (b, Some b, k)
  end.

Definition set_statx (stx : statx) (e : LinuxDirEntryOwned) : LinuxDirEntryOwned :=
  mk_linux_entry (le_d_type e) (le_name e) (Some stx).

Section Batch.
Context {K : Type} {HR : Ring K}.

(** The submission loop of [batch_statx_chunk]: [local_to_entry] and the names
    submitted, in order. *)
Fixpoint submit_loop (n entry_idx : nat) (local_to_entry : list nat) (names : list (list Z))
    (entries : list LinuxDirEntryOwned) : list nat * list (list Z) :=
  match entries with
  | [] => (local_to_entry, names)
  | entry :: entries' =>
      match CString_new (le_name entry) with
      | None => submit_loop n (S entry_idx) local_to_entry names entries'
      | Some cstr =>
          if ring_push n (length names)
          then submit_loop n (S entry_idx) (local_to_entry ++ [entry_idx]) (names ++ [cstr]) entries'
          else (local_to_entry, names)
      end
  end.

(** The harvest of one completion. *)
Definition harvest (local_to_entry : list nat) (entries : list LinuxDirEntryOwned) (c : cqe) :
    list LinuxDirEntryOwned :=
  match local_to_entry !! cqe_user_data c with
  | None => entries
  | Some entry_idx =>
      if cqe_result c =? 0 then alter (set_statx (cqe_statx c)) entry_idx entries else entries
  end.

Definition batch_statx_chunk (entries : list LinuxDirEntryOwned) (dirfd : Z) (k : K) :
    result unit io_Error * list LinuxDirEntryOwned * K :=
  let n := length entries in
  match ring_build n k with
  | (Err e, k) => (Err e, entries, k)
  | (Ok _, k) =>
      let '(local_to_entry, names) := submit_loop n 0 [] [] entries in
      if (length names =? 0)%nat then (Ok tt, entries, k)
      else
        match ring_submit_and_wait dirfd names k with
        | (Err e, k) => (Err e, entries, k)
        | (Ok completion, k) => (Ok tt, fold_left (harvest local_to_entry) completion entries, k)
        end
  end.

(** The loop over the chunks of [RING_SIZE]; [fuel] chunks at most. *)
Fixpoint batch_loop (fuel : nat) (entries : list LinuxDirEntryOwned) (dirfd : Z) (k : K) :
    result unit io_Error * list LinuxDirEntryOwned * K :=
  match fuel with
  | O => (Ok tt, entries, k)
  | S fuel' =>
      match entries with
      | [] => (Ok tt, [], k)
      | _ :: _ =>
          let '(r, chunk, k) := batch_statx_chunk (take RING_SIZE entries) dirfd k in
          match r with
          | Err e => (Err e, chunk ++ drop RING_SIZE entries, k)
          | Ok _ =>
              let '(r, rest, k) := batch_loop fuel' (drop RING_SIZE entries) dirfd k in
              (r, chunk ++ rest, k)
          end
      end
  end.

(** A chunk has at least one entry, so [length entries] chunks are enough. *)
Definition batch_statx_via_io_uring (entries : list LinuxDirEntryOwned) (dirfd : Z) (k : K) :
    result unit io_Error * list LinuxDirEntryOwned * K :=
  batch_loop (length entries) entries dirfd k.
End Batch.

(** ** What it computes *)

Section BatchSpec.
Context {K : Type} {HR : Ring K}.
(** What [statx] answers for a name in the directory [dirfd]. *)
Context (dirfd : Z) (answer : list Z -> option statx).

(** The completion of a request: 0 and the buffer filled, or a negative code. *)
Definition completes (c : cqe) (user_data : nat) (name : list Z) : Prop :=
  cqe_user_data c = user_data /\
  match answer name with
  | Some stx => cqe_result c = 0 /\ cqe_statx c = stx
  | None => cqe_result c < 0
  end.

Class RingLaws : Prop := {
  ring_push_room n m : (m < n)%nat -> ring_push n m = true;
  ring_completions names k cs k' :
    ring_submit_and_wait dirfd names k = (Ok cs, k') ->
    NoDup (cqe_user_data <$> cs) /\
    (forall i name, names !! i = Some name -> exists c, c ∈ cs /\ completes c i name) /\
    (forall c, c ∈ cs -> exists name, names !! cqe_user_data c = Some name /\
       completes c (cqe_user_data c) name);
}.
Context {HL : RingLaws}.

(** The entry after the batch: its [statx] when the name can be passed to the
    kernel and the kernel answered. *)
Definition filled (e : LinuxDirEntryOwned) : LinuxDirEntryOwned :=
  match CString_new (le_name e) with
  | Some cstr => match answer cstr with Some stx => set_statx stx e | None => e end
  | None => e
  end.

(** The entries with a valid name and their index. *)
Fixpoint valid_from (i : nat) (es : list LinuxDirEntryOwned) : list (nat * list Z) :=
  match es with
  | [] => []
  | e :: es' =>
      match CString_new (le_name e) with
      | Some c => (i, c) :: valid_from (S i) es'
      | None => valid_from (S i) es'
      end
  end.

Lemma submit_loop_all n i l2e names es :
  (length names + length es <= n)%nat ->
  submit_loop n i l2e names es =
    (l2e ++ (valid_from i es).*1, names ++ (valid_from i es).*2).
Proof.
  revert i l2e names. induction es as [|e es IH]; intros i l2e names Hn; simpl.
  - by rewrite !app_nil_r.
  - simpl in Hn. destruct (CString_new (le_name e)) as [c|]; [|apply IH; lia].
    rewrite ring_push_room by lia. rewrite IH by (rewrite length_app; simpl; lia).
    simpl. by rewrite <- !app_assoc.
Qed.

Lemma valid_from_lookup i es k c :
  (k, c) ∈ valid_from i es <->
  exists e, (i <= k)%nat /\ es !! (k - i)%nat = Some e /\ CString_new (le_name e) = Some c.
Proof.
  revert i. induction es as [|e es IH]; intros i; simpl.
  - rewrite elem_of_nil. split; [done|]. by intros (e & _ & E & _).
  - assert ((k, c) ∈ valid_from (S i) es <-> exists e0, (i < k)%nat /\
      (e :: es) !! (k - i)%nat = Some e0 /\ CString_new (le_name e0) = Some c) as Htl.
    { rewrite IH. split; intros (e0 & Hle & E & Hc); exists e0; (split_and!; [lia| |done]).
      - by replace (k - i)%nat with (S (k - S i)) by lia.
      - by replace (k - i)%nat with (S (k - S i)) in E by lia. }
    destruct (CString_new (le_name e)) as [c'|] eqn:Ec.
    + rewrite elem_of_cons, Htl. split.
      * intros [[= -> ->]|(e0 & ? & ? & ?)]; [exists e; rewrite Nat.sub_diag; by split_and!|].
        exists e0. split_and!; [lia|done..].
      * intros (e0 & Hle & E & Hc). destruct (decide (k = i)) as [->|Hne].
        -- rewrite Nat.sub_diag in E. simplify_eq/=. left. congruence.
        -- right. exists e0. split_and!; [lia|done..].
    + rewrite Htl. split; intros (e0 & Hle & E & Hc); exists e0; (split_and!; [|done..]); [lia|].
      destruct (decide (k = i)) as [->|]; [|lia]. rewrite Nat.sub_diag in E. by simplify_eq/=.
Qed.

Lemma valid_from_NoDup i es : NoDup (valid_from i es).*1.
Proof.
  revert i. induction es as [|e es IH]; intros i; simpl; [constructor|].
  destruct (CString_new (le_name e)); [|apply IH]. simpl. constructor; [|apply IH].
  rewrite list_elem_of_fmap. intros ([k c] & -> & Hin). apply valid_from_lookup in Hin as (? & ? & _).
  simpl in *. lia.
Qed.

Lemma harvest_lookup l2e cs es k :
  NoDup l2e -> NoDup (cqe_user_data <$> cs) ->
  fold_left (harvest l2e) cs es !! k =
    match list_find (fun c => l2e !! cqe_user_data c = Some k) cs with
    | Some (_, c) =>
        (if cqe_result c =? 0 then set_statx (cqe_statx c) else id) <$> es !! k
    | None => es !! k
    end.
Proof.
  intros Hl. revert es. induction cs as [|c cs IH]; intros es Hcs; [done|].
  simpl in Hcs. apply NoDup_cons in Hcs as [Hc Hcs]. simpl. rewrite IH by done.
  case_decide as Hk; simpl.
  - destruct (list_find _ cs) as [[j c']|] eqn:Ef; simpl.
    + apply list_find_Some in Ef as (Hj & Hk' & _). destruct Hc.
      pose proof (NoDup_lookup _ _ _ _ Hl Hk Hk') as ->. rewrite list_elem_of_fmap.
      exists c'. split; [done|]. by eapply list_elem_of_lookup_2.
    + unfold harvest. rewrite Hk. destruct (cqe_result c =? 0); [by rewrite list_lookup_alter_eq|].
      by destruct (es !! k).
  - assert (harvest l2e es c !! k = es !! k) as ->.
    { unfold harvest. destruct (l2e !! cqe_user_data c) as [i|] eqn:Ei; [|done].
      destruct (cqe_result c =? 0); [|done]. apply list_lookup_alter_ne. congruence. }
    by destruct (list_find _ cs) as [[j c']|].
Qed.

Lemma chunk_filled es k es' k' :
  batch_statx_chunk es dirfd k = (Ok tt, es', k') -> es' = map filled es.
Proof.
  unfold batch_statx_chunk. destruct (ring_build _ k) as [[[]|e] k1]; [|done].
  rewrite submit_loop_all by (simpl; lia). simpl app.
  set (P := valid_from 0 es). intros E. apply list_eq. intros i. rewrite list_lookup_fmap.
  destruct (Nat.eqb_spec (length P.*2) 0) as [H0|H0].
  { simplify_eq. apply length_zero_iff_nil in H0. destruct (es' !! i) as [e|] eqn:Ei; [|done].
    simpl. f_equal. unfold filled. destruct (CString_new (le_name e)) as [c|] eqn:Ec; [|done].
    assert ((i, c) ∈ P) as Hin by (apply valid_from_lookup; exists e; rewrite Nat.sub_0_r; split_and!; auto with lia).
    apply (list_elem_of_fmap_2 snd) in Hin. rewrite H0 in Hin. by apply not_elem_of_nil in Hin. }
  destruct (ring_submit_and_wait dirfd P.*2 k1) as [[cs|e] k2] eqn:Es; [|done]. simplify_eq.
  destruct (ring_completions _ _ _ _ Es) as (Hnd & Hall & Honly).
  rewrite harvest_lookup by (done || apply valid_from_NoDup).
  destruct (list_find _ cs) as [[j c]|] eqn:Ef.
  - apply list_find_Some in Ef as (Hj & Hi & _). apply list_elem_of_lookup_2 in Hj.
    destruct (Honly c Hj) as (name & Hname & _ & Hans).
    apply list_lookup_fmap_Some in Hi as ([i1 c1] & -> & Hi).
    apply list_lookup_fmap_Some in Hname as ([i2 c2] & -> & Hn). simplify_eq/=.
    apply list_elem_of_lookup_2, valid_from_lookup in Hi as (e & _ & He & Hc).
    rewrite Nat.sub_0_r in He. rewrite He. simpl. f_equal. unfold filled. rewrite Hc.
    destruct (answer c1) as [stx|]; [by destruct Hans as [-> ->]|].
    by rewrite (proj2 (Z.eqb_neq _ _)) by lia.
  - apply list_find_None in Ef. destruct (es !! i) as [e|] eqn:Ei; [|done]. simpl. f_equal.
    unfold filled. destruct (CString_new (le_name e)) as [c|] eqn:Ec; [|done]. exfalso.
    assert ((i, c) ∈ P) as Hin by (apply valid_from_lookup; exists e; rewrite Nat.sub_0_r; split_and!; auto with lia).
    apply list_elem_of_lookup_1 in Hin as [j Hj].
    destruct (Hall j c) as (d & Hd & Hud & _); [by rewrite list_lookup_fmap, Hj|].
    rewrite Forall_forall in Ef. apply (Ef d Hd). rewrite Hud. by rewrite list_lookup_fmap, Hj.
Qed.

Lemma chunk_error es k e es' k' : batch_statx_chunk es dirfd k = (Err e, es', k') -> es' = es.
Proof.
  unfold batch_statx_chunk. destruct (ring_build _ k) as [[[]|e1] k1]; [|by intros; simplify_eq].
  destruct (submit_loop _ _ _ _ _) as [l2e names]. destruct (length names =? 0)%nat; [done|].
  destruct (ring_submit_and_wait dirfd names k1) as [[cs|e1] k2]; [done|by intros; simplify_eq].
Qed.

Lemma batch_loop_filled fuel es k r es' k' :
  (length es <= fuel)%nat -> batch_loop fuel es dirfd k = (r, es', k') ->
  exists n, es' = map filled (take n es) ++ drop n es /\ (r = Ok tt -> n = length es).
Proof.
  revert es k r es' k'. induction fuel as [|fuel IH]; intros es k r es' k' Hf E.
  { destruct es; [|simpl in Hf; lia]. simplify_eq/=. by exists 0%nat. }
  cbn [batch_loop] in E. destruct es as [|e0 es0] eqn:Ees; [simplify_eq/=; by exists 0%nat|].
  rewrite <- Ees in *. assert (0 < length es)%nat as Hpos by (subst es; simpl; lia). clear Ees e0 es0.
  destruct (batch_statx_chunk (take RING_SIZE es) dirfd k) as [[r1 chunk] k1] eqn:Ec.
  destruct r1 as [[]|e].
  - apply chunk_filled in Ec. destruct (batch_loop fuel _ dirfd k1) as [[r2 rest] k2] eqn:El.
    simplify_eq. destruct (IH (drop RING_SIZE es) _ _ _ _ ltac:(rewrite length_drop; unfold RING_SIZE; lia) El)
      as (n & -> & Hn).
    destruct (decide (RING_SIZE <= length es)%nat) as [Hle|Hle].
    + exists (RING_SIZE + n)%nat. split.
      * by rewrite <- take_take_drop, map_app, <- app_assoc, drop_drop.
      * intros Hr. specialize (Hn Hr). rewrite length_drop in Hn. lia.
    + exists (length es). split; [|done].
      rewrite firstn_all, drop_all, (take_ge es RING_SIZE), (drop_ge es RING_SIZE) by lia.
      by rewrite take_nil, drop_nil.
  - apply chunk_error in Ec as ->. simplify_eq. exists 0%nat. split; [|done].
    by rewrite take_drop.
Qed.

(** C29: a batch that succeeds gives every entry, whatever the number of chunks and
    the order of the completions, the [statx] the kernel answers for its own name,
    and leaves the others (refused, or with a NUL in the name) as they were; a
    batch that fails has done so for an initial segment of the entries and left
    the rest as it was. *)
Theorem batch_statx_filled es k r es' k' :
  batch_statx_via_io_uring es dirfd k = (r, es', k') ->
  exists n, es' = map filled (take n es) ++ drop n es /\ (r = Ok tt -> n = length es).
Proof. intros E. by apply (batch_loop_filled (length es)) in E. Qed.
End BatchSpec.

(** ** A ring that completes in reverse order *)

Definition zero_time : statx_timestamp := mk_statx_timestamp 0 0.
Definition sample_statx (ino : Z) : statx :=
  mk_statx 0x7ff S_IFREG ino 1 4096 0 0 0 0 8 1 0 0 zero_time zero_time zero_time zero_time.

(** Names that start with [x] are refused. *)
Definition sample_answer (name : list Z) : option statx :=
  match name with
  | c :: _ => if c =? 120 then None else Some (sample_statx c)
  | [] => None
  end.

Definition sample_cqe (i : nat) (name : list Z) : cqe :=
  match sample_answer name with
  | Some stx => mk_cqe i 0 stx
  | None => mk_cqe i (-2) (sample_statx 0)
  end.

#[export] Instance sample_ring : Ring unit := {
  ring_build _ k := (Ok tt, k);
  ring_push n m := (m <? n)%nat;
  ring_submit_and_wait _ names k := (Ok (reverse (imap sample_cqe names)), k);
}.

Lemma sample_cqe_data i name : cqe_user_data (sample_cqe i name) = i.
Proof. unfold sample_cqe. by destruct (sample_answer name). Qed.

Lemma sample_cqe_completes i name : completes sample_answer (sample_cqe i name) i name.
Proof. unfold completes, sample_cqe. by destruct (sample_answer name). Qed.

#[export] Instance sample_ring_laws : RingLaws 3 sample_answer.
Proof.
  split.
  - intros n m H. by apply Nat.ltb_lt.
  - intros names k cs k' [= <- _]. split_and!.
    + rewrite fmap_reverse, reverse_Permutation, fmap_imap. replace (imap _ names) with (seq 0 (length names)); [apply NoDup_seq|].
      apply list_eq. intros i. rewrite list_lookup_imap. destruct (names !! i) as [name|] eqn:E; simpl.
      * rewrite sample_cqe_data. apply lookup_seq. split; [done|]. by eapply lookup_lt_Some.
      * apply lookup_seq_ge. by apply lookup_ge_None.
    + intros i name E. exists (sample_cqe i name). split; [|apply sample_cqe_completes].
      apply elem_of_reverse, (list_elem_of_lookup_2 _ i).
      by rewrite list_lookup_imap, E.
    + intros c Hc. rewrite elem_of_reverse in Hc. apply list_elem_of_lookup_1 in Hc as [i Hi].
      rewrite list_lookup_imap in Hi. destruct (names !! i) as [name|] eqn:E; simplify_eq/=.
      exists name. rewrite sample_cqe_data. split; [done|apply sample_cqe_completes].
Qed.

Definition sample_batch : list LinuxDirEntryOwned :=
  [mk_linux_entry DT_REG (bytes "a") None; mk_linux_entry DT_REG (bytes "x") None;
   mk_linux_entry DT_REG (bytes "b") None].

Lemma batch_statx_filled_witness :
  batch_statx_via_io_uring sample_batch 3 tt =
    (Ok tt, [mk_linux_entry DT_REG (bytes "a") (Some (sample_statx 97));
             mk_linux_entry DT_REG (bytes "x") None;
             mk_linux_entry DT_REG (bytes "b") (Some (sample_statx 98))], tt) /\
  exists n, [mk_linux_entry DT_REG (bytes "a") (Some (sample_statx 97));
             mk_linux_entry DT_REG (bytes "x") None;
             mk_linux_entry DT_REG (bytes "b") (Some (sample_statx 98))] =
    map (filled sample_answer) (take n sample_batch) ++ drop n sample_batch /\
    (Ok tt = Ok (E := io_Error) tt -> n = length sample_batch).
Proof.
  assert (batch_statx_via_io_uring sample_batch 3 tt =
    (Ok tt, [mk_linux_entry DT_REG (bytes "a") (Some (sample_statx 97));
             mk_linux_entry DT_REG (bytes "x") None;
             mk_linux_entry DT_REG (bytes "b") (Some (sample_statx 98))], tt)) as E by (by vm_compute).
  split; [exact E|]. exact (batch_statx_filled 3 sample_answer _ _ _ _ _ E).
Defined.
