(* ===== verification/LinuxReadDir.v ===== *)
(** * Reading a directory on Linux: [read_dir_linux_via_getdents],
    [make_dir_entry_linux] and [try_fill_from_statx] of [lib.rs]

    For the GNU target, where [statx] exists.  A worker thread is its kernel and
    its thread-local state; system calls and calls to the [StreamingContext] do
    not influence each other, so each part of the function computes its own. *)
From stdpp Require Import gmap.
From S2P Require Import Prelude Order Error Platform DirEntry Callback Std Metadata UnixEnum.
From S2P Require Import FsDetect IoUring.

(** ** Metadata of an entry *)

(** The [MetaData] and [MetaDataExt] literals built from [statx] and [stat]. *)
Definition statx_metadata_of (stx : statx) : exec MetaData :=
  let mode := stx_mode stx in
  let! created :=
    (if Z.land (stx_mask stx) STATX_BTIME =? 0 then Ret None
     else statx_time_to_systemtime (stx_btime stx)) in
  let! changed := statx_time_to_systemtime (stx_ctime stx) in
  let! modified := statx_time_to_systemtime (stx_mtime stx) in
  let! accessed := statx_time_to_systemtime (stx_atime stx) in
  Ret {| m_is_dir := Z.land mode S_IFMT =? S_IFDIR;
         m_is_file := Z.land mode S_IFMT =? S_IFREG;
         m_is_symlink := Z.land mode S_IFMT =? S_IFLNK;
         m_size := stx_size stx;
         m_created := created;
         m_changed := changed;
         m_modified := modified;
         m_accessed := accessed;
         m_permissions := Some (mk_permissions mode) |}.

Definition statx_metadata_ext_of (stx : statx) : MetaDataExt := {|
  st_mode := as_u32 (stx_mode stx);
  st_ino := stx_ino stx;
  st_dev := linux_makedev (stx_dev_major stx) (stx_dev_minor stx);
  st_nlink := stx_nlink stx;
  st_blksize := stx_blksize stx;
  st_blocks := stx_blocks stx;
  st_uid := stx_uid stx;
  st_gid := stx_gid stx;
  st_rdev := linux_makedev (stx_rdev_major stx) (stx_rdev_minor stx);
|}.

Definition stat_metadata_of (st : stat) : exec MetaData :=
  let mode := s_mode st in
  let! changed := time_to_systemtime (s_ctime st) (s_ctime_nsec st) in
  let! modified := time_to_systemtime (s_mtime st) (s_mtime_nsec st) in
  let! accessed := time_to_systemtime (s_atime st) (s_atime_nsec st) in
  Ret {| m_is_dir := Z.land mode S_IFMT =? S_IFDIR;
         m_is_file := Z.land mode S_IFMT =? S_IFREG;
         m_is_symlink := Z.land mode S_IFMT =? S_IFLNK;
         m_size := as_u64 (s_size st);
         m_created := None;
         m_changed := changed;
         m_modified := modified;
         m_accessed := accessed;
         m_permissions := Some (mk_permissions mode) |}.

Definition stat_metadata_ext_of (st : stat) : MetaDataExt := {|
  st_mode := s_mode st;
  st_ino := s_ino st;
  st_dev := s_dev st;
  st_nlink := as_u64 (s_nlink st);
  st_blksize := as_u64 (s_blksize st);
  st_blocks := as_u64 (s_blocks st);
  st_uid := s_uid st;
  st_gid := s_gid st;
  st_rdev := s_rdev st;
|}.

(** The values [make_dir_entry_linux] assembles: [file_type], [entry_metadata] and
    [entry_metadata_ext]. *)
Record entry_parts := mk_parts {
  p_file_type : FileType;
  p_metadata : option MetaData;
  p_metadata_ext : option MetaDataExt;
}.

(** Filling them from a [statx] (in [try_fill_from_statx] and in the synchronous
    branch of [make_dir_entry_linux]) and from a [stat]. *)
Definition fill_from_statx (d_type : Z) (read_metadata read_metadata_ext : bool) (stx : statx)
    (p : entry_parts) : exec entry_parts :=
  let mode := stx_mode stx in
  let file_type := if d_type =? DT_UNKNOWN then file_type_from_mode mode else p_file_type p in
  let! md := (if read_metadata then let! m := statx_metadata_of stx in Ret (Some m)
              else Ret (p_metadata p)) in
  let ext := if read_metadata_ext then Some (statx_metadata_ext_of stx) else p_metadata_ext p in
  Ret (mk_parts file_type md ext).

Definition fill_from_stat (d_type : Z) (read_metadata read_metadata_ext : bool) (st : stat)
    (p : entry_parts) : exec entry_parts :=
  let file_type := if d_type =? DT_UNKNOWN then file_type_from_mode (s_mode st) else p_file_type p in
  let! md := (if read_metadata then let! m := stat_metadata_of st in Ret (Some m)
              else Ret (p_metadata p)) in
  let ext := if read_metadata_ext then Some (stat_metadata_ext_of st) else p_metadata_ext p in
  Ret (mk_parts file_type md ext).

(** [try_fill_from_statx]: the flag and the parts. *)
Definition try_fill_from_statx (info : LinuxDirEntryOwned) (read_metadata read_metadata_ext : bool)
    (p : entry_parts) : exec (bool * entry_parts) :=
  match le_statx info with
  | None => Ret (false, p)
  | Some stx =>
      let! p := fill_from_statx (le_d_type info) read_metadata read_metadata_ext stx p in
      Ret (true, p)
  end.

Section Reading.
Context {C : ClientState} {K : Type} {HS : Sys K} {HF : FsSys K} {HR : Ring K}.
(** The options of the walk, and the file system [follow_symlink] looks at. *)
Context (fs : FileSystem) (follow_links read_metadata read_metadata_ext skip_hidden sort : bool)
  (process_read_dir : option (option Z -> Path -> ReadDirState ->
     list (Result (DirEntry.t C)) -> ReadDirState * list (Result (DirEntry.t C))))
  (fuel : nat).

Definition make_dir_entry_linux (info : LinuxDirEntryOwned) (depth : Z) (parent_path : Path)
    (dirfd : Z) (follow_link_ancestors : option (list AncestorIdentity.t)) (k : K) :
    exec (Result (DirEntry.t C) * K) :=
  let need_stat := read_metadata || read_metadata_ext || (le_d_type info =? DT_UNKNOWN) in
  let file_type := default (file_type_from_mode S_IFREG) (file_type_from_dtype (le_d_type info)) in
  let! r := try_fill_from_statx info read_metadata read_metadata_ext
              (mk_parts file_type None None) in
  let '(statx_filled, p) := r in
  let! r :=
    (if negb statx_filled && need_stat then
       match statx_metadata dirfd (le_name info) k with
       | (Ok stx, k) =>
           let! p := fill_from_statx (le_d_type info) read_metadata read_metadata_ext stx p in
           Ret (p, k)
       | (Err _, k) =>
           match fstatat_metadata dirfd (le_name info) k with
           | (Ok st, k) =>
               let! p := fill_from_stat (le_d_type info) read_metadata read_metadata_ext st p in
               Ret (p, k)
           | (Err _, k) => Ret (p, k)
           end
       end
     else Ret (p, k)) in
  let '(p, k) := r in
  Ret (DirEntry.from_raw depth parent_path (p_metadata p) (p_metadata_ext p) (le_name info)
         (p_file_type p) follow_link_ancestors, k).

(** A worker: the kernel, [IO_STRATEGY_CACHE], [IO_URING_AVAILABLE] and the buffer. *)
Record thread := mk_thread {
  th_kernel : K;
  th_cache : IoStrategyCache;
  th_uring : option bool;
  th_tls : list Z;
}.

(** The [io_uring] block: the entries, with what the batch has fetched. *)
Definition prefetch_statx (path : Path) (entries : list LinuxDirEntryOwned) (dirfd : Z)
    (th : thread) : list LinuxDirEntryOwned * thread :=
  let '(strategy, cache, k) := detect (th_cache th) path (th_kernel th) in
  let need_meta_or_type :=
    read_metadata || read_metadata_ext || existsb (fun e => le_d_type e =? DT_UNKNOWN) entries in
  if bool_decide (strategy = NetworkAsync) then
    let '(enabled, uring, k) := io_uring_enabled (th_uring th) k in
    if enabled && need_meta_or_type && (MIN_BATCH_FOR_IO_URING <=? length entries)%nat then
      let '(_, entries, k) := batch_statx_via_io_uring entries dirfd k in
      (entries, mk_thread k cache uring (th_tls th))
    else (entries, mk_thread k cache uring (th_tls th))
  else (entries, mk_thread k cache (th_uring th) (th_tls th)).

(** The [filter_map] over the entries. *)
Fixpoint build_entries (infos : list LinuxDirEntryOwned) (depth : Z) (path : Path) (dirfd : Z)
    (follow_link_ancestors : option (list AncestorIdentity.t)) (k : K) :
    exec (list (Result (DirEntry.t C)) * K) :=
  match infos with
  | [] => Ret ([], k)
  | info :: infos' =>
      if skip_hidden && is_hidden (le_name info)
      then build_entries infos' depth path dirfd follow_link_ancestors k
      else
        let! r := make_dir_entry_linux info depth path dirfd follow_link_ancestors k in
        let '(made, k) := r in
        let one :=
          match made with
          | Ok dir_entry => process_dir_entry_result fs (Ok dir_entry) follow_links
          | Err err => Err err
          end in
        let! r := build_entries infos' depth path dirfd follow_link_ancestors k in
        let '(rest, k) := r in
        Ret (one :: rest, k)
  end.

(** What the closure of the streaming enumeration schedules, [finish] being what
    follows the enumeration; [streamed_count] is the [Cell]. *)
Fixpoint schedule_subdirs {R} (ctx : StreamingContext) (path : Path) (depth : Z)
    (client_read_state : ReadDirState)
    (follow_link_ancestors : option (list AncestorIdentity.t))
    (infos : list LinuxDirEntryOwned) (streamed_count : Z) (finish : Z -> run_of C R) :
    run_of C R :=
  match infos with
  | [] => finish streamed_count
  | info :: infos' =>
      let continue streamed_count :=
        schedule_subdirs ctx path depth client_read_state follow_link_ancestors infos'
          streamed_count finish in
      IsStopped (fun stopped =>
        if stopped then continue streamed_count
        else if negb (le_d_type info =? DT_DIR) then continue streamed_count
        else if skip_hidden && is_hidden (le_name info) then continue streamed_count
        else
          let spec := {|
            ReadDirSpec.depth := depth;
            ReadDirSpec.path := path_join path (le_name info);
            ReadDirSpec.client_read_state := client_read_state;
            ReadDirSpec.follow_link_ancestors := follow_link_ancestors;
          |} in
          let weight := saturating_add (sc_parent_weight ctx) 1 in
          let child_index_path :=
            IndexPath.mk (update_last (fun _ => streamed_count)
              (IndexPath.indices (sc_index_path ctx) ++ [0])) in
          Schedule (Weighted.new spec child_index_path weight) (fun ok =>
            continue (if ok then usize_add streamed_count 1 else streamed_count)))
  end.

(** After the enumeration. *)
Definition finish_read_dir (path : Path) (read_dir_depth read_dir_contents_depth : Z)
    (follow_link_ancestors : option (list AncestorIdentity.t)) (client_read_state : ReadDirState)
    (entries_result : result (Z * list LinuxDirEntryOwned) io_Error) (th : thread)
    (streamed_child_count : Z) : exec (Result (ReadDir.t C) * thread) :=
  match entries_result with
  | Err err =>
      if 0 <? streamed_child_count then
        Ret (Ok (ReadDir.mk client_read_state [Err (Error.from_path 0 path err)]
                   streamed_child_count), th)
      else Ret (Err (Error.from_path 0 path err), th)
  | Ok (dirfd, entries) =>
      let '(entries, th) := prefetch_statx path entries dirfd th in
      let! r := build_entries entries read_dir_contents_depth path dirfd
                  follow_link_ancestors (th_kernel th) in
      let '(dir_entry_results, k) := r in
      let th := mk_thread (sys_close dirfd k) (th_cache th) (th_uring th) (th_tls th) in
      let dir_entry_results :=
        if sort then sort_dir_entries_by_name dir_entry_results else dir_entry_results in
      let '(client_read_state, dir_entry_results) :=
        match process_read_dir with
        | Some process =>
            process (Some read_dir_depth) path client_read_state dir_entry_results
        | None => (client_read_state, dir_entry_results)
        end in
      Ret (Ok (ReadDir.mk client_read_state dir_entry_results streamed_child_count), th)
  end.

Definition set_kernel (th : thread) (k : K) : thread :=
  mk_thread k (th_cache th) (th_uring th) (th_tls th).

Definition read_dir_linux_via_getdents (path : Path) (read_dir_depth read_dir_contents_depth : Z)
    (follow_link_ancestors : option (list AncestorIdentity.t)) (client_read_state : ReadDirState)
    (streaming_ctx : option StreamingContext) (th : thread) :
    run_of C (exec (Result (ReadDir.t C) * thread)) :=
  let finish := finish_read_dir path read_dir_depth read_dir_contents_depth
                  follow_link_ancestors client_read_state in
  match streaming_ctx, sort, process_read_dir with
  | Some ctx, false, None =>
      match enumerate_dir_unix_streaming (fun info infos => infos ++ [info]) fuel path (th_tls th)
              [] (th_kernel th) with
      | Ret (entries_result, infos, k) =>
          schedule_subdirs ctx path read_dir_contents_depth client_read_state
            follow_link_ancestors infos 0
            (fun streamed_count => Returns (finish entries_result (set_kernel th k) streamed_count))
      | Panic => Returns Panic
      | NoFuel => Returns NoFuel
      end
  | _, _, _ =>
      match enumerate_dir_unix fuel path (th_tls th) (th_kernel th) with
      | Ret (entries_result, k) => Returns (finish entries_result (set_kernel th k) 0)
      | Panic => Returns Panic
      | NoFuel => Returns NoFuel
      end
  end.
End Reading.

(** ** An entry of known type *)

Definition i64_range (n : Z) : Prop := - 2 ^ 63 <= n < 2 ^ 63.
Definition u32_range (n : Z) : Prop := 0 <= n < 2 ^ 32.

Definition timestamp_ok (ts : statx_timestamp) : Prop :=
  i64_range (tv_sec ts) /\ u32_range (tv_nsec ts).

(** The timestamps fit their fields. *)
Definition statx_ok (stx : statx) : Prop :=
  timestamp_ok (stx_btime stx) /\ timestamp_ok (stx_ctime stx) /\
  timestamp_ok (stx_mtime stx) /\ timestamp_ok (stx_atime stx).

Definition stat_ok (st : stat) : Prop :=
  i64_range (s_ctime st) /\ i64_range (s_mtime st) /\ i64_range (s_atime st).

Lemma duration_new_ret sec nsec :
  0 <= sec < 2 ^ 63 -> 0 <= nsec < 2 ^ 32 -> exists d, duration_new sec nsec = Ret d.
Proof.
  intros Hs Hn. unfold duration_new, u64_max, NANOS_PER_SEC in *.
  assert (2 ^ 64 = 2 * 2 ^ 63 /\ 2 ^ 63 = 9223372036854775808) as [E1 E2] by done.
  destruct (nsec <? 1000000000); [by eexists|].
  assert (nsec / 1000000000 <= 5) by (apply Z.div_le_upper_bound; [lia|]; assert (2 ^ 32 = 4294967296) by done; lia).
  destruct (Z.leb_spec (sec + nsec / 1000000000) (2 ^ 64 - 1)); [by eexists|lia].
Qed.

Lemma statx_time_ret ts : timestamp_ok ts -> exists o, statx_time_to_systemtime ts = Ret o.
Proof.
  intros [Hs Hn]. unfold statx_time_to_systemtime, i64_range, u32_range in *.
  destruct (Z.ltb_spec (tv_sec ts) 0); [by eexists|].
  assert (as_u64 (tv_sec ts) = tv_sec ts) as -> by (apply Z.mod_small; lia).
  destruct (duration_new_ret (tv_sec ts) (tv_nsec ts)) as [d ->]; [lia..|]. by eexists.
Qed.

Lemma time_ret sec nsec : i64_range sec -> exists o, time_to_systemtime sec nsec = Ret o.
Proof.
  unfold time_to_systemtime, i64_range. intros Hs.
  destruct (Z.ltb_spec sec 0); [by eexists|].
  assert (as_u64 sec = sec) as -> by (apply Z.mod_small; lia).
  assert (0 <= as_u32 nsec < 2 ^ 32) by (apply Z.mod_pos_bound; lia).
  destruct (duration_new_ret sec (as_u32 nsec)) as [d ->]; [lia..|]. by eexists.
Qed.

Lemma fill_from_statx_ret d_type rm rme stx p :
  statx_ok stx -> exists p', fill_from_statx d_type rm rme stx p = Ret p' /\
    (d_type <> DT_UNKNOWN -> p_file_type p' = p_file_type p).
Proof.
  intros (H1 & H2 & H3 & H4). unfold fill_from_statx, statx_metadata_of.
  destruct (statx_time_ret _ H1) as [? ->], (statx_time_ret _ H2) as [? ->],
    (statx_time_ret _ H3) as [? ->], (statx_time_ret _ H4) as [? ->].
  destruct rm, (Z.land (stx_mask stx) STATX_BTIME =? 0); simpl; eexists; (split; [done|]);
    simpl; intros Hd; by rewrite (proj2 (Z.eqb_neq _ _) Hd).
Qed.

Lemma fill_from_stat_ret d_type rm rme st p :
  stat_ok st -> exists p', fill_from_stat d_type rm rme st p = Ret p' /\
    (d_type <> DT_UNKNOWN -> p_file_type p' = p_file_type p).
Proof.
  intros (H1 & H2 & H3). unfold fill_from_stat, stat_metadata_of.
  destruct (time_ret _ (s_ctime_nsec st) H1) as [? ->], (time_ret _ (s_mtime_nsec st) H2) as [? ->],
    (time_ret _ (s_atime_nsec st) H3) as [? ->].
  destruct rm; simpl; eexists; (split; [done|]);
    simpl; intros Hd; by rewrite (proj2 (Z.eqb_neq _ _) Hd).
Qed.

(** ** The prefetch keeps names and types *)

Definition entry_view (e : LinuxDirEntryOwned) : Z * OsString := (le_d_type e, le_name e).
Definition entry_ok (e : LinuxDirEntryOwned) : Prop :=
  match le_statx e with Some stx => statx_ok stx | None => True end.

(** The kernel's answers fit their fields. *)
Class SaneKernel (K : Type) `{Sys K} `{Ring K} : Prop := {
  sane_statx fd n k stx k' : sys_statx fd n k = (Ok stx, k') -> statx_ok stx;
  sane_fstatat fd n k st k' : sys_fstatat fd n k = (Ok st, k') -> stat_ok st;
  sane_ring fd ns k cs k' : ring_submit_and_wait fd ns k = (Ok cs, k') ->
    Forall (fun c => statx_ok (cqe_statx c)) cs;
}.

Section Prefetch.
Context {K : Type} {HS : Sys K} {HR : Ring K} {HK : SaneKernel K}.

(** Two lists of the same entries, the second with sound [statx] fields. *)
Definition refined (es es' : list LinuxDirEntryOwned) : Prop :=
  map entry_view es' = map entry_view es /\ (Forall entry_ok es -> Forall entry_ok es').

Lemma refined_refl es : refined es es.
Proof. done. Qed.

Lemma refined_app es1 es1' es2 es2' :
  refined es1 es1' -> refined es2 es2' -> refined (es1 ++ es2) (es1' ++ es2').
Proof.
  intros [E1 H1] [E2 H2]. split; [rewrite !map_app; congruence|].
  rewrite !Forall_app. tauto.
Qed.

Lemma harvest_refined l2e cs es :
  Forall (fun c => statx_ok (cqe_statx c)) cs -> refined es (fold_left (harvest l2e) cs es).
Proof.
  intros Hcs. revert es. induction Hcs as [|c cs Hc _ IH]; intros es; simpl; [done|].
  destruct (IH (harvest l2e es c)) as [E H].
  assert (refined es (harvest l2e es c)) as [E' H'].
  { unfold harvest. destruct (l2e !! cqe_user_data c) as [i|]; [|done].
    destruct (cqe_result c =? 0); [|done]. split.
    - apply list_eq. intros j. rewrite !list_lookup_fmap, list_lookup_alter.
      case_decide; [subst|done]. by destruct (es !! j).
    - intros Hes. apply Forall_alter; [done|]. intros e _ _. exact Hc. }
  split; [congruence|tauto].
Qed.

Lemma chunk_refined es fd k r es' k' :
  batch_statx_chunk es fd k = (r, es', k') -> refined es es'.
Proof.
  unfold batch_statx_chunk. destruct (ring_build _ k) as [[[]|e1] k1]; [|by intros; simplify_eq].
  destruct (submit_loop _ _ _ _ _) as [l2e names].
  destruct (length names =? 0)%nat; [by intros; simplify_eq|].
  destruct (ring_submit_and_wait fd names k1) as [[cs|e1] k2] eqn:E; intros; simplify_eq; [|done].
  apply harvest_refined. by eapply sane_ring.
Qed.

Lemma batch_refined fuel es fd k r es' k' :
  batch_loop fuel es fd k = (r, es', k') -> refined es es'.
Proof.
  revert es k r es' k'. induction fuel as [|fuel IH]; intros es k r es' k' E.
  { simpl in E. by simplify_eq. }
  cbn [batch_loop] in E. destruct es as [|e0 es0] eqn:Ees; [by simplify_eq|]. rewrite <- Ees in *.
  clear Ees e0 es0.
  destruct (batch_statx_chunk (take RING_SIZE es) fd k) as [[r1 chunk] k1] eqn:Ec.
  apply chunk_refined in Ec. rewrite <- (take_drop RING_SIZE es) at 1.
  destruct r1 as [[]|e].
  - destruct (batch_loop fuel _ fd k1) as [[r2 rest] k2] eqn:El. simplify_eq.
    apply refined_app; eauto.
  - simplify_eq. by apply refined_app.
Qed.

Lemma prefetch_refined `{!FsSys K} rm rme path es fd (th : thread) es' th' :
  prefetch_statx rm rme path es fd th = (es', th') -> refined es es'.
Proof.
  unfold prefetch_statx. destruct (detect _ _ _) as [[strategy cache] k]. case_bool_decide.
  - destruct (io_uring_enabled _ _) as [[en ur] k1]. destruct (_ && _); [|by intros; simplify_eq].
    destruct (batch_statx_via_io_uring es fd k1) as [[r es1] k2] eqn:E. intros. simplify_eq.
    by eapply batch_refined.
  - by intros; simplify_eq.
Qed.
End Prefetch.

(** ** Directory entries built from enumerated ones *)

Section Build.
Context {C : ClientState} {K : Type} {HS : Sys K} {HF : FsSys K} {HR : Ring K} {HK : SaneKernel K}.
Context (fs : FileSystem) (read_metadata read_metadata_ext skip_hidden : bool).

(** The type [getdents64] gives is not [DT_UNKNOWN] (nor a new one). *)
Definition typed (e : LinuxDirEntryOwned) : Prop := is_Some (file_type_from_dtype (le_d_type e)).

Lemma dtype_is_dir d ft : file_type_from_dtype d = Some ft -> is_dir ft = (d =? DT_DIR).
Proof.
  unfold file_type_from_dtype. intros E.
  repeat match type of E with context [Z.eqb d ?b] =>
    destruct (Z.eqb_spec d b) as [->|_]; [injection E as <-; by vm_compute|] end. done.
Qed.

(** [e] is the entry of [info] in the directory [path]. *)
Record entry_for (depth : Z) (path : Path) (anc : option (list AncestorIdentity.t))
    (info : LinuxDirEntryOwned) (e : DirEntry.t C) : Prop := {
  ef_depth : DirEntry.depth e = depth;
  ef_name : DirEntry.file_name e = le_name info;
  ef_ancestors : DirEntry.follow_link_ancestors e = anc;
  ef_path : DirEntry.path e = path_join path (le_name info);
  ef_type : file_type_from_dtype (le_d_type info) = Some (DirEntry.file_type e);
  ef_children : DirEntry.read_children_path e =
    if le_d_type info =? DT_DIR then Some (path_join path (le_name info)) else None;
}.

Lemma from_raw_for depth path anc info md ext ft :
  file_type_from_dtype (le_d_type info) = Some ft ->
  exists e, DirEntry.from_raw depth path md ext (le_name info) ft anc = Ok e /\
    entry_for depth path anc info e.
Proof.
  intros Hft. eexists. split; [done|]. split; simpl; try done.
  by rewrite (dtype_is_dir _ _ Hft).
Qed.

(** An entry of known type is built, whatever becomes of its metadata. *)
Lemma make_dir_entry_linux_raw info ft depth path fd anc k :
  file_type_from_dtype (le_d_type info) = Some ft -> entry_ok info ->
  exists md ext k', make_dir_entry_linux (C := C) read_metadata read_metadata_ext info depth path fd anc k
    = Ret (DirEntry.from_raw depth path md ext (le_name info) ft anc, k').
Proof.
  intros Hft Hok. unfold make_dir_entry_linux. rewrite Hft. simpl default.
  assert (le_d_type info <> DT_UNKNOWN) as Hne by (intros E; by rewrite E in Hft).
  assert (forall p (k1 : K), p_file_type p = ft -> exists md ext k',
    Ret (DirEntry.from_raw (C := C) depth path (p_metadata p) (p_metadata_ext p) (le_name info)
      (p_file_type p) anc, k1) = Ret (DirEntry.from_raw depth path md ext (le_name info) ft anc, k')) as Hfin
    by (intros p k1 ->; eauto).
  unfold try_fill_from_statx, entry_ok in *. destruct (le_statx info) as [stx|]; simpl.
  { destruct (fill_from_statx_ret (le_d_type info) read_metadata read_metadata_ext stx
      (mk_parts ft None None) Hok) as (p & -> & Hp). simpl. by apply Hfin, Hp. }
  destruct (_ || _ || _); simpl; [|by apply (Hfin (mk_parts ft None None))].
  destruct (statx_metadata fd (le_name info) k) as [[stx|e] k1] eqn:Es; simpl.
  { assert (statx_ok stx) as Hs.
    { unfold statx_metadata in Es. destruct (CString_new _); [by eapply sane_statx|done]. }
    destruct (fill_from_statx_ret (le_d_type info) read_metadata read_metadata_ext stx
      (mk_parts ft None None) Hs) as (p & -> & Hp). simpl. by apply Hfin, Hp. }
  destruct (fstatat_metadata fd (le_name info) k1) as [[st|e'] k2] eqn:Ef; simpl;
    [|by apply (Hfin (mk_parts ft None None))].
  assert (stat_ok st) as Hs.
  { unfold fstatat_metadata in Ef. destruct (CString_new _); [by eapply sane_fstatat|done]. }
  destruct (fill_from_stat_ret (le_d_type info) read_metadata read_metadata_ext st
    (mk_parts ft None None) Hs) as (p & -> & Hp). simpl. by apply Hfin, Hp.
Qed.

Lemma make_dir_entry_linux_ok info depth path fd anc k :
  typed info -> entry_ok info ->
  exists e k', make_dir_entry_linux read_metadata read_metadata_ext info depth path fd anc k
      = Ret (Ok e, k') /\ entry_for depth path anc info e.
Proof.
  intros [ft Hft] Hok.
  destruct (make_dir_entry_linux_raw info ft depth path fd anc k Hft Hok) as (md & ext & k' & ->).
  destruct (from_raw_for depth path anc info md ext ft Hft) as (e & -> & He). eauto.
Qed.

(** The entries that are not skipped. *)
Definition kept (infos : list LinuxDirEntryOwned) : list LinuxDirEntryOwned :=
  List.filter (fun info => negb (skip_hidden && is_hidden (le_name info))) infos.

Lemma build_entries_ok infos depth path fd anc k :
  Forall typed infos -> Forall entry_ok infos -> depth <> 0 ->
  exists es k', build_entries fs false read_metadata read_metadata_ext skip_hidden infos depth path
      fd anc k = Ret (map Ok es, k') /\
    Forall2 (entry_for depth path anc) (kept infos) es.
Proof.
  intros Ht Hok Hd. revert k. induction Ht as [|info infos Hi _ IH]; intros k; simpl.
  { exists [], k. split; [done|constructor]. }
  apply Forall_cons in Hok as [Hoi Hok]. destruct (skip_hidden && is_hidden (le_name info)); simpl.
  { by apply IH. }
  destruct (make_dir_entry_linux_ok info depth path fd anc k Hi Hoi) as (e & k1 & -> & He). simpl.
  assert ((DirEntry.depth e =? 0) = false) as -> by (rewrite (ef_depth _ _ _ _ _ He); by apply Z.eqb_neq).
  destruct (IH Hok k1) as (es & k2 & -> & Hes). exists (e :: es), k2. split; [done|by constructor].
Qed.

(** What is read below [info]. *)
Definition spec_for (depth : Z) (path : Path) (anc : option (list AncestorIdentity.t))
    (st : ReadDirState) (info : LinuxDirEntryOwned) : ReadDirSpec.t C := {|
  ReadDirSpec.depth := depth;
  ReadDirSpec.path := path_join path (le_name info);
  ReadDirSpec.client_read_state := st;
  ReadDirSpec.follow_link_ancestors := anc;
|}.

Definition subdirs (infos : list LinuxDirEntryOwned) : list LinuxDirEntryOwned :=
  List.filter (fun info => le_d_type info =? DT_DIR) infos.

Lemma entries_children depth path anc st infos es :
  Forall2 (entry_for depth path anc) infos es ->
  omap (ReadDir.child_spec st) (map Ok es) = map (spec_for depth path anc st) (subdirs infos).
Proof.
  induction 1 as [|info e infos es He _ IH]; [done|]. cbn [map omap list_omap].
  assert (ReadDir.child_spec st (Ok e) =
    if le_d_type info =? DT_DIR then Some (spec_for depth path anc st info) else None) as ->.
  { destruct He as [E1 _ E2 _ _ E3]. unfold ReadDir.child_spec, DirEntry.read_children_spec.
    simpl res_ok. cbv iota. rewrite E3. by destruct (le_d_type info =? DT_DIR); [|done]; subst. }
  simpl. destruct (le_d_type info =? DT_DIR); [|done]. simpl. f_equal. exact IH.
Qed.

Lemma kept_subdirs_cons info infos :
  kept (subdirs (info :: infos)) =
    if (le_d_type info =? DT_DIR) && negb (skip_hidden && is_hidden (le_name info))
    then info :: kept (subdirs infos) else kept (subdirs infos).
Proof. unfold subdirs. simpl. by destruct (le_d_type info =? DT_DIR). Qed.

Lemma schedule_subdirs_undisturbed {R} ctx path depth st anc infos c (finish : Z -> run_of C R) :
  0 <= c -> c + Z.of_nat (length infos) <= usize_max ->
  let specs := map (spec_for depth path anc st) (kept (subdirs infos)) in
  undisturbed (schedule_subdirs skip_hidden ctx path depth st anc infos c finish) =
    let '(ws, r) := undisturbed (finish (c + Z.of_nat (length specs))) in
    (numbered (sc_index_path ctx) (saturating_add (sc_parent_weight ctx) 1) c specs ++ ws, r).
Proof.
  revert c. induction infos as [|info infos IH]; intros c Hc Hb.
  { simpl. rewrite Z.add_0_r. by destruct (undisturbed (finish c)). }
  rewrite length_cons in Hb. cbv zeta in *. rewrite kept_subdirs_cons.
  cbn [schedule_subdirs undisturbed negb].
  destruct (le_d_type info =? DT_DIR); cbn [negb andb]; [|apply IH; lia].
  destruct (skip_hidden && is_hidden (le_name info)); cbn [negb]; [apply IH; lia|].
  cbn [undisturbed]. rewrite usize_add_small by lia. rewrite IH by lia.
  cbn [map]. rewrite numbered_cons, update_last_snoc, length_cons.
  rewrite Nat2Z.inj_succ, <- Z.add_1_l, Z.add_assoc.
  by destruct (undisturbed (finish _)).
Qed.

Lemma subdirs_kept infos : kept (subdirs infos) = subdirs (kept infos).
Proof.
  induction infos as [|info infos IH]; [done|]. rewrite kept_subdirs_cons. simpl.
  destruct (le_d_type info =? DT_DIR) eqn:E, (negb (skip_hidden && is_hidden (le_name info)));
    simpl; rewrite ?E; by rewrite IH.
Qed.

Lemma refined_typed es es' : map entry_view es' = map entry_view es -> Forall typed es -> Forall typed es'.
Proof.
  intros E H. revert es' E. induction H as [|e es He _ IH]; intros [|e' es'] E; simplify_eq/=;
    [constructor|]. constructor; [|by apply IH]. unfold typed in *. congruence.
Qed.

(** The entries as [kept], [subdirs] and [spec_for] look at them. *)
Lemma refined_subdirs depth path anc st es es' :
  map entry_view es' = map entry_view es ->
  map (spec_for depth path anc st) (subdirs (kept es')) =
    map (spec_for depth path anc st) (subdirs (kept es)).
Proof.
  revert es'. induction es as [|e es IH]; intros [|e' es'] E; simplify_eq/=; [done|].
  match goal with H : le_name e' = le_name e |- _ => rewrite H end.
  destruct (negb (skip_hidden && is_hidden (le_name e))); [|by apply IH]. simpl.
  match goal with H : le_d_type e' = le_d_type e |- _ => rewrite H end.
  destruct (le_d_type e =? DT_DIR); [|by apply IH]. simpl. f_equal; [|by apply IH].
  unfold spec_for. congruence.
Qed.

Context (fuel : nat) (path : Path) (read_dir_depth depth : Z)
  (anc : option (list AncestorIdentity.t)) (st : ReadDirState).
Abbreviation read_dir := (read_dir_linux_via_getdents (K := K) fs false read_metadata
  read_metadata_ext skip_hidden false None fuel path read_dir_depth depth anc st).

(** The result for a directory whose [entries] were enumerated. *)
Lemma finish_read_dir_ok fd entries (th : thread) n :
  Forall typed entries -> Forall entry_ok entries -> depth <> 0 ->
  exists es th', finish_read_dir fs false read_metadata read_metadata_ext skip_hidden false None
      path read_dir_depth depth anc st (Ok (fd, entries)) th n =
      Ret (Ok (ReadDir.mk st (map Ok es) n), th') /\
    map DirEntry.file_name es = map le_name (kept entries) /\
    ReadDir.read_children_specs (ReadDir.mk st (map Ok es) n) =
      map (spec_for depth path anc st) (kept (subdirs entries)).
Proof.
  intros Ht Hok Hd. unfold finish_read_dir.
  destruct (prefetch_statx _ _ path entries fd th) as [entries' th1] eqn:Ep.
  apply prefetch_refined in Ep as [Ev Ho].
  destruct (build_entries_ok entries' depth path fd anc (th_kernel th1)) as (es & k & -> & Hes);
    [by eapply refined_typed|by apply Ho|done|].
  exists es. eexists. split; [done|]. split.
  - assert (map le_name (kept entries') = map le_name (kept entries)) as <-.
    { clear -Ev. revert entries' Ev. induction entries as [|e entries IH]; intros [|e' entries'] E;
        simplify_eq/=; [done|]. match goal with H : le_name e' = le_name e |- _ => rewrite H end.
      destruct (negb _); simpl; [|by apply IH]. f_equal; [done|by apply IH]. }
    clear -Hes. induction Hes as [|info e infos es He _ IH]; [done|]. simpl.
    by rewrite IH, (ef_name _ _ _ _ _ He).
  - unfold ReadDir.read_children_specs. simpl ReadDir.read_dir_state. simpl ReadDir.results_list.
    rewrite (entries_children depth path anc st _ _ Hes), subdirs_kept. by apply refined_subdirs.
Qed.

(** The directory [path] can be opened and listed to its end. *)
Inductive listable (k : K) (entries : list LinuxDirEntryOwned) : Prop :=
| mk_listable cstr fd k1 k2 batches :
    CString_new path = Some cstr -> sys_open_dir cstr k = (Ok fd, k1) ->
    dir_stream fd k1 batches (Ok tt) k2 -> (length batches < fuel)%nat ->
    entries = entries_of (concat batches) -> listable k entries.

Lemma entries_of_ok ds : Forall entry_ok (entries_of ds).
Proof.
  unfold entries_of, owned_entries. induction ds as [|d ds IH]; [constructor|].
  cbn [map omap list_omap dirent_view]. destruct (is_dot (de_name d)); [done|]. by constructor.
Qed.

(** What is scheduled while a directory is listed, also when the listing fails. *)
Lemma streamed_run follow_links ctx th cstr fd k1 bs r k2 :
  CString_new path = Some cstr -> sys_open_dir cstr (th_kernel th) = (Ok fd, k1) ->
  dir_stream fd k1 bs r k2 -> (length bs < fuel)%nat ->
  Z.of_nat (length (entries_of (concat bs))) <= usize_max ->
  let entries := entries_of (concat bs) in
  let specs := map (spec_for depth path anc st) (kept (subdirs entries)) in
  undisturbed (read_dir_linux_via_getdents fs follow_links read_metadata read_metadata_ext skip_hidden
      false None fuel path read_dir_depth depth anc st (Some ctx) th) =
    let finish := finish_read_dir fs follow_links read_metadata read_metadata_ext skip_hidden false
                    None path read_dir_depth depth anc st in
    (numbered (sc_index_path ctx) (saturating_add (sc_parent_weight ctx) 1) 0 specs,
     match r with
     | Ok _ => finish (Ok (fd, entries)) (set_kernel th k2)
     | Err e => finish (Err e) (set_kernel th (sys_close fd k2))
     end (Z.of_nat (length specs))).
Proof.
  intros Hp Ho Hs Hf Hb. cbv zeta. unfold read_dir_linux_via_getdents.
  rewrite (streaming_enumeration _ _ _ _ _ _ _ _ _ _ _ _ Hp Ho Hs Hf), fold_push. simpl app.
  set (entries := entries_of (concat bs)) in *. fold (subdirs entries).
  assert (subdirs (subdirs entries) = subdirs entries) as Hsub.
  { unfold subdirs. clear. induction entries as [|e l IH]; [done|]. simpl.
    destruct (le_d_type e =? DT_DIR) eqn:E; [|done]. simpl. by rewrite E, IH. }
  assert (Z.of_nat (length (subdirs entries)) <= usize_max).
  { unfold subdirs. pose proof (List.filter_length_le (fun i => le_d_type i =? DT_DIR) entries). lia. }
  destruct r; (rewrite schedule_subdirs_undisturbed by (done || lia));
    rewrite Hsub, Z.add_0_l; cbn [undisturbed]; by rewrite app_nil_r.
Qed.

Lemma read_dir_plain th entries :
  listable (th_kernel th) entries -> Forall typed entries -> depth <> 0 ->
  exists es th', read_dir None th = Returns (Ret (Ok (ReadDir.mk st (map Ok es) 0), th')) /\
    map DirEntry.file_name es = map le_name (kept entries).
Proof.
  intros [cstr fd k1 k2 bs Hp Ho Hs Hf ->] Ht Hd. unfold read_dir_linux_via_getdents.
  rewrite (plain_enumeration _ _ _ _ _ _ _ _ _ _ Hp Ho Hs Hf).
  destruct (finish_read_dir_ok fd (entries_of (concat bs)) (set_kernel th k2) 0)
    as (es & th' & -> & Hn & _); [done|apply entries_of_ok|done|]. eauto.
Qed.

Lemma read_dir_streams ctx th entries :
  listable (th_kernel th) entries -> Forall typed entries -> depth <> 0 ->
  Z.of_nat (length entries) <= usize_max ->
  exists es ws th',
    let rd := ReadDir.mk st (map Ok es) (Z.of_nat (length ws)) in
    undisturbed (read_dir (Some ctx) th) = (ws, Ret (Ok rd, th')) /\
    read_dir None th = Returns (Ret (Ok (ReadDir.mk st (map Ok es) 0), th')) /\
    map DirEntry.file_name es = map le_name (kept entries) /\
    ReadDir.read_children_specs rd = map (spec_for depth path anc st) (subdirs (kept entries)) /\
    ws = numbered (sc_index_path ctx) (saturating_add (sc_parent_weight ctx) 1) 0
           (ReadDir.read_children_specs rd).
Proof.
  intros [cstr fd k1 k2 bs Hp Ho Hs Hf ->] Ht Hd Hb.
  set (entries := entries_of (concat bs)) in *.
  set (specs := map (spec_for depth path anc st) (kept (subdirs entries))).
  destruct (finish_read_dir_ok fd entries (set_kernel th k2) 0)
    as (es & th' & E0 & Hn & Hc); [done|apply entries_of_ok|done|].
  assert (finish_read_dir fs false read_metadata read_metadata_ext skip_hidden false None
      path read_dir_depth depth anc st (Ok (fd, entries)) (set_kernel th k2)
      (Z.of_nat (length specs)) =
    Ret (Ok (ReadDir.mk st (map Ok es) (Z.of_nat (length specs))), th')) as E1.
  { clear -E0. unfold finish_read_dir in *. destruct (prefetch_statx _ _ _ _ _ _) as [en th1].
    destruct (build_entries _ _ _ _ _ _ _ _ _ _ _) as [[l k]| |]; simpl in *; congruence. }
  exists es, (numbered (sc_index_path ctx) (saturating_add (sc_parent_weight ctx) 1) 0 specs), th'.
  rewrite length_numbered. cbv zeta. split_and!.
  - rewrite (streamed_run false ctx th _ _ _ _ _ _ Hp Ho Hs Hf Hb). cbv zeta.
    fold entries. fold specs. by rewrite E1.
  - unfold read_dir_linux_via_getdents.
    rewrite (plain_enumeration _ _ _ _ _ _ _ _ _ _ Hp Ho Hs Hf). by fold entries; rewrite E0.
  - done.
  - change (ReadDir.read_children_specs _) with
      (ReadDir.read_children_specs (ReadDir.mk st (map Ok es) 0)). by rewrite Hc, subdirs_kept.
  - change (ReadDir.read_children_specs _) with
      (ReadDir.read_children_specs (ReadDir.mk st (map Ok es) 0)). by rewrite Hc.
Qed.

(** C6: reading, in streaming mode (the listing neither sorted nor processed as a whole) and
    with links not followed, a directory that can be listed to its end and whose entries have a known type: unless disturbed, the
    callback schedules exactly the sub-directories of what it returns, in order and numbered
    from 0; it returns the entries that the non-streaming path returns, in the order of the
    enumeration, hidden ones left out if asked; its sub-directories are the entries of type
    directory, and they are counted as streamed. *)
Theorem linux_streaming_read ctx th entries :
  listable (th_kernel th) entries -> Forall typed entries -> depth <> 0 ->
  Z.of_nat (length entries) <= usize_max ->
  exists es ws th',
    let rd := ReadDir.mk st (map Ok es) (Z.of_nat (length ws)) in
    undisturbed (read_dir (Some ctx) th) = (ws, Ret (Ok rd, th')) /\
    read_dir None th = Returns (Ret (Ok (ReadDir.mk st (map Ok es) 0), th')) /\
    map DirEntry.file_name es = map le_name (kept entries) /\
    ReadDir.read_children_specs rd = map (spec_for depth path anc st) (subdirs (kept entries)) /\
    ws = numbered (sc_index_path ctx) (saturating_add (sc_parent_weight ctx) 1) 0
           (ReadDir.read_children_specs rd).
Proof. apply read_dir_streams. Qed.
End Build.

(** ** Where streaming and the result diverge *)

Section Divergences.
Context {C : ClientState} {K : Type} {HS : Sys K} {HF : FsSys K} {HR : Ring K} {HK : SaneKernel K}.
Context (fs : FileSystem) (follow_links read_metadata read_metadata_ext skip_hidden : bool).
Context (fuel : nat) (path : Path) (read_dir_depth depth : Z)
  (anc : option (list AncestorIdentity.t)) (st : ReadDirState).
Abbreviation read_dir follow_links := (read_dir_linux_via_getdents (C := C) (K := K) fs follow_links
  read_metadata read_metadata_ext skip_hidden false None fuel path read_dir_depth depth anc st).
Abbreviation finish follow_links := (finish_read_dir (C := C) (K := K) fs follow_links read_metadata
  read_metadata_ext skip_hidden false None path read_dir_depth depth anc st).
Abbreviation specs_of infos := (map (spec_for (C := C) depth path anc st) infos).
Abbreviation kept := (kept skip_hidden).

(** When the enumeration fails after a sub-directory was scheduled, the result
    counts it as streamed and has no entry for it: its read comes with no
    directory to belong to. *)
Theorem streaming_error_orphans_reads ctx th cstr fd k1 bs e k2 :
  CString_new path = Some cstr -> sys_open_dir cstr (th_kernel th) = (Ok fd, k1) ->
  dir_stream fd k1 bs (Err e) k2 -> (length bs < fuel)%nat ->
  Z.of_nat (length (entries_of (concat bs))) <= usize_max ->
  kept (subdirs (entries_of (concat bs))) <> [] ->
  exists ws rd th',
    undisturbed (read_dir follow_links (Some ctx) th) = (ws, Ret (Ok rd, th')) /\
    (0 < length ws)%nat /\ ReadDir.streamed_child_count rd = Z.of_nat (length ws) /\
    ReadDir.results_list rd = [Err (Error.from_path 0 path e)] /\
    ReadDir.read_children_specs rd = [].
Proof.
  intros Hp Ho Hs Hf Hb Hne. rewrite (streamed_run _ _ _ _ _ _ _ _ _ _ _ ctx th _ _ _ _ _ _ Hp Ho Hs Hf Hb).
  set (specs := specs_of _).
  assert (0 < length specs)%nat as Hlen.
  { unfold specs. rewrite length_map. destruct (kept _); [done|]. simpl. lia. }
  unfold finish_read_dir. rewrite (proj2 (Z.ltb_lt _ _)) by lia.
  do 3 eexists. split; [reflexivity|]. by rewrite length_numbered.
Qed.

Lemma dtype_is_symlink d ft : file_type_from_dtype d = Some ft -> Platform.is_symlink ft = (d =? DT_LNK).
Proof.
  unfold file_type_from_dtype. intros E.
  repeat match type of E with context [Z.eqb d ?b] =>
    destruct (Z.eqb_spec d b) as [->|_]; [injection E as <-; by vm_compute|] end. done.
Qed.

(** [info] is a link that the walk follows to a directory. *)
Definition followed_dir (info : LinuxDirEntryOwned) : Prop :=
  le_d_type info = DT_LNK /\
  forall e : DirEntry.t C, entry_for depth path anc info e ->
    exists e', DirEntry.follow_symlink fs e = Ok e' /\ is_Some (DirEntry.read_children_path e').

Lemma followed_dir_view info info' :
  entry_view info' = entry_view info -> followed_dir info -> followed_dir info'.
Proof.
  intros E [Hd H]. unfold entry_view in E. injection E as E1 E2. split; [congruence|].
  intros e [H1 H2 H3 H4 H5 H6]. rewrite E1, E2 in *. by apply H.
Qed.

Lemma Exists_followed_view infos infos' :
  map entry_view infos' = map entry_view infos ->
  Exists followed_dir (kept infos) -> Exists followed_dir (kept infos').
Proof.
  revert infos'. induction infos as [|info infos IH]; intros [|info' infos'] E; simplify_eq/=; [done|].
  assert (entry_view info' = entry_view info) as Ev by (unfold entry_view; congruence).
  match goal with H : le_name info' = le_name info |- _ => rewrite H end.
  destruct (negb (skip_hidden && is_hidden (le_name info))); [|by apply IH].
  rewrite !Exists_cons. intros [Hi|Hi]; [left; by eapply followed_dir_view|right; by apply IH].
Qed.

(** An entry to be read below. *)
Lemma child_spec_some (e : DirEntry.t C) :
  is_Some (DirEntry.read_children_path e) -> is_Some (ReadDir.child_spec st (Ok e)).
Proof.
  intros [p E]. unfold ReadDir.child_spec, DirEntry.read_children_spec. simpl. rewrite E. by eexists.
Qed.

(** What the entry of [info] becomes. *)
Lemma process_followed info e :
  entry_for depth path anc info e ->
  let one := process_dir_entry_result fs (Ok e) true in
  (le_d_type info = DT_DIR -> is_Some (ReadDir.child_spec st one)) /\
  (followed_dir info -> is_Some (ReadDir.child_spec st one)).
Proof.
  intros He one. pose proof He as [_ _ _ _ Hft Hch]. split.
  - intros Hd. unfold one, process_dir_entry_result. rewrite (dtype_is_symlink _ _ Hft), Hd.
    simpl. apply child_spec_some. rewrite Hch, Hd. by eexists.
  - intros [Hd H]. destruct (H e He) as (e' & E & Hsome). unfold one, process_dir_entry_result.
    rewrite (dtype_is_symlink _ _ Hft), Hd. simpl. rewrite E. simpl. by apply child_spec_some.
Qed.

(** The sub-directories of the result: those of type directory, and those that become
    one in some other way ([P]). *)
Lemma build_entries_counts (P : LinuxDirEntryOwned -> Prop) follow infos fd :
  (forall info, P info -> le_d_type info <> DT_DIR) ->
  Forall (fun info => forall k : K, exists e k',
    make_dir_entry_linux (C := C) read_metadata read_metadata_ext info depth path fd anc k =
      Ret (Ok e, k') /\
    (le_d_type info = DT_DIR \/ P info ->
     is_Some (ReadDir.child_spec st (process_dir_entry_result fs (Ok e) follow)))) infos ->
  forall k, exists results k',
    build_entries fs follow read_metadata read_metadata_ext skip_hidden infos depth path fd anc k =
      Ret (results, k') /\
    let n := length (omap (ReadDir.child_spec st) results) in
    (length (subdirs (kept infos)) <= n)%nat /\
    (Exists P (kept infos) -> length (subdirs (kept infos)) < n)%nat.
Proof.
  intros HP Hinfos. induction Hinfos as [|info infos Hi _ IH]; intros k.
  { exists [], k. split; [done|]. split; [done|]. by intros H%Exists_nil. }
  cbn [build_entries LinuxReadDir.kept List.filter].
  destruct (skip_hidden && is_hidden (le_name info)); cbn [negb]; [by apply IH|].
  destruct (Hi k) as (e & k1 & -> & Hone). cbn [exec_bind].
  destruct (IH k1) as (results & k2 & -> & Hle & Hlt). cbn [exec_bind].
  do 2 eexists. split; [reflexivity|].
  cbn [omap list_omap]. set (one := ReadDir.child_spec st _) in *.
  unfold subdirs in *. cbn [List.filter]. cbv zeta in *. fold (kept infos).
  rewrite Exists_cons. destruct (Z.eqb_spec (le_d_type info) DT_DIR) as [Hd|Hd].
  - destruct Hone as [s ->]; [by left|]. cbn [length]. split; [lia|].
    intros [Hl|H]; [by apply HP in Hl|]. specialize (Hlt H). lia.
  - split; [destruct one; cbn [length]; lia|]. intros [H|H].
    + destruct Hone as [s ->]; [by right|]. cbn [length]. lia.
    + specialize (Hlt H). destruct one; cbn [length]; lia.
Qed.

Lemma build_entries_following infos fd (k : K) :
  Forall typed infos -> Forall entry_ok infos ->
  exists results k', build_entries (C := C) fs true read_metadata read_metadata_ext skip_hidden infos
      depth path fd anc k = Ret (results, k') /\
    let n := length (omap (ReadDir.child_spec st) results) in
    (length (subdirs (kept infos)) <= n)%nat /\
    (Exists followed_dir (kept infos) -> length (subdirs (kept infos)) < n)%nat.
Proof.
  intros Ht Hok. apply build_entries_counts.
  - intros info [Hl _]. by rewrite Hl.
  - apply Forall_forall. intros info Hin k'. rewrite Forall_forall in Ht, Hok.
    destruct (make_dir_entry_linux_ok (C := C) read_metadata read_metadata_ext info depth path fd anc k')
      as (e & k1 & -> & He); [by apply Ht|by apply Hok|].
    exists e, k1. split; [done|]. destruct (process_followed info e He) as [H1 H2].
    intros [H|H]; auto.
Qed.

(** C37: with [follow_links], when a directory has a sub-directory and a link that leads
    to a directory, the streaming callback schedules (and counts) fewer directories
    than the result has to be read: the read of the link never comes. *)
Theorem streaming_misses_followed_links ctx th entries :
  listable fuel path (th_kernel th) entries -> Forall typed entries ->
  Z.of_nat (length entries) <= usize_max ->
  subdirs (kept entries) <> [] -> Exists followed_dir (kept entries) ->
  exists ws rd th',
    undisturbed (read_dir true (Some ctx) th) = (ws, Ret (Ok rd, th')) /\
    ReadDir.streamed_child_count rd = Z.of_nat (length ws) /\
    (0 < length ws < length (ReadDir.read_children_specs rd))%nat.
Proof.
  intros [cstr fd k1 k2 bs Hp Ho Hs Hf ->] Ht Hb Hne Hex.
  rewrite (streamed_run _ _ _ _ _ _ _ _ _ _ _ ctx th _ _ _ _ _ _ Hp Ho Hs Hf Hb), subdirs_kept.
  set (entries := entries_of (concat bs)) in *. unfold finish_read_dir.
  destruct (prefetch_statx _ _ path entries fd (set_kernel th k2)) as [entries' th1] eqn:Ep.
  apply prefetch_refined in Ep as [Ev Hok].
  destruct (build_entries_following entries' fd (th_kernel th1)) as (results & k' & -> & _ & Hlt);
    [by eapply refined_typed|apply Hok, entries_of_ok|].
  do 3 eexists. split; [reflexivity|]. rewrite length_numbered, length_map. split; [done|].
  pose proof (refined_subdirs (C := C) skip_hidden depth path anc st _ _ Ev) as Hlen.
  apply (f_equal length) in Hlen. rewrite !length_map in Hlen. unfold ReadDir.read_children_specs.
  cbn [ReadDir.read_dir_state ReadDir.results_list]. rewrite <- Hlen in *. split.
  - rewrite Hlen. destruct (subdirs (kept entries)); [done|]. simpl. lia.
  - apply Hlt. by eapply Exists_followed_view.
Qed.
Lemma fill_from_statx_unknown rm rme stx p :
  statx_ok stx -> exists p', fill_from_statx DT_UNKNOWN rm rme stx p = Ret p' /\
    p_file_type p' = file_type_from_mode (stx_mode stx).
Proof.
  intros Hs. pose proof (fill_from_statx_ret DT_UNKNOWN rm rme stx p Hs) as (p' & E & _).
  exists p'. split; [done|]. unfold fill_from_statx in E. cbn [Z.eqb DT_UNKNOWN] in E.
  destruct rm; simpl in E; [|by simplify_eq].
  destruct (statx_metadata_of stx); simpl in E; by simplify_eq.
Qed.

(** Nothing is fetched in advance on a local file system. *)
Lemma prefetch_local rm rme p entries fd (th : thread) :
  fst (fst (detect (th_cache th) p (th_kernel th))) <> NetworkAsync ->
  exists th', prefetch_statx rm rme p entries fd th = (entries, th').
Proof.
  intros Hl. unfold prefetch_statx. destruct (detect _ _ _) as [[strategy cache] k].
  rewrite bool_decide_false by done. by eexists.
Qed.

Lemma entries_of_unfetched ds : Forall (fun info => le_statx info = None) (entries_of ds).
Proof.
  unfold entries_of, owned_entries. induction ds as [|d ds IH]; [constructor|].
  cbn [map omap list_omap dirent_view]. destruct (is_dot (de_name d)); [done|]. by constructor.
Qed.

(** [info] has an unknown type, and is a directory. *)
Definition unknown_dir (info : LinuxDirEntryOwned) : Prop :=
  le_d_type info = DT_UNKNOWN /\ CString_new (le_name info) = Some (le_name info) /\
  forall fd (k : K), exists stx k', sys_statx fd (le_name info) k = (Ok stx, k') /\
    is_dir (file_type_from_mode (stx_mode stx)) = true.

(** An entry whose type has to be asked for. *)
Lemma make_dir_entry_unknown info fd (k : K) :
  unknown_dir info -> le_statx info = None ->
  exists (e : DirEntry.t C) k',
    make_dir_entry_linux read_metadata read_metadata_ext info depth path fd anc k = Ret (Ok e, k') /\
    Platform.is_symlink (DirEntry.file_type e) = false /\ is_Some (DirEntry.read_children_path e).
Proof.
  intros (Hu & Hc & Hs) Hn. unfold make_dir_entry_linux, try_fill_from_statx, statx_metadata.
  rewrite Hu, Hn, Hc. cbn [exec_bind]. rewrite orb_true_r. cbn [negb andb].
  destruct (Hs fd k) as (stx & k1 & Es & Hdir). rewrite Es.
  destruct (fill_from_statx_unknown read_metadata read_metadata_ext stx
    (mk_parts (default (file_type_from_mode S_IFREG) (file_type_from_dtype DT_UNKNOWN)) None None))
    as (p & -> & Hp); [by eapply sane_statx|].
  cbn [exec_bind]. do 2 eexists. split; [reflexivity|]. simpl. rewrite Hp, Hdir.
  split; [by apply ft_kinds_disjoint|by eexists].
Qed.

Lemma build_entries_unknown infos fd (k : K) :
  Forall (fun info => typed info \/ unknown_dir info) infos ->
  Forall (fun info => le_statx info = None) infos -> depth <> 0 ->
  exists results k', build_entries (C := C) fs false read_metadata read_metadata_ext skip_hidden infos
      depth path fd anc k = Ret (results, k') /\
    let n := length (omap (ReadDir.child_spec st) results) in
    (length (subdirs (kept infos)) <= n)%nat /\
    (Exists unknown_dir (kept infos) -> length (subdirs (kept infos)) < n)%nat.
Proof.
  intros Ht Hn Hd. apply build_entries_counts.
  - intros info [Hl _]. by rewrite Hl.
  - apply Forall_forall. intros info Hin k'. rewrite Forall_forall in Ht, Hn.
    destruct (Ht info Hin) as [Hty|Hu].
    + destruct (make_dir_entry_linux_ok (C := C) read_metadata read_metadata_ext info depth path fd
        anc k') as (e & k1 & -> & He); [done|by unfold entry_ok; rewrite Hn|].
      exists e, k1. split; [done|]. intros [H|[H _]].
      * unfold process_dir_entry_result. cbn [andb negb res_bind].
        rewrite (proj2 (Z.eqb_neq _ _)) by (by rewrite (ef_depth _ _ _ _ _ He)).
        apply child_spec_some. rewrite (ef_children _ _ _ _ _ He), H. by eexists.
      * unfold typed in Hty. rewrite H in Hty. by destruct Hty.
    + destruct (make_dir_entry_unknown info fd k' Hu (Hn _ Hin)) as (e & k1 & -> & Hl & Hc).
      exists e, k1. split; [done|]. intros _. unfold process_dir_entry_result.
      cbn [andb negb res_bind]. rewrite Hl, andb_false_r. by apply child_spec_some.
Qed.

(** When a directory has a sub-directory [getdents64] gives a type for and one of
    type [DT_UNKNOWN], the streaming callback schedules (and counts) fewer
    directories than the result has to be read: the second read never comes. *)
Theorem streaming_misses_unknown_type ctx th entries :
  listable fuel path (th_kernel th) entries ->
  Forall (fun info => typed info \/ unknown_dir info) entries ->
  Z.of_nat (length entries) <= usize_max -> depth <> 0 ->
  (forall k, fst (fst (detect (th_cache th) path k)) <> NetworkAsync) ->
  subdirs (kept entries) <> [] -> Exists unknown_dir (kept entries) ->
  exists ws rd th',
    undisturbed (read_dir false (Some ctx) th) = (ws, Ret (Ok rd, th')) /\
    ReadDir.streamed_child_count rd = Z.of_nat (length ws) /\
    (0 < length ws < length (ReadDir.read_children_specs rd))%nat.
Proof.
  intros [cstr fd k1 k2 bs Hp Ho Hs Hf ->] Ht Hb Hd Hlocal Hne Hex.
  rewrite (streamed_run _ _ _ _ _ _ _ _ _ _ _ ctx th _ _ _ _ _ _ Hp Ho Hs Hf Hb), subdirs_kept.
  set (entries := entries_of (concat bs)) in *. unfold finish_read_dir.
  destruct (prefetch_local read_metadata read_metadata_ext path entries fd (set_kernel th k2))
    as [th1 ->]; [apply Hlocal|].
  destruct (build_entries_unknown entries fd (th_kernel th1)) as (results & k' & -> & _ & Hlt);
    [done|apply entries_of_unfetched|done|].
  do 3 eexists. split; [reflexivity|]. rewrite length_numbered, length_map. split; [done|].
  unfold ReadDir.read_children_specs. cbn [ReadDir.read_dir_state ReadDir.results_list]. split.
  - destruct (subdirs (kept entries)); [done|]. simpl. lia.
  - by apply Hlt.
Qed.
End Divergences.

(** ** Examples *)

(** A kernel with one directory, whose listing may end in an error; [statx] says
    everything is a directory. *)
Record lab := mk_lab { lab_batches : list (list dirent); lab_end : option io_Error }.

Definition lab_statx : statx :=
  mk_statx 0x7ff 0x41ED 5 2 4096 8 0 0 4096 8 1 0 0 zero_time zero_time zero_time zero_time.

#[export] Instance lab_sys : Sys lab := {
  sys_open_dir _ k := (Ok 3, k);
  sys_getdents64 _ _ k :=
    match lab_batches k with
    | [] => match lab_end k with None => (Ok [], k) | Some e => (Err e, k) end
    | b :: bs => (Ok (dirents_bytes b), mk_lab bs (lab_end k))
    end;
  sys_close _ k := k;
  sys_fstatat _ _ k := (Err (Os 2 Other), k);
  sys_statx _ _ k := (Ok lab_statx, k);
}.

#[export] Instance lab_fs_sys : FsSys lab := {
  sys_stat_dev _ k := (Ok 8, k);
  sys_statfs _ k := (Some EXT4_SUPER_MAGIC, k);
  sys_timed_fstatat _ _ k := (true, 10, k);
}.

#[export] Instance lab_ring : Ring lab := {
  ring_build _ k := (Err (Os 38 Other), k);
  ring_push _ _ := false;
  ring_submit_and_wait _ _ k := (Err (Os 38 Other), k);
}.

#[export] Instance lab_sane : SaneKernel lab.
Proof.
  split; intros; simplify_eq/=; repeat split; vm_compute; congruence.
Qed.

Definition lab_thread (bs : list (list dirent)) (e : option io_Error) : thread (K := lab) :=
  mk_thread (mk_lab bs e) cache_new None [].

Definition lab_ctx : StreamingContext := mk_streaming_context (IndexPath.mk [0]) 100.

Definition lab_read_following (follow_links : bool) (ctx : option StreamingContext)
    (th : thread (K := lab)) :
    run_of unit_client (exec (Result (ReadDir.t unit_client) * thread (K := lab))) :=
  read_dir_linux_via_getdents (C := unit_client) sample_fs follow_links false false false false
    None 4 (bytes "/r") 0 1 None tt ctx th.

Abbreviation lab_read := (lab_read_following false).

Definition lab_sample_entries : list LinuxDirEntryOwned :=
  [mk_linux_entry DT_DIR (bytes "sub") None; mk_linux_entry DT_REG (bytes "f.txt") None].

Lemma lab_sample_listable :
  listable 4 (bytes "/r") (th_kernel (lab_thread [sample_dirents] None)) lab_sample_entries.
Proof.
  eapply (mk_listable _ _ _ _ (bytes "/r") 3 (mk_lab [sample_dirents] None) (mk_lab [] None)
    [sample_dirents]); [by vm_compute|done| |simpl; lia|by vm_compute].
  eapply stream_batch_of; [done|apply sample_dirents_ok|by vm_compute|done|]. by constructor.
Qed.

Lemma lab_sample_typed : Forall typed lab_sample_entries.
Proof. repeat constructor; by eexists. Qed.

Lemma linux_streaming_read_witness :
  exists es ws th',
    let rd := @ReadDir.mk _ unit_client tt (map Ok es) (Z.of_nat (length ws)) in
    undisturbed (lab_read (Some lab_ctx) (lab_thread [sample_dirents] None)) = (ws, Ret (Ok rd, th')) /\
    lab_read None (lab_thread [sample_dirents] None) =
      Returns (Ret (Ok (@ReadDir.mk _ unit_client tt (map Ok es) 0), th')) /\
    map DirEntry.file_name es = [bytes "sub"; bytes "f.txt"] /\
    ReadDir.read_children_specs rd = [@ReadDirSpec.mk _ unit_client 1 (bytes "/r/sub") tt None] /\
    ws = numbered (IndexPath.mk [0]) 101 0 (ReadDir.read_children_specs rd).
Proof.
  apply (linux_streaming_read (C := unit_client) sample_fs false false false 4 (bytes "/r") 0 1 None
    tt lab_ctx (lab_thread [sample_dirents] None) lab_sample_entries).
  - exact lab_sample_listable.
  - exact lab_sample_typed.
  - lia.
  - by vm_compute.
Defined.

Definition lab_sub : dirent := mk_dirent 7 1 DT_DIR (bytes "sub").
Definition lab_link : dirent := mk_dirent 9 2 DT_LNK (bytes "link").

Lemma lab_dirents_ok : Forall dirent_ok [lab_sub; lab_link].
Proof. solve_dirents_ok. Qed.

Lemma streaming_error_orphans_reads_witness :
  exists ws rd th',
    undisturbed (lab_read (Some lab_ctx) (lab_thread [[lab_sub]] (Some (Os 5 Other)))) =
      (ws, Ret (Ok rd, th')) /\
    (0 < length ws)%nat /\ ReadDir.streamed_child_count rd = Z.of_nat (length ws) /\
    ReadDir.results_list rd = [Err (Error.from_path 0 (bytes "/r") (Os 5 Other))] /\
    ReadDir.read_children_specs rd = [].
Proof.
  apply (streaming_error_orphans_reads (C := unit_client) sample_fs false false false false 4
    (bytes "/r") 0 1 None tt lab_ctx (lab_thread [[lab_sub]] (Some (Os 5 Other))) (bytes "/r") 3
    (mk_lab [[lab_sub]] (Some (Os 5 Other))) [[lab_sub]] (Os 5 Other) (mk_lab [] (Some (Os 5 Other))));
    [by vm_compute|done| |simpl; lia|by vm_compute|by vm_compute].
  eapply stream_batch_of; [done|exact (Forall_take _ 1 _ lab_dirents_ok)
    |by vm_compute|done|]. by constructor.
Defined.

Lemma streaming_misses_followed_links_witness :
  exists ws rd th',
    undisturbed (lab_read_following true (Some lab_ctx) (lab_thread [[lab_sub; lab_link]] None)) =
      (ws, Ret (Ok rd, th')) /\
    ReadDir.streamed_child_count rd = Z.of_nat (length ws) /\
    (0 < length ws < length (ReadDir.read_children_specs rd))%nat.
Proof.
  apply (streaming_misses_followed_links (C := unit_client) sample_fs false false false 4
    (bytes "/r") 0 1 None tt lab_ctx (lab_thread [[lab_sub; lab_link]] None)
    (entries_of [lab_sub; lab_link])).
  - eapply (mk_listable _ _ _ _ (bytes "/r") 3 (mk_lab [[lab_sub; lab_link]] None) (mk_lab [] None)
      [[lab_sub; lab_link]]); [by vm_compute|done| |simpl; lia|by vm_compute].
    eapply stream_batch_of; [done|exact lab_dirents_ok|by vm_compute|done|]. by constructor.
  - repeat constructor; by eexists.
  - by vm_compute.
  - by vm_compute.
  - apply Exists_cons. right. apply Exists_cons. left. split; [done|].
    intros e [_ _ Ha _ _ _]. unfold DirEntry.follow_symlink, DirEntry.from_path. simpl. rewrite Ha.
    destruct (DirEntry.read_metadata e); (eexists; split; [reflexivity|]); by eexists.
Defined.

Definition lab_odd : dirent := mk_dirent 9 2 DT_UNKNOWN (bytes "link").

Lemma streaming_misses_unknown_type_witness :
  exists ws rd th',
    undisturbed (lab_read (Some lab_ctx) (lab_thread [[lab_sub; lab_odd]] None)) =
      (ws, Ret (Ok rd, th')) /\
    ReadDir.streamed_child_count rd = Z.of_nat (length ws) /\
    (0 < length ws < length (ReadDir.read_children_specs rd))%nat.
Proof.
  assert (unknown_dir (K := lab) (mk_linux_entry DT_UNKNOWN (bytes "link") None)) as Hu.
  { split; [done|]. split; [by vm_compute|]. intros fd k. by exists lab_statx, k. }
  apply (streaming_misses_unknown_type (C := unit_client) sample_fs false false false 4
    (bytes "/r") 0 1 None tt lab_ctx (lab_thread [[lab_sub; lab_odd]] None)
    [mk_linux_entry DT_DIR (bytes "sub") None; mk_linux_entry DT_UNKNOWN (bytes "link") None]).
  - eapply (mk_listable _ _ _ _ (bytes "/r") 3 (mk_lab [[lab_sub; lab_odd]] None) (mk_lab [] None)
      [[lab_sub; lab_odd]]); [by vm_compute|done| |simpl; lia|by vm_compute].
    eapply stream_batch_of; [done|solve_dirents_ok|by vm_compute|done|by constructor].
  - apply Forall_cons_2; [left; by eexists|]. apply Forall_cons_2; [by right|constructor].
  - by vm_compute.
  - lia.
  - intros k. by vm_compute.
  - by vm_compute.
  - apply Exists_cons. right. by constructor.
Defined.
