(* ===== verification/Targets.v ===== *)
(** * What the target selects on Linux: [linux_io_uring_available], and entries without
    [statx]

    The rest of the development is for the GNU environment, where [libc] has [statx].  Here
    is what the [cfg] attributes select elsewhere. *)
From S2P Require Import Prelude Order Error Platform DirEntry Callback Std Metadata UnixEnum.
From S2P Require Import FsDetect IoUring LinuxReadDir.

(** ** [linux_io_uring_available] *)

(** The conditions of the [cfg] attributes. *)
Record config := mk_config {
  target_os_linux : bool;
  target_env_gnu : bool;
  legacy_read_dir : bool;
  io_uring_arch : bool;
}.

(** The function that is compiled, if one is, applied. *)
Definition linux_io_uring_available {K} `{Ring K} (c : config) (available : option bool) (k : K) :
    option (bool * option bool * K) :=
  if target_os_linux c && target_env_gnu c && negb (legacy_read_dir c) && io_uring_arch c
  then Some (io_uring_enabled available k)
  else if negb (target_os_linux c && negb (legacy_read_dir c) && io_uring_arch c)
  then Some (false, available, k)
  else None.

(** Where it exists it answers what the probe answers, on a GNU Linux, and no elsewhere;
    on a Linux that is not GNU, without [legacy-read-dir], it does not exist: neither
    definition is compiled. *)
Theorem io_uring_available_missing {K} `{Ring K} c available (k : K) :
  match linux_io_uring_available c available k with
  | Some (b, available', k') =>
      (target_os_linux c = false \/ legacy_read_dir c = true -> b = false) /\
      (b = true -> (b, available', k') = io_uring_enabled available k)
  | None => target_os_linux c = true /\ target_env_gnu c = false /\ legacy_read_dir c = false /\
      io_uring_arch c = true
  end.
Proof.
  destruct c as [[] [] [] []]; cbn; try (by split; [intros [|]|]); try done;
    destruct (io_uring_enabled available k) as [[b a] k']; by split; [intros [|]|].
Qed.

(** ** Entries without [statx] *)

Section NoStatx.
Context {C : ClientState} {K : Type} {HS : Sys K}.
Context (read_metadata read_metadata_ext : bool).

(** [try_fill_from_statx] where [libc] has no [statx] *)
Definition try_fill_from_statx_stub (p : entry_parts) : bool * entry_parts := (false, p).

(** [make_dir_entry_linux] there: [statx_sync_ok] is [false]. *)
Definition make_dir_entry_no_statx (info : LinuxDirEntryOwned) (depth : Z) (parent_path : Path)
    (dirfd : Z) (follow_link_ancestors : option (list AncestorIdentity.t)) (k : K) :
    exec (Result (DirEntry.t C) * K) :=
  let need_stat := read_metadata || read_metadata_ext || (le_d_type info =? DT_UNKNOWN) in
  let file_type := default (file_type_from_mode S_IFREG) (file_type_from_dtype (le_d_type info)) in
  let '(statx_filled, p) := try_fill_from_statx_stub (mk_parts file_type None None) in
  let! r :=
    (if negb statx_filled && need_stat then
       match fstatat_metadata dirfd (le_name info) k with
       | (Ok st, k) =>
           let! p := fill_from_stat (le_d_type info) read_metadata read_metadata_ext st p in
           Ret (p, k)
       | (Err _, k) => Ret (p, k)
       end
     else Ret (p, k)) in
  let '(p, k) := r in
  Ret (DirEntry.from_raw depth parent_path (p_metadata p) (p_metadata_ext p) (le_name info)
         (p_file_type p) follow_link_ancestors, k).

(** It makes of an entry what the GNU code makes of it when nothing was prefetched and
    [statx] fails without a trace. *)
Theorem no_statx_agrees info depth path fd anc (k : K) :
  le_statx info = None -> (exists e, statx_metadata fd (le_name info) k = (Err e, k)) ->
  make_dir_entry_no_statx info depth path fd anc k =
    make_dir_entry_linux read_metadata read_metadata_ext info depth path fd anc k.
Proof.
  intros Hn [e He]. unfold make_dir_entry_no_statx, make_dir_entry_linux, try_fill_from_statx,
    try_fill_from_statx_stub. rewrite Hn. cbn [exec_bind]. destruct (negb false && _); [|done].
  rewrite He. by destruct (fstatat_metadata fd (le_name info) k) as [[st|err] k'].
Qed.
End NoStatx.
