(* ===== verification/LegacyReadDir.v ===== *)
(** * The portable Unix reader: [read_dir_unix_fs_legacy] of [lib.rs]

    What [std::fs::read_dir] gives for a path is an argument: the list of its
    results.  On Linux, for the same listing, the reader returns what
    [read_dir_linux_via_getdents] returns. *)
From S2P Require Import Prelude Order Error Platform DirEntry Callback Std Metadata UnixEnum.
From S2P Require Import FsDetect IoUring LinuxReadDir.

Section Legacy.
Context {C : ClientState}.
Context (fs : FileSystem)
  (fs_read_dir : Path -> result (list (result fs_DirEntry io_Error)) io_Error)
  (follow_links read_metadata read_metadata_ext skip_hidden sort : bool)
  (process_read_dir : option (option Z -> Path -> ReadDirState ->
     list (Result (DirEntry.t C)) -> ReadDirState * list (Result (DirEntry.t C)))).

(** [entry_metadata] and [entry_metadata_ext]. *)
Definition legacy_metadata (read_dir_contents_depth : Z) (fs_dir_entry : fs_DirEntry) :
    Result (option MetaData * option MetaDataExt) :=
  if read_metadata then
    match de_metadata fs_dir_entry with
    | Ok metadata =>
        Ok (Some (from_fs_metadata metadata),
            if read_metadata_ext then Some (get_metadata_ext metadata) else None)
    | Err _ =>
        match de_file_type fs_dir_entry with
        | Ok file_type =>
            Ok (Some {| m_is_dir := is_dir file_type;
                        m_is_file := is_file file_type;
                        m_is_symlink := is_symlink file_type;
                        m_size := 0;
                        m_created := None;
                        m_changed := None;
                        m_modified := None;
                        m_accessed := None;
                        m_permissions := None |}, None)
        | Err _ =>
            Err (Error.from_path read_dir_contents_depth (de_path fs_dir_entry)
                   (Message Other "failed to read metadata"))
        end
    end
  else if read_metadata_ext then
    match fs_symlink_metadata fs (de_path fs_dir_entry) with
    | Ok metadata => Ok (None, Some (get_metadata_ext metadata))
    | Err _ => Ok (None, None)
    end
  else Ok (None, None).

(** The closure of the [filter_map]. *)
Definition legacy_entry (path : Path) (read_dir_contents_depth : Z)
    (follow_link_ancestors : option (list AncestorIdentity.t))
    (dir_entry_result : result fs_DirEntry io_Error) : option (Result (DirEntry.t C)) :=
  match dir_entry_result with
  | Err err => Some (Err (Error.from_io read_dir_contents_depth err))
  | Ok fs_dir_entry =>
      match legacy_metadata read_dir_contents_depth fs_dir_entry with
      | Err err => Some (Err err)
      | Ok (entry_metadata, entry_metadata_ext) =>
          match DirEntry.from_entry read_dir_contents_depth path entry_metadata
                  entry_metadata_ext fs_dir_entry follow_link_ancestors with
          | Err err => Some (Err err)
          | Ok dir_entry =>
              if skip_hidden && is_hidden (DirEntry.file_name dir_entry) then None
              else Some (process_dir_entry_result fs (Ok dir_entry) follow_links)
          end
      end
  end.

Definition read_dir_unix_fs_legacy (path : Path) (read_dir_depth read_dir_contents_depth : Z)
    (follow_link_ancestors : option (list AncestorIdentity.t)) (client_read_state : ReadDirState) :
    Result (ReadDir.t C) :=
  match fs_read_dir path with
  | Err err => Err (Error.from_path 0 path err)
  | Ok listing =>
      let dir_entry_results :=
        omap (legacy_entry path read_dir_contents_depth follow_link_ancestors) listing in
      let dir_entry_results :=
        if sort then sort_dir_entries_by_name dir_entry_results else dir_entry_results in
      let '(client_read_state, dir_entry_results) :=
        match process_read_dir with
        | Some process =>
            process (Some read_dir_depth) path client_read_state dir_entry_results
        | None => (client_read_state, dir_entry_results)
        end in
      Ok (ReadDir.new client_read_state dir_entry_results)
  end.
End Legacy.

(** ** The two readers agree *)

Section Agreement.
Context {C : ClientState} {K : Type} {HS : Sys K} {HF : FsSys K} {HR : Ring K} {HK : SaneKernel K}.
Context (fs : FileSystem) (follow_links skip_hidden sort : bool)
  (process_read_dir : option (option Z -> Path -> ReadDirState ->
     list (Result (DirEntry.t C)) -> ReadDirState * list (Result (DirEntry.t C))))
  (metadata_of : LinuxDirEntryOwned -> result fs_Metadata io_Error).

(** The [std::fs::DirEntry] of an entry of [path]: its type is the one [getdents64]
    gives, its path joins that of the directory and its name. *)
Definition std_entry (path : Path) (e : LinuxDirEntryOwned) : fs_DirEntry := {|
  de_file_type := match file_type_from_dtype (le_d_type e) with
                  | Some ft => Ok ft
                  | None => Err (Os 2 Other)
                  end;
  de_path := path_join path (le_name e);
  de_file_name := le_name e;
  de_metadata := metadata_of e;
|}.

(** An entry made without reading metadata. *)
Lemma make_dir_entry_plain info depth path fd anc (k : K) ft :
  file_type_from_dtype (le_d_type info) = Some ft ->
  make_dir_entry_linux (C := C) false false info depth path fd anc k =
    Ret (DirEntry.from_raw depth path None None (le_name info) ft anc, k).
Proof.
  intros Hft. assert (le_d_type info <> DT_UNKNOWN) as Hne by (intros E; by rewrite E in Hft).
  apply Z.eqb_neq in Hne. unfold make_dir_entry_linux, try_fill_from_statx. rewrite Hft, Hne.
  destruct (le_statx info) as [stx|]; simpl; [|done].
  unfold fill_from_statx. by rewrite Hne.
Qed.

Lemma from_entry_std depth path e anc ft :
  file_type_from_dtype (le_d_type e) = Some ft ->
  DirEntry.from_entry (C := C) depth path None None (std_entry path e) anc =
    DirEntry.from_raw depth path None None (le_name e) ft anc.
Proof. intros Hft. unfold DirEntry.from_entry. simpl. by rewrite Hft. Qed.

Lemma legacy_build infos depth path fd anc (k : K) :
  Forall typed infos ->
  build_entries fs follow_links false false skip_hidden infos depth path fd anc k =
    Ret (omap (legacy_entry fs follow_links false false skip_hidden path depth anc)
           (map (fun e => Ok (std_entry path e)) infos), k).
Proof.
  intros Ht. revert k. induction Ht as [|info infos [ft Hft] _ IH]; intros k; [done|].
  cbn [build_entries map omap list_omap].
  unfold legacy_entry at 1. cbn [legacy_metadata]. rewrite (from_entry_std _ _ _ _ _ Hft).
  rewrite (make_dir_entry_plain _ _ _ _ _ _ _ Hft).
  assert (exists e, DirEntry.from_raw depth path None None (le_name info) ft anc = Ok e /\
    DirEntry.file_name e = le_name info) as (e & -> & ->) by (by eexists).
  destruct (skip_hidden && is_hidden (le_name info)); [done|]. cbn [exec_bind]. by rewrite IH.
Qed.

(** The listing does not depend on what was fetched in advance. *)
Lemma legacy_listing_refined path depth anc es es' :
  map entry_view es' = map entry_view es ->
  omap (legacy_entry (C := C) fs follow_links false false skip_hidden path depth anc)
    (map (fun e => Ok (std_entry path e)) es') =
  omap (legacy_entry fs follow_links false false skip_hidden path depth anc)
    (map (fun e => Ok (std_entry path e)) es).
Proof.
  revert es'. induction es as [|e es IH]; intros [|e' es'] E; simplify_eq/=; [done|].
  rewrite (IH es') by done. unfold DirEntry.from_entry, std_entry. simpl.
  repeat match goal with H : _ e' = _ e |- _ => rewrite H; clear H end. done.
Qed.

(** C26: on Linux, for a directory whose entries have a known type, without [read_metadata] and
    [read_metadata_ext]: the reader over [std::fs] and the one over [getdents64], which does
    not stream here, return the same result, whatever the other options. *)
Theorem legacy_agrees fuel path read_dir_depth depth anc st (th : thread (K := K)) entries
    fs_read_dir :
  listable fuel path (th_kernel th) entries -> Forall typed entries ->
  fs_read_dir path = Ok (map (fun e => Ok (std_entry path e)) entries) ->
  exists rd th',
    read_dir_linux_via_getdents fs follow_links false false skip_hidden sort process_read_dir
      fuel path read_dir_depth depth anc st None th = Returns (Ret (Ok rd, th')) /\
    read_dir_unix_fs_legacy fs fs_read_dir follow_links false false skip_hidden sort
      process_read_dir path read_dir_depth depth anc st = Ok rd.
Proof.
  intros [cstr fd k1 k2 bs Hp Ho Hs Hf ->] Ht Hl. unfold read_dir_linux_via_getdents.
  rewrite (plain_enumeration _ _ _ _ _ _ _ _ _ _ Hp Ho Hs Hf).
  unfold read_dir_unix_fs_legacy, finish_read_dir. rewrite Hl.
  set (entries := entries_of (concat bs)) in *.
  destruct (prefetch_statx _ _ path entries fd (set_kernel th k2)) as [entries' th1] eqn:Ep.
  apply prefetch_refined in Ep as [Ev _].
  rewrite legacy_build by (by eapply refined_typed). simpl exec_bind. cbv iota beta.
  rewrite (legacy_listing_refined _ _ _ _ _ Ev).
  destruct process_read_dir as [process|]; [destruct (process _ _ _ _)|]; eauto.
Qed.
End Agreement.

(** ** Witness *)

Definition lab_listing (p : Path) : result (list (result fs_DirEntry io_Error)) io_Error :=
  Ok (map (fun e => Ok (std_entry (fun _ => Err (Os 13 Other)) p e)) lab_sample_entries).

Lemma legacy_agrees_witness :
  exists rd th',
    lab_read None (lab_thread [sample_dirents] None) = Returns (Ret (Ok rd, th')) /\
    read_dir_unix_fs_legacy (C := unit_client) sample_fs lab_listing false false false false false
      None (bytes "/r") 0 1 None tt = Ok rd.
Proof.
  apply (legacy_agrees (C := unit_client) sample_fs false false false None
    (fun _ => Err (Os 13 Other)) 4 (bytes "/r") 0 1 None tt (lab_thread [sample_dirents] None)
    lab_sample_entries).
  - exact lab_sample_listable.
  - exact lab_sample_typed.
  - done.
Defined.
