(* ===== verification/NtLoad.v ===== *)
(** * The functions of ntdll: [ntdll_funcs] of core/nt_dir_enum.rs, and the loaders of
    examples/class77_poc.rs

    [LoadLibraryW] and [GetProcAddress] are arguments; an address is a number, 0 is the
    null pointer.  What the loaded functions do is the class [NtSys] of [NtEnum]. *)
From S2P Require Import Prelude Std Bytes.

(** The code units of an ASCII string. *)
Abbreviation units := bytes.

(** [to_wide_null] *)
Definition to_wide_null (s : list Z) : list Z := s ++ [0].

Record NtDllFuncs := mk_funcs {
  query_dir : Z;
  status_to_win32 : Z;
  query_by_name : option Z;
}.

Section Load.
Context (LoadLibraryW : list Z -> Z) (GetProcAddress : Z -> list Z -> Z).

(** A literal that ends in a NUL. *)
Definition nul_terminated (s : string) : list Z := units s ++ [0].

(** The closure given to [get_or_init]. *)
Definition load_funcs : exec NtDllFuncs :=
  let ntdll_name := to_wide_null (nul_terminated "ntdll.dll") in
  let module := LoadLibraryW ntdll_name in
  if module =? 0 then Panic
  else
    let query_dir_ptr := GetProcAddress module (nul_terminated "NtQueryDirectoryFileEx") in
    let status_to_win32_ptr := GetProcAddress module (nul_terminated "RtlNtStatusToDosError") in
    if (query_dir_ptr =? 0) || (status_to_win32_ptr =? 0) then Panic
    else
      let query_by_name_ptr := GetProcAddress module (nul_terminated "NtQueryInformationByName") in
      let query_by_name := if query_by_name_ptr =? 0 then None else Some query_by_name_ptr in
      Ret (mk_funcs query_dir_ptr status_to_win32_ptr query_by_name).

(** [ntdll_funcs], with the [OnceLock] [FUNCS]. *)
Definition ntdll_funcs (FUNCS : option NtDllFuncs) : exec (NtDllFuncs * option NtDllFuncs) :=
  match FUNCS with
  | Some funcs => Ret (funcs, FUNCS)
  | None => let! funcs := load_funcs in Ret (funcs, Some funcs)
  end.

(** [load_query_dir_no_ex] and [load_query_by_name] of class77_poc.rs *)
Definition load_optional (name : string) : option Z :=
  let module := LoadLibraryW (to_wide_null (nul_terminated "ntdll.dll")) in
  if module =? 0 then None
  else
    let proc := GetProcAddress module (nul_terminated name) in
    if proc =? 0 then None else Some proc.

Definition load_query_dir_no_ex : option Z := load_optional "NtQueryDirectoryFile".
Definition load_query_by_name : option Z := load_optional "NtQueryInformationByName".

(** [load_ntdll_query_dir]: [Err] is the code the process exits with. *)
Definition load_ntdll_query_dir : result Z Z :=
  let module := LoadLibraryW (to_wide_null (nul_terminated "ntdll.dll")) in
  if module =? 0 then Err 1
  else
    let proc := GetProcAddress module (nul_terminated "NtQueryDirectoryFileEx") in
    if proc =? 0 then Err 1 else Ok proc.

(** The functions are loaded once: what the first call that returns has found serves
    every later call; and a call panics exactly when nothing was found before and the
    library or one of the two functions of every Windows is missing.  The third function, of
    Windows 10, may be missing. *)
Theorem ntdll_funcs_once FUNCS :
  match ntdll_funcs FUNCS with
  | Ret (funcs, FUNCS') => FUNCS' = Some funcs /\ ntdll_funcs FUNCS' = Ret (funcs, FUNCS') /\
      (FUNCS = None -> query_dir funcs <> 0 /\ status_to_win32 funcs <> 0 /\
        query_by_name funcs = load_query_by_name /\ load_ntdll_query_dir = Ok (query_dir funcs))
  | Panic => FUNCS = None /\
      let module := LoadLibraryW (to_wide_null (nul_terminated "ntdll.dll")) in
      (module = 0 \/ GetProcAddress module (nul_terminated "NtQueryDirectoryFileEx") = 0 \/
       GetProcAddress module (nul_terminated "RtlNtStatusToDosError") = 0)
  | NoFuel => False
  end.
Proof.
  destruct FUNCS as [funcs|]; simpl; [by split_and!|].
  unfold load_query_by_name, load_optional, load_ntdll_query_dir, load_funcs.
  set (module := LoadLibraryW _). destruct (Z.eqb_spec module 0); [by split; [|left]|].
  set (q := GetProcAddress module (nul_terminated "NtQueryDirectoryFileEx")).
  set (s := GetProcAddress module (nul_terminated "RtlNtStatusToDosError")).
  destruct (Z.eqb_spec q 0); [by split; [|right; left]|].
  destruct (Z.eqb_spec s 0); [by split; [|right; right]|].
  cbn [orb exec_bind]. by split_and!.
Qed.
End Load.
