(* ===== verification/NtEnum.v ===== *)
(** * Directory enumeration on Windows: [nt_dir_enum.rs]

    As in the Linux enumeration, memory is a list of bytes and a read outside of
    it is [Panic].  The functions of [ntdll] and [kernel32] the file calls are the
    fields of [NtSys]; [records_bytes] is the format documented for
    [FILE_ID_BOTH_DIR_INFORMATION]: a chain of records aligned on 8 bytes, the
    last one with [NextEntryOffset] 0.  An [OsString] is its UTF-16 code units. *)
From S2P Require Import Prelude Std Bytes Error Metadata.

Definition BUFFER_SIZE : Z := 64 * 1024.
Definition STATUS_NO_MORE_FILES : Z := -2147483642.
Definition FILE_ATTRIBUTE_DIRECTORY : Z := 0x10.

(** ** The record *)

Record FILE_ID_BOTH_DIR_INFO := mk_info {
  NextEntryOffset : Z; FileIndex : Z;
  CreationTime : Z; LastAccessTime : Z; LastWriteTime : Z; ChangeTime : Z;
  EndOfFile : Z; AllocationSize : Z; FileAttributes : Z; FileNameLength : Z; EaSize : Z;
  ShortNameLength : Z; ShortName : list Z; FileId : Z;
  FileName : Z;                         (** its one element *)
}.

(** [size_of] and [offset_of!(.., FileName)], with [repr(C)]. *)
Definition INFO_SIZE : Z := 112.
Definition NAME_OFFSET : Z := 104.

(** The unsigned and signed integers of [w] bytes at an offset. *)
Definition uint_at (w : nat) (buf : list Z) (offset : Z) : Z :=
  of_le_bytes (take w (bytes_at buf offset)).

Definition to_signed (bits n : Z) : Z := if n <? 2 ^ (bits - 1) then n else n - 2 ^ bits.
Definition int_at (w : nat) (buf : list Z) (offset : Z) : Z :=
  to_signed (8 * Z.of_nat w) (uint_at w buf offset).

Fixpoint u16s (l : list Z) : list Z :=
  match l with
  | b0 :: b1 :: l' => of_le_bytes [b0; b1] :: u16s l'
  | _ => []
  end.

(** [ptr::read_unaligned] copies [INFO_SIZE] bytes; these are its fields. *)
Definition read_info (copy : list Z) : FILE_ID_BOTH_DIR_INFO := {|
  NextEntryOffset := uint_at 4 copy 0;
  FileIndex := uint_at 4 copy 4;
  CreationTime := int_at 8 copy 8;
  LastAccessTime := int_at 8 copy 16;
  LastWriteTime := int_at 8 copy 24;
  ChangeTime := int_at 8 copy 32;
  EndOfFile := int_at 8 copy 40;
  AllocationSize := int_at 8 copy 48;
  FileAttributes := uint_at 4 copy 56;
  FileNameLength := uint_at 4 copy 60;
  EaSize := uint_at 4 copy 64;
  ShortNameLength := int_at 1 copy 68;
  ShortName := u16s (take 24 (bytes_at copy 70));
  FileId := int_at 8 copy 96;
  FileName := uint_at 2 copy 104;
|}.

(** [slice::from_raw_parts] of [n] code units; outside of the buffer it is undefined. *)
Definition wide_slice (buffer : list Z) (start n : Z) : exec (list Z) :=
  if start + 2 * n <=? Z.of_nat (length buffer)
  then Ret (u16s (take (Z.to_nat (2 * n)) (bytes_at buffer start)))
  else Panic.

(** [parse_buffer_entries]: the calls [on_entry(entry, file_name)], in order; one unit
    of fuel per turn of the loop.  The second code unit is read through a pointer
    into the copy, past its one-element array: the two bytes after it. *)
Fixpoint parse_buffer_loop (fuel : nat) (buffer : list Z) (offset : Z) :
    exec (list (FILE_ID_BOTH_DIR_INFO * OsString)) :=
  match fuel with
  | O => NoFuel
  | S fuel' =>
      let buf_len := Z.of_nat (length buffer) in
      if buf_len <? offset + INFO_SIZE then Ret []
      else
        let copy := take (Z.to_nat INFO_SIZE) (bytes_at buffer offset) in
        let entry := read_info copy in
        let name_len := FileNameLength entry in
        let name_chars := name_len / 2 in
        if buf_len <? offset + NAME_OFFSET + name_len then Ret []
        else
          let first_char := FileName entry in
          let is_dot := (name_chars =? 1) && (first_char =? DOT) in
          let is_dotdot := (name_chars =? 2) && (first_char =? DOT) &&
                           (uint_at 2 copy (NAME_OFFSET + 2) =? DOT) in
          let! calls :=
            (if negb is_dot && negb is_dotdot then
               let! file_name := wide_slice buffer (offset + NAME_OFFSET) name_chars in
               Ret [(entry, file_name)]
             else Ret []) in
          let next_offset := NextEntryOffset entry in
          if next_offset =? 0 then Ret calls
          else
            let! rest := parse_buffer_loop fuel' buffer (offset + next_offset) in
            Ret (calls ++ rest)
  end.

(** Every turn advances by at least one byte. *)
Definition parse_buffer_entries (buffer : list Z) :
    exec (list (FILE_ID_BOTH_DIR_INFO * OsString)) :=
  parse_buffer_loop (S (length buffer)) buffer 0.

(** ** Enumeration *)

Record DirEntryInfo := mk_entry_info {
  file_name : OsString;
  file_attributes : Z;
  file_size : Z;
  creation_time : Z;
  last_write_time : Z;
  last_access_time : Z;
  file_id : Z;
  number_of_links : option Z;
  volume_serial_number : option Z;
}.

(** The [DirEntryInfo] both enumerations build. *)
Definition dir_entry_info (entry : FILE_ID_BOTH_DIR_INFO) (name : OsString) : DirEntryInfo := {|
  file_name := name;
  file_attributes := FileAttributes entry;
  file_size := as_u64 (EndOfFile entry);
  creation_time := CreationTime entry;
  last_write_time := LastWriteTime entry;
  last_access_time := LastAccessTime entry;
  file_id := as_u64 (FileId entry);
  number_of_links := None;
  volume_serial_number := None;
|}.

Class NtSys (K : Type) := {
  (** [CreateFileW], with [last_os_error] *)
  nt_create_file : list Z -> K -> result Z io_Error * K;
  (** [NtQueryDirectoryFileEx handle size restart_scan]: the status, [Information]
      and the bytes written at the start of the buffer *)
  nt_query_dir : Z -> Z -> bool -> K -> Z * Z * list Z * K;
  nt_close_handle : Z -> K -> K;
  (** [RtlNtStatusToDosError], and the kind [std] gives the code *)
  nt_status_to_win32 : Z -> Z;
  nt_error_kind : Z -> ErrorKind;
  (** [NtQueryInformationByName root name]: status and [NumberOfLinks]; [None] before
      Windows 10 1709 *)
  nt_query_by_name : option (Z -> list Z -> K -> Z * Z * K);
  (** [GetVolumeInformationByHandleW]: the serial number and the buffer with the
      name of the file system, or [None] when it fails *)
  nt_volume_information : Z -> K -> option (Z * list Z) * K;
}.

Definition path_to_widestring (path : Path) : list Z := path ++ [0].

Definition ntstatus_to_io_error `{NtSys K} (status : Z) : io_Error :=
  let win32_err := nt_status_to_win32 status in
  let code := to_signed 32 win32_err in
  Os code (nt_error_kind code).

Definition open_dir_handle `{NtSys K} (path : Path) (k : K) : result Z io_Error * K :=
  nt_create_file (path_to_widestring path) k.

Section Enumerate.
Context {K : Type} {HN : NtSys K} {U : Type} (on_entry : FILE_ID_BOTH_DIR_INFO -> OsString -> U -> U).

(** [enumerate_dir_core_inner], and the buffer it leaves. *)
Fixpoint core_loop (fuel : nat) (handle : Z) (restart_scan : bool) (buffer : list Z) (u : U)
    (k : K) : exec (result unit io_Error * list Z * U * K) :=
  match fuel with
  | O => NoFuel
  | S fuel' =>
      let '(status, information, written, k) :=
        nt_query_dir handle (Z.of_nat (length buffer)) restart_scan k in
      let buffer := written ++ drop (length written) buffer in
      if negb (status =? 0) then
        if status =? STATUS_NO_MORE_FILES then Ret (Ok tt, buffer, u, k)
        else Ret (Err (ntstatus_to_io_error status), buffer, u, k)
      else if information =? 0 then Ret (Ok tt, buffer, u, k)
      else
        let! calls := parse_buffer_entries buffer in
        core_loop fuel' handle false buffer
          (fold_left (fun u '(entry, name) => on_entry entry name u) calls u) k
  end.

(** [tls] is [TLS_BUFFER]. *)
Definition enumerate_dir_core (fuel : nat) (handle : Z) (tls : option (list Z)) (u : U) (k : K) :
    exec (result unit io_Error * option (list Z) * U * K) :=
  let buffer := default (repeat 0 (Z.to_nat BUFFER_SIZE)) tls in
  let! r := core_loop fuel handle true buffer u k in
  let '(result, buffer, u, k) := r in
  Ret (result, Some buffer, u, k).
End Enumerate.

Section EnumerateDir.
Context {K : Type} {HN : NtSys K}.

Definition enumerate_dir (fuel : nat) (path : Path) (tls : option (list Z)) (k : K) :
    exec (result (Z * list DirEntryInfo) io_Error * option (list Z) * K) :=
  match open_dir_handle path k with
  | (Err e, k) => Ret (Err e, tls, k)
  | (Ok handle, k) =>
      let! r := enumerate_dir_core
                  (fun entry name result => result ++ [dir_entry_info entry name])
                  fuel handle tls [] k in
      let '(r, tls, result, k) := r in
      match r with
      | Ok _ => Ret (Ok (handle, result), tls, k)
      | Err e => Ret (Err e, tls, nt_close_handle handle k)
      end
  end.

Definition is_directory (info : DirEntryInfo) : bool :=
  negb (Z.land (file_attributes info) FILE_ATTRIBUTE_DIRECTORY =? 0).

(** The closure of the streaming enumeration; [v] is what [on_subdir] has captured. *)
Definition stream_info {V} (on_subdir : DirEntryInfo -> V -> V) (info : DirEntryInfo)
    (u : list DirEntryInfo * V) : list DirEntryInfo * V :=
  let '(result, v) := u in
  let v := if is_directory info then on_subdir info v else v in
  (result ++ [info], v).

Definition enumerate_dir_streaming {V} (on_subdir : DirEntryInfo -> V -> V) (fuel : nat)
    (path : Path) (tls : option (list Z)) (v : V) (k : K) :
    exec (result (Z * list DirEntryInfo) io_Error * option (list Z) * V * K) :=
  match open_dir_handle path k with
  | (Err e, k) => Ret (Err e, tls, v, k)
  | (Ok handle, k) =>
      let! r := enumerate_dir_core
                  (fun entry name u => stream_info on_subdir (dir_entry_info entry name) u)
                  fuel handle tls ([], v) k in
      let '(r, tls, (result, v), k) := r in
      match r with
      | Ok _ => Ret (Ok (handle, result), tls, v, k)
      | Err e => Ret (Err e, tls, v, nt_close_handle handle k)
      end
  end.

(** ** Links and volumes *)

(** One turn of [batch_query_nlinks]; the length of the [UNICODE_STRING] is cut to 16
    bits, so that the call sees that many bytes of the name. *)
Definition query_nlinks (query : Z -> list Z -> K -> Z * Z * K) (dir_handle : Z)
    (query_file_nlinks : bool) (entry : DirEntryInfo) (k : K) : DirEntryInfo * K :=
  if negb query_file_nlinks && negb (is_directory entry) then (entry, k)
  else
    let wide_buf := file_name entry in
    match wide_buf with
    | [] => (entry, k)
    | _ =>
        let byte_len := (2 * Z.of_nat (length wide_buf)) mod 2 ^ 16 in
        let '(status, links, k) := query dir_handle (take (Z.to_nat (byte_len / 2)) wide_buf) k in
        if status =? 0 then
          (mk_entry_info (file_name entry) (file_attributes entry) (file_size entry)
             (creation_time entry) (last_write_time entry) (last_access_time entry)
             (file_id entry) (Some links) (volume_serial_number entry), k)
        else (entry, k)
    end.

Fixpoint query_all (query : Z -> list Z -> K -> Z * Z * K) (dir_handle : Z)
    (query_file_nlinks : bool) (entries : list DirEntryInfo) (k : K) : list DirEntryInfo * K :=
  match entries with
  | [] => ([], k)
  | entry :: entries' =>
      let '(entry, k) := query_nlinks query dir_handle query_file_nlinks entry k in
      let '(rest, k) := query_all query dir_handle query_file_nlinks entries' k in
      (entry :: rest, k)
  end.

Definition batch_query_nlinks (entries : list DirEntryInfo) (dir_handle : Z)
    (query_file_nlinks : bool) (k : K) : list DirEntryInfo * K :=
  match nt_query_by_name with
  | None => (entries, k)
  | Some query => query_all query dir_handle query_file_nlinks entries k
  end.
End EnumerateDir.

Inductive FsType : Set := Ntfs | Refs | Fat32 | ExFat | Unknown.

Definition is_fat_family (self : FsType) : bool :=
  match self with Fat32 | ExFat => true | _ => false end.

(** The code units before the first 0, or all of them. *)
Fixpoint until_nul (l : list Z) : list Z :=
  match l with
  | [] => []
  | c :: l' => if c =? 0 then [] else c :: until_nul l'
  end.

Definition fs_type_of_name (fs_name : list Z) : FsType :=
  if bool_decide (fs_name = bytes "NTFS") then Ntfs
  else if bool_decide (fs_name = bytes "ReFS") then Refs
  else if bool_decide (fs_name = bytes "FAT32") then Fat32
  else if bool_decide (fs_name = bytes "exFAT") then ExFat
  else if bool_decide (fs_name = bytes "FAT") then Fat32
  else if bool_decide (fs_name = bytes "FAT16") then Fat32
  else Unknown.

Definition detect_fs_type_and_vol_serial `{NtSys K} (dir_handle : Z) (k : K) :
    FsType * option Z * K :=
  match nt_volume_information dir_handle k with
  | (None, k) => (Unknown, None, k)
  | (Some (volume_serial, fs_name_buf), k) =>
      (fs_type_of_name (until_nul fs_name_buf), Some volume_serial, k)
  end.

(** ** The record format *)

(** A record: the fields the kernel fills; [nt_short] is the 28 bytes of the short
    name, its length and the padding around them. *)
Record nt_record := mk_nt_record {
  nt_index : Z; nt_creation : Z; nt_access : Z; nt_write : Z; nt_change : Z;
  nt_eof : Z; nt_alloc : Z; nt_attributes : Z; nt_ea : Z; nt_short : list Z; nt_id : Z;
  nt_name : OsString;
}.

Definition nt_size (r : nt_record) : Z := NAME_OFFSET + 2 * Z.of_nat (length (nt_name r)).
(** The distance to the next record. *)
Definition nt_next (r : nt_record) : Z := 8 * ((nt_size r + 7) / 8).

(** The integer fields before and after the short name, with their widths. *)
Definition encode (fields : list (nat * Z)) : list Z :=
  flat_map (fun '(w, v) => to_le_bytes w v) fields.

Definition nt_fields (next : Z) (r : nt_record) : list (nat * Z) :=
  [(4%nat, next); (4%nat, nt_index r); (8%nat, nt_creation r); (8%nat, nt_access r); (8%nat, nt_write r);
   (8%nat, nt_change r); (8%nat, nt_eof r); (8%nat, nt_alloc r); (4%nat, nt_attributes r);
   (4%nat, 2 * Z.of_nat (length (nt_name r))); (4%nat, nt_ea r)].

Definition name_bytes (name : OsString) : list Z := flat_map (to_le_bytes 2) name.

Definition record_bytes (next : Z) (r : nt_record) : list Z :=
  encode (nt_fields next r) ++ nt_short r ++ to_le_bytes 8 (nt_id r) ++ name_bytes (nt_name r).

Fixpoint records_bytes (rs : list nt_record) : list Z :=
  match rs with
  | [] => []
  | [r] => record_bytes 0 r
  | r :: rs' =>
      record_bytes (nt_next r) r ++ repeat 0 (Z.to_nat (nt_next r - nt_size r)) ++
      records_bytes rs'
  end.

Definition code_unit (c : Z) : Prop := 0 <= c < 2 ^ 16.
Definition i64 (n : Z) : Prop := - 2 ^ 63 <= n < 2 ^ 63.

(** The fields fit their widths, the name is not empty, and the distance to the next
    record fits its field. *)
Record nt_record_ok (r : nt_record) : Prop := {
  ok_times : i64 (nt_creation r) /\ i64 (nt_access r) /\ i64 (nt_write r);
  ok_size : i64 (nt_eof r) /\ i64 (nt_id r);
  ok_attributes : 0 <= nt_attributes r < 2 ^ 32;
  ok_short : length (nt_short r) = 28%nat;
  ok_name : nt_name r <> [] /\ Forall code_unit (nt_name r);
  ok_next : nt_next r < 2 ^ 32;
}.

(** What a record says of its file. *)
Definition record_info (r : nt_record) : DirEntryInfo := {|
  file_name := nt_name r;
  file_attributes := nt_attributes r;
  file_size := as_u64 (nt_eof r);
  creation_time := nt_creation r;
  last_write_time := nt_write r;
  last_access_time := nt_access r;
  file_id := as_u64 (nt_id r);
  number_of_links := None;
  volume_serial_number := None;
|}.

Definition dot_name (name : OsString) : bool :=
  bool_decide (name = [DOT]) || bool_decide (name = [DOT; DOT]).

(** The entries of a list of records, "." and ".." left out. *)
Definition infos_of (rs : list nt_record) : list DirEntryInfo :=
  map record_info (List.filter (fun r => negb (dot_name (nt_name r))) rs).

Lemma length_encode fields : length (encode fields) = foldr (fun '(w, _) n => w + n)%nat 0%nat fields.
Proof.
  induction fields as [|[w v] fields IH]; [done|]. simpl. by rewrite length_app, length_to_le_bytes, IH.
Qed.

Lemma length_name_bytes name : length (name_bytes name) = (2 * length name)%nat.
Proof. induction name as [|c name IH]; [done|]. simpl. rewrite IH. lia. Qed.

Lemma length_record_bytes next r :
  length (nt_short r) = 28%nat -> Z.of_nat (length (record_bytes next r)) = nt_size r.
Proof.
  intros Hs. unfold record_bytes, nt_size, NAME_OFFSET.
  rewrite !length_app, length_encode, Hs, length_to_le_bytes, length_name_bytes. simpl. lia.
Qed.

Lemma nt_next_bounds r : nt_size r <= nt_next r < nt_size r + 8 /\ (8 | nt_next r).
Proof.
  unfold nt_next. split; [|by exists ((nt_size r + 7) / 8); lia].
  pose proof (Z.div_mod (nt_size r + 7) 8). pose proof (Z.mod_pos_bound (nt_size r + 7) 8). lia.
Qed.

(** Reading a field back. *)
Lemma uint_at_field pre w v post tail :
  uint_at w (encode (pre ++ (w, v) :: post) ++ tail) (Z.of_nat (length (encode pre))) =
    v mod 2 ^ (8 * Z.of_nat w).
Proof.
  unfold uint_at. unfold encode at 1. rewrite flat_map_app. simpl flat_map.
  rewrite <- !app_assoc. rewrite <- (Z.add_0_r (Z.of_nat _)), bytes_at_app by done.
  unfold bytes_at. rewrite drop_0, take_app_length' by (by rewrite length_to_le_bytes).
  apply of_to_le_bytes.
Qed.

(** [take n] before it makes no difference to what is read from the first [n] bytes. *)
Lemma uint_at_take w n buf offset :
  0 <= offset -> offset + Z.of_nat w <= Z.of_nat n ->
  uint_at w (take n buf) offset = uint_at w buf offset.
Proof.
  intros H0 Hn. unfold uint_at, bytes_at. f_equal.
  rewrite !take_drop_commute, take_take. do 2 f_equal. lia.
Qed.

Lemma header_field next r tail i w v offset :
  nt_fields next r !! i = Some (w, v) ->
  offset = Z.of_nat (foldr (fun '(w, _) n => w + n)%nat 0%nat (take i (nt_fields next r))) ->
  uint_at w (record_bytes next r ++ tail) offset = v mod 2 ^ (8 * Z.of_nat w).
Proof.
  intros Hi ->. rewrite <- length_encode. unfold record_bytes. rewrite <- app_assoc.
  rewrite <- (take_drop_middle _ _ _ Hi) at 1. apply uint_at_field.
Qed.

Lemma to_signed_mod n : i64 n -> to_signed 64 (n mod 2 ^ 64) = n.
Proof.
  unfold i64, to_signed. intros Hn. change (2 ^ (64 - 1)) with (2 ^ 63).
  assert (2 ^ 64 = 2 * 2 ^ 63) as E by done.
  destruct (Z.ltb_spec n 0).
  - rewrite <- (Z_mod_plus_full n 1), Z.mod_small by lia.
    rewrite (proj2 (Z.ltb_ge _ _)); lia.
  - rewrite Z.mod_small by lia. by rewrite (proj2 (Z.ltb_lt _ _)) by lia.
Qed.

(** The bytes that follow the header. *)
Lemma after_header next r tail k :
  length (nt_short r) = 28%nat -> 0 <= k ->
  bytes_at (record_bytes next r ++ tail) (96 + k) =
    bytes_at (to_le_bytes 8 (nt_id r) ++ name_bytes (nt_name r) ++ tail) k.
Proof.
  intros Hs Hk. unfold record_bytes. rewrite <- !app_assoc, app_assoc.
  replace 96 with (Z.of_nat (length (encode (nt_fields next r) ++ nt_short r)));
    [by apply bytes_at_app|].
  rewrite length_app, length_encode, Hs. done.
Qed.

Lemma after_id next r tail k :
  length (nt_short r) = 28%nat -> 0 <= k ->
  bytes_at (record_bytes next r ++ tail) (NAME_OFFSET + k) =
    bytes_at (name_bytes (nt_name r) ++ tail) k.
Proof.
  intros Hs Hk. unfold NAME_OFFSET. replace (104 + k) with (96 + (8 + k)) by lia.
  rewrite after_header by (done || lia).
  replace 8 with (Z.of_nat (length (to_le_bytes 8 (nt_id r)))) at 2
    by (by rewrite length_to_le_bytes).
  by apply bytes_at_app.
Qed.

Lemma of_le_unit c : code_unit c -> of_le_bytes (to_le_bytes 2 c) = c.
Proof. intros Hc. rewrite of_to_le_bytes. by apply Z.mod_small. Qed.

Lemma u16s_name name tail :
  Forall code_unit name -> u16s (take (2 * length name) (name_bytes name ++ tail)) = name.
Proof.
  induction 1 as [|c name Hc _ IH]; [done|].
  replace (2 * length (c :: name))%nat with (S (S (2 * length name))) by (simpl; lia).
  cbn [name_bytes flat_map to_le_bytes app take u16s]. f_equal; [by apply (of_le_unit c)|exact IH].
Qed.

(** ** Parsing a buffer *)

Section ReadRecord.
Context (next : Z) (r : nt_record) (tail : list Z).
Context (Hr : nt_record_ok r) (Hnext : 0 <= next < 2 ^ 32).
Let copy := take (Z.to_nat INFO_SIZE) (record_bytes next r ++ tail).

(** A field of the copy. *)
Lemma copy_field i w v offset :
  nt_fields next r !! i = Some (w, v) ->
  offset = Z.of_nat (foldr (fun '(w, _) n => w + n)%nat 0%nat (take i (nt_fields next r))) ->
  offset + Z.of_nat w <= INFO_SIZE ->
  uint_at w copy offset = v mod 2 ^ (8 * Z.of_nat w).
Proof.
  intros Hi Ho Hw. unfold copy. rewrite uint_at_take by (unfold INFO_SIZE in *; lia).
  by eapply header_field.
Qed.

Lemma copy_next : NextEntryOffset (read_info copy) = next.
Proof. simpl. rewrite (copy_field 0 4 next) by done. by apply Z.mod_small. Qed.

Lemma copy_name_length :
  FileNameLength (read_info copy) = 2 * Z.of_nat (length (nt_name r)).
Proof.
  simpl. rewrite (copy_field 9 4 (2 * Z.of_nat (length (nt_name r)))) by done.
  apply Z.mod_small. pose proof (nt_next_bounds r). destruct Hr.
  unfold nt_size, NAME_OFFSET in *. change (8 * Z.of_nat 4) with 32. lia.
Qed.

(** The code unit [j] of the name, as long as the copy holds it. *)
Lemma copy_unit j c :
  nt_name r !! j = Some c -> NAME_OFFSET + 2 * Z.of_nat j + 2 <= INFO_SIZE ->
  uint_at 2 copy (NAME_OFFSET + 2 * Z.of_nat j) = c.
Proof.
  intros Hj Hb. unfold copy. rewrite uint_at_take by (unfold INFO_SIZE, NAME_OFFSET in *; lia).
  unfold uint_at. rewrite after_id by (apply Hr || lia).
  destruct Hr as [_ _ _ _ [_ Hu] _]. clear -Hj Hu.
  revert j Hj. induction Hu as [|c' name Hc _ IH]; intros [|j] Hj; simplify_eq/=.
  - by apply (of_le_unit c).
  - rewrite <- (IH j Hj). unfold bytes_at. do 2 f_equal.
    replace (Z.to_nat (2 * Z.of_nat (S j))) with (S (S (Z.to_nat (2 * Z.of_nat j)))) by lia.
    done.
Qed.

Lemma copy_info : dir_entry_info (read_info copy) (nt_name r) = record_info r.
Proof.
  destruct Hr as [(H1 & H2 & H3) [H4 H5] H6 Hs _ _].
  unfold dir_entry_info, record_info. simpl. unfold int_at.
  rewrite (copy_field 2 8 (nt_creation r) 8), (copy_field 3 8 (nt_access r) 16),
    (copy_field 4 8 (nt_write r) 24), (copy_field 6 8 (nt_eof r) 40),
    (copy_field 8 4 (nt_attributes r) 56) by done.
  change (8 * Z.of_nat 8) with 64. rewrite !to_signed_mod by done.
  assert (uint_at 8 copy 96 = nt_id r mod 2 ^ 64) as ->.
  { unfold copy. rewrite uint_at_take by (unfold INFO_SIZE; lia). unfold uint_at.
    rewrite (after_header _ _ _ 0) by done. unfold bytes_at. rewrite drop_0.
    rewrite take_app_length' by (by rewrite length_to_le_bytes). apply of_to_le_bytes. }
  rewrite to_signed_mod by done. by rewrite (Z.mod_small (nt_attributes r)).
Qed.

(** The test for "." and "..". *)
Lemma copy_dot :
  let name_chars := Z.of_nat (length (nt_name r)) in
  let first_char := FileName (read_info copy) in
  negb ((name_chars =? 1) && (first_char =? DOT)) &&
  negb ((name_chars =? 2) && (first_char =? DOT) && (uint_at 2 copy (NAME_OFFSET + 2) =? DOT)) =
  negb (dot_name (nt_name r)).
Proof.
  cbv zeta. simpl FileName. pose proof (copy_unit 0) as H0. pose proof (copy_unit 1) as H1.
  change (NAME_OFFSET + 2 * Z.of_nat 0) with 104 in H0.
  change (NAME_OFFSET + 2 * Z.of_nat 1) with (NAME_OFFSET + 2) in H1.
  destruct Hr as [_ _ _ _ [Hn _] _]. unfold dot_name.
  destruct (nt_name r) as [|c [|c' [|c'' name]]]; [done|..].
  - rewrite (H0 c) by done. simpl. rewrite (bool_decide_false (_ = [DOT; DOT])) by congruence.
    destruct (Z.eqb_spec c DOT); case_bool_decide; simplify_eq/=; done.
  - rewrite (H0 c), (H1 c') by done. simpl. rewrite (bool_decide_false (_ = [DOT])) by congruence.
    destruct (Z.eqb_spec c DOT), (Z.eqb_spec c' DOT); case_bool_decide; simplify_eq/=; done.
  - rewrite !bool_decide_false by congruence.
    by rewrite (proj2 (Z.eqb_neq _ 1)), (proj2 (Z.eqb_neq _ 2)) by (simpl; lia).
Qed.
End ReadRecord.

Lemma wide_slice_name pre next r tail :
  nt_record_ok r ->
  wide_slice (pre ++ record_bytes next r ++ tail) (Z.of_nat (length pre) + NAME_OFFSET)
    (Z.of_nat (length (nt_name r))) = Ret (nt_name r).
Proof.
  intros Hr. unfold wide_slice. rewrite !length_app.
  pose proof (length_record_bytes next r (ok_short _ Hr)) as Hl.
  unfold nt_size in Hl. rewrite (proj2 (Z.leb_le _ _)) by lia.
  rewrite bytes_at_app by done. rewrite <- (Z.add_0_r NAME_OFFSET).
  rewrite after_id by (apply Hr || done). unfold bytes_at. rewrite drop_0.
  replace (Z.to_nat (2 * Z.of_nat (length (nt_name r)))) with (2 * length (nt_name r))%nat by lia.
  rewrite u16s_name; [done|]. apply Hr.
Qed.

Abbreviation infos calls := (map (fun '(entry, name) => dir_entry_info entry name) calls).

(** One turn.  A record starts at a multiple of 8, and so does the end of the buffer:
    there is room for the whole header structure although a record may be shorter. *)
Lemma parse_turn fuel pre next r tail :
  nt_record_ok r -> 0 <= next < 2 ^ 32 ->
  let buffer := pre ++ record_bytes next r ++ tail in
  (8 | Z.of_nat (length pre)) -> (8 | Z.of_nat (length buffer)) ->
  exists calls, infos calls = infos_of [r] /\
    parse_buffer_loop (S fuel) buffer (Z.of_nat (length pre)) =
      if next =? 0 then Ret calls
      else let! rest := parse_buffer_loop fuel buffer (Z.of_nat (length pre) + next) in
           Ret (calls ++ rest).
Proof.
  intros Hr Hnext buffer [a Ha] [b Hb].
  pose proof (length_record_bytes next r (ok_short _ Hr)) as Hl.
  assert (Z.of_nat (length buffer) = Z.of_nat (length pre) + nt_size r + Z.of_nat (length tail)) as Hlen
    by (unfold buffer; rewrite !length_app; lia).
  assert (1 <= Z.of_nat (length (nt_name r))) as Hname.
  { destruct (ok_name _ Hr) as [Hn _]. destruct (nt_name r); [done|]. simpl. lia. }
  unfold nt_size, NAME_OFFSET in Hlen.
  cbn [parse_buffer_loop]. rewrite (proj2 (Z.ltb_ge _ _)) by (unfold INFO_SIZE; lia).
  assert (bytes_at buffer (Z.of_nat (length pre)) = record_bytes next r ++ tail) as ->.
  { unfold buffer. rewrite <- (Z.add_0_r (Z.of_nat (length pre))), bytes_at_app by done. done. }
  rewrite copy_name_length, copy_next by done.
  replace (2 * Z.of_nat (length (nt_name r)) / 2) with (Z.of_nat (length (nt_name r)))
    by (rewrite Z.mul_comm, Z.div_mul; lia).
  rewrite (proj2 (Z.ltb_ge _ _)) by (unfold NAME_OFFSET; lia). rewrite copy_dot by done.
  unfold infos_of. cbn [List.filter]. destruct (negb (dot_name (nt_name r))).
  - unfold buffer at 1. rewrite wide_slice_name by done. cbn [exec_bind].
    eexists. split; [|reflexivity]. cbn [map]. by rewrite copy_info.
  - by exists [].
Qed.

Lemma nt_parse_loop fuel pre rs rest :
  rs <> [] -> Forall nt_record_ok rs ->
  (8 | Z.of_nat (length pre)) -> (8 | Z.of_nat (length (pre ++ records_bytes rs ++ rest))) ->
  (length rs <= fuel)%nat ->
  exists calls, infos calls = infos_of rs /\
    parse_buffer_loop fuel (pre ++ records_bytes rs ++ rest) (Z.of_nat (length pre)) = Ret calls.
Proof.
  intros Hne Hok. revert fuel pre Hne. induction Hok as [|r rs Hr Hrs IH];
    intros fuel pre Hne Hpre Htot Hf; [done|]. destruct fuel as [|fuel]; [simpl in Hf; lia|].
  destruct rs as [|r' rs].
  { cbn [records_bytes] in *.
    destruct (parse_turn fuel pre 0 r rest Hr) as (calls & Hc & ->); [done..|]. eauto. }
  set (pad := repeat 0 (Z.to_nat (nt_next r - nt_size r))).
  change (records_bytes (r :: r' :: rs)) with
    (record_bytes (nt_next r) r ++ pad ++ records_bytes (r' :: rs)) in *.
  rewrite <- !app_assoc in *.
  pose proof (nt_next_bounds r) as [Hn Hn8]. unfold nt_size, NAME_OFFSET in Hn.
  pose proof (ok_next _ Hr).
  destruct (parse_turn fuel pre (nt_next r) r (pad ++ records_bytes (r' :: rs) ++ rest) Hr)
    as (calls & Hc & ->); [lia|done..|].
  rewrite (proj2 (Z.eqb_neq _ _)) by lia.
  assert (Z.of_nat (length (pre ++ record_bytes (nt_next r) r ++ pad)) =
    Z.of_nat (length pre) + nt_next r) as Hl.
  { pose proof (length_record_bytes (nt_next r) r (ok_short _ Hr)) as Hl. unfold nt_size, NAME_OFFSET in Hl.
    unfold pad, nt_size, NAME_OFFSET. rewrite !length_app, repeat_length. lia. }
  replace (pre ++ record_bytes (nt_next r) r ++ pad ++ records_bytes (r' :: rs) ++ rest)
    with ((pre ++ record_bytes (nt_next r) r ++ pad) ++ records_bytes (r' :: rs) ++ rest) in *
    by (by rewrite <- !app_assoc).
  rewrite <- Hl.
  destruct (IH fuel (pre ++ record_bytes (nt_next r) r ++ pad)) as (calls' & Hc' & ->);
    [done|rewrite Hl; by apply Z.divide_add_r|done|simpl in *; lia|].
  exists (calls ++ calls'). split; [|done]. rewrite map_app, Hc, Hc'.
  unfold infos_of. by rewrite <- map_app, <- List.filter_app.
Qed.

Lemma length_records_bytes rs :
  Forall nt_record_ok rs -> (length rs <= length (records_bytes rs))%nat.
Proof.
  induction 1 as [|r rs Hr Hrs IH]; [done|].
  assert (forall next, 1 <= Z.of_nat (length (record_bytes next r))) as H1.
  { intros next. rewrite length_record_bytes by apply Hr. unfold nt_size, NAME_OFFSET. lia. }
  destruct rs as [|r' rs]; [specialize (H1 0); simpl in *; lia|].
  specialize (H1 (nt_next r)). change (records_bytes (r :: r' :: rs)) with
    (record_bytes (nt_next r) r ++ repeat 0 (Z.to_nat (nt_next r - nt_size r)) ++
     records_bytes (r' :: rs)). rewrite !length_app. rewrite length_cons. lia.
Qed.

Lemma nt_parse_records rs rest :
  rs <> [] -> Forall nt_record_ok rs ->
  Z.of_nat (length (records_bytes rs ++ rest)) = BUFFER_SIZE ->
  exists calls, infos calls = infos_of rs /\
    parse_buffer_entries (records_bytes rs ++ rest) = Ret calls.
Proof.
  intros Hne Hok Hlen. unfold parse_buffer_entries.
  pose proof (length_records_bytes rs Hok).
  apply (nt_parse_loop _ [] rs rest Hne Hok); [by exists 0| |rewrite length_app; lia].
  simpl app. rewrite Hlen. by exists 8192.
Qed.

(** C17: parsing a buffer that starts with the chain of records documented for
    [FILE_ID_BOTH_DIR_INFORMATION], each aligned on 8 bytes, whatever an earlier query has
    left behind it, finds every record but "." and "..", each once and in order, with its
    name, attributes, size, times and identity; it never reads outside the buffer, and the
    check for room never drops a record. *)
Theorem parse_buffer_roundtrip rs rest :
  rs <> [] -> Forall nt_record_ok rs ->
  Z.of_nat (length (records_bytes rs ++ rest)) = BUFFER_SIZE ->
  exists calls, infos calls = infos_of rs /\
    parse_buffer_entries (records_bytes rs ++ rest) = Ret calls.
Proof. apply nt_parse_records. Qed.

(** ** Enumerating a directory *)

Section EnumerateSpec.
Context {K : Type} {HN : NtSys K}.

(** What the successive queries on [handle] return: chains of records that fit the
    buffer, then the end of the directory or an error. *)
Inductive nt_stream (handle : Z) :
    bool -> K -> list (list nt_record) -> result unit io_Error -> K -> Prop :=
| nt_end restart k info k' :
    nt_query_dir handle BUFFER_SIZE restart k = (STATUS_NO_MORE_FILES, info, [], k') ->
    nt_stream handle restart k [] (Ok tt) k'
| nt_error restart k status info k' :
    status <> 0 -> status <> STATUS_NO_MORE_FILES ->
    nt_query_dir handle BUFFER_SIZE restart k = (status, info, [], k') ->
    nt_stream handle restart k [] (Err (ntstatus_to_io_error status)) k'
| nt_batch restart k b bs r k1 k' :
    b <> [] -> Forall nt_record_ok b ->
    Z.of_nat (length (records_bytes b)) <= BUFFER_SIZE ->
    nt_query_dir handle BUFFER_SIZE restart k =
      (0, Z.of_nat (length (records_bytes b)), records_bytes b, k1) ->
    nt_stream handle false k1 bs r k' -> nt_stream handle restart k (b :: bs) r k'.

Lemma infos_of_app rs1 rs2 : infos_of (rs1 ++ rs2) = infos_of rs1 ++ infos_of rs2.
Proof. unfold infos_of. by rewrite List.filter_app, map_app. Qed.

(** The loop, for a closure that looks at [dir_entry_info] only. *)
Lemma core_loop_spec {U} (f : DirEntryInfo -> U -> U) handle restart k bs r k' :
  nt_stream handle restart k bs r k' -> forall fuel buffer u,
  (length bs < fuel)%nat -> Z.of_nat (length buffer) = BUFFER_SIZE ->
  exists buffer', Z.of_nat (length buffer') = BUFFER_SIZE /\
    core_loop (fun entry name u => f (dir_entry_info entry name) u) fuel handle restart buffer u k =
      Ret (r, buffer', fold_left (fun u e => f e u) (infos_of (concat bs)) u, k').
Proof.
  induction 1 as [restart k info k' E|restart k status info k' H0 H1 E|
    restart k b bs r k1 k' Hne Hok Hfit E _ IH]; intros fuel buffer u Hf Hbuf;
    (destruct fuel as [|fuel]; [simpl in Hf; lia|]); cbn [core_loop]; rewrite Hbuf, E.
  - exists buffer. done.
  - exists buffer. split; [done|]. apply Z.eqb_neq in H0, H1. by rewrite H0, H1.
  - assert (Z.of_nat (length (records_bytes b ++ drop (length (records_bytes b)) buffer)) =
      BUFFER_SIZE) as Hbuf' by (rewrite length_app, length_drop; lia).
    pose proof (length_records_bytes b Hok).
    destruct (nt_parse_records b (drop (length (records_bytes b)) buffer)) as (calls & Hc & ->); [done..|].
    rewrite (proj2 (Z.eqb_neq (Z.of_nat _) 0)) by (destruct b; [done|rewrite length_cons in *; lia]).
    cbn [exec_bind Z.eqb negb].
    destruct (IH fuel _ (fold_left (fun u '(entry, name) => f (dir_entry_info entry name) u) calls u)
      ltac:(simpl in Hf; lia) Hbuf') as (buffer' & Hb' & ->).
    exists buffer'. split; [done|]. cbn [concat]. rewrite infos_of_app, fold_left_app, <- Hc.
    do 3 f_equal. clear. revert u. induction calls as [|[e n] calls IH]; intros u; [done|]. apply IH.
Qed.

(** [TLS_BUFFER] is empty, or holds a buffer of an earlier enumeration. *)
Definition tls_ok (tls : option (list Z)) : Prop :=
  match tls with Some buffer => Z.of_nat (length buffer) = BUFFER_SIZE | None => True end.

Lemma enumerate_core_spec {U} (f : DirEntryInfo -> U -> U) handle k bs r k' fuel tls u :
  nt_stream handle true k bs r k' -> (length bs < fuel)%nat -> tls_ok tls ->
  exists tls', tls_ok tls' /\
    enumerate_dir_core (fun entry name u => f (dir_entry_info entry name) u) fuel handle tls u k =
      Ret (r, tls', fold_left (fun u e => f e u) (infos_of (concat bs)) u, k').
Proof.
  intros Hs Hf Ht. unfold enumerate_dir_core.
  destruct (core_loop_spec f _ _ _ _ _ _ Hs fuel (default (repeat 0 (Z.to_nat BUFFER_SIZE)) tls) u Hf)
    as (buffer & Hb & ->).
  - destruct tls as [b|]; [exact Ht|]. unfold default, from_option.
    rewrite repeat_length, Z2Nat.id; [reflexivity|]. unfold BUFFER_SIZE. lia.
  - exists (Some buffer). split; [exact Hb|reflexivity].
Qed.

Lemma fold_push_info (l result : list DirEntryInfo) :
  fold_left (fun u e => u ++ [e]) l result = result ++ l.
Proof.
  revert result. induction l as [|e l IH]; intros result; simpl; [by rewrite app_nil_r|].
  by rewrite IH, <- app_assoc.
Qed.

Lemma stream_info_fold {V} (on_subdir : DirEntryInfo -> V -> V) l result v :
  fold_left (fun u e => stream_info on_subdir e u) l (result, v) =
    (result ++ l, fold_left (fun v e => on_subdir e v) (List.filter is_directory l) v).
Proof.
  revert result v. induction l as [|e l IH]; intros result v; simpl; [by rewrite app_nil_r|].
  rewrite IH, <- app_assoc. by destruct (is_directory e).
Qed.

Lemma nt_streaming {V} (on_subdir : DirEntryInfo -> V -> V) path tls v k handle k1 bs r k' fuel :
  nt_create_file (path ++ [0]) k = (Ok handle, k1) -> nt_stream handle true k1 bs r k' ->
  (length bs < fuel)%nat -> tls_ok tls ->
  let entries := infos_of (concat bs) in
  let v' := fold_left (fun v e => on_subdir e v) (List.filter is_directory entries) v in
  exists tls', tls_ok tls' /\
    enumerate_dir_streaming on_subdir fuel path tls v k =
      Ret (match r with
           | Ok _ => (Ok (handle, entries), tls', v', k')
           | Err e => (Err e, tls', v', nt_close_handle handle k')
           end).
Proof.
  intros Ho Hs Hf Ht. cbv zeta. unfold enumerate_dir_streaming, open_dir_handle, path_to_widestring.
  rewrite Ho. destruct (enumerate_core_spec (stream_info on_subdir) _ _ _ _ _ fuel tls ([], v) Hs Hf Ht)
    as (tls' & Ht' & ->).
  exists tls'. split; [done|]. cbn [exec_bind]. rewrite stream_info_fold. by destruct r.
Qed.

Lemma nt_plain path tls k handle k1 bs r k' fuel :
  nt_create_file (path ++ [0]) k = (Ok handle, k1) -> nt_stream handle true k1 bs r k' ->
  (length bs < fuel)%nat -> tls_ok tls ->
  exists tls', tls_ok tls' /\
    enumerate_dir fuel path tls k =
      Ret (match r with
           | Ok _ => (Ok (handle, infos_of (concat bs)), tls', k')
           | Err e => (Err e, tls', nt_close_handle handle k')
           end).
Proof.
  intros Ho Hs Hf Ht. unfold enumerate_dir, open_dir_handle, path_to_widestring. rewrite Ho.
  destruct (enumerate_core_spec (fun e u => u ++ [e]) _ _ _ _ _ fuel tls [] Hs Hf Ht)
    as (tls' & Ht' & ->).
  exists tls'. split; [done|]. cbn [exec_bind]. rewrite fold_push_info. by destruct r.
Qed.

(** C24: on Windows both enumerations return every entry of the directory but "." and
    "..", each once and in the order of the queries, with the handle open, or the
    error of a query, with the handle closed; the streaming one has called
    [on_subdir] once for each entry with the directory attribute, in order.  The
    buffer they leave for the next enumeration has its full size again. *)
Theorem enumerate_dir_spec {V} (on_subdir : DirEntryInfo -> V -> V)
    path tls v k handle k1 bs r k' fuel :
  nt_create_file (path ++ [0]) k = (Ok handle, k1) -> nt_stream handle true k1 bs r k' ->
  (length bs < fuel)%nat -> tls_ok tls ->
  let entries := infos_of (concat bs) in
  let v' := fold_left (fun v e => on_subdir e v) (List.filter is_directory entries) v in
  (exists tls', tls_ok tls' /\
    enumerate_dir fuel path tls k =
      Ret (match r with
           | Ok _ => (Ok (handle, entries), tls', k')
           | Err e => (Err e, tls', nt_close_handle handle k')
           end)) /\
  (exists tls', tls_ok tls' /\
    enumerate_dir_streaming on_subdir fuel path tls v k =
      Ret (match r with
           | Ok _ => (Ok (handle, entries), tls', v', k')
           | Err e => (Err e, tls', v', nt_close_handle handle k')
           end)).
Proof. intros. split; [by eapply nt_plain|by eapply nt_streaming]. Qed.

(** ** Links *)

(** The links of [e] when the query answers [links]. *)
Definition with_links (query_file_nlinks : bool) (links : OsString -> option Z) (e : DirEntryInfo) :
    DirEntryInfo :=
  match links (file_name e) with
  | Some n =>
      if query_file_nlinks || is_directory e
      then mk_entry_info (file_name e) (file_attributes e) (file_size e) (creation_time e)
             (last_write_time e) (last_access_time e) (file_id e) (Some n)
             (volume_serial_number e)
      else e
  | None => e
  end.

(** The system answers [links], in whatever state. *)
Definition answers (query : Z -> list Z -> K -> Z * Z * K) (handle : Z)
    (links : OsString -> option Z) : Prop :=
  forall name k, exists status k',
    query handle name k = (status, default 0 (links name), k') /\
    (status =? 0) = bool_decide (is_Some (links name)).

Lemma query_nlinks_links query links handle query_file_nlinks e k :
  answers query handle links -> file_name e <> [] ->
  Z.of_nat (length (file_name e)) < 2 ^ 15 ->
  exists k', query_nlinks query handle query_file_nlinks e k =
    (with_links query_file_nlinks links e, k').
Proof.
  intros Hans Hne Hlen. unfold query_nlinks, with_links.
  rewrite <- negb_orb. destruct (query_file_nlinks || is_directory e); cbn [negb];
    [|eexists; by destruct (links _)].
  assert (take (Z.to_nat ((2 * Z.of_nat (length (file_name e))) mod 2 ^ 16 / 2)) (file_name e) =
    file_name e) as ->.
  { apply take_ge. rewrite Z.mod_small by lia. rewrite Z.mul_comm, Z.div_mul by lia. lia. }
  destruct (Hans (file_name e) k) as (status & k' & -> & ->).
  destruct (file_name e) as [|c name] eqn:En; [done|]. rewrite <- En.
  exists k'. by destruct (links (file_name e)).
Qed.

(** C32: [batch_query_nlinks] gives every entry it is asked for (all of them, or the
    directories only) the number of links the system answers for its own name, and
    leaves the others, and those the system refuses, as they were. *)
Theorem batch_query_nlinks_spec query links handle query_file_nlinks es k :
  nt_query_by_name = Some query ->
  answers query handle links ->
  Forall (fun e => file_name e <> [] /\ Z.of_nat (length (file_name e)) < 2 ^ 15) es ->
  fst (batch_query_nlinks es handle query_file_nlinks k) =
    map (with_links query_file_nlinks links) es.
Proof.
  intros Hq Hans Hes. unfold batch_query_nlinks. rewrite Hq.
  revert k. induction Hes as [|e es [Hne Hlen] _ IH]; intros k; [done|]. cbn [query_all map].
  destruct (query_nlinks_links query links handle query_file_nlinks e k Hans Hne Hlen) as [k' ->].
  specialize (IH k'). destruct (query_all _ _ _ es k') as [rest k2]. simpl in *. by rewrite IH.
Qed.
End EnumerateSpec.

(** ** Witnesses *)

Definition sample_record (attributes : Z) (name : string) : nt_record :=
  mk_nt_record 0 130000000000000000 130000000000000000 130000000000000000 0 42 64 attributes 0
    (repeat 0 28) 9 (bytes name).

Definition sample_records : list nt_record :=
  [sample_record 0x10 "."; sample_record 0x10 ".."; sample_record 0x10 "sub";
   sample_record 0x20 "f.txt"].

Lemma sample_records_ok : Forall nt_record_ok sample_records.
Proof.
  repeat constructor; try (vm_compute; congruence); try done;
    repeat (constructor; [vm_compute; split; congruence|]); constructor.
Qed.

(** What an earlier query has left in the buffer. *)
Definition sample_rest : list Z :=
  repeat 7 (Z.to_nat (BUFFER_SIZE - Z.of_nat (length (records_bytes sample_records)))).

Lemma parse_buffer_roundtrip_witness :
  exists calls,
    map (fun '(entry, name) => dir_entry_info entry name) calls = infos_of sample_records /\
    parse_buffer_entries (records_bytes sample_records ++ sample_rest) = Ret calls.
Proof.
  apply (parse_buffer_roundtrip sample_records sample_rest); [done|exact sample_records_ok|].
  vm_compute. reflexivity.
Defined.

(** A system that serves the chains it holds, and remembers what was closed. *)
Record sample_nt := mk_sample_nt { sn_batches : list (list nt_record); sn_closed : list Z }.

#[export] Instance sample_nt_sys : NtSys sample_nt := {
  nt_create_file _ k := (Ok 3, k);
  nt_query_dir _ _ _ k :=
    match sn_batches k with
    | [] => (STATUS_NO_MORE_FILES, 0, [], k)
    | b :: bs =>
        (0, Z.of_nat (length (records_bytes b)), records_bytes b, mk_sample_nt bs (sn_closed k))
    end;
  nt_close_handle h k := mk_sample_nt (sn_batches k) (h :: sn_closed k);
  nt_status_to_win32 _ := 5;
  nt_error_kind _ := Other;
  nt_query_by_name :=
    Some (fun _ name k => if bool_decide (name = bytes "sub") then (0, 2, k) else (-1, 0, k));
  nt_volume_information _ k := (Some (77, bytes "NTFS" ++ [0; 0]), k);
}.

Definition sample_nt_state : sample_nt := mk_sample_nt [sample_records] [].

Lemma sample_nt_stream :
  nt_stream 3 true sample_nt_state [sample_records] (Ok tt) (mk_sample_nt [] []).
Proof.
  eapply nt_batch; [done|exact sample_records_ok|by vm_compute|reflexivity|]. by econstructor.
Qed.

Lemma enumerate_dir_spec_witness :
  (exists tls', tls_ok tls' /\
    enumerate_dir 2 (bytes "C:\r") None sample_nt_state =
      Ret (Ok (3, infos_of sample_records), tls', mk_sample_nt [] [])) /\
  (exists tls', tls_ok tls' /\
    enumerate_dir_streaming (fun e v => v ++ [file_name e]) 2 (bytes "C:\r") None []
      sample_nt_state =
      Ret (Ok (3, infos_of sample_records), tls', [bytes "sub"], mk_sample_nt [] [])).
Proof.
  destruct (enumerate_dir_spec (HN := sample_nt_sys) (fun e v => v ++ [file_name e]) (bytes "C:\r") None []
    sample_nt_state 3 sample_nt_state [sample_records] (Ok tt) (mk_sample_nt [] []) 2
    ltac:(reflexivity) sample_nt_stream ltac:(simpl; lia) I) as [H1 H2].
  split; [exact H1|exact H2].
Defined.

Definition sample_links (name : OsString) : option Z :=
  if bool_decide (name = bytes "sub") then Some 2 else None.

Lemma batch_query_nlinks_spec_witness :
  fst (batch_query_nlinks (infos_of sample_records) 3 true sample_nt_state) =
    map (with_links true sample_links) (infos_of sample_records) /\
  map number_of_links (map (with_links true sample_links) (infos_of sample_records)) =
    [Some 2; None].
Proof.
  split; [|by vm_compute].
  eapply (batch_query_nlinks_spec (HN := sample_nt_sys) _ sample_links 3 true (infos_of sample_records) sample_nt_state
    eq_refl).
  - intros name k. unfold sample_links. simpl. case_bool_decide; by repeat eexists.
  - repeat constructor; try done; by vm_compute.
Defined.
