(* ===== verification/Layout.v ===== *)
(** * The layout of the records: [repr(C)] structs and [examples/check_layout.rs]

    The readers take the fields of the records of the kernels at fixed offsets, those of
    [repr(C)] structs.  The layout rule of [repr(C)] is a definition here; the constants of
    [UnixEnum] and [NtEnum] are what it computes for the structs of the sources, and what
    the example [check_layout] prints for its own copy. *)
From S2P Require Import Prelude Bytes UnixEnum NtEnum.

(** A field: its size and its alignment. *)
Record c_field := mk_field { cf_size : Z; cf_align : Z }.

Definition prim (size : Z) : c_field := mk_field size size.
Definition array (n : Z) (elem : c_field) : c_field := mk_field (n * cf_size elem) (cf_align elem).

Definition align_up (n a : Z) : Z := (n + a - 1) / a * a.

(** Each field at the first offset that suits it, in the order of the declaration. *)
Fixpoint offsets_from (n : Z) (fs : list c_field) : list Z :=
  match fs with
  | [] => []
  | f :: fs' => let o := align_up n (cf_align f) in o :: offsets_from (o + cf_size f) fs'
  end.

Fixpoint end_from (n : Z) (fs : list c_field) : Z :=
  match fs with
  | [] => n
  | f :: fs' => end_from (align_up n (cf_align f) + cf_size f) fs'
  end.

Definition offsets_of (fs : list c_field) : list Z := offsets_from 0 fs.
Definition struct_align (fs : list c_field) : Z := foldr (fun f a => Z.max (cf_align f) a) 1 fs.
Definition struct_size (fs : list c_field) : Z := align_up (end_from 0 fs) (struct_align fs).

(** ** The rule is sound *)

Definition field_ok (f : c_field) : Prop := 0 <= cf_size f /\ 0 < cf_align f.

Lemma align_up_spec n a : 0 < a -> n <= align_up n a < n + a /\ align_up n a mod a = 0.
Proof.
  intros Ha. unfold align_up. rewrite Z.mod_mul by lia.
  pose proof (Z.div_mod (n + a - 1) a ltac:(lia)). pose proof (Z.mod_pos_bound (n + a - 1) a Ha).
  split; [|done]. lia.
Qed.

Lemma end_from_ge n fs : Forall field_ok fs -> n <= end_from n fs.
Proof.
  intros H. revert n. induction H as [|f fs [Hs Ha] _ IH]; intros n; simpl; [lia|].
  pose proof (align_up_spec n (cf_align f) Ha). specialize (IH (align_up n (cf_align f) + cf_size f)). lia.
Qed.

(** Every field is aligned and within the struct, and no two fields overlap. *)
Lemma offsets_from_spec n fs i f o :
  Forall field_ok fs -> fs !! i = Some f -> offsets_from n fs !! i = Some o ->
  n <= o /\ o mod cf_align f = 0 /\ o + cf_size f <= end_from n fs /\
  forall j o', (i < j)%nat -> offsets_from n fs !! j = Some o' -> o + cf_size f <= o'.
Proof.
  intros H. revert n i. induction H as [|g fs [Hs Ha] Hfs IH]; intros n i Hf Ho; [done|].
  pose proof (align_up_spec n (cf_align g) Ha) as [Hle Hmod]. simpl in *.
  destruct i as [|i]; simpl in *.
  - simplify_eq. split_and!; [lia|done|by apply end_from_ge|].
    intros [|j] o' Hj Ho'; [lia|]. simpl in Ho'. clear -Hfs Ho'.
    revert Ho'. generalize (align_up n (cf_align f) + cf_size f). revert j.
    induction Hfs as [|g fs [Hs Ha] _ IH]; intros j m Ho'; [done|]. simpl in Ho'.
    pose proof (align_up_spec m (cf_align g) Ha) as [Hm _].
    destruct j as [|j]; simpl in Ho'; [simplify_eq; lia|]. specialize (IH _ _ Ho'). lia.
  - destruct (IH _ _ Hf Ho) as (H1 & H2 & H3 & H4). split_and!; [lia|done|done|].
    intros [|j] o' Hj Ho'; [lia|]. apply (H4 j); [lia|done].
Qed.

(** In a [repr(C)] struct every field is aligned and inside the struct, the fields do not
    overlap, and they are in the order of the declaration. *)
Theorem repr_c_sound fs i f o :
  Forall field_ok fs -> fs !! i = Some f -> offsets_of fs !! i = Some o ->
  0 <= o /\ o mod cf_align f = 0 /\ o + cf_size f <= struct_size fs /\
  forall j o', (i < j)%nat -> offsets_of fs !! j = Some o' -> o + cf_size f <= o'.
Proof.
  intros H Hf Ho. destruct (offsets_from_spec 0 fs i f o H Hf Ho) as (H1 & H2 & H3 & H4).
  split_and!; try done. unfold struct_size.
  assert (0 < struct_align fs) as Ha by (unfold struct_align; clear; induction fs; simpl; lia).
  pose proof (align_up_spec (end_from 0 fs) (struct_align fs) Ha). lia.
Qed.

(** ** The structs of the sources *)

Definition u8 := prim 1.
Definition u16 := prim 2.
Definition u32 := prim 4.
Definition u64 := prim 8.

(** [FILE_ID_BOTH_DIR_INFO] of [nt_dir_enum.rs], and the copies of it in
    [check_layout.rs] ([ShortNameLength] of two bytes) and [class77_poc.rs] (a byte of
    padding). *)
Definition nt_info_fields : list c_field :=
  [u32; u32] ++ replicate 6 u64 ++ [u32; u32; u32; u8; array 12 u16; u64; array 1 u16].
Definition check_layout_fields : list c_field :=
  [u32; u32] ++ replicate 6 u64 ++ [u32; u32; u32; u16; array 12 u16; u64; array 1 u16].
Definition poc_info_fields : list c_field :=
  [u32; u32] ++ replicate 6 u64 ++ [u32; u32; u32; u8; array 1 u8; array 12 u16; u64; array 1 u16].

(** [LinuxDirent64] of [unix_dir_enum.rs]. *)
Definition dirent_fields : list c_field := [u64; u64; u16; u8].

(** What [check_layout] prints: the size, the offset of the name, the size less 2, and
    the offsets of [FileId], [ShortName] and [ShortNameLength]. *)
Definition check_layout : list Z :=
  let offset_of i := default 0 (offsets_of check_layout_fields !! i) in
  [struct_size check_layout_fields; offset_of 14%nat; struct_size check_layout_fields - 2;
   offset_of 13%nat; offset_of 12%nat; offset_of 11%nat].

(** The structs the Windows calls take and fill, on a 64-bit target, where [usize],
    [HANDLE] and pointers have 8 bytes: those of [nt_dir_enum.rs] and, for the information
    class 77, of [class77_poc.rs]. *)
Definition usize_field := prim 8.
Definition pointer := prim 8.

Definition io_status_block_fields : list c_field := [u32; usize_field].
Definition unicode_string_fields : list c_field := [u16; u16; pointer].
Definition object_attributes_fields : list c_field := [u32; pointer; pointer; u32; pointer; pointer].
Definition stat_info_fields : list c_field := replicate 7 u64 ++ replicate 4 u32.
Definition stat_basic_info_fields : list c_field := replicate 7 u64 ++ replicate 3 u32 ++ [u64].

(** The offsets at which [read_info] and [parse_dirents] read. *)
Theorem record_layouts :
  offsets_of nt_info_fields = [0; 4; 8; 16; 24; 32; 40; 48; 56; 60; 64; 68; 70; 96; NAME_OFFSET] /\
  struct_size nt_info_fields = INFO_SIZE /\
  offsets_of check_layout_fields = offsets_of nt_info_fields /\
  check_layout = [INFO_SIZE; NAME_OFFSET; 110; 96; 70; 68] /\
  struct_size poc_info_fields = INFO_SIZE /\ last (offsets_of poc_info_fields) = Some NAME_OFFSET /\
  offsets_of dirent_fields = [0; 8; 16; 18] /\ end_from 0 dirent_fields = DIRENT_NAME_OFFSET /\
  struct_size dirent_fields = header_size.
Proof. by split_and!. Qed.

(** The structs of the queries.  In both structs that carry it the number of links is 40
    bytes after the time of the last write, where [class77_poc] looks for it, and the
    padding before the last field of the second is four bytes. *)
Theorem query_layouts :
  struct_size io_status_block_fields = 16 /\ struct_size unicode_string_fields = 16 /\
  offsets_of object_attributes_fields = [0; 8; 16; 24; 32; 40] /\
  struct_size object_attributes_fields = 48 /\
  struct_size stat_info_fields = 72 /\ struct_size stat_basic_info_fields = 80 /\
  forall fields, fields = stat_info_fields \/ fields = stat_basic_info_fields ->
    exists write links, offsets_of fields !! 3%nat = Some write /\
      offsets_of fields !! 9%nat = Some links /\ links = write + 40.
Proof. split_and!; [done..|]. intros fields [-> | ->]; by exists 24, 64. Qed.
