(* ===== verification/UnitTests.v ===== *)
(** * The unit tests of the Linux modules

    The modules [tests] of core/unix_dir_enum.rs, core/fs_detect.rs and
    core/linux_io_uring.rs, run on the model: a test returns, or panics at an assertion
    that does not hold.  The tests of pure functions are evaluated; those that use the
    system are shown to pass on every system on which what they set up holds, and
    [parse_dirents_truncated] and [make_dirent_bytes_eq] are the general facts behind the
    tests of the parser. *)
From stdpp Require Import gmap.
From S2P Require Import Prelude Std Bytes Error Metadata UnixEnum Layout FsDetect IoUring.

(** [assert!] *)
Definition assert (b : bool) : exec unit := if b then Ret tt else Panic.

(** [assert_eq!] and [assert_ne!] *)
Definition assert_eq {A} `{EqDecision A} (x y : A) : exec unit := assert (bool_decide (x = y)).
Definition assert_ne {A} `{EqDecision A} (x y : A) : exec unit := assert (negb (bool_decide (x = y))).

Lemma assert_true (b : bool) : b = true -> assert b = Ret tt.
Proof. by intros ->. Qed.

Lemma assert_eq_refl {A} `{EqDecision A} (x y : A) : x = y -> assert_eq x y = Ret tt.
Proof. intros ->. apply assert_true. by apply bool_decide_eq_true. Qed.

Lemma assert_ne_neq {A} `{EqDecision A} (x y : A) : x <> y -> assert_ne x y = Ret tt.
Proof. intros H. apply assert_true. by rewrite bool_decide_false. Qed.

(** ** core/unix_dir_enum.rs *)

(** [buf[from..from + src.len()].copy_from_slice(src)] *)
Definition copy_from_slice (buf : list Z) (from : nat) (src : list Z) : exec (list Z) :=
  if (from + length src <=? length buf)%nat
  then Ret (take from buf ++ src ++ drop (from + length src) buf) else Panic.

Definition make_dirent_bytes (d_type : Z) (name : OsString) : exec (list Z) :=
  let name_with_nul_len := Z.of_nat (length name) + 1 in
  let header_len := 19 in
  let total_len := header_len + name_with_nul_len in
  let padded_len := Z.land (total_len + 7) (Z.lnot 7) in
  let buf := repeat 0 (Z.to_nat padded_len) in
  let! buf := copy_from_slice buf 0 (to_le_bytes 8 1234) in
  let! buf := copy_from_slice buf 8 (to_le_bytes 8 5678) in
  let! buf := copy_from_slice buf 16 (to_le_bytes 2 padded_len) in
  let! buf := copy_from_slice buf 18 [d_type] in
  let! buf := copy_from_slice buf 19 name in
  copy_from_slice buf (19 + length name) [0].

(** [buf.extend(make_dirent_bytes(t1, n1)); buf.extend(...)] *)
Fixpoint extend_all (ds : list (Z * OsString)) (buf : list Z) : exec (list Z) :=
  match ds with
  | [] => Ret buf
  | (d_type, name) :: ds' =>
      let! b := make_dirent_bytes d_type name in extend_all ds' (buf ++ b)
  end.

(** The calls of [on_entry] for the whole of a buffer. *)
Definition parse_all (buf : list Z) : exec (list (Z * OsString)) :=
  parse_dirents buf (Z.of_nat (length buf)).

Definition test_parse_dirents_single_regular : exec unit :=
  let! buf := make_dirent_bytes DT_REG (bytes "hello.txt") in
  let! found := parse_all buf in
  let! _ := assert_eq (length found) 1%nat in
  let! first := unwrap (head found) in
  let! _ := assert_eq (fst first) DT_REG in
  assert_eq (snd first) (bytes "hello.txt").

Definition test_parse_dirents_multiple_mixed_types : exec unit :=
  let! buf := extend_all [(DT_DIR, bytes "subdir"); (DT_REG, bytes "file1.txt");
                          (DT_LNK, bytes "link")] [] in
  let! found := parse_all buf in
  let! _ := assert_eq (length found) 3%nat in
  let! x := unwrap (found !! 0%nat) in
  let! _ := assert_eq x (DT_DIR, bytes "subdir") in
  let! x := unwrap (found !! 1%nat) in
  let! _ := assert_eq x (DT_REG, bytes "file1.txt") in
  let! x := unwrap (found !! 2%nat) in
  assert_eq x (DT_LNK, bytes "link").

Definition test_parse_dirents_dot_entries_not_filtered : exec unit :=
  let! buf := extend_all [(DT_DIR, bytes "."); (DT_DIR, bytes ".."); (DT_REG, bytes "real.txt")] [] in
  let! all := parse_all buf in
  let! _ := assert_eq (length all) 3%nat in
  let filtered := List.filter (fun x => negb (bool_decide (snd x = bytes ".")) &&
                                        negb (bool_decide (snd x = bytes ".."))) all in
  let! _ := assert_eq (length filtered) 1%nat in
  let! x := unwrap (filtered !! 0%nat) in
  assert_eq (snd x) (bytes "real.txt").

Definition test_parse_dirents_truncation_safe : exec unit :=
  let! buf := make_dirent_bytes DT_REG (bytes "truncated.txt") in
  let trunc_len := (length buf - 5)%nat in
  let buf := take trunc_len buf in
  let! l := parse_all buf in
  assert_eq (length l) 0%nat.

Definition test_file_type_from_dtype_common_types : exec unit :=
  let! ft := unwrap (file_type_from_dtype DT_DIR) in
  let! _ := assert (is_dir ft) in
  let! ft := unwrap (file_type_from_dtype DT_REG) in
  let! _ := assert (is_file ft) in
  let! ft := unwrap (file_type_from_dtype DT_LNK) in
  let! _ := assert (is_symlink ft) in
  assert (bool_decide (file_type_from_dtype DT_UNKNOWN = None)).

Definition test_file_type_from_mode_safety_assertion : exec unit :=
  let! _ := assert_eq FT_SIZE MODE_SIZE in
  let! _ := assert (is_dir (file_type_from_mode S_IFDIR)) in
  let! _ := assert (is_file (file_type_from_mode S_IFREG)) in
  assert (is_symlink (file_type_from_mode S_IFLNK)).

(** [offset_of!] by the rule of [repr(C)] *)
Definition test_dirent_layout_offsets : exec unit :=
  let offset_of i := default 0 (offsets_of Layout.dirent_fields !! i) in
  let! _ := assert_eq (offset_of 0%nat) 0 in
  let! _ := assert_eq (offset_of 1%nat) 8 in
  let! _ := assert_eq (offset_of 2%nat) 16 in
  let! _ := assert_eq (offset_of 3%nat) 18 in
  assert_eq DIRENT_NAME_OFFSET 19.

Definition dispatch (names : list OsString * list LinuxDirEntryOwned) (x : Z * OsString) :
    list OsString * list LinuxDirEntryOwned :=
  let '(subdir_names, all_entries) := names in
  let '(d_type, name) := x in
  if bool_decide (name = bytes ".") || bool_decide (name = bytes "..") then names
  else
    let owned := mk_linux_entry d_type name None in
    let subdir_names := if d_type =? DT_DIR then subdir_names ++ [le_name owned] else subdir_names in
    (subdir_names, all_entries ++ [owned]).

Definition test_streaming_dispatches_only_subdirs : exec unit :=
  let! buf := extend_all [(DT_DIR, bytes "d1"); (DT_REG, bytes "f1"); (DT_DIR, bytes "d2");
                          (DT_REG, bytes "f2"); (DT_DIR, bytes "d3")] [] in
  let! calls := parse_all buf in
  let '(subdir_names, all_entries) := fold_left dispatch calls ([], []) in
  let! _ := assert_eq subdir_names [bytes "d1"; bytes "d2"; bytes "d3"] in
  assert_eq (length all_entries) 5%nat.

(** On the directory [tmp], with what the test has created there. *)
Definition test_enumerate_dir_unix_streaming_on_tmpdir {K} `{Sys K} (fuel : nat) (tmp : Path)
    (tls : list Z) (k : K) : exec unit :=
  let! r := enumerate_dir_unix_streaming (fun _ subdir_count => (subdir_count + 1)%nat)
              fuel tmp tls 0%nat k in
  let '(result, subdir_count, _) := r in
  let! x := unwrap (res_ok result) in
  let '(_, entries) := x in
  let! _ := assert (4 <=? length entries)%nat in
  let! _ := assert (2 <=? subdir_count)%nat in
  assert (forallb (fun e => negb (bool_decide (le_name e = []))) entries).

(** The tests of pure functions pass. *)
Theorem parser_tests_pass :
  test_parse_dirents_single_regular = Ret tt /\
  test_parse_dirents_multiple_mixed_types = Ret tt /\
  test_parse_dirents_dot_entries_not_filtered = Ret tt /\
  test_parse_dirents_truncation_safe = Ret tt /\
  test_file_type_from_dtype_common_types = Ret tt /\
  test_file_type_from_mode_safety_assertion = Ret tt /\
  test_dirent_layout_offsets = Ret tt /\
  test_streaming_dispatches_only_subdirs = Ret tt.
Proof. by vm_compute. Qed.

(** *** The facts behind them *)

Lemma round_up_8 n : Z.land (n + 7) (Z.lnot 7) = 8 * ((n + 7) / 8).
Proof.
  rewrite <- Z.ldiff_land. change 7 with (Z.ones 3) at 2.
  rewrite Z.ldiff_ones_r, Z.shiftl_mul_pow2, Z.shiftr_div_pow2 by done.
  change (2 ^ 3) with 8. lia.
Qed.

Lemma copy_over from buf pre old post src :
  buf = pre ++ old ++ post -> from = length pre -> length old = length src ->
  copy_from_slice buf from src = Ret (pre ++ src ++ post).
Proof.
  intros -> -> E. unfold copy_from_slice. rewrite !length_app, (proj2 (Nat.leb_le _ _)) by lia.
  rewrite take_app_length, drop_app_add, drop_app_length' by lia. done.
Qed.

(** The helper of the tests never panics, and writes a record as the kernel does. *)
Theorem make_dirent_bytes_eq d_type name :
  make_dirent_bytes d_type name = Ret (dirent_bytes (mk_dirent 1234 5678 d_type name)).
Proof.
  set (d := mk_dirent 1234 5678 d_type name).
  pose proof (dirent_reclen_bounds d) as [_ Hb]. simpl in Hb. unfold DIRENT_NAME_OFFSET in Hb.
  unfold make_dirent_bytes, dirent_bytes. cbv zeta. rewrite round_up_8.
  replace (8 * ((19 + (Z.of_nat (length name) + 1) + 7) / 8)) with (dirent_reclen d)
    by (unfold dirent_reclen, DIRENT_NAME_OFFSET; simpl de_name; do 2 f_equal; lia).
  set (n := length name). set (pad := Z.to_nat (dirent_reclen d - 19 - Z.of_nat n - 1)).
  replace (Z.to_nat (dirent_reclen d)) with (8 + (8 + (2 + (1 + (n + (1 + pad))))))%nat by lia.
  rewrite !repeat_app. set (rest := repeat 0 n ++ repeat 0 1 ++ repeat 0 pad).
  set (ino := to_le_bytes 8 1234). set (off := to_le_bytes 8 5678).
  set (len := to_le_bytes 2 (dirent_reclen d)).
  rewrite (copy_over 0 _ [] (repeat 0 8) (repeat 0 8 ++ repeat 0 2 ++ repeat 0 1 ++ rest)) by done.
  cbn [exec_bind].
  rewrite (copy_over 8 _ ino (repeat 0 8) (repeat 0 2 ++ repeat 0 1 ++ rest)) by done. cbn [exec_bind].
  rewrite (copy_over 16 _ (ino ++ off) (repeat 0 2) (repeat 0 1 ++ rest)) by (by rewrite <- ?app_assoc).
  cbn [exec_bind].
  rewrite (copy_over 18 _ (ino ++ off ++ len) (repeat 0 1) rest) by (by rewrite <- ?app_assoc).
  cbn [exec_bind].
  rewrite (copy_over 19 _ (ino ++ off ++ len ++ [d_type]) (repeat 0 n) (repeat 0 1 ++ repeat 0 pad));
    [|by rewrite <- ?app_assoc|done|by rewrite repeat_length].
  cbn [exec_bind].
  rewrite (copy_over _ _ (ino ++ off ++ len ++ [d_type] ++ name) (repeat 0 1) (repeat 0 pad));
    [|by rewrite <- ?app_assoc|by rewrite !length_app|done].
  f_equal. simpl de_name. simpl de_ino. simpl de_off. simpl de_type. fold ino off len.
  replace (Z.to_nat (dirent_reclen d - DIRENT_NAME_OFFSET - Z.of_nat (length name)))
    with (1 + pad)%nat by (unfold DIRENT_NAME_OFFSET, pad, n; lia).
  rewrite repeat_app, <- !app_assoc. done.
Qed.

Lemma parse_loop_truncated fuel pre ds d k :
  Forall dirent_ok (ds ++ [d]) -> (length ds < fuel)%nat -> Z.of_nat k < dirent_reclen d ->
  let buf := pre ++ dirents_bytes ds ++ take k (dirent_bytes d) in
  parse_dirents_loop fuel buf (Z.of_nat (length buf)) (Z.of_nat (length pre)) =
  Ret (map dirent_view ds).
Proof.
  intros Hok Hf Hk. revert fuel pre Hok Hf.
  induction ds as [|d0 ds IH]; intros fuel pre Hok Hf; cbv zeta;
    (destruct fuel as [|fuel]; [simpl in Hf; lia|]); cbn [parse_dirents_loop].
  - simpl in Hok. simpl app.
    pose proof (length_dirent_bytes d) as Hl.
    assert (length (take k (dirent_bytes d)) = k) as Hlk by (rewrite length_take; lia).
    rewrite length_app, Hlk. destruct (Z.leb_spec (Z.of_nat (length pre) + header_size)
      (Z.of_nat (length pre + k))) as [Hh|]; [|done]. unfold header_size in Hh.
    assert (d_reclen (pre ++ take k (dirent_bytes d)) (Z.of_nat (length pre)) = dirent_reclen d) as ->.
    { destruct (UnixEnum.dirent_fields d [] ltac:(by inversion Hok)) as [E _].
      rewrite <- E, app_nil_r. unfold d_reclen. rewrite bytes_at_app by lia.
      rewrite <- (take_drop k (dirent_bytes d)) at 2. unfold bytes_at. rewrite Z.add_0_l.
      rewrite drop_app_le by (rewrite Hlk; simpl; lia).
      by rewrite take_app_le by (rewrite length_drop, Hlk; simpl; lia). }
    rewrite (proj2 (Z.ltb_lt _ _)) by lia. by rewrite orb_true_r.
  - inversion Hok as [|? ? Hd Hrest]; subst. change (dirents_bytes (d0 :: ds)) with (dirent_bytes d0 ++ dirents_bytes ds).
    rewrite <- !app_assoc. set (tail := dirents_bytes ds ++ take k (dirent_bytes d)).
    destruct (UnixEnum.dirent_fields d0 tail Hd) as (E1 & E2 & E3).
    pose proof (dirent_reclen_bounds d0) as [Hr _]. pose proof (length_dirent_bytes d0) as Hl.
    unfold d_reclen, d_type_at in *. unfold header_size in *.
    rewrite !bytes_at_app by (unfold DIRENT_NAME_OFFSET; lia). rewrite Z.add_0_l in E1, E2.
    rewrite E1, E2, E3, !length_app, (proj2 (Z.leb_le _ _)) by lia.
    rewrite (proj2 (Z.eqb_neq _ _)), (proj2 (Z.ltb_ge _ _)) by lia. cbn [orb exec_bind map].
    specialize (IH fuel (pre ++ dirent_bytes d0) Hrest ltac:(simpl in Hf; lia)). cbv zeta in IH.
    fold tail in IH. rewrite <- app_assoc, !length_app in IH. rewrite <- Hl.
    rewrite !Nat2Z.inj_add in IH. rewrite !Nat2Z.inj_add. by rewrite IH.
Qed.

(** Records followed by an incomplete one: the complete ones are parsed, nothing is read
    outside the buffer. *)
Theorem parse_dirents_truncated ds d k :
  Forall dirent_ok (ds ++ [d]) -> Z.of_nat k < dirent_reclen d ->
  parse_all (dirents_bytes ds ++ take k (dirent_bytes d)) = Ret (map dirent_view ds).
Proof.
  intros Hok Hk. unfold parse_all, parse_dirents.
  pose proof (length_dirents_bytes ds).
  apply (parse_loop_truncated _ [] ds d k Hok); [rewrite length_app; lia|done].
Qed.

(** The test of the streaming enumeration passes where the directory can be listed and
    holds the four entries with their types. *)
Theorem tmpdir_test_passes {K} `{Sys K} fuel tmp tls k cstr fd k1 bs k2 :
  CString_new tmp = Some cstr -> sys_open_dir cstr k = (Ok fd, k1) ->
  dir_stream fd k1 bs (Ok tt) k2 -> (length bs < fuel)%nat ->
  Forall (fun e => le_name e <> []) (entries_of (concat bs)) ->
  (forall t n, (t, n) ∈ [(DT_DIR, bytes "sub1"); (DT_DIR, bytes "sub2");
                         (DT_REG, bytes "file1.txt"); (DT_REG, bytes "file2.txt")] ->
     mk_linux_entry t n None ∈ entries_of (concat bs)) ->
  test_enumerate_dir_unix_streaming_on_tmpdir fuel tmp tls k = Ret tt.
Proof.
  intros Hc Ho Hs Hf Hne Hin. unfold test_enumerate_dir_unix_streaming_on_tmpdir.
  rewrite (streaming_enumeration _ _ _ _ _ _ _ _ _ _ _ _ Hc Ho Hs Hf). cbn [exec_bind unwrap res_ok].
  set (es := entries_of (concat bs)) in *.
  assert (forall l v, fold_left (fun v (_ : LinuxDirEntryOwned) => (v + 1)%nat) l v = (v + length l)%nat) as Hcount.
  { induction l as [|x l IH]; intros v; simpl; [lia|]. rewrite IH. lia. }
  rewrite Hcount, Nat.add_0_l.
  assert (forall l (es : list LinuxDirEntryOwned), NoDup (le_name <$> l) ->
      (forall e, e ∈ l -> e ∈ es) -> (length l <= length es)%nat)
    as Hlen by (intros l0 es0 H1 H2; by eapply submseteq_length, NoDup_submseteq, H2; eapply NoDup_fmap_1).
  assert (length (List.filter (fun e => (le_d_type e =? DT_DIR)%Z) es) >= 2)%nat as H2.
  { apply (Hlen [mk_linux_entry DT_DIR (bytes "sub1") None; mk_linux_entry DT_DIR (bytes "sub2") None]);
      [by refine (bool_decide_unpack _ _); vm_compute|]. intros e He. apply list_elem_of_In, filter_In. rewrite <- list_elem_of_In.
    rewrite !elem_of_cons, elem_of_nil in He.
    destruct He as [->|[->|[]]]; (split; [apply Hin; rewrite !elem_of_cons; auto|done]). }
  assert (length es >= 4)%nat as H4.
  { apply (Hlen (map (fun x => mk_linux_entry x.1 x.2 None)
      [(DT_DIR, bytes "sub1"); (DT_DIR, bytes "sub2"); (DT_REG, bytes "file1.txt"); (DT_REG, bytes "file2.txt")]));
      [by refine (bool_decide_unpack _ _); vm_compute|]. intros e He. apply list_elem_of_fmap in He as ([t n] & -> & He). by apply Hin. }
  rewrite (assert_true (4 <=? _)%nat), (assert_true (2 <=? _)%nat) by (apply Nat.leb_le; lia).
  cbn [exec_bind].
  apply assert_true, forallb_forall. intros e He. rewrite <- list_elem_of_In in He.
  rewrite Forall_forall in Hne. by rewrite bool_decide_false by (by apply Hne).
Qed.

Example tmpdir_test_run :
  test_enumerate_dir_unix_streaming_on_tmpdir 3 (bytes "/tmp/t") []
    (mk_sample_kernel [[mk_dirent 1 1 DT_DIR (bytes "."); mk_dirent 2 2 DT_DIR (bytes "sub1");
                        mk_dirent 3 3 DT_REG (bytes "file2.txt")];
                       [mk_dirent 4 4 DT_DIR (bytes "sub2"); mk_dirent 5 5 DT_REG (bytes "file1.txt")]] []) = Ret tt.
Proof. vm_compute. reflexivity. Qed.

(** ** core/fs_detect.rs *)

Definition test_strategy_from_ftype_known_network : exec unit :=
  let! _ := assert_eq (strategy_from_ftype NFS_SUPER_MAGIC) NetworkAsync in
  let! _ := assert_eq (strategy_from_ftype CIFS_MAGIC_NUMBER) NetworkAsync in
  assert_eq (strategy_from_ftype SMB2_SUPER_MAGIC) NetworkAsync.

Definition test_strategy_from_ftype_known_local : exec unit :=
  let! _ := assert_eq (strategy_from_ftype EXT4_SUPER_MAGIC) LocalSync in
  let! _ := assert_eq (strategy_from_ftype XFS_SUPER_MAGIC) LocalSync in
  let! _ := assert_eq (strategy_from_ftype BTRFS_SUPER_MAGIC) LocalSync in
  let! _ := assert_eq (strategy_from_ftype TMPFS_MAGIC) LocalSync in
  assert_eq (strategy_from_ftype OVERLAYFS_SUPER_MAGIC) LocalSync.

Definition test_strategy_from_ftype_fat_family : exec unit :=
  let! _ := assert_eq (strategy_from_ftype MSDOS_SUPER_MAGIC) SkipNlinks in
  assert_eq (strategy_from_ftype EXFAT_SUPER_MAGIC) SkipNlinks.

Definition test_strategy_from_ftype_unknown_conservative_local : exec unit :=
  let! _ := assert_eq (strategy_from_ftype 0x12345678) LocalSync in
  let! _ := assert_eq (strategy_from_ftype 0) LocalSync in
  assert_eq (strategy_from_ftype (-1)) LocalSync.

Theorem strategy_tests_pass :
  test_strategy_from_ftype_known_network = Ret tt /\
  test_strategy_from_ftype_known_local = Ret tt /\
  test_strategy_from_ftype_fat_family = Ret tt /\
  test_strategy_from_ftype_unknown_conservative_local = Ret tt.
Proof. by vm_compute. Qed.

(** [IoStrategyCache::get] *)
Definition cache_get (cache : IoStrategyCache) (dev : Z) : option IoStrategy := cache !! dev.

Lemma cache_new_lookup dev : cache_new !! dev = None.
Proof. apply lookup_empty. Qed.

Section DetectTests.
Context {K : Type} {HF : FsSys K}.

(** [tmp] is [std::env::temp_dir()]. *)
Definition test_detect_tmpdir_returns_local_sync (tmp : Path) (k : K) : exec unit :=
  let '(strategy, _, _) := detect cache_new tmp k in
  assert_ne strategy NetworkAsync.

Definition test_detect_caches_by_st_dev (tmp : Path) (k : K) : exec unit :=
  let '(s1, cache, k) := detect cache_new tmp k in
  let '(r, k) := stat_dev tmp k in
  let! dev := unwrap (res_ok r) in
  let! _ := assert_eq (cache_get cache dev) (Some s1) in
  let '(s2, _, _) := detect cache tmp k in
  assert_eq s1 s2.

Definition test_detect_nonexistent_path_falls_back (k : K) : exec unit :=
  let '(strategy, _, _) := detect cache_new (bytes "/this/path/should/not/exist/9mf") k in
  assert_eq strategy LocalSync.

Definition test_detect_path_with_nul_byte_falls_back (k : K) : exec unit :=
  let path := bytes "/tmp/foo" ++ [0] ++ bytes "bar" in
  let '(strategy, _, _) := detect cache_new path k in
  assert_eq strategy LocalSync.

Definition test_probe_latency_local_returns_local_sync (tmp : Path) (k : K) : exec unit :=
  let '(strategy, _) := probe_latency tmp k in
  assert_eq strategy LocalSync.

(** Every path with a NUL is refused, whatever the system. *)
Theorem nul_byte_test_passes k : test_detect_path_with_nul_byte_falls_back k = Ret tt.
Proof. done. Qed.

Theorem nonexistent_test_passes k e k' :
  sys_stat_dev (bytes "/this/path/should/not/exist/9mf") k = (Err e, k') ->
  test_detect_nonexistent_path_falls_back k = Ret tt.
Proof.
  intros E. unfold test_detect_nonexistent_path_falls_back, detect, stat_dev.
  replace (CString_new _) with (Some (bytes "/this/path/should/not/exist/9mf")) by done. by rewrite E.
Qed.

(** The directory of temporary files stays on its device. *)
Theorem caches_test_passes tmp k dev :
  (forall k, exists k', stat_dev tmp k = (Ok dev, k')) ->
  test_detect_caches_by_st_dev tmp k = Ret tt.
Proof.
  intros Hdev. unfold test_detect_caches_by_st_dev.
  destruct (Hdev k) as [k1 E1]. unfold detect at 1. rewrite E1, cache_new_lookup.
  destruct (statfs_strategy tmp k1) as [o k2]. destruct (Hdev k2) as [k3 E3]. rewrite E3.
  cbn [unwrap res_ok exec_bind]. rewrite assert_eq_refl by apply lookup_insert_eq. cbn [exec_bind].
  unfold detect. destruct (Hdev k3) as [k4 E4]. rewrite E4, lookup_insert_eq. by apply assert_eq_refl.
Qed.

(** The batch interface is not chosen where the probe is quick, whatever the type of the
    file system says. *)
Lemma quick_probe tmp k :
  (forall cstr k ok elapsed k', sys_timed_fstatat PROBE_DIRFD cstr k = (ok, elapsed, k') ->
     elapsed < LATENCY_THRESHOLD) ->
  fst (probe_latency tmp k) = LocalSync.
Proof.
  intros H. unfold probe_latency. destruct (CString_new tmp) as [cstr|]; [|done].
  destruct (sys_timed_fstatat PROBE_DIRFD cstr k) as [[ok el] k'] eqn:E. specialize (H _ _ _ _ _ E).
  destruct ok; [|done]. simpl. by rewrite (proj2 (Z.leb_gt _ _)) by done.
Qed.

Theorem latency_tests_pass tmp k :
  (forall cstr k ok elapsed k', sys_timed_fstatat PROBE_DIRFD cstr k = (ok, elapsed, k') ->
     elapsed < LATENCY_THRESHOLD) ->
  test_probe_latency_local_returns_local_sync tmp k = Ret tt /\
  test_detect_tmpdir_returns_local_sync tmp k = Ret tt.
Proof.
  intros H. split.
  - unfold test_probe_latency_local_returns_local_sync. pose proof (quick_probe tmp k H).
    destruct (probe_latency tmp k). by apply assert_eq_refl.
  - unfold test_detect_tmpdir_returns_local_sync.
    destruct (detect cache_new tmp k) as [[s c] k'] eqn:E. apply assert_ne_neq. intros ->.
    unfold detect in E. destruct (stat_dev tmp k) as [[dev|e] k1]; [|by simplify_eq].
    rewrite cache_new_lookup in E. destruct (statfs_strategy tmp k1) as [o k2] eqn:Es.
    destruct o as [s|]; simplify_eq/=.
    apply statfs_strategy_network in Es as (cstr & f & k3 & el & _ & _ & _ & Et & Hel).
    specialize (H _ _ _ _ _ Et). lia.
Qed.
End DetectTests.

(** ** core/linux_io_uring.rs *)

Definition make_entry (d_type : Z) (name : OsString) : LinuxDirEntryOwned :=
  mk_linux_entry d_type name None.

Definition test_min_batch_constant_nonzero : exec unit := assert (1 <=? MIN_BATCH_FOR_IO_URING)%nat.

Definition test_ring_size_constant_reasonable : exec unit :=
  let! _ := assert (64 <=? RING_SIZE)%nat in
  assert (RING_SIZE <=? 4096)%nat.

Theorem constant_tests_pass :
  test_min_batch_constant_nonzero = Ret tt /\ test_ring_size_constant_reasonable = Ret tt.
Proof. by vm_compute. Qed.

Section RingTests.
Context {K : Type} {HS : Sys K} {HR : Ring K}.

(** One turn of the last loop of the test; [fs_ino] is [fs::symlink_metadata], the inode of
    a path. *)
Definition check_entry (fs_ino : Path -> option Z) (tmp : Path) (entry : LinuxDirEntryOwned)
    (name : OsString) : exec unit :=
  let! statx := unwrap (le_statx entry) in
  let! ino := unwrap (fs_ino (path_join tmp name)) in
  let! _ := assert_eq (stx_ino statx) ino in
  let! _ := assert_eq (stx_size statx) 1 in
  assert_eq (Z.land (stx_mode statx) S_IFMT) S_IFREG.

Fixpoint check_entries (fs_ino : Path -> option Z) (tmp : Path)
    (l : list (LinuxDirEntryOwned * OsString)) : exec unit :=
  match l with
  | [] => Ret tt
  | (entry, name) :: l' =>
      let! _ := check_entry fs_ino tmp entry name in check_entries fs_ino tmp l'
  end.

Definition test_batch_statx_real_dir (fs_ino : Path -> option Z) (tmp : Path)
    (available : option bool) (k : K) : exec unit :=
  let '(enabled, available, k) := io_uring_enabled available k in
  if negb enabled then Ret tt
  else
    let file_names := [bytes "alpha.txt"; bytes "beta.bin"; bytes "gamma.md"] in
    let! cstr := unwrap (CString_new tmp) in
    let '(r, k) := sys_open_dir cstr k in
    let! fd := unwrap (res_ok r) in
    let entries := map (make_entry DT_REG) file_names in
    let '(result, entries, k) := batch_statx_via_io_uring entries fd k in
    if negb (res_is_ok result) then Ret tt
    else check_entries fs_ino tmp (zip entries file_names).

Definition test_batch_statx_empty_noop (k : K) : exec unit :=
  let '(result, _, _) := batch_statx_via_io_uring [] (-1) k in
  assert (res_is_ok result).

Definition bad_name : OsString := bytes "bad" ++ [0] ++ bytes "name".

Definition test_batch_statx_skips_nul_byte_name (tmp : Path) (available : option bool) (k : K) :
    exec unit :=
  let '(enabled, available, k) := io_uring_enabled available k in
  if negb enabled then Ret tt
  else
    let! cstr := unwrap (CString_new tmp) in
    let '(r, k) := sys_open_dir cstr k in
    let! fd := unwrap (res_ok r) in
    let entries := [make_entry DT_REG (bytes "valid.txt"); make_entry DT_REG bad_name] in
    let '(result, entries, k) := batch_statx_via_io_uring entries fd k in
    if negb (res_is_ok result) then Ret tt
    else
      let! valid := unwrap (entries !! 0%nat) in
      let! _ := assert (match le_statx valid with Some _ => true | None => false end) in
      let! bad := unwrap (entries !! 1%nat) in
      assert (match le_statx bad with Some _ => false | None => true end).

(** [fd] is what [open] answers for /dev/null, negative when it fails. *)
Definition test_batch_statx_nonexistent_files_yields_none_statx (fd : Z)
    (available : option bool) (k : K) : exec unit :=
  let '(enabled, available, k) := io_uring_enabled available k in
  if negb enabled then Ret tt
  else if fd <? 0 then Ret tt
  else
    let entries := [make_entry DT_REG (bytes "ghost1.txt"); make_entry DT_REG (bytes "ghost2.txt")] in
    let '(_, entries, k) := batch_statx_via_io_uring entries fd k in
    assert (forallb (fun e => match le_statx e with Some _ => false | None => true end) entries).

Definition test_io_uring_enabled_idempotent (available : option bool) (k : K) : exec unit :=
  let '(a, available, k) := io_uring_enabled available k in
  let '(b, _, _) := io_uring_enabled available k in
  assert_eq a b.

(** *** On every system *)

(** The cell is filled by the first call. *)
Theorem enabled_test_passes available k : test_io_uring_enabled_idempotent available k = Ret tt.
Proof.
  unfold test_io_uring_enabled_idempotent, io_uring_enabled.
  destruct available as [b|]; [by apply assert_eq_refl|].
  destruct (ring_build 1 k) as [r k']. by apply assert_eq_refl.
Qed.

Theorem empty_batch_test_passes k : test_batch_statx_empty_noop k = Ret tt.
Proof. done. Qed.

Lemma batch_result fd answer `{!RingLaws fd answer} es k r es' k' :
  batch_statx_via_io_uring es fd k = (r, es', k') ->
  exists n, es' = map (filled answer) (take n es) ++ drop n es /\ (r = Ok tt -> es' = map (filled answer) es).
Proof.
  intros E. apply (batch_loop_filled fd answer (length es)) in E as (n & -> & Hn); [|done].
  exists n. split; [done|]. intros Hr. by rewrite (Hn Hr), firstn_all, drop_all, app_nil_r.
Qed.

Lemma filled_answered answer e c stx :
  CString_new (le_name e) = Some c -> answer c = Some stx -> filled answer e = set_statx stx e.
Proof. intros H1 H2. unfold filled. by rewrite H1, H2. Qed.

(** The three files exist, are regular, of size 1, and the two ways to ask for the inode
    agree. *)
Theorem real_dir_test_passes fs_ino tmp cstr fd answer `{!RingLaws fd answer} available k :
  CString_new tmp = Some cstr -> (forall k, exists k', sys_open_dir cstr k = (Ok fd, k')) ->
  Forall (fun name => exists stx, answer name = Some stx /\ fs_ino (path_join tmp name) = Some (stx_ino stx) /\
      stx_size stx = 1 /\ Z.land (stx_mode stx) S_IFMT = S_IFREG)
    [bytes "alpha.txt"; bytes "beta.bin"; bytes "gamma.md"] ->
  test_batch_statx_real_dir fs_ino tmp available k = Ret tt.
Proof.
  intros Hc Ho Hf. unfold test_batch_statx_real_dir.
  destruct (io_uring_enabled available k) as [[[] a] k1]; [|done]. cbn [negb].
  rewrite Hc. destruct (Ho k1) as [k2 E]. cbn [unwrap exec_bind]. rewrite E. cbn [unwrap exec_bind res_ok].
  destruct (batch_statx_via_io_uring _ fd k2) as [[r es] k3] eqn:Eb.
  destruct (batch_result fd answer _ _ _ _ _ Eb) as (n & _ & Hr).
  destruct r as [[]|e]; [|done]. rewrite (Hr eq_refl). cbn [res_is_ok negb]. clear -Hf.
  assert (forall names, Forall (fun name => CString_new name = Some name) names ->
    Forall (fun name => exists stx, answer name = Some stx /\ fs_ino (path_join tmp name) = Some (stx_ino stx) /\
      stx_size stx = 1 /\ Z.land (stx_mode stx) S_IFMT = S_IFREG) names ->
    check_entries fs_ino tmp (zip (map (filled answer) (map (make_entry DT_REG) names)) names) = Ret tt) as H.
  { induction names as [|name names IH]; intros H1 H2; [done|].
    apply Forall_cons in H1 as [H1 H1']. apply Forall_cons in H2 as [(stx & Ea & Ei & Es & Em) H2'].
    cbn [map zip zip_with check_entries].
    rewrite (filled_answered answer (make_entry DT_REG name) _ stx H1 Ea). unfold check_entry.
    cbn. rewrite Ei. cbn. rewrite assert_eq_refl, assert_eq_refl, assert_eq_refl by done. cbn. by apply IH. }
  apply H; [by repeat constructor|done].
Qed.

Theorem nul_name_test_passes tmp cstr fd answer `{!RingLaws fd answer} stx available k :
  CString_new tmp = Some cstr -> (forall k, exists k', sys_open_dir cstr k = (Ok fd, k')) ->
  answer (bytes "valid.txt") = Some stx ->
  test_batch_statx_skips_nul_byte_name tmp available k = Ret tt.
Proof.
  intros Hc Ho Ha. unfold test_batch_statx_skips_nul_byte_name.
  destruct (io_uring_enabled available k) as [[[] a] k1]; [|done]. cbn [negb].
  rewrite Hc. destruct (Ho k1) as [k2 E]. cbn [unwrap exec_bind]. rewrite E. cbn [unwrap exec_bind res_ok].
  destruct (batch_statx_via_io_uring _ fd k2) as [[r es] k3] eqn:Eb.
  destruct (batch_result fd answer _ _ _ _ _ Eb) as (n & _ & Hr).
  destruct r as [[]|e]; [|done]. rewrite (Hr eq_refl). cbn [res_is_ok negb map].
  by rewrite (filled_answered answer (make_entry DT_REG (bytes "valid.txt")) _ stx eq_refl Ha).
Qed.

(** /dev/null is not a directory: every request is refused. *)
Theorem ghost_test_passes fd answer `{!RingLaws fd answer} available k :
  (forall name, answer name = None) ->
  test_batch_statx_nonexistent_files_yields_none_statx fd available k = Ret tt.
Proof.
  intros Ha. unfold test_batch_statx_nonexistent_files_yields_none_statx.
  destruct (io_uring_enabled available k) as [[[] a] k1]; [|done]. cbn [negb].
  destruct (Z.ltb_spec fd 0); [done|].
  destruct (batch_statx_via_io_uring _ fd k1) as [[r es] k3] eqn:Eb.
  destruct (batch_result fd answer _ _ _ _ _ Eb) as (n & -> & _).
  assert (forall l, map (filled answer) l = l) as ->; [|by rewrite take_drop].
  induction l as [|e l IH]; [done|]. simpl. rewrite IH. f_equal. unfold filled.
  destruct (CString_new (le_name e)); [|done]. by rewrite Ha.
Qed.
End RingTests.
