(* ===== verification/Windows.v ===== *)
(** * Windows: the [cfg(windows)] variants of [metadata.rs] and [dir_entry.rs]

    The types that differ from the Unix ones, in module [Win], and the [Platform] they
    make.  What [std] does with Windows paths and names ([join], the order of
    [OsString]) is a parameter, [WindowsStd]. *)
From S2P Require Import Prelude Order Std Bytes Error Platform NtEnum.

Module Win.
Definition FILE_ATTRIBUTE_HIDDEN : Z := 0x2.
Definition FILE_ATTRIBUTE_REPARSE_POINT : Z := 0x400.

Definition has_attr (attrs flag : Z) : bool := negb (Z.land attrs flag =? 0).

(** [std::fs::FileType] on Windows. *)
Record FileType := mk_file_type { is_directory : bool; is_symlink_flag : bool }.
Definition is_dir (ft : FileType) : bool := negb (is_symlink_flag ft) && is_directory ft.
Definition is_file (ft : FileType) : bool := negb (is_symlink_flag ft) && negb (is_directory ft).
Definition is_symlink (ft : FileType) : bool := is_symlink_flag ft.

(** [transmute] of the two bytes into the two [bool]s. *)
Definition file_type_from_attrs (attrs : Z) : FileType :=
  let is_dir := has_attr attrs FILE_ATTRIBUTE_DIRECTORY in
  let is_sym := has_attr attrs FILE_ATTRIBUTE_REPARSE_POINT in
  let bits := Z.lor (Z.b2z is_dir) (Z.shiftl (Z.b2z is_sym) 8) in
  match to_le_bytes 2 bits with
  | [b0; b1] => mk_file_type (b0 =? 1) (b1 =? 1)
  | _ => mk_file_type false false
  end.

Definition is_hidden_win32 (file_name : OsString) (file_attributes : Z) : bool :=
  if has_attr file_attributes FILE_ATTRIBUTE_HIDDEN then true else is_hidden file_name.

(** What the accessors of [fs::Metadata] return. *)
Record fs_Metadata := mk_fs_metadata {
  md_file_type : FileType; md_file_attributes : Z; md_len : Z;
  md_created : option SystemTime; md_modified : option SystemTime; md_accessed : option SystemTime;
  md_volume_serial_number : option Z; md_number_of_links : option Z; md_file_index : option Z;
}.

Record MetaDataExt := mk_metadata_ext {
  file_attributes : Z;
  volume_serial_number : option Z;
  number_of_links : option Z;
  file_index : option Z;
}.

Definition get_metadata_ext (metadata : fs_Metadata) : MetaDataExt := {|
  file_attributes := md_file_attributes metadata;
  volume_serial_number := md_volume_serial_number metadata;
  number_of_links := md_number_of_links metadata;
  file_index := md_file_index metadata;
|}.

Definition changed_time_from_metadata (metadata : fs_Metadata) : option SystemTime :=
  md_created metadata.

Definition from_fs_metadata (metadata : fs_Metadata) : MetaData := {|
  m_is_dir := is_dir (md_file_type metadata);
  m_is_file := is_file (md_file_type metadata);
  m_is_symlink := is_symlink (md_file_type metadata);
  m_size := md_len metadata;
  m_created := md_created metadata;
  m_changed := changed_time_from_metadata metadata;
  m_modified := md_modified metadata;
  m_accessed := md_accessed metadata;
  m_permissions := Some (mk_permissions (md_file_attributes metadata));
|}.

(** [AncestorIdentity] *)
Module AncestorIdentity.
Record t := mk { path : Path; volume_serial_number : option Z; file_index : option Z }.
End AncestorIdentity.

(** The body of [AncestorIdentity::from_path] once the metadata is there. *)
Definition identify (path : Path) (meta : fs_Metadata) : AncestorIdentity.t :=
  let ext := get_metadata_ext meta in
  AncestorIdentity.mk path (volume_serial_number ext) (file_index ext).

(** The Windows body of [ancestor_identity_eq]. *)
Definition ancestor_identity_eq (target : MetaDataExt) (ancestor : AncestorIdentity.t) : bool :=
  match volume_serial_number target, file_index target,
    AncestorIdentity.volume_serial_number ancestor, AncestorIdentity.file_index ancestor with
  | Some vol_t, Some idx_t, Some vol_a, Some idx_a => (vol_t =? vol_a) && (idx_t =? idx_a)
  | _, _, _, _ => false
  end.
End Win.

(** [std]'s view of Windows paths and names. *)
Class WindowsStd := {
  win_path_join : Path -> Path -> Path;
  win_is_absolute : Path -> bool;
  win_file_name : Path -> option OsString;
  win_parent : Path -> option Path;
  win_os_str_cmp : OsString -> OsString -> comparison;
  win_os_str_cmp_total :: TotalCmp win_os_str_cmp;
}.

#[export] Instance windows_platform {W : WindowsStd} : Platform := {
  Platform.target := Windows;
  Platform.FileType := Win.FileType;
  Platform.is_dir := Win.is_dir;
  Platform.is_file := Win.is_file;
  Platform.is_symlink := Win.is_symlink;
  Platform.fs_Metadata := Win.fs_Metadata;
  Platform.md_file_type := Win.md_file_type;
  Platform.md_len := Win.md_len;
  Platform.MetaDataExt := Win.MetaDataExt;
  Platform.get_metadata_ext := Win.get_metadata_ext;
  Platform.from_fs_metadata := Win.from_fs_metadata;
  Platform.ancestor := Win.AncestorIdentity.t;
  Platform.ancestor_path := Win.AncestorIdentity.path;
  Platform.identify := Win.identify;
  Platform.ancestor_identity_eq := Win.ancestor_identity_eq;
  Platform.path_join := win_path_join;
  Platform.is_absolute := win_is_absolute;
  Platform.path_file_name := win_file_name;
  Platform.path_parent := win_parent;
  Platform.os_str_cmp := win_os_str_cmp;
}.
