(* ===== verification/WindowsReadDir.v ===== *)
(** * Reading a directory on Windows: [read_dir_windows_helpers] and [read_dir_windows]
    of [lib.rs]

    As on Linux, the directory is listed first and its sub-directories are scheduled
    then: the system's answers do not depend on the calls to the [StreamingContext]. *)
From S2P Require Import Prelude Order Std Bytes Error Platform DirEntry Callback NtEnum Windows.

(** ** Time *)

Definition EPOCH_DIFFERENCE_100NS : Z := 116444736000000000.
Definition HUNDRED_NS_PER_SEC : Z := 10000000.
Definition NS_PER_HUNDRED_NS : Z := 100.

Definition i64_min : Z := - 2 ^ 63.
Definition i64_max : Z := 2 ^ 63 - 1.
Definition i64_saturating_sub (x y : Z) : Z := Z.max i64_min (Z.min i64_max (x - y)).

(** [UNIX_EPOCH + d] on Windows, where a [SystemTime] is a number of 100 ns since 1601
    in an [i64]: it panics on overflow. *)
Definition epoch_add (d : Duration) : exec SystemTime :=
  if EPOCH_DIFFERENCE_100NS + secs d * HUNDRED_NS_PER_SEC + nanos d / NS_PER_HUNDRED_NS <=? i64_max
  then Ret d else Panic.

Definition filetime_to_systemtime (ft : Z) : exec (option SystemTime) :=
  if ft =? 0 then Ret None
  else
    let duration_100ns := i64_saturating_sub ft EPOCH_DIFFERENCE_100NS in
    if duration_100ns <? 0 then Ret None
    else
      let secs := as_u64 (Z.quot duration_100ns HUNDRED_NS_PER_SEC) in
      let nanos := as_u32 (Z.rem duration_100ns HUNDRED_NS_PER_SEC * NS_PER_HUNDRED_NS) in
      let! d := duration_new secs nanos in
      let! t := epoch_add d in
      Ret (Some t).

Lemma filetime_exact ft :
  i64 ft ->
  filetime_to_systemtime ft =
    Ret (if (ft =? 0) || (ft <? EPOCH_DIFFERENCE_100NS) then None
         else Some (mk_duration ((ft - EPOCH_DIFFERENCE_100NS) / HUNDRED_NS_PER_SEC)
                     ((ft - EPOCH_DIFFERENCE_100NS) mod HUNDRED_NS_PER_SEC * NS_PER_HUNDRED_NS))).
Proof.
  unfold i64. intros Hft. unfold filetime_to_systemtime.
  destruct (Z.eqb_spec ft 0) as [|H0]; [done|]. cbn [orb].
  unfold i64_saturating_sub, i64_min, i64_max, EPOCH_DIFFERENCE_100NS, HUNDRED_NS_PER_SEC,
    NS_PER_HUNDRED_NS.
  assert (2 ^ 63 = 9223372036854775808) as E63 by done.
  assert (2 ^ 64 = 18446744073709551616) as E64 by done.
  assert (2 ^ 32 = 4294967296) as E32 by done.
  destruct (Z.ltb_spec ft 116444736000000000).
  { by rewrite (proj2 (Z.ltb_lt _ _)) by lia. }
  rewrite (proj2 (Z.ltb_ge _ _)) by lia.
  set (d := ft - 116444736000000000).
  replace (Z.max _ _) with d by lia.
  rewrite Z.quot_div_nonneg, Z.rem_mod_nonneg by lia.
  pose proof (Z.mod_pos_bound d 10000000 eq_refl) as Hm.
  pose proof (Z.div_mod d 10000000 ltac:(lia)) as Hd.
  assert (0 <= d / 10000000) by (apply Z.div_pos; lia).
  unfold as_u64, as_u32. rewrite !Z.mod_small by lia.
  unfold duration_new, NANOS_PER_SEC. rewrite (proj2 (Z.ltb_lt _ _)) by lia. cbn [exec_bind].
  unfold epoch_add, EPOCH_DIFFERENCE_100NS, HUNDRED_NS_PER_SEC, NS_PER_HUNDRED_NS, i64_max.
  cbn [secs nanos]. rewrite Z.div_mul by lia. rewrite (proj2 (Z.leb_le _ _)) by lia. done.
Qed.

(** A Windows time stamp converts without panic and without loss: nothing for 0
    and for the instants before 1970, the exact number of 100 ns after it otherwise. *)
Theorem filetime_to_systemtime_spec ft :
  i64 ft ->
  filetime_to_systemtime ft =
    Ret (if (ft =? 0) || (ft <? EPOCH_DIFFERENCE_100NS) then None
         else Some (mk_duration ((ft - EPOCH_DIFFERENCE_100NS) / HUNDRED_NS_PER_SEC)
                     ((ft - EPOCH_DIFFERENCE_100NS) mod HUNDRED_NS_PER_SEC * NS_PER_HUNDRED_NS))).
Proof. apply filetime_exact. Qed.

Lemma filetime_to_systemtime_spec_witness :
  filetime_to_systemtime 132223104000000005 = Ret (Some (mk_duration 1577836800 500)).
Proof.
  rewrite (filetime_to_systemtime_spec 132223104000000005); [by vm_compute|].
  split; vm_compute; congruence.
Defined.

(** ** [read_dir_windows_helpers] *)

Definition make_metadata (info : DirEntryInfo) : exec MetaData :=
  let is_dir := Win.has_attr (file_attributes info) FILE_ATTRIBUTE_DIRECTORY in
  let is_symlink := Win.has_attr (file_attributes info) Win.FILE_ATTRIBUTE_REPARSE_POINT in
  let! created := filetime_to_systemtime (creation_time info) in
  let! changed := filetime_to_systemtime (creation_time info) in
  let! modified := filetime_to_systemtime (last_write_time info) in
  let! accessed := filetime_to_systemtime (last_access_time info) in
  Ret {| m_is_dir := is_dir;
         m_is_file := negb is_dir && negb is_symlink;
         m_is_symlink := is_symlink;
         m_size := file_size info;
         m_created := created;
         m_changed := changed;
         m_modified := modified;
         m_accessed := accessed;
         m_permissions := None |}.

(** [Option::or] *)
Definition option_or {A} (a b : option A) : option A :=
  match a with Some _ => a | None => b end.

Definition is_none {A} (a : option A) : bool :=
  match a with Some _ => false | None => true end.

Definition make_metadata_ext {W : WindowsStd} (fs : FileSystem) (info : DirEntryInfo)
    (win32_fallback_path : option Path) (read_hardlink_info : bool) : Win.MetaDataExt :=
  let '(number_of_links, volume_serial_number) :=
    let need_nlink := read_hardlink_info && is_none (number_of_links info) in
    let need_vol := read_hardlink_info && is_none (volume_serial_number info) in
    if need_nlink || need_vol then
      match win32_fallback_path with
      | Some path =>
          match fs_symlink_metadata fs path with
          | Ok m =>
              let ext := Win.get_metadata_ext m in
              (option_or (number_of_links info) (Win.number_of_links ext),
               option_or (volume_serial_number info) (Win.volume_serial_number ext))
          | Err _ => (number_of_links info, volume_serial_number info)
          end
      | None => (number_of_links info, volume_serial_number info)
      end
    else (number_of_links info, volume_serial_number info) in
  {| Win.file_attributes := file_attributes info;
     Win.volume_serial_number := volume_serial_number;
     Win.number_of_links := number_of_links;
     Win.file_index := Some (file_id info) |}.

Section Reading.
Context {W : WindowsStd} {C : ClientState} {K : Type} {HN : NtSys K}.
Context (fs : FileSystem)
  (follow_links read_metadata read_metadata_ext read_hardlink_info skip_hidden sort : bool)
  (process_read_dir : option (option Z -> Path -> ReadDirState ->
     list (Result (DirEntry.t C)) -> ReadDirState * list (Result (DirEntry.t C))))
  (fuel : nat).

Definition make_dir_entry (info : DirEntryInfo) (depth : Z) (parent_path : Path)
    (follow_link_ancestors : option (list AncestorIdentity.t)) :
    exec (Result (DirEntry.t C)) :=
  let! entry_metadata :=
    (if read_metadata then let! m := make_metadata info in Ret (Some m) else Ret None) in
  let entry_metadata_ext :=
    if read_metadata_ext then Some (make_metadata_ext fs info None read_hardlink_info) else None in
  let file_type := Win.file_type_from_attrs (file_attributes info) in
  Ret (DirEntry.from_raw depth parent_path entry_metadata entry_metadata_ext
         (file_name info) file_type follow_link_ancestors).

(** ** [read_dir_windows] *)

(** A worker: the system, and [TLS_BUFFER]. *)
Record thread := mk_thread { th_kernel : K; th_tls : option (list Z) }.

Definition set_links (n : option Z) (e : DirEntryInfo) : DirEntryInfo :=
  mk_entry_info (file_name e) (file_attributes e) (file_size e) (creation_time e)
    (last_write_time e) (last_access_time e) (file_id e) n (volume_serial_number e).

Definition set_volume (v : option Z) (e : DirEntryInfo) : DirEntryInfo :=
  mk_entry_info (file_name e) (file_attributes e) (file_size e) (creation_time e)
    (last_write_time e) (last_access_time e) (file_id e) (number_of_links e) v.

(** The links and the serial number of the volume. *)
Definition fill_hardlinks (entries : list DirEntryInfo) (guard : Z) (k : K) :
    list DirEntryInfo * K :=
  if read_metadata_ext && read_hardlink_info then
    let '(fs_type, vol_serial, k) := detect_fs_type_and_vol_serial guard k in
    let '(entries, k) :=
      if is_fat_family fs_type then (map (set_links (Some 1)) entries, k)
      else batch_query_nlinks entries guard read_hardlink_info k in
    (match vol_serial with
     | Some vs => map (set_volume (Some vs)) entries
     | None => entries
     end, k)
  else (entries, k).

(** The [filter_map] over the entries. *)
Fixpoint build_entries (infos : list DirEntryInfo) (depth : Z) (path : Path)
    (follow_link_ancestors : option (list AncestorIdentity.t)) :
    exec (list (Result (DirEntry.t C))) :=
  match infos with
  | [] => Ret []
  | info :: infos' =>
      if skip_hidden && Win.is_hidden_win32 (file_name info) (file_attributes info)
      then build_entries infos' depth path follow_link_ancestors
      else
        let! made := make_dir_entry info depth path follow_link_ancestors in
        let one :=
          match made with
          | Ok dir_entry => process_dir_entry_result fs (Ok dir_entry) follow_links
          | Err err => Err err
          end in
        let! rest := build_entries infos' depth path follow_link_ancestors in
        Ret (one :: rest)
  end.

(** What the closure of the streaming enumeration schedules, [finish] being what
    follows the enumeration; [streamed_count] is the [Cell]. *)
Fixpoint schedule_subdirs {R} (ctx : StreamingContext) (path : Path) (depth : Z)
    (client_read_state : ReadDirState)
    (follow_link_ancestors : option (list AncestorIdentity.t))
    (infos : list DirEntryInfo) (streamed_count : Z)
    (finish : Z -> run_with (ReadDirSpec.t C) R) : run_with (ReadDirSpec.t C) R :=
  match infos with
  | [] => finish streamed_count
  | dir_info :: infos' =>
      let continue streamed_count :=
        schedule_subdirs ctx path depth client_read_state follow_link_ancestors infos'
          streamed_count finish in
      IsStopped (fun stopped =>
        if stopped then continue streamed_count
        else if skip_hidden && Win.is_hidden_win32 (file_name dir_info) (file_attributes dir_info)
        then continue streamed_count
        else if negb (Win.has_attr (file_attributes dir_info) FILE_ATTRIBUTE_DIRECTORY)
        then continue streamed_count
        else
          let spec := {|
            ReadDirSpec.depth := depth;
            ReadDirSpec.path := path_join path (file_name dir_info);
            ReadDirSpec.client_read_state := client_read_state;
            ReadDirSpec.follow_link_ancestors := follow_link_ancestors;
          |} in
          let weight := saturating_add (sc_parent_weight ctx) 1 in
          let child_index_path :=
            IndexPath.mk (update_last (fun _ => streamed_count)
              (IndexPath.indices (sc_index_path ctx) ++ [0])) in
          Schedule (Weighted.new spec child_index_path weight) (fun ok =>
            continue (if ok then usize_add streamed_count 1 else streamed_count)))
  end.

(** After the enumeration. *)
Definition finish_read_dir (path : Path) (read_dir_depth read_dir_contents_depth : Z)
    (follow_link_ancestors : option (list AncestorIdentity.t))
    (client_read_state : ReadDirState)
    (entries_result : result (Z * list DirEntryInfo) io_Error) (th : thread)
    (streamed_child_count : Z) : exec (Result (ReadDir.t C) * thread) :=
  match entries_result with
  | Err err =>
      if 0 <? streamed_child_count then
        Ret (Ok (ReadDir.mk client_read_state [Err (Error.from_path 0 path err)]
                   streamed_child_count), th)
      else Ret (Err (Error.from_path 0 path err), th)
  | Ok (guard, entries) =>
      let '(entries, k) := fill_hardlinks entries guard (th_kernel th) in
      let th := mk_thread (nt_close_handle guard k) (th_tls th) in
      let! dir_entry_results :=
        build_entries entries read_dir_contents_depth path follow_link_ancestors in
      let dir_entry_results :=
        if sort then sort_dir_entries_by_name dir_entry_results else dir_entry_results in
      let '(client_read_state, dir_entry_results) :=
        match process_read_dir with
        | Some process =>
            process (Some read_dir_depth) path client_read_state dir_entry_results
        | None => (client_read_state, dir_entry_results)
        end in
      Ret (Ok (ReadDir.mk client_read_state dir_entry_results streamed_child_count), th)
  end.

Definition read_dir_windows (path : Path) (read_dir_depth read_dir_contents_depth : Z)
    (follow_link_ancestors : option (list AncestorIdentity.t))
    (client_read_state : ReadDirState) (streaming_ctx : option StreamingContext) (th : thread) :
    run_with (ReadDirSpec.t C) (exec (Result (ReadDir.t C) * thread)) :=
  let finish := finish_read_dir path read_dir_depth read_dir_contents_depth
                  follow_link_ancestors client_read_state in
  match streaming_ctx, sort, process_read_dir with
  | Some ctx, false, None =>
      match enumerate_dir_streaming (fun info infos => infos ++ [info]) fuel path (th_tls th) []
              (th_kernel th) with
      | Ret (entries_result, tls, infos, k) =>
          schedule_subdirs ctx path read_dir_contents_depth client_read_state
            follow_link_ancestors infos 0
            (fun streamed_count => Returns (finish entries_result (mk_thread k tls) streamed_count))
      | Panic => Returns Panic
      | NoFuel => Returns NoFuel
      end
  | _, _, _ =>
      match enumerate_dir fuel path (th_tls th) (th_kernel th) with
      | Ret (entries_result, tls, k) => Returns (finish entries_result (mk_thread k tls) 0)
      | Panic => Returns Panic
      | NoFuel => Returns NoFuel
      end
  end.
End Reading.

(** ** What a directory gives *)

Definition is_dir_attr (e : DirEntryInfo) : bool :=
  Win.has_attr (file_attributes e) FILE_ATTRIBUTE_DIRECTORY.
Definition is_reparse (e : DirEntryInfo) : bool :=
  Win.has_attr (file_attributes e) Win.FILE_ATTRIBUTE_REPARSE_POINT.

Lemma file_type_attrs {W : WindowsStd} attrs :
  Platform.is_dir (Win.file_type_from_attrs attrs) =
    Win.has_attr attrs FILE_ATTRIBUTE_DIRECTORY &&
    negb (Win.has_attr attrs Win.FILE_ATTRIBUTE_REPARSE_POINT).
Proof. unfold Win.file_type_from_attrs. by do 2 destruct (Win.has_attr _ _). Qed.

(** The time stamps fit their fields. *)
Definition info_ok (e : DirEntryInfo) : Prop :=
  i64 (creation_time e) /\ i64 (last_write_time e) /\ i64 (last_access_time e).

(** What the queries for links and volumes leave alone. *)
Definition info_view (e : DirEntryInfo) : OsString * Z * Z * Z * Z :=
  (file_name e, file_attributes e, creation_time e, last_write_time e, last_access_time e).

Section Build.
Context {W : WindowsStd} {C : ClientState} {K : Type} {HN : NtSys K}.
Context (fs : FileSystem) (read_metadata read_metadata_ext read_hardlink_info skip_hidden : bool).

Lemma query_view query guard q e (k : K) :
  info_view (fst (query_nlinks query guard q e k)) = info_view e.
Proof.
  unfold query_nlinks. destruct (_ && _); [done|]. destruct (file_name e) eqn:E; [done|].
  destruct (query _ _ k) as [[status links] k']. destruct (status =? 0); [|done].
  unfold info_view. by rewrite <- E.
Qed.

Lemma batch_view es guard q (k : K) :
  map info_view (fst (batch_query_nlinks es guard q k)) = map info_view es.
Proof.
  unfold batch_query_nlinks. destruct nt_query_by_name as [query|]; [|done].
  revert k. induction es as [|e es IH]; intros k; [done|]. cbn [query_all].
  pose proof (query_view query guard q e k) as Hv.
  destruct (query_nlinks _ _ _ e k) as [e' k']. specialize (IH k').
  destruct (query_all _ _ _ es k') as [rest k2]. simpl in *. congruence.
Qed.

Lemma fill_view es guard (k : K) :
  map info_view (fst (fill_hardlinks read_metadata_ext read_hardlink_info es guard k)) =
    map info_view es.
Proof.
  unfold fill_hardlinks. destruct (_ && _); [|done].
  destruct (detect_fs_type_and_vol_serial guard k) as [[ty vol] k1].
  assert (forall es', map info_view es' = map info_view es ->
    map info_view (match vol with Some vs => map (set_volume (Some vs)) es' | None => es' end) =
    map info_view es) as Hvol.
  { intros es' <-. destruct vol; [|done]. rewrite map_map. by apply map_ext. }
  destruct (is_fat_family ty).
  - apply Hvol. rewrite map_map. by apply map_ext.
  - pose proof (batch_view es guard read_hardlink_info k1).
    destruct (batch_query_nlinks _ _ _ k1) as [es' k2]. by apply Hvol.
Qed.

Lemma view_ok es es' : map info_view es' = map info_view es -> Forall info_ok es -> Forall info_ok es'.
Proof.
  intros E H. revert es' E. induction H as [|e es He _ IH]; intros [|e' es'] E; simplify_eq/=;
    [constructor|]. constructor; [|by apply IH]. unfold info_ok in *. intuition congruence.
Qed.

(** [e] is the entry of [info] in the directory [path]. *)
Record entry_for (depth : Z) (path : Path) (anc : option (list AncestorIdentity.t))
    (info : DirEntryInfo) (e : DirEntry.t C) : Prop := {
  ef_depth : DirEntry.depth e = depth;
  ef_name : DirEntry.file_name e = file_name info;
  ef_ancestors : DirEntry.follow_link_ancestors e = anc;
  ef_children : DirEntry.read_children_path e =
    if is_dir_attr info && negb (is_reparse info)
    then Some (path_join path (file_name info)) else None;
  ef_parent : DirEntry.parent_path e = path;
  ef_type : DirEntry.file_type e = Win.file_type_from_attrs (file_attributes info);
  ef_error : DirEntry.read_children_error e = None;
}.

Lemma make_metadata_ret info : info_ok info -> exists m, make_metadata info = Ret m.
Proof.
  intros (H1 & H2 & H3). unfold make_metadata.
  rewrite !filetime_exact by done. by eexists.
Qed.

Lemma make_dir_entry_ok info depth path anc :
  info_ok info ->
  exists e, make_dir_entry fs read_metadata read_metadata_ext read_hardlink_info info depth path anc
      = Ret (Ok e) /\ entry_for depth path anc info e.
Proof.
  intros Hok. destruct (make_metadata_ret info Hok) as [m Em]. unfold make_dir_entry.
  destruct read_metadata; rewrite ?Em; cbn [exec_bind]; (eexists; split; [reflexivity|]);
    (split; simpl; try done; by rewrite file_type_attrs).
Qed.

(** The entries that are not skipped. *)
Definition kept (infos : list DirEntryInfo) : list DirEntryInfo :=
  List.filter (fun info =>
    negb (skip_hidden && Win.is_hidden_win32 (file_name info) (file_attributes info))) infos.

Lemma win_build_entries infos depth path anc :
  Forall info_ok infos -> depth <> 0 ->
  exists es, build_entries fs false read_metadata read_metadata_ext read_hardlink_info skip_hidden
      infos depth path anc = Ret (map Ok es) /\
    Forall2 (entry_for depth path anc) (kept infos) es.
Proof.
  intros Hok Hd. induction Hok as [|info infos Hi _ (es & IH & Hes)]; simpl.
  { exists []. split; [done|constructor]. }
  destruct (skip_hidden && _); simpl; [by exists es|].
  destruct (make_dir_entry_ok info depth path anc Hi) as (e & -> & He). simpl.
  assert ((DirEntry.depth e =? 0) = false) as ->
    by (rewrite (ef_depth _ _ _ _ _ He); by apply Z.eqb_neq).
  rewrite IH. exists (e :: es). split; [done|by constructor].
Qed.

(** What is read below [info]. *)
Definition spec_for (depth : Z) (path : Path) (anc : option (list AncestorIdentity.t))
    (st : ReadDirState) (info : DirEntryInfo) : ReadDirSpec.t C := {|
  ReadDirSpec.depth := depth;
  ReadDirSpec.path := path_join path (file_name info);
  ReadDirSpec.client_read_state := st;
  ReadDirSpec.follow_link_ancestors := anc;
|}.

Definition subdirs (infos : list DirEntryInfo) : list DirEntryInfo := List.filter is_dir_attr infos.
Definition real_subdirs (infos : list DirEntryInfo) : list DirEntryInfo :=
  List.filter (fun info => is_dir_attr info && negb (is_reparse info)) infos.

Lemma win_entries_children depth path anc st infos es :
  Forall2 (entry_for depth path anc) infos es ->
  omap (ReadDir.child_spec st) (map Ok es) = map (spec_for depth path anc st) (real_subdirs infos).
Proof.
  induction 1 as [|info e infos es [E1 _ E2 E3 _ _ _] _ IH]; [done|]. cbn [map omap list_omap].
  unfold ReadDir.child_spec at 1, DirEntry.read_children_spec. simpl res_ok. cbv iota.
  rewrite E3. unfold real_subdirs. cbn [List.filter].
  destruct (is_dir_attr info && negb (is_reparse info)); [|exact IH].
  cbn [map]. f_equal; [|exact IH]. unfold spec_for. by rewrite E1, E2.
Qed.

Lemma win_schedule_subdirs {R} ctx path depth st anc infos c
    (finish : Z -> run_with (ReadDirSpec.t C) R) :
  0 <= c -> c + Z.of_nat (length infos) <= usize_max ->
  let specs := map (spec_for depth path anc st) (subdirs (kept infos)) in
  undisturbed (schedule_subdirs skip_hidden ctx path depth st anc infos c finish) =
    let '(ws, r) := undisturbed (finish (c + Z.of_nat (length specs))) in
    (numbered (sc_index_path ctx) (saturating_add (sc_parent_weight ctx) 1) c specs ++ ws, r).
Proof.
  revert c. induction infos as [|info infos IH]; intros c Hc Hb.
  { simpl. rewrite Z.add_0_r. by destruct (undisturbed (finish c)). }
  rewrite length_cons in Hb. cbv zeta in *. unfold kept. cbn [List.filter].
  cbn [schedule_subdirs undisturbed]. fold (kept infos).
  destruct (skip_hidden && _); cbn [negb]; [apply IH; lia|].
  unfold subdirs. cbn [List.filter]. fold (subdirs (kept infos)).
  change (Win.has_attr (file_attributes info) FILE_ATTRIBUTE_DIRECTORY) with (is_dir_attr info).
  destruct (is_dir_attr info); cbn [negb]; [|apply IH; lia].
  cbn [undisturbed]. rewrite usize_add_small by lia. rewrite IH by lia.
  cbn [map]. rewrite numbered_cons, update_last_snoc, length_cons.
  rewrite Nat2Z.inj_succ, <- Z.add_1_l, Z.add_assoc.
  by destruct (undisturbed (finish _)).
Qed.
End Build.

(** ** Reading a directory *)

Section ReadDirSpec.
Context {W : WindowsStd} {C : ClientState} {K : Type} {HN : NtSys K}.
Context (fs : FileSystem) (read_metadata read_metadata_ext read_hardlink_info skip_hidden : bool).
Context (fuel : nat) (path : Path) (read_dir_depth depth : Z)
  (anc : option (list AncestorIdentity.t)) (st : ReadDirState).
Abbreviation read_dir := (read_dir_windows (C := C) (K := K) fs false read_metadata
  read_metadata_ext read_hardlink_info skip_hidden false None fuel path read_dir_depth depth anc st).
Abbreviation finish := (finish_read_dir (C := C) (K := K) fs false read_metadata read_metadata_ext
  read_hardlink_info skip_hidden false None path read_dir_depth depth anc st).
Abbreviation specs_of := (map (spec_for (C := C) depth path anc st)).
Abbreviation listed := (kept skip_hidden).

Lemma view_listed es es' :
  map info_view es' = map info_view es ->
  specs_of (real_subdirs (listed es')) = specs_of (real_subdirs (listed es)) /\
  map file_name (listed es') = map file_name (listed es).
Proof.
  revert es'. induction es as [|e es IH]; intros [|e' es'] E; simplify_eq/=; [done|].
  destruct (IH es') as [IH1 IH2]; [done|]. clear IH.
  assert (file_name e' = file_name e) as En by done.
  assert (file_attributes e' = file_attributes e) as Ea by done. rewrite En, Ea.
  destruct (negb (skip_hidden && _)); [|done]. unfold real_subdirs in *. cbn [List.filter map].
  unfold is_dir_attr, is_reparse in *. rewrite Ea, En, IH2. split; [|done].
  destruct (_ && _); [|done]. cbn [map]. f_equal; [|done]. unfold spec_for. by rewrite En.
Qed.

Lemma finish_ok guard entries (k : K) :
  Forall info_ok entries -> depth <> 0 ->
  exists es k', forall tls n,
    let rd := ReadDir.mk st (map Ok es) n in
    finish (Ok (guard, entries)) (mk_thread k tls) n = Ret (Ok rd, mk_thread k' tls) /\
    map DirEntry.file_name es = map file_name (listed entries) /\
    ReadDir.read_children_specs rd = specs_of (real_subdirs (listed entries)).
Proof.
  intros Hok Hd. unfold finish_read_dir.
  pose proof (fill_view read_metadata_ext read_hardlink_info entries guard k) as Hv.
  destruct (fill_hardlinks _ _ entries guard k) as [entries' k1] eqn:Ef. simpl in Hv.
  destruct (win_build_entries (C := C) fs read_metadata read_metadata_ext read_hardlink_info
    skip_hidden entries' depth path anc) as (es & E & Hes); [by eapply view_ok|done|].
  destruct (view_listed entries entries' Hv) as [H1 H2].
  exists es, (nt_close_handle guard k1). intros tls n. cbv zeta. cbn [th_kernel]. rewrite Ef, E.
  split_and!; [reflexivity| |].
  - rewrite <- H2. clear -Hes. induction Hes as [|info e infos es He _ IH]; [done|].
    simpl. by rewrite IH, (ef_name _ _ _ _ _ He).
  - unfold ReadDir.read_children_specs. cbn [ReadDir.read_dir_state ReadDir.results_list].
    by rewrite (win_entries_children depth path anc st _ _ Hes).
Qed.

(** The directory [path] can be opened and listed to its end. *)
Inductive listable (k : K) (entries : list DirEntryInfo) : Prop :=
| mk_listable handle k1 k2 batches :
    nt_create_file (path ++ [0]) k = (Ok handle, k1) ->
    nt_stream handle true k1 batches (Ok tt) k2 -> (length batches < fuel)%nat ->
    entries = infos_of (concat batches) -> listable k entries.

Lemma stream_infos_ok handle restart k bs r k' :
  nt_stream handle restart k bs r k' -> Forall info_ok (infos_of (concat bs)).
Proof.
  induction 1 as [| |restart k b bs r k1 k' _ Hok _ _ _ IH]; [constructor..|].
  cbn [concat]. rewrite infos_of_app. apply Forall_app. split; [|done].
  unfold infos_of. apply Forall_map. clear -Hok.
  induction Hok as [|x b [(H1 & H2 & H3) _ _ _ _ _] _ IH]; simpl; [constructor|].
  destruct (negb _); [|done]. by constructor.
Qed.

(** The streaming closure is called for the entries with the directory attribute. *)
Lemma subdirs_listed es : subdirs (listed (List.filter is_directory es)) = subdirs (listed es).
Proof.
  induction es as [|e es IH]; [done|]. cbn [List.filter].
  change (is_directory e) with (is_dir_attr e). destruct (is_dir_attr e) eqn:Ed; cbn [kept List.filter].
  - unfold kept in *. cbn [List.filter]. destruct (negb _); [|done]. unfold subdirs in *.
    cbn [List.filter]. by rewrite Ed, IH.
  - unfold kept in *. cbn [List.filter]. destruct (negb _); [|done]. unfold subdirs in *.
    cbn [List.filter]. by rewrite Ed, IH.
Qed.

Lemma no_reparse es :
  Forall (fun e => is_dir_attr e && is_reparse e = false) es ->
  real_subdirs (kept skip_hidden es) = subdirs (kept skip_hidden es).
Proof.
  induction 1 as [|e es He _ IH]; [done|]. unfold kept in *. cbn [List.filter].
  destruct (negb _); [|done]. unfold real_subdirs, subdirs in *. cbn [List.filter]. rewrite IH.
  by destruct (is_dir_attr e), (is_reparse e).
Qed.

Lemma fewer_real_subdirs es :
  Exists (fun e => is_dir_attr e && is_reparse e = true) es ->
  (length (real_subdirs es) < length (subdirs es))%nat.
Proof.
  assert (forall l, (length (real_subdirs l) <= length (subdirs l))%nat) as Hle.
  { unfold real_subdirs, subdirs. induction l as [|e l IH]; [done|]. simpl.
    destruct (is_dir_attr e), (is_reparse e); simpl; lia. }
  induction 1 as [e es He|e es _ IH]; unfold real_subdirs, subdirs in *; simpl.
  - specialize (Hle es). destruct (is_dir_attr e), (is_reparse e); try done. simpl. lia.
  - destruct (is_dir_attr e), (is_reparse e); simpl; lia.
Qed.

Lemma windows_read ctx th entries :
  listable (th_kernel th) entries -> tls_ok (th_tls th) -> depth <> 0 ->
  Z.of_nat (length entries) <= usize_max ->
  exists es th1 th2,
    let ws := numbered (sc_index_path ctx) (saturating_add (sc_parent_weight ctx) 1) 0
                (specs_of (subdirs (listed entries))) in
    let rd := ReadDir.mk st (map Ok es) (Z.of_nat (length ws)) in
    undisturbed (read_dir (Some ctx) th) = (ws, Ret (Ok rd, th1)) /\
    read_dir None th = Returns (Ret (Ok (ReadDir.mk st (map Ok es) 0), th2)) /\
    map DirEntry.file_name es = map file_name (listed entries) /\
    ReadDir.read_children_specs rd = specs_of (real_subdirs (listed entries)).
Proof.
  intros [handle k1 k2 bs Ho Hs Hf ->] Ht Hd Hb. pose proof (stream_infos_ok _ _ _ _ _ _ Hs) as Hok.
  set (entries := infos_of (concat bs)) in *.
  destruct (nt_streaming (fun info infos => infos ++ [info]) path (th_tls th) [] (th_kernel th)
    _ _ _ _ _ fuel Ho Hs Hf Ht) as (tls1 & _ & E1).
  destruct (nt_plain path (th_tls th) (th_kernel th) _ _ _ _ _ fuel Ho Hs Hf Ht) as (tls2 & _ & E2).
  fold entries in E1, E2. rewrite fold_push_info in E1. simpl app in E1.
  destruct (finish_ok handle entries k2 Hok Hd) as (es & k' & Hfin).
  set (specs := specs_of (subdirs (listed entries))).
  exists es, (mk_thread k' tls1), (mk_thread k' tls2). cbv zeta. rewrite length_numbered.
  destruct (Hfin tls1 (Z.of_nat (length specs))) as (F1 & Hn & Hc).
  destruct (Hfin tls2 0) as (F2 & _ & _). split_and!; [| |done|done].
  - unfold read_dir_windows. rewrite E1. rewrite win_schedule_subdirs; [|done|].
    + rewrite subdirs_listed. fold specs. rewrite Z.add_0_l. cbn [undisturbed].
      by rewrite F1, app_nil_r.
    + pose proof (List.filter_length_le is_directory entries). lia.
  - unfold read_dir_windows. by rewrite E2, F2.
Qed.


(** C38: a directory that is a reparse point (a junction, a link to a directory) is
    scheduled by the streaming callback, although the walk does not follow links and
    the result has nothing to read for it: more directories are counted as streamed
    than the result has sub-directories. *)
Theorem windows_streaming_reads_reparse_points ctx th entries :
  listable (th_kernel th) entries -> tls_ok (th_tls th) -> depth <> 0 ->
  Z.of_nat (length entries) <= usize_max ->
  Exists (fun e => is_dir_attr e && is_reparse e = true) (listed entries) ->
  exists ws rd th1,
    undisturbed (read_dir (Some ctx) th) = (ws, Ret (Ok rd, th1)) /\
    ReadDir.streamed_child_count rd = Z.of_nat (length ws) /\
    (length (ReadDir.read_children_specs rd) < length ws)%nat.
Proof.
  intros Hl Ht Hd Hb He. destruct (windows_read ctx th entries Hl Ht Hd Hb) as (es & th1 & th2 & H1 & _ & _ & H4).
  do 3 eexists. split; [exact H1|]. split; [done|]. cbv zeta in H4. rewrite H4, length_numbered, !length_map.
  by apply fewer_real_subdirs.
Qed.
End ReadDirSpec.

(** ** Examples *)

(** Paths are joined with a backslash, names compared as lists of code units. *)
#[export] Instance lab_std : WindowsStd := {
  win_path_join p name := p ++ bytes "\" ++ name;
  win_is_absolute _ := false;
  win_file_name _ := None;
  win_parent _ := None;
  win_os_str_cmp := slice_cmp;
}.

Definition lab_fs : FileSystem := {|
  fs_metadata _ := Err (Os 2 Other);
  fs_symlink_metadata _ := Err (Os 2 Other);
  fs_read_link _ := Err (Os 2 Other);
  fs_canonicalize p := Ok p;
|}.

Definition lab_thread (rs : list nt_record) : thread (K := sample_nt) :=
  mk_thread (mk_sample_nt [rs] []) None.

Definition lab_read (ctx : option StreamingContext) (rs : list nt_record) :=
  read_dir_windows (C := unit_client) lab_fs false true true true false false None 4
    (bytes "C:\r") 0 1 None tt ctx (lab_thread rs).

Definition lab_ctx : StreamingContext := mk_streaming_context (IndexPath.mk [0]) 100.

Lemma lab_listable path rs :
  rs <> [] -> Forall nt_record_ok rs -> Z.of_nat (length (records_bytes rs)) <= BUFFER_SIZE ->
  listable 4 path (th_kernel (lab_thread rs)) (infos_of rs).
Proof.
  intros Hne Hok Hfit.
  eapply (mk_listable _ _ _ _ 3 (mk_sample_nt [rs] []) (mk_sample_nt [] []) [rs]); [done| |simpl; lia|].
  - eapply nt_batch; [done|done|done|reflexivity|]. by econstructor.
  - simpl. by rewrite app_nil_r.
Qed.

(** The hypotheses of the theorems, for a directory of a few [rs]. *)
Lemma lab_tls_ok rs : tls_ok (th_tls (lab_thread rs)).
Proof. exact I. Qed.


(** A directory and a junction. *)
Definition junction_records : list nt_record :=
  [sample_record 0x10 "sub"; sample_record 0x410 "junction"].

Lemma junction_records_ok : Forall nt_record_ok junction_records.
Proof.
  repeat constructor; try (vm_compute; congruence); try done;
    repeat (constructor; [vm_compute; split; congruence|]); constructor.
Qed.

Lemma windows_streaming_reads_reparse_points_witness :
  exists ws rd th1,
    undisturbed (lab_read (Some lab_ctx) junction_records) = (ws, Ret (Ok rd, th1)) /\
    ReadDir.streamed_child_count rd = Z.of_nat (length ws) /\
    (length (ReadDir.read_children_specs rd) < length ws)%nat.
Proof.
  apply (windows_streaming_reads_reparse_points (HN := sample_nt_sys) (C := unit_client) lab_fs true true true false 4
    (bytes "C:\r") 0 1 None tt lab_ctx (lab_thread junction_records) (infos_of junction_records));
    [apply lab_listable; [done|exact junction_records_ok|by vm_compute]|apply lab_tls_ok|lia
    |by vm_compute|].
  apply Exists_cons. right. by constructor.
Defined.
