(* ===== verification/WalkDir.v ===== *)
(** * The builder and the callback of a walk: [WalkDirGeneric], [Parallelism] and
    [into_iter] of [lib.rs], and [ReadDirIter::try_new]

    Stated for every [Platform]: how one directory is read is the interface
    [DirReader], which the readers of Linux, of other Unix systems and of Windows
    implement. *)
From S2P Require Import Prelude Order Tree World Std Error Metadata Platform DirEntry.
From S2P Require Import Callback OrderedQueue ReadDirIter DirEntryIter ParWalk.

(** ** Options *)

(** A rayon pool of the caller is a number. *)
Inductive Parallelism : Set :=
| Serial
| RayonDefaultPool (busy_timeout : Z)
| RayonExistingPool (pool : Z) (busy_timeout : option Z)
| RayonNewPool (num_threads : Z).

(** [Parallelism::timeout], in nanoseconds *)
Definition timeout (p : Parallelism) : option Z :=
  match p with
  | Serial | RayonNewPool _ => None
  | RayonDefaultPool busy_timeout => Some busy_timeout
  | RayonExistingPool _ busy_timeout => busy_timeout
  end.

(** Where a task is run: by the caller, in the global pool of rayon, or in the pool of
    the caller or of the thread. *)
Inductive executor : Set :=
| OnCaller
| GlobalPool
| InPool (pool : Z).

(** [Parallelism::spawn]: where [op] runs.  [tls_pool] is [TLS_POOL] of the calling
    thread; [build_pool] is [ThreadPoolBuilder::build] with the number of threads
    asked for, if any. *)
Definition spawn (build_pool : option Z -> option Z) (p : Parallelism)
    (tls_pool : option Z) : executor * option Z :=
  match p with
  | Serial => (OnCaller, tls_pool)
  | RayonDefaultPool _ => (GlobalPool, tls_pool)
  | RayonNewPool num_threads =>
      let pool_opt :=
        match tls_pool with
        | None => build_pool (if 0 <? num_threads then Some num_threads else None)
        | Some _ => tls_pool
        end in
      (match pool_opt with Some pool => InPool pool | None => GlobalPool end, pool_opt)
  | RayonExistingPool pool _ => (InPool pool, tls_pool)
  end.

(** The walks a thread starts, one after the other. *)
Fixpoint spawn_all (build_pool : option Z -> option Z) (ps : list Parallelism)
    (tls_pool : option Z) : list executor * option Z :=
  match ps with
  | [] => ([], tls_pool)
  | p :: ps' =>
      let '(e, tls_pool) := spawn build_pool p tls_pool in
      let '(es, tls_pool) := spawn_all build_pool ps' tls_pool in
      (e :: es, tls_pool)
  end.

Lemma spawn_keeps_pool build_pool ps pool :
  let '(es, tls) := spawn_all build_pool ps (Some pool) in
  tls = Some pool /\
  Forall2 (fun p e => match p with RayonNewPool _ => e = InPool pool | _ => True end) ps es.
Proof.
  induction ps as [|p ps IH]; simpl; [by split; [|constructor]|].
  destruct p; simpl; destruct (spawn_all build_pool ps (Some pool)) as [es tls];
    destruct IH as [-> IH]; (split; [done|by constructor]).
Qed.

(** The first pool a thread asks for serves all its later walks: once
    [RayonNewPool n] has built a pool, every [RayonNewPool m] of the same thread runs
    its task there, whatever [m], and no other pool is built. *)
Theorem new_pool_reused build_pool n ps pool :
  build_pool (if 0 <? n then Some n else None) = Some pool ->
  let '(es, tls) := spawn_all build_pool (RayonNewPool n :: ps) None in
  tls = Some pool /\
  Forall2 (fun p e => match p with RayonNewPool _ => e = InPool pool | _ => True end)
    (RayonNewPool n :: ps) es.
Proof.
  intros Hb. cbn [spawn_all spawn]. rewrite Hb. cbn [spawn_all].
  pose proof (spawn_keeps_pool build_pool ps pool) as H.
  destruct (spawn_all build_pool ps (Some pool)) as [es tls]. destruct H as [-> H].
  split; [done|by constructor].
Qed.

(** Two threads first, then sixteen. *)
Lemma new_pool_reused_witness :
  let '(es, tls) := spawn_all (fun n => n) [RayonNewPool 2; Serial; RayonNewPool 16] None in
  tls = Some 2 /\
  Forall2 (fun p e => match p with RayonNewPool _ => e = InPool 2 | _ => True end)
    [RayonNewPool 2; Serial; RayonNewPool 16] es.
Proof. exact (new_pool_reused (fun n => n) 2 [Serial; RayonNewPool 16] 2 eq_refl). Defined.

Section Options.
Context {P : Platform} {C : ClientState}.

Abbreviation ProcessReadDir := (option Z -> Path -> ReadDirState ->
  list (Result (DirEntry.t C)) -> ReadDirState * list (Result (DirEntry.t C))).

Record WalkDirOptions := mk_options {
  o_sort : bool;
  o_min_depth : Z;
  o_max_depth : Z;
  o_skip_hidden : bool;
  o_follow_links : bool;
  o_read_metadata : bool;
  o_read_metadata_ext : bool;
  o_read_hardlink_info : bool;
  o_dir_entry_capacity : Z;
  o_parallelism : Parallelism;
  o_root_read_dir_state : ReadDirState;
  o_process_read_dir : option ProcessReadDir;
  o_max_retries : Z;
  o_channel_capacity : Z;
  o_max_receive_buffer_size : Z;
}.

(** The options of [WalkDirGeneric::new]; the root is a separate argument below. *)
Definition options_new : WalkDirOptions := {|
  o_sort := false;
  o_min_depth := 0;
  o_max_depth := usize_max;
  o_skip_hidden := false;
  o_follow_links := false;
  o_read_metadata := false;
  o_read_metadata_ext := false;
  o_read_hardlink_info := false;
  o_dir_entry_capacity := 512;
  o_parallelism := RayonDefaultPool 1000000000;
  o_root_read_dir_state := read_dir_state_default;
  o_process_read_dir := None;
  o_max_retries := 3;
  o_channel_capacity := 4096;
  o_max_receive_buffer_size := 256;
|}.

(** The methods of the builder. *)
Inductive builder_call : Type :=
| sort (b : bool) | skip_hidden (b : bool) | follow_links (b : bool)
| min_depth (depth : Z) | max_depth (depth : Z)
| read_metadata (b : bool) | read_metadata_ext (b : bool) | read_hardlink_info (b : bool)
| dir_entry_capacity (capacity : Z) | parallelism (p : Parallelism)
| root_read_dir_state (s : ReadDirState) | process_read_dir (f : ProcessReadDir)
| max_retries (n : Z) | channel_capacity (capacity : Z) | max_receive_buffer_size (size : Z).

Definition set_depths (o : WalkDirOptions) (min max : Z) (p : Parallelism) : WalkDirOptions :=
  mk_options (o_sort o) min max (o_skip_hidden o) (o_follow_links o) (o_read_metadata o)
    (o_read_metadata_ext o) (o_read_hardlink_info o) (o_dir_entry_capacity o) p
    (o_root_read_dir_state o) (o_process_read_dir o) (o_max_retries o) (o_channel_capacity o)
    (o_max_receive_buffer_size o).

Definition set_min_depth (o : WalkDirOptions) (depth : Z) : WalkDirOptions :=
  let min_depth := depth in
  let min_depth := if o_max_depth o <? min_depth then o_max_depth o else min_depth in
  set_depths o min_depth (o_max_depth o) (o_parallelism o).

Definition set_max_depth (o : WalkDirOptions) (depth : Z) : WalkDirOptions :=
  let max_depth := depth in
  let max_depth := if max_depth <? o_min_depth o then o_min_depth o else max_depth in
  let parallelism := if max_depth <? 2 then Serial else o_parallelism o in
  set_depths o (o_min_depth o) max_depth parallelism.

Definition set_flags (o : WalkDirOptions) (sort skip follow md ext hard : bool) : WalkDirOptions :=
  mk_options sort (o_min_depth o) (o_max_depth o) skip follow md ext hard
    (o_dir_entry_capacity o) (o_parallelism o) (o_root_read_dir_state o) (o_process_read_dir o)
    (o_max_retries o) (o_channel_capacity o) (o_max_receive_buffer_size o).

Definition set_rest (o : WalkDirOptions) (cap : Z) (p : Parallelism) (s : ReadDirState)
    (f : option ProcessReadDir) (retries ch buf : Z) : WalkDirOptions :=
  mk_options (o_sort o) (o_min_depth o) (o_max_depth o) (o_skip_hidden o) (o_follow_links o)
    (o_read_metadata o) (o_read_metadata_ext o) (o_read_hardlink_info o) cap p s f retries ch buf.

Definition build (o : WalkDirOptions) (c : builder_call) : WalkDirOptions :=
  match c with
  | sort b => set_flags o b (o_skip_hidden o) (o_follow_links o) (o_read_metadata o)
      (o_read_metadata_ext o) (o_read_hardlink_info o)
  | skip_hidden b => set_flags o (o_sort o) b (o_follow_links o) (o_read_metadata o)
      (o_read_metadata_ext o) (o_read_hardlink_info o)
  | follow_links b => set_flags o (o_sort o) (o_skip_hidden o) b (o_read_metadata o)
      (o_read_metadata_ext o) (o_read_hardlink_info o)
  | min_depth d => set_min_depth o d
  | max_depth d => set_max_depth o d
  | read_metadata b => set_flags o (o_sort o) (o_skip_hidden o) (o_follow_links o) b
      (o_read_metadata_ext o) (o_read_hardlink_info o)
  | read_metadata_ext b => set_flags o (o_sort o) (o_skip_hidden o) (o_follow_links o)
      (o_read_metadata o) b (o_read_hardlink_info o)
  | read_hardlink_info b => set_flags o (o_sort o) (o_skip_hidden o) (o_follow_links o)
      (o_read_metadata o) (o_read_metadata_ext o) b
  | dir_entry_capacity n => set_rest o n (o_parallelism o) (o_root_read_dir_state o)
      (o_process_read_dir o) (o_max_retries o) (o_channel_capacity o) (o_max_receive_buffer_size o)
  | parallelism p => set_rest o (o_dir_entry_capacity o) p (o_root_read_dir_state o)
      (o_process_read_dir o) (o_max_retries o) (o_channel_capacity o) (o_max_receive_buffer_size o)
  | root_read_dir_state s => set_rest o (o_dir_entry_capacity o) (o_parallelism o) s
      (o_process_read_dir o) (o_max_retries o) (o_channel_capacity o) (o_max_receive_buffer_size o)
  | process_read_dir f => set_rest o (o_dir_entry_capacity o) (o_parallelism o)
      (o_root_read_dir_state o) (Some f) (o_max_retries o) (o_channel_capacity o)
      (o_max_receive_buffer_size o)
  | max_retries n => set_rest o (o_dir_entry_capacity o) (o_parallelism o)
      (o_root_read_dir_state o) (o_process_read_dir o) n (o_channel_capacity o)
      (o_max_receive_buffer_size o)
  | channel_capacity n => set_rest o (o_dir_entry_capacity o) (o_parallelism o)
      (o_root_read_dir_state o) (o_process_read_dir o) (o_max_retries o) n
      (o_max_receive_buffer_size o)
  | max_receive_buffer_size n => set_rest o (o_dir_entry_capacity o) (o_parallelism o)
      (o_root_read_dir_state o) (o_process_read_dir o) (o_max_retries o) (o_channel_capacity o) n
  end.

(** [Clone for WalkDirOptions] *)
Definition clone (o : WalkDirOptions) : WalkDirOptions := {|
  o_sort := o_sort o;
  o_min_depth := o_min_depth o;
  o_max_depth := o_max_depth o;
  o_skip_hidden := o_skip_hidden o;
  o_follow_links := o_follow_links o;
  o_read_metadata := o_read_metadata o;
  o_read_metadata_ext := o_read_metadata_ext o;
  o_read_hardlink_info := o_read_hardlink_info o;
  o_dir_entry_capacity := o_dir_entry_capacity o;
  o_parallelism := o_parallelism o;
  o_root_read_dir_state := o_root_read_dir_state o;
  o_process_read_dir := o_process_read_dir o;
  o_max_retries := o_max_retries o;
  o_channel_capacity := o_channel_capacity o;
  o_max_receive_buffer_size := o_max_receive_buffer_size o;
|}.

(** [WalkDirGeneric], and its method [root] *)
Record WalkDirGeneric := mk_walk_dir { w_root : Path; w_options : WalkDirOptions }.
Definition root (self : WalkDirGeneric) : Path := w_root self.

Lemma clone_same o : clone o = o.
Proof. by destruct o. Qed.

(** Whatever the calls of the builder and their order, [min_depth] never
    exceeds [max_depth], and each call of [max_depth] that leaves it below 2
    makes the walk serial. *)
Theorem builder_depths calls :
  let o := fold_left build calls options_new in
  o_min_depth o <= o_max_depth o /\
  (forall d, o_max_depth (build o (max_depth d)) < 2 ->
     o_parallelism (build o (max_depth d)) = Serial).
Proof.
  cbv zeta. split.
  - assert (forall o, o_min_depth o <= o_max_depth o ->
      o_min_depth (fold_left build calls o) <= o_max_depth (fold_left build calls o)) as H.
    { induction calls as [|c calls IH]; intros o Ho; [done|]. apply IH. clear IH.
      destruct c; simpl; try done; unfold set_min_depth, set_max_depth; simpl;
        destruct (Z.ltb_spec (o_max_depth o) depth), (Z.ltb_spec depth (o_min_depth o));
        simpl; lia. }
    apply H. vm_compute. congruence.
  - intros d. simpl. unfold set_max_depth. simpl. intros H.
    by rewrite (proj2 (Z.ltb_lt _ _) H).
Qed.
End Options.
Arguments WalkDirOptions {P} C.

(** ** [ReadDirIter::try_new] *)

Section TryNew.
Context {P : Platform} {C : ClientState} {E : Type}.

(** The specs of the roots are pushed on the calling thread, before there is a pool to
    receive them: without room for them in the channel it blocks for ever.  [started]:
    whether the pool has run the task within the timeout.  The task runs the machine of
    [ParWalk] from the queues [s] with the roots in them; [observe s] is what the consumer
    will see of it.  The flag is the [stop] handle. *)
Definition try_new (read_dir_specs : list (ReadDirSpec.t C)) (p : Parallelism)
    (channel_capacity max_receive_buffer_size : Z) (started : bool) (observe : state C -> E) :
    starting (option (ReadDirIter.t C E * option bool)) :=
  match p with
  | Serial => Started (Some (ReadDirIter.Walk read_dir_specs, None))
  | _ =>
      match push_roots (Z.to_nat channel_capacity) read_dir_specs new_queues with
      | None => Blocks
      | Some s =>
          let timed_out := match timeout p with Some _ => negb started | None => false end in
          if timed_out then Started None
          else Started (Some (ReadDirIter.ParWalk
                 (OrderedQueueIter.new_ordered_queue (Z.to_nat max_receive_buffer_size)) (observe s),
                 Some false))
      end
  end.
End TryNew.

(** ** The walk *)

(** The options a reader of directories is given. *)
Record ReadOptions {P : Platform} {C : ClientState} := mk_read_options {
  r_follow_links : bool;
  r_read_metadata : bool;
  r_read_metadata_ext : bool;
  r_read_hardlink_info : bool;
  r_dir_entry_capacity : Z;
  r_skip_hidden : bool;
  r_sort : bool;
  r_process_read_dir : option (option Z -> Path -> ReadDirState ->
    list (Result (DirEntry.t C)) -> ReadDirState * list (Result (DirEntry.t C)));
}.
Arguments ReadOptions {P} C.

Definition read_options {P : Platform} {C : ClientState} (o : WalkDirOptions C) : ReadOptions C := {|
  r_follow_links := o_follow_links o;
  r_read_metadata := o_read_metadata o;
  r_read_metadata_ext := o_read_metadata_ext o;
  r_read_hardlink_info := o_read_hardlink_info o;
  r_dir_entry_capacity := o_dir_entry_capacity o;
  r_skip_hidden := o_skip_hidden o;
  r_sort := o_sort o;
  r_process_read_dir := o_process_read_dir o;
|}.

(** How the platform reads one directory: [read_dir_unix] or [read_dir_windows].
    [TH] is what the thread that reads keeps: the system, and its thread-local
    state. *)
Class DirReader {P : Platform} {C : ClientState} (TH : Type) := {
  read_dir : FileSystem -> ReadOptions C -> Path -> Z -> Z -> option (list AncestorIdentity.t) ->
    ReadDirState -> option StreamingContext -> TH -> run_of C (exec (Result (ReadDir.t C) * TH));
}.

Section Walk.
Context {P : Platform} {C : ClientState} {TH : Type} {HR : DirReader TH}.
Context (fs : FileSystem) (o : WalkDirOptions C).

(** [retry_transient_io] around it, the streaming context being taken by the first
    attempt. *)
Fixpoint retry_read (op : option StreamingContext -> TH ->
      run_of C (exec (Result (ReadDir.t C) * TH)))
    (attempts : list Z) (streaming_ctx : option StreamingContext) (th : TH) :
    run_of C (exec (Result (ReadDir.t C) * TH)) :=
  match attempts with
  | [] => Returns Panic
  | attempt :: attempts' =>
      run_bind (op streaming_ctx th) (fun r =>
        match r with
        | Ret (Err e, th) =>
            if (attempt <? o_max_retries o) && is_transient_error target e
            then retry_read op attempts' None th
            else Returns (Ret (Err e, th))
        | r => Returns r
        end)
  end.

(** The ancestors [into_iter]'s closure passes on. *)
Definition extend_ancestors (path : Path) (existing : option (list AncestorIdentity.t)) :
    option (list AncestorIdentity.t) :=
  if o_follow_links o then
    let ancestors := default [] existing in
    Some (match AncestorIdentity.from_path fs path with
          | Some identity => ancestors ++ [identity]
          | None => ancestors
          end)
  else existing.

(** The closure [core_read_dir_callback]. *)
Definition core_read_dir_callback (read_dir_spec : ReadDirSpec.t C)
    (streaming_ctx : option StreamingContext) (th : TH) :
    run_of C (exec (Result (ReadDir.t C) * TH)) :=
  let path := ReadDirSpec.path read_dir_spec in
  let depth := ReadDirSpec.depth read_dir_spec in
  let client_read_state := ReadDirSpec.client_read_state read_dir_spec in
  let read_dir_contents_depth := saturating_add depth 1 in
  if o_max_depth o <? read_dir_contents_depth
  then Returns (Ret (Ok (ReadDir.new client_read_state []), th))
  else
    let follow_link_ancestors :=
      extend_ancestors path (ReadDirSpec.follow_link_ancestors read_dir_spec) in
    retry_read (read_dir fs (read_options o) path depth read_dir_contents_depth follow_link_ancestors
        client_read_state)
      (seqZ 0 (o_max_retries o + 1)) streaming_ctx th.

(** [into_iter] before the iterator is built: the root entries and their state. *)
Definition root_entries (root : Path) : list (Result (DirEntry.t C)) * ReadDirState :=
  let follow_link_ancestors :=
    if o_follow_links o then (fun id => [id]) <$> AncestorIdentity.from_path fs root else None in
  let root_entry := DirEntry.from_path fs 0 root (o_read_metadata o) (o_read_metadata_ext o)
                      false follow_link_ancestors in
  let root_parent_path :=
    match root_entry with Ok root => DirEntry.parent_path root | Err _ => [] end in
  let root_entry_results := [process_dir_entry_result fs root_entry (o_follow_links o)] in
  match o_process_read_dir o with
  | Some process =>
      let '(s, l) := process None root_parent_path (o_root_read_dir_state o) root_entry_results in
      (l, s)
  | None => (root_entry_results, o_root_read_dir_state o)
  end.

Definition into_iter {E} (root : Path) (started : bool) (observe : state C -> E) :
    starting (DirEntryIter.t C (ReadDirIter.t C E)) :=
  let '(root_entry_results, root_state) := root_entries root in
  DirEntryIter.new root_entry_results (o_min_depth o) root_state
    (fun specs => try_new specs (o_parallelism o) (o_channel_capacity o)
                    (o_max_receive_buffer_size o) started observe).

Definition try_into_iter {E} (root : Path) (started : bool) (observe : state C -> E) :
    starting (Result (DirEntryIter.t C (ReadDirIter.t C E))) :=
  starting_map (fun iter =>
    match DirEntryIter.read_dir_iter iter with
    | None => Err Error.busy
    | Some _ => Ok iter
    end) (into_iter root started observe).
End Walk.

(** ** Computations of the callback, whatever the walk answers *)

(** Whatever the answers to [schedule] and [is_stopped], [Q] holds of the result. *)
Fixpoint all_returns {Spec R} (Q : R -> Prop) (c : run_with Spec R) : Prop :=
  match c with
  | Returns r => Q r
  | Schedule _ k => forall b, all_returns Q (k b)
  | IsStopped k => forall b, all_returns Q (k b)
  end.

Lemma all_returns_bind {Spec R R'} (Q : R' -> Prop) (c : run_with Spec R) (f : R -> run_with Spec R') :
  all_returns (fun r => all_returns Q (f r)) c -> all_returns Q (run_bind c f).
Proof. induction c; simpl; auto. Qed.

Lemma all_returns_impl {Spec R} (Q Q' : R -> Prop) (c : run_with Spec R) :
  (forall r, Q r -> Q' r) -> all_returns Q c -> all_returns Q' c.
Proof. intros H. induction c; simpl; auto. Qed.

Lemma all_returns_undisturbed {Spec R} (Q : R -> Prop) (c : run_with Spec R) :
  all_returns Q c -> Q (snd (undisturbed c)).
Proof.
  induction c as [r|w k IH|k IH]; simpl; intros H; [done| |by apply IH].
  specialize (IH true (H true)). by destruct (undisturbed (k true)).
Qed.

(** What holds of the reader of the platform holds of the callback; there is always an
    attempt left when one is made. *)
Lemma retry_returns {P : Platform} {C : ClientState} {TH} (o : WalkDirOptions C)
    (Q : exec (Result (ReadDir.t C) * TH) -> Prop) op n attempt ctx th :
  attempt + Z.of_nat n = o_max_retries o ->
  (forall ctx th, all_returns Q (op ctx th)) ->
  all_returns Q (retry_read o op (seqZ attempt (Z.of_nat n + 1)) ctx th).
Proof.
  intros Hn H. revert attempt ctx th Hn.
  induction n as [|n IH]; intros attempt ctx th Hn; rewrite seqZ_cons by lia; cbn [retry_read];
    apply all_returns_bind; (eapply all_returns_impl; [|by apply H]);
    intros [[[rd|e] th1]| |] H1; simpl; try done.
  - by rewrite (proj2 (Z.ltb_ge _ _)) by lia.
  - destruct (_ && _); [|done].
    replace (Z.pred (Z.of_nat (S n) + 1)) with (Z.of_nat n + 1) by lia. apply IH. lia.
Qed.

Lemma core_callback_returns {P : Platform} {C : ClientState} {TH} {HR : DirReader TH}
    fs (o : WalkDirOptions C) (Q : exec (Result (ReadDir.t C) * TH) -> Prop) spec ctx th :
  let d := saturating_add (ReadDirSpec.depth spec) 1 in
  (o_max_retries o < 0 -> Q Panic) ->
  (o_max_depth o < d -> Q (Ret (Ok (ReadDir.new (ReadDirSpec.client_read_state spec) []), th))) ->
  (d <= o_max_depth o -> forall anc ctx th, all_returns Q (read_dir fs (read_options o)
     (ReadDirSpec.path spec) (ReadDirSpec.depth spec) d anc (ReadDirSpec.client_read_state spec) ctx th)) ->
  all_returns Q (core_read_dir_callback fs o spec ctx th).
Proof.
  intros d Hpanic Hempty H. unfold core_read_dir_callback. fold d.
  destruct (Z.ltb_spec (o_max_depth o) d) as [Hlt|Hge]; [by apply Hempty|]. clear Hempty.
  destruct (Z.lt_ge_cases (o_max_retries o) 0) as [Hr|Hr].
  - unfold seqZ. replace (Z.to_nat (o_max_retries o + 1)) with 0%nat by lia. by apply Hpanic.
  - replace (o_max_retries o + 1) with (Z.of_nat (Z.to_nat (o_max_retries o)) + 1) by lia.
    apply retry_returns; [lia|]. intros ctx' th'. by apply H.
Qed.

(** ** Reading a directory, each in a state of its own *)

Section SerialRead.
Context {P : Platform} {C : ClientState} {TH : Type} {HR : DirReader TH}.
Context (fs : FileSystem) (o : WalkDirOptions C) (th_of : ReadDirSpec.t C -> TH).

(** What a finished callback has returned; the two other cases do not arise for the
    directories of the theorems below. *)
Definition settle {T} (r : exec (Result (ReadDir.t C) * T)) : Result (ReadDir.t C) :=
  match r with Ret (r, _) => r | Panic | NoFuel => Err Error.busy end.

(** Reading a directory in serial mode, in the state of system and thread that it is read
    in: [th_of] gives the state for each directory. *)
Definition serial_read (spec : ReadDirSpec.t C) : Result (ReadDir.t C) :=
  settle (snd (undisturbed (core_read_dir_callback fs o spec None (th_of spec)))).
End SerialRead.
