(* ===== verification/WalkTypes.v ===== *)
(** * What a walk lists: well-formed entries, processed entries

    What a reader of directories promises to the walk, [DirReaderWf]: it makes
    well-formed entries, and returns them, or what [process_read_dir] makes of them;
    and what this gives for every entry listed, with and without [process_read_dir]. *)
From S2P Require Import Prelude Order Tree Std Error Metadata Platform DirEntry.
From S2P Require Import Callback ReadDirIter DirEntryIter WalkDir.

(** ** Well-formed entries *)

Section WellFormed.
Context {P : Platform} {C : ClientState}.
Implicit Types (e : DirEntry.t C) (r : Result (DirEntry.t C)).

(** An entry at depth [d], as the readers build it ([follow]: links are followed):
    it is read below exactly when it is a directory, it carries metadata exactly when
    it says so, and only what is read below can have failed to be read. *)
Record entry_wf (follow : bool) (d : Z) e : Prop := {
  wf_depth : DirEntry.depth e = d;
  wf_children : is_Some (DirEntry.read_children_path e) <-> is_dir (DirEntry.file_type e) = true;
  wf_metadata : DirEntry.read_metadata e = bool_decide (is_Some (DirEntry.metadata e));
  wf_follow : DirEntry.follow_link e = true -> follow = true;
  wf_error : is_Some (DirEntry.read_children_error e) -> is_Some (DirEntry.read_children_path e);
}.

Definition result_wf (follow : bool) (d : Z) r : Prop :=
  match r with Ok e => entry_wf follow d e | Err _ => True end.

(** An entry no client has seen and nothing has been read below. *)
Definition fresh r : Prop :=
  match r with
  | Ok e => 0 <= DirEntry.depth e /\ DirEntry.client_state e = dir_entry_state_default /\
      DirEntry.read_children_error e = None
  | Err _ => True
  end.

(** An entry of depth [d] as the readers make it. *)
Definition made (follow : bool) (d : Z) r : Prop := result_wf follow d r /\ fresh r.

Lemma is_dir_path ft (p : Path) : is_Some (if is_dir ft then Some p else None) <-> is_dir ft = true.
Proof. split; [destruct (is_dir ft); [done|by intros [? ?]]|intros ->; by eexists]. Qed.

Lemma from_raw_made follow d parent md ext name ft anc :
  0 <= d -> made follow d (DirEntry.from_raw d parent md ext name ft anc).
Proof. intros Hd. by repeat split; simpl; try apply is_dir_path; try done; intros [? ?]. Qed.

Lemma from_entry_made follow d parent md ext entry anc :
  0 <= d -> made follow d (DirEntry.from_entry d parent md ext entry anc).
Proof.
  intros Hd. unfold DirEntry.from_entry. destruct (res_map_err _ _) as [ft|e]; simpl; [|done].
  by repeat split; simpl; try apply is_dir_path; try done; intros [? ?].
Qed.

Lemma from_path_made fs (follow link : bool) d p md ext anc :
  0 <= d -> (link = true -> follow = true) ->
  made follow d (DirEntry.from_path fs d p md ext link anc).
Proof.
  intros Hd Hl. unfold DirEntry.from_path. destruct (if link then _ else _) as [m|e]; simpl; [|done].
  by destruct md; repeat split; simpl; try apply is_dir_path; try done; intros [? ?].
Qed.

Lemma follow_symlink_made fs e :
  0 <= DirEntry.depth e -> made true (DirEntry.depth e) (DirEntry.follow_symlink fs e).
Proof.
  intros Hd. unfold DirEntry.follow_symlink.
  pose proof (from_path_made fs true true (DirEntry.depth e) (DirEntry.path e) (DirEntry.read_metadata e)
    (DirEntry.read_metadata_ext e) (DirEntry.follow_link_ancestors e) Hd (fun H => H)) as H.
  destruct (DirEntry.from_path _ _ _ _ _ _ _) as [e'|err]; [|done]. cbn [res_bind].
  destruct (is_dir (DirEntry.file_type e')); [|done].
  destruct (res_map_err _ _) as [t|?]; cbn [res_bind]; [|done].
  destruct (fs_metadata fs _); [|done]. destruct (DirEntry.follow_link_ancestors e); [|done].
  by destruct (find _ _).
Qed.

(** Below the root, [process_dir_entry_result] keeps entries as they are made. *)
Lemma process_made fs follow d r :
  d <> 0 -> made follow d r -> made follow d (process_dir_entry_result fs r follow).
Proof.
  intros Hd H. destruct r as [e|err]; [|done].
  assert (made follow d (if follow && is_symlink (DirEntry.file_type e)
    then DirEntry.follow_symlink fs e else Ok e)) as H'.
  { destruct follow; simpl; [|done]. destruct (is_symlink _); [|done].
    rewrite <- (wf_depth _ _ _ (proj1 H)). apply follow_symlink_made, H. }
  unfold process_dir_entry_result.
  match type of H' with made _ _ ?r => destruct r as [e'|err] end; cbn [res_bind]; [|done].
  rewrite (wf_depth _ _ _ (proj1 H')), (proj2 (Z.eqb_neq d 0) Hd). by rewrite andb_false_r.
Qed.

Lemma sort_made follow d (l : list (Result (DirEntry.t C))) :
  Forall (made follow d) l -> Forall (made follow d) (sort_dir_entries_by_name l).
Proof. intros H. by rewrite sort_entries_perm. Qed.

Lemma root_entry_fresh fs root md ext anc follow :
  fresh (process_dir_entry_result fs (DirEntry.from_path fs 0 root md ext false anc) follow).
Proof.
  destruct (from_path_made fs false false 0 root md ext anc) as [Hwf H]; [done..|].
  destruct (DirEntry.from_path _ _ _ _ _ _ _) as [e|err]; [|done].
  assert (fresh (if follow && is_symlink (DirEntry.file_type e)
    then DirEntry.follow_symlink fs e else Ok e)) as H'.
  { destruct (_ && _); [|done]. apply follow_symlink_made. by rewrite (wf_depth _ _ _ Hwf). }
  unfold process_dir_entry_result.
  match type of H' with fresh ?r => destruct r as [e'|err] end; cbn [res_bind]; [|done].
  destruct (_ && _ && _); [|done]. destruct (res_map_err _ _); cbn [res_bind]; [|done].
  by destruct (is_dir _).
Qed.
End WellFormed.

(** ** The interface with the readers *)

(** The contents of the directory [path]: entries as they are made, given to
    [process_read_dir] if there is one. *)
Definition contents {P : Platform} {C : ClientState} {TH} (r : ReadOptions C) (path : Path)
    (read_dir_depth d : Z) (st : ReadDirState) (res : exec (Result (ReadDir.t C) * TH)) : Prop :=
  match res with
  | Ret (Ok rd, _) => exists l, Forall (made (r_follow_links r) d) l /\
      (ReadDir.read_dir_state rd, ReadDir.results_list rd) =
        match r_process_read_dir r with
        | Some process => process (Some read_dir_depth) path st l
        | None => (st, l)
        end
  | _ => True
  end.

(** What the reader of a platform promises about what it returns. *)
Class DirReaderWf {P : Platform} {C : ClientState} (TH : Type) `{!DirReader TH} : Prop :=
  read_dir_wf fs (r : ReadOptions C) path rdd d anc st ctx (th : TH) :
    0 < d -> all_returns (contents r path rdd d st) (read_dir fs r path rdd d anc st ctx th).

(** ** The entries of a walk are well formed *)

Section WalkTypes.
Context {P : Platform} {C : ClientState} {TH : Type} {HR : DirReader TH} {HW : DirReaderWf TH}.
Context (fs : FileSystem) (o : WalkDirOptions C) (th_of : ReadDirSpec.t C -> TH) (Hprocess : o_process_read_dir o = None).
Abbreviation read := (serial_read fs o th_of).
Abbreviation follow := (o_follow_links o).

Definition contents_wf (d : Z) (r : exec (Result (ReadDir.t C) * TH)) : Prop :=
  match r with
  | Ret (Ok rd, _) => Forall (result_wf follow d) (ReadDir.results_list rd)
  | _ => True
  end.

Definition no_contents (r : exec (Result (ReadDir.t C) * TH)) : Prop :=
  match r with Ret (Ok rd, _) => ReadDir.results_list rd = [] | _ => True end.

Lemma core_callback_wf spec ctx th :
  0 <= ReadDirSpec.depth spec ->
  all_returns (fun r => contents_wf (saturating_add (ReadDirSpec.depth spec) 1) r /\
      (o_max_depth o < saturating_add (ReadDirSpec.depth spec) 1 -> no_contents r))
    (core_read_dir_callback fs o spec ctx th).
Proof.
  intros Hd. apply core_callback_returns; [by split|by split; [constructor|]|].
  intros Hge anc ctx' th'. eapply all_returns_impl; [|apply read_dir_wf].
  - intros r H. split; [|lia]. destruct r as [[[rd|e] th1]| |]; try done.
    destruct H as (l & Hl & E). simpl in E. rewrite Hprocess in E. injection E as _ E. cbn [contents_wf]. rewrite E.
    eapply Forall_impl; [exact Hl|]. by intros r [H _].
  - unfold saturating_add. assert (0 < usize_max) by done. lia.
Qed.

(** Is the entry one to read below?  It is a directory; or it is the root, links are not
    followed, and it is a link to a directory. *)
Definition descends (e : DirEntry.t C) : bool :=
  is_dir (DirEntry.file_type e) ||
  (DirEntry.depth e =? 0) && negb follow && is_symlink (DirEntry.file_type e) &&
  match fs_metadata fs (DirEntry.path e) with Ok md => is_dir (md_file_type md) | Err _ => false end.

(** An entry of any depth as it may be listed. *)
Record walked_wf (e : DirEntry.t C) : Prop := {
  ww_depth : 0 <= DirEntry.depth e <= o_max_depth o;
  ww_children : is_Some (DirEntry.read_children_path e) <-> descends e = true;
  ww_metadata : DirEntry.read_metadata e = bool_decide (is_Some (DirEntry.metadata e));
  ww_follow : DirEntry.follow_link e = true -> follow = true;
  ww_error : is_Some (DirEntry.read_children_error e) -> descends e = true;
}.

Definition listed_wf (r : Result (DirEntry.t C)) : Prop :=
  match r with Ok e => walked_wf e | Err _ => True end.

(** An entry as it is made, unless it is a link at the root, is one to read below when it
    is a directory. *)
Lemma made_walked d e :
  0 <= d <= o_max_depth o -> entry_wf follow d e ->
  (d = 0 -> follow = false -> is_symlink (DirEntry.file_type e) = true ->
    forall md, fs_metadata fs (DirEntry.path e) = Ok md -> is_dir (md_file_type md) = false) ->
  walked_wf e.
Proof.
  intros Hd [Ed Hc Hm Hf He] Hroot.
  assert (descends e = is_dir (DirEntry.file_type e)) as Hdesc.
  { unfold descends. rewrite Ed. destruct (is_dir (DirEntry.file_type e)); [done|]. simpl.
    destruct (Z.eqb_spec d 0) as [Ez|]; simpl; [|done].
    destruct follow eqn:Efl; simpl; [done|].
    destruct (is_symlink _) eqn:El; simpl; [|done].
    destruct (fs_metadata _ _) as [md|] eqn:Emd; [|done]. by apply (Hroot Ez eq_refl eq_refl md). }
  split; rewrite ?Ed, ?Hdesc; try done. intros Herr. by apply Hc, He.
Qed.

Definition read_wf (r : Result (ReadDir.t C)) : Prop :=
  match r with Ok rd => Forall listed_wf (ReadDir.results_list rd) | Err _ => True end.

Definition deep (spec : ReadDirSpec.t C) : Prop := 0 <= ReadDirSpec.depth spec.

Lemma child_spec_deep st es :
  Forall listed_wf es -> Forall deep (omap (ReadDir.child_spec st) es).
Proof.
  induction 1 as [|r es Hr _ IH]; [constructor|]. cbn [omap list_omap].
  destruct r as [e|err]; [|done]. unfold ReadDir.child_spec, DirEntry.read_children_spec. simpl.
  destruct (DirEntry.read_children_path e); [|done]. constructor; [|done].
  unfold deep. simpl. apply Hr.
Qed.

Lemma serial_read_wf spec : deep spec -> read_wf (read spec) /\ Forall deep (children (read spec)).
Proof.
  intros Hd. pose proof (core_callback_wf spec None (th_of spec) Hd) as H.
  apply all_returns_undisturbed in H as [H1 H2].
  assert (read_wf (read spec)) as Hwf.
  { unfold serial_read. destruct (snd _) as [[[rd|e] th]| |]; simpl in *; [|done..].
    assert (0 < saturating_add (ReadDirSpec.depth spec) 1) as Hpos
      by (unfold saturating_add, deep in *; assert (0 < usize_max) by done; lia).
    destruct (Z.lt_ge_cases (o_max_depth o) (saturating_add (ReadDirSpec.depth spec) 1))
      as [Hlt|Hge].
    - rewrite (H2 Hlt). constructor.
    - eapply Forall_impl; [exact H1|]. intros [e|e] He; [|done].
      eapply made_walked; [|exact He|]; lia. }
  split; [done|]. destruct (read spec) as [rd|e]; [|constructor]. by apply child_spec_deep.
Qed.

(** Listing entries keeps them well formed. *)
Definition shown_wf (r : Result (DirEntry.t C)) : Prop :=
  listed_wf r /\ match r with Ok e => o_min_depth o <= DirEntry.depth e | Err _ => True end.

Lemma set_error_wf e p err :
  DirEntry.read_children_path e = Some p -> listed_wf (Ok e) ->
  listed_wf (Ok (DirEntry.set_read_children_error e (Some err))).
Proof.
  intros Hp [Hd Hc Hm Hf _]. split; try done. intros _. apply Hc. by eexists.
Qed.

(** The entry of the root: a link to a directory is read below when links are not
    followed. *)
Lemma root_entries_wf root :
  0 <= o_max_depth o -> Forall listed_wf (fst (root_entries fs o root)).
Proof.
  intros Hmax. unfold root_entries. rewrite Hprocess. constructor; [|constructor].
  set (anc := if follow then _ else _).
  destruct (from_path_made fs follow false 0 root (o_read_metadata o) (o_read_metadata_ext o) anc)
    as [H _]; [done..|].
  destruct (DirEntry.from_path _ _ _ _ _ _ _) as [e|err]; [|done]. cbn [result_wf] in H.
  pose proof (wf_depth _ _ _ H) as Ed. unfold process_dir_entry_result.
  destruct follow eqn:Ef; simpl.
  - assert (result_wf true 0 (if is_symlink (DirEntry.file_type e)
      then DirEntry.follow_symlink fs e else Ok e)) as H'.
    { destruct (is_symlink _); [|done]. rewrite <- Ed. apply follow_symlink_made. by rewrite Ed. }
    match type of H' with result_wf _ _ ?r => destruct r as [e'|err] end; simpl in *; [|done].
    rewrite <- Ef in H'. apply (made_walked 0); [lia|done|congruence].
  - rewrite Ed. simpl. rewrite <- Ef in H.
    destruct (is_symlink _) eqn:El; [|by apply (made_walked 0); [lia|done|congruence]].
    destruct (fs_metadata fs (DirEntry.path e)) as [md|err] eqn:Emd; simpl; [|done].
    destruct (is_dir (md_file_type md)) eqn:Edir; [|apply (made_walked 0); [lia|done|congruence]].
    destruct H as [_ Hc Hm Hf He].
    assert (descends (DirEntry.set_read_children_path e (Some (DirEntry.path e))) = true) as Hd.
    { unfold descends. simpl. change (DirEntry.path (DirEntry.set_read_children_path e _)) with (DirEntry.path e).
      rewrite Ed, Ef, El, Emd, Edir. apply orb_true_r. }
    split; rewrite ?Hd; simpl; rewrite ?Ed; try done; lia.
Qed.

(** C18: without [process_read_dir], every entry the walk lists, the root included, has a
    depth between [min_depth] and [max_depth]; it is read below exactly when its type is a
    directory, or it is the root, links are not followed, and it is a link to a directory
    ([descends]); it has metadata exactly when it says so; it was reached through a link
    only if links are followed; and only an entry to read below carries a read error. *)
Theorem walk_entries_wf root ts out :
  0 <= o_max_depth o ->
  let '(es, st) := root_entries fs o root in
  Forall2 (reads read) (omap (ReadDir.child_spec st) es) ts ->
  emits (o_min_depth o) es (flat_map preorder ts) out -> Forall shown_wf out.
Proof.
  intros Hmax. pose proof (root_entries_wf root Hmax) as Hes.
  destruct (root_entries fs o root) as [es st]. simpl in Hes. intros Hts Hout.
  eapply emits_forall; [by apply set_error_wf|exact Hout|done|].
  eapply reads_forest; [exact serial_read_wf|by apply child_spec_deep|exact Hts].
Qed.
End WalkTypes.

(** ** What [process_read_dir] returns is what the walk lists *)

Section Processed.
Context {P : Platform} {C : ClientState} {TH : Type} {HR : DirReader TH} {HW : DirReaderWf TH}.
Context (fs : FileSystem) (o : WalkDirOptions C) (th_of : ReadDirSpec.t C -> TH).
Context (process : option Z -> Path -> ReadDirState -> list (Result (DirEntry.t C)) ->
  ReadDirState * list (Result (DirEntry.t C))) (Hprocess : o_process_read_dir o = Some process).
Context (Q : Result (DirEntry.t C) -> Prop)
  (Hreturned : forall d path st l, Forall fresh l -> Forall Q (snd (process d path st l)))
  (Hdepth : forall e, Q (Ok e) -> 0 <= DirEntry.depth e).

Lemma child_specs_deep st es : Forall Q es -> Forall deep (omap (ReadDir.child_spec st) es).
Proof.
  induction 1 as [|r es Hr _ IH]; [constructor|]. cbn [omap list_omap].
  destruct r as [e|err]; [|done]. unfold ReadDir.child_spec, DirEntry.read_children_spec. simpl.
  destruct (DirEntry.read_children_path e); [|done]. constructor; [|done].
  unfold deep. simpl. by apply Hdepth.
Qed.

Lemma serial_read_processed spec :
  deep spec ->
  match serial_read fs o th_of spec with
  | Ok rd => Forall Q (ReadDir.results_list rd)
  | Err _ => True
  end /\ Forall deep (children (serial_read fs o th_of spec)).
Proof.
  intros Hd. assert (all_returns (fun r : exec (Result (ReadDir.t C) * TH) => match r with
    | Ret (Ok rd, _) => Forall Q (ReadDir.results_list rd) | _ => True end)
    (core_read_dir_callback fs o spec None (th_of spec))) as H.
  { apply core_callback_returns; [done|by intros _; constructor|]. intros _ anc ctx th.
    eapply all_returns_impl; [|apply read_dir_wf].
    - intros [[[rd|e] th']| |]; try done. intros (l & Hl & E). simpl in E. rewrite Hprocess in E.
      assert (Forall fresh l) as Hf by (eapply Forall_impl; [exact Hl|]; by intros r [_ H]).
      pose proof (Hreturned (Some (ReadDirSpec.depth spec)) (ReadDirSpec.path spec)
        (ReadDirSpec.client_read_state spec) l Hf) as HQ. by rewrite <- E in HQ.
    - unfold saturating_add, deep in *. assert (0 < usize_max) by done. lia. }
  apply all_returns_undisturbed in H. unfold serial_read.
  destruct (snd _) as [[[rd|e] th]| |]; simpl; try by split. split; [done|by apply child_specs_deep].
Qed.

Lemma entries_processed root ts out :
  (forall e err, Q (Ok e) -> Q (Ok (DirEntry.set_read_children_error e (Some err)))) ->
  let '(es, st) := root_entries fs o root in
  Forall2 (reads (serial_read fs o th_of)) (omap (ReadDir.child_spec st) es) ts ->
  emits (o_min_depth o) es (flat_map preorder ts) out -> Forall Q out.
Proof.
  intros HQ. assert (Forall Q (fst (root_entries fs o root))) as Hes.
  { unfold root_entries. rewrite Hprocess. set (l := [_]).
    assert (Forall fresh l) as Hl by (constructor; [apply root_entry_fresh|constructor]).
    match goal with |- context [process ?d ?p ?st l] =>
      specialize (Hreturned d p st l Hl); by destruct (process d p st l) end. }
  destruct (root_entries fs o root) as [es st]. simpl in Hes. intros Hts Hout.
  eapply Forall_impl; [eapply emits_forall; [by intros; apply HQ|exact Hout|done|]|by intros r [? _]].
  eapply reads_forest; [exact serial_read_processed|by apply child_specs_deep|exact Hts].
Qed.

(** C19: with [process_read_dir], nothing but what it returns is listed: whatever
    holds of every entry it returns, and is kept when a read error is noted in an
    entry, holds of every entry of the walk, the root's included. *)
Theorem walk_entries_processed root ts out :
  (forall e err, Q (Ok e) -> Q (Ok (DirEntry.set_read_children_error e (Some err)))) ->
  let '(es, st) := root_entries fs o root in
  Forall2 (reads (serial_read fs o th_of)) (omap (ReadDir.child_spec st) es) ts ->
  emits (o_min_depth o) es (flat_map preorder ts) out -> Forall Q out.
Proof. apply entries_processed. Qed.
End Processed.
