(* ===== verification/Loops.v ===== *)
(** * Loops of links: what the ancestors handed down by [into_iter] detect

    [follow_symlink] compares the target of a link with the identities of the
    directories above it ([DirEntry.follow_symlink_loop]).  The closure of [into_iter]
    takes the identity of a directory from its path, without following it: below a
    directory reached through a link, the identity is that of the link. *)
From S2P Require Import Prelude Order Std Error Metadata Platform DirEntry Callback WalkDir.

Section Loops.
Context {P : Platform} {C : ClientState} (fs : FileSystem) (o : WalkDirOptions C).

(** [a] is another file than [m]. *)
Definition differs (m : fs_Metadata) (a : AncestorIdentity.t) : Prop :=
  ancestor_identity_eq (get_metadata_ext m) a = false.

(** [path] is a link, a file of its own, to the directory [m]. *)
Definition links_to (m : fs_Metadata) (path : Path) : Prop :=
  fs_metadata fs path = Ok m /\ is_dir (md_file_type m) = true /\
  exists l, fs_symlink_metadata fs path = Ok l /\ differs m (identify path l).

(** The walk reads the directory [m] through a link, and no ancestor is [m]. *)
Definition disguised (m : fs_Metadata) (spec : ReadDirSpec.t C) : Prop :=
  links_to m (ReadDirSpec.path spec) /\
  Forall (differs m) (default [] (ReadDirSpec.follow_link_ancestors spec)).

(** Where the link [e] leads, resolved as [follow_symlink] does. *)
Definition resolves_to (m : fs_Metadata) (e : DirEntry.t C) : Prop :=
  exists target, fs_read_link fs (DirEntry.path e) = Ok target /\
    let resolved :=
      if is_absolute target then target else path_join (DirEntry.parent_path e) target in
    fs_metadata fs (default resolved (res_ok (fs_canonicalize fs resolved))) = Ok m.

Lemma extend_differs m path anc l :
  fs_symlink_metadata fs path = Ok l -> differs m (identify path l) ->
  o_follow_links o = true -> Forall (differs m) (default [] anc) ->
  exists anc', extend_ancestors fs o path anc = Some anc' /\ Forall (differs m) anc'.
Proof.
  intros Hl Hd Hf Ha. unfold extend_ancestors, AncestorIdentity.from_path. rewrite Hf, Hl.
  eexists. split; [done|]. apply Forall_app. by split; [|constructor].
Qed.

Lemma follow_differs m (e : DirEntry.t C) anc :
  links_to m (DirEntry.path e) -> resolves_to m e ->
  DirEntry.follow_link_ancestors e = Some anc -> Forall (differs m) anc ->
  exists e', DirEntry.follow_symlink fs e = Ok e' /\
    DirEntry.depth e' = DirEntry.depth e /\
    DirEntry.read_children_path e' = Some (DirEntry.path e) /\
    DirEntry.follow_link_ancestors e' = Some anc.
Proof.
  intros (Hm & Hdir & _) (target & Ht & Hr) Ha Hd.
  assert (exists e', DirEntry.from_path fs (DirEntry.depth e) (DirEntry.path e)
      (DirEntry.read_metadata e) (DirEntry.read_metadata_ext e) true (Some anc) = Ok e' /\
    is_dir (DirEntry.file_type e') = true /\ DirEntry.depth e' = DirEntry.depth e /\
    DirEntry.read_children_path e' = Some (DirEntry.path e) /\
    DirEntry.follow_link_ancestors e' = Some anc) as (e' & Ee & Hd' & He').
  { unfold DirEntry.from_path. rewrite Hm. cbn [res_map_err res_bind]. rewrite Hdir.
    destruct (DirEntry.read_metadata e); eexists; by split_and!. }
  exists e'. split; [|done]. unfold DirEntry.follow_symlink. rewrite Ha, Ee. cbn [res_bind].
  rewrite Hd', Ht. cbn [res_map_err res_bind]. cbv zeta in Hr. rewrite Hr.
  destruct (find _ _) as [a|] eqn:Ef; [|done]. apply find_some in Ef as [Hin Heq].
  apply in_rev, list_elem_of_In in Hin. rewrite Forall_forall in Hd.
  apply Hd in Hin. unfold differs in Hin. congruence.
Qed.

(** C28: a loop below a directory reached through a link is never reported: if no
    ancestor is that directory, a link in it that leads back to it is followed, and
    what is read below the link is the same directory, again reached through a link
    and again unlike every ancestor: so on, down to [max_depth]. *)
Theorem loop_through_link_missed m spec (e : DirEntry.t C) st :
  o_follow_links o = true -> disguised m spec ->
  is_symlink (DirEntry.file_type e) = true ->
  DirEntry.follow_link_ancestors e =
    extend_ancestors fs o (ReadDirSpec.path spec) (ReadDirSpec.follow_link_ancestors spec) ->
  links_to m (DirEntry.path e) -> resolves_to m e ->
  exists e' below, process_dir_entry_result fs (Ok e) true = Ok e' /\
    ReadDir.child_spec st (Ok e') = Some below /\
    ReadDirSpec.path below = DirEntry.path e /\ ReadDirSpec.depth below = DirEntry.depth e /\
    disguised m below.
Proof.
  intros Hf [(_ & _ & l & Hl & Hdl) Ha] Hs He Hlink Hres.
  destruct (extend_differs _ _ _ _ Hl Hdl Hf Ha) as (anc & E & Hanc).
  destruct (follow_differs m e anc Hlink Hres) as (e' & Ee & Hd & Hc & Hea); [congruence|done|].
  eexists e', _. split_and!.
  - unfold process_dir_entry_result. rewrite Hs. cbn [andb]. by rewrite Ee.
  - unfold ReadDir.child_spec, DirEntry.read_children_spec. simpl. by rewrite Hc.
  - done.
  - done.
  - by split; simpl; [|rewrite Hea].
Qed.
End Loops.

(** ** Witness: [/r/up] links to its own directory, which is reached as [/r] *)

Definition loop_options : WalkDirOptions unit_client := build options_new (follow_links true).

Definition loop_spec : ReadDirSpec.t unit_client :=
  @ReadDirSpec.mk _ unit_client 0 (bytes "/r") tt (Some [Metadata.AncestorIdentity.mk (bytes "/r") 1 7]).

Definition loop_entry : DirEntry.t unit_client :=
  sample_entry 1 (bytes "/r") (bytes "up") 0xA1FF
    (extend_ancestors sample_fs loop_options (bytes "/r")
      (ReadDirSpec.follow_link_ancestors loop_spec)).

Lemma loop_through_link_missed_witness :
  exists e' below, process_dir_entry_result sample_fs (Ok loop_entry) true = Ok e' /\
    @ReadDir.child_spec _ unit_client tt (Ok e') = Some below /\
    ReadDirSpec.path below = bytes "/r/up" /\ ReadDirSpec.depth below = 1 /\
    disguised sample_fs (md_of 0x41ED 1 2) below.
Proof.
  assert (forall p, links_to sample_fs (md_of 0x41ED 1 2) p) as Hlink.
  { intros p. split_and!; [done|vm_refl|]. exists (md_of 0xA1FF 1 7). split; [done|unfold differs; vm_refl]. }
  apply (loop_through_link_missed sample_fs loop_options (md_of 0x41ED 1 2) loop_spec loop_entry).
  - done.
  - split; [apply Hlink|]. constructor; [unfold differs; vm_refl|constructor].
  - vm_refl.
  - done.
  - apply Hlink.
  - exists (bytes "/r"). split; [done|]. by simpl.
Defined.
