(* ===== verification/WalkModes.v ===== *)
(** * The serial and the parallel walk: one callback, two iterators

    A walk reads each directory once, in the state that the system and the thread that
    reads it are then in: [th_of] gives the state for each directory, the same for the two
    walks that are compared.  [serial_read] is what a directory gives in serial mode,
    [parallel_read] what it gives in streaming mode.  [settled] is what a reader of
    directories has to promise for the two to agree; the readers of Linux and of
    Windows discharge it in [UnixWalk] and [WindowsWalk].  From it follow the
    contract the parallel machine needs and, from the options up, the equality of the
    two walks. *)
From S2P Require Import Prelude Order Tree World Std Error Metadata Platform DirEntry.
From S2P Require Import Callback OrderedQueue ReadDirIter DirEntryIter ParWalk ParComplete PoolWorld WalkDir WalkTypes.

(** ** Trees of reads *)

Fixpoint tree_map {A B} (f : A -> B) (t : tree A) : tree B :=
  match t with Node v ts => Node (f v) (map (tree_map f) ts) end.

Lemma preorder_map {A B} (f : A -> B) t : preorder (tree_map f t) = map f (preorder t).
Proof.
  induction t as [v ts IH] using tree_nested_ind. simpl. f_equal.
  induction IH as [|t ts Ht _ IHts]; simpl; [done|]. by rewrite map_app, Ht, IHts.
Qed.

(** The same result, nothing counted as streamed. *)
Definition unstreamed {P : Platform} {C : ClientState} (r : Result (ReadDir.t C)) :
    Result (ReadDir.t C) :=
  res_map (fun rd => ReadDir.mk (ReadDir.read_dir_state rd) (ReadDir.results_list rd) 0) r.

Definition no_ctx : StreamingContext := mk_streaming_context (IndexPath.mk []) 0.

Section Modes.
Context {P : Platform} {C : ClientState} {TH : Type} {HR : DirReader TH}.
Context (fs : FileSystem) (o : WalkDirOptions C) (th_of : ReadDirSpec.t C -> TH).

(** The callback of a parallel walk, each directory being read in its state. *)
Definition static_callback : ReadDirCallback C := fun spec ctx =>
  run_bind (core_read_dir_callback fs o spec ctx (th_of spec)) (fun r => Returns (settle r)).

Definition parallel_read (spec : ReadDirSpec.t C) : Result (ReadDir.t C) :=
  snd (undisturbed (static_callback spec (Some no_ctx))).

Abbreviation serial_read := (serial_read fs o th_of).

(** What one call gives: its schedules and its result, and the serial result. *)
Definition outcome (spec : ReadDirSpec.t C) (ctx : StreamingContext)
    (ws : list (Weighted.t (ReadDirSpec.t C))) (r : Result (ReadDir.t C)) : Prop :=
  undisturbed (static_callback spec (Some ctx)) = (ws, r) /\ serial_read spec = unstreamed r.

(** What a call in streaming mode schedules: nothing, or every child of its result. *)
Definition scheduled (rd : ReadDir.t C) (ctx : StreamingContext)
    (ws : list (Weighted.t (ReadDirSpec.t C))) : Prop :=
  ReadDir.streamed_child_count rd = 0 /\ ws = [] \/
  ReadDir.streamed_child_count rd = Z.of_nat (length (ReadDir.read_children_specs rd)) /\
  ws = numbered (sc_index_path ctx) (saturating_add (sc_parent_weight ctx) 1) 0
         (ReadDir.read_children_specs rd).

(** Reading [spec] depends on the context through positions and weights only; what is
    to be read below is [valid] again. *)
Definition settled (valid : ReadDirSpec.t C -> Prop) (spec : ReadDirSpec.t C) : Prop :=
  (exists e, forall ctx, outcome spec ctx [] (Err e)) \/
  (exists rd, Forall valid (ReadDir.read_children_specs rd) /\
     Z.of_nat (length (ReadDir.results_list rd)) <= usize_max /\
     forall ctx, exists ws, scheduled rd ctx ws /\ outcome spec ctx ws (Ok rd)).

Lemma parallel_read_outcome spec ws r : outcome spec no_ctx ws r -> parallel_read spec = r.
Proof. intros [E _]. unfold parallel_read. by rewrite E. Qed.

(** What is to be read below may be valid in another sense. *)
Lemma settled_children valid valid' spec :
  settled valid spec -> Forall valid' (children (parallel_read spec)) -> settled valid' spec.
Proof.
  intros [[e H]|(rd & _ & Hb & H)] Hc; [left; by exists e|]. right. exists rd. split; [|done].
  destruct (H no_ctx) as (ws & _ & Hout). by rewrite (parallel_read_outcome _ _ _ Hout) in Hc.
Qed.

(** ** Retries *)

Section Retry.
Context (Hretries : 0 <= o_max_retries o).
Abbreviation reader := (option StreamingContext -> TH -> run_of C (exec (Result (ReadDir.t C) * TH))).

Lemma retry_first (op : reader) ctx th r ws th' :
  undisturbed (op ctx th) = (ws, Ret (Ok r, th')) ->
  undisturbed (retry_read o op (seqZ 0 (o_max_retries o + 1)) ctx th) = (ws, Ret (Ok r, th')).
Proof.
  intros E. rewrite seqZ_cons by lia. cbn [retry_read]. rewrite undisturbed_bind, E. simpl.
  by rewrite app_nil_r.
Qed.

Lemma retry_always_fails (op : reader) e th :
  (forall ctx, op ctx th = Returns (Ret (Err e, th))) -> forall ctx,
  retry_read o op (seqZ 0 (o_max_retries o + 1)) ctx th = Returns (Ret (Err e, th)).
Proof.
  intros Hop. replace (o_max_retries o + 1) with (Z.of_nat (Z.to_nat (o_max_retries o)) + 1) by lia.
  assert (0 + Z.of_nat (Z.to_nat (o_max_retries o)) = o_max_retries o) as Ha by lia.
  revert Ha. generalize (Z.to_nat (o_max_retries o)), 0. intros n.
  induction n as [|n IH]; intros a Ha ctx; rewrite seqZ_cons by lia;
    cbn [retry_read]; rewrite Hop; simpl run_bind.
  - by rewrite (proj2 (Z.ltb_ge _ _)) by lia.
  - destruct (_ && _); [|done].
    replace (Z.pred (Z.of_nat (S n) + 1)) with (Z.of_nat n + 1) by lia. apply IH. lia.
Qed.

(** How one call of the reader of a platform, in the state [th], may go. *)
Definition regular (th : TH) (valid : ReadDirSpec.t C -> Prop) (op : reader) : Prop :=
  (exists e, forall ctx, op ctx th = Returns (Ret (Err e, th))) \/
  (exists rd th2, Forall valid (ReadDir.read_children_specs rd) /\
     Z.of_nat (length (ReadDir.results_list rd)) <= usize_max /\
     undisturbed (op None th) =
       ([], Ret (Ok (ReadDir.mk (ReadDir.read_dir_state rd) (ReadDir.results_list rd) 0), th2)) /\
     forall ctx, exists ws th1, scheduled rd ctx ws /\
       undisturbed (op (Some ctx) th) = (ws, Ret (Ok rd, th1))).

Lemma regular_settled valid spec :
  let d := saturating_add (ReadDirSpec.depth spec) 1 in
  (d <= o_max_depth o -> regular (th_of spec) valid
     (read_dir fs (read_options o) (ReadDirSpec.path spec) (ReadDirSpec.depth spec) d
       (extend_ancestors fs o (ReadDirSpec.path spec) (ReadDirSpec.follow_link_ancestors spec))
       (ReadDirSpec.client_read_state spec))) ->
  settled valid spec.
Proof.
  intros d H. unfold settled, outcome, static_callback, WalkDir.serial_read, core_read_dir_callback.
  fold d. destruct (Z.ltb_spec (o_max_depth o) d) as [Hlt|Hge].
  { right. exists (ReadDir.new (ReadDirSpec.client_read_state spec) []).
    split; [constructor|]. split; [by vm_compute|]. intros ctx. exists []. by split; [left|]. }
  destruct (H Hge) as [[e He]|(rd & th2 & Hv & Hb & Hserial & Hstream)].
  - left. exists e. intros ctx. by rewrite !(retry_always_fails _ e).
  - right. exists rd. split; [done|]. split; [done|]. intros ctx.
    destruct (Hstream ctx) as (ws & th1 & Hws & E). exists ws. split; [done|]. split.
    + rewrite undisturbed_bind. erewrite retry_first by apply E. simpl. by rewrite app_nil_r.
    + by erewrite retry_first by apply Hserial.
Qed.
End Retry.

(** ** Readers that ignore the streaming context *)

(** Sorting and [process_read_dir] need the whole listing: the readers then schedule
    nothing themselves. *)
Definition oblivious : Prop := forall path rdd d anc st ctx th,
  exists r, read_dir fs (read_options o) path rdd d anc st ctx th = Returns r /\
    read_dir fs (read_options o) path rdd d anc st None th = Returns r /\
    match r with Ret (Ok rd, _) => ReadDir.streamed_child_count rd = 0 | _ => True end.

(** Every directory is read to an end, without a panic, and its results fit in memory. *)
Definition fits : Prop := forall spec, exists r th,
  snd (undisturbed (core_read_dir_callback fs o spec None (th_of spec))) = Ret (r, th) /\
  match r with
  | Ok rd => Z.of_nat (length (ReadDir.results_list rd)) <= usize_max
  | Err _ => True
  end.

Lemma regular_weaken th (valid : ReadDirSpec.t C -> Prop) op :
  regular th valid op -> regular th (fun _ => True) op.
Proof.
  intros [H|(rd & th2 & _ & H)]; [by left|]. right. exists rd, th2. split; [by apply Forall_true|done].
Qed.

Lemma oblivious_regular path rdd d anc st th rd th' :
  oblivious -> let op := read_dir fs (read_options o) path rdd d anc st in
  undisturbed (op None th) = ([], Ret (Ok rd, th')) -> Z.of_nat (length (ReadDir.results_list rd)) <= usize_max ->
  regular th (fun _ => True) op.
Proof.
  intros H op E Hb. right. exists rd, th'. split; [by apply Forall_true|]. split; [done|].
  assert (forall ctx, op ctx th = Returns (Ret (Ok rd, th')) /\ ReadDir.streamed_child_count rd = 0) as Hop.
  { intros ctx. destruct (H path rdd d anc st ctx th) as (r & E1 & E2 & Hr). fold op in E1, E2.
    rewrite E2 in E. simpl in E. injection E as ->. by rewrite E1. }
  split.
  - rewrite E. destruct (Hop None) as [_ Hs]. destruct rd. simpl in *. by subst.
  - intros ctx. destruct (Hop (Some ctx)) as [-> Hs]. exists [], th'. split; [by left|done].
Qed.

Lemma oblivious_callback spec ctx :
  oblivious -> exists r, core_read_dir_callback fs o spec ctx (th_of spec) = Returns r /\
    core_read_dir_callback fs o spec None (th_of spec) = Returns r /\
    match r with Ret (Ok rd, _) => ReadDir.streamed_child_count rd = 0 | _ => True end.
Proof.
  intros H. unfold core_read_dir_callback.
  destruct (_ <? _); [eexists; by split_and!|].
  set (op := read_dir _ _ _ _ _ _ _).
  generalize (th_of spec), (seqZ 0 (o_max_retries o + 1)). intros th attempts.
  revert ctx th. induction attempts as [|a attempts IH]; intros ctx th; simpl; [by eexists|].
  destruct (H (ReadDirSpec.path spec) (ReadDirSpec.depth spec)
    (saturating_add (ReadDirSpec.depth spec) 1)
    (extend_ancestors fs o (ReadDirSpec.path spec) (ReadDirSpec.follow_link_ancestors spec))
    (ReadDirSpec.client_read_state spec) ctx th) as (r & E1 & E2 & Hr).
  fold op in E1, E2. rewrite E1, E2. simpl.
  destruct r as [[[rd|e] th1]| |]; [by eexists| |by eexists..].
  destruct (_ && _); [|by eexists]. destruct (IH None th1) as (r & E & _ & Hr').
  by exists r.
Qed.

Lemma oblivious_settled spec : oblivious -> fits -> settled (fun _ => True) spec.
Proof.
  intros H Hfits. specialize (Hfits spec). unfold settled, outcome, static_callback in *.
  destruct (oblivious_callback spec None H) as (r & _ & E & Hr).
  assert (forall ctx, core_read_dir_callback fs o spec ctx (th_of spec) = Returns r) as Ec.
  { intros ctx. destruct (oblivious_callback spec ctx H) as (r' & E1 & E2 & _). congruence. }
  unfold WalkDir.serial_read in *. rewrite E in *. destruct Hfits as (r' & th & Er & Hb).
  simpl in Er. subst r. destruct r' as [rd|e].
  - right. exists rd. split; [by apply Forall_true|]. split; [done|].
    intros ctx. exists []. rewrite Ec. split; [by left|]. split; [done|]. simpl.
    destruct rd. simpl in Hr. by subst.
  - left. exists e. intros ctx. by rewrite Ec.
Qed.

(** The directories are listed as a whole, or each is read regularly. *)
Definition whole_listing : Prop := o_sort o = true \/ is_Some (o_process_read_dir o).

Lemma modes_settled :
  0 <= o_max_retries o ->
  oblivious /\ fits \/
  (forall spec d anc, 0 < d ->
     regular (th_of spec) deep (read_dir fs (read_options o) (ReadDirSpec.path spec)
       (ReadDirSpec.depth spec) d anc (ReadDirSpec.client_read_state spec))) ->
  exists valid, (forall spec, deep spec -> valid spec) /\
    forall spec, valid spec -> settled valid spec.
Proof.
  intros Hr [[Hl Hf]|Hreg].
  - exists (fun _ => True). split; [done|]. intros spec _. by apply oblivious_settled.
  - exists deep. split; [done|]. intros spec Hd. apply regular_settled; [done|]. intros _.
    apply Hreg. unfold saturating_add, deep in *. assert (0 < usize_max) by done. lia.
Qed.

(** ** The contract of the parallel machine, and the equality of the reads *)

(** The options [o], with the channel capacity [capacity]; they are [o] itself when it is
    the capacity that [o] says. *)
Definition at_capacity (capacity : nat) : WalkDirOptions C :=
  build o (channel_capacity (Z.of_nat capacity)).

Lemma at_own_capacity :
  0 <= o_channel_capacity o -> at_capacity (Z.to_nat (o_channel_capacity o)) = o.
Proof. intros Hc. unfold at_capacity. simpl. rewrite Z2Nat.id by done. by destruct o. Qed.

(** Building the iterator of a parallel walk of one root, whose pool starts in time. *)
Lemma into_iter_parallel {E} capacity root es st spec (observe : state C -> E) :
  o_parallelism o <> Serial -> root_entries fs o root = (es, st) ->
  omap (ReadDir.child_spec st) es = [spec] -> (0 < capacity)%nat ->
  exists stop, into_iter fs (at_capacity capacity) root true observe =
    Started (DirEntryIter.mk (o_min_depth o)
      (Some (ReadDirIter.ParWalk (OrderedQueueIter.new_ordered_queue
        (Z.to_nat (o_max_receive_buffer_size o))) (observe (init [spec])))) [es] stop).
Proof.
  intros Hpar Hroot Hs Hcap. unfold into_iter.
  change (root_entries fs (at_capacity capacity) root) with (root_entries fs o root).
  rewrite Hroot. unfold DirEntryIter.new. rewrite Hs. unfold try_new.
  change (o_parallelism (at_capacity capacity)) with (o_parallelism o).
  change (o_channel_capacity (at_capacity capacity)) with (Z.of_nat capacity).
  rewrite Nat2Z.id, roots_pushed by (simpl; lia).
  destruct (o_parallelism o) as [|tm|pool [tm|]|n]; [done|..]; by eexists.
Qed.

Lemma into_iter_serial {E} root es st (observe : state C -> E) :
  root_entries fs o root = (es, st) ->
  exists stop, into_iter fs (build o (parallelism Serial)) root true observe =
    Started (DirEntryIter.mk (o_min_depth o)
      (Some (ReadDirIter.Walk (omap (ReadDir.child_spec st) es))) [es] stop).
Proof.
  intros Hroot. unfold into_iter.
  change (root_entries fs (build o (parallelism Serial)) root) with (root_entries fs o root).
  rewrite Hroot. by eexists.
Qed.

(** Without room for the roots, it is never built. *)
Lemma into_iter_blocks {E} root es st started (observe : state C -> E) :
  o_parallelism o <> Serial -> root_entries fs o root = (es, st) ->
  0 <= o_channel_capacity o < Z.of_nat (length (omap (ReadDir.child_spec st) es)) ->
  into_iter fs o root started observe = Blocks.
Proof.
  intros Hpar Hroot Hc. unfold into_iter. rewrite Hroot. unfold DirEntryIter.new, try_new.
  rewrite roots_blocked by lia. by destruct (o_parallelism o).
Qed.

(** The parallel walk of [root] with channels of [capacity] elements, consumed while the
    pool of [num_threads] threads is at work, lists [out]: building the iterator does not
    block, and then, whatever the steps the pool makes between two operations of the
    consumer, and whatever time they take. *)
Definition walk_lists (num_threads capacity : nat) (root : Path)
    (out : list (Result (DirEntry.t C))) : Prop :=
  exists fuel1, forall chunks delays f,
    (fuel1 + length chunks + length delays < f)%nat ->
    iterates (DirEntryIter.next (ReadDirIter.next
        (HW := pool_world static_callback num_threads capacity) parallel_read f) f)
      (into_iter fs (at_capacity capacity) root true (fun queues => mk_world queues 0 chunks delays))
      out.

(** The walk of [root], whose entries are [es] and whose directories are the tree [t]
    below [spec], lists the same entries in both modes: as soon as a pool of
    [num_threads] threads, with channels of [capacity] elements, has ended and its
    results have arrived, in whatever order; and with room for the directories of the
    tree, while the pool is at work, and the pool can be brought to its end from
    wherever it is. *)
Definition modes_agree {E : Type} {HW : World.World E (Ordered.t (Result (ReadDir.t C)))}
    {HL : World.WorldLaws E (Ordered.t (Result (ReadDir.t C))) STRICT_WAIT_TIMEOUT}
    (num_threads capacity : nat) (root : Path) (es : list (Result (DirEntry.t C)))
    (spec : ReadDirSpec.t C) (t : tree (Result (ReadDir.t C))) : Prop :=
  exists out fuel0, emits (o_min_depth o) es (preorder t) out /\
    (forall s (e : E) f,
      reachable static_callback num_threads capacity (init [spec]) s ->
      stop s = false -> iter s = IEnded ->
      World.arrivals e = sent s -> World.running e ->
      (length (World.arrivals e) + World.patience e < f)%nat -> (fuel0 <= f)%nat ->
      iterates (DirEntryIter.next (ReadDirIter.next parallel_read f) f)
        (into_iter fs (at_capacity capacity) root true (fun _ => e)) out /\
      iterates (DirEntryIter.next (ReadDirIter.next serial_read f) f)
        (into_iter fs (build o (parallelism Serial)) root true (fun _ => e)) out) /\
    ((0 < num_threads)%nat -> (length (labels [0%Z] t) <= capacity)%nat ->
      walk_lists num_threads capacity root out /\
      forall s,
        reachable static_callback num_threads capacity (init [spec]) s -> stop s = false ->
        exists s', reachable static_callback num_threads capacity s s' /\
          stop s' = false /\ iter s' = IEnded).

Section Agree.
Context {E} {HW : World.World E (Ordered.t (Result (ReadDir.t C)))}
  {HL : World.WorldLaws E (Ordered.t (Result (ReadDir.t C))) STRICT_WAIT_TIMEOUT}.
Context (valid : ReadDirSpec.t C -> Prop) (Hsettled : forall spec, valid spec -> settled valid spec).

Lemma static_contract : streaming_contract static_callback valid parallel_read.
Proof.
  intros spec ip weight Hv. set (ctx := mk_streaming_context ip weight).
  destruct (Hsettled spec Hv) as [[e He]|(rd & Hch & Hb & H)].
  - destruct (He ctx) as [-> _]. split; [|done]. symmetry. eapply parallel_read_outcome, He.
  - destruct (H no_ctx) as (ws0 & _ & Hout0), (H ctx) as (ws & Hws & [-> _]).
    split; [symmetry; by eapply parallel_read_outcome|].
    destruct Hws as [[Hn ->]|[Hn ->]]; [by split_and!; auto|].
    rewrite length_numbered. split_and!; try done. right. apply numbered_placed.
Qed.

Lemma serial_unstreamed spec : valid spec -> serial_read spec = unstreamed (parallel_read spec).
Proof.
  intros Hv. destruct (Hsettled spec Hv) as [[e H]|(rd & _ & _ & H)].
  - destruct (H no_ctx) as [Ep Es]. unfold parallel_read. by rewrite Ep, Es.
  - destruct (H no_ctx) as (ws & _ & [Ep Es]). unfold parallel_read. by rewrite Ep, Es.
Qed.

Lemma children_valid spec : valid spec -> Forall valid (children (parallel_read spec)).
Proof.
  intros Hv. destruct (Hsettled spec Hv) as [[e H]|(rd & Hch & _ & H)].
  - by rewrite (parallel_read_outcome _ _ _ (H no_ctx)).
  - destruct (H no_ctx) as (ws & _ & Hout). by rewrite (parallel_read_outcome _ _ _ Hout).
Qed.

Lemma emits_unstreamed md es reads out :
  emits md es reads out -> emits md es (map unstreamed reads) out.
Proof. induction 1; simpl; rewrite ?map_app; by econstructor; eauto. Qed.

Lemma reads_unstreamed s t :
  valid s -> reads parallel_read s t -> reads serial_read s (tree_map unstreamed t).
Proof.
  revert s. induction t as [v ts IH] using tree_nested_ind. intros s Hv Hr.
  apply reads_inv in Hr as [-> Hr]. simpl. rewrite <- serial_unstreamed by done.
  constructor. rewrite serial_unstreamed by done. pose proof (children_valid s Hv) as Hvs.
  assert (children (unstreamed (parallel_read s)) = children (parallel_read s)) as ->
    by (by destruct (parallel_read s)).
  clear Hv. induction Hr as [|c t cs ts Hc _ IHts]; simpl; [constructor|].
  inversion IH; inversion Hvs; subst. constructor; auto.
Qed.

Lemma reads_sized s t : valid s -> reads parallel_read s t -> sized t.
Proof.
  revert s. induction t as [v ts IH] using tree_nested_ind. intros s Hv Hr.
  apply reads_inv in Hr as [-> Hr]. pose proof (children_valid s Hv) as Hvs. constructor.
  - rewrite <- (Forall2_length _ _ _ Hr).
    destruct (Hsettled s Hv) as [[e H]|(rd & _ & Hb & H)].
    + by rewrite (parallel_read_outcome _ _ _ (H no_ctx)).
    + destruct (H no_ctx) as (ws & _ & Hout). rewrite (parallel_read_outcome _ _ _ Hout).
      pose proof (length_children rd). simpl. lia.
  - clear Hv. induction Hr as [|c t cs ts Hc _ IHts]; [constructor|].
    inversion IH; inversion Hvs; subst. constructor; eauto.
Qed.

(** The walk consumed while the pool is at work. *)
Lemma concurrent_walk_lists num_threads capacity root es st spec t f1 out :
  o_parallelism o <> Serial ->
  root_entries fs o root = (es, st) -> omap (ReadDir.child_spec st) es = [spec] -> valid spec ->
  reads parallel_read spec t -> sized t ->
  Z.of_nat (length (labels [0] t)) + 2 * Z.of_nat num_threads <= usize_max ->
  (0 < num_threads)%nat -> (length (labels [0%Z] t) <= capacity)%nat ->
  (forall {I} (iter_next : I -> exec (option (Result (ReadDir.t C)) * I)) fuel it stop,
    (f1 <= fuel)%nat -> yields iter_next it (preorder t) ->
    yields (DirEntryIter.next iter_next fuel)
      (DirEntryIter.mk (o_min_depth o) (Some it) [es] stop) out) ->
  walk_lists num_threads capacity root out.
Proof.
  intros Hpar Hroot Hs Hv Ht Hsz Hb Hnt Hcap HY.
  assert (0 < length (labels [0%Z] t))%nat as Hpos by (destruct t; rewrite labels_node; simpl; lia).
  set (W := Build_rooted_walk static_callback num_threads capacity valid parallel_read spec t
    static_contract Hv Ht Hb Hnt Hcap).
  exists (f1 + length (labels [0%Z] t) + work _ _ _ W (init [spec]))%nat.
  intros chunks delays f Hf.
  assert (forall max, yields
    (OrderedQueueIter.next (HW := pool_world static_callback num_threads capacity) f)
    (OrderedQueueIter.new_ordered_queue max, new_world spec chunks delays) (labels [0] t)) as Hy.
  { intros max. apply (concurrent_stream _ _ _ W chunks delays max f); [done|]. simpl in *. lia. }
  destruct (into_iter_parallel capacity root es st spec (fun queues => mk_world queues 0 chunks delays))
    as (stop & ->); [done..|lia|].
  eexists. split; [done|]. apply HY; [lia|]. rewrite <- (labels_values [0] t). by apply par_yields.
Qed.

(** The two walks, from their options. *)
Lemma walk_modes_agree num_threads capacity root es st spec t :
  o_parallelism o <> Serial ->
  root_entries fs o root = (es, st) -> omap (ReadDir.child_spec st) es = [spec] -> valid spec ->
  reads parallel_read spec t ->
  Z.of_nat (length (labels [0] t)) + 2 * Z.of_nat num_threads <= usize_max ->
  modes_agree (E := E) num_threads capacity root es spec t.
Proof.
  intros Hpar Hroot Hs Hv Ht Hb. pose proof (reads_sized _ _ Hv Ht) as Hsz.
  assert (forall read t', reads read spec t' ->
    Forall2 (reads read) (omap (ReadDir.child_spec st) es) [t']) as H2.
  { intros read t' Hr. rewrite Hs. by constructor. }
  destruct (listing _ st es [t] (o_min_depth o) (H2 _ _ Ht)) as (out & f1 & Hout & Y1).
  pose proof (reads_unstreamed _ _ Hv Ht) as Ht'.
  destruct (listing _ st es [tree_map unstreamed t] (o_min_depth o) (H2 _ _ Ht'))
    as (out' & f2 & Hout' & Y2).
  simpl in Hout, Hout', Y1, Y2. rewrite app_nil_r in *. rewrite preorder_map in *.
  assert (out' = out) as -> by (eapply emits_det; [exact Hout'|by apply emits_unstreamed]).
  exists out, (f1 + f2)%nat. split; [done|]. split.
  2: { intros Hnt Hcap. split.
       - by apply (concurrent_walk_lists num_threads capacity root es st spec t f1 out).
       - intros s Hr Hst. eapply can_finish;
         [apply static_contract|exact Hv|exact Ht|exact Hb|exact Hnt|exact Hcap|by split]. }
  intros s e f Hr Hst Hi Ha Hrun Hf Hf0.
  assert (sent s ≡ₚ labels [0] t) as Hsent by (eapply ended_sent; eauto using static_contract).
  assert (0 < capacity)%nat as Hcap.
  { eapply sent_room; [|exact Hr|]; [done|]. intros Hn. rewrite Hn in Hsent.
    apply Permutation_nil_l in Hsent. destruct t. by rewrite labels_node in Hsent. }
  split.
  - destruct (into_iter_parallel capacity root es st spec (fun _ => e)) as (stop & ->); [done..|].
    eexists. split; [done|]. apply Y1; [lia|]. apply parallel_walk_dfs; try done. by rewrite Ha.
  - destruct (into_iter_serial root es st (fun _ => e)) as (stop & ->); [done|].
    eexists. split; [done|]. rewrite Hs. apply Y2; [lia|]. rewrite <- preorder_map. by apply serial_root.
Qed.
End Agree.
End Modes.
Arguments modes_agree {P C TH HR} fs o th_of E {HW HL} num_threads capacity root es spec t.
