(* ===== verification/Bare.v ===== *)
(** * What the metadata options change: only the metadata

    [read_metadata] and [read_metadata_ext] ask for fields of the entries.  [bare] forgets
    these fields; two walks whose readers agree up to [bare] list the same entries up to
    [bare], whatever the rest of the options. *)
From S2P Require Import Prelude Order Tree Std Error Metadata Platform DirEntry.
From S2P Require Import Callback OrderedQueue ReadDirIter DirEntryIter WalkDir WalkTypes WalkModes.

Section Bare.
Context {P : Platform} {C : ClientState}.
Implicit Types (e : DirEntry.t C) (r : Result (DirEntry.t C)) (s : ReadDirSpec.t C).

(** The entry without its metadata. *)
Definition bare e : DirEntry.t C :=
  DirEntry.mk (DirEntry.depth e) (DirEntry.file_name e) (DirEntry.file_type e)
    (DirEntry.client_state e) (DirEntry.parent_path e) (DirEntry.read_children_path e)
    (DirEntry.read_children_error e) false None false None (DirEntry.follow_link e)
    (DirEntry.follow_link_ancestors e) (DirEntry.cached_path e).

Definition bare_entry r : Result (DirEntry.t C) := res_map bare r.

(** The read without it, and without what is counted as streamed. *)
Definition bare_read (r : Result (ReadDir.t C)) : Result (ReadDir.t C) :=
  res_map (fun rd => ReadDir.new (ReadDir.read_dir_state rd)
    (map bare_entry (ReadDir.results_list rd))) r.

(** ** Nothing that drives a walk looks at the metadata *)

Lemma child_spec_bare st r : ReadDir.child_spec st (bare_entry r) = ReadDir.child_spec st r.
Proof. by destruct r. Qed.

Lemma child_specs_bare st l :
  omap (ReadDir.child_spec st) (map bare_entry l) = omap (ReadDir.child_spec st) l.
Proof.
  induction l as [|r l IH]; [done|]. cbn [map omap list_omap]. rewrite child_spec_bare.
  destruct (ReadDir.child_spec st r); [f_equal|]; exact IH.
Qed.

Lemma children_bare (r : Result (ReadDir.t C)) : children (bare_read r) = children r.
Proof. destruct r as [rd|e]; [|done]. apply child_specs_bare. Qed.

Lemma bare_unstreamed (r : Result (ReadDir.t C)) : bare_read (unstreamed r) = bare_read r.
Proof. by destruct r. Qed.

Lemma insert_entry_bare r l :
  map bare_entry (insert_entry r l) = insert_entry (bare_entry r) (map bare_entry l).
Proof.
  induction l as [|x l IH]; [done|]. simpl.
  assert (entry_cmp (bare_entry r) (bare_entry x) = entry_cmp r x) as -> by (by destruct r, x).
  destruct (entry_cmp r x); simpl; [done..|]. by rewrite IH.
Qed.

Lemma sort_bare l :
  map bare_entry (sort_dir_entries_by_name l) = sort_dir_entries_by_name (map bare_entry l).
Proof. induction l as [|r l IH]; [done|]. simpl. by rewrite insert_entry_bare, IH. Qed.

Lemma from_path_bare fs d p md ext follow anc :
  bare_entry (DirEntry.from_path fs d p md ext follow anc) =
    bare_entry (DirEntry.from_path fs d p false false follow anc).
Proof.
  unfold DirEntry.from_path. destruct (if follow then _ else _) as [m|e]; [|done]. by destruct md.
Qed.

Lemma follow_symlink_bare fs e :
  bare_entry (DirEntry.follow_symlink fs e) = bare_entry (DirEntry.follow_symlink fs (bare e)).
Proof.
  unfold DirEntry.follow_symlink.
  change (DirEntry.path (bare e)) with (DirEntry.path e). cbn [bare DirEntry.depth
    DirEntry.read_metadata DirEntry.read_metadata_ext DirEntry.follow_link_ancestors DirEntry.parent_path].
  pose proof (from_path_bare fs (DirEntry.depth e) (DirEntry.path e) (DirEntry.read_metadata e)
    (DirEntry.read_metadata_ext e) true (DirEntry.follow_link_ancestors e)) as H.
  destruct (DirEntry.from_path _ _ _ (DirEntry.read_metadata e) _ _ _) as [x|err],
    (DirEntry.from_path _ _ _ false _ _ _) as [y|err']; simpl in H; try done.
  injection H as E1 E2 Et E3 E4 E5 E6 E7 E8 E9. cbn [res_bind]. rewrite Et.
  assert (bare_entry (Ok x) = bare_entry (Ok y)) as Hxy by (unfold bare_entry, bare; simpl; congruence).
  destruct (is_dir _); [|done].
  destruct (res_map_err _ _) as [target|err]; [|done]. cbn [res_bind].
  destruct (fs_metadata _ _); [|done]. destruct (DirEntry.follow_link_ancestors e); [|done].
  by destruct (find _ _).
Qed.

(** What [process_dir_entry_result] makes of an entry. *)
Lemma process_bare fs r follow :
  bare_entry (process_dir_entry_result fs r follow) =
    bare_entry (process_dir_entry_result fs (bare_entry r) follow).
Proof.
  destruct r as [e|err]; [|done]. unfold process_dir_entry_result. cbn [bare_entry res_map].
  change (DirEntry.file_type (bare e)) with (DirEntry.file_type e).
  destruct follow; cbn [andb negb].
  - destruct (is_symlink _); [|done]. pose proof (follow_symlink_bare fs e) as H.
    by destruct (DirEntry.follow_symlink fs e), (DirEntry.follow_symlink fs (bare e)).
  - cbn [res_bind]. change (DirEntry.depth (bare e)) with (DirEntry.depth e).
    change (DirEntry.file_type (bare e)) with (DirEntry.file_type e).
    change (DirEntry.path (bare e)) with (DirEntry.path e).
    destruct (_ && _); [|done]. destruct (res_map_err _ _) as [m|err]; [|done]. cbn [res_bind].
    by destruct (is_dir _).
Qed.

(** ** Walks whose readers agree up to [bare] *)

Lemma shown_bare md e : map bare_entry (shown md e) = shown md (bare e).
Proof. unfold shown. simpl. by destruct (md <=? DirEntry.depth e). Qed.

Lemma emits_bare md es reads out :
  emits md es reads out ->
  emits md (map bare_entry es) (map bare_read reads) (map bare_entry out).
Proof.
  induction 1 as [|e es reads out _ IH|d es reads out Hc _ IH|d p e es reads out Hc _ IH
    |d p rd es reads1 reads2 out1 out2 Hc _ IH1 _ IH2]; simpl; rewrite ?map_app, ?shown_bare.
  - constructor.
  - by constructor.
  - by apply emits_leaf.
  - by eapply (emits_failed md (bare d)).
  - by eapply (emits_dir md (bare d) p (ReadDir.new _ (map bare_entry (ReadDir.results_list rd)))).
Qed.

Section Reads.
Context (valid : ReadDirSpec.t C -> Prop) (read1 read2 : ReadDirSpec.t C -> Result (ReadDir.t C)).
Context (Hagree : forall s, valid s -> bare_read (read1 s) = bare_read (read2 s)).
Context (Hclosed : forall s, valid s -> Forall valid (children (read1 s))).

Lemma agree_children s : valid s -> children (read2 s) = children (read1 s).
Proof. intros Hv. by rewrite <- (children_bare (read1 s)), Hagree, children_bare. Qed.

Lemma reads_bare s t :
  valid s -> reads read1 s t ->
  exists t', reads read2 s t' /\ tree_map bare_read t' = tree_map bare_read t.
Proof.
  revert s. induction t as [v ts IH] using tree_nested_ind. intros s Hv Hr.
  apply reads_inv in Hr as [-> Hr]. pose proof (Hclosed s Hv) as Hvs.
  assert (exists ts', Forall2 (reads read2) (children (read1 s)) ts' /\
    map (tree_map bare_read) ts' = map (tree_map bare_read) ts) as (ts' & Hts & E).
  { induction Hr as [|c t cs ts Hc _ IHts]; [by exists []|].
    inversion IH as [|? ? IHt IHrest]; inversion Hvs as [|? ? Hvc Hvcs]; subst.
    destruct (IHt c Hvc Hc) as (t' & Ht' & E1). destruct (IHts IHrest Hvcs) as (ts' & Hts' & E2).
    exists (t' :: ts'). split; [by constructor|]. simpl. by rewrite E1, E2. }
  exists (Node (read2 s) ts'). split; [constructor; by rewrite agree_children|].
  simpl. by rewrite E, Hagree.
Qed.

(** The same tree of directories. *)
Lemma bare_labels t t' :
  tree_map bare_read t' = tree_map bare_read t -> length (labels [0] t') = length (labels [0] t).
Proof.
  intros E. apply (f_equal preorder), (f_equal length) in E. rewrite !preorder_map, !length_map in E.
  by rewrite <- (length_map Ordered.value (labels [0] t')), labels_values, E, <- (labels_values [0] t),
    length_map.
Qed.

Lemma forest_bare ss ts :
  Forall valid ss -> Forall2 (reads read1) ss ts ->
  exists ts', Forall2 (reads read2) ss ts' /\
    map bare_read (flat_map preorder ts') = map bare_read (flat_map preorder ts).
Proof.
  intros Hv H. induction H as [|s t ss ts Hs _ IH]; [by exists []|].
  apply Forall_cons in Hv as [Hv1 Hv2]. destruct (IH Hv2) as (ts' & Hts & E).
  destruct (reads_bare s t Hv1 Hs) as (t' & Ht & E1). exists (t' :: ts').
  split; [by constructor|]. simpl. rewrite !map_app, E. f_equal.
  by rewrite <- !preorder_map, E1.
Qed.

(** The two listings, from entries that are the same up to [bare]. *)
Lemma listing_bare md st es es' ts out :
  map bare_entry es' = map bare_entry es ->
  Forall valid (omap (ReadDir.child_spec st) es) ->
  Forall2 (reads read1) (omap (ReadDir.child_spec st) es) ts ->
  emits md es (flat_map preorder ts) out ->
  exists ts' out', Forall2 (reads read2) (omap (ReadDir.child_spec st) es') ts' /\
    emits md es' (flat_map preorder ts') out' /\ map bare_entry out' = map bare_entry out.
Proof.
  intros He Hv Hts Hout. destruct (forest_bare _ _ Hv Hts) as (ts' & Hts' & E).
  assert (omap (ReadDir.child_spec st) es' = omap (ReadDir.child_spec st) es) as Hs
    by (by rewrite <- (child_specs_bare st es'), He, child_specs_bare).
  rewrite <- Hs in Hts'. destruct (emits_forest md read2 st es' ts' Hts') as [out' Hout'].
  exists ts', out'. split; [done|]. split; [done|].
  apply emits_bare in Hout, Hout'. rewrite He, E in Hout'. by eapply emits_det.
Qed.
End Reads.
End Bare.
