(* ===== verification/FileTree.v ===== *)
(** * A directory tree, and what a walk of it lists

    [node] is a file system as its user sees it: files, directories that can be listed
    and directories that cannot.  [below] computes what a walk lists below a directory
    from the tree and the options alone, with no reference to readers, iterators or
    threads.  [TreeReader] is what a reader of directories promises about the
    directories of a tree; from it follows that the walk, serial or parallel, lists what
    [walk_of] computes.  [LinuxTree], [LegacyTree] and [WindowsTree] have the readers. *)
From S2P Require Import Prelude Order Tree World Std Error Metadata Platform DirEntry.
From S2P Require Import Callback OrderedQueue ReadDirIter DirEntryIter ParWalk ParComplete PoolWorld.
From S2P Require Import WalkDir WalkTypes WalkModes Bare.
#[local] Set Warnings "-register-all".

(** ** Trees *)

Section Trees.
Context {P : Platform}.

(** An entry of a directory: its name, and whether the system calls it hidden. *)
Record tag := mk_tag { tag_name : OsString; tag_hidden : bool }.

Inductive node : Type :=
| Leaf (ft : FileType)
| Locked (ft : FileType) (e : io_Error)
| Folder (ft : FileType) (entries : list (tag * node)).

Definition node_type (n : node) : FileType :=
  match n with Leaf ft | Locked ft _ | Folder ft _ => ft end.

Definition contents (n : node) : list (tag * node) :=
  match n with Folder _ entries => entries | _ => [] end.

Section NodeInd.
Context (Q : node -> Prop)
  (HLeaf : forall ft, Q (Leaf ft)) (HLocked : forall ft e, Q (Locked ft e))
  (HFolder : forall ft entries, Forall (fun x => Q (snd x)) entries -> Q (Folder ft entries)).

Fixpoint node_nested_ind (n : node) : Q n :=
  match n with
  | Leaf ft => HLeaf ft
  | Locked ft e => HLocked ft e
  | Folder ft entries =>
      HFolder ft entries
        ((fix go (l : list (tag * node)) : Forall (fun x => Q (snd x)) l :=
            match l with
            | [] => @Forall_nil_2 _ _
            | x :: l' => @Forall_cons_2 _ (fun x => Q (snd x)) x l' (node_nested_ind (snd x)) (go l')
            end) entries)
  end.
End NodeInd.

(** The names of [l] in the order of [sort]: an insertion sort by name. *)
Fixpoint insert_name {A} (x : tag * A) (l : list (tag * A)) : list (tag * A) :=
  match l with
  | [] => [x]
  | y :: l' =>
      match os_str_cmp (tag_name (fst x)) (tag_name (fst y)) with
      | Gt => y :: insert_name x l'
      | _ => x :: l
      end
  end.

Fixpoint sort_names {A} (l : list (tag * A)) : list (tag * A) :=
  match l with [] => [] | x :: l' => insert_name x (sort_names l') end.

Lemma insert_name_perm {A} (x : tag * A) l : insert_name x l ≡ₚ x :: l.
Proof.
  induction l as [|y l IH]; simpl; [done|]. destruct (os_str_cmp _ _); [done..|].
  rewrite IH. apply perm_swap.
Qed.

Lemma sort_names_perm {A} (l : list (tag * A)) : sort_names l ≡ₚ l.
Proof. induction l as [|x l IH]; simpl; [done|]. by rewrite insert_name_perm, IH. Qed.

Lemma sort_names_map {A B} (f : tag * A -> B) (l : list (tag * A)) :
  sort_names (map (fun x => (fst x, f x)) l) = map (fun x => (fst x, f x)) (sort_names l).
Proof.
  induction l as [|x l IH]; [done|]. simpl. rewrite IH. generalize (sort_names l). intros l'.
  induction l' as [|y l' IH']; [done|]. simpl. destruct (os_str_cmp _ _); simpl; [done..|].
  by rewrite IH'.
Qed.
End Trees.

(** ** What a walk lists *)

Section Walk.
Context {P : Platform} {C : ClientState} (o : WalkDirOptions C).

(** What there is to see of an entry, metadata and the state of the client aside. *)
Record seen := mk_seen {
  seen_depth : Z;
  seen_parent : Path;
  seen_name : OsString;
  seen_type : FileType;
  seen_error : option Error.t;
}.

Definition view (r : Result (DirEntry.t C)) : Result seen :=
  res_map (fun e => mk_seen (DirEntry.depth e) (DirEntry.parent_path e) (DirEntry.file_name e)
    (DirEntry.file_type e) (DirEntry.read_children_error e)) r.

(** The entries of a directory that are listed, in the order they are. *)
Definition arranged {A} (l : list (tag * A)) : list (tag * A) :=
  let l := List.filter (fun x => negb (o_skip_hidden o && tag_hidden (fst x))) l in
  if o_sort o then sort_names l else l.

(** The directories at depth [d] are read. *)
Definition too_deep (d : Z) : bool := o_max_depth o <? saturating_add d 1.

(** The error noted in the entry of [n]. *)
Definition denied (d : Z) (path : Path) (n : node) : option Error.t :=
  match n with
  | Locked _ e => if too_deep d then None else Some (Error.from_path 0 path e)
  | _ => None
  end.

Definition display (s : seen) : list (Result seen) :=
  if o_min_depth o <=? seen_depth s then [Ok s] else [].

(** What is listed below [n], a directory at [path] and depth [d]. *)
Fixpoint below (d : Z) (path : Path) (n : node) {struct n} : list (Result seen) :=
  match n with
  | Folder _ entries =>
      if too_deep d then []
      else
        let d' := saturating_add d 1 in
        flat_map snd (arranged (map (fun x =>
          (fst x,
           let place := path_join path (tag_name (fst x)) in
           display (mk_seen d' path (tag_name (fst x)) (node_type (snd x)) (denied d' place (snd x))) ++
           below d' place (snd x))) entries))
  | _ => []
  end.

(** How many directories are read. *)
Fixpoint directories (d : Z) (n : node) {struct n} : nat :=
  match n with
  | Leaf _ => 0
  | Locked _ _ => 1
  | Folder _ entries =>
      1 + (if too_deep d then 0
           else sum_list (map snd (arranged
             (map (fun x => (fst x, directories (saturating_add d 1) (snd x))) entries))))
  end%nat.

(** An entry and what is below it; [place] says where entries of that name are read. *)
Definition listing_of (d : Z) (parent : Path) (place : OsString -> Path) (x : tag * node) :
    list (Result seen) :=
  display (mk_seen d parent (tag_name (fst x)) (node_type (snd x))
    (denied d (place (tag_name (fst x))) (snd x))) ++ below d (place (tag_name (fst x))) (snd x).

(** The walk of [root], the tree [n]. *)
Definition walk_of (root : Path) (n : node) : list (Result seen) :=
  listing_of 0 (default [] (path_parent root)) (fun _ => root)
    (mk_tag (default root (path_file_name root)) false, n).

Lemma arranged_map {A B} (f : tag * A -> B) (l : list (tag * A)) :
  arranged (map (fun x => (fst x, f x)) l) = map (fun x => (fst x, f x)) (arranged l).
Proof.
  unfold arranged.
  assert (List.filter (fun x : tag * B => negb (o_skip_hidden o && tag_hidden (fst x)))
      (map (fun x => (fst x, f x)) l) =
    map (fun x => (fst x, f x))
      (List.filter (fun x => negb (o_skip_hidden o && tag_hidden (fst x))) l)) as ->.
  { induction l as [|x l IH]; [done|]. simpl. destruct (negb _); simpl; by rewrite IH. }
  destruct (o_sort o); [apply sort_names_map|done].
Qed.

Lemma arranged_elem {A} (Q : tag * A -> Prop) l : Forall Q l -> Forall Q (arranged l).
Proof.
  intros H. unfold arranged.
  assert (Forall Q (List.filter (fun x => negb (o_skip_hidden o && tag_hidden (fst x))) l)) as H'.
  { induction H; simpl; [constructor|]. destruct (negb _); [by constructor|done]. }
  destruct (o_sort o); [by rewrite sort_names_perm|done].
Qed.

Lemma arranged_short {A} (l : list (tag * A)) : (length (arranged l) <= length l)%nat.
Proof.
  unfold arranged. pose proof (List.filter_length_le
    (fun x => negb (o_skip_hidden o && tag_hidden (fst x))) l).
  destruct (o_sort o); [by rewrite sort_names_perm|done].
Qed.

Lemma below_folder d path ft entries :
  below d path (Folder ft entries) =
    if too_deep d then []
    else flat_map (listing_of (saturating_add d 1) path (path_join path)) (arranged entries).
Proof.
  simpl. destruct (too_deep d); [done|]. rewrite arranged_map, flat_map_concat_map, map_map.
  by rewrite <- flat_map_concat_map.
Qed.

Lemma directories_folder d ft entries :
  directories d (Folder ft entries) =
    S (if too_deep d then 0
       else sum_list (map (fun x => directories (saturating_add d 1) (snd x)) (arranged entries))).
Proof.
  simpl. destruct (too_deep d); [done|]. by rewrite (arranged_map (fun x => directories _ (snd x))), map_map.
Qed.
End Walk.

Lemma listing_ok {P : Platform} {C : ClientState} (o : WalkDirOptions C) n : forall d parent place t,
  Forall (fun r => exists s, r = Ok s) (listing_of o d parent place (t, n)).
Proof.
  assert (forall s, Forall (fun r => exists s, r = Ok s) (display o s)) as Hd.
  { intros s. unfold display. destruct (_ <=? _); repeat constructor. by eexists. }
  induction n as [ft|ft e|ft entries IH] using node_nested_ind; intros d parent place t;
    unfold listing_of; (apply Forall_app; split; [apply Hd|]); [constructor..|].
  cbn [fst snd]. rewrite below_folder. destruct (too_deep o d); [constructor|].
  apply (arranged_elem o) in IH. induction IH as [|[t' n'] xs Hx _ IH]; simpl; [constructor|].
  apply Forall_app. split; [apply Hx|exact IH].
Qed.

(** ** A walk that leaves nothing out *)

(** The nodes of a tree of the types [p]. *)
Fixpoint tally {P : Platform} (p : FileType -> bool) (n : node) : nat :=
  (if p (node_type n) then 1 else 0) +
  match n with Folder _ entries => sum_list (map (fun x => tally p (snd x)) entries) | _ => 0 end.

Section Tally.
Context {P : Platform} {C : ClientState} (p : FileType -> bool).

(** How many of them are listed. *)
Definition seen_of (r : Result seen) : bool :=
  match r with Ok s => p (seen_type s) | Err _ => false end.
Definition seen_count (l : list (Result seen)) : nat := length (List.filter seen_of l).

Lemma seen_count_app l1 l2 : seen_count (l1 ++ l2) = (seen_count l1 + seen_count l2)%nat.
Proof. unfold seen_count. by rewrite List.filter_app, length_app. Qed.

Lemma seen_count_flat_map {A} (f : A -> list (Result seen)) l :
  seen_count (flat_map f l) = sum_list (map (fun x => seen_count (f x)) l).
Proof. induction l as [|x l IH]; [done|]. simpl. by rewrite seen_count_app, IH. Qed.

Context (o : WalkDirOptions C) (Hmin : o_min_depth o = 0) (Hmax : o_max_depth o = usize_max)
  (Hskip : o_skip_hidden o = false).

Lemma never_too_deep d : too_deep o d = false.
Proof. unfold too_deep. rewrite Hmax. apply Z.ltb_ge. unfold saturating_add. lia. Qed.

Lemma arranged_all {A} (l : list (tag * A)) : arranged o l ≡ₚ l.
Proof.
  unfold arranged. rewrite Hskip. cbn [andb negb].
  assert (List.filter (fun _ : tag * A => true) l = l) as ->
    by (clear; induction l as [|x l IH]; [done|simpl; by rewrite IH]).
  destruct (o_sort o); [apply sort_names_perm|done].
Qed.

Lemma listing_tally n : forall d parent place name hidden, 0 <= d ->
  seen_count (listing_of o d parent place (mk_tag name hidden, n)) = tally p n.
Proof.
  assert (forall d parent place name hidden n, 0 <= d ->
    seen_count (listing_of o d parent place (mk_tag name hidden, n)) =
      ((if p (node_type n) then 1 else 0) + seen_count (below o d (place name) n))%nat) as Hrow.
  { intros d parent place name hidden n' Hd. unfold listing_of, display. cbn [seen_depth fst snd tag_name].
    rewrite Hmin, (proj2 (Z.leb_le 0 d)) by done. rewrite seen_count_app. f_equal.
    unfold seen_count. simpl. by destruct (p (node_type n')). }
  induction n as [ft|ft e|ft entries IH] using node_nested_ind; intros d parent place name hidden Hd;
    rewrite Hrow by done; [done..|].
  rewrite below_folder, never_too_deep, seen_count_flat_map. cbn [node_type tally]. f_equal.
  rewrite arranged_all. assert (0 <= saturating_add d 1) by (unfold saturating_add; assert (0 < usize_max) by done; lia).
  f_equal. apply map_ext_Forall. eapply Forall_impl; [exact IH|].
  intros [[name' hidden'] n'] Hn. by apply Hn.
Qed.

(** Each node of the tree is listed once. *)
Lemma walk_tally root n : seen_count (walk_of o root n) = tally p n.
Proof. by apply listing_tally. Qed.
End Tally.

(** ** From the reads of a tree to its listing *)

Section Listing.
Context {P : Platform} {C : ClientState} (o : WalkDirOptions C)
  (callback : ReadDirSpec.t C -> Result (ReadDir.t C)).
Abbreviation st := (o_root_read_dir_state o).

(** The spec of a directory of the walk. *)
Definition spec_at (d : Z) (path : Path) : ReadDirSpec.t C := {|
  ReadDirSpec.depth := d;
  ReadDirSpec.path := path;
  ReadDirSpec.client_read_state := st;
  ReadDirSpec.follow_link_ancestors := None;
|}.

(** [r] is the entry of [x]. *)
Definition shows (d : Z) (parent : Path) (place : OsString -> Path) (x : tag * node)
    (r : Result (DirEntry.t C)) : Prop :=
  exists e, r = Ok e /\
    view r = Ok (mk_seen d parent (tag_name (fst x)) (node_type (snd x)) None) /\
    DirEntry.follow_link_ancestors e = None /\
    DirEntry.read_children_path e =
      if is_dir (node_type (snd x)) then Some (place (tag_name (fst x))) else None.

(** The reading of [spec] succeeds, with these results. *)
Definition gives (spec : ReadDirSpec.t C) (rs : list (Result (DirEntry.t C))) : Prop :=
  exists rd, callback spec = Ok rd /\ ReadDir.read_dir_state rd = st /\ ReadDir.results_list rd = rs.

(** What reading the directory [n] at [path] gives. *)
Definition answers (d : Z) (path : Path) (n : node) : Prop :=
  match n with
  | Leaf ft => is_dir ft = false
  | Locked ft e =>
      is_dir ft = true /\
      if too_deep o d then gives (spec_at d path) []
      else callback (spec_at d path) = Err (Error.from_path 0 path e)
  | Folder ft entries =>
      is_dir ft = true /\ exists rs, gives (spec_at d path) rs /\
        if too_deep o d then rs = []
        else Forall2 (shows (saturating_add d 1) path (path_join path)) (arranged o entries) rs
  end.

(** Every directory of the tree is read so. *)
Inductive hosted : Z -> Path -> node -> Prop :=
| mk_hosted d path n :
    answers d path n ->
    (too_deep o d = false ->
     Forall (fun x => hosted (saturating_add d 1) (path_join path (tag_name (fst x))) (snd x))
       (contents n)) ->
    hosted d path n.

Lemma hosted_inv d path n :
  hosted d path n -> answers d path n /\
    (too_deep o d = false ->
     Forall (fun x => hosted (saturating_add d 1) (path_join path (tag_name (fst x))) (snd x))
       (contents n)).
Proof. by inversion 1. Qed.

(** The reads of [n] are [t], and what they list is what the tree says. *)
Definition represents (d : Z) (path : Path) (n : node) (t : tree (Result (ReadDir.t C))) : Prop :=
  reads callback (spec_at d path) t /\ length (preorder t) = directories o d n /\
  match t with
  | Node (Err e) ts => ts = [] /\ denied o d path n = Some e /\ below o d path n = []
  | Node (Ok rd) ts => denied o d path n = None /\
      exists out, emits (o_min_depth o) (ReadDir.results_list rd) (flat_map preorder ts) out /\
        map view out = below o d path n
  end.

Lemma view_shown md (e : DirEntry.t C) s :
  view (Ok e) = Ok s -> map view (shown md e) = if md <=? seen_depth s then [Ok s] else [].
Proof.
  unfold view, shown. simpl. intros [= <-]. simpl. by destruct (md <=? DirEntry.depth e).
Qed.

Lemma view_error (e : DirEntry.t C) d p name ft err :
  view (Ok e) = Ok (mk_seen d p name ft None) ->
  view (Ok (DirEntry.set_read_children_error e err)) = Ok (mk_seen d p name ft err).
Proof. unfold view. simpl. by intros [= <- <- <- <- _]. Qed.

(** Metadata does not matter. *)
Lemma shows_bare d parent place xs rs :
  Forall2 (shows d parent place) xs (map bare_entry rs) -> Forall2 (shows d parent place) xs rs.
Proof.
  revert xs. induction rs as [|r rs IH]; intros xs H; simpl in H.
  - by apply Forall2_nil_inv_r in H as ->.
  - apply Forall2_cons_inv_r in H as (x & xs' & (e & Er & Hv & Ha & Hc) & H & ->).
    constructor; [|by apply IH]. destruct r as [e'|err]; simpl in Er; simplify_eq. by exists e'.
Qed.

(** Sorting by name. *)
Lemma shows_sort d parent place xs rs :
  Forall2 (shows d parent place) xs rs ->
  Forall2 (shows d parent place) (sort_names xs) (sort_dir_entries_by_name rs).
Proof.
  assert (forall x r xs rs, shows d parent place x r -> Forall2 (shows d parent place) xs rs ->
    Forall2 (shows d parent place) (insert_name x xs) (insert_entry r rs)) as Hins.
  { clear xs rs. intros x r xs rs Hx. induction 1 as [|y s xs rs Hy Hrest IH]; simpl; [by repeat constructor|].
    assert (entry_cmp r s = os_str_cmp (tag_name (fst x)) (tag_name (fst y))) as ->.
    { destruct Hx as (e & -> & He & _), Hy as (e' & -> & He' & _). unfold view in *. simpl in *.
      injection He as _ _ <- _ _. by injection He' as _ _ <- _ _. }
    destruct (os_str_cmp _ _); by repeat constructor. }
  induction 1; simpl; [constructor|]. by apply Hins.
Qed.

(** The spec of an entry. *)
Lemma shows_spec d parent place x r :
  shows d parent place x r ->
  ReadDir.child_spec st r =
    if is_dir (node_type (snd x)) then Some (spec_at d (place (tag_name (fst x)))) else None.
Proof.
  intros (e & -> & Hv & Ha & Hc). unfold ReadDir.child_spec, DirEntry.read_children_spec. simpl.
  rewrite Hc. destruct (is_dir _); [|done]. unfold view in Hv. simpl in Hv.
  injection Hv as Hd. by rewrite Ha, Hd.
Qed.

(** The entries of a directory, given the reads of those that are directories. *)
Lemma entries_listing d parent place xs rs :
  Forall2 (shows d parent place) xs rs ->
  Forall (fun x =>
    if is_dir (node_type (snd x)) then exists t, represents d (place (tag_name (fst x))) (snd x) t
    else directories o d (snd x) = 0%nat /\ contents (snd x) = [] /\
         denied o d (place (tag_name (fst x))) (snd x) = None) xs ->
  exists ts out, Forall2 (reads callback) (omap (ReadDir.child_spec st) rs) ts /\
    emits (o_min_depth o) rs (flat_map preorder ts) out /\
    map view out = flat_map (listing_of o d parent place) xs /\
    length (flat_map preorder ts) = sum_list (map (fun x => directories o d (snd x)) xs).
Proof.
  induction 1 as [|x r xs rs Hx _ IH]; intros Hxs.
  { exists [], []. split_and!; constructor. }
  apply Forall_cons in Hxs as [Hn Hxs]. destruct (IH Hxs) as (ts & out & Hts & Hout & Hv & Hl).
  pose proof (shows_spec _ _ _ _ _ Hx) as Hs. destruct Hx as (e & -> & He & _ & Hc).
  cbn [omap list_omap]. rewrite Hs. cbn [map flat_map]. unfold listing_of at 1, display. cbn [seen_depth].
  destruct (is_dir (node_type (snd x))).
  - destruct Hn as [[[rd|err] ts1] (Ht & Hlen & Hrest)].
    + destruct Hrest as (Hd & out1 & Hout1 & Hv1).
      exists (Node (Ok rd) ts1 :: ts), (shown (o_min_depth o) e ++ out1 ++ out). split_and!.
      * by constructor.
      * simpl. by eapply emits_dir.
      * rewrite !map_app, (view_shown _ _ _ He), Hv1, Hv, Hd. cbn [seen_depth]. by rewrite <- app_assoc.
      * cbn [flat_map]. rewrite length_app, Hl, Hlen. done.
    + destruct Hrest as (-> & Hd & Hb).
      exists (Node (Err err) [] :: ts), (shown (o_min_depth o) (DirEntry.set_read_children_error e (Some err)) ++ out).
      split_and!.
      * by constructor.
      * simpl. by eapply emits_failed.
      * rewrite map_app, Hv, Hd, Hb, app_nil_r.
        by rewrite (view_shown _ _ _ (view_error _ _ _ _ _ (Some err) He)).
      * cbn [flat_map]. rewrite length_app, Hl, Hlen. done.
  - destruct Hn as (Hd0 & Hcont & Hden). exists ts, (shown (o_min_depth o) e ++ out). split_and!.
    + done.
    + by apply emits_leaf.
    + rewrite map_app, (view_shown _ _ _ He), Hv, Hden. cbn [seen_depth].
      assert (below o d (place (tag_name (fst x))) (snd x) = []) as ->; [|by rewrite app_nil_r].
      destruct (snd x) as [| |ft entries]; [done..|]. simpl in Hcont. subst. simpl.
      destruct (too_deep o d); [done|]. unfold arranged. simpl. by destruct (o_sort o).
    + by rewrite Hl, Hd0.
Qed.

(** A directory in which nothing is found. *)
Lemma gives_nothing d path n :
  gives (spec_at d path) [] -> directories o d n = 1%nat -> denied o d path n = None ->
  below o d path n = [] -> exists t, represents d path n t.
Proof.
  intros (rd & Hrd & _ & Hl) Hn Hd Hb. exists (Node (Ok rd) []). split_and!; [|done..|].
  - rewrite <- Hrd. constructor. rewrite Hrd. simpl. unfold ReadDir.read_children_specs.
    rewrite Hl. constructor.
  - exists []. rewrite Hl. split; [constructor|done].
Qed.

(** Every node of the tree. *)
Lemma hosted_node n : forall d path, hosted d path n ->
  if is_dir (node_type n) then exists t, represents d path n t
  else directories o d n = 0%nat /\ contents n = [] /\ denied o d path n = None.
Proof.
  induction n as [ft|ft e|ft entries IH] using node_nested_ind; intros d path Hh;
    apply hosted_inv in Hh as [Ha Hc]; simpl in Ha; cbn [node_type].
  - by rewrite Ha.
  - destruct Ha as [-> Ha]. destruct (too_deep o d) eqn:Ed.
    + apply gives_nothing; simpl; by rewrite ?Ed.
    + exists (Node (callback (spec_at d path)) []). rewrite Ha.
      split; [rewrite <- Ha; constructor; rewrite Ha; constructor|]. split; [done|].
      by simpl; rewrite ?Ed.
  - destruct Ha as (-> & rs & Hg & Hlist). cbn [contents] in Hc.
    destruct (too_deep o d) eqn:Ed.
    { subst. apply gives_nothing; [done|by rewrite directories_folder, Ed|done|by rewrite below_folder, Ed]. }
    destruct Hg as (rd & Hrd & Hst & <-).
    specialize (Hc eq_refl).
    destruct (entries_listing (saturating_add d 1) path (path_join path) (arranged o entries)
      (ReadDir.results_list rd) Hlist) as (ts & out & Hts & Hout & Hv & Hl).
    { apply arranged_elem. clear -IH Hc. induction IH as [|x xs Hx _ IH]; [constructor|].
      apply Forall_cons in Hc as [Hc1 Hc2]. constructor; [by apply Hx|by apply IH]. }
    exists (Node (Ok rd) ts). split_and!.
    + rewrite <- Hrd. constructor. rewrite Hrd. simpl. unfold ReadDir.read_children_specs. by rewrite Hst.
    + cbn [preorder length]. by rewrite directories_folder, Ed, Hl.
    + done.
    + exists out. by rewrite below_folder, Ed.
Qed.
End Listing.

(** ** A reader of the directories of a tree *)

(** [serves th path n]: in the state [th] the system has the directory [n] at [path].
    The reader then gives the entries of [n], in the order of the options, or its error,
    and what it does for the parallel walk is [regular]. *)
Class TreeReader {P : Platform} {C : ClientState} {TH : Type} {HR : DirReader TH}
    (fs : FileSystem) (o : WalkDirOptions C) (serves : TH -> Path -> node -> Prop) : Prop := {
  tree_regular th path n rdd d :
    serves th path n -> 0 < d ->
    regular th (fun _ => True)
      (read_dir fs (read_options o) path rdd d None (o_root_read_dir_state o));
  tree_read th path n rdd d :
    serves th path n -> 0 < d ->
    let op := read_dir fs (read_options o) path rdd d None (o_root_read_dir_state o) in
    match n with
    | Leaf _ => True
    | Locked _ e => forall ctx, op ctx th = Returns (Ret (Err (Error.from_path 0 path e), th))
    | Folder _ entries => exists rd th', undisturbed (op None th) = ([], Ret (Ok rd, th')) /\
        ReadDir.read_dir_state rd = o_root_read_dir_state o /\
        Forall2 (shows d path (path_join path)) (arranged o entries) (ReadDir.results_list rd)
    end;
}.

Section Readers.
Context {P : Platform} {C : ClientState} {TH : Type} {HR : DirReader TH}.
Context (fs : FileSystem) (o : WalkDirOptions C) (th_of : ReadDirSpec.t C -> TH)
  (serves : TH -> Path -> node -> Prop) {HT : TreeReader fs o serves}.
Context (Hretries : 0 <= o_max_retries o) (Hfollow : o_follow_links o = false)
  (Hprocess : o_process_read_dir o = None).

(** The tree [n] is at [path], at depth [d] of the walk: each directory that is read is
    served in its own state. *)
Inductive on_disk : Z -> Path -> node -> Prop :=
| mk_on_disk d path n :
    match n with
    | Leaf ft => is_dir ft = false
    | Locked ft _ | Folder ft _ =>
        is_dir ft = true /\ (too_deep o d = false -> serves (th_of (spec_at o d path)) path n)
    end ->
    (too_deep o d = false ->
     Forall (fun x => on_disk (saturating_add d 1) (path_join path (tag_name (fst x))) (snd x))
       (contents n)) ->
    on_disk d path n.

(** The directories of the tree are its nodes of that type. *)
Lemma directories_tally n : forall d path,
  o_max_depth o = usize_max -> o_skip_hidden o = false -> on_disk d path n ->
  directories o d n = tally is_dir n.
Proof.
  induction n as [ft|ft e|ft entries IH] using node_nested_ind; intros d path Hm Hs H;
    inversion H as [? ? ? Hn Hc]; subst; [simpl; by rewrite Hn|simpl; by rewrite (proj1 Hn)|].
  specialize (Hc (never_too_deep o Hm d)). cbn [contents tally node_type] in *.
  rewrite directories_folder, never_too_deep, (proj1 Hn) by done. simpl. f_equal.
  rewrite arranged_all by done. f_equal. apply map_ext_Forall. clear -IH Hc Hm Hs.
  induction IH as [|x xs Hx _ IH]; [constructor|]. apply Forall_cons in Hc as [Hc1 Hc2].
  constructor; [by eapply Hx|by apply IH].
Qed.

Lemma deeper d : 0 <= d -> 0 < saturating_add d 1.
Proof. unfold saturating_add. assert (0 < usize_max) by done. lia. Qed.

Lemma serial_empty d path :
  too_deep o d = true -> gives o (serial_read fs o th_of) (spec_at o d path) [].
Proof.
  unfold too_deep. intros Hd. exists (ReadDir.new (o_root_read_dir_state o) []). split; [|done].
  unfold serial_read, core_read_dir_callback. cbn [spec_at ReadDirSpec.depth]. by rewrite Hd.
Qed.

Lemma serial_answers d path n : 0 <= d -> on_disk d path n -> answers o (serial_read fs o th_of) d path n.
Proof.
  intros Hd0 H. inversion H as [? ? ? Hn _]; subst. clear H.
  assert (forall ft, is_dir ft = true /\ (too_deep o d = false -> serves (th_of (spec_at o d path)) path n) ->
    is_dir ft = true /\ (too_deep o d = false ->
      let op := read_dir fs (read_options o) path d (saturating_add d 1) None (o_root_read_dir_state o) in
      serial_read fs o th_of (spec_at o d path) =
        settle (snd (undisturbed (retry_read o op (seqZ 0 (o_max_retries o + 1)) None
          (th_of (spec_at o d path))))) /\ serves (th_of (spec_at o d path)) path n)) as Hread.
  { intros ft [Hft Hs]. split; [done|]. intros Hd. split; [|auto].
    unfold serial_read, core_read_dir_callback, extend_ancestors.
    unfold too_deep in Hd. cbn [spec_at ReadDirSpec.depth ReadDirSpec.path
      ReadDirSpec.follow_link_ancestors ReadDirSpec.client_read_state]. by rewrite Hd, Hfollow. }
  pose proof (deeper d Hd0) as Hpos.
  destruct n as [ft|ft e|ft entries]; [done|apply Hread in Hn as [Hft Hn]..];
    (split; [done|]); destruct (too_deep o d) eqn:Ed.
  - by apply serial_empty.
  - destruct (Hn eq_refl) as [-> Hs].
    by rewrite (retry_always_fails o Hretries _ (Error.from_path 0 path e)
      (th_of (spec_at o d path)) (tree_read _ path (Locked ft e) d _ Hs Hpos)).
  - exists []. split; [by apply serial_empty|done].
  - destruct (Hn eq_refl) as [E Hs].
    destruct (tree_read _ path (Folder ft entries) d _ Hs Hpos) as (rd & th' & Hop & Hst & Hrs).
    exists (ReadDir.results_list rd). split; [|done]. exists rd. rewrite E.
    by rewrite (retry_first o Hretries _ None _ rd [] th' Hop).
Qed.

Lemma on_disk_hosted (callback : ReadDirSpec.t C -> Result (ReadDir.t C)) n : forall d path,
  (forall d path n, 0 <= d -> on_disk d path n -> answers o callback d path n) ->
  0 <= d -> on_disk d path n -> hosted o callback d path n.
Proof.
  induction n as [ft|ft e|ft entries IH] using node_nested_ind; intros d path Ha Hd H;
    (constructor; [by apply Ha|]); inversion H as [? ? ? _ Hc]; subst; intros Ed;
    specialize (Hc Ed); try constructor.
  cbn [contents] in *. pose proof (deeper d Hd). clear H.
  induction IH as [|x xs Hx _ IH]; [constructor|]. apply Forall_cons in Hc as [Hc1 Hc2].
  constructor; [apply Hx; [done|lia|done]|by apply IH].
Qed.

(** The specs of the directories of a tree. *)
Definition in_tree (spec : ReadDirSpec.t C) : Prop := exists d path n,
  spec = spec_at o d path /\ 0 <= d /\ is_dir (node_type n) = true /\ on_disk d path n.

Lemma settled_any spec : in_tree spec -> settled fs o th_of (fun _ => True) spec.
Proof.
  intros (d & path & n & -> & Hd & Hdir & H). apply regular_settled; [done|].
  cbn [spec_at ReadDirSpec.depth ReadDirSpec.path ReadDirSpec.follow_link_ancestors
    ReadDirSpec.client_read_state]. intros Hdeep. unfold extend_ancestors. rewrite Hfollow.
  assert (too_deep o d = false) as Ed by (by apply Z.ltb_ge).
  inversion H as [? ? ? Hn _]; subst.
  apply (tree_regular _ _ n); [|by apply deeper].
  destruct n as [ft|ft e|ft entries]; [simpl in Hdir; congruence|by apply Hn..].
Qed.

(** The same reads in parallel mode, but for the number of those streamed. *)
Lemma parallel_answers d path n :
  0 <= d -> on_disk d path n -> answers o (parallel_read fs o th_of) d path n.
Proof.
  intros Hd H. pose proof (serial_answers d path n Hd H) as Ha.
  assert (is_dir (node_type n) = true -> serial_read fs o th_of (spec_at o d path) =
    unstreamed (parallel_read fs o th_of (spec_at o d path))) as E.
  { intros Hdir. destruct (settled_any (spec_at o d path)) as [[e He]|(rd & _ & _ & He)];
      [by exists d, path, n|destruct (He no_ctx) as [Ep Es]|destruct (He no_ctx) as (ws & _ & [Ep Es])];
      unfold parallel_read; by rewrite Ep, Es. }
  assert (is_dir (node_type n) = true -> forall rs, gives o (serial_read fs o th_of) (spec_at o d path) rs ->
    gives o (parallel_read fs o th_of) (spec_at o d path) rs) as Hg.
  { intros Hdir rs (rd & Hrd & Hst & Hrs). rewrite E in Hrd by done. unfold gives.
    destruct (parallel_read _ _ _ _) as [rd'|]; [|done]. exists rd'. simpl in Hrd. by simplify_eq/=. }
  destruct n as [ft|ft e|ft entries]; [done|..].
  - destruct Ha as [Hft Ha]. split; [done|]. destruct (too_deep o d); [by apply Hg|].
    rewrite E in Ha by done. by destruct (parallel_read _ _ _ _); simplify_eq/=.
  - destruct Ha as (Hft & rs & Ha & Hrs). split; [done|]. exists rs. split; [by apply Hg|done].
Qed.

Lemma entries_in_tree d path xs rs :
  0 <= d -> Forall2 (shows d path (path_join path)) xs rs ->
  Forall (fun x => on_disk d (path_join path (tag_name (fst x))) (snd x)) xs ->
  Forall in_tree (omap (ReadDir.child_spec (o_root_read_dir_state o)) rs).
Proof.
  intros Hd. induction 1 as [|x r xs rs Hx _ IH]; intros H; [constructor|].
  apply Forall_cons in H as [H1 H2]. cbn [omap list_omap]. rewrite (shows_spec o _ _ _ _ _ Hx).
  destruct (is_dir (node_type (snd x))) eqn:E; [|by apply IH]. constructor; [|by apply IH].
  by eexists _, _, (snd x).
Qed.

Lemma tree_settled spec : in_tree spec -> settled fs o th_of in_tree spec.
Proof.
  intros Hv. eapply settled_children; [by apply settled_any|].
  destruct Hv as (d & path & n & -> & Hd & Hdir & H). pose proof (parallel_answers d path n Hd H) as Ha.
  inversion H as [? ? ? _ Hc]; subst. pose proof (deeper d Hd).
  assert (forall rs, gives o (parallel_read fs o th_of) (spec_at o d path) rs ->
    Forall in_tree (omap (ReadDir.child_spec (o_root_read_dir_state o)) rs) ->
    Forall in_tree (children (parallel_read fs o th_of (spec_at o d path)))) as Hg.
  { intros rs (rd & -> & <- & <-). done. }
  destruct n as [ft|ft e|ft entries]; simpl in Hdir, Ha; [congruence|..].
  - destruct Ha as [_ Ha]. destruct (too_deep o d); [|by rewrite Ha]. apply (Hg _ Ha). constructor.
  - destruct Ha as (_ & rs & Ha & Hrs). apply (Hg _ Ha). destruct (too_deep o d); [by subst|].
    eapply entries_in_tree; [|exact Hrs|]; [lia|]. by apply arranged_elem, Hc.
Qed.

(** ** The walk of a tree *)

Context (root : Path) (md : fs_Metadata) (n : node).
Context (Hmd : fs_symlink_metadata fs root = Ok md) (Htype : md_file_type md = node_type n)
  (Hdir : is_dir (node_type n) = true) (Hlink : is_symlink (node_type n) = false)
  (Hdisk : on_disk 0 root n).

(** The entry of the root. *)
Lemma root_shows : exists e, root_entries fs o root = ([e], o_root_read_dir_state o) /\
  shows 0 (default [] (path_parent root)) (fun _ => root)
    (mk_tag (default root (path_file_name root)) false, n) e.
Proof.
  unfold root_entries. rewrite Hprocess, Hfollow. unfold DirEntry.from_path. rewrite Hmd.
  cbn [res_map_err res_bind]. rewrite Htype. destruct (if o_read_metadata o then _ else _) as [m x].
  cbn [process_dir_entry_result res_bind andb negb DirEntry.depth DirEntry.file_type].
  rewrite Hlink, andb_false_r. eexists. split; [done|]. eexists. split; [done|]. by split_and!.
Qed.

Lemma root_listing (callback : ReadDirSpec.t C -> Result (ReadDir.t C)) :
  (forall d path n, 0 <= d -> on_disk d path n -> answers o callback d path n) ->
  exists e t out, root_entries fs o root = ([e], o_root_read_dir_state o) /\
    omap (ReadDir.child_spec (o_root_read_dir_state o)) [e] = [spec_at o 0 root] /\
    reads callback (spec_at o 0 root) t /\ length (labels [0%Z] t) = directories o 0 n /\
    emits (o_min_depth o) [e] (preorder t) out /\ map view out = walk_of o root n.
Proof.
  intros Ha. destruct root_shows as (e & He & Hs).
  pose proof (on_disk_hosted callback n 0 root Ha ltac:(lia) Hdisk) as Hh.
  pose proof (hosted_node o callback n 0 root Hh) as Hn.
  destruct (entries_listing o callback 0 _ _ [_] [e] (List.Forall2_cons _ _ Hs (List.Forall2_nil _)))
    as (ts & out & Hts & Hout & Hv & Hl); [by repeat constructor|].
  pose proof (shows_spec o _ _ _ _ _ Hs) as E. cbn [snd fst] in E. rewrite Hdir in E.
  assert (omap (ReadDir.child_spec (o_root_read_dir_state o)) [e] = [spec_at o 0 root]) as E1
    by (cbn [omap list_omap]; by rewrite E).
  rewrite E1 in Hts. apply Forall2_cons_inv_l in Hts as (t & ts' & Ht & Hts & ->).
  inversion Hts; subst. simpl in Hout, Hl, Hv. rewrite app_nil_r in Hout, Hl, Hv.
  exists e, t, out. split_and!; try done.
  rewrite <- (length_map Ordered.value (labels [0] t)), labels_values. lia.
Qed.

(** The walk of a tree lists what the tree says it should, in both modes; the parallel one
    when there is a thread and room in the channels for the directories. *)
Lemma tree_walk :
  exists out fuel0, map view out = walk_of o root n /\
    (forall num_threads capacity,
      o_parallelism o <> Serial ->
      Z.of_nat (directories o 0 n) + 2 * Z.of_nat num_threads <= usize_max ->
      (0 < num_threads)%nat -> (directories o 0 n <= capacity)%nat ->
      walk_lists fs o th_of num_threads capacity root out) /\
    forall E (HW : World.World E (Ordered.t (Result (ReadDir.t C)))) (e : E) f, (fuel0 <= f)%nat ->
      iterates (DirEntryIter.next (ReadDirIter.next (serial_read fs o th_of) f) f)
        (into_iter fs (build o (parallelism Serial)) root true (fun _ => e)) out.
Proof.
  destruct (root_listing _ parallel_answers) as (e & t & out & He & Hs & Ht & Hl & Hout & Hv).
  assert (in_tree (spec_at o 0 root)) as Hin by (by exists 0, root, n).
  pose proof (reads_unstreamed fs o th_of in_tree tree_settled _ _ Hin Ht) as Ht'.
  destruct (listing (serial_read fs o th_of) (o_root_read_dir_state o) [e] [tree_map unstreamed t]
    (o_min_depth o)) as (out2 & f2 & Hout2 & Y); [rewrite Hs; by constructor|].
  simpl in Hout2, Y. rewrite app_nil_r, preorder_map in *.
  assert (out2 = out) as -> by (eapply emits_det; [exact Hout2|by apply emits_unstreamed]).
  exists out, f2. split_and!; [done|..].
  { intros num_threads capacity Hpar Hb Hn Hc.
    destruct (walk_modes_agree (E := World.script (Ordered.t (Result (ReadDir.t C)))) fs o th_of in_tree
      tree_settled num_threads capacity root [e] _ _ t Hpar He Hs Hin Ht) as (out1 & f1 & Hout1 & _ & H);
      [by rewrite Hl|].
    assert (out1 = out) as -> by (by eapply emits_det). apply H; [done|]. by rewrite Hl. }
  intros E HW' e' f Hf.
  destruct (into_iter_serial fs o root [e] _ (fun _ => e') He) as (stop & ->). rewrite Hs.
  eexists. split; [done|]. apply Y; [done|].
  rewrite <- preorder_map. by apply serial_root.
Qed.
End Readers.
