(* ===== verification/UnixWalk.v ===== *)
(** * The walk on Unix: [WalkDir] over [read_dir_linux_via_getdents] and over
    [read_dir_unix_fs_legacy]

    The two readers as instances of [DirReader]: their entries are well formed, and
    they keep the contract of the parallel walk, so the two modes list the same
    entries. *)
From S2P Require Import Prelude Order Tree World Error Platform DirEntry Callback Std Metadata.
From S2P Require Import UnixEnum FsDetect IoUring LinuxReadDir LegacyReadDir OrderedQueue ReadDirIter DirEntryIter.
From S2P Require Import ParWalk ParComplete WalkDir WalkTypes WalkModes.

Section Reader.
Context {C : ClientState} {K : Type} {HS : Sys K} {HF : FsSys K} {HR : Ring K}.

(** [read_dir_unix] with the options of the walk. *)
#[local] Instance linux_reader (fuel : nat) : DirReader (C := C) (thread (K := K)) := {
  read_dir fs r path read_dir_depth read_dir_contents_depth follow_link_ancestors
      client_read_state streaming_ctx th :=
    read_dir_linux_via_getdents fs (r_follow_links r) (r_read_metadata r) (r_read_metadata_ext r)
      (r_skip_hidden r) (r_sort r) (r_process_read_dir r) fuel path read_dir_depth
      read_dir_contents_depth follow_link_ancestors client_read_state streaming_ctx th
}.

(** ** Its entries are well formed *)

Context (fs : FileSystem) (r : ReadOptions C) (fuel : nat).
Abbreviation follow := (r_follow_links r).

Lemma make_dir_entry_made md ext info d path fd anc (k : K) :
  0 <= d ->
  match make_dir_entry_linux (C := C) md ext info d path fd anc k with
  | Ret (r, _) => made follow d r
  | _ => True
  end.
Proof.
  intros Hd. unfold make_dir_entry_linux. destruct (try_fill_from_statx _ _ _ _) as [[b p]| |]; simpl; [|done..].
  match goal with |- context [exec_bind ?r _] => destruct r as [[p' k']| |] end; [|done..].
  by apply from_raw_made.
Qed.

Lemma build_entries_made md ext skip infos d path fd anc (k : K) :
  0 < d ->
  match build_entries fs follow md ext skip infos d path fd anc k with
  | Ret (l, _) => Forall (made follow d) l
  | _ => True
  end.
Proof.
  intros Hd. revert k. induction infos as [|info infos IH]; intros k; cbn [build_entries]; [constructor|].
  destruct (_ && _); [apply IH|].
  pose proof (make_dir_entry_made md ext info d path fd anc k ltac:(lia)) as Hm.
  destruct (make_dir_entry_linux _ _ _ _ _ _ _ _) as [[r1 k1]| |]; cbn [exec_bind]; [|done..].
  specialize (IH k1). destruct (build_entries _ _ _ _ _ infos _ _ _ _ k1) as [[l k2]| |];
    cbn [exec_bind]; [|done..].
  constructor; [|done]. destruct r1 as [e|err]; [|done]. apply process_made; [lia|done].
Qed.

Lemma finish_read_dir_contents path rdd d anc st res (th : thread (K := K)) n :
  0 < d -> (is_Some (r_process_read_dir r) -> n = 0) ->
  contents r path rdd d st (finish_read_dir fs follow (r_read_metadata r) (r_read_metadata_ext r)
    (r_skip_hidden r) (r_sort r) (r_process_read_dir r) path rdd d anc st res th n).
Proof.
  intros Hd Hn. unfold finish_read_dir. destruct res as [[fd entries]|e]; simpl.
  - destruct (prefetch_statx _ _ _ _ _ _) as [en th1].
    pose proof (build_entries_made (r_read_metadata r) (r_read_metadata_ext r) (r_skip_hidden r) en d
      path fd anc (th_kernel th1) Hd) as H.
    destruct (build_entries _ _ _ _ _ _ _ _ _ _ _) as [[l k]| |]; simpl; [|done..].
    set (l' := if r_sort r then _ else _).
    assert (Forall (made follow d) l') as Hl by (unfold l'; destruct (r_sort r); [by apply sort_made|done]).
    destruct (r_process_read_dir r) as [process|] eqn:Ep; [destruct (process _ _ _ l') as [st' l2] eqn:E|];
      exists l'; split; try done; by rewrite Ep.
  - destruct (Z.ltb_spec 0 n); simpl; [|done]. exists [Err (Error.from_path 0 path e)].
    split; [by repeat constructor|]. destruct (r_process_read_dir r); [|done].
    rewrite Hn in *; [lia|by eexists].
Qed.

Lemma schedule_subdirs_returns {R} (Q : R -> Prop) skip ctx path d st anc infos n
    (finish : Z -> run_of C R) :
  (forall n, all_returns Q (finish n)) ->
  all_returns Q (schedule_subdirs skip ctx path d st anc infos n finish).
Proof.
  intros H. revert n. induction infos as [|info infos IH]; intros n; simpl; [apply H|].
  intros []; [apply IH|]. destruct (negb _); [apply IH|]. destruct (_ && _); [apply IH|]. simpl.
  intros b. apply IH.
Qed.

(** A reading calls the enumeration, perhaps schedules, and finishes. *)
Lemma linux_reader_returns (Q : exec (Result (ReadDir.t C) * thread (K := K)) -> Prop)
    path rdd d anc st ctx (th : thread (K := K)) :
  Q Panic -> Q NoFuel ->
  (forall res th n, (is_Some (r_process_read_dir r) -> n = 0) -> Q (finish_read_dir fs follow (r_read_metadata r) (r_read_metadata_ext r)
     (r_skip_hidden r) (r_sort r) (r_process_read_dir r) path rdd d anc st res th n)) ->
  all_returns Q (read_dir (DirReader := linux_reader fuel) fs r path rdd d anc st ctx th).
Proof.
  intros H1 H2 H. simpl. unfold read_dir_linux_via_getdents.
  destruct (enumerate_dir_unix fuel path (th_tls th) (th_kernel th)) as [[res k]| |] eqn:E;
    destruct ctx as [ctx|], (r_sort r) eqn:Es, (r_process_read_dir r) eqn:Ep;
    cbn [all_returns]; try (by apply H); try done.
  all: destruct (enumerate_dir_unix_streaming _ _ _ _ _ _) as [[[res' infos] k']| |]; try done.
  all: apply schedule_subdirs_returns; intros n; simpl; apply H; by intros [? ?].
Qed.
End Reader.

#[export] Instance linux_reader_wf {C : ClientState} {K : Type} {HS : Sys K} {HF : FsSys K} {HR : Ring K} (fuel : nat) :
  DirReaderWf (C := C) (thread (K := K)) (DirReader0 := linux_reader fuel).
Proof.
  intros fs r path rdd d anc st ctx th Hd.
  apply linux_reader_returns; [done..|]. intros. by apply finish_read_dir_contents.
Qed.

(** ** It keeps the contract of the parallel walk *)

Section Contract.
Context {C : ClientState} {K : Type} {HS : Sys K} {HF : FsSys K} {HR : Ring K}.
Context (fs : FileSystem) (o : WalkDirOptions C) (fuel : nat)
  (th_of : ReadDirSpec.t C -> thread (K := K)).
#[local] Existing Instance linux_reader.
Abbreviation read_dir_unix := (read_dir (DirReader := linux_reader fuel) fs (read_options o)).

Lemma linux_oblivious : whole_listing o -> oblivious (HR := linux_reader fuel) fs o.
Proof.
  intros H path rdd d anc st ctx th. unfold whole_listing in H.
  set (plain := match enumerate_dir_unix fuel path (th_tls th) (th_kernel th) with
    | Ret (res, k) => finish_read_dir fs (o_follow_links o) (o_read_metadata o)
        (o_read_metadata_ext o) (o_skip_hidden o) (o_sort o) (o_process_read_dir o) path rdd d anc st
        res (set_kernel th k) 0
    | Panic => Panic
    | NoFuel => NoFuel
    end).
  assert (forall ctx, read_dir_unix path rdd d anc st ctx th = Returns plain) as E.
  { clear ctx. intros ctx. simpl. unfold plain, read_dir_linux_via_getdents.
    destruct (enumerate_dir_unix _ _ _ _) as [[res k]| |];
      destruct ctx, (o_sort o), (o_process_read_dir o), H as [|[? ?]]; done. }
  exists plain. split_and!; [apply E..|]. unfold plain.
  destruct (enumerate_dir_unix _ _ _ _) as [[[[fd entries]|e] k]| |]; [|done..].
  unfold finish_read_dir. destruct (prefetch_statx _ _ _ _ _ _) as [en th1].
  destruct (build_entries _ _ _ _ _ _ _ _ _ _ _) as [[l k']| |]; simpl; [|done..].
  destruct (o_process_read_dir o) as [process|]; [|done]. by destruct (process _ _ _ _).
Qed.

(** In the state [th] a path can be listed, all its entries having a known type, or not be
    opened. *)
Definition readable (th : thread (K := K)) (path : Path) : Prop :=
  (exists entries, listable fuel path (th_kernel th) entries /\ Forall typed entries /\
     Z.of_nat (length entries) <= usize_max) \/
  (exists e, open_dir_fd path (th_kernel th) = (Err e, th_kernel th)).

Section Streaming.
Context {HK : SaneKernel K}.
Context (Hfollow : o_follow_links o = false) (Hsort : o_sort o = false)
  (Hprocess : o_process_read_dir o = None).

Lemma linux_fails th path rdd d anc st ctx e :
  open_dir_fd path (th_kernel th) = (Err e, th_kernel th) ->
  read_dir_unix path rdd d anc st ctx th = Returns (Ret (Err (Error.from_path 0 path e), th)).
Proof.
  clear Hsort Hprocess. intros He. simpl. unfold read_dir_linux_via_getdents.
  unfold enumerate_dir_unix_streaming, enumerate_dir_unix. rewrite He.
  by destruct ctx, (o_sort o), (o_process_read_dir o); destruct th.
Qed.

Lemma linux_regular th path rdd d anc st :
  readable th path -> 0 < d -> regular th deep (read_dir_unix path rdd d anc st).
Proof.
  intros Hread Hd. destruct Hread as [(entries & Hl & Ht & Hb)|[e He]].
  2: { left. eexists. intros ctx. by apply linux_fails. }
  right. cbn [read_dir linux_reader read_options r_follow_links r_read_metadata r_read_metadata_ext
    r_skip_hidden r_sort r_process_read_dir]. rewrite Hfollow, Hsort, Hprocess. assert (d <> 0) as Hne by lia.
  pose proof (fun ctx => read_dir_streams fs (o_read_metadata o) (o_read_metadata_ext o)
    (o_skip_hidden o) fuel path rdd d anc st ctx th entries Hl Ht Hne Hb) as Hstreams.
  destruct (Hstreams no_ctx) as (es & ws0 & th' & _ & Hplain & Hn & Hc & _).
  set (children := ReadDir.read_children_specs (ReadDir.mk st (map Ok es) 0)).
  exists (ReadDir.mk st (map Ok es) (Z.of_nat (length children))), th'. split_and!.
  - change (ReadDir.read_children_specs _) with
      (ReadDir.read_children_specs (ReadDir.mk st (map Ok es) (Z.of_nat (length ws0)))).
    rewrite Hc. apply Forall_map, Forall_true. intros info. unfold deep. simpl. lia.
  - apply (f_equal length) in Hn. rewrite !length_map in Hn. simpl. rewrite length_map, Hn.
    unfold kept. pose proof (List.filter_length_le
      (fun info => negb (o_skip_hidden o && is_hidden (le_name info))) entries). lia.
  - by rewrite Hplain.
  - intros ctx. destruct (Hstreams ctx) as (es' & ws & th'' & Hs & Hplain' & _ & _ & Hws).
    rewrite Hplain in Hplain'. injection Hplain' as Hes <-.
    assert (map Ok es' = map (@Ok _ Error.t) es) as Hes' by congruence.
    rewrite Hes' in Hs, Hws. exists ws, th'.
    assert (length ws = length children) as Hlen by (by rewrite Hws, length_numbered).
    rewrite Hs, Hlen. split; [by right|done].
Qed.
End Streaming.

(** When the two modes can be expected to agree: the directories are listed before
    anything is scheduled; or links are not followed and types are known. *)
Definition regular_walk : Prop :=
  whole_listing o /\ fits (HR := linux_reader fuel) fs o th_of \/
  o_sort o = false /\ o_process_read_dir o = None /\ o_follow_links o = false /\
  forall spec, readable (th_of spec) (ReadDirSpec.path spec).

Lemma linux_settled {HK : SaneKernel K} :
  0 <= o_max_retries o -> regular_walk ->
  exists valid, (forall spec, deep spec -> valid spec) /\
    forall spec, valid spec -> settled (HR := linux_reader fuel) fs o th_of valid spec.
Proof.
  intros Hr H. apply modes_settled; [done|]. destruct H as [[Hl Hf]|(Hs & Hp & Hfo & Hre)].
  - left. split; [by apply linux_oblivious|done].
  - right. intros. by apply linux_regular.
Qed.
End Contract.

Abbreviation linux_parallel fuel := (parallel_read (HR := linux_reader fuel)).
Abbreviation linux_serial fuel := (serial_read (HR := linux_reader fuel)).
Abbreviation linux_callback fuel := (static_callback (HR := linux_reader fuel)).

(** C2: on Linux, for a finite tree with one directory at the root, where each directory is
    read in a state of the system and of the thread of its own, the same in both walks ([th_of]), the streaming parallel walk and the serial
    walk built from the same options list the same entries in the same order, from
    [into_iter] on: for any number of threads, channel capacity, interleaving of the workers
    and order of delivery, once the pool has ended; and with a thread and room in the
    channels for the directories of the tree the iterator consumed while the pool is at work
    lists them too, whatever the pool does between two of its operations, and the pool can
    always be brought to its end.  This holds of a [regular_walk]: either the listing is
    sorted or processed as a whole and every directory is read to an end; or links are not
    followed and every directory cannot be opened, or is listed to its end with entries of
    known types. *)
Theorem linux_walk_modes_agree {C : ClientState} {K : Type} {HS : Sys K} {HF : FsSys K} {HR : Ring K}
    {HK : SaneKernel K} {E} {HW : World.World E (Ordered.t (Result (ReadDir.t C)))}
    {HL : World.WorldLaws E (Ordered.t (Result (ReadDir.t C))) STRICT_WAIT_TIMEOUT}
    fs (o : WalkDirOptions C) fuel (th_of : ReadDirSpec.t C -> thread (K := K))
    num_threads capacity root es st spec t :
  0 <= o_max_retries o -> o_parallelism o <> Serial -> regular_walk fs o fuel th_of ->
  root_entries fs o root = (es, st) -> omap (ReadDir.child_spec st) es = [spec] ->
  0 <= ReadDirSpec.depth spec -> reads (linux_parallel fuel fs o th_of) spec t ->
  Z.of_nat (length (labels [0] t)) + 2 * Z.of_nat num_threads <= usize_max ->
  modes_agree (HR := linux_reader fuel) fs o th_of E num_threads capacity root es spec t.
Proof.
  intros Hr Hpar Hw Hroot Hs Hd Ht Hb.
  destruct (linux_settled fs o fuel th_of Hr Hw) as (valid & Hv & Hsettled).
  eapply (walk_modes_agree (HR := linux_reader fuel)); eauto.
Qed.

(** ** Other Unix systems *)

Section LegacyReader.
Context {C : ClientState} (fs_read_dir : Path -> result (list (result fs_DirEntry io_Error)) io_Error).

(** [read_dir_unix] where [std::fs] reads the directories: the context is dropped. *)
#[local] Instance legacy_reader : DirReader (C := C) unit := {
  read_dir fs r path read_dir_depth read_dir_contents_depth follow_link_ancestors
      client_read_state _ th :=
    Returns (Ret (read_dir_unix_fs_legacy fs fs_read_dir (r_follow_links r) (r_read_metadata r)
      (r_read_metadata_ext r) (r_skip_hidden r) (r_sort r) (r_process_read_dir r) path
      read_dir_depth read_dir_contents_depth follow_link_ancestors client_read_state, th))
}.

Lemma legacy_oblivious fs (o : WalkDirOptions C) : oblivious fs o.
Proof.
  intros path rdd d anc st ctx th. eexists. split_and!; [done..|]. simpl.
  unfold read_dir_unix_fs_legacy. destruct (fs_read_dir path) as [l|e]; [|done].
  destruct (o_process_read_dir o) as [process|]; [|done]. by destruct (process _ _ _ _).
Qed.

Lemma legacy_entry_made fs (r : ReadOptions C) path d anc x :
  0 < d ->
  match legacy_entry (C := C) fs (r_follow_links r) (r_read_metadata r) (r_read_metadata_ext r)
    (r_skip_hidden r) path d anc x with
  | Some y => made (r_follow_links r) d y
  | None => True
  end.
Proof.
  intros Hd. unfold legacy_entry. destruct x as [x|e]; [|done].
  destruct (legacy_metadata _ _ _ _ _) as [[md ext]|e]; [|done].
  pose proof (from_entry_made (C := C) (r_follow_links r) d path md ext x anc ltac:(lia)) as Hx.
  destruct (DirEntry.from_entry _ _ _ _ _ _) as [y|e]; [|done].
  destruct (_ && _); [done|]. apply (process_made fs _ _ (Ok y)); [lia|done].
Qed.

#[export] Instance legacy_reader_wf : DirReaderWf (C := C) unit.
Proof.
  intros fs r path rdd d anc st ctx th Hd. simpl.
  unfold read_dir_unix_fs_legacy. destruct (fs_read_dir path) as [l|e]; simpl; [|done].
  set (f := legacy_entry _ _ _ _ _ _ _ _).
  assert (Forall (made (r_follow_links r) d) (omap f l)) as H.
  { induction l as [|x l IH]; [constructor|]. cbn [omap list_omap].
    pose proof (legacy_entry_made fs r path d anc x Hd) as Hx. fold f in Hx.
    destruct (f x); [by constructor|done]. }
  set (l' := if r_sort r then _ else _).
  assert (Forall (made (r_follow_links r) d) l') as Hl
    by (unfold l'; destruct (r_sort r); [by apply sort_made|done]).
  destruct (r_process_read_dir r) as [process|] eqn:Ep; [destruct (process _ _ _ l') as [st' l2] eqn:E|];
    exists l'; split; try done; by rewrite Ep.
Qed.

(** A directory has at most as many results as entries, if [process_read_dir] adds none. *)
Lemma legacy_fits fs (o : WalkDirOptions C) :
  0 <= o_max_retries o ->
  (forall process d p st l, o_process_read_dir o = Some process ->
     (length (snd (process d p st l)) <= length l)%nat) ->
  (forall path l, fs_read_dir path = Ok l -> Z.of_nat (length l) <= usize_max) -> fits fs o (fun _ => tt).
Proof.
  intros Hr Hp Hl spec.
  assert (all_returns (fun x : exec (Result (ReadDir.t C) * unit) => exists r th, x = Ret (r, th) /\
    match r with Ok rd => Z.of_nat (length (ReadDir.results_list rd)) <= usize_max | Err _ => True end)
    (core_read_dir_callback fs o spec None tt)) as H; [|by apply all_returns_undisturbed in H].
  apply core_callback_returns; [lia|by intros _; do 2 eexists; split; [done|vm_compute]|].
  intros _ anc ctx th. simpl. do 2 eexists. split; [done|].
  { unfold read_dir_unix_fs_legacy.
    destruct (fs_read_dir (ReadDirSpec.path spec)) as [l|e] eqn:E; simpl; [|done].
    apply Hl in E. set (f := legacy_entry _ _ _ _ _ _ _ _).
    assert (length (omap f l) <= length l)%nat.
    { clear. induction l as [|x l IH]; [done|]. cbn [omap list_omap].
      change (list_omap _ _ f l) with (omap f l). destruct (f x); simpl; lia. }
    set (l' := if o_sort o then _ else _).
    assert (length l' = length (omap f l)) as Hl'
      by (unfold l'; destruct (o_sort o); [by rewrite sort_entries_perm|done]).
    destruct (o_process_read_dir o) as [process|] eqn:Ep; simpl; [|lia].
    match goal with |- context [process ?d ?p ?s l'] =>
      pose proof (Hp process d p s l' eq_refl); destruct (process d p s l') end. simpl in *. lia. }
Qed.
End LegacyReader.

Abbreviation legacy_parallel l := (parallel_read (HR := legacy_reader l)).
Abbreviation legacy_serial l := (serial_read (HR := legacy_reader l)).
Abbreviation legacy_callback l := (static_callback (HR := legacy_reader l)).

(** C15: where [std::fs] reads the directories, for a finite tree with one directory at the
    root, each read coming to an end and its results
    fitting in memory, the two walks list the same entries in the same order once the pool
    has ended, links followed or not, sorted or not, processed or not, and whatever the file
    system answers; with a thread and room in the channels for the directories of the tree,
    also while the pool is at work. *)
Theorem legacy_walk_modes_agree {C : ClientState} {E}
    {HW : World.World E (Ordered.t (Result (ReadDir.t C)))}
    {HL : World.WorldLaws E (Ordered.t (Result (ReadDir.t C))) STRICT_WAIT_TIMEOUT}
    fs (o : WalkDirOptions C) listing num_threads capacity root es st spec t :
  o_parallelism o <> Serial -> fits (HR := legacy_reader listing) fs o (fun _ => tt) ->
  root_entries fs o root = (es, st) -> omap (ReadDir.child_spec st) es = [spec] ->
  reads (legacy_parallel listing fs o (fun _ => tt)) spec t ->
  Z.of_nat (length (labels [0] t)) + 2 * Z.of_nat num_threads <= usize_max ->
  modes_agree (HR := legacy_reader listing) fs o (fun _ => tt) E num_threads capacity root es spec t.
Proof.
  intros Hpar Hf Hroot Hs Ht Hb.
  eapply (walk_modes_agree (HR := legacy_reader listing) fs o (fun _ => tt) (fun _ => True)); eauto.
  intros spec' _. apply oblivious_settled; [apply legacy_oblivious|done].
Qed.

(** ** Witnesses: the root has [sub] and [f.txt]; [sub] has become a directory with a single
    file [f.txt] when it is read *)

Definition lab_options : WalkDirOptions unit_client :=
  build (build options_new (max_depth 2)) (parallelism (RayonNewPool 2)).
Definition lab_batch (spec : ReadDirSpec.t unit_client) : list dirent :=
  if ReadDirSpec.depth spec =? 0 then sample_dirents else drop 2 sample_dirents.
Definition lab_th (spec : ReadDirSpec.t unit_client) : thread (K := lab) :=
  lab_thread [lab_batch spec] None.
Definition lab_root : ReadDirSpec.t unit_client := sample_spec 0 (bytes "/r").
Definition lab_subdir : ReadDirSpec.t unit_client := sample_spec 1 (bytes "/r/sub").

Definition lab_tree (read : ReadDirSpec.t unit_client -> Result (ReadDir.t unit_client)) :
    tree (Result (ReadDir.t unit_client)) :=
  Node (read lab_root) [Node (read lab_subdir) []].

Abbreviation lab_serial := (linux_serial 4 sample_fs lab_options lab_th).
Abbreviation lab_parallel := (linux_parallel 4 sample_fs lab_options lab_th).
Abbreviation lab_callback := (linux_callback 4 sample_fs lab_options lab_th).

Lemma lab_dir_listable spec cstr :
  CString_new (ReadDirSpec.path spec) = Some cstr ->
  listable 4 (ReadDirSpec.path spec) (th_kernel (lab_th spec)) (entries_of (lab_batch spec)) /\
  Forall typed (entries_of (lab_batch spec)) /\ (length (entries_of (lab_batch spec)) <= 2)%nat.
Proof.
  intros E.
  assert (Forall dirent_ok (lab_batch spec) /\ lab_batch spec <> [] /\
    Z.of_nat (length (dirents_bytes (lab_batch spec))) <= DENTS_BUF_SIZE /\
    Forall typed (entries_of (lab_batch spec)) /\
    (length (entries_of (lab_batch spec)) <= 2)%nat) as (H1 & H2 & H3 & H4 & H5).
  { unfold lab_batch. destruct (_ =? _); split_and!;
      [exact sample_dirents_ok| | | | |apply Forall_drop, sample_dirents_ok|..];
      try done; try (by vm_compute); try (vm_compute; lia); repeat constructor; by eexists. }
  split_and!; [|done..].
  apply (mk_listable _ _ _ _ cstr 3 (mk_lab [lab_batch spec] None) (mk_lab [] None)
    [lab_batch spec]); [done|done| |simpl; lia|simpl; by rewrite app_nil_r].
  eapply stream_batch_of; [done..|]. by constructor.
Qed.

Lemma lab_no_path spec :
  CString_new (ReadDirSpec.path spec) = None ->
  exists e, open_dir_fd (ReadDirSpec.path spec) (th_kernel (lab_th spec)) = (Err e, th_kernel (lab_th spec)).
Proof. intros E. unfold open_dir_fd. rewrite E. by eexists. Qed.

Lemma lab_readable spec : readable 4 (lab_th spec) (ReadDirSpec.path spec).
Proof.
  destruct (CString_new (ReadDirSpec.path spec)) as [cstr|] eqn:E; [left|right; by apply lab_no_path].
  destruct (lab_dir_listable spec cstr E) as (Hl & Ht & Hn). eexists. split_and!; [done..|].
  assert (2 <= usize_max) by done. lia.
Qed.

Lemma lab_reads_with read :
  children (read lab_root) = [lab_subdir] -> children (read lab_subdir) = [] ->
  reads read lab_root (lab_tree read).
Proof.
  intros E1 E2. constructor. rewrite E1. constructor; [|constructor]. constructor. by rewrite E2.
Qed.

(** The entry of the root. *)
Definition lab_roots : list (Result (DirEntry.t unit_client)) :=
  fst (root_entries sample_fs lab_options (bytes "/r")).

Lemma lab_roots_eq : root_entries sample_fs lab_options (bytes "/r") = (lab_roots, tt).
Proof. unfold lab_roots. by destruct (root_entries _ _ _) as [es []]. Qed.

Lemma lab_roots_specs : omap (@ReadDir.child_spec _ unit_client tt) lab_roots = [lab_root].
Proof. vm_refl. Qed.

Lemma walk_entries_wf_witness :
  exists out, emits 0 lab_roots (flat_map preorder [lab_tree lab_serial]) out /\
    Forall (shown_wf sample_fs lab_options) out.
Proof.
  assert (Forall2 (reads lab_serial) (omap (@ReadDir.child_spec _ unit_client tt) lab_roots)
    [lab_tree lab_serial]) as Ht.
  { rewrite lab_roots_specs. constructor; [|constructor]. apply lab_reads_with; vm_refl. }
  destruct (emits_forest 0 _ _ _ _ Ht) as [out Hout]. exists out. split; [exact Hout|].
  pose proof (walk_entries_wf (HR := linux_reader 4) (HW := linux_reader_wf 4) sample_fs lab_options lab_th
    eq_refl (bytes "/r") [lab_tree lab_serial] out) as H.
  rewrite lab_roots_eq in H. apply H; [done|exact Ht|exact Hout].
Defined.

(** A run of the pool to its end, and what its consumer receives. *)
Definition lab_run : list action :=
  sample_schedule lab_callback 2 8 100 (init [lab_root]).
Definition lab_final : state unit_client := play lab_callback 2 8 lab_run (init [lab_root]).

Definition lab_sent : World.script (Ordered.t (Result (ReadDir.t unit_client))) :=
  World.in_order (sent lab_final).

Lemma linux_walk_modes_agree_witness :
  exists out fuel0, emits 0 lab_roots (preorder (lab_tree lab_parallel)) out /\
    walk_lists (HR := linux_reader 4) sample_fs lab_options lab_th 2 8 (bytes "/r") out /\
    forall f, (2 < f)%nat -> (fuel0 <= f)%nat ->
      iterates (DirEntryIter.next (ReadDirIter.next lab_parallel f) f)
        (into_iter sample_fs (at_capacity lab_options 8) (bytes "/r") true (fun _ => lab_sent)) out /\
      iterates (DirEntryIter.next (ReadDirIter.next lab_serial f) f)
        (into_iter sample_fs (build lab_options (parallelism Serial)) (bytes "/r") true
          (fun _ => lab_sent)) out.
Proof.
  destruct (linux_walk_modes_agree (E := World.script (Ordered.t (Result (ReadDir.t unit_client))))
    sample_fs lab_options 4 lab_th 2 8 (bytes "/r") lab_roots tt lab_root (lab_tree lab_parallel))
    as (out & fuel0 & Hout & H & Hc).
  - by vm_compute.
  - done.
  - right. split_and!; try done. exact lab_readable.
  - exact lab_roots_eq.
  - exact lab_roots_specs.
  - done.
  - apply lab_reads_with; vm_refl.
  - by vm_compute.
  - exists out, fuel0. split; [exact Hout|]. split; [apply Hc; [lia|vm_compute; lia]|]. intros f Hf Hf0.
    apply (H lab_final lab_sent); [apply play_reachable|vm_refl|vm_refl|apply World.in_order_arrivals
      |apply World.in_order_running|apply (World.in_order_fuel _ _ 2); [vm_refl|exact Hf]|exact Hf0].
Defined.

(** The same entries listed by [std::fs], links being followed. *)
Definition lab_legacy_options : WalkDirOptions unit_client := build lab_options (follow_links true).

Definition lab_std_listing (p : Path) : result (list (result fs_DirEntry io_Error)) io_Error :=
  if bool_decide (p = bytes "/r")
  then Ok (map (fun e => Ok (std_entry (fun _ => Err (Os 13 Other)) p e)) lab_sample_entries)
  else Err (Os 13 Other).

Abbreviation lab_std_serial := (legacy_serial lab_std_listing sample_fs lab_legacy_options (fun _ => tt)).
Abbreviation lab_std_parallel := (legacy_parallel lab_std_listing sample_fs lab_legacy_options (fun _ => tt)).
Abbreviation lab_std_callback := (legacy_callback lab_std_listing sample_fs lab_legacy_options (fun _ => tt)).

Lemma lab_std_listing_short path l :
  lab_std_listing path = Ok l -> Z.of_nat (length l) <= usize_max.
Proof.
  unfold lab_std_listing. intros E. destruct (bool_decide _); simplify_eq/=. by vm_compute.
Qed.

Lemma lab_std_fits : fits (HR := legacy_reader lab_std_listing) sample_fs lab_legacy_options (fun _ => tt).
Proof.
  apply legacy_fits; [done|done|exact lab_std_listing_short].
Qed.

Definition lab_std_roots : list (Result (DirEntry.t unit_client)) :=
  fst (root_entries sample_fs lab_legacy_options (bytes "/r")).

Definition lab_identity : AncestorIdentity.t := AncestorIdentity.mk (bytes "/r") 1 7.

Definition lab_std_root : ReadDirSpec.t unit_client :=
  @ReadDirSpec.mk _ unit_client 0 (bytes "/r") tt (Some [lab_identity]).
Definition lab_std_subdir : ReadDirSpec.t unit_client :=
  @ReadDirSpec.mk _ unit_client 1 (bytes "/r/sub") tt (Some [lab_identity; lab_identity]).

Definition lab_std_tree : tree (Result (ReadDir.t unit_client)) :=
  Node (lab_std_parallel lab_std_root) [Node (lab_std_parallel lab_std_subdir) []].

Definition lab_std_final : state unit_client :=
  play lab_std_callback 2 8 (sample_schedule lab_std_callback 2 8 100 (init [lab_std_root]))
    (init [lab_std_root]).
Definition lab_std_sent : World.script (Ordered.t (Result (ReadDir.t unit_client))) :=
  World.in_order (sent lab_std_final).

Lemma legacy_walk_modes_agree_witness :
  exists out fuel0, emits 0 lab_std_roots (preorder lab_std_tree) out /\
    walk_lists (HR := legacy_reader lab_std_listing) sample_fs lab_legacy_options (fun _ => tt) 2 8
      (bytes "/r") out /\
    forall f, (2 < f)%nat -> (fuel0 <= f)%nat ->
      iterates (DirEntryIter.next (ReadDirIter.next lab_std_parallel f) f)
        (into_iter sample_fs (at_capacity lab_legacy_options 8) (bytes "/r") true
          (fun _ => lab_std_sent)) out /\
      iterates (DirEntryIter.next (ReadDirIter.next lab_std_serial f) f)
        (into_iter sample_fs (build lab_legacy_options (parallelism Serial)) (bytes "/r") true
          (fun _ => lab_std_sent)) out.
Proof.
  destruct (legacy_walk_modes_agree (E := World.script (Ordered.t (Result (ReadDir.t unit_client))))
    sample_fs lab_legacy_options lab_std_listing 2 8 (bytes "/r") lab_std_roots tt lab_std_root lab_std_tree)
    as (out & fuel0 & Hout & H & Hc).
  - done.
  - exact lab_std_fits.
  - unfold lab_std_roots. by destruct (root_entries _ _ _) as [es []].
  - vm_refl.
  - constructor. assert (children (lab_std_parallel lab_std_root) = [lab_std_subdir]) as -> by vm_refl.
    constructor; [|constructor]. constructor.
    assert (children (lab_std_parallel lab_std_subdir) = []) as -> by vm_refl. constructor.
  - by vm_compute.
  - exists out, fuel0. split; [exact Hout|]. split; [apply Hc; [lia|vm_compute; lia]|]. intros f Hf Hf0.
    apply (H lab_std_final lab_std_sent); [apply play_reachable|vm_refl|vm_refl|apply World.in_order_arrivals
      |apply World.in_order_running|apply (World.in_order_fuel _ _ 2); [vm_refl|exact Hf]|exact Hf0].
Defined.
