(* ===== verification/Du.v ===== *)
(** * A client of the library: [examples/du.rs]

    It counts the bytes of the files below a path: [process_read_dir] notes the length
    of every entry that is not a directory in its client state, and the loop adds up
    the states of the entries the walk lists.  Printing is left out. *)
From S2P Require Import Prelude Order Tree World Std Error Metadata Platform DirEntry.
From S2P Require Import Callback OrderedQueue ReadDirIter DirEntryIter ParWalk ParComplete.
From S2P Require Import UnixEnum LinuxReadDir LegacyReadDir WalkDir WalkTypes WalkModes UnixWalk.

(** [WalkDirGeneric::<((), Option<u64>)>] *)
Definition du_client : ClientState := pair_client_state unit (option Z) tt None.

Section Du.
Context {P : Platform} (fs : FileSystem).
Abbreviation C := du_client.
Abbreviation entry := (DirEntry.t C).

Definition set_client_state (e : entry) (s : option Z) : entry :=
  @DirEntry.mk P C (DirEntry.depth e) (DirEntry.file_name e) (DirEntry.file_type e) s
    (DirEntry.parent_path e) (DirEntry.read_children_path e) (DirEntry.read_children_error e)
    (DirEntry.read_metadata e) (DirEntry.metadata e) (DirEntry.read_metadata_ext e)
    (DirEntry.metadata_ext e) (DirEntry.follow_link e) (DirEntry.follow_link_ancestors e)
    (DirEntry.cached_path e).

(** [dir_entry.metadata().map(|m| m.len()).unwrap_or_default()] *)
Definition entry_len (e : entry) : Z :=
  match DirEntry.get_metadata fs e with Ok m => md_len m | Err _ => 0 end.

(** The closure given to [process_read_dir]. *)
Definition count_len (dir_entry_result : Result entry) : Result entry :=
  match dir_entry_result with
  | Ok dir_entry =>
      if negb (is_dir (DirEntry.file_type dir_entry))
      then Ok (set_client_state dir_entry (Some (entry_len dir_entry)))
      else Ok dir_entry
  | Err err => Err err
  end.

Definition du_process (_ : option Z) (_ : Path) (st : @ReadDirState C)
    (dir_entry_results : list (Result entry)) : @ReadDirState C * list (Result entry) :=
  (st, map count_len dir_entry_results).

Definition du_options : WalkDirOptions C :=
  fold_left build [skip_hidden false; parallelism (RayonNewPool 4); process_read_dir du_process]
    options_new.

(** [total += len] on [u64], with overflow checks. *)
Definition add_u64 (x y : Z) : exec Z := if x + y <=? u64_max then Ret (x + y) else Panic.

(** The loop of [main]. *)
Fixpoint du_loop (walk : list (Result entry)) (total : Z) : exec Z :=
  match walk with
  | [] => Ret total
  | Ok dir_entry :: walk' =>
      match (DirEntry.client_state dir_entry : option Z) with
      | Some len => let! total := add_u64 total len in du_loop walk' total
      | None => du_loop walk' total
      end
  | Err _ :: walk' => du_loop walk' total
  end.

(** ** What it counts *)

(** The bytes of an entry: its length, unless it is a directory. *)
Definition bytes_of (r : Result entry) : Z :=
  match r with
  | Ok e => if is_dir (DirEntry.file_type e) then 0 else entry_len e
  | Err _ => 0
  end.

Definition total_bytes (l : list (Result entry)) : Z := foldr (fun r n => bytes_of r + n) 0 l.

(** An entry whose client state has been set. *)
Definition counted_len (r : Result entry) : Prop :=
  match r with
  | Ok e => 0 <= DirEntry.depth e /\
      DirEntry.client_state e =
        (if is_dir (DirEntry.file_type e) then None else Some (entry_len e) : option Z)
  | Err _ => True
  end.

Lemma count_len_counted r : fresh r -> counted_len (count_len r).
Proof.
  destruct r as [e|err]; [|done]. intros (Hd & Hc & _). simpl.
  destruct (is_dir (DirEntry.file_type e)) eqn:E; simpl; rewrite E; by split.
Qed.

Lemma du_process_counted d path st l : Forall fresh l -> Forall counted_len (snd (du_process d path st l)).
Proof. intros H. simpl. apply Forall_map. eapply Forall_impl; [exact H|apply count_len_counted]. Qed.

Context (Hlen : forall p m, fs_symlink_metadata fs p = Ok m -> 0 <= md_len m)
  (Hlen' : forall p m, fs_metadata fs p = Ok m -> 0 <= md_len m).

Lemma entry_len_nonneg e : 0 <= entry_len e.
Proof.
  unfold entry_len, DirEntry.get_metadata.
  destruct (DirEntry.follow_link e);
    [destruct (fs_metadata _ _) eqn:E|destruct (fs_symlink_metadata _ _) eqn:E]; simpl; eauto; lia.
Qed.

Lemma total_nonneg l : 0 <= total_bytes l.
Proof.
  induction l as [|[e|err] l IH]; simpl; [lia| |lia]. pose proof (entry_len_nonneg e).
  destruct (is_dir _); lia.
Qed.

Lemma du_loop_total walk total :
  Forall counted_len walk -> 0 <= total -> total + total_bytes walk <= u64_max ->
  du_loop walk total = Ret (total + total_bytes walk).
Proof.
  intros H. revert total. induction H as [|r walk Hr _ IH]; intros total Ht Hb; simpl in *.
  { by rewrite Z.add_0_r. }
  pose proof (total_nonneg walk) as Hn. destruct r as [e|err]; simpl in *; [|by rewrite IH].
  destruct Hr as [_ ->]. destruct (is_dir (DirEntry.file_type e)); [by rewrite IH|].
  pose proof (entry_len_nonneg e). unfold add_u64. rewrite (proj2 (Z.leb_le _ _)) by lia.
  cbn [exec_bind]. rewrite IH by lia. f_equal. lia.
Qed.

Section Walk.
Context {TH : Type} {HR : DirReader (C := C) TH} {HW : DirReaderWf (C := C) TH} 
  (th_of : ReadDirSpec.t C -> TH).

Lemma du_listed root ts out :
  let '(es, st) := root_entries fs du_options root in
  Forall2 (reads (serial_read fs du_options th_of)) (omap (ReadDir.child_spec st) es) ts ->
  emits 0 es (flat_map preorder ts) out -> total_bytes out <= u64_max ->
  du_loop out 0 = Ret (total_bytes out).
Proof.
  pose proof (entries_processed fs du_options th_of du_process eq_refl counted_len
    du_process_counted (fun e H => proj1 H) root ts out (fun e err H => H)) as H.
  destruct (root_entries fs du_options root) as [es st]. intros Hts Hout Hb.
  by apply (du_loop_total out 0); [apply H|..].
Qed.

(** C20: [du], on every platform, for a finite tree with one directory at the root, each
    directory being read to an end: the parallel walk lists
    the same entries whatever the interleaving, the number of threads and the order of
    delivery, once the pool has ended, and the total is the sum of the lengths of those that
    are not directories, if it fits in a [u64]; with a thread and room in the channels for
    the directories (4096 in [du], which leaves the option alone), it lists them while the
    pool is still at work. *)
Theorem du_counts_every_file {E} {HE : World.World E (Ordered.t (Result (ReadDir.t C)))}
    {HL : World.WorldLaws E (Ordered.t (Result (ReadDir.t C))) STRICT_WAIT_TIMEOUT}
    num_threads capacity root es st spec t :
  oblivious fs du_options -> fits fs du_options th_of ->
  root_entries fs du_options root = (es, st) -> omap (ReadDir.child_spec st) es = [spec] ->
  reads (parallel_read fs du_options th_of) spec t ->
  Z.of_nat (length (labels [0] t)) + 2 * Z.of_nat num_threads <= usize_max ->
  exists out fuel0, emits 0 es (preorder t) out /\
    (total_bytes out <= u64_max -> du_loop out 0 = Ret (total_bytes out)) /\
    (forall s (e : E) f,
      reachable (static_callback fs du_options th_of) num_threads capacity (init [spec]) s ->
      stop s = false -> iter s = IEnded ->
      World.arrivals e = sent s -> World.running e ->
      (length (World.arrivals e) + World.patience e < f)%nat -> (fuel0 <= f)%nat ->
      iterates (DirEntryIter.next (ReadDirIter.next (parallel_read fs du_options th_of) f) f)
        (into_iter fs (at_capacity du_options capacity) root true (fun _ => e)) out) /\
    ((0 < num_threads)%nat -> (length (labels [0%Z] t) <= capacity)%nat ->
      walk_lists fs du_options th_of num_threads capacity root out).
Proof.
  intros Hobl Hfits Hroot Hs Ht Hb.
  assert (forall spec, True -> settled fs du_options th_of (fun _ => True) spec) as Hset
    by (intros spec' _; by apply oblivious_settled).
  destruct (walk_modes_agree (E := E) fs du_options th_of (fun _ => True) Hset num_threads capacity
    root es st spec t) as (out & fuel0 & Hout & Hy & Hc); try done.
  exists out, fuel0. split; [done|]. split; [|split; [by intros s e f; intros; eapply Hy|apply Hc]].
  pose proof (reads_unstreamed fs du_options th_of (fun _ => True) Hset spec t I Ht) as Ht'.
  pose proof (du_listed root [tree_map unstreamed t] out) as H. rewrite Hroot, Hs in H.
  apply H; [by repeat constructor|]. simpl. rewrite app_nil_r, preorder_map.
  by apply emits_unstreamed.
Qed.
End Walk.
End Du.

(** ** Witness: [du /r], where every file is 4096 bytes long *)

#[local] Existing Instance du_client.

Abbreviation du_fs := sample_fs.
Abbreviation du_read := (parallel_read (HR := legacy_reader (C := du_client) lab_std_listing) du_fs (du_options du_fs) (fun _ => tt)).
Abbreviation du_callback := (static_callback (HR := legacy_reader (C := du_client) lab_std_listing) du_fs (du_options du_fs) (fun _ => tt)).

Definition du_roots : list (Result (DirEntry.t du_client)) :=
  fst (root_entries du_fs (du_options du_fs) (bytes "/r")).
Definition du_root : ReadDirSpec.t du_client := @ReadDirSpec.mk _ du_client 0 (bytes "/r") tt None.
Definition du_sub : ReadDirSpec.t du_client := @ReadDirSpec.mk _ du_client 1 (bytes "/r/sub") tt None.
Definition du_tree : tree (Result (ReadDir.t du_client)) := Node (du_read du_root) [Node (du_read du_sub) []].

Definition du_final : state du_client :=
  play du_callback 2 8 (sample_schedule du_callback 2 8 100 (init [du_root])) (init [du_root]).
Definition du_sent : World.script (Ordered.t (Result (ReadDir.t du_client))) :=
  World.in_order (sent du_final).

Lemma du_fits : fits (HR := legacy_reader (C := du_client) lab_std_listing) du_fs (du_options du_fs) (fun _ => tt).
Proof.
  apply legacy_fits; [done| |exact lab_std_listing_short].
  intros process d p st l E. injection E as <-. simpl. by rewrite length_map.
Qed.

Lemma du_counts_every_file_witness :
  exists out fuel0, emits 0 du_roots (preorder du_tree) out /\
    (total_bytes du_fs out <= u64_max -> du_loop out 0 = Ret (total_bytes du_fs out)) /\
    (forall f, (2 < f)%nat -> (fuel0 <= f)%nat ->
      iterates (DirEntryIter.next (ReadDirIter.next du_read f) f)
        (into_iter du_fs (at_capacity (du_options du_fs) 8) (bytes "/r") true (fun _ => du_sent)) out) /\
    walk_lists (HR := legacy_reader (C := du_client) lab_std_listing) du_fs (du_options du_fs) (fun _ => tt)
      2 8 (bytes "/r") out.
Proof.
  destruct (du_counts_every_file (HR := legacy_reader (C := du_client) lab_std_listing)
    (HW := legacy_reader_wf (C := du_client) lab_std_listing)
    (E := World.script (Ordered.t (Result (ReadDir.t du_client)))) du_fs
    ltac:(intros p m E; injection E as <-; vm_compute; congruence)
    ltac:(intros p m E; injection E as <-; vm_compute; congruence)
    (fun _ => tt) 2 8 (bytes "/r") du_roots tt du_root du_tree) as (out & fuel0 & Hout & Hb & H & Hc).
  - apply legacy_oblivious.
  - exact du_fits.
  - unfold du_roots. by destruct (root_entries _ _ _) as [es []].
  - vm_refl.
  - constructor. assert (children (du_read du_root) = [du_sub]) as -> by vm_refl.
    constructor; [|constructor]. constructor.
    assert (children (du_read du_sub) = []) as -> by vm_refl. constructor.
  - by vm_compute.
  - exists out, fuel0. split; [exact Hout|]. split; [exact Hb|].
    split; [|apply Hc; [lia|by vm_compute; lia]]. intros f Hf Hf0.
    apply (H du_final du_sent); [apply play_reachable|vm_refl|vm_refl|apply World.in_order_arrivals
      |apply World.in_order_running|apply (World.in_order_fuel _ _ 2); [vm_refl|exact Hf]|exact Hf0].
Defined.

(** ** What [process_read_dir] returns, on the same sample *)

Abbreviation du_serial := (serial_read (HR := legacy_reader (C := du_client) lab_std_listing) du_fs (du_options du_fs) (fun _ => tt)).
Definition du_serial_tree : tree (Result (ReadDir.t du_client)) :=
  Node (du_serial du_root) [Node (du_serial du_sub) []].

Lemma du_roots_eq : root_entries du_fs (du_options du_fs) (bytes "/r") = (du_roots, tt).
Proof. unfold du_roots. by destruct (root_entries _ _ _) as [es []]. Qed.

Lemma du_roots_specs : omap (@ReadDir.child_spec _ du_client tt) du_roots = [du_root].
Proof. vm_refl. Qed.

Lemma walk_entries_processed_witness :
  exists out, emits 0 du_roots (flat_map preorder [du_serial_tree]) out /\
    (0 < length out)%nat /\ Forall (counted_len du_fs) out.
Proof.
  assert (Forall2 (reads du_serial) (omap (@ReadDir.child_spec _ du_client tt) du_roots)
    [du_serial_tree]) as Ht.
  { rewrite du_roots_specs. constructor; [|constructor]. constructor.
    assert (children (du_serial du_root) = [du_sub]) as -> by vm_refl.
    constructor; [|constructor]. constructor.
    assert (children (du_serial du_sub) = []) as -> by vm_refl. constructor. }
  destruct (emits_forest 0 _ _ _ _ Ht) as [out Hout]. exists out. split; [exact Hout|]. split.
  { destruct out; [inversion Hout|simpl; lia]. }
  pose proof (walk_entries_processed (HR := legacy_reader (C := du_client) lab_std_listing)
    (HW := legacy_reader_wf (C := du_client) lab_std_listing) du_fs (du_options du_fs) (fun _ => tt)
    (du_process du_fs) eq_refl (counted_len du_fs) (du_process_counted du_fs)
    (fun e H => proj1 H) (bytes "/r") [du_serial_tree] out (fun e err H => H)) as H.
  rewrite du_roots_eq in H. apply H; [exact Ht|exact Hout].
Defined.
