(* ===== verification/WindowsWalk.v ===== *)
(** * The walk on Windows: [WalkDir] over [read_dir_windows]

    The Windows reader as an instance of [DirReader]: its entries are well formed, and
    where no directory is a reparse point it keeps the contract of the parallel walk. *)
From S2P Require Import Prelude Order Tree World Std Bytes Error Platform DirEntry Callback.
From S2P Require Import OrderedQueue ReadDirIter DirEntryIter ParWalk NtEnum Windows WindowsReadDir.
From S2P Require Import WalkDir WalkTypes WalkModes.

Section Reader.
Context {W : WindowsStd} {C : ClientState} {K : Type} {HN : NtSys K}.

(** [read_dir_windows] with the options of the walk. *)
#[local] Instance windows_reader (fuel : nat) : DirReader (C := C) (thread (K := K)) := {
  read_dir fs r path read_dir_depth read_dir_contents_depth follow_link_ancestors
      client_read_state streaming_ctx th :=
    read_dir_windows fs (r_follow_links r) (r_read_metadata r) (r_read_metadata_ext r)
      (r_read_hardlink_info r) (r_skip_hidden r) (r_sort r) (r_process_read_dir r) fuel path
      read_dir_depth read_dir_contents_depth follow_link_ancestors client_read_state streaming_ctx th
}.

(** ** Its entries are well formed *)

Section WellFormed.
Context (fs : FileSystem) (r : ReadOptions C) (fuel : nat).
Abbreviation follow := (r_follow_links r).

Lemma win_make_dir_entry_made md ext hl info d path anc :
  0 <= d ->
  match make_dir_entry (C := C) fs md ext hl info d path anc with
  | Ret r => made follow d r
  | _ => True
  end.
Proof.
  intros Hd. unfold make_dir_entry. match goal with |- context [exec_bind ?r _] => destruct r as [m| |] end; [|done..].
  by apply from_raw_made.
Qed.

Lemma win_build_entries_made md ext hl skip infos d path anc :
  0 < d ->
  match build_entries (C := C) fs follow md ext hl skip infos d path anc with
  | Ret l => Forall (made follow d) l
  | _ => True
  end.
Proof.
  intros Hd. induction infos as [|info infos IH]; cbn [build_entries]; [constructor|].
  destruct (_ && _); [done|].
  pose proof (win_make_dir_entry_made md ext hl info d path anc ltac:(lia)) as Hm.
  destruct (make_dir_entry _ _ _ _ _ _ _ _) as [r1| |]; cbn [exec_bind]; [|done..].
  destruct (build_entries _ _ _ _ _ _ infos _ _ _) as [l| |]; cbn [exec_bind]; [|done..].
  constructor; [|done]. destruct r1 as [e|err]; [|done]. apply process_made; [lia|done].
Qed.

Lemma win_finish_contents path rdd d anc st res (th : thread (K := K)) n :
  0 < d -> (is_Some (r_process_read_dir r) -> n = 0) ->
  contents r path rdd d st (finish_read_dir fs follow (r_read_metadata r) (r_read_metadata_ext r)
    (r_read_hardlink_info r) (r_skip_hidden r) (r_sort r) (r_process_read_dir r) path rdd d anc st
    res th n).
Proof.
  intros Hd Hn. unfold finish_read_dir. destruct res as [[guard entries]|e]; simpl.
  - destruct (fill_hardlinks _ _ _ _ _) as [en k].
    pose proof (win_build_entries_made (r_read_metadata r) (r_read_metadata_ext r)
      (r_read_hardlink_info r) (r_skip_hidden r) en d path anc Hd) as H.
    destruct (build_entries _ _ _ _ _ _ _ _ _ _) as [l| |]; simpl; [|done..].
    set (l' := if r_sort r then _ else _).
    assert (Forall (made follow d) l') as Hl by (unfold l'; destruct (r_sort r); [by apply sort_made|done]).
    destruct (r_process_read_dir r) as [process|] eqn:Ep; [destruct (process _ _ _ l') as [st' l2] eqn:E|];
      exists l'; split; try done; by rewrite Ep.
  - destruct (Z.ltb_spec 0 n); simpl; [|done]. exists [Err (Error.from_path 0 path e)].
    split; [by repeat constructor|]. destruct (r_process_read_dir r); [|done].
    rewrite Hn in *; [lia|by eexists].
Qed.

Lemma win_schedule_returns {R} (Q : R -> Prop) skip ctx path d st anc infos n
    (finish : Z -> run_of C R) :
  (forall n, all_returns Q (finish n)) ->
  all_returns Q (schedule_subdirs skip ctx path d st anc infos n finish).
Proof.
  intros H. revert n. induction infos as [|info infos IH]; intros n; simpl; [apply H|].
  intros []; [apply IH|]. destruct (_ && _); [apply IH|]. destruct (negb _); [apply IH|]. simpl.
  intros b. apply IH.
Qed.

Lemma windows_reader_returns (Q : exec (Result (ReadDir.t C) * thread (K := K)) -> Prop)
    path rdd d anc st ctx (th : thread (K := K)) :
  Q Panic -> Q NoFuel ->
  (forall res th n, (is_Some (r_process_read_dir r) -> n = 0) -> Q (finish_read_dir fs follow (r_read_metadata r) (r_read_metadata_ext r)
     (r_read_hardlink_info r) (r_skip_hidden r) (r_sort r) (r_process_read_dir r) path rdd d anc st
     res th n)) ->
  all_returns Q (read_dir (DirReader := windows_reader fuel) fs r path rdd d anc st ctx th).
Proof.
  intros H1 H2 H. simpl. unfold read_dir_windows.
  destruct (enumerate_dir fuel path (th_tls th) (th_kernel th)) as [[[res tls] k]| |] eqn:E;
    destruct ctx as [ctx|], (r_sort r) eqn:Es, (r_process_read_dir r) eqn:Ep;
    cbn [all_returns]; try (by apply H); try done.
  all: destruct (enumerate_dir_streaming _ _ _ _ _ _) as [[[[res' tls'] infos] k']| |]; try done.
  all: apply win_schedule_returns; intros n; simpl; apply H; by intros [? ?].
Qed.
End WellFormed.
End Reader.

#[export] Instance windows_reader_wf {W : WindowsStd} {C : ClientState} {K : Type} {HN : NtSys K} (fuel : nat) :
  DirReaderWf (C := C) (thread (K := K)) (DirReader0 := windows_reader fuel).
Proof.
  intros fs r path rdd d anc st ctx th Hd.
  apply windows_reader_returns; [done..|]. intros. by apply win_finish_contents.
Qed.

(** ** It keeps the contract of the parallel walk *)

Section Contract.
Context {W : WindowsStd} {C : ClientState} {K : Type} {HN : NtSys K}.
Context (fs : FileSystem) (o : WalkDirOptions C) (fuel : nat)
  (th_of : ReadDirSpec.t C -> thread (K := K)).
Abbreviation read_dir := (read_dir (DirReader := windows_reader fuel) fs (read_options o)).

Lemma windows_oblivious : whole_listing o -> oblivious (HR := windows_reader fuel) fs o.
Proof.
  intros H path rdd d anc st ctx th. unfold whole_listing in H.
  set (plain := match enumerate_dir fuel path (th_tls th) (th_kernel th) with
    | Ret (res, tls, k) => finish_read_dir fs (o_follow_links o) (o_read_metadata o)
        (o_read_metadata_ext o) (o_read_hardlink_info o) (o_skip_hidden o) (o_sort o)
        (o_process_read_dir o) path rdd d anc st res (mk_thread k tls) 0
    | Panic => Panic
    | NoFuel => NoFuel
    end).
  assert (forall ctx, read_dir path rdd d anc st ctx th = Returns plain) as E.
  { clear ctx. intros ctx. simpl. unfold plain, read_dir_windows.
    destruct (enumerate_dir _ _ _ _) as [[[res tls] k]| |];
      destruct ctx, (o_sort o), (o_process_read_dir o), H as [|[? ?]]; done. }
  exists plain. split_and!; [apply E..|]. unfold plain.
  destruct (enumerate_dir _ _ _ _) as [[[[[guard entries]|e] tls] k]| |]; [|done..].
  unfold finish_read_dir. destruct (fill_hardlinks _ _ _ _ _) as [en k1].
  destruct (build_entries _ _ _ _ _ _ _ _ _ _) as [l| |]; simpl; [|done..].
  destruct (o_process_read_dir o) as [process|]; [|done]. by destruct (process _ _ _ _).
Qed.

(** A path can be listed, none of its directories being a reparse point, or not be
    opened. *)
Definition readable (th : thread (K := K)) (path : Path) : Prop :=
  (exists entries, listable fuel path (th_kernel th) entries /\
     Z.of_nat (length entries) <= usize_max /\
     Forall (fun e => is_dir_attr e && is_reparse e = false) entries) \/
  (exists e, open_dir_handle path (th_kernel th) = (Err e, th_kernel th)).

Section Streaming.
Context (Hfollow : o_follow_links o = false) (Hsort : o_sort o = false)
  (Hprocess : o_process_read_dir o = None).

Lemma windows_fails th path rdd d anc st ctx e :
  open_dir_handle path (th_kernel th) = (Err e, th_kernel th) ->
  read_dir path rdd d anc st ctx th = Returns (Ret (Err (Error.from_path 0 path e), th)).
Proof.
  clear Hsort Hprocess. intros He. simpl. unfold read_dir_windows.
  unfold enumerate_dir_streaming, enumerate_dir. rewrite He.
  by destruct ctx, (o_sort o), (o_process_read_dir o); destruct th.
Qed.

Lemma windows_regular th path rdd d anc st :
  readable th path -> tls_ok (th_tls th) -> 0 < d -> regular th deep (read_dir path rdd d anc st).
Proof.
  intros Hread Htl Hd. destruct Hread as [(entries & Hl & Hb & Hr)|[e He]].
  2: { left. eexists. intros ctx. by apply windows_fails. }
  right. cbn [WalkDir.read_dir windows_reader read_options r_follow_links r_read_metadata
    r_read_metadata_ext r_read_hardlink_info r_skip_hidden r_sort r_process_read_dir].
  rewrite Hfollow, Hsort, Hprocess. assert (d <> 0) as Hne by lia.
  pose proof (fun ctx => windows_read fs (o_read_metadata o) (o_read_metadata_ext o)
    (o_read_hardlink_info o) (o_skip_hidden o) fuel path rdd d anc st ctx th entries Hl Htl Hne Hb)
    as Hreads.
  destruct (Hreads no_ctx) as (es & th1 & th2 & _ & Hplain & Hn & Hc). cbv zeta in Hc.
  set (specs := map (spec_for d path anc st) (subdirs (kept (o_skip_hidden o) entries))) in *.
  exists (ReadDir.mk st (map Ok es) (Z.of_nat (length specs))), th2.
  assert (ReadDir.read_children_specs (ReadDir.mk st (map Ok es) (Z.of_nat (length specs))) = specs)
    as Hspecs.
  { rewrite length_numbered, no_reparse in Hc by done. exact Hc. }
  split_and!.
  - rewrite Hspecs. apply Forall_map, Forall_true. intros info. unfold deep. simpl. lia.
  - apply (f_equal length) in Hn. rewrite !length_map in Hn. simpl. rewrite length_map, Hn.
    unfold kept. pose proof (List.filter_length_le
      (fun info => negb (o_skip_hidden o && Win.is_hidden_win32 (file_name info) (file_attributes info)))
      entries). lia.
  - by rewrite Hplain.
  - intros ctx. destruct (Hreads ctx) as (es' & th1' & th2' & Hs & Hplain' & _ & _).
    rewrite Hplain in Hplain'.
    assert (map Ok es' = map (@Ok _ Error.t) es) as Hes' by congruence.
    fold specs in Hs. rewrite Hes', length_numbered in Hs.
    do 2 eexists. split; [|exact Hs]. right. simpl. by rewrite Hspecs.
Qed.
End Streaming.

(** The directories are listed before anything is scheduled; or links are not followed
    and no directory is a reparse point. *)
Definition regular_walk : Prop :=
  whole_listing o /\ fits (HR := windows_reader fuel) fs o th_of \/
  o_sort o = false /\ o_process_read_dir o = None /\ o_follow_links o = false /\
  forall spec, tls_ok (th_tls (th_of spec)) /\ readable (th_of spec) (ReadDirSpec.path spec).

Lemma windows_settled :
  0 <= o_max_retries o -> regular_walk ->
  exists valid, (forall spec, deep spec -> valid spec) /\
    forall spec, valid spec -> settled (HR := windows_reader fuel) fs o th_of valid spec.
Proof.
  intros Hr H. apply modes_settled; [done|]. destruct H as [[Hl Hf]|(Hs & Hp & Hfo & Hre)].
  - left. split; [by apply windows_oblivious|done].
  - right. intros spec d anc Hd. destruct (Hre spec). by apply windows_regular.
Qed.
End Contract.

Abbreviation windows_parallel fuel := (parallel_read (HR := windows_reader fuel)).
Abbreviation windows_serial fuel := (serial_read (HR := windows_reader fuel)).
Abbreviation windows_callback fuel := (static_callback (HR := windows_reader fuel)).

(** C14: on Windows, for a finite tree with one directory at the root, where each directory is
    read in a state of the system and of the thread of its own, the same in both walks, the streaming parallel walk and the serial walk built
    from the same options list the same entries in the same order, once the pool has ended;
    and with a thread and room in the channels for the directories of the tree, also while
    the pool is at work.  This holds of a [regular_walk]: either the listing is sorted or
    processed as a whole and every directory is read to an end; or links are not followed and
    every directory cannot be opened, or is listed to its end, with no directory in it that
    is a reparse point. *)
Theorem windows_walk_modes_agree {W : WindowsStd} {C : ClientState} {K : Type} {HN : NtSys K} {E}
    {HW : World.World E (Ordered.t (Result (ReadDir.t C)))}
    {HL : World.WorldLaws E (Ordered.t (Result (ReadDir.t C))) STRICT_WAIT_TIMEOUT}
    fs (o : WalkDirOptions C) fuel (th_of : ReadDirSpec.t C -> thread (K := K))
    num_threads capacity root es st spec t :
  0 <= o_max_retries o -> o_parallelism o <> Serial -> regular_walk fs o fuel th_of ->
  root_entries fs o root = (es, st) -> omap (ReadDir.child_spec st) es = [spec] ->
  0 <= ReadDirSpec.depth spec -> reads (windows_parallel fuel fs o th_of) spec t ->
  Z.of_nat (length (labels [0] t)) + 2 * Z.of_nat num_threads <= usize_max ->
  modes_agree (HR := windows_reader fuel) fs o th_of E num_threads capacity root es spec t.
Proof.
  intros Hr Hpar Hw Hroot Hs Hd Ht Hb.
  destruct (windows_settled fs o fuel th_of Hr Hw) as (valid & Hv & Hsettled).
  eapply (walk_modes_agree (HR := windows_reader fuel)); eauto.
Qed.

(** ** Witness: the root has the entries [sub] and [f.txt]; [sub] has become one with a
    single file [f.txt] when it is read *)

Definition lab_dir_fs : FileSystem := {|
  fs_metadata _ := Err (Os 2 Other);
  fs_symlink_metadata _ := Ok (Win.mk_fs_metadata (Win.mk_file_type true false) 0x10 0 None None None
                                 None None None);
  fs_read_link _ := Err (Os 2 Other);
  fs_canonicalize p := Ok p;
|}.

Definition lab_options : WalkDirOptions unit_client :=
  build (build options_new (max_depth 2)) (parallelism (RayonNewPool 2)).
Definition lab_records (spec : ReadDirSpec.t unit_client) : list nt_record :=
  if ReadDirSpec.depth spec =? 0 then sample_records else drop 3 sample_records.
Definition lab_th (spec : ReadDirSpec.t unit_client) : thread (K := sample_nt) :=
  lab_thread (lab_records spec).
Definition lab_root : ReadDirSpec.t unit_client :=
  @ReadDirSpec.mk _ unit_client 0 (bytes "C:\r") tt None.
Definition lab_subdir : ReadDirSpec.t unit_client :=
  @ReadDirSpec.mk _ unit_client 1 (bytes "C:\r\sub") tt None.

Abbreviation lab_serial := (windows_serial 4 lab_dir_fs lab_options lab_th).
Abbreviation lab_parallel := (windows_parallel 4 lab_dir_fs lab_options lab_th).
Abbreviation lab_callback := (windows_callback 4 lab_dir_fs lab_options lab_th).

Definition lab_tree : tree (Result (ReadDir.t unit_client)) :=
  Node (lab_parallel lab_root) [Node (lab_parallel lab_subdir) []].

Definition lab_roots : list (Result (DirEntry.t unit_client)) :=
  fst (root_entries lab_dir_fs lab_options (bytes "C:\r")).

Lemma win_lab_readable spec :
  tls_ok (th_tls (lab_th spec)) /\ readable 4 (lab_th spec) (ReadDirSpec.path spec).
Proof.
  split; [apply lab_tls_ok|]. left. exists (infos_of (lab_records spec)).
  unfold lab_th, lab_records. destruct (_ =? _);
    (split_and!; [|by vm_compute|repeat constructor]);
    (apply lab_listable; [done| |by vm_compute]); [|apply Forall_drop]; exact sample_records_ok.
Qed.

Definition lab_final : state unit_client :=
  play lab_callback 2 8 (sample_schedule lab_callback 2 8 100 (init [lab_root])) (init [lab_root]).
Definition lab_sent : World.script (Ordered.t (Result (ReadDir.t unit_client))) :=
  World.in_order (sent lab_final).

Lemma windows_walk_modes_agree_witness :
  exists out fuel0, emits 0 lab_roots (preorder lab_tree) out /\
    walk_lists (HR := windows_reader 4) lab_dir_fs lab_options lab_th 2 8 (bytes "C:\r") out /\
    forall f, (2 < f)%nat -> (fuel0 <= f)%nat ->
      iterates (DirEntryIter.next (ReadDirIter.next lab_parallel f) f)
        (into_iter lab_dir_fs (at_capacity lab_options 8) (bytes "C:\r") true (fun _ => lab_sent)) out /\
      iterates (DirEntryIter.next (ReadDirIter.next lab_serial f) f)
        (into_iter lab_dir_fs (build lab_options (parallelism Serial)) (bytes "C:\r") true
          (fun _ => lab_sent)) out.
Proof.
  destruct (windows_walk_modes_agree (E := World.script (Ordered.t (Result (ReadDir.t unit_client))))
    lab_dir_fs lab_options 4 lab_th 2 8 (bytes "C:\r") lab_roots tt lab_root lab_tree)
    as (out & fuel0 & Hout & H & Hc).
  - by vm_compute.
  - done.
  - right. split_and!; try done. exact win_lab_readable.
  - unfold lab_roots. by destruct (root_entries _ _ _) as [es []].
  - vm_refl.
  - done.
  - constructor. assert (children (lab_parallel lab_root) = [lab_subdir]) as -> by vm_refl.
    constructor; [|constructor]. constructor.
    assert (children (lab_parallel lab_subdir) = []) as -> by vm_refl. constructor.
  - by vm_compute.
  - exists out, fuel0. split; [exact Hout|]. split; [apply Hc; [lia|vm_compute; lia]|]. intros f Hf Hf0.
    apply (H lab_final lab_sent); [apply play_reachable|vm_refl|vm_refl|apply World.in_order_arrivals
      |apply World.in_order_running|apply (World.in_order_fuel _ _ 2); [vm_refl|exact Hf]|exact Hf0].
Defined.
