(* ===== verification/Scan.v ===== *)
(** * A client of the library: [examples/scan_bench.rs]

    The benchmark counts the entries of a walk twice and compares with [walk_std], a
    recursion over [std::fs::read_dir].  Where nothing is a link to a directory, the
    walk and the recursion count the same; times, rates and printing are left out. *)
From S2P Require Import Prelude Order Tree World Std Error Metadata Platform DirEntry Callback.
From S2P Require Import LegacyReadDir OrderedQueue ReadDirIter DirEntryIter ParWalk ParComplete.
From S2P Require Import UnixEnum LinuxReadDir WalkDir WalkTypes WalkModes UnixWalk.

#[local] Existing Instance unit_client.
Abbreviation C := unit_client.
Abbreviation entry := (DirEntry.t C).

Record counts := mk_counts { total_entries : Z; total_dirs : Z; total_files : Z; total_errors : Z }.

(** One turn of the first loop of [main]. *)
Definition scan_step (c : counts) (r : Result entry) : counts :=
  match r with
  | Ok e =>
      if is_dir (DirEntry.file_type e)
      then mk_counts (usize_add (total_entries c) 1) (usize_add (total_dirs c) 1)
             (total_files c) (total_errors c)
      else mk_counts (usize_add (total_entries c) 1) (total_dirs c)
             (usize_add (total_files c) 1) (total_errors c)
  | Err _ => mk_counts (total_entries c) (total_dirs c) (total_files c) (usize_add (total_errors c) 1)
  end.

Definition scan (walk : list (Result entry)) : counts := fold_left scan_step walk (mk_counts 0 0 0 0).

(** The second run: [entries2]. *)
Definition scan_warm (walk : list (Result entry)) : Z :=
  fold_left (fun entries2 _ => usize_add entries2 1) walk 0.

Section WalkStd.
Context (fs : FileSystem) (fs_read_dir : Path -> result (list (result fs_DirEntry io_Error)) io_Error).

(** [Path::is_dir] of [std] *)
Definition path_is_dir (p : Path) : bool :=
  match fs_metadata fs p with Ok m => is_dir (md_file_type m) | Err _ => false end.

(** The loop over a listing; [recurse] is the recursive call. *)
Fixpoint walk_std_loop (recurse : Path -> Z -> Z -> exec (Z * Z))
    (read_dir : list (result fs_DirEntry io_Error)) (entries errors : Z) : exec (Z * Z) :=
  match read_dir with
  | [] => Ret (entries, errors)
  | Ok e :: read_dir' =>
      let entries := usize_add entries 1 in
      let p := de_path e in
      let! c := (if path_is_dir p then recurse p entries errors else Ret (entries, errors)) in
      walk_std_loop recurse read_dir' (fst c) (snd c)
  | Err _ :: read_dir' => walk_std_loop recurse read_dir' entries (usize_add errors 1)
  end.

(** One unit of fuel per level of directories. *)
Fixpoint walk_std (fuel : nat) (path : Path) (entries errors : Z) : exec (Z * Z) :=
  match fuel with
  | O => NoFuel
  | S fuel' =>
      match fs_read_dir path with
      | Ok read_dir => walk_std_loop (walk_std fuel') read_dir entries errors
      | Err _ => Ret (entries, errors)
      end
  end.
End WalkStd.

(** ** Counting *)

Fixpoint oks (l : list (Result entry)) : Z :=
  match l with [] => 0 | Ok _ :: l' => 1 + oks l' | Err _ :: l' => oks l' end.
Fixpoint errs (l : list (Result entry)) : Z :=
  match l with [] => 0 | Ok _ :: l' => errs l' | Err _ :: l' => 1 + errs l' end.

Lemma oks_app l1 l2 : oks (l1 ++ l2) = oks l1 + oks l2.
Proof. induction l1 as [|[e|e] l1 IH]; simpl; lia. Qed.
Lemma errs_app l1 l2 : errs (l1 ++ l2) = errs l1 + errs l2.
Proof. induction l1 as [|[e|e] l1 IH]; simpl; lia. Qed.
Lemma counts_length l : 0 <= oks l /\ 0 <= errs l /\ oks l + errs l = Z.of_nat (length l).
Proof. induction l as [|[e|e] l IH]; simpl; lia. Qed.

Lemma scan_counts l c :
  0 <= total_entries c -> 0 <= total_dirs c -> 0 <= total_files c -> 0 <= total_errors c ->
  total_dirs c + total_files c = total_entries c ->
  total_entries c + total_errors c + Z.of_nat (length l) <= usize_max ->
  let c' := fold_left scan_step l c in
  total_dirs c' + total_files c' = total_entries c' /\
  total_entries c' = total_entries c + oks l /\ total_errors c' = total_errors c + errs l.
Proof.
  revert c. induction l as [|r l IH]; intros c H1 H2 H3 H4 H5 Hb; [simpl; lia|].
  cbn [length] in Hb. cbn [fold_left].
  assert (let c1 := scan_step c r in
    0 <= total_entries c1 /\ 0 <= total_dirs c1 /\ 0 <= total_files c1 /\ 0 <= total_errors c1 /\
    total_dirs c1 + total_files c1 = total_entries c1 /\
    total_entries c1 = total_entries c + oks [r] /\ total_errors c1 = total_errors c + errs [r])
    as (G1 & G2 & G3 & G4 & G5 & G6 & G7).
  { destruct r as [e|e]; simpl; [destruct (Std.is_dir (DirEntry.file_type e))|]; simpl; rewrite ?usize_add_small by lia; lia. }
  pose proof (counts_length [r]) as Hr. simpl length in Hr.
  change (oks (r :: l)) with (oks ([r] ++ l)). change (errs (r :: l)) with (errs ([r] ++ l)).
  rewrite oks_app, errs_app. destruct (IH (scan_step c r)) as (E1 & E2 & E3); try done; lia.
Qed.

Lemma scan_warm_length l n :
  0 <= n -> n + Z.of_nat (length l) <= usize_max ->
  fold_left (fun entries2 (_ : Result entry) => usize_add entries2 1) l n = n + Z.of_nat (length l).
Proof.
  revert n. induction l as [|x l IH]; intros n Hn Hb; simpl in *; [lia|].
  rewrite usize_add_small by lia. rewrite IH; lia.
Qed.

(** ** The walk and the recursion *)

Section Compare.
Context (fs : FileSystem) (listing : Path -> result (list (result fs_DirEntry io_Error)) io_Error).

(** The options of [WalkDir::new]. *)
Abbreviation o := (options_new (C := C)).
Abbreviation read := (legacy_serial listing fs o (fun _ => tt)).
Abbreviation std fuel := (walk_std fs listing fuel).

(** The entry has a type, and is a directory exactly when its path leads to one: it is
    no link to a directory. *)
Definition plain (r : result fs_DirEntry io_Error) : Prop :=
  match r with
  | Ok e => exists ft, de_file_type e = Ok ft /\ is_dir ft = path_is_dir fs (de_path e)
  | Err _ => True
  end.

Context (Hplain : forall path l, listing path = Ok l -> Forall plain l).

(** What the walk makes of the entries of a directory. *)
Abbreviation made_entry path d anc := (legacy_entry (C := C) fs false false false false path d anc).

Lemma legacy_serial_read spec :
  deep spec -> exists d anc, 0 < d /\
    read spec = res_map_err (Error.from_path 0 (ReadDirSpec.path spec))
      (res_map (fun l => ReadDir.new (ReadDirSpec.client_read_state spec)
                  (omap (made_entry (ReadDirSpec.path spec) d anc) l))
        (listing (ReadDirSpec.path spec))).
Proof.
  intros Hd. unfold deep in Hd. set (d := saturating_add (ReadDirSpec.depth spec) 1).
  exists d, (ReadDirSpec.follow_link_ancestors spec).
  assert (0 < usize_max) as Hmax by done.
  split; [unfold d, saturating_add; lia|]. unfold serial_read, core_read_dir_callback. fold d.
  destruct (Z.ltb_spec (o_max_depth o) d) as [Hlt|_];
    [unfold d, saturating_add in Hlt; change (o_max_depth o) with usize_max in Hlt; lia|].
  set (op := read_dir _ _ _ _ _ _ _).
  assert (forall ctx, op ctx tt = Returns (Ret (res_map_err (Error.from_path 0 (ReadDirSpec.path spec))
      (res_map (fun l => ReadDir.new (ReadDirSpec.client_read_state spec)
                  (omap (made_entry (ReadDirSpec.path spec) d (ReadDirSpec.follow_link_ancestors spec)) l))
        (listing (ReadDirSpec.path spec))), tt))) as E.
  { intros ctx. unfold op. simpl. unfold read_dir_unix_fs_legacy.
    by destruct (listing (ReadDirSpec.path spec)). }
  destruct (listing (ReadDirSpec.path spec)) as [l|e]; simpl in E.
  - erewrite retry_first; [|done|by rewrite E]. done.
  - by erewrite retry_always_fails by (try done; exact E).
Qed.

(** An entry of the walk for an entry of the listing. *)
Lemma made_plain path d anc e :
  0 < d -> plain (Ok e) ->
  exists x, made_entry path d anc (Ok e) = Some (Ok x) /\ DirEntry.depth x = d /\
    DirEntry.read_children_path x = if path_is_dir fs (de_path e) then Some (de_path e) else None.
Proof.
  intros Hd (ft & E & Hft). unfold legacy_entry. simpl. unfold DirEntry.from_entry. rewrite E. simpl.
  rewrite (proj2 (Z.eqb_neq _ _)) by lia. eexists. split; [done|]. split; [done|]. simpl.
  simpl in Hft. by rewrite Hft.
Qed.

(** The recursion below [spec] counts what the walk lists below it, the reads being [t]. *)
Definition counts_like (spec : ReadDirSpec.t C) (t : tree (Result (ReadDir.t C))) : Prop :=
  match t with
  | Node (Ok rd) ts => exists out k, emits 0 (ReadDir.results_list rd) (flat_map preorder ts) out /\
      forall fuel n m, (k <= fuel)%nat -> 0 <= n -> 0 <= m -> n + oks out <= usize_max ->
        m + errs out <= usize_max -> std fuel (ReadDirSpec.path spec) n m = Ret (n + oks out, m + errs out)
  | Node (Err _) ts => ts = [] /\ forall fuel n m, std (S fuel) (ReadDirSpec.path spec) n m = Ret (n, m)
  end.

Lemma shown_all (e : entry) : 0 <= DirEntry.depth e -> shown 0 e = [Ok e].
Proof. intros H. unfold shown. by rewrite (proj2 (Z.leb_le _ _)). Qed.

Lemma spec_of_dir st (e : entry) p :
  DirEntry.read_children_path e = Some p ->
  @ReadDir.child_spec _ C st (Ok e) =
    Some (@ReadDirSpec.mk _ C (DirEntry.depth e) p st (DirEntry.follow_link_ancestors e)).
Proof. intros H. unfold ReadDir.child_spec, DirEntry.read_children_spec. simpl. by rewrite H. Qed.

#[local] Ltac count_rest Hstd := cbn [exec_bind fst snd]; rewrite Hstd by lia; do 2 f_equal; lia.

(** The loop over a listing, its sub-directories counting as they should. *)
Lemma loop_counts path d anc st l ts :
  0 < d -> Forall plain l ->
  Forall2 counts_like (omap (@ReadDir.child_spec _ C st) (omap (made_entry path d anc) l)) ts ->
  exists out k, emits 0 (omap (made_entry path d anc) l) (flat_map preorder ts) out /\
    forall fuel n m, (k <= fuel)%nat -> 0 <= n -> 0 <= m -> n + oks out <= usize_max ->
      m + errs out <= usize_max -> walk_std_loop fs (std fuel) l n m = Ret (n + oks out, m + errs out).
Proof.
  intros Hd Hl. revert ts. induction Hl as [|[e|e] l He _ IH]; intros ts Hts.
  - inversion Hts; subst. exists [], 0%nat. split; [constructor|]. intros fuel n m _ Hn Hm _ _.
    simpl. by rewrite !Z.add_0_r.
  - destruct (made_plain path d anc e Hd He) as (x & Ex & Hx & Hc).
    cbn [omap list_omap] in Hts |- *. rewrite Ex in Hts |- *. cbn [omap list_omap] in Hts.
    destruct (path_is_dir fs (de_path e)) eqn:Ep.
    + rewrite (spec_of_dir st x _ Hc) in Hts. apply Forall2_cons_inv_l in Hts as (t & ts' & Ht & Hts & ->).
      destruct (IH ts' Hts) as (out & k & Hout & Hstd). destruct t as [[rd|err] ts1]; cbn [counts_like ReadDirSpec.path] in Ht.
      * destruct Ht as (out1 & k1 & Hout1 & Hstd1). exists (shown 0 x ++ out1 ++ out), (k1 + k)%nat. split.
        { simpl. by eapply emits_dir. }
        rewrite shown_all by lia.
        intros fuel n m Hf Hn Hm Hn' Hm'. cbn [app oks errs walk_std_loop] in *. rewrite oks_app, errs_app in *.
        pose proof (counts_length out). pose proof (counts_length out1).
        rewrite Ep, usize_add_small, Hstd1 by lia. count_rest Hstd.
      * destruct Ht as [-> Hstd1].
        exists (shown 0 (DirEntry.set_read_children_error x (Some err)) ++ out), (S k). split.
        { simpl. by eapply emits_failed. }
        rewrite shown_all by (simpl; lia).
        intros [|fuel] n m Hf Hn Hm Hn' Hm'; [lia|]. cbn [app oks errs walk_std_loop] in *.
        pose proof (counts_length out). rewrite Ep, Hstd1, usize_add_small by lia. count_rest Hstd.
    + rewrite (proj2 (child_spec_ok st x) Hc) in Hts. destruct (IH ts Hts) as (out & k & Hout & Hstd).
      exists (shown 0 x ++ out), k. split; [by apply emits_leaf|]. rewrite shown_all by lia.
      intros fuel n m Hf Hn Hm Hn' Hm'. cbn [app oks errs walk_std_loop] in *.
      pose proof (counts_length out). rewrite Ep, usize_add_small by lia. count_rest Hstd.
  - cbn [omap list_omap legacy_entry] in Hts |- *. destruct (IH ts Hts) as (out & k & Hout & Hstd).
    exists (Err (Error.from_io d e) :: out), k. split; [by constructor|].
    intros fuel n m Hf Hn Hm Hn' Hm'. cbn [app oks errs walk_std_loop] in *.
    pose proof (counts_length out). rewrite usize_add_small by lia. count_rest Hstd.
Qed.

Lemma reads_count t spec : deep spec -> reads read spec t -> counts_like spec t.
Proof.
  revert spec. induction t as [v ts IH] using tree_nested_ind. intros spec Hd Hr.
  apply reads_inv in Hr as [-> Hr].
  destruct (serial_read_wf (HR := legacy_reader listing) (HW := legacy_reader_wf listing) fs o (fun _ => tt)
    eq_refl spec Hd) as [_ Hc].
  destruct (legacy_serial_read spec Hd) as (d & anc & Hpos & E).
  destruct (listing (ReadDirSpec.path spec)) as [l|e] eqn:El; cbn [res_map res_map_err] in E;
    rewrite E in *.
  - pose proof (Hplain _ _ El) as Hl. cbn [children] in Hr, Hc.
    destruct (loop_counts (ReadDirSpec.path spec) d anc (ReadDirSpec.client_read_state spec) l ts)
      as (out & k & Hout & Hstd); [done|done| |].
    { unfold ReadDir.read_children_specs in Hr, Hc. simpl in Hr, Hc. clear -Hr Hc IH.
      induction Hr as [|s t ss ts Hs _ IHr]; [constructor|]. apply Forall_cons in IH as [IH1 IH2].
      apply Forall_cons in Hc as [Hc1 Hc2]. constructor; auto. }
    exists out, (S k). split; [done|]. intros [|fuel] n m Hf; [lia|]. intros. simpl. rewrite El.
    apply Hstd; try done; lia.
  - inversion Hr; subst. split; [done|]. intros fuel n m. simpl. by rewrite El.
Qed.

(** ** The root *)

Context (root : Path) (md : fs_Metadata) (Hmd : fs_symlink_metadata fs root = Ok md)
  (Hdir : is_dir (md_file_type md) = true).

Definition scan_spec : ReadDirSpec.t C := @ReadDirSpec.mk _ C 0 root tt None.

Lemma scan_root :
  exists e, root_entries fs o root = ([Ok e], tt) /\ DirEntry.depth e = 0 /\
    DirEntry.read_children_path e = Some root /\ @ReadDir.child_spec _ C tt (Ok e) = Some scan_spec.
Proof.
  pose proof (proj1 (ft_kinds_disjoint (md_file_type md)) Hdir) as [_ Hs].
  unfold root_entries, DirEntry.from_path. simpl. rewrite Hmd. simpl in *. rewrite Hdir, Hs. simpl.
  eexists. by split_and!.
Qed.

Lemma scan_compares t out e :
  reads read scan_spec t -> DirEntry.read_children_path e = Some root -> DirEntry.depth e = 0 ->
  emits 0 [Ok e] (preorder t) out -> Z.of_nat (length out) <= usize_max ->
  exists k, let c := scan out in
    total_dirs c + total_files c = total_entries c /\
    scan_warm out = total_entries c + total_errors c /\
    forall fuel, (k <= fuel)%nat -> std fuel root 0 0 = Ret (total_entries c - 1, total_errors c).
Proof.
  intros Ht Hc Hd Hout Hb. pose proof (reads_count t scan_spec ltac:(done) Ht) as H.
  assert (exists x out0 k, out = Ok x :: out0 /\ forall fuel, (k <= fuel)%nat ->
    Z.of_nat (length out0) <= usize_max -> std fuel root 0 0 = Ret (oks out0, errs out0))
    as (x & out0 & k & -> & Hstd).
  { destruct t as [[rd|err] ts]; cbn [counts_like] in H.
    - destruct H as (out0 & k & Hout0 & Hstd). exists e, out0, k. split.
      + assert (emits 0 [Ok e] (Ok rd :: flat_map preorder ts ++ []) (shown 0 e ++ out0 ++ [])) as H1
          by (eapply emits_dir; [done|done|constructor]).
        rewrite shown_all, !app_nil_r in H1 by lia. exact (emits_det _ _ _ _ _ Hout H1).
      + intros fuel Hf Hl. pose proof (counts_length out0). apply Hstd; lia || done.
    - destruct H as [-> Hstd]. exists (DirEntry.set_read_children_error e (Some err)), [], 1%nat. split.
      + assert (emits 0 [Ok e] [Err err] (shown 0 (DirEntry.set_read_children_error e (Some err)) ++ []))
          as H1 by (eapply emits_failed; [done|constructor]).
        rewrite shown_all in H1 by (simpl; lia). exact (emits_det _ _ _ _ _ Hout H1).
      + intros [|fuel] Hf _; [lia|]. apply Hstd. }
  cbn [length] in Hb. pose proof (counts_length (Ok x :: out0)) as Hlen.
  pose proof (counts_length out0) as Hlen0. exists k.
  destruct (scan_counts (Ok x :: out0) (mk_counts 0 0 0 0)) as (E1 & E2 & E3); try (simpl; lia).
  cbv zeta. unfold scan, scan_warm. rewrite scan_warm_length by (cbn [length]; lia).
  cbn [oks errs length total_entries total_errors] in *. split_and!; [done|lia|].
  intros fuel Hf. rewrite Hstd by (done || lia). do 2 f_equal; lia.
Qed.
End Compare.

(** C39: [scan_bench], where [std::fs] reads the directories and nothing is a link to a
    directory: the parallel walk of a directory with the default options lists the same
    entries in every interleaving and order of delivery, also while the pool is at work if
    there is room for its directories; the first run counts each as a
    directory or a file, or as an error; the second counts entries and errors together;
    and [walk_std] ends, having counted every entry but the root, and the same
    errors. *)
Theorem scan_counts_like_std_walk {E} {HW : World.World E (Ordered.t (Result (ReadDir.t C)))}
    {HL : World.WorldLaws E (Ordered.t (Result (ReadDir.t C))) STRICT_WAIT_TIMEOUT}
    fs listing root md num_threads capacity t :
  (forall path l, listing path = Ok l -> Forall (plain fs) l) ->
  (forall path l, listing path = Ok l -> Z.of_nat (length l) <= usize_max) ->
  fs_symlink_metadata fs root = Ok md -> is_dir (md_file_type md) = true ->
  reads (legacy_parallel listing fs options_new (fun _ => tt)) (scan_spec root) t ->
  Z.of_nat (length (labels [0] t)) + 2 * Z.of_nat num_threads <= usize_max ->
  exists out k fuel0,
    (forall s (e : E) f,
      reachable (legacy_callback listing fs options_new (fun _ => tt)) num_threads capacity
        (init [scan_spec root]) s ->
      stop s = false -> iter s = IEnded ->
      World.arrivals e = sent s -> World.running e ->
      (length (World.arrivals e) + World.patience e < f)%nat -> (fuel0 <= f)%nat ->
      iterates (DirEntryIter.next (ReadDirIter.next (legacy_parallel listing fs options_new (fun _ => tt)) f) f)
        (into_iter fs (at_capacity options_new capacity) root true (fun _ => e)) out) /\
    ((0 < num_threads)%nat -> (length (labels [0%Z] t) <= capacity)%nat ->
      walk_lists (HR := legacy_reader listing) fs options_new (fun _ => tt) num_threads capacity root
        out) /\
    (Z.of_nat (length out) <= usize_max ->
      let c := scan out in
      total_dirs c + total_files c = total_entries c /\
      scan_warm out = total_entries c + total_errors c /\
      forall fuel, (k <= fuel)%nat ->
        walk_std fs listing fuel root 0 0 = Ret (total_entries c - 1, total_errors c)).
Proof.
  intros Hplain Hlen Hmd Hdir Ht Hb.
  destruct (scan_root fs root md Hmd Hdir) as (e0 & Hroot & Hd & Hc & Hs).
  assert (fits (HR := legacy_reader listing) fs options_new (fun _ => tt)) as Hfits by (by apply legacy_fits).
  assert (forall spec, True -> settled (HR := legacy_reader listing) fs options_new (fun _ => tt) (fun _ => True) spec)
    as Hset by (intros spec _; apply oblivious_settled; [apply legacy_oblivious|done]).
  destruct (walk_modes_agree (HR := legacy_reader listing) (E := E) fs options_new (fun _ => tt) (fun _ => True)
    Hset num_threads capacity root [Ok e0] tt (scan_spec root) t) as (out & fuel0 & Hout & Hy & Hcc);
    try done; [by cbn [omap list_omap]; rewrite Hs|].
  pose proof (reads_unstreamed (HR := legacy_reader listing) fs options_new (fun _ => tt) (fun _ => True) Hset
    _ _ I Ht) as Ht'.
  apply emits_unstreamed in Hout. rewrite <- preorder_map in Hout.
  exists out.
  destruct (Z.le_gt_cases (Z.of_nat (length out)) usize_max) as [Hl|Hl].
  - destruct (scan_compares fs listing Hplain root _ _ e0 Ht' Hc Hd Hout Hl) as (k & H).
    exists k, fuel0. split; [|split; [apply Hcc|by intros _]]. intros s e f; intros. by eapply (Hy s e f).
  - exists 0%nat, fuel0. split; [|split; [apply Hcc|intros; lia]]. intros s e f; intros. by eapply (Hy s e f).
Qed.

(** ** Witness: [/r] with [sub] (empty), a file and an entry that cannot be read *)

Definition bench_is_dir (p : Path) : bool :=
  bool_decide (p = bytes "/r") || bool_decide (p = bytes "/r/sub").

Definition bench_metadata (p : Path) : result fs_Metadata io_Error :=
  Ok (if bench_is_dir p then md_of 0x41ED 1 2 else md_of 0x81A4 1 3).

Definition bench_fs : FileSystem := {|
  fs_metadata := bench_metadata;
  fs_symlink_metadata := bench_metadata;
  fs_read_link p := Err (Os 22 Other);
  fs_canonicalize p := Ok p;
|}.

Definition bench_dirent (path name : Path) (mode : Z) : fs_DirEntry :=
  mk_fs_dir_entry (Ok (mk_file_type mode : Platform.FileType)) path name (Err (Os 13 Other)).

Definition bench_listing (p : Path) : result (list (result fs_DirEntry io_Error)) io_Error :=
  if bool_decide (p = bytes "/r") then
    Ok [Ok (bench_dirent (bytes "/r/sub") (bytes "sub") S_IFDIR); Err (Os 5 Other);
        Ok (bench_dirent (bytes "/r/f.txt") (bytes "f.txt") S_IFREG)]
  else if bool_decide (p = bytes "/r/sub") then Ok []
  else Err (Os 20 Other).

Lemma bench_listing_plain p l :
  bench_listing p = Ok l -> Forall (plain bench_fs) l /\ Z.of_nat (length l) <= usize_max.
Proof.
  unfold bench_listing. intros E.
  destruct (bool_decide (p = bytes "/r")); [|destruct (bool_decide _)]; simplify_eq/=; [|by split].
  split; [|by vm_compute]. repeat constructor; by eexists.
Qed.

Abbreviation bench_read := (legacy_parallel bench_listing bench_fs options_new (fun _ => tt)).
Abbreviation bench_callback := (legacy_callback bench_listing bench_fs options_new (fun _ => tt)).
Definition bench_root : ReadDirSpec.t C := scan_spec (bytes "/r").
Definition bench_sub : ReadDirSpec.t C := @ReadDirSpec.mk _ C 1 (bytes "/r/sub") tt None.
Definition bench_tree : tree (Result (ReadDir.t C)) := Node (bench_read bench_root) [Node (bench_read bench_sub) []].
Definition bench_final : state C :=
  play bench_callback 2 8 (sample_schedule bench_callback 2 8 100 (init [bench_root])) (init [bench_root]).
Definition bench_sent : World.script (Ordered.t (Result (ReadDir.t C))) :=
  World.in_order (sent bench_final).

Lemma scan_counts_like_std_walk_witness :
  exists out k fuel0,
    (forall f, (2 < f)%nat -> (fuel0 <= f)%nat ->
      iterates (DirEntryIter.next (ReadDirIter.next bench_read f) f)
        (into_iter bench_fs (at_capacity options_new 8) (bytes "/r") true (fun _ => bench_sent)) out) /\
    walk_lists (HR := legacy_reader bench_listing) bench_fs options_new (fun _ => tt) 2 8 (bytes "/r")
      out /\
    (Z.of_nat (length out) <= usize_max ->
      let c := scan out in
      total_dirs c + total_files c = total_entries c /\
      scan_warm out = total_entries c + total_errors c /\
      forall fuel, (k <= fuel)%nat ->
        walk_std bench_fs bench_listing fuel (bytes "/r") 0 0 =
          Ret (total_entries c - 1, total_errors c)).
Proof.
  destruct (scan_counts_like_std_walk (E := World.script (Ordered.t (Result (ReadDir.t C))))
    bench_fs bench_listing (bytes "/r") (md_of 0x41ED 1 2) 2 8 bench_tree)
    as (out & k & fuel0 & Hy & Hcc & Hc).
  - intros p l E. exact (proj1 (bench_listing_plain p l E)).
  - intros p l E. exact (proj2 (bench_listing_plain p l E)).
  - vm_refl.
  - vm_refl.
  - constructor. assert (children (bench_read bench_root) = [bench_sub]) as -> by vm_refl.
    constructor; [|constructor]. constructor.
    assert (children (bench_read bench_sub) = []) as -> by vm_refl. constructor.
  - by vm_compute.
  - exists out, k, fuel0. split; [|split; [apply Hcc; [lia|by vm_compute; lia]|exact Hc]]. intros f Hf Hf0.
    apply (Hy bench_final bench_sent); [apply play_reachable|vm_refl|vm_refl|apply World.in_order_arrivals
      |apply World.in_order_running|apply (World.in_order_fuel _ _ 2); [vm_refl|exact Hf]|exact Hf0].
Defined.

(** The recursion counts the three elements of the listing. *)
Example bench_walk_std : walk_std bench_fs bench_listing 2 (bytes "/r") 0 0 = Ret (2, 1).
Proof. by vm_compute. Qed.
