(* ===== verification/ScanExt.v ===== *)
(** * The metadata options on Linux, and the clients [examples/scan_bench_ext.rs],
    [examples/scan_unix.rs], [examples/smb_enum_bench.rs] and [examples/debug_hang.rs]

    [LinuxBare]: what [read_dir_linux_via_getdents] lists does not depend on
    [read_metadata] and [read_metadata_ext], metadata aside; so neither does a walk.  The
    three runs of [scan_bench_ext] therefore count the same; times and printing are left
    out. *)
From S2P Require Import Prelude Order Tree World Error Platform DirEntry Callback Std Metadata.
From S2P Require Import UnixEnum FsDetect IoUring LinuxReadDir LegacyReadDir OrderedQueue ReadDirIter DirEntryIter.
From S2P Require Import ParWalk ParComplete PoolWorld WalkDir WalkTypes WalkModes Bare UnixWalk Scan.

Section LinuxBare.
Context {C : ClientState} {K : Type} {HS : Sys K} {HF : FsSys K} {HR : Ring K} {HK : SaneKernel K}.
Context (fs : FileSystem).
Implicit Types (infos : list LinuxDirEntryOwned) (v : Z * OsString).

(** The entry built from a type and a name, and what is listed for it. *)
Definition raw_of (d : Z) (path : Path) (anc : option (list AncestorIdentity.t)) v :
    Result (DirEntry.t C) :=
  DirEntry.from_raw d path None None (snd v)
    (default (file_type_from_mode S_IFREG) (file_type_from_dtype (fst v))) anc.

Definition listed (follow skip : bool) (d : Z) (path : Path)
    (anc : option (list AncestorIdentity.t)) (vs : list (Z * OsString)) : list (Result (DirEntry.t C)) :=
  map (fun v => bare_entry (process_dir_entry_result fs (raw_of d path anc v) follow))
    (List.filter (fun v => negb (skip && is_hidden (snd v))) vs).

Lemma build_entries_bare follow md ext skip infos d path fd anc k :
  Forall typed infos -> Forall entry_ok infos ->
  exists l k', build_entries fs follow md ext skip infos d path fd anc k = Ret (l, k') /\
    map bare_entry l = listed follow skip d path anc (map entry_view infos).
Proof.
  intros Ht Hok. revert k. induction Ht as [|info infos [ft Hft] _ IH]; intros k; [by exists [], k|].
  apply Forall_cons in Hok as [Hi Hok]. cbn [build_entries]. unfold listed in *. simpl.
  destruct (skip && is_hidden (le_name info)); cbn [negb]; [by apply IH|].
  destruct (make_dir_entry_linux_raw (C := C) md ext info ft d path fd anc k Hft Hi)
    as (m & x & k1 & ->).
  cbn [exec_bind]. destruct (IH Hok k1) as (l & k2 & -> & E). cbn [exec_bind].
  eexists _, k2. split; [done|]. cbn [map]. rewrite E. f_equal.
  transitivity (bare_entry (process_dir_entry_result fs
    (DirEntry.from_raw d path m x (le_name info) ft anc) follow)); [done|].
  rewrite process_bare. unfold raw_of, entry_view. cbn [fst snd]. by rewrite Hft.
Qed.

Context (fuel : nat).

Definition plain_results (follow skip sort : bool) (d : Z) (path : Path)
    (anc : option (list AncestorIdentity.t)) (vs : list (Z * OsString)) : list (Result (DirEntry.t C)) :=
  let l := listed follow skip d path anc vs in if sort then sort_dir_entries_by_name l else l.

Lemma finish_bare follow md ext skip sort path rdd d anc st fd entries (th : thread (K := K)) :
  Forall typed entries -> Forall entry_ok entries ->
  exists rd th', finish_read_dir fs follow md ext skip sort None path rdd d anc st (Ok (fd, entries)) th 0
      = Ret (Ok rd, th') /\
    bare_read (Ok rd) =
      Ok (ReadDir.new st (plain_results follow skip sort d path anc (map entry_view entries))).
Proof.
  intros Ht Hok. unfold finish_read_dir. destruct (prefetch_statx _ _ path entries fd th) as [en th1] eqn:Ep.
  apply prefetch_refined in Ep as [Ev Ho].
  destruct (build_entries_bare follow md ext skip en d path fd anc (th_kernel th1)) as (l & k & -> & E);
    [by eapply refined_typed|by apply Ho|]. rewrite Ev in E.
  cbn [exec_bind]. eexists _, _. split; [done|]. unfold plain_results. simpl. f_equal. f_equal.
  destruct sort; [by rewrite sort_bare, E|done].
Qed.

(** In the states [th] and [th'], of the system and of a thread, the path gives the same
    entries, of known types, or cannot be opened; all else may differ: what [statx] says,
    the cached strategies, the ring, the buffer. *)
Definition same_listing (th th' : thread (K := K)) (path : Path) : Prop :=
  (exists entries, listable fuel path (th_kernel th) entries /\ listable fuel path (th_kernel th') entries /\
     Forall typed entries /\ Z.of_nat (length entries) <= usize_max) \/
  (exists e, open_dir_fd path (th_kernel th) = (Err e, th_kernel th) /\
     open_dir_fd path (th_kernel th') = (Err e, th_kernel th')).

Lemma same_listing_sym th th' path : same_listing th th' path -> same_listing th' th path.
Proof. intros [(en & H1 & H2 & H)|(e & H1 & H2)]; [left; by exists en|right; by exists e]. Qed.

Lemma same_listing_readable th th' path : same_listing th th' path -> readable fuel th path.
Proof. intros [(en & H1 & _ & H)|(e & H1 & _)]; [left; by exists en|right; by exists e]. Qed.

Lemma readable_same_listing th th' path :
  th_kernel th' = th_kernel th -> readable fuel th path -> same_listing th th' path.
Proof.
  unfold same_listing. intros -> [(en & H1 & H)|(e & H1)]; [left; by exists en|right; by exists e].
Qed.

(** Without a streaming context, a directory reads the same in both, whatever metadata is
    asked for. *)
Lemma plain_read follow skip sort th1 th2 path rdd d anc st :
  same_listing th1 th2 path ->
  exists X : Result (ReadDir.t C), forall md ext th, th = th1 \/ th = th2 ->
    (exists e, X = Err e /\ forall ctx, read_dir_linux_via_getdents fs follow md ext skip sort None fuel path
       rdd d anc st ctx th = Returns (Ret (Err e, th))) \/
    (exists rd th', read_dir_linux_via_getdents fs follow md ext skip sort None fuel path
       rdd d anc st None th = Returns (Ret (Ok rd, th')) /\ bare_read (Ok rd) = X).
Proof.
  intros [(entries & L1 & L2 & Ht & _)|(e & He1 & He2)].
  - exists (Ok (ReadDir.new st (plain_results follow skip sort d path anc (map entry_view entries)))).
    intros md ext th Hth. right.
    assert (listable fuel path (th_kernel th) entries) as [cstr fd k1 k2 bs Hp Ho Hs Hf ->]
      by (by destruct Hth as [-> | ->]). unfold read_dir_linux_via_getdents.
    rewrite (plain_enumeration _ _ _ _ _ _ _ _ _ _ Hp Ho Hs Hf).
    destruct (finish_bare follow md ext skip sort path rdd d anc st fd (entries_of (concat bs))
      (set_kernel th k2) Ht (entries_of_ok _)) as (rd & th' & -> & E). by exists rd, th'.
  - eexists. intros md ext th Hth. left. eexists. split; [done|]. intros ctx.
    assert (open_dir_fd path (th_kernel th) = (Err e, th_kernel th)) as He by (by destruct Hth as [-> | ->]).
    unfold read_dir_linux_via_getdents, enumerate_dir_unix_streaming, enumerate_dir_unix. rewrite He.
    by destruct ctx, sort; destruct th.
Qed.

(** ** The walk *)

Abbreviation serial := (linux_serial fuel fs).

Lemma serial_outcome (th_of : ReadDirSpec.t C -> thread (K := K)) (p : WalkDirOptions C) spec (X : Result (ReadDir.t C)) :
  0 <= o_max_retries p -> saturating_add (ReadDirSpec.depth spec) 1 <= o_max_depth p ->
  let op := read_dir (DirReader := linux_reader fuel) fs (read_options p) (ReadDirSpec.path spec)
    (ReadDirSpec.depth spec) (saturating_add (ReadDirSpec.depth spec) 1)
    (extend_ancestors fs p (ReadDirSpec.path spec) (ReadDirSpec.follow_link_ancestors spec))
    (ReadDirSpec.client_read_state spec) in
  (exists e, X = Err e /\ forall ctx, op ctx (th_of spec) = Returns (Ret (Err e, th_of spec))) \/
  (exists rd th', op None (th_of spec) = Returns (Ret (Ok rd, th')) /\ bare_read (Ok rd) = X) ->
  bare_read (serial p th_of spec) = X.
Proof.
  intros Hr Hd op H. unfold serial_read, core_read_dir_callback. rewrite (proj2 (Z.ltb_ge _ _)) by done.
  fold op. destruct H as [(e & -> & He)|(rd & th' & E & <-)].
  - by rewrite (retry_always_fails p Hr op e (th_of spec) He).
  - by rewrite (retry_first p Hr op None (th_of spec) rd [] th') by (by rewrite E).
Qed.

Context (th1 th2 : ReadDirSpec.t C -> thread (K := K)) (o : WalkDirOptions C) (md ext : bool).
Context (Hretries : 0 <= o_max_retries o) (Hprocess : o_process_read_dir o = None)
  (Hsame : forall spec, same_listing (th1 spec) (th2 spec) (ReadDirSpec.path spec)).

(** The same options, with these two. *)
Definition with_metadata : WalkDirOptions C :=
  build (build o (read_metadata md)) (read_metadata_ext ext).
Abbreviation o' := with_metadata.

Lemma serial_bare spec : bare_read (serial o th1 spec) = bare_read (serial o' th2 spec).
Proof.
  destruct (Z.lt_ge_cases (o_max_depth o) (saturating_add (ReadDirSpec.depth spec) 1)) as [Hd|Hd].
  { unfold serial_read, core_read_dir_callback. change (o_max_depth o') with (o_max_depth o).
    by rewrite (proj2 (Z.ltb_lt _ _)). }
  destruct (plain_read (o_follow_links o) (o_skip_hidden o) (o_sort o) (th1 spec) (th2 spec)
    (ReadDirSpec.path spec)
    (ReadDirSpec.depth spec) (saturating_add (ReadDirSpec.depth spec) 1)
    (extend_ancestors fs o (ReadDirSpec.path spec) (ReadDirSpec.follow_link_ancestors spec))
    (ReadDirSpec.client_read_state spec) (Hsame _)) as [X HX].
  transitivity X; [|symmetry]; (apply serial_outcome; [done|exact Hd|]);
    simpl; rewrite Hprocess; apply HX; auto.
Qed.

Lemma roots_bare root :
  let '(es, st) := root_entries fs o root in
  let '(es', st') := root_entries fs o' root in
  st' = st /\ map bare_entry es' = map bare_entry es.
Proof.
  unfold root_entries. change (o_process_read_dir o') with (o_process_read_dir o).
  rewrite Hprocess. split; [done|]. cbn [map]. f_equal.
  rewrite process_bare, from_path_bare, <- (from_path_bare fs 0 root (o_read_metadata o)
    (o_read_metadata_ext o)). by rewrite <- process_bare.
Qed.
End LinuxBare.

(** C21: on Linux, without [process_read_dir]: two serial walks of the same root with the same
    options but for [read_metadata] and [read_metadata_ext], each directory being read in
    states of the system and of the thread that agree on its entries, of known types, and on
    nothing else.  Links followed or not, sorted or not, whatever the other options, they
    list the same entries and the same errors in the same order; only the metadata may
    differ. *)
Theorem metadata_options_list_same {C : ClientState} {K : Type} {HS : Sys K} {HF : FsSys K}
    {HR : Ring K} {HK : SaneKernel K} fs fuel (th1 th2 : ReadDirSpec.t C -> thread (K := K))
    (o : WalkDirOptions C) md ext root es st ts out :
  0 <= o_max_retries o -> o_process_read_dir o = None ->
  (forall spec, same_listing fuel (th1 spec) (th2 spec) (ReadDirSpec.path spec)) ->
  root_entries fs o root = (es, st) ->
  Forall2 (reads (linux_serial fuel fs o th1)) (omap (ReadDir.child_spec st) es) ts ->
  emits (o_min_depth o) es (flat_map preorder ts) out ->
  let o' := with_metadata o md ext in
  exists es' ts' out', root_entries fs o' root = (es', st) /\
    Forall2 (reads (linux_serial fuel fs o' th2)) (omap (ReadDir.child_spec st) es') ts' /\
    emits (o_min_depth o') es' (flat_map preorder ts') out' /\
    map bare_entry out' = map bare_entry out.
Proof.
  intros Hr Hp Hre Hroot Hts Hout o'.
  pose proof (roots_bare fs o md ext Hp root) as Hb. rewrite Hroot in Hb.
  change (with_metadata o md ext) with o' in Hb.
  destruct (root_entries fs o' root) as [es' st'] eqn:Hroot'. destruct Hb as [-> Hb].
  destruct (listing_bare (fun _ => True) (linux_serial fuel fs o th1) (linux_serial fuel fs o' th2)
    (fun s _ => serial_bare fs fuel th1 th2 o md ext Hr Hp Hre s) (fun s _ => Forall_true _ _ (fun _ => I))
    (o_min_depth o) st es es' ts out Hb) as (ts' & out' & H1 & H2 & H3); [by apply Forall_true|done|done|].
  by exists es', ts', out'.
Qed.

(** ** The parallel walk with and without metadata *)

Section Parallel.
Context {C : ClientState} {K : Type} {HS : Sys K} {HF : FsSys K} {HR : Ring K} {HK : SaneKernel K}.
Context (fs : FileSystem) (fuel : nat) (th1 th2 : ReadDirSpec.t C -> thread (K := K))
  (o : WalkDirOptions C).
Context (Hretries : 0 <= o_max_retries o) (Hprocess : o_process_read_dir o = None)
  (Hsort : o_sort o = false) (Hfollow : o_follow_links o = false)
  (Hparallel : o_parallelism o <> Serial).

Lemma options_settled th_of md ext spec :
  (forall spec, readable fuel (th_of spec) (ReadDirSpec.path spec)) ->
  deep spec -> settled (HR := linux_reader fuel) fs (with_metadata o md ext) th_of deep spec.
Proof.
  intros Hre Hd. apply (regular_settled (HR := linux_reader fuel)); [done|]. intros _.
  apply (linux_regular fs (with_metadata o md ext) fuel); try done.
  unfold saturating_add, deep in *. assert (0 < usize_max) by done. lia.
Qed.

Lemma with_metadata_same : with_metadata o (o_read_metadata o) (o_read_metadata_ext o) = o.
Proof. by destruct o. Qed.

Lemma plain_options_settled th_of spec :
  (forall spec, readable fuel (th_of spec) (ReadDirSpec.path spec)) ->
  deep spec -> settled (HR := linux_reader fuel) fs o th_of deep spec.
Proof.
  intros Hre Hd. rewrite <- with_metadata_same. by apply options_settled.
Qed.

(** The walk consumed while the pool is at work, with the metadata of [md] and [ext]. *)
Lemma linux_walk_lists th_of num_threads capacity root md ext es st spec t :
  let p := with_metadata o md ext in
  (forall spec, readable fuel (th_of spec) (ReadDirSpec.path spec)) ->
  root_entries fs p root = (es, st) -> omap (ReadDir.child_spec st) es = [spec] ->
  0 <= ReadDirSpec.depth spec -> reads (linux_parallel fuel fs p th_of) spec t ->
  Z.of_nat (length (labels [0] t)) + 2 * Z.of_nat num_threads <= usize_max ->
  (0 < num_threads)%nat -> (length (labels [0%Z] t) <= capacity)%nat ->
  exists out, emits (o_min_depth p) es (preorder t) out /\
    walk_lists (HR := linux_reader fuel) fs p th_of num_threads capacity root out.
Proof.
  intros p Hre Hroot Hs Hd Ht Hb Hn Hc.
  destruct (walk_modes_agree (HR := linux_reader fuel)
    (E := World.script (Ordered.t (Result (ReadDir.t C)))) fs p th_of deep
    (fun s => options_settled th_of md ext s Hre)
    num_threads capacity root es st spec t) as (out & f0 & Hout & _ & H); try done.
  exists out. split; [done|]. by apply H.
Qed.

Context (Hsame : forall spec, same_listing fuel (th1 spec) (th2 spec) (ReadDirSpec.path spec)).

Lemma readable1 spec : readable fuel (th1 spec) (ReadDirSpec.path spec).
Proof. by eapply same_listing_readable. Qed.

Lemma readable2 spec : readable fuel (th2 spec) (ReadDirSpec.path spec).
Proof. by eapply same_listing_readable, same_listing_sym. Qed.

Lemma parallel_bare md ext spec :
  deep spec ->
  bare_read (linux_parallel fuel fs o th1 spec) =
    bare_read (linux_parallel fuel fs (with_metadata o md ext) th2 spec).
Proof.
  intros Hd.
  rewrite <- (bare_unstreamed (linux_parallel fuel fs o th1 spec)),
    <- (bare_unstreamed (linux_parallel fuel fs (with_metadata o md ext) th2 spec)).
  rewrite <- (serial_unstreamed (HR := linux_reader fuel) fs o th1 deep
    (fun s => plain_options_settled th1 s readable1)) by done.
  rewrite <- (serial_unstreamed (HR := linux_reader fuel) fs _ th2 deep
    (fun s => options_settled th2 md ext s readable2)) by done.
  by apply serial_bare.
Qed.

Lemma both_walk_lists num_threads capacity root md ext es st spec t :
  root_entries fs o root = (es, st) -> omap (ReadDir.child_spec st) es = [spec] ->
  0 <= ReadDirSpec.depth spec -> reads (linux_parallel fuel fs o th1) spec t ->
  Z.of_nat (length (labels [0] t)) + 2 * Z.of_nat num_threads <= usize_max ->
  (0 < num_threads)%nat -> (length (labels [0%Z] t) <= capacity)%nat ->
  exists out out',
    walk_lists (HR := linux_reader fuel) fs o th1 num_threads capacity root out /\
    walk_lists (HR := linux_reader fuel) fs (with_metadata o md ext) th2 num_threads capacity root out' /\
    map bare_entry out' = map bare_entry out /\ emits (o_min_depth o) es (preorder t) out.
Proof.
  intros Hroot Hs Hd Ht Hb Hn Hc.
  pose proof (roots_bare fs o md ext Hprocess root) as Hbr. rewrite Hroot in Hbr.
  destruct (root_entries fs (with_metadata o md ext) root) as [es' st'] eqn:Hroot'.
  destruct Hbr as [-> Hbr].
  assert (omap (ReadDir.child_spec st) es' = [spec]) as Hs'
    by (by rewrite <- (child_specs_bare st es'), Hbr, child_specs_bare).
  destruct (reads_bare deep _ _ (parallel_bare md ext)
    (children_valid (HR := linux_reader fuel) fs o th1 deep
      (fun s => plain_options_settled th1 s readable1)) spec t Hd Ht) as (t' & Ht' & Et).
  pose proof (bare_labels _ _ Et) as Hl.
  pose proof (linux_walk_lists th1 num_threads capacity root (o_read_metadata o) (o_read_metadata_ext o)
    es st spec t) as H1. cbv zeta in H1. rewrite with_metadata_same in H1.
  destruct H1 as (out & Hout & W); try done; [exact readable1|].
  destruct (linux_walk_lists th2 num_threads capacity root md ext es' st spec t')
    as (out' & Hout' & W'); try done; [exact readable2|by rewrite Hl..|].
  exists out, out'. split; [done|]. split; [done|]. split; [|done].
  pose proof (emits_bare _ _ _ _ Hout) as B. pose proof (emits_bare _ _ _ _ Hout') as B'.
  rewrite <- preorder_map in B, B'. rewrite Et, Hbr in B'. by eapply emits_det.
Qed.
End Parallel.

(** ** [scan_bench_ext.rs] *)

#[local] Existing Instance unit_client.

(** One turn of the loops of [scan_base] and [scan_ext]: entries and errors. *)
Definition count_entry (c : Z * Z) (r : Result entry) : Z * Z :=
  match r with
  | Ok _ => (usize_add (fst c) 1, snd c)
  | Err _ => (fst c, usize_add (snd c) 1)
  end.

Definition scan_base (walk : list (Result entry)) : Z * Z := fold_left count_entry walk (0, 0).
Definition scan_ext (walk : list (Result entry)) : Z * Z := fold_left count_entry walk (0, 0).

(** [has_nlink] on Unix. *)
Definition has_nlink (e : entry) : bool :=
  match DirEntry.metadata_ext e with Some ext => 0 <? st_nlink ext | None => false end.

Definition count_hardlink (c : Z * Z * Z) (r : Result entry) : Z * Z * Z :=
  let '(entries, errors, with_nlink) := c in
  match r with
  | Ok e => (usize_add entries 1, errors, if has_nlink e then usize_add with_nlink 1 else with_nlink)
  | Err _ => (entries, usize_add errors 1, with_nlink)
  end.

Definition scan_ext_hardlink (walk : list (Result entry)) : Z * Z * Z :=
  fold_left count_hardlink walk (0, 0, 0).

(** The walks of the three functions. *)
Definition ext_options : WalkDirOptions unit_client := build options_new (read_metadata_ext true).
Definition hardlink_options : WalkDirOptions unit_client := build ext_options (read_hardlink_info true).

(** ** [scan_unix.rs] *)

(** The arguments: [--metadata] or [-m] anywhere, and the first one that is no flag. *)
Definition unix_args (args : list Path) : bool * Path :=
  (existsb (fun a => bool_decide (a = bytes "--metadata") || bool_decide (a = bytes "-m")) args,
   default (bytes ".") (find (fun a => negb (bool_decide (head a = head (bytes "-")))) (drop 1 args))).

Definition unix_options (metadata : bool) : WalkDirOptions unit_client :=
  if metadata then build options_new (read_metadata true) else options_new.

(** The loop of [run_scan]: the turn is that of [scan_bench]. *)
Definition run_scan (walk : list (Result entry)) : counts := fold_left scan_step walk (mk_counts 0 0 0 0).

(** ** [smb_enum_bench.rs]: one directory, twice *)

Definition smb_options : WalkDirOptions unit_client := build options_new (max_depth 1).

(** The cold run: [total], [dirs], [files] and [errors]; the warm run: [total2]. *)
Definition smb_cold (walk : list (Result entry)) : counts := fold_left scan_step walk (mk_counts 0 0 0 0).
Definition smb_warm (walk : list (Result entry)) : Z :=
  fold_left (fun total2 _ => usize_add total2 1) walk 0.

(** ** [debug_hang.rs]: the loop over the iterator, with its time limit *)

Section DebugHang.
Context {I : Type} (iter_next : I -> exec (option (Result entry) * I)) (elapsed : Z -> Z).

(** Which of the entries and errors are printed. *)
Definition printed (c : Z) (r : Result entry) : bool :=
  match r with
  | Ok _ => (c <=? 5) || (c mod 1000 =? 0)
  | Err _ => c <=? 10
  end.

(** The loop counts its turns in an [i32] (an overflow of which panics, with the checks of
    a debug build); [elapsed] gives the seconds on the clock at the end of each turn. *)
Fixpoint debug_hang (fuel : nat) (it : I) (turn counter : Z) (log : list (Z * Result entry)) :
    exec (Z * list (Z * Result entry)) :=
  match fuel with
  | O => NoFuel
  | S fuel =>
      if 2 ^ 31 - 1 <=? turn then Panic
      else
        let! p := iter_next it in
        match p with
        | (Some r, it) =>
            let counter := usize_add counter 1 in
            let log := if printed counter r then log ++ [(counter, r)] else log in
            if 300 <? elapsed turn then Ret (counter, log)
            else debug_hang fuel it (turn + 1) counter log
        | (None, _) => Ret (counter, log)
        end
  end.

(** A printed element is the one its number says. *)
Definition log_ok (out : list (Result entry)) (log : list (Z * Result entry)) : Prop :=
  Forall (fun cr => out !! Z.to_nat (fst cr - 1) = Some (snd cr)) log.

Lemma debug_hang_from it rest fuel pre log :
  yields iter_next it rest -> (length rest < fuel)%nat ->
  Z.of_nat (length (pre ++ rest)) < 2 ^ 31 - 1 -> log_ok (pre ++ rest) log ->
  let k := Z.of_nat (length pre) in
  exists n log', debug_hang fuel it k k log = Ret (n, log') /\
    k <= n <= Z.of_nat (length (pre ++ rest)) /\
    ((forall turn, elapsed turn <= 300) -> n = Z.of_nat (length (pre ++ rest))) /\
    log_ok (pre ++ rest) log'.
Proof.
  intros Hy. revert fuel pre log. assert (2 ^ 31 - 1 <= usize_max) as Hmax by done.
  induction Hy as [it it' E|it it' r rest E _ IH]; intros [|fuel] pre log Hf Hb Hlog; try (simpl in Hf; lia);
    cbv zeta; cbn [debug_hang]; rewrite length_app in *; cbn [length] in Hb, Hf;
    rewrite (proj2 (Z.leb_gt _ _)) by lia; rewrite E; cbn [exec_bind].
  - eexists _, _. split; [done|]. cbn [length]. split; [lia|]. split; [lia|done].
  - rewrite usize_add_small by lia. set (k := Z.of_nat (length pre)).
    set (log1 := if printed (k + 1) r then log ++ [(k + 1, r)] else log).
    assert (log_ok (pre ++ r :: rest) log1) as Hlog1.
    { unfold log1. destruct (printed _ _); [|done]. apply Forall_app. split; [done|]. constructor; [|done].
      simpl. rewrite lookup_app_r by lia. by replace (Z.to_nat _ - length pre)%nat with 0%nat by lia. }
    cbn [length] in *. destruct (Z.ltb_spec 300 (elapsed k)) as [Hlt|Hle].
    + exists (k + 1), log1. split; [done|]. split; [lia|]. split; [|done]. intros Ht. specialize (Ht k). lia.
    + specialize (IH fuel (pre ++ [r]) log1). rewrite <- app_assoc, !length_app in IH. cbn [length] in IH.
      replace (Z.of_nat (length pre + 1)) with (k + 1) in IH by lia.
      destruct IH as (n & log' & E1 & Hn & Hall & Hlog'); [lia|simpl; lia|exact Hlog1|].
      exists n, log'. rewrite E1. cbn [app length] in *. split_and!; try done; lia.
Qed.

(** Over an iterator that ends, the loop ends; it has counted everything unless the clock
    has passed the limit, and what it has printed bears its right number. *)
Theorem debug_hang_counts it out fuel :
  yields iter_next it out -> (length out < fuel)%nat -> Z.of_nat (length out) < 2 ^ 31 - 1 ->
  exists n log, debug_hang fuel it 0 0 [] = Ret (n, log) /\ 0 <= n <= Z.of_nat (length out) /\
    ((forall turn, elapsed turn <= 300) -> n = Z.of_nat (length out)) /\ log_ok out log.
Proof. intros Hy Hf Hb. apply (debug_hang_from it out fuel [] []); [done..|constructor]. Qed.
End DebugHang.

(** ** Counting *)

(** A walk of depth 1 is serial; its second run counts the errors with the entries. *)
Theorem smb_runs (walk : list (Result entry)) :
  Z.of_nat (length walk) <= usize_max ->
  o_parallelism smb_options = Serial /\
  let c := smb_cold walk in
  total_dirs c + total_files c = total_entries c /\
  smb_warm walk = total_entries c + total_errors c.
Proof.
  intros Hb. split; [done|]. pose proof (counts_length walk). cbv zeta.
  destruct (scan_counts walk (mk_counts 0 0 0 0)) as (E1 & E2 & E3); try (simpl; lia).
  split; [exact E1|]. unfold smb_warm, smb_cold. rewrite scan_warm_length by lia. simpl in *. lia.
Qed.

Lemma count_entries l n m :
  0 <= n -> 0 <= m -> n + m + Z.of_nat (length l) <= usize_max ->
  fold_left count_entry l (n, m) = (n + oks l, m + errs l).
Proof.
  revert n m. induction l as [|[e|e] l IH]; intros n m Hn Hm Hb; cbn [length] in Hb; simpl.
  - by rewrite !Z.add_0_r.
  - rewrite usize_add_small by lia. rewrite IH by lia. f_equal; lia.
  - rewrite usize_add_small by lia. rewrite IH by lia. f_equal; lia.
Qed.

Lemma count_hardlinks l n m k :
  0 <= k <= n -> 0 <= m -> n + m + Z.of_nat (length l) <= usize_max ->
  exists k', fold_left count_hardlink l (n, m, k) = (n + oks l, m + errs l, k') /\ 0 <= k' <= n + oks l.
Proof.
  revert n m k. induction l as [|[e|e] l IH]; intros n m k Hk Hm Hb; cbn [length] in Hb.
  - exists k. simpl. rewrite !Z.add_0_r. split; [done|lia].
  - cbn [fold_left count_hardlink oks errs]. rewrite !usize_add_small by lia.
    destruct (IH (n + 1) m (if has_nlink e then k + 1 else k)) as (k' & -> & Hk');
      [destruct (has_nlink e); lia|lia|lia|].
    exists k'. split; [do 2 f_equal; lia|lia].
  - cbn [fold_left count_hardlink oks errs]. rewrite usize_add_small by lia.
    destruct (IH n (m + 1) k) as (k' & -> & Hk'); [lia..|].
    exists k'. split; [do 2 f_equal; lia|lia].
Qed.

Lemma bare_counts (l l' : list (Result entry)) :
  map bare_entry l' = map bare_entry l -> oks l' = oks l /\ errs l' = errs l.
Proof.
  revert l'. induction l as [|r l IH]; intros [|r' l'] E; try done.
  injection E as Er E. destruct (IH l' E) as [H1 H2].
  destruct r, r'; simplify_eq/=; lia.
Qed.

Lemma bare_length (l l' : list (Result entry)) :
  map bare_entry l' = map bare_entry l -> length l' = length l.
Proof. intros E. by rewrite <- (length_map bare_entry), E, length_map. Qed.

Lemma bare_scan (l l' : list (Result entry)) c :
  map bare_entry l' = map bare_entry l -> fold_left scan_step l' c = fold_left scan_step l c.
Proof.
  revert l' c. induction l as [|r l IH]; intros [|r' l'] c E; try done.
  injection E as Er E. simpl. rewrite (IH _ _ E). f_equal.
  destruct r as [e|e], r' as [e'|e']; simplify_eq/=; [|done].
  by match goal with H : DirEntry.file_type e' = DirEntry.file_type e |- _ => rewrite H end.
Qed.

(** ** What the runs count *)

Section Runs.
Context {K : Type} {HS : Sys K} {HF : FsSys K} {HR : Ring K} {HK : SaneKernel K}.
Context (fs : FileSystem) (fuel : nat).
Implicit Types (th_of : ReadDirSpec.t unit_client -> thread (K := K)).
Abbreviation parallel o th := (parallel_read (C := unit_client) (HR := linux_reader fuel) fs o th).
Abbreviation lists o th := (walk_lists (HR := linux_reader (C := unit_client) fuel) fs o th).

(** The option [read_hardlink_info] is of no use on Unix. *)
Lemma hardlink_lists th_of num_threads capacity root out :
  lists ext_options th_of num_threads capacity root out ->
  lists hardlink_options th_of num_threads capacity root out.
Proof. exact (fun H => H). Qed.

(** [scan_bench_ext] on Linux, for a tree with room for its directories, each
    directory being read by the runs in states of the system and of the thread that agree
    on its entries, of known types: each of the three walks, consumed while the pool is at
    work, lists its entries whatever the interleaving; the three runs count the same
    entries and the same errors, and of the entries of the third at most all have a number
    of links; and [scan_unix --metadata] counts the directories, files and errors of the
    first walk. *)
Theorem metadata_scans_count_same th1 th2 th3 th4 num_threads capacity root md t :
  (forall spec th, In th [th2; th3; th4] ->
     same_listing fuel (th1 spec) (th spec) (ReadDirSpec.path spec)) ->
  fs_symlink_metadata fs root = Ok md -> is_dir (md_file_type md) = true ->
  reads (parallel options_new th1) (scan_spec root) t ->
  Z.of_nat (length (labels [0] t)) + 2 * Z.of_nat num_threads <= usize_max ->
  (0 < num_threads)%nat -> (length (labels [0%Z] t) <= capacity)%nat ->
  exists base ext hardlink unix,
    lists options_new th1 num_threads capacity root base /\
    lists ext_options th2 num_threads capacity root ext /\
    lists hardlink_options th3 num_threads capacity root hardlink /\
    lists (unix_options true) th4 num_threads capacity root unix /\
    run_scan unix = run_scan base /\
    (Z.of_nat (length base) <= usize_max ->
      scan_ext ext = scan_base base /\
      exists with_nlink, scan_ext_hardlink hardlink = (scan_base base, with_nlink) /\
        0 <= with_nlink <= fst (scan_base base)).
Proof.
  intros Hre Hmd Hdir Ht Hb Hn Hc.
  destruct (scan_root fs root md Hmd Hdir) as (e0 & Hroot & _ & _ & Hs).
  assert (omap (@ReadDir.child_spec _ unit_client tt) [Ok e0] = [scan_spec root]) as Hss
    by (cbn [omap list_omap]; by rewrite Hs).
  assert (forall th m x, In th [th2; th3; th4] -> exists out out',
    lists options_new th1 num_threads capacity root out /\
    lists (with_metadata options_new m x) th num_threads capacity root out' /\
    map bare_entry out' = map bare_entry out /\ emits 0 [Ok e0] (preorder t) out) as Hboth.
  { intros th m x Hin. eapply (both_walk_lists fs fuel th1 th (options_new (C := unit_client))); try done.
    intros spec. by apply Hre. }
  destruct (Hboth th2 false true) as (base & ext & W1 & W2 & E2 & Hout); [simpl; tauto|].
  destruct (Hboth th3 false true) as (base3 & hardlink & _ & W3 & E3 & Hout3); [simpl; tauto|].
  destruct (Hboth th4 true false) as (base4 & unix & _ & W4 & E4 & Hout4); [simpl; tauto|].
  pose proof (emits_det _ _ _ _ _ Hout3 Hout) as ->. pose proof (emits_det _ _ _ _ _ Hout4 Hout) as ->.
  exists base, ext, hardlink, unix. split; [exact W1|]. split; [exact W2|].
  split; [by apply hardlink_lists|]. split; [exact W4|]. split; [by apply bare_scan|]. intros Hl.
  destruct (bare_counts _ _ E2) as [Ho2 He2], (bare_counts _ _ E3) as [Ho3 He3].
  pose proof (bare_length _ _ E2) as Hl2. pose proof (bare_length _ _ E3) as Hl3.
  unfold scan_base, scan_ext, scan_ext_hardlink.
  rewrite !count_entries by (try lia; rewrite ?Hl2; lia).
  destruct (count_hardlinks hardlink 0 0 0) as (k & -> & Hk); [lia..|rewrite Hl3; lia|].
  rewrite Ho2, He2, Ho3, He3 in *. split; [done|]. exists k. split; [done|]. simpl. lia.
Qed.
End Runs.

(** ** Witnesses: a disk with [/r] ([sub] and [f.txt]), [/r/sub] ([g.txt]), and [/t] ([z],
    [.h], [locked] and [b]) with [/t/z] ([g.txt]) *)

Record disk := mk_disk { disk_batches : list (list dirent) }.

Definition disk_entries (cstr : list Z) : option (list dirent) :=
  if bool_decide (cstr = bytes "/r") then Some sample_dirents
  else if bool_decide (cstr = bytes "/r/sub" \/ cstr = bytes "/t/z") then Some [mk_dirent 11 1 DT_REG (bytes "g.txt")]
  else if bool_decide (cstr = bytes "/t") then
    Some [mk_dirent 12 1 DT_DIR (bytes "z"); mk_dirent 13 2 DT_DIR (bytes ".h");
          mk_dirent 14 3 DT_DIR (bytes "locked"); mk_dirent 15 4 DT_REG (bytes "b")]
  else None.

#[local] Instance disk_sys : Sys disk := {
  sys_open_dir cstr k :=
    match disk_entries cstr with Some ds => (Ok 3, mk_disk [ds]) | None => (Err (Os 2 Other), k) end;
  sys_getdents64 _ _ k :=
    match disk_batches k with [] => (Ok [], k) | b :: bs => (Ok (dirents_bytes b), mk_disk bs) end;
  sys_close _ k := k;
  sys_fstatat _ _ k := (Err (Os 2 Other), k);
  sys_statx _ _ k := (Ok lab_statx, k);
}.

#[local] Instance disk_fs_sys : FsSys disk := {
  sys_stat_dev _ k := (Ok 8, k);
  sys_statfs _ k := (Some EXT4_SUPER_MAGIC, k);
  sys_timed_fstatat _ _ k := (true, 10, k);
}.

#[local] Instance disk_ring : Ring disk := {
  ring_build _ k := (Err (Os 38 Other), k);
  ring_push _ _ := false;
  ring_submit_and_wait _ _ k := (Err (Os 38 Other), k);
}.

#[local] Instance disk_sane : SaneKernel disk.
Proof. split; intros; simplify_eq/=; repeat split; vm_compute; congruence. Qed.

Definition disk_th (_ : ReadDirSpec.t unit_client) : thread (K := disk) :=
  mk_thread (mk_disk []) cache_new None [].

Lemma disk_entries_ok cstr ds :
  disk_entries cstr = Some ds ->
  Forall dirent_ok ds /\ ds <> [] /\ Z.of_nat (length (dirents_bytes ds)) <= DENTS_BUF_SIZE /\
  Forall typed (entries_of (concat [ds])) /\ Z.of_nat (length (entries_of (concat [ds]))) <= usize_max.
Proof.
  unfold disk_entries. intros E.
  repeat (destruct (bool_decide _)); simplify_eq/=; split_and!; try done; try (by vm_compute);
    try solve_dirents_ok; repeat constructor; by eexists.
Qed.

(** A thread that has walked before: another strategy in the cache, no ring, something in
    its buffer. *)
Definition disk_later (_ : ReadDirSpec.t unit_client) : thread (K := disk) :=
  mk_thread (mk_disk [sample_dirents]) (<[8 := NetworkAsync]> cache_new) (Some false) [46; 46; 0].

Lemma disk_listable path cstr ds (k : disk) :
  CString_new path = Some cstr -> disk_entries cstr = Some ds ->
  listable 3 path k (entries_of (concat [ds])).
Proof.
  intros Ec Ed. destruct (disk_entries_ok cstr ds Ed) as (H1 & H2 & H3 & _).
  apply (mk_listable _ _ _ _ cstr 3 (mk_disk [ds]) (mk_disk []) [ds]); try done.
  - simpl. by rewrite Ed.
  - eapply stream_batch_of; [done..|]. by constructor.
  - simpl. lia.
Qed.

(** The listings of the disk do not change. *)
Lemma disk_same th th' path : same_listing 3 th th' path.
Proof.
  unfold same_listing, open_dir_fd. destruct (CString_new path) as [cstr|] eqn:Ec; [|right; by eexists].
  simpl. destruct (disk_entries cstr) as [ds|] eqn:Ed; [left|right; by eexists].
  destruct (disk_entries_ok cstr ds Ed) as (_ & _ & _ & H4 & H5).
  exists (entries_of (concat [ds])). split_and!; try done; by eapply disk_listable.
Qed.

Abbreviation disk_read := (parallel_read (C := unit_client) (HR := linux_reader 3) bench_fs options_new disk_th).
Definition disk_tree : tree (Result (ReadDir.t unit_client)) :=
  Node (disk_read bench_root) [Node (disk_read bench_sub) []].

Lemma disk_reads : reads disk_read (scan_spec (bytes "/r")) disk_tree.
Proof.
  constructor. assert (children (disk_read bench_root) = [bench_sub]) as -> by vm_refl.
  constructor; [|constructor]. constructor.
  assert (children (disk_read bench_sub) = []) as -> by vm_refl. constructor.
Qed.

Lemma metadata_scans_count_same_witness :
  exists base ext hardlink unix,
    walk_lists (HR := linux_reader 3) bench_fs options_new disk_th 2 8 (bytes "/r") base /\
    walk_lists (HR := linux_reader 3) bench_fs ext_options disk_later 2 8 (bytes "/r") ext /\
    walk_lists (HR := linux_reader 3) bench_fs hardlink_options disk_later 2 8 (bytes "/r") hardlink /\
    walk_lists (HR := linux_reader 3) bench_fs (unix_options true) disk_th 2 8 (bytes "/r") unix /\
    run_scan unix = run_scan base /\
    (Z.of_nat (length base) <= usize_max ->
      scan_ext ext = scan_base base /\
      exists with_nlink, scan_ext_hardlink hardlink = (scan_base base, with_nlink) /\
        0 <= with_nlink <= fst (scan_base base)).
Proof.
  apply (metadata_scans_count_same bench_fs 3 disk_th disk_later disk_later disk_th 2 8 (bytes "/r") (md_of 0x41ED 1 2) disk_tree).
  - intros spec th _. apply disk_same.
  - vm_refl.
  - vm_refl.
  - exact disk_reads.
  - by vm_compute.
  - lia.
  - vm_compute. lia.
Defined.

Lemma metadata_options_list_same_witness :
  exists es ts out es' ts' out',
    Forall2 (reads (linux_serial 3 bench_fs options_new disk_th))
      (omap (@ReadDir.child_spec _ unit_client tt) es) ts /\
    emits 0 es (flat_map preorder ts) out /\
    root_entries bench_fs ext_options (bytes "/r") = (es', tt) /\
    Forall2 (reads (linux_serial 3 bench_fs ext_options disk_later))
      (omap (@ReadDir.child_spec _ unit_client tt) es') ts' /\
    emits 0 es' (flat_map preorder ts') out' /\ map bare_entry out' = map bare_entry out.
Proof.
  destruct (root_entries bench_fs (options_new (C := unit_client)) (bytes "/r")) as [es []] eqn:Hroot.
  set (read := linux_serial 3 bench_fs (options_new (C := unit_client)) disk_th).
  assert (omap (@ReadDir.child_spec _ unit_client tt) es = [bench_root]) as Hs.
  { pose proof (f_equal fst Hroot) as E. simpl fst in E. rewrite <- E. vm_refl. }
  assert (Forall2 (reads read) (omap (@ReadDir.child_spec _ unit_client tt) es)
    [Node (read bench_root) [Node (read bench_sub) []]]) as Ht.
  { rewrite Hs. constructor; [|constructor]. constructor.
    assert (children (read bench_root) = [bench_sub]) as -> by vm_refl.
    constructor; [|constructor]. constructor.
    assert (children (read bench_sub) = []) as -> by vm_refl. constructor. }
  destruct (emits_forest 0 _ _ _ _ Ht) as [out Hout].
  destruct (metadata_options_list_same bench_fs 3 disk_th disk_later (options_new (C := unit_client)) false true
    (bytes "/r") es tt _ out ltac:(by vm_compute) eq_refl (fun spec => disk_same _ _ _) Hroot Ht Hout)
    as (es' & ts' & out' & H1 & H2 & H3 & H4).
  eexists es, _, out, es', ts', out'.
  split; [exact Ht|]. split; [exact Hout|]. split; [exact H1|]. split; [exact H2|]. by split.
Defined.

(** The arguments of [scan_unix]. *)
Example unix_args_run :
  unix_args [bytes "scan_unix"; bytes "-m"; bytes "/data"] = (true, bytes "/data").
Proof. vm_refl. Qed.
