(* ===== verification/LinuxTree.v ===== *)
(** * The walk of a tree on Linux

    The reader of [LinuxReadDir] keeps the promise of [FileTree.TreeReader], whatever it
    is asked about metadata, sorted or not: the walk lists the tree. *)
From S2P Require Import Prelude Order Tree World Std Error Metadata Platform DirEntry Callback.
From S2P Require Import UnixEnum FsDetect IoUring LinuxReadDir LegacyReadDir OrderedQueue ReadDirIter DirEntryIter.
From S2P Require Import ParWalk ParComplete PoolWorld WalkDir WalkTypes WalkModes Bare FileTree UnixWalk Scan ScanExt.

Section LinuxTree.
Context {C : ClientState} {K : Type} {HS : Sys K} {HF : FsSys K} {HR : Ring K} {HK : SaneKernel K}.
Context (fs : FileSystem) (o : WalkDirOptions C) (fuel : nat).
#[local] Existing Instance linux_reader.

(** The entry [getdents64] gives for [x]. *)
Definition dirent_of (x : tag * node) (info : LinuxDirEntryOwned) : Prop :=
  le_name info = tag_name (fst x) /\ tag_hidden (fst x) = is_hidden (le_name info) /\
  file_type_from_dtype (le_d_type info) = Some (node_type (snd x)).

(** The kernel of [th] has the directory [n] at [path]: it lists its entries, in this
    order, or refuses to open it. *)
Definition kernel_serves (th : thread (K := K)) (path : Path) (n : node) : Prop :=
  match n with
  | Leaf _ => False
  | Locked _ e => open_dir_fd path (th_kernel th) = (Err e, th_kernel th)
  | Folder _ entries => exists infos, listable fuel path (th_kernel th) infos /\
      Forall2 dirent_of entries infos /\ Z.of_nat (length infos) <= usize_max
  end.

Lemma dirents_typed xs infos : Forall2 dirent_of xs infos -> Forall typed infos.
Proof. induction 1 as [|x info xs infos (_ & _ & H) _ IH]; constructor; [by eexists|done]. Qed.

Lemma kernel_serves_readable th path n : kernel_serves th path n -> readable fuel th path.
Proof.
  destruct n as [ft|ft e|ft entries]; simpl; [done|intros He; right; by exists e|].
  intros (infos & Hl & Hi & Hb). left. exists infos. split_and!; try done. by eapply dirents_typed.
Qed.

(** What is listed for an entry, and for all. *)
Lemma dirent_shows d path x info :
  0 < d -> dirent_of x info ->
  shows (C := C) d path (path_join path) x
    (bare_entry (process_dir_entry_result fs (raw_of d path None (entry_view info)) false)).
Proof.
  intros Hd (Hn & _ & Ht). unfold raw_of, entry_view, process_dir_entry_result. cbn [fst snd].
  rewrite Ht, Hn. simpl. rewrite (proj2 (Z.eqb_neq _ _)) by lia. eexists. by split_and!.
Qed.

Lemma dirents_show skip d path xs infos :
  0 < d -> Forall2 dirent_of xs infos ->
  Forall2 (shows d path (path_join path))
    (List.filter (fun x => negb (skip && tag_hidden (fst x))) xs)
    (listed (C := C) fs false skip d path None (map entry_view infos)).
Proof.
  intros Hd. induction 1 as [|x info xs infos Hx _ IH]; [constructor|].
  unfold listed in *. simpl. pose proof (dirent_shows d path x info Hd Hx) as Hs.
  destruct Hx as (_ & -> & _). destruct (negb _); [|done]. by constructor.
Qed.

Context (Hfollow : o_follow_links o = false) (Hprocess : o_process_read_dir o = None).

Lemma linux_tree_read th path ft entries rdd d :
  kernel_serves th path (Folder ft entries) -> 0 < d ->
  exists rd th', undisturbed (read_dir (DirReader := linux_reader fuel) fs (read_options o) path rdd d
      None (o_root_read_dir_state o) None th) = ([], Ret (Ok rd, th')) /\
    ReadDir.read_dir_state rd = o_root_read_dir_state o /\
    Forall2 (shows d path (path_join path)) (arranged o entries) (ReadDir.results_list rd) /\
    Z.of_nat (length (ReadDir.results_list rd)) <= usize_max.
Proof.
  intros (infos & [cstr fd k1 k2 bs Hp Ho Hs Hf ->] & Hi & Hb) Hd. simpl.
  unfold read_dir_linux_via_getdents. rewrite Hprocess, Hfollow.
  rewrite (plain_enumeration _ _ _ _ _ _ _ _ _ _ Hp Ho Hs Hf).
  destruct (finish_bare fs false (o_read_metadata o) (o_read_metadata_ext o) (o_skip_hidden o) (o_sort o)
    path rdd d None (o_root_read_dir_state o) fd (entries_of (concat bs)) (set_kernel th k2)
    (dirents_typed _ _ Hi) (entries_of_ok _)) as (rd & th' & -> & E).
  injection E as Est Ers. exists rd, th'. split; [done|]. split; [done|].
  assert (Forall2 (shows d path (path_join path)) (arranged o entries) (ReadDir.results_list rd)) as H.
  { apply shows_bare. rewrite Ers. unfold plain_results, arranged.
    pose proof (dirents_show (o_skip_hidden o) d path _ _ Hd Hi).
    destruct (o_sort o); [by apply shows_sort|done]. }
  split; [done|]. rewrite <- (Forall2_length _ _ _ H). pose proof (arranged_short o entries).
  apply Forall2_length in Hi. lia.
Qed.

#[export] Instance linux_tree_reader : TreeReader (HR := linux_reader fuel) fs o kernel_serves.
Proof.
  split; intros th path n rdd d Hserves Hd.
  - destruct (o_sort o) eqn:Hsort.
    + assert (oblivious (HR := linux_reader fuel) fs o) as Hob
        by (apply linux_oblivious; by left).
      destruct n as [ft|ft e|ft entries]; [done|left; eexists; intros ctx|].
      * by apply linux_fails, Hserves.
      * destruct (linux_tree_read th path ft entries rdd d Hserves Hd) as (rd & th' & E & _ & _ & Hb).
        by eapply (oblivious_regular (HR := linux_reader fuel)).
    + eapply regular_weaken, linux_regular; try done. by eapply kernel_serves_readable.
  - destruct n as [ft|ft e|ft entries]; [done|by intros op ctx; apply linux_fails, Hserves|].
    destruct (linux_tree_read th path ft entries rdd d Hserves Hd) as (rd & th' & H1 & H2 & H3 & _).
    by exists rd, th'.
Qed.
End LinuxTree.


(** ** The clients: what [scan_unix] and [scan_bench_ext] count *)

#[local] Existing Instance unit_client.

Abbreviation every := (fun _ => true).
Abbreviation no_dir := (fun ft => negb (is_dir ft)).

Lemma scan_views (l : list (Result entry)) a b c : 
  Forall (fun r => exists s, r = Ok s) (map view l) ->
  0 <= a -> 0 <= b -> 0 <= c -> b + c = a -> a + Z.of_nat (length l) <= usize_max ->
  fold_left scan_step l (mk_counts a b c 0) =
    mk_counts (a + Z.of_nat (seen_count every (map view l)))
      (b + Z.of_nat (seen_count is_dir (map view l))) (c + Z.of_nat (seen_count no_dir (map view l))) 0.
Proof.
  revert a b c. induction l as [|[e|err] l IH]; intros a b c Hok Ha Hb Hc Hs Hl.
  - unfold seen_count. simpl. by rewrite !Z.add_0_r.
  - cbn [map] in Hok. apply Forall_cons in Hok as [_ Hok]. cbn [length] in Hl. cbn [fold_left scan_step].
    assert (forall p, seen_count p (map view (Ok e :: l)) =
      ((if p (DirEntry.file_type e) then 1 else 0) + seen_count p (map view l))%nat) as Hcount.
    { intros p. unfold seen_count. cbn [map view res_map List.filter seen_of seen_type].
      by destruct (p (DirEntry.file_type e)). }
    rewrite !Hcount. cbn [total_entries total_dirs total_files total_errors].
    destruct (is_dir (DirEntry.file_type e)); cbn [negb]; rewrite !usize_add_small, IH by (try done; lia);
      f_equal; lia.
  - cbn [map] in Hok. apply Forall_cons in Hok as [[s Hs'] _]. done.
Qed.


(** ** Witnesses: the tree [/t] of the disk of [ScanExt] *)

#[local] Existing Instance disk_sys.
#[local] Existing Instance disk_fs_sys.
#[local] Existing Instance disk_ring.
#[local] Existing Instance disk_sane.

Definition twig (name : string) (n : node) : tag * node :=
  (mk_tag (bytes name) (is_hidden (bytes name)), n).

Definition disk_node : node :=
  Folder (mk_file_type S_IFDIR)
    [twig "z" (Folder (mk_file_type S_IFDIR) [twig "g.txt" (Leaf (mk_file_type S_IFREG))]);
     twig ".h" (Locked (mk_file_type S_IFDIR) (Os 2 Other));
     twig "locked" (Locked (mk_file_type S_IFDIR) (Os 2 Other));
     twig "b" (Leaf (mk_file_type S_IFREG))].

Definition disk_md : fs_Metadata := md_of S_IFDIR 1 2.
Definition disk_fs : FileSystem :=
  mk_fs (fun _ => Ok disk_md) (fun _ => Ok disk_md) (fun _ => Err (Os 22 Other)) (fun p => Ok p).

Lemma disk_serves (th : thread (K := disk)) path ds infos ft entries :
  CString_new path = Some path -> disk_entries path = Some ds -> entries_of (concat [ds]) = infos ->
  Forall2 dirent_of entries infos -> kernel_serves 3 th path (Folder ft entries).
Proof.
  intros Hp Hd <- Hf. destruct (disk_entries_ok path ds Hd) as (_ & _ & _ & _ & Hb).
  eexists. split; [by eapply disk_listable|done].
Qed.

(** A list of entries, with their types. *)
Definition infos_of (l : list (string * Z)) : list LinuxDirEntryOwned :=
  map (fun e => mk_linux_entry (snd e) (bytes (fst e)) None) l.

Lemma disk_on_disk (o : WalkDirOptions unit_client) :
  on_disk o disk_th (kernel_serves 3) 0 (bytes "/t") disk_node.
Proof.
  constructor.
  { split; [done|]. intros _. apply (disk_serves _ _ (default [] (disk_entries (bytes "/t")))
      (infos_of [("z", DT_DIR); (".h", DT_DIR); ("locked", DT_DIR); ("b", DT_REG)])%string);
      [vm_refl..|repeat constructor; done]. }
  intros _. apply Forall_cons_2; [|repeat (apply Forall_cons_2; [constructor; [done|constructor]|]); constructor].
  constructor; [|intros _; repeat constructor].
  split; [done|]. intros _. apply (disk_serves _ _ (default [] (disk_entries (bytes "/t/z"))) (infos_of [("g.txt", DT_REG)])%string);
    [vm_refl..|repeat constructor; done].
Qed.

(** By name, nothing hidden: what the walk lists, computed. *)
Definition disk_options : WalkDirOptions unit_client := build (build options_new (skip_hidden true)) (sort true).

Definition disk_seen (d : Z) (parent name : string) (mode : Z) (e : option Error.t) : Result seen :=
  Ok (mk_seen d (bytes parent) (bytes name) (mk_file_type mode) e).

Example disk_walk :
  walk_of disk_options (bytes "/t") disk_node =
    [disk_seen 0 "/" "t" S_IFDIR None; disk_seen 1 "/t" "b" S_IFREG None;
     disk_seen 1 "/t" "locked" S_IFDIR (Some (Error.from_path 0 (bytes "/t/locked") (Os 2 Other)));
     disk_seen 1 "/t" "z" S_IFDIR None; disk_seen 2 "/t/z" "g.txt" S_IFREG None].
Proof. vm_refl. Qed.


