(* ===== verification/LegacyTree.v ===== *)
(** * The walk of a tree where [std::fs] reads the directories

    The reader of [LegacyReadDir] keeps the promise of [FileTree.TreeReader], over any
    listings of [std::fs::read_dir] that are those of a tree. *)
From S2P Require Import Prelude Order Tree World Std Error Metadata Platform DirEntry Callback.
From S2P Require Import UnixEnum LinuxReadDir LegacyReadDir OrderedQueue ReadDirIter DirEntryIter.
From S2P Require Import ParWalk ParComplete PoolWorld WalkDir WalkTypes WalkModes Bare FileTree UnixWalk Scan.

Section LegacyTree.
Context {C : ClientState} (fs_read_dir : Path -> result (list (result fs_DirEntry io_Error)) io_Error).
Context (fs : FileSystem) (o : WalkDirOptions C).
#[local] Existing Instance legacy_reader.

(** The entry [std::fs] gives for [x] in the directory [path]. *)
Definition std_entry_of (path : Path) (x : tag * node) (r : result fs_DirEntry io_Error) : Prop :=
  exists e, r = Ok e /\ de_file_name e = tag_name (fst x) /\
    tag_hidden (fst x) = is_hidden (tag_name (fst x)) /\ de_file_type e = Ok (node_type (snd x)) /\
    de_path e = path_join path (tag_name (fst x)).

(** [std::fs::read_dir] gives the entries of the directory [n], or its error. *)
Definition std_serves (th : unit) (path : Path) (n : node) : Prop :=
  match n with
  | Leaf _ => False
  | Locked _ e => fs_read_dir path = Err e
  | Folder _ entries => exists l, fs_read_dir path = Ok l /\
      Forall2 (std_entry_of path) entries l /\ Z.of_nat (length l) <= usize_max
  end.

Context (Hfollow : o_follow_links o = false) (Hprocess : o_process_read_dir o = None).

(** Whatever metadata is asked for, the entry is made. *)
Lemma legacy_metadata_ok md ext d (e : fs_DirEntry) ft :
  de_file_type e = Ok ft -> exists m, legacy_metadata fs md ext d e = Ok m.
Proof.
  intros Ht. unfold legacy_metadata. rewrite Ht. destruct md; [by destruct (de_metadata e); eexists|].
  destruct ext; [|by eexists]. destruct (fs_symlink_metadata _ _); by eexists.
Qed.

Lemma std_entry_shows md ext skip path d x r :
  0 < d -> std_entry_of path x r ->
  if skip && tag_hidden (fst x) then legacy_entry (C := C) fs false md ext skip path d None r = None
  else exists y, legacy_entry fs false md ext skip path d None r = Some y /\
    shows (C := C) d path (path_join path) x y.
Proof.
  intros Hd (e & -> & Hn & Hh & Ht & Hp). unfold legacy_entry.
  destruct (legacy_metadata_ok md ext d e _ Ht) as [[m mx] ->]. unfold DirEntry.from_entry.
  rewrite Ht. cbn [res_map_err res_bind]. rewrite Hn, Hh. cbn [DirEntry.file_name].
  destruct (skip && is_hidden _); [done|]. eexists. split; [done|]. unfold process_dir_entry_result.
  cbn [andb negb res_bind DirEntry.depth]. rewrite (proj2 (Z.eqb_neq _ _)) by lia. cbn [andb].
  eexists. split; [done|]. by rewrite Hp.
Qed.

Lemma std_entries_show md ext skip path d xs l :
  0 < d -> Forall2 (std_entry_of path) xs l ->
  Forall2 (shows d path (path_join path))
    (List.filter (fun x => negb (skip && tag_hidden (fst x))) xs)
    (omap (legacy_entry (C := C) fs false md ext skip path d None) l).
Proof.
  intros Hd. induction 1 as [|x r xs l Hx _ IH]; [constructor|].
  cbn [List.filter omap list_omap]. pose proof (std_entry_shows md ext skip path d x r Hd Hx) as Hs.
  destruct (skip && tag_hidden (fst x)); cbn [negb]; [by rewrite Hs|].
  destruct Hs as (y & -> & Hy). by constructor.
Qed.

Lemma legacy_tree_read path ft entries rdd d :
  std_serves tt path (Folder ft entries) -> 0 < d ->
  exists rd, read_dir_unix_fs_legacy fs fs_read_dir false (o_read_metadata o) (o_read_metadata_ext o)
      (o_skip_hidden o) (o_sort o) None path rdd d None (o_root_read_dir_state o) = Ok rd /\
    ReadDir.read_dir_state rd = o_root_read_dir_state o /\
    Forall2 (shows d path (path_join path)) (arranged o entries) (ReadDir.results_list rd) /\
    Z.of_nat (length (ReadDir.results_list rd)) <= usize_max.
Proof.
  intros (l & Hl & Hi & Hb) Hd. unfold read_dir_unix_fs_legacy. rewrite Hl. eexists.
  split; [reflexivity|]. split; [done|]. cbn [ReadDir.new ReadDir.results_list].
  pose proof (std_entries_show (o_read_metadata o) (o_read_metadata_ext o) (o_skip_hidden o) path d _ _ Hd Hi) as H.
  match goal with |- Forall2 _ _ ?rs /\ _ =>
    assert (Forall2 (shows d path (path_join path)) (arranged o entries) rs) as Hs end.
  { unfold arranged. destruct (o_sort o); [by apply shows_sort|done]. }
  split; [done|]. rewrite <- (Forall2_length _ _ _ Hs). pose proof (arranged_short o entries).
  apply Forall2_length in Hi. lia.
Qed.

#[export] Instance legacy_tree_reader : TreeReader (HR := legacy_reader fs_read_dir) fs o std_serves.
Proof.
  split; intros [] path n rdd d Hserves Hd; destruct n as [ft|ft e|ft entries]; try done.
  - left. eexists. intros ctx. simpl. unfold read_dir_unix_fs_legacy. by rewrite Hserves.
  - destruct (legacy_tree_read path ft entries rdd d Hserves Hd) as (rd & E & _ & _ & Hb).
    eapply (oblivious_regular (HR := legacy_reader fs_read_dir) fs o _ _ _ _ _ tt rd tt);
      [apply legacy_oblivious| |exact Hb]. simpl. by rewrite Hfollow, Hprocess, E.
  - intros op ctx. unfold op. simpl. unfold read_dir_unix_fs_legacy. by rewrite Hserves.
  - destruct (legacy_tree_read path ft entries rdd d Hserves Hd) as (rd & E & H1 & H2 & _).
    exists rd, tt. split; [|done]. simpl. by rewrite Hfollow, Hprocess, E.
Qed.
End LegacyTree.

(** Where [std::fs] reads the directories, for a root that is a directory and any tree
    below it whose directories [std::fs::read_dir] lists or refuses: with links not followed,
    no [process_read_dir] and any other options, the serial walk lists what [walk_of]
    computes from the tree, and so does the parallel walk, consumed while the pool is at
    work, with a thread and room in the channels for the directories. *)
Theorem legacy_walk_lists_tree {C : ClientState} listing fs (o : WalkDirOptions C) root md (n : node) :
  0 <= o_max_retries o -> o_follow_links o = false -> o_process_read_dir o = None ->
  fs_symlink_metadata fs root = Ok md -> md_file_type md = node_type n -> is_dir (node_type n) = true ->
  on_disk o (fun _ => tt) (std_serves listing) 0 root n ->
  exists out fuel0, map view out = walk_of o root n /\
    (forall num_threads capacity,
      o_parallelism o <> Serial ->
      Z.of_nat (directories o 0 n) + 2 * Z.of_nat num_threads <= usize_max ->
      (0 < num_threads)%nat -> (directories o 0 n <= capacity)%nat ->
      walk_lists (HR := legacy_reader listing) fs o (fun _ => tt) num_threads capacity root out) /\
    forall E (HW : World.World E (Ordered.t (Result (ReadDir.t C)))) (e : E) f, (fuel0 <= f)%nat ->
      iterates (DirEntryIter.next (ReadDirIter.next (legacy_serial listing fs o (fun _ => tt)) f) f)
        (into_iter fs (build o (parallelism Serial)) root true (fun _ => e)) out.
Proof.
  intros Hr Hfollow Hprocess Hmd Ht Hdir Hdisk.
  pose proof (legacy_tree_reader listing fs o Hfollow Hprocess) as HT.
  apply (tree_walk (HR := legacy_reader listing) fs o (fun _ => tt) (std_serves listing) Hr Hfollow Hprocess
    root md n); try done. exact (proj2 (proj1 (ft_kinds_disjoint (node_type n)) Hdir)).
Qed.
