(* ===== verification/WindowsTree.v ===== *)
(** * The walk of a tree on Windows

    The reader of [WindowsReadDir] keeps the promise of [FileTree.TreeReader] when no
    directory is a reparse point, or the listing is sorted. *)
From S2P Require Import Prelude Order Tree World Std Bytes Error Platform DirEntry Callback.
From S2P Require Import NtEnum Windows WindowsReadDir OrderedQueue ReadDirIter DirEntryIter.
From S2P Require Import ParWalk ParComplete PoolWorld WalkDir WalkTypes WalkModes Bare FileTree WindowsWalk.

Section WindowsTree.
Context {W : WindowsStd} {C : ClientState} {K : Type} {HN : NtSys K}.
Context (fs : FileSystem) (o : WalkDirOptions C) (fuel : nat).
#[local] Existing Instance windows_reader.

(** The entry the system gives for [x]: hidden by its attribute or its name. *)
Definition info_of (x : tag * node) (info : DirEntryInfo) : Prop :=
  file_name info = tag_name (fst x) /\
  tag_hidden (fst x) = Win.is_hidden_win32 (file_name info) (file_attributes info) /\
  Win.file_type_from_attrs (file_attributes info) = node_type (snd x) /\
  (o_sort o = false -> is_dir_attr info && is_reparse info = false).

(** The system of [th] has the directory [n] at [path]. *)
Definition nt_serves (th : thread (K := K)) (path : Path) (n : node) : Prop :=
  match n with
  | Leaf _ => False
  | Locked _ e => open_dir_handle path (th_kernel th) = (Err e, th_kernel th)
  | Folder _ entries => tls_ok (th_tls th) /\ exists infos, listable fuel path (th_kernel th) infos /\
      Forall2 info_of entries infos /\ Z.of_nat (length infos) <= usize_max
  end.

Lemma nt_serves_readable th path ft entries :
  o_sort o = false -> nt_serves th path (Folder ft entries) -> readable fuel th path.
Proof.
  intros Hsort (Htl & infos & Hl & Hi & Hb). left. exists infos. split_and!; try done.
  clear -Hi Hsort. induction Hi as [|x info xs infos (_ & _ & _ & H) _ IH]; constructor; auto.
Qed.

Lemma infos_show skip d path xs infos (es : list (DirEntry.t C)) :
  Forall2 info_of xs infos -> Forall2 (entry_for d path None) (kept skip infos) es ->
  Forall2 (shows d path (path_join path))
    (List.filter (fun x => negb (skip && tag_hidden (fst x))) xs) (map Ok es).
Proof.
  intros H. revert es. induction H as [|x info xs infos (Hn & Hh & Ht & _) _ IH]; intros es He.
  { inversion He. constructor. }
  unfold kept in *. cbn [List.filter] in *. rewrite Hh.
  destruct (negb _); [|by apply IH]. inversion He as [|? e ? es' Hx He']; subst. cbn [map].
  constructor; [|by apply IH]. destruct Hx as [E1 E2 E3 E4 E5 E6 E7]. exists e. split; [done|].
  unfold view. cbn [res_map]. rewrite E1, E2, E5, E6, E7, E4, Hn, Ht. split_and!; try done.
  by rewrite <- Ht, file_type_attrs.
Qed.

Lemma infos_view xs es es' :
  map info_view es' = map info_view es -> Forall2 info_of xs es -> Forall2 info_of xs es'.
Proof.
  intros E H. revert es' E. induction H as [|x info xs infos Hx _ IH]; intros [|e' es'] E; try done.
  injection E as En Ea _ _ _ E. constructor; [|by apply IH].
  unfold info_of, is_dir_attr, is_reparse in *. by rewrite En, Ea.
Qed.

Context (Hfollow : o_follow_links o = false) (Hprocess : o_process_read_dir o = None).

Lemma windows_tree_read th path ft entries rdd d :
  nt_serves th path (Folder ft entries) -> 0 < d ->
  exists rd th', undisturbed (read_dir (DirReader := windows_reader fuel) fs (read_options o) path rdd d
      None (o_root_read_dir_state o) None th) = ([], Ret (Ok rd, th')) /\
    ReadDir.read_dir_state rd = o_root_read_dir_state o /\
    Forall2 (shows d path (path_join path)) (arranged o entries) (ReadDir.results_list rd) /\
    Z.of_nat (length (ReadDir.results_list rd)) <= usize_max.
Proof.
  intros (Htl & infos & [handle k1 k2 bs Ho Hs Hf ->] & Hi & Hb) Hd.
  cbn [WalkDir.read_dir windows_reader read_options r_follow_links r_read_metadata
    r_read_metadata_ext r_read_hardlink_info r_skip_hidden r_sort r_process_read_dir].
  unfold read_dir_windows. rewrite Hprocess, Hfollow.
  destruct (nt_plain path (th_tls th) (th_kernel th) _ _ _ _ _ fuel Ho Hs Hf Htl) as (tls & _ & ->).
  pose proof (stream_infos_ok _ _ _ _ _ _ Hs) as Hok. set (infos := infos_of (concat bs)) in *.
  unfold finish_read_dir. cbn [th_kernel th_tls].
  pose proof (fill_view (o_read_metadata_ext o) (o_read_hardlink_info o) infos handle k2) as Hv.
  destruct (fill_hardlinks _ _ infos handle k2) as [infos' k3]. simpl in Hv.
  destruct (win_build_entries (C := C) fs (o_read_metadata o) (o_read_metadata_ext o)
    (o_read_hardlink_info o) (o_skip_hidden o) infos' d path None) as (es & -> & Hes);
    [by eapply view_ok|lia|].
  cbn [exec_bind undisturbed]. eexists _, _. split; [reflexivity|]. split; [done|].
  cbn [ReadDir.results_list].
  pose proof (infos_show (o_skip_hidden o) d path entries infos' es (infos_view _ _ _ Hv Hi) Hes) as H.
  match goal with |- Forall2 _ _ ?rs /\ _ =>
    assert (Forall2 (shows d path (path_join path)) (arranged o entries) rs) as Hsh end.
  { unfold arranged. destruct (o_sort o); [by apply shows_sort|done]. }
  split; [done|]. rewrite <- (Forall2_length _ _ _ Hsh). pose proof (arranged_short o entries).
  apply Forall2_length in Hi. lia.
Qed.

#[export] Instance windows_tree_reader : TreeReader (HR := windows_reader fuel) fs o nt_serves.
Proof.
  split; intros th path n rdd d Hserves Hd.
  - destruct n as [ft|ft e|ft entries]; [done|left; eexists; intros ctx; by apply windows_fails, Hserves|].
    destruct (o_sort o) eqn:Hsort.
    + destruct (windows_tree_read th path ft entries rdd d Hserves Hd) as (rd & th' & E & _ & _ & Hb).
      eapply (oblivious_regular (HR := windows_reader fuel)); [|exact E|exact Hb].
      apply windows_oblivious. by left.
    + pose proof (nt_serves_readable _ _ _ _ Hsort Hserves) as Hre.
      eapply regular_weaken, windows_regular; try done. apply Hserves.
  - destruct n as [ft|ft e|ft entries]; [done|by intros op ctx; apply windows_fails, Hserves|].
    destruct (windows_tree_read th path ft entries rdd d Hserves Hd) as (rd & th' & H1 & H2 & H3 & _).
    by exists rd, th'.
Qed.
End WindowsTree.

(** C13: on Windows, for a root that is a directory and any tree without reparse points among
    its directories, unless the listing is sorted, each served in a state of its own, with
    links not followed and no [process_read_dir]: the serial walk lists what [walk_of]
    computes from the tree; and so does the parallel walk, consumed while the pool is at
    work, with a thread, a pool that starts in time, and room in the channels for the
    directories the walk reads. *)
Theorem windows_walk_lists_tree {W : WindowsStd} {C : ClientState} {K : Type} {HN : NtSys K}
    fs (o : WalkDirOptions C) fuel (th_of : ReadDirSpec.t C -> thread (K := K))
    root md (n : node) :
  0 <= o_max_retries o -> o_follow_links o = false -> o_process_read_dir o = None ->
  fs_symlink_metadata fs root = Ok md -> md_file_type md = node_type n -> is_dir (node_type n) = true ->
  on_disk o th_of (nt_serves o fuel) 0 root n ->
  exists out fuel0, map view out = walk_of o root n /\
    (forall num_threads capacity,
      o_parallelism o <> Serial ->
      Z.of_nat (directories o 0 n) + 2 * Z.of_nat num_threads <= usize_max ->
      (0 < num_threads)%nat -> (directories o 0 n <= capacity)%nat ->
      walk_lists (HR := windows_reader fuel) fs o th_of num_threads capacity root out) /\
    forall E (HW : World.World E (Ordered.t (Result (ReadDir.t C)))) (e : E) f, (fuel0 <= f)%nat ->
      iterates (DirEntryIter.next (ReadDirIter.next (windows_serial fuel fs o th_of) f) f)
        (into_iter fs (build o (parallelism Serial)) root true (fun _ => e)) out.
Proof.
  intros Hr Hfollow Hprocess Hmd Ht Hdir Hdisk.
  pose proof (windows_tree_reader fs o fuel Hfollow Hprocess) as HT.
  apply (tree_walk (HR := windows_reader fuel) fs o th_of (nt_serves o fuel) Hr Hfollow Hprocess root md n);
    try done. revert Hdir. generalize (node_type n). clear. intros [[] []]; done.
Qed.

(** ** Witness: the tree of [WindowsWalk] *)

Definition nt_twig (name : string) (n : node) : tag * node := (mk_tag (bytes name) false, n).
Definition nt_dir : Platform.FileType := Win.mk_file_type true false.
Definition nt_file : Platform.FileType := Win.mk_file_type false false.

Definition lab_node : node :=
  Folder nt_dir [nt_twig "sub" (Folder nt_dir [nt_twig "f.txt" (Leaf nt_file)]); nt_twig "f.txt" (Leaf nt_file)].

Lemma lab_serves (o : WalkDirOptions unit_client) d path rs xs ft :
  lab_records (spec_at o d path) = rs ->
  rs <> [] -> Forall nt_record_ok rs -> Z.of_nat (length (records_bytes rs)) <= BUFFER_SIZE ->
  Forall2 (info_of o) xs (infos_of rs) -> Z.of_nat (length (infos_of rs)) <= usize_max ->
  nt_serves o 4 (lab_th (spec_at o d path)) path (Folder ft xs).
Proof.
  intros E Hne Hok Hfit Hx Hb. split; [apply lab_tls_ok|]. exists (infos_of rs). split; [|done].
  unfold lab_th. rewrite E. by apply lab_listable.
Qed.

Lemma lab_on_disk (o : WalkDirOptions unit_client) : on_disk o lab_th (nt_serves o 4) 0 (bytes "C:\r") lab_node.
Proof.
  constructor.
  { split; [done|]. intros _. apply (lab_serves o _ _ sample_records);
      [done|done|exact sample_records_ok|by vm_compute|repeat constructor|by vm_compute]. }
  intros _. repeat apply Forall_cons_2; [|constructor; [done|constructor]|constructor].
  constructor; [|intros _; repeat constructor].
  split; [done|]. intros _. apply (lab_serves o _ _ (drop 3 sample_records));
    [done|done|apply Forall_drop, sample_records_ok|by vm_compute|repeat constructor|by vm_compute].
Qed.

Lemma windows_walk_lists_tree_witness :
  exists out fuel0, map view out = walk_of lab_options (bytes "C:\r") lab_node /\
    walk_lists (HR := windows_reader 4) lab_dir_fs lab_options lab_th 2 8 (bytes "C:\r") out /\
    forall E (HW : World.World E (Ordered.t (Result (ReadDir.t unit_client)))) (e : E) f, (fuel0 <= f)%nat ->
      iterates (DirEntryIter.next (ReadDirIter.next (windows_serial 4 lab_dir_fs lab_options lab_th) f) f)
        (into_iter lab_dir_fs (build lab_options (parallelism Serial)) (bytes "C:\r") true (fun _ => e)) out.
Proof.
  destruct (windows_walk_lists_tree lab_dir_fs lab_options 4 lab_th (bytes "C:\r")
    (Win.mk_fs_metadata nt_dir 0x10 0 None None None None None None) lab_node)
    as (out & fuel0 & Hv & Hp & Hs); try done.
  - apply lab_on_disk.
  - exists out, fuel0. split; [exact Hv|]. split; [|exact Hs]. apply Hp; [done|done|lia|vm_compute; lia].
Defined.
