(* ===== verification/Integration.v ===== *)
(** * The integration tests of tests/integration.rs, run on the model

    A small file system with directories, files and symbolic links, resolved as the kernel
    resolves paths; below it [Sys] serves the records of [getdents64], so the whole program
    for Linux runs: the bytes of the kernel, the reader, the detection of loops, the
    iterators.  The walks are serial; [UnixWalk] shows that the parallel ones list the
    same. *)
From stdpp Require Import gmap.
From S2P Require Import Prelude Order Tree World Std Error Metadata Platform DirEntry Callback.
From S2P Require Import UnixEnum FsDetect IoUring LinuxReadDir OrderedQueue ReadDirIter DirEntryIter.
From S2P Require Import WalkDir WalkTypes WalkModes UnixWalk.

(** ** The file system *)

Inductive inode := Directory | File | Symlink (target : Path).

(** The names of a path from the root; the entries of a directory are listed in the order
    in which they were made.  An entry [None] is a directory that cannot be opened. *)
Abbreviation location := (list OsString).
Record vfs := mk_vfs { nodes : list (location * inode); forbidden : list location }.

Fixpoint find_node (i : Z) (l : list (location * inode)) (loc : location) : option (Z * inode) :=
  match l with
  | [] => None
  | (loc', n) :: l' => if bool_decide (loc' = loc) then Some (i, n) else find_node (i + 1) l' loc
  end.

(** The inode number and the node of a location; that of the root is 1. *)
Definition node_of (v : vfs) (loc : location) : option (Z * inode) :=
  match loc with [] => Some (1, Directory) | _ => find_node 2 (nodes v) loc end.

Fixpoint split_path (p : Path) (name : OsString) : list OsString :=
  match p with
  | [] => match name with [] => [] | _ => [name] end
  | c :: p' =>
      if c =? SLASH then match name with [] => split_path p' [] | _ => name :: split_path p' [] end
      else split_path p' (name ++ [c])
  end.

Definition ENOENT : Z := 2.
Definition EACCES : Z := 13.
Definition ENOTDIR : Z := 20.
Definition EINVAL : Z := 22.
Definition ELOOP : Z := 40.

(** Path resolution, from the directory [cur]; [follow]: also a link at the end.  A path that
    takes more than [fuel] steps has too many links. *)
Fixpoint resolve_from (fuel : nat) (v : vfs) (follow : bool) (cur : location) (names : list OsString) :
    result location Z :=
  match fuel with
  | O => Err ELOOP
  | S fuel' =>
      match names with
      | [] => Ok cur
      | name :: rest =>
          if bool_decide (name = [DOT]) then resolve_from fuel' v follow cur rest
          else if bool_decide (name = [DOT; DOT]) then resolve_from fuel' v follow (removelast cur) rest
          else
            let child := cur ++ [name] in
            match node_of v child with
            | None => Err ENOENT
            | Some (_, Directory) => resolve_from fuel' v follow child rest
            | Some (_, File) => match rest with [] => Ok child | _ => Err ENOTDIR end
            | Some (_, Symlink target) =>
                if negb follow && bool_decide (rest = []) then Ok child
                else resolve_from fuel' v follow (if is_absolute target then [] else cur)
                       (split_path target [] ++ rest)
            end
      end
  end.

Definition path_of (loc : location) : Path :=
  match loc with [] => [SLASH] | _ => flat_map (fun name => SLASH :: name) loc end.

Definition mode_of (n : inode) : Z :=
  match n with Directory => 0x41ED | File => 0x81A4 | Symlink _ => 0xA1FF end.
Definition dtype_of (n : inode) : Z :=
  match n with Directory => DT_DIR | File => DT_REG | Symlink _ => DT_LNK end.

Section Vfs.
Context (v : vfs) (cwd : location).

Definition resolve (follow : bool) (p : Path) : result (location * Z * inode) io_Error :=
  match p with
  | [] => Err (Os ENOENT Other)
  | _ =>
      match resolve_from 100 v follow (if is_absolute p then [] else cwd) (split_path p []) with
      | Err e => Err (Os e Other)
      | Ok loc =>
          match node_of v loc with
          | Some (ino, n) => Ok (loc, ino, n)
          | None => Err (Os ENOENT Other)
          end
      end
  end.

Definition vfs_stat (follow : bool) (p : Path) : result Std.fs_Metadata io_Error :=
  res_map (fun '(_, ino, n) => md_of (mode_of n) 1 ino) (resolve follow p).

Definition vfs_file_system : FileSystem := {|
  fs_metadata := vfs_stat true;
  fs_symlink_metadata := vfs_stat false;
  fs_read_link p :=
    match resolve false p with
    | Ok (_, _, Symlink target) => Ok target
    | Ok _ => Err (Os EINVAL Other)
    | Err e => Err e
    end;
  fs_canonicalize p := res_map (fun '(loc, _, _) => path_of loc) (resolve true p);
|}.

(** The records of a directory, "." and ".." first. *)
Definition records_of (loc : location) : list dirent :=
  [mk_dirent 1 1 DT_DIR [DOT]; mk_dirent 1 2 DT_DIR [DOT; DOT]] ++
  omap (fun '(loc', n) =>
    if bool_decide (removelast loc' = loc)
    then Some (mk_dirent 1 3 (dtype_of n) (default [] (last loc'))) else None) (nodes v).
End Vfs.

(** The kernel: the file system, the working directory, and what is left of the directory
    that is open. *)
Record kernel := mk_kernel { k_vfs : vfs; k_cwd : location; k_batches : list (list dirent) }.

#[local] Instance vfs_sys : Sys kernel := {
  sys_open_dir cstr k :=
    match resolve (k_vfs k) (k_cwd k) true cstr with
    | Err e => (Err e, k)
    | Ok (loc, _, Directory) =>
        if bool_decide (loc ∈ forbidden (k_vfs k)) then (Err (Os EACCES Other), k)
        else (Ok 3, mk_kernel (k_vfs k) (k_cwd k) [records_of (k_vfs k) loc])
    | Ok _ => (Err (Os ENOTDIR Other), k)
    end;
  sys_getdents64 _ _ k :=
    match k_batches k with
    | [] => (Ok [], k)
    | b :: bs => (Ok (dirents_bytes b), mk_kernel (k_vfs k) (k_cwd k) bs)
    end;
  sys_close _ k := k;
  sys_fstatat _ _ k := (Err (Os ENOENT Other), k);
  sys_statx _ _ k := (Err (Os ENOENT Other), k);
}.

#[local] Instance vfs_fs_sys : FsSys kernel := {
  sys_stat_dev _ k := (Ok 1, k);
  sys_statfs _ k := (Some EXT4_SUPER_MAGIC, k);
  sys_timed_fstatat _ _ k := (true, 10, k);
}.

#[local] Instance vfs_ring : Ring kernel := {
  ring_build _ k := (Err (Os 38 Other), k);
  ring_push _ _ := false;
  ring_submit_and_wait _ _ k := (Err (Os 38 Other), k);
}.

(** ** [tests/util]: the directory of a test, and what a walk gives *)

Definition tmp : Path := bytes "/tmp/d".
Definition join (p : string) : Path := path_join tmp (bytes p).

(** [mkdirp]: the directories on the way that are not there yet. *)
Definition mkdirp (p : string) (v : vfs) : vfs :=
  let names := split_path (join p) [] in
  mk_vfs (fold_left (fun l i =>
    let loc := take i names in
    if bool_decide (is_Some (find_node 2 l loc)) then l else l ++ [(loc, Directory)])
    (seq 1 (length names)) (nodes v)) (forbidden v).

Definition make (n : inode) (p : string) (v : vfs) : vfs :=
  mk_vfs (nodes v ++ [(split_path (join p) [], n)]) (forbidden v).
Definition touch (p : string) (v : vfs) : vfs := make File p v.
(** [symlink_file] and [symlink_dir]: to the path of [src] in the directory of the test *)
Definition symlink (src link_name : string) (v : vfs) : vfs := make (Symlink (join src)) link_name v.
(** [set_permissions] to none *)
Definition forbid (p : string) (v : vfs) : vfs := mk_vfs (nodes v) (split_path (join p) [] :: forbidden v).

(** [Dir::tmp], and the operations on it in order *)
Definition dir (ops : list (vfs -> vfs)) : vfs :=
  fold_left (fun v op => op v) ops (mkdirp EmptyString (mk_vfs [] [])).

Abbreviation C := unit_client.
Abbreviation DirEntry := (@DirEntry.t unix_platform C).
Abbreviation item := (Result DirEntry).

(** Each directory is read in a state of its own. *)
Definition th_of (v : vfs) (cwd : location) (_ : ReadDirSpec.t C) : thread (K := kernel) :=
  mk_thread (mk_kernel v cwd []) cache_new None [].

Definition options (calls : list builder_call) : WalkDirOptions C :=
  fold_left build (calls ++ [parallelism Serial]) options_new.

(** [next] until it gives [None], at most [fuel] times *)
Fixpoint collect {It} (next : It -> exec (option item * It)) (fuel : nat) (s : It) : exec (list item) :=
  match fuel with
  | O => NoFuel
  | S fuel' =>
      let! r := next s in
      let '(o, s) := r in
      match o with
      | None => Ret []
      | Some x => let! l := collect next fuel' s in Ret (x :: l)
      end
  end.

(** The same from [into_iter], which never ends when it blocks. *)
Definition collect_from {It} (next : It -> exec (option item * It)) (fuel : nat) (start : starting It) :
    exec (list item) :=
  match start with
  | Started s => collect next fuel s
  | Blocks => NoFuel
  end.

Definition run_in (cwd : location) (v : vfs) (calls : list builder_call) (root : Path) : exec (list item) :=
  let fs := vfs_file_system v cwd in
  let o := options calls in
  collect_from (DirEntryIter.next (ReadDirIter.next (linux_serial 5 fs o (th_of v cwd)) 200) 200) 200
    (into_iter fs o root true (fun _ => World.in_order (T := Ordered.t (Result (ReadDir.t C))) [])).

(** [run_recursive] on a walk of the directory, or of something in it. *)
Definition run (v : vfs) (calls : list builder_call) : exec (list item) := run_in [] v calls tmp.
Definition run_at (p : string) (v : vfs) (calls : list builder_call) : exec (list item) :=
  run_in [] v calls (join p).

Definition ents (l : list item) : list DirEntry := omap res_ok l.
Definition errs (l : list item) : list Error.t :=
  omap (fun x : item => match x with Ok _ => None | Err e => Some e end) l.

(** The path of the directory itself, relative to it *)
Definition here : string := EmptyString.

(** What the tests ask of an entry: the path below that of the directory, the depth, the
    type, and whether its path is a link. *)
Definition D : Z * bool := (S_IFDIR, false).
Definition F : Z * bool := (S_IFREG, false).
Definition L : Z * bool := (S_IFLNK, true).
(** A link that was followed to a directory, or to a file. *)
Definition LD : Z * bool := (S_IFDIR, true).
Definition LF : Z * bool := (S_IFREG, true).

Definition shape (e : DirEntry) : Path * Z * (Z * bool) :=
  (DirEntry.path e, DirEntry.depth e,
   (Z.land (ft_mode (DirEntry.file_type e)) S_IFMT, DirEntry.path_is_symlink e)).
Definition shapes (l : list item) : list (Path * Z * (Z * bool)) := map shape (ents l).

(** No errors, and these entries; [here] is the directory itself. *)
Definition entry_of (x : string * Z * (Z * bool)) : Path * Z * (Z * bool) :=
  let '(p, d, t) := x in (match p with EmptyString => tmp | _ => join p end, d, t).
Definition lists (r : exec (list item)) (expected : list (string * Z * (Z * bool))) : Prop :=
  match r with
  | Ret l => errs l = [] /\ shapes l = map entry_of expected
  | _ => False
  end.

(** The type of the metadata a test asks an entry for. *)
Definition metadata_type (v : vfs) (e : DirEntry) : option Z :=
  match DirEntry.get_metadata (vfs_file_system v []) e with
  | Ok md => Some (Z.land (ft_mode (Std.md_file_type md)) S_IFMT)
  | Err _ => None
  end.
Definition metadata_types (v : vfs) (r : exec (list item)) : list (option Z) :=
  match r with Ret l => map (metadata_type v) (ents l) | _ => [] end.

Example test_empty : lists (run (dir []) []) [(here, 0, D)].
Proof. by vm_compute. Qed.

(** ** The tests *)

Open Scope string_scope.

(** The walks of the tests without links, by the name of the test. *)
Example test_empty_follow : lists (run (dir []) [follow_links true]) [(here, 0, D)].
Proof. by vm_compute. Qed.

Example test_empty_file :
  lists (run_at "a" (dir [touch "a"]) []) [("a", 0, F)] /\
  lists (run_at "a" (dir [touch "a"]) [follow_links true]) [("a", 0, F)].
Proof. by vm_compute. Qed.

Example test_one_dir : lists (run (dir [mkdirp "a"]) []) [(here, 0, D); ("a", 1, D)].
Proof. by vm_compute. Qed.

Example test_one_file : lists (run (dir [touch "a"]) []) [(here, 0, D); ("a", 1, F)].
Proof. by vm_compute. Qed.

Example test_many_mixed :
  lists (run (dir [mkdirp "foo/a"; mkdirp "foo/c"; mkdirp "foo/e"; touch "foo/b"; touch "foo/d"; touch "foo/f"])
           [sort true])
    [(here, 0, D); ("foo", 1, D); ("foo/a", 2, D); ("foo/b", 2, F); ("foo/c", 2, D); ("foo/d", 2, F);
     ("foo/e", 2, D); ("foo/f", 2, F)].
Proof. by vm_compute. Qed.

(** Twenty-six levels, and a file at the bottom. *)
Definition nested : string := "a/b/c/d/e/f/g/h/i/j/k/l/m/n/o/p/q/r/s/t/u/v/w/x/y/z".

Example test_nested :
  match run (dir [mkdirp nested; touch (nested ++ "/A")]) [sort true] with
  | Ret l => errs l = [] /\ length (ents l) = 28%nat /\
      map DirEntry.depth (ents l) = seqZ 0 28 /\
      DirEntry.path <$> last (ents l) = Some (join (nested ++ "/A"))
  | _ => False
  end.
Proof. by vm_compute. Qed.

Example test_siblings :
  lists (run (dir [mkdirp "foo"; mkdirp "bar"; touch "foo/a"; touch "foo/b"; touch "bar/a"; touch "bar/b"])
           [sort true])
    [(here, 0, D); ("bar", 1, D); ("bar/a", 2, F); ("bar/b", 2, F); ("foo", 1, D); ("foo/a", 2, F); ("foo/b", 2, F)].
Proof. by vm_compute. Qed.

(** The depths *)
Definition a_b : vfs := dir [mkdirp "a/b"].
Definition a_b_c : vfs := dir [mkdirp "a/b/c"].

Example test_min_depth_1 : lists (run a_b [min_depth 1; sort true]) [("a", 1, D); ("a/b", 2, D)].
Proof. by vm_compute. Qed.
Example test_min_depth_2 : lists (run a_b [min_depth 2; sort true]) [("a/b", 2, D)].
Proof. by vm_compute. Qed.
Example test_max_depth_0 : lists (run a_b [max_depth 0; sort true]) [(here, 0, D)].
Proof. by vm_compute. Qed.
Example test_max_depth_1 : lists (run a_b [max_depth 1; sort true]) [(here, 0, D); ("a", 1, D)].
Proof. by vm_compute. Qed.
Example test_max_depth_2 : lists (run a_b [max_depth 2; sort true]) [(here, 0, D); ("a", 1, D); ("a/b", 2, D)].
Proof. by vm_compute. Qed.
Example test_min_max_depth_diff_0 : lists (run a_b_c [min_depth 2; max_depth 2; sort true]) [("a/b", 2, D)].
Proof. by vm_compute. Qed.
Example test_min_max_depth_diff_1 :
  lists (run a_b_c [min_depth 1; max_depth 2; sort true]) [("a", 1, D); ("a/b", 2, D)].
Proof. by vm_compute. Qed.

Example test_sort :
  lists (run (dir [mkdirp "quux"; mkdirp "foo/bar/baz/abc"]) [sort true])
    [(here, 0, D); ("foo", 1, D); ("foo/bar", 2, D); ("foo/bar/baz", 3, D); ("foo/bar/baz/abc", 4, D); ("quux", 1, D)].
Proof. by vm_compute. Qed.

(** *** Links *)

Definition file_link : vfs := dir [touch "a"; symlink "a" "a-link"].
Definition dir_link : vfs := dir [mkdirp "a"; symlink "a" "a-link"; touch "a/zzz"].

Example test_sym_root_file_nofollow :
  lists (run_at "a-link" file_link [sort true]) [("a-link", 0, L)] /\
  metadata_types file_link (run_at "a-link" file_link [sort true]) = [Some S_IFLNK].
Proof. by vm_compute. Qed.

Example test_sym_root_file_follow :
  lists (run_at "a-link" file_link [sort true; follow_links true]) [("a-link", 0, LF)] /\
  metadata_types file_link (run_at "a-link" file_link [sort true; follow_links true]) = [Some S_IFREG].
Proof. by vm_compute. Qed.

(** A root that is a link is read, followed or not. *)
Example test_sym_root_dir_nofollow :
  lists (run_at "a-link" dir_link [sort true]) [("a-link", 0, L); ("a-link/zzz", 1, F)] /\
  metadata_types dir_link (run_at "a-link" dir_link [sort true]) = [Some S_IFLNK; Some S_IFREG].
Proof. by vm_compute. Qed.

Example test_sym_root_dir_follow :
  lists (run_at "a-link" dir_link [sort true; follow_links true]) [("a-link", 0, LD); ("a-link/zzz", 1, F)] /\
  metadata_types dir_link (run_at "a-link" dir_link [sort true; follow_links true]) = [Some S_IFDIR; Some S_IFREG].
Proof. by vm_compute. Qed.

Example test_sym_file_nofollow :
  lists (run file_link [sort true]) [(here, 0, D); ("a", 1, F); ("a-link", 1, L)] /\
  metadata_types file_link (run file_link [sort true]) = [Some S_IFDIR; Some S_IFREG; Some S_IFLNK].
Proof. by vm_compute. Qed.

Example test_sym_file_follow :
  lists (run file_link [sort true; follow_links true]) [(here, 0, D); ("a", 1, F); ("a-link", 1, LF)] /\
  metadata_types file_link (run file_link [sort true; follow_links true]) = [Some S_IFDIR; Some S_IFREG; Some S_IFREG].
Proof. by vm_compute. Qed.

Example test_sym_dir_nofollow :
  lists (run dir_link [sort true]) [(here, 0, D); ("a", 1, D); ("a/zzz", 2, F); ("a-link", 1, L)].
Proof. by vm_compute. Qed.

Example test_sym_dir_follow :
  lists (run dir_link [follow_links true; sort true])
    [(here, 0, D); ("a", 1, D); ("a/zzz", 2, F); ("a-link", 1, LD); ("a-link/zzz", 2, F)].
Proof. by vm_compute. Qed.

Example test_sym_noloop :
  lists (run (dir [mkdirp "a/b/c"; symlink "a" "a/b/c/a-link"]) [])
    [(here, 0, D); ("a", 1, D); ("a/b", 2, D); ("a/b/c", 3, D); ("a/b/c/a-link", 4, L)].
Proof. by vm_compute. Qed.

(** One error, with the ancestor and the link. *)
Example test_sym_loop_detect :
  match run (dir [mkdirp "a/b/c"; symlink "a" "a/b/c/a-link"]) [follow_links true] with
  | Ret l => length (ents l) = 4%nat /\ errs l = [Error.from_loop 4 (join "a") (join "a/b/c/a-link")] /\
      map Error.path (errs l) = [Some (join "a/b/c/a-link")] /\
      map Error.loop_ancestor (errs l) = [Some (join "a")] /\
      map Error.depth (errs l) = [4] /\ map Error.io_error (errs l) = [None]
  | _ => False
  end.
Proof. by vm_compute. Qed.

Definition self_link : vfs := dir [symlink "a" "a"].

Example test_sym_self_loop_no_error :
  lists (run self_link []) [(here, 0, D); ("a", 1, L)] /\
  metadata_types self_link (run self_link []) = [Some S_IFDIR; Some S_IFLNK].
Proof. by vm_compute. Qed.

(** [sym_file_self_loop_io_error] and [sym_dir_self_loop_io_error] *)
Example test_sym_self_loop_io_error :
  match run self_link [follow_links true] with
  | Ret l => length (ents l) = 1%nat /\ map Error.path (errs l) = [Some (join "a")] /\
      map Error.depth (errs l) = [1] /\ map Error.loop_ancestor (errs l) = [None] /\
      map Error.io_error (errs l) = [Some (Os ELOOP Other)]
  | _ => False
  end.
Proof. by vm_compute. Qed.

Example test_symlink_follow_cross_platform :
  lists (run (dir [mkdirp "target_dir"; touch "target_dir/file.txt"; mkdirp "link_parent";
                   symlink "target_dir" "link_parent/link_dir"]) [sort true])
    [(here, 0, D); ("link_parent", 1, D); ("link_parent/link_dir", 2, L); ("target_dir", 1, D);
     ("target_dir/file.txt", 2, F)].
Proof. by vm_compute. Qed.

(** Followed, the walk lists more. *)
Definition containers : vfs :=
  dir [touch "real.txt"; mkdirp "subdir"; touch "subdir/nested.txt"; mkdirp "link_container";
       symlink "real.txt" "link_container/link.txt"; symlink "subdir" "link_container/link_dir"].

Example test_symlink_file_and_cycle_detection :
  lists (run containers [sort true])
    [(here, 0, D); ("link_container", 1, D); ("link_container/link.txt", 2, L);
     ("link_container/link_dir", 2, L); ("real.txt", 1, F); ("subdir", 1, D); ("subdir/nested.txt", 2, F)] /\
  lists (run containers [follow_links true; sort true])
    [(here, 0, D); ("link_container", 1, D); ("link_container/link.txt", 2, LF);
     ("link_container/link_dir", 2, LD); ("link_container/link_dir/nested.txt", 3, F);
     ("real.txt", 1, F); ("subdir", 1, D); ("subdir/nested.txt", 2, F)].
Proof. by vm_compute. Qed.

Example test_symlink_cycle_detection_with_follow :
  match run (dir [mkdirp "a/b"; symlink "a" "a/b/cycle"]) [follow_links true; sort true] with
  | Ret l => errs l = [Error.from_loop 3 (join "a") (join "a/b/cycle")] /\ length (ents l) = 3%nat
  | _ => False
  end.
Proof. by vm_compute. Qed.

Example test_broken_symlink_handling :
  lists (run (dir [mkdirp "links"; symlink "nonexistent_target" "links/broken"]) [sort true])
    [(here, 0, D); ("links", 1, D); ("links/broken", 2, L)].
Proof. by vm_compute. Qed.

(** *** The directory tests/assets/test_dir *)

Definition test_dir : vfs :=
  dir [touch "b.txt"; mkdirp "group 2"; touch "group 2/e.txt"; touch "group 2/.hidden_file.txt";
       mkdirp "group 1"; touch "group 1/d.txt"; touch "c.txt"; touch "a.txt"].

(** [local_paths]: no errors, not in the entries either; the path below the root, which is
    [strip_prefix] on the names, and the depth. *)
Definition local_paths (root : Path) (r : exec (list item)) : exec (list (Path * Z)) :=
  let! l := r in
  if forallb (fun x : item => match x with
       | Ok e => bool_decide (DirEntry.read_children_error e = None)
       | Err _ => false end) l
  then Ret (map (fun e => (drop (length root + 1) (DirEntry.path e), DirEntry.depth e)) (ents l))
  else Panic.

Definition locals (l : list (string * Z)) : exec (list (Path * Z)) :=
  Ret (map (fun x => (bytes x.1, x.2)) l).

Definition whole_test_dir : list (string * Z) :=
  [(here, 0); ("a.txt", 1); ("b.txt", 1); ("c.txt", 1); ("group 1", 1); ("group 1/d.txt", 2);
   ("group 2", 1); ("group 2/e.txt", 2)].

Example test_walk_serial :
  local_paths tmp (run test_dir [sort true; skip_hidden true]) = locals whole_test_dir.
Proof. by vm_compute. Qed.

Example test_see_hidden_files :
  match local_paths tmp (run test_dir [skip_hidden false; sort true]) with
  | Ret l => bool_decide ((bytes "group 2/.hidden_file.txt", 2) ∈ l) = true
  | _ => False
  end.
Proof. by vm_compute. Qed.

Example test_walk_file_serial : lists (run_at "a.txt" test_dir []) [("a.txt", 0, F)].
Proof. by vm_compute. Qed.

(** [error_when_path_does_not_exist], and the second half of [permission_denied_graceful] *)
Example test_error_when_path_does_not_exist :
  match run_at "path_does_not_exist" test_dir [] with
  | Ret l => length (ents l) = 0%nat /\ map Error.io_error (errs l) = [Some (Os ENOENT Other)]
  | _ => False
  end.
Proof. by vm_compute. Qed.

Example test_walk_root :
  match run_in [] test_dir [max_depth 1; sort true] (bytes "/") with
  | Ret l => shapes l = [(bytes "/", 0, D); (bytes "/tmp", 1, D)]
  | _ => False
  end.
Proof. by vm_compute. Qed.

(** Walks of "." and ".." from within. *)
Example test_walk_relative :
  local_paths (bytes ".") (run_in (split_path tmp []) test_dir [sort true; skip_hidden true] (bytes ".")) =
    locals whole_test_dir /\
  local_paths (bytes "..") (run_in (split_path (join "group 1") []) test_dir [sort true; skip_hidden true] (bytes "..")) =
    locals whole_test_dir.
Proof. by vm_compute. Qed.

(** *** [process_read_dir] *)

Definition is_group (e : DirEntry) : bool := bool_decide (take 5 (DirEntry.file_name e) = bytes "group").

(** [children.retain] *)
Definition retain_no_groups (_ : option Z) (_ : Path) (state : @ReadDirState C) (children : list item) :
    @ReadDirState C * list item :=
  (state, List.filter (fun x : item => match x with Ok e => negb (is_group e) | Err _ => true end) children).

Example test_filter_groups_with_process_read_dir :
  local_paths tmp (run test_dir [sort true; process_read_dir retain_no_groups]) =
    locals [(here, 0); ("a.txt", 1); ("b.txt", 1); ("c.txt", 1)].
Proof. by vm_compute. Qed.

Definition no_group_children (_ : option Z) (_ : Path) (state : @ReadDirState C) (children : list item) :
    @ReadDirState C * list item :=
  (state, map (fun x : item => match x with
    | Ok e => Ok (if is_group e then DirEntry.set_read_children_path e None else e)
    | Err err => Err err end) children).

Example test_filter_group_children_with_process_read_dir :
  local_paths tmp (run test_dir [sort true; process_read_dir no_group_children]) =
    locals [(here, 0); ("a.txt", 1); ("b.txt", 1); ("c.txt", 1); ("group 1", 1); ("group 2", 1)].
Proof. by vm_compute. Qed.

(** *** Directories that cannot be read *)

(** The directory [group 2] is removed before it is read: the entry, found earlier, is listed
    with the error of reading it. *)
Definition without_group_2 : vfs :=
  mk_vfs (List.filter (fun x => negb (bool_decide (take 3 x.1 = split_path (join "group 2") []))) (nodes test_dir)) [].

Example test_error_when_path_removed_durring_iteration :
  let fs := vfs_file_system test_dir [] in
  let o := options [sort true; skip_hidden true] in
  let th spec := th_of (if bool_decide (ReadDirSpec.path spec = join "group 2") then without_group_2 else test_dir) [] spec in
  match collect_from (DirEntryIter.next (ReadDirIter.next (linux_serial 5 fs o th) 200) 200) 200
      (into_iter fs o tmp true (fun _ => World.in_order (T := Ordered.t (Result (ReadDir.t C))) [])) with
  | Ret l => length (errs l) = 0%nat /\
      map (fun e => (DirEntry.path e, DirEntry.read_children_error e)) (ents l) =
      map (fun p => (match p with EmptyString => tmp | _ => join p end,
                     if bool_decide (p = "group 2") then Some (Error.from_path 0 (join p) (Os ENOENT Other)) else None))
        [here; "a.txt"; "b.txt"; "c.txt"; "group 1"; "group 1/d.txt"; "group 2"]
  | _ => False
  end.
Proof. by vm_compute. Qed.

(** A directory without permissions is listed as an entry that carries the error; the walk
    itself gives no [Err].  The test [permission_denied_mixed_scenario], which is marked
    as ignored, expects one. *)
Definition restricted : vfs :=
  dir [mkdirp "readable_a/sub"; touch "readable_a/file.txt"; touch "readable_a/sub/nested.txt"; mkdirp "readable_b";
       touch "readable_b/other.txt"; mkdirp "restricted"; touch "restricted/secret.txt"; forbid "restricted"].

Example test_permission_denied_mixed_scenario :
  match run restricted [sort true] with
  | Ret l => shapes l = map entry_of
        [(here, 0, D); ("readable_a", 1, D); ("readable_a/file.txt", 2, F); ("readable_a/sub", 2, D);
         ("readable_a/sub/nested.txt", 3, F); ("readable_b", 1, D); ("readable_b/other.txt", 2, F);
         ("restricted", 1, D)] /\
      DirEntry.read_children_error <$> last (ents l) =
        Some (Some (Error.from_path 0 (join "restricted") (Os EACCES Other))) /\
      length (errs l) = 0%nat
  | _ => False
  end.
Proof. by vm_compute. Qed.
