(* ===== verification/Bench.v ===== *)
(** * The benchmark [benches/walk_benchmark.rs]: [rayon_recursive_descent]

    The other walkers it measures are third-party code.  The recursion is modelled by the
    calls it makes of [std::fs]; those of sibling entries are made in parallel, and are given
    here one after the other.  On a tree it reads the directories that the walk lists. *)
From S2P Require Import Prelude Order Tree World Std Error Metadata Platform DirEntry Callback.
From S2P Require Import UnixEnum LinuxReadDir LegacyReadDir OrderedQueue ReadDirIter DirEntryIter.
From S2P Require Import ParWalk ParComplete PoolWorld WalkDir WalkTypes WalkModes Bare FileTree UnixWalk LegacyTree.

Inductive fs_call : Type :=
| CallSymlinkMetadata (p : Path)
| CallReadDir (p : Path).

Section Descent.
Context (fs : FileSystem) (fs_read_dir : Path -> result (list (result fs_DirEntry io_Error)) io_Error).

(** [is_dir], and what it takes to know it. *)
Definition descent_is_dir (root : Path) (file_type : option FileType) (get_file_metadata : bool) :
    list fs_call * bool :=
  match file_type with
  | Some ft =>
      (if negb (is_dir ft) && get_file_metadata then [CallSymlinkMetadata root] else [], is_dir ft)
  | None =>
      ([CallSymlinkMetadata root],
       match fs_symlink_metadata fs root with Ok m => is_dir (md_file_type m) | Err _ => false end)
  end.

(** The entries of a directory; [recurse] is the recursive call. *)
Fixpoint descent_entries (recurse : Path -> option FileType -> exec (list fs_call))
    (iter : list (result fs_DirEntry io_Error)) : exec (list fs_call) :=
  match iter with
  | [] => Ret []
  | Ok entry :: iter' =>
      let! calls := recurse (de_path entry) (res_ok (de_file_type entry)) in
      let! rest := descent_entries recurse iter' in
      Ret (calls ++ rest)
  | Err _ :: iter' => descent_entries recurse iter'
  end.

(** One unit of fuel per level of directories. *)
Fixpoint rayon_recursive_descent (fuel : nat) (root : Path) (file_type : option FileType)
    (get_file_metadata : bool) : exec (list fs_call) :=
  match fuel with
  | O => NoFuel
  | S fuel' =>
      let '(calls, is_dir) := descent_is_dir root file_type get_file_metadata in
      if is_dir then
        match fs_read_dir root with
        | Ok iter =>
            let! rest := descent_entries (fun path file_type =>
              rayon_recursive_descent fuel' path file_type get_file_metadata) iter in
            Ret (calls ++ CallReadDir root :: rest)
        | Err _ => Ret (calls ++ [CallReadDir root])
        end
      else Ret calls
  end.
End Descent.

(** ** On a tree *)

(** The levels of a tree. *)
Fixpoint height (n : node) : nat :=
  match n with Folder _ entries => S (max_list (map (fun x => height (snd x)) entries)) | _ => 1 end.

(** The directories that calls read, and the paths whose metadata they ask for. *)
Definition dirs_read (calls : list fs_call) : list Path :=
  omap (fun c => match c with CallReadDir p => Some p | _ => None end) calls.
Definition stats_of (calls : list fs_call) : list Path :=
  omap (fun c => match c with CallSymlinkMetadata p => Some p | _ => None end) calls.

(** The paths of what is seen, of the types [p]. *)
Definition seen_paths (p : FileType -> bool) (l : list (Result seen)) : list Path :=
  omap (fun r => match r with
                 | Ok s => if p (seen_type s) then Some (path_join (seen_parent s) (seen_name s)) else None
                 | Err _ => None
                 end) l.

Section OnTree.
Context {C : ClientState} (fs : FileSystem) (o : WalkDirOptions C)
  (listing : Path -> result (list (result fs_DirEntry io_Error)) io_Error) (get_file_metadata : bool).
Context (Hmin : o_min_depth o = 0) (Hmax : o_max_depth o = usize_max) (Hskip : o_skip_hidden o = false)
  (Hsort : o_sort o = false).
Abbreviation descent := (rayon_recursive_descent fs listing).
Abbreviation disk := (on_disk o (fun _ => tt) (std_serves listing)).
Abbreviation no_dir := (fun ft => negb (is_dir ft)).

Lemma arranged_same {A} (l : list (tag * A)) : arranged o l = l.
Proof.
  unfold arranged. rewrite Hskip, Hsort. induction l as [|x l IH]; [done|]. simpl in *. by rewrite IH.
Qed.

(** What the recursion does for an entry of type [ft]: the walk lists the same below it. *)
Definition descends (d : Z) (path : Path) (n : node) : Prop :=
  forall fuel, (height n <= fuel)%nat -> exists calls,
    descent fuel path (Some (node_type n)) get_file_metadata = Ret calls /\
    dirs_read calls = (if is_dir (node_type n) then [path] else []) ++ seen_paths is_dir (below o d path n) /\
    stats_of calls = if get_file_metadata
      then (if is_dir (node_type n) then [] else [path]) ++ seen_paths no_dir (below o d path n) else [].

Lemma seen_paths_app p l1 l2 : seen_paths p (l1 ++ l2) = seen_paths p l1 ++ seen_paths p l2.
Proof. apply omap_app. Qed.

Lemma seen_paths_listing p d path x :
  0 <= d -> seen_paths p (listing_of o d path (path_join path) x) =
    (if p (node_type (snd x)) then [path_join path (tag_name (fst x))] else []) ++
    seen_paths p (below o d (path_join path (tag_name (fst x))) (snd x)).
Proof.
  intros Hd. unfold listing_of, display. cbn [seen_depth]. rewrite Hmin, (proj2 (Z.leb_le _ _)) by done.
  unfold seen_paths. simpl. by destruct (p _).
Qed.

Lemma entries_descend d path xs l fuel :
  0 <= d -> Forall2 (std_entry_of path) xs l ->
  Forall (fun x => descends d (path_join path (tag_name (fst x))) (snd x)) xs ->
  (max_list (map (fun x => height (snd x)) xs) <= fuel)%nat ->
  exists calls, descent_entries (fun p ft => descent fuel p ft get_file_metadata) l = Ret calls /\
    dirs_read calls = seen_paths is_dir (flat_map (listing_of o d path (path_join path)) xs) /\
    stats_of calls = if get_file_metadata
      then seen_paths no_dir (flat_map (listing_of o d path (path_join path)) xs) else [].
Proof.
  intros Hd. induction 1 as [|x r xs l (e & -> & _ & _ & Ht & Hp) _ IH]; intros Hx Hf.
  { exists []. by destruct get_file_metadata. }
  apply Forall_cons in Hx as [Hx Hxs]. cbn [map] in Hf. change (max_list (?a :: ?b)) with (Nat.max a (max_list b)) in Hf.
  destruct (IH Hxs ltac:(lia)) as (rest & E & E1 & E2). destruct (Hx fuel ltac:(lia)) as (calls & D & D1 & D2).
  exists (calls ++ rest). cbn [descent_entries]. rewrite Ht, Hp. cbn [res_ok]. rewrite D. cbn [exec_bind].
  rewrite E. split; [done|]. cbn [flat_map]. rewrite !seen_paths_app, !seen_paths_listing by done.
  unfold dirs_read, stats_of in *. rewrite !omap_app, D1, D2, E1, E2. split; [done|].
  destruct get_file_metadata; [|done]. f_equal. by destruct (is_dir (node_type (snd x))).
Qed.

Lemma node_descends n : forall d path, 0 <= d -> disk d path n -> descends d path n.
Proof.
  induction n as [ft|ft e|ft entries IH] using node_nested_ind; intros d path Hd H [|fuel] Hf;
    simpl in Hf; try lia; inversion H as [? ? ? Hn Hc]; subst;
    cbn [rayon_recursive_descent descent_is_dir node_type].
  - rewrite Hn. cbn [negb andb]. eexists. split; [reflexivity|]. by destruct get_file_metadata.
  - destruct Hn as [-> Hs]. specialize (Hs (never_too_deep o Hmax d)). simpl in Hs. rewrite Hs.
    cbn [negb andb app]. eexists. split; [reflexivity|]. by destruct get_file_metadata.
  - destruct Hn as [Hft Hs]. rewrite Hft. destruct (Hs (never_too_deep o Hmax d)) as (l & -> & Hl & _).
    specialize (Hc (never_too_deep o Hmax d)). cbn [contents] in Hc.
    assert (0 <= saturating_add d 1) as Hd' by (unfold saturating_add; assert (0 < usize_max) by done; lia).
    destruct (entries_descend (saturating_add d 1) path entries l fuel Hd' Hl) as (calls & -> & E1 & E2);
      [|lia|].
    { clear -IH Hc Hd'. induction IH as [|x xs Hx _ IH]; [constructor|].
      apply Forall_cons in Hc as [Hc1 Hc2]. constructor; [by apply Hx|by apply IH]. }
    cbn [negb andb exec_bind app]. eexists. split; [reflexivity|].
    rewrite below_folder, never_too_deep, arranged_same by done. unfold dirs_read, stats_of in *.
    cbn [omap list_omap]. rewrite E1, E2. split; [done|]. by destruct get_file_metadata.
Qed.

(** The recursion over a tree ends; it reads the root and then the directories that the walk
    lists, and asks for the metadata of the root and, if it is to, of the entries
    the walk lists that are no directories: each once. *)
Theorem descent_like_walk root md (n : node) fuel :
  fs_symlink_metadata fs root = Ok md -> md_file_type md = node_type n -> is_dir (node_type n) = true ->
  disk 0 root n -> (height n <= fuel)%nat ->
  exists calls, descent fuel root None get_file_metadata = Ret calls /\
    dirs_read calls = root :: seen_paths is_dir (below o 0 root n) /\
    stats_of calls = root :: if get_file_metadata then seen_paths no_dir (below o 0 root n) else [].
Proof.
  intros Hmd Ht Hdir Hdisk Hf. destruct (node_descends n 0 root ltac:(lia) Hdisk fuel Hf) as (calls & E & E1 & E2).
  rewrite Hdir in E1, E2. destruct fuel as [|fuel]; [destruct n; simpl in Hf; lia|].
  cbn [rayon_recursive_descent descent_is_dir] in *. rewrite Hmd, Ht.
  rewrite Hdir in *. cbn [negb andb app] in E. exists (CallSymlinkMetadata root :: calls).
  unfold dirs_read, stats_of in *. cbn [omap list_omap]. rewrite E1, E2. split.
  - destruct (listing root) as [l|err]; [|by simplify_eq/=].
    destruct (descent_entries _ l); simpl in *; by simplify_eq/=.
  - split; [done|]. by destruct get_file_metadata.
Qed.
End OnTree.
