(* ===== verification/WalkDrop.v ===== *)
(** * Dropping the iterator of a real walk

    [Abandon] asks for a bound on what a call of the callback may schedule, stopped or
    not.  Here the bound comes from the size of the directories: no call schedules more
    than the results of its directory, whichever way it is read. *)
From S2P Require Import Prelude Order Tree World Std Error Platform DirEntry Callback.
From S2P Require Import OrderedQueue ReadDirIter DirEntryIter ParWalk ParComplete ParStop Abandon.
From S2P Require Import Metadata WalkDir WalkTypes WalkModes UnixEnum FsDetect IoUring LinuxReadDir LegacyReadDir Bare UnixWalk ScanExt.

(** ** What a run may schedule *)

Section Pushes.
Context {P : Platform} {C : ClientState}.

Lemma max_pushes_bind {R R'} (after : R' -> nat) (c : run_of C R) (f : R -> run_of C R') :
  max_pushes after (run_bind c f) = max_pushes (fun r => max_pushes after (f r)) c.
Proof. induction c as [r|w k IH|k IH]; simpl; by rewrite ?IH. Qed.

Lemma max_pushes_all {R} (Q : R -> Prop) (g g' : R -> nat) (c : run_of C R) :
  all_returns Q c -> (forall r, Q r -> (g r <= g' r)%nat) ->
  (max_pushes g c <= max_pushes g' c)%nat.
Proof.
  intros H Hg. induction c as [r|w k IH|k IH]; simpl in *; [by apply Hg|..];
    pose proof (IH true (H true)); pose proof (IH false (H false)); lia.
Qed.

Lemma length_weighted st ip weight skip c entries :
  (length (ReadDir.weighted_loop (C := C) st ip weight skip c entries) <= length entries)%nat.
Proof.
  revert c. induction entries as [|e entries IH]; intros c; simpl; [lia|].
  destruct (ReadDir.child_spec st e); [|pose proof (IH c); lia].
  pose proof (IH (usize_add c 1)). destruct (skip <=? c); simpl; lia.
Qed.

(** A call schedules at most what its result has to be read. *)
Lemma own_pushes_le w (rd : ReadDir.t C) :
  (own_pushes w (Ok rd) <= length (ReadDir.results_list rd))%nat.
Proof.
  unfold own_pushes, regular_specs. case_match; simpl; [apply length_weighted|lia].
Qed.

Lemma own_pushes_streamed w (rd : ReadDir.t C) :
  ReadDir.streamed_child_count rd <> 0 -> own_pushes w (Ok rd) = 0%nat.
Proof.
  intros H. unfold own_pushes, regular_specs. by rewrite (proj2 (Z.eqb_neq _ _)).
Qed.
End Pushes.

(** ** The callback of a walk *)

Section Drop.
Context {P : Platform} {C : ClientState} {TH : Type} {HR : DirReader TH}.
Context (fs : FileSystem) (o : WalkDirOptions C) (th_of : ReadDirSpec.t C -> TH) (fan_out : nat).
Abbreviation callback := (static_callback fs o th_of).
Abbreviation reader := (option StreamingContext -> TH -> run_of C (exec (Result (ReadDir.t C) * TH))).

(** No directory gives more than [fan_out] results. *)
Definition narrow : Prop := forall spec rd,
  serial_read fs o th_of spec = Ok rd -> (length (ReadDir.results_list rd) <= fan_out)%nat.

(** What a call may schedule, its own children included. *)
Definition modest (spec : ReadDirSpec.t C) : Prop := forall w ctx,
  (max_pushes (own_pushes w) (callback spec (Some ctx)) <= fan_out)%nat.

Lemma oblivious_modest spec : oblivious fs o -> narrow -> modest spec.
Proof.
  intros Ho Hn w ctx. unfold static_callback. rewrite max_pushes_bind.
  destruct (oblivious_callback fs o th_of spec (Some ctx) Ho) as (r & -> & E & _).
  specialize (Hn spec). unfold serial_read in Hn. rewrite E in Hn. simpl in *.
  destruct (settle r) as [rd|e]; [|apply Nat.le_0_l].
  etransitivity; [apply own_pushes_le|by apply Hn].
Qed.

(** A reading that fails before it schedules anything, or succeeds whatever happens and
    schedules at most its results. *)
Definition tame (op : reader) (th : TH) : Prop :=
  (exists e, forall ctx, op ctx th = Returns (Ret (Err e, th))) \/
  exists rd th2, undisturbed (op None th) = ([], Ret (Ok rd, th2)) /\ forall ctx,
    all_returns (fun r => match r with Ret (Err _, _) => False | _ => True end) (op (Some ctx) th) /\
    forall w, (max_pushes (fun r => own_pushes w (settle r)) (op (Some ctx) th) <=
      length (ReadDir.results_list rd))%nat.

Lemma tame_modest spec :
  let d := saturating_add (ReadDirSpec.depth spec) 1 in
  0 <= o_max_retries o -> narrow ->
  tame (read_dir fs (read_options o) (ReadDirSpec.path spec) (ReadDirSpec.depth spec) d
    (extend_ancestors fs o (ReadDirSpec.path spec) (ReadDirSpec.follow_link_ancestors spec))
    (ReadDirSpec.client_read_state spec)) (th_of spec) ->
  modest spec.
Proof.
  intros d Hr Hn H w ctx. unfold static_callback. rewrite max_pushes_bind.
  specialize (Hn spec). unfold serial_read, core_read_dir_callback in *. fold d in Hn |- *.
  destruct (o_max_depth o <? d); [apply Nat.le_0_l|]. set (op := read_dir _ _ _ _ _ _ _) in *.
  destruct H as [[e He]|(rd & th2 & E & Hctx)].
  { rewrite (retry_always_fails o Hr op e (th_of spec) He). apply Nat.le_0_l. }
  rewrite (retry_first o Hr op None (th_of spec) rd [] th2 E) in Hn.
  destruct (Hctx ctx) as [Hok Hle]. transitivity (length (ReadDir.results_list rd)); [|by apply Hn].
  etransitivity; [|apply (Hle w)]. rewrite seqZ_cons by lia. cbn [retry_read].
  rewrite max_pushes_bind. eapply max_pushes_all; [exact Hok|].
  by intros [[[rd'|e'] th']| |] HQ.
Qed.

(** The contract of the pool and the bound at once. *)
Lemma modes_modest :
  0 <= o_max_retries o -> narrow ->
  oblivious fs o /\ fits fs o th_of \/
  (forall spec d anc, 0 < d ->
     let op := read_dir fs (read_options o) (ReadDirSpec.path spec) (ReadDirSpec.depth spec) d anc
       (ReadDirSpec.client_read_state spec) in
     regular (th_of spec) deep op /\ tame op (th_of spec)) ->
  exists valid, (forall spec, deep spec -> valid spec) /\
    (forall spec, valid spec -> settled fs o th_of valid spec) /\
    (forall spec, valid spec -> modest spec).
Proof.
  intros Hr Hn [[Hl Hf]|H].
  - exists (fun _ => True). split; [done|]. split; intros spec _.
    + by apply oblivious_settled.
    + by apply oblivious_modest.
  - assert (forall spec, deep spec -> 0 < saturating_add (ReadDirSpec.depth spec) 1) as Hpos.
    { intros spec Hd. unfold saturating_add, deep in *. assert (0 < usize_max) by done. lia. }
    exists deep. split; [done|]. split; intros spec Hd.
    + apply regular_settled; [done|]. intros _. by apply H, Hpos.
    + apply tame_modest; [done..|]. by apply H, Hpos.
Qed.

(** The iterator is dropped in the state [s] of the pool: afterwards, a run of the pool is
    bounded, and at its end the pool is over unless it can go on. *)
Definition drop_ends (num_threads capacity : nat) (s : state C) : Prop :=
  exists s1, run callback num_threads capacity [SetStop; CloseResults] s = Some s1 /\
    forall l s', run callback num_threads capacity l s1 = Some s' ->
      (length (List.filter of_pool l) + steps_left s' <= steps_left s1)%nat /\
      ((exists a s'', of_pool a = true /\ step callback num_threads capacity a s' = Some s'') \/
       iter s' = IEnded /\ workers s' = []).

Lemma modest_drop_ends valid num_threads capacity spec t s :
  (forall spec, valid spec -> settled fs o th_of valid spec) ->
  (forall spec, valid spec -> modest spec) -> valid spec ->
  reads (parallel_read fs o th_of) spec t -> (0 < num_threads)%nat ->
  (length (labels [0%Z] t) + num_threads * fan_out <= capacity)%nat ->
  reachable callback num_threads capacity (init [spec]) s -> stop s = false ->
  drop_ends num_threads capacity s.
Proof.
  intros Hset Hmod Hv Ht Hn Hroom Hr Hst. eexists. split; [reflexivity|]. intros l s' E.
  eapply (abandoned_walk_ends callback num_threads capacity valid (parallel_read fs o th_of) spec t fan_out);
    eauto using static_contract. intros w ctx Hw. by apply Hmod.
Qed.
End Drop.

(** ** Linux *)

Section Linux.
Context {C : ClientState} {K : Type} {HS : Sys K} {HF : FsSys K} {HR : Ring K} {HK : SaneKernel K}.
Context (fs : FileSystem) (o : WalkDirOptions C) (fuel : nat).

Lemma schedule_pushes {R} skip (g : R -> nat) ctx path d st anc infos c (finish : Z -> run_of C R) n :
  0 <= c -> c + Z.of_nat (length infos) <= usize_max ->
  (forall c', 0 <= c' -> (max_pushes g (finish c') <= if (c' =? 0)%Z then n else 0)%nat) ->
  (max_pushes g (schedule_subdirs skip ctx path d st anc infos c finish) <=
    (if (c =? 0)%Z then n else 0) `max` length (kept skip infos))%nat.
Proof.
  intros Hc Hb Hf. revert c Hc Hb. induction infos as [|info infos IH]; intros c Hc Hb.
  { pose proof (Hf c Hc). simpl. lia. }
  rewrite length_cons in Hb. unfold kept in *. cbn [List.filter schedule_subdirs max_pushes].
  pose proof (IH c Hc ltac:(lia)) as Hskip.
  destruct (le_d_type info =? DT_DIR), (skip && is_hidden (le_name info)); cbn [negb length]; try lia.
  cbn [max_pushes]. rewrite usize_add_small by lia.
  pose proof (IH (c + 1) ltac:(lia) ltac:(lia)) as Hnext.
  rewrite (proj2 (Z.eqb_neq (c + 1) 0)) in Hnext by lia. lia.
Qed.

(** The reading of a directory whose entries have known types, in streaming mode. *)
Lemma linux_tame th path rdd d anc st :
  o_follow_links o = false -> o_sort o = false -> o_process_read_dir o = None ->
  readable fuel th path -> d <> 0 ->
  tame (read_dir (DirReader := linux_reader fuel) fs (read_options o) path rdd d anc st) th.
Proof.
  intros Hfollow Hsort Hprocess Hread Hd.
  destruct Hread as [(entries & [cstr fd k1 k2 bs Hp Ho Hs Hf Heq] & Ht & Hb)|[e He]].
  2: { left. eexists. intros ctx. by apply linux_fails. }
  right. cbn [read_dir linux_reader read_options r_follow_links r_read_metadata r_read_metadata_ext
    r_skip_hidden r_sort r_process_read_dir]. rewrite Hfollow, Hsort, Hprocess.
  set (finish := finish_read_dir fs false (o_read_metadata o) (o_read_metadata_ext o)
    (o_skip_hidden o) false None path rdd d anc st (Ok (fd, entries)) (set_kernel th k2)).
  assert (forall n, exists es th', finish n = Ret (Ok (ReadDir.mk st (map Ok es) n), th') /\
    length es = length (kept (o_skip_hidden o) entries)) as Hfinish.
  { intros n. destruct (finish_read_dir_ok fs (o_read_metadata o) (o_read_metadata_ext o)
      (o_skip_hidden o) path rdd d anc st fd entries (set_kernel th k2) n)
      as (es & th' & E & Hn & _); [done|rewrite Heq; apply entries_of_ok|done|].
    exists es, th'. split; [exact E|]. apply (f_equal length) in Hn. by rewrite !length_map in Hn. }
  unfold read_dir_linux_via_getdents.
  rewrite (plain_enumeration _ _ _ _ _ _ _ _ _ _ Hp Ho Hs Hf), <- Heq. fold finish.
  destruct (Hfinish 0) as (es & th' & E & Hlen). eexists _, th'. split; [by rewrite E|]. intros ctx.
  rewrite (streaming_enumeration _ _ _ _ _ _ _ _ _ _ _ _ Hp Ho Hs Hf), fold_push, <- Heq.
  simpl app. fold finish. fold (subdirs entries). simpl. rewrite length_map, Hlen.
  pose proof (List.filter_length_le (fun i => le_d_type i =? DT_DIR) entries) as Hle.
  fold (subdirs entries) in Hle. split.
  - apply schedule_subdirs_returns. intros n. simpl. by destruct (Hfinish n) as (? & ? & -> & _).
  - intros w. etransitivity; [apply (schedule_pushes _ _ _ _ _ _ _ _ 0 _ (length (kept (o_skip_hidden o) entries)))|].
    + done.
    + lia.
    + intros c Hc. simpl. destruct (Hfinish c) as (es' & ? & -> & Hlen'). simpl settle.
      destruct (Z.eqb_spec c 0) as [->|Hne]; [|by rewrite own_pushes_streamed].
      etransitivity; [apply own_pushes_le|]. simpl. by rewrite length_map, Hlen'.
    + simpl. rewrite subdirs_kept. unfold subdirs.
      pose proof (List.filter_length_le (fun i => le_d_type i =? DT_DIR) (kept (o_skip_hidden o) entries)).
      lia.
Qed.

(** In the state [th] a path can be listed and has at most [n] entries, of known types, or
    cannot be opened. *)
Definition readable_within (n : nat) (th : thread (K := K)) (path : Path) : Prop :=
  (exists entries, listable fuel path (th_kernel th) entries /\ Forall typed entries /\
     (length entries <= n)%nat) \/
  (exists e, open_dir_fd path (th_kernel th) = (Err e, th_kernel th)).

Lemma linux_narrow n (th_of : ReadDirSpec.t C -> thread (K := K)) :
  0 <= o_max_retries o -> o_process_read_dir o = None ->
  (forall spec, readable_within n (th_of spec) (ReadDirSpec.path spec)) ->
  narrow (HR := linux_reader fuel) fs o th_of n.
Proof.
  intros Hr Hprocess Hread spec rd E.
  destruct (Z.lt_ge_cases (o_max_depth o) (saturating_add (ReadDirSpec.depth spec) 1)) as [Hd|Hd].
  { revert E. unfold serial_read, core_read_dir_callback. rewrite (proj2 (Z.ltb_lt _ _)) by done.
    intros [= <-]. simpl. lia. }
  apply (f_equal bare_read) in E.
  destruct (Hread spec) as [(entries & [cstr fd k1 k2 bs Hp Ho Hs Hf ->] & Ht & Hn)|[e He]].
  - set (anc := extend_ancestors fs o (ReadDirSpec.path spec) (ReadDirSpec.follow_link_ancestors spec)).
    destruct (finish_bare fs (o_follow_links o) (o_read_metadata o) (o_read_metadata_ext o)
      (o_skip_hidden o) (o_sort o) (ReadDirSpec.path spec) (ReadDirSpec.depth spec)
      (saturating_add (ReadDirSpec.depth spec) 1) anc (ReadDirSpec.client_read_state spec) fd
      (entries_of (concat bs)) (set_kernel (th_of spec) k2) Ht (entries_of_ok _)) as (rd' & th' & Ef & Eb). subst anc.
    erewrite (serial_outcome fs fuel th_of o) in E; [|done|exact Hd|right; exists rd', th'].
    2: { split; [|exact Eb]. simpl. rewrite Hprocess. unfold read_dir_linux_via_getdents.
         by rewrite (plain_enumeration _ _ _ _ _ _ _ _ _ _ Hp Ho Hs Hf), Ef. }
    injection E as _ E. apply (f_equal length) in E.
    unfold plain_results, listed in E. rewrite length_map in E.
    pose proof (List.filter_length_le (fun v => negb (o_skip_hidden o && is_hidden (snd v)))
      (map entry_view (entries_of (concat bs)))) as Hle. rewrite length_map in Hle.
    destruct (o_sort o); [rewrite sort_entries_perm in E|]; rewrite length_map in E; lia.
  - exfalso. erewrite (serial_outcome fs fuel th_of o) in E; [|done|exact Hd|left].
    2: { eexists. split; [done|]. intros ctx. simpl. unfold read_dir_linux_via_getdents,
           enumerate_dir_unix_streaming, enumerate_dir_unix. rewrite He, Hprocess.
         by destruct ctx, (o_sort o); destruct (th_of spec). }
    done.
Qed.
End Linux.

(** C5: on Linux, the iterator dropped at any moment of a parallel walk that is regular: the
    listing is sorted or processed as a whole and every directory is read to an end, or links
    are not followed and every directory cannot be opened or is listed to its end with
    entries of known types.  If no directory gives more than [fan_out] results, and there is
    room in the channel of directories for those of the tree and for [fan_out] more per
    thread, the pool makes a bounded number of further steps, whatever the interleaving, and
    as long as it can make none it has ended: no thread is left behind. *)
Theorem linux_dropped_walk_ends {C : ClientState} {K : Type} {HS : Sys K} {HF : FsSys K} {HR : Ring K}
    {HK : SaneKernel K} fs (o : WalkDirOptions C) fuel (th_of : ReadDirSpec.t C -> thread (K := K))
    fan_out num_threads capacity spec t s :
  0 <= o_max_retries o -> regular_walk fs o fuel th_of ->
  narrow (HR := linux_reader fuel) fs o th_of fan_out ->
  0 <= ReadDirSpec.depth spec -> reads (linux_parallel fuel fs o th_of) spec t ->
  (0 < num_threads)%nat -> (length (labels [0%Z] t) + num_threads * fan_out <= capacity)%nat ->
  reachable (linux_callback fuel fs o th_of) num_threads capacity (init [spec]) s -> stop s = false ->
  drop_ends (HR := linux_reader fuel) fs o th_of num_threads capacity s.
Proof.
  intros Hr Hw Hnar Hd Ht Hn Hroom Hs Hst.
  destruct (modes_modest (HR := linux_reader fuel) fs o th_of fan_out Hr Hnar) as (valid & Hv & Hset & Hmod).
  - destruct Hw as [[Hl Hf]|(Hsort & Hp & Hfo & Hre)]; [left; split; [by apply linux_oblivious|done]|].
    right. intros spec' d anc Hpos. split; [by apply linux_regular|].
    apply linux_tame; try done. lia.
  - eapply modest_drop_ends; eauto.
Qed.

(** The same where [std::fs] reads the directories, for all options. *)
Theorem legacy_dropped_walk_ends {C : ClientState} fs (o : WalkDirOptions C) listing
    fan_out num_threads capacity spec t s :
  fits (HR := legacy_reader listing) fs o (fun _ => tt) ->
  narrow (HR := legacy_reader listing) fs o (fun _ => tt) fan_out ->
  reads (legacy_parallel listing fs o (fun _ => tt)) spec t ->
  (0 < num_threads)%nat -> (length (labels [0%Z] t) + num_threads * fan_out <= capacity)%nat ->
  reachable (legacy_callback listing fs o (fun _ => tt)) num_threads capacity (init [spec]) s ->
  stop s = false ->
  drop_ends (HR := legacy_reader listing) fs o (fun _ => tt) num_threads capacity s.
Proof.
  intros Hf Hnar Ht Hn Hroom Hs Hst.
  eapply (modest_drop_ends (HR := legacy_reader listing) fs o (fun _ => tt) fan_out (fun _ => True)); eauto.
  - intros spec' _. apply oblivious_settled; [apply legacy_oblivious|done].
  - intros spec' _. apply oblivious_modest; [apply legacy_oblivious|done].
Qed.


(** ** Witness: the iterator dropped while the root is being read *)

Lemma lab_narrow : narrow (HR := linux_reader 4) sample_fs lab_options lab_th 2.
Proof.
  apply linux_narrow; [done|done|]. intros spec.
  destruct (CString_new (ReadDirSpec.path spec)) as [cstr|] eqn:E; [left|right; by apply lab_no_path].
  eexists. by apply (lab_dir_listable spec cstr).
Qed.

(** The pool while the root is being read, and what is left of it afterwards. *)
Definition lab_reading : state unit_client :=
  play lab_callback 2 8 (repeat TryNext 5 ++ repeat (Work 0) 3) (init [lab_root]).
Definition lab_left : list action :=
  sample_schedule lab_callback 2 8 100 (play lab_callback 2 8 [SetStop; CloseResults] lab_reading).

Lemma linux_dropped_walk_ends_witness :
  length (workers lab_reading) = 1%nat /\
  drop_ends (HR := linux_reader 4) sample_fs lab_options lab_th 2 8 lab_reading.
Proof.
  split; [vm_refl|].
  apply (linux_dropped_walk_ends sample_fs lab_options 4 lab_th 2 2 8 lab_root (lab_tree lab_parallel)).
  - by vm_compute.
  - right. split_and!; try done. exact lab_readable.
  - exact lab_narrow.
  - done.
  - apply lab_reads_with; vm_refl.
  - lia.
  - vm_compute. lia.
  - apply play_reachable.
  - vm_refl.
Defined.

(** Computed: the pool then makes a few steps and is over. *)
Example lab_left_run :
  let s := play lab_callback 2 8 lab_left (play lab_callback 2 8 [SetStop; CloseResults] lab_reading) in
  iter s = IEnded /\ workers s = [] /\ (length lab_left <= 20)%nat.
Proof. split_and!; [vm_refl..|vm_compute; lia]. Qed.
