(* ===== verification/WindowsDrop.v ===== *)
(** * Dropping the iterator of a walk on Windows

    [WalkDrop] for [read_dir_windows]: its streaming closure schedules at most the results
    of the directory, so the pool ends once the iterator is gone. *)
From S2P Require Import Prelude Order Tree World Std Error Platform DirEntry Callback.
From S2P Require Import OrderedQueue ReadDirIter DirEntryIter ParWalk ParComplete ParStop Abandon.
From S2P Require Import NtEnum Windows WindowsReadDir WalkDir WalkTypes WalkModes WindowsWalk WalkDrop.

Section WindowsDrop.
Context {W : WindowsStd} {C : ClientState} {K : Type} {HN : NtSys K}.
Context (fs : FileSystem) (o : WalkDirOptions C) (fuel : nat).

Lemma win_schedule_pushes {R} skip (g : R -> nat) ctx path d st anc infos c (finish : Z -> run_of C R) n :
  0 <= c -> c + Z.of_nat (length infos) <= usize_max ->
  (forall c', 0 <= c' -> (max_pushes g (finish c') <= if (c' =? 0)%Z then n else 0)%nat) ->
  (max_pushes g (schedule_subdirs skip ctx path d st anc infos c finish) <=
    (if (c =? 0)%Z then n else 0) `max` length (subdirs (kept skip infos)))%nat.
Proof.
  intros Hc Hb Hf. revert c Hc Hb. induction infos as [|info infos IH]; intros c Hc Hb.
  { pose proof (Hf c Hc). simpl. lia. }
  rewrite length_cons in Hb. unfold kept in *. cbn [List.filter schedule_subdirs max_pushes].
  pose proof (IH c Hc ltac:(lia)) as Hskip.
  destruct (skip && Win.is_hidden_win32 (file_name info) (file_attributes info)); cbn [negb]; [lia|].
  unfold subdirs in *. cbn [List.filter].
  change (Win.has_attr (file_attributes info) FILE_ATTRIBUTE_DIRECTORY) with (is_dir_attr info).
  destruct (is_dir_attr info); cbn [negb length max_pushes]; [|lia].
  rewrite usize_add_small by lia.
  pose proof (IH (c + 1) ltac:(lia) ltac:(lia)) as Hnext.
  rewrite (proj2 (Z.eqb_neq (c + 1) 0)) in Hnext by lia. lia.
Qed.

Lemma windows_tame th path rdd d anc st :
  o_follow_links o = false -> o_sort o = false -> o_process_read_dir o = None ->
  readable fuel th path -> tls_ok (th_tls th) -> d <> 0 ->
  tame (read_dir (DirReader := windows_reader fuel) fs (read_options o) path rdd d anc st) th.
Proof.
  intros Hfollow Hsort Hprocess Hread Htls Hd.
  destruct Hread as [(entries & [handle k1 k2 bs Ho Hs Hf Heq] & Hb & _)|[e He]].
  2: { left. eexists. intros ctx. by apply windows_fails. }
  right. cbn [read_dir windows_reader read_options r_follow_links r_read_metadata r_read_metadata_ext
    r_read_hardlink_info r_skip_hidden r_sort r_process_read_dir]. rewrite Hfollow, Hsort, Hprocess.
  destruct (nt_streaming (fun info infos => infos ++ [info]) path (th_tls th) [] (th_kernel th)
    _ _ _ _ _ fuel Ho Hs Hf Htls) as (tls1 & _ & E1).
  destruct (nt_plain path (th_tls th) (th_kernel th) _ _ _ _ _ fuel Ho Hs Hf Htls) as (tls2 & _ & E2).
  rewrite fold_push_info in E1. simpl app in E1. rewrite <- Heq in E1, E2.
  destruct (finish_ok (C := C) fs (o_read_metadata o) (o_read_metadata_ext o) (o_read_hardlink_info o)
    (o_skip_hidden o) path rdd d anc st handle entries k2) as (es & k' & Hfin);
    [rewrite Heq; by eapply stream_infos_ok|done|].
  assert (length es = length (kept (o_skip_hidden o) entries)) as Hlen.
  { destruct (Hfin tls1 0) as (_ & Hn & _). apply (f_equal length) in Hn. by rewrite !length_map in Hn. }
  unfold read_dir_windows. destruct (Hfin tls2 0) as (F2 & _). eexists _, (mk_thread k' tls2).
  rewrite E2. split; [by rewrite F2|]. intros ctx. rewrite E1. simpl ReadDir.results_list.
  rewrite length_map, Hlen.
  pose proof (List.filter_length_le is_directory entries) as Hle. split.
  - apply win_schedule_returns. intros n. cbn [all_returns]. by destruct (Hfin tls1 n) as (-> & _).
  - intros w. etransitivity; [apply (win_schedule_pushes _ _ _ _ _ _ _ _ 0 _
      (length (kept (o_skip_hidden o) entries)))|].
    + done.
    + lia.
    + intros c Hc. cbn [max_pushes]. destruct (Hfin tls1 c) as (-> & _). simpl settle.
      destruct (Z.eqb_spec c 0) as [->|Hne]; [|by rewrite own_pushes_streamed].
      etransitivity; [apply own_pushes_le|]. simpl. by rewrite length_map, Hlen.
    + simpl. rewrite subdirs_listed. unfold subdirs.
      pose proof (List.filter_length_le is_dir_attr (kept (o_skip_hidden o) entries)). lia.
Qed.

(** The iterator dropped at any moment of a parallel walk on Windows: with room for the
    directories of the tree and the results of one more per thread, the pool ends. *)
Theorem windows_dropped_walk_ends (th_of : ReadDirSpec.t C -> thread (K := K))
    fan_out num_threads capacity spec t s :
  0 <= o_max_retries o -> regular_walk fs o fuel th_of ->
  narrow (HR := windows_reader fuel) fs o th_of fan_out ->
  0 <= ReadDirSpec.depth spec -> reads (windows_parallel fuel fs o th_of) spec t ->
  (0 < num_threads)%nat -> (length (labels [0%Z] t) + num_threads * fan_out <= capacity)%nat ->
  reachable (windows_callback fuel fs o th_of) num_threads capacity (init [spec]) s -> stop s = false ->
  drop_ends (HR := windows_reader fuel) fs o th_of num_threads capacity s.
Proof.
  intros Hr Hw Hnar Hd Ht Hn Hroom Hs Hst.
  destruct (modes_modest (HR := windows_reader fuel) fs o th_of fan_out Hr Hnar)
    as (valid & Hv & Hset & Hmod).
  - destruct Hw as [[Hl Hf]|(Hsort & Hp & Hfo & Hre)]; [left; split; [by apply windows_oblivious|done]|].
    right. intros spec' d anc Hpos. destruct (Hre spec'). split; [by apply windows_regular|].
    apply windows_tame; try done. lia.
  - eapply modest_drop_ends; eauto.
Qed.
End WindowsDrop.
