(* ===== verification/Class77.v ===== *)
(** * A client of the system: [examples/class77_poc.rs]

    The tool looks for the layout of a class of directory information that is not
    documented.  It lists the directory with the known class 37, asks for the buffer of
    class 77, follows the chain of its records, looks for the names of the first
    listing in it, and deduces where the name starts in a record, and where the number of
    links is.  A Rust [String] is the list of its characters, an [OsString] its UTF-16
    code units; printing is left out. *)
From S2P Require Import Prelude Std Bytes Error NtEnum.

(** ** UTF-16 *)

Definition is_high (u : Z) : bool := (0xD800 <=? u) && (u <=? 0xDBFF).
Definition is_low (u : Z) : bool := (0xDC00 <=? u) && (u <=? 0xDFFF).

(** [OsString::from_wide(..).to_string_lossy()] *)
Fixpoint to_string_lossy (wide : list Z) : list Z :=
  match wide with
  | [] => []
  | u :: wide' =>
      if is_high u then
        match wide' with
        | u' :: wide'' =>
            if is_low u'
            then 0x10000 + (u - 0xD800) * 0x400 + (u' - 0xDC00) :: to_string_lossy wide''
            else 0xFFFD :: to_string_lossy wide'
        | [] => [0xFFFD]
        end
      else if is_low u then 0xFFFD :: to_string_lossy wide'
      else u :: to_string_lossy wide'
  end.

(** [str::encode_utf16] *)
Definition encode_char (c : Z) : list Z :=
  if c <? 0x10000 then [c]
  else [0xD800 + (c - 0x10000) / 0x400; 0xDC00 + (c - 0x10000) mod 0x400].
Definition encode_utf16 (s : list Z) : list Z := flat_map encode_char s.

(** No half of a surrogate pair stands alone. *)
Fixpoint well_formed (wide : list Z) : bool :=
  match wide with
  | [] => true
  | u :: wide' =>
      if is_high u then
        match wide' with u' :: wide'' => is_low u' && well_formed wide'' | [] => false end
      else negb (is_low u) && well_formed wide'
  end.

(** ** The class 37 buffer *)

(** The fields of the structure have the offsets of [FILE_ID_BOTH_DIR_INFO] of
    [nt_dir_enum.rs].  Name, [NextEntryOffset] and start of each record. *)
Fixpoint parse_class37_loop (fuel : nat) (buffer : list Z) (offset : Z) :
    exec (list (list Z * Z * Z)) :=
  match fuel with
  | O => NoFuel
  | S fuel' =>
      if offset + INFO_SIZE <=? Z.of_nat (length buffer) then
        let entry := read_info (take (Z.to_nat INFO_SIZE) (bytes_at buffer offset)) in
        let name_len := FileNameLength entry in
        let name_chars := name_len / 2 in
        if Z.of_nat (length buffer) <? offset + NAME_OFFSET + name_len then Ret []
        else
          let! name_slice := wide_slice buffer (offset + NAME_OFFSET) name_chars in
          let name := to_string_lossy name_slice in
          let out :=
            if negb (bool_decide (name = [DOT])) && negb (bool_decide (name = [DOT; DOT]))
            then [(name, NextEntryOffset entry, as_u32 offset)] else [] in
          if NextEntryOffset entry =? 0 then Ret out
          else
            let! rest := parse_class37_loop fuel' buffer (offset + NextEntryOffset entry) in
            Ret (out ++ rest)
      else Ret []
  end.

Definition parse_class37 (buffer : list Z) : exec (list (list Z * Z * Z)) :=
  parse_class37_loop (S (length buffer)) buffer 0.

(** ** Searching *)

(** Where [needle] occurs in [buffer], in order. *)
Definition occurrences (needle buffer : list Z) : list Z :=
  if (length buffer <? length needle)%nat then []
  else map Z.of_nat
    (List.filter (fun i => bool_decide (take (length needle) (drop i buffer) = needle))
      (seq 0 (length buffer - length needle + 1))).

Definition find_utf16_occurrences (buffer : list Z) (needle : list Z) : list Z :=
  match encode_utf16 needle with
  | [] => []
  | encoded => occurrences (flat_map (to_le_bytes 2) encoded) buffer
  end.

(** The loop of [walk_next_offset_chain]; [iterations] is what is left of [max_iter]. *)
Fixpoint chain_loop (iterations : nat) (buffer : list Z) (cur : Z) (offsets : list Z) : list Z :=
  match iterations with
  | O => offsets
  | S iterations' =>
      if Z.of_nat (length buffer) <? cur + 4 then offsets
      else
        let next := uint_at 4 buffer cur in
        if next =? 0 then offsets
        else
          let cur := cur + next in
          if Z.of_nat (length buffer) <=? cur then offsets
          else chain_loop iterations' buffer cur (offsets ++ [cur])
  end.

Definition walk_next_offset_chain (buffer : list Z) : list Z := chain_loop 1024 buffer 0 [0].

(** ** The analysis of [main] *)

(** Step 4: name, position, start of the record and size of its header. *)
Definition anchor (buf77 : list Z) (chain : list Z) (e : list Z * Z * Z) :
    option (list Z * Z * Z * Z) :=
  let '(name, _, _) := e in
  match find_utf16_occurrences buf77 name with
  | [] => None
  | pos :: _ =>
      let entry_start := default 0 (last (List.filter (fun c => c <=? pos) chain)) in
      Some (name, pos, entry_start, pos - entry_start)
  end.

(** [*size_count.entry(hs).or_insert(0) += 1] *)
Fixpoint count_size (hs : Z) (size_count : list (Z * Z)) : list (Z * Z) :=
  match size_count with
  | [] => [(hs, 1)]
  | (s, c) :: l => if s =? hs then (s, usize_add c 1) :: l else (s, c) :: count_size hs l
  end.

(** [max_by_key]: the last of the elements with the greatest count. *)
Fixpoint max_by_count (l : list (Z * Z)) : option (Z * Z) :=
  match l with
  | [] => None
  | x :: l' =>
      match max_by_count l' with
      | Some y => if snd y <? snd x then Some x else Some y
      | None => Some x
      end
  end.

(** Step 5; a [HashMap] is iterated in an order of its own, [order]. *)
Definition common_header (order : list (Z * Z) -> list (Z * Z))
    (anchors : list (list Z * Z * Z * Z)) : Z :=
  let size_count := fold_left (fun m '(_, _, _, hs) => count_size hs m) anchors [] in
  match max_by_count (order size_count) with Some (s, _) => s | None => 0 end.

(** [&buffer[start..end]] *)
Definition slice (buffer : list Z) (start stop : Z) : exec (list Z) :=
  if (start <=? stop) && (stop <=? Z.of_nat (length buffer))
  then Ret (take (Z.to_nat (stop - start)) (bytes_at buffer start)) else Panic.

(** The search for the number of links: where [LastWriteTime] is in the header, and the
    four bytes 40 bytes further. *)
Definition find_link_count (buf37 buf77 : list Z) (class37_entries : list (list Z * Z * Z))
    (common : Z) (first : list Z * Z * Z * Z) : exec (option (Z * option Z)) :=
  let '(baseline_name, _, entry_start, _) := first in
  match List.find (fun '(n, _, _) => bool_decide (n = baseline_name)) class37_entries with
  | None => Ret None
  | Some (_, _, c37_off) =>
      let! copy := slice buf37 c37_off (c37_off + INFO_SIZE) in
      let ts_bytes := to_le_bytes 8 (LastWriteTime (read_info copy)) in
      let! header_slice := slice buf77 entry_start (entry_start + common) in
      match occurrences ts_bytes header_slice with
      | [] => Ret None
      | idx_in_header :: _ =>
          let nlinks_off := idx_in_header + 40 in
          Ret (Some (idx_in_header,
                 if entry_start + nlinks_off + 4 <=? Z.of_nat (length buf77)
                 then Some (uint_at 4 buf77 (entry_start + nlinks_off)) else None))
      end
  end.

(** What [main] reports of the two buffers: the anchors, the size of the header, and the
    place and value of the number of links. *)
Definition analyse (order : list (Z * Z) -> list (Z * Z)) (buf37 buf77 : list Z) :
    exec (list (list Z * Z * Z * Z) * option (Z * option (Z * option Z))) :=
  let! class37_entries := parse_class37 buf37 in
  let chain := walk_next_offset_chain buf77 in
  let anchors := omap (anchor buf77 chain) class37_entries in
  match anchors with
  | [] => Ret (anchors, None)
  | first :: _ =>
      let common := common_header order anchors in
      let! links := find_link_count buf37 buf77 class37_entries common first in
      Ret (anchors, Some (common, links))
  end.

(** ** The calls *)

Definition FILE_ID_BOTH_DIR_INFO_CLASS : Z := 37.
Definition FILE_STAT_BASIC_INFORMATION_CLASS : Z := 77.

Section Calls.
Context {K : Type} (error_kind : Z -> ErrorKind).
(** [NtQueryDirectoryFileEx handle length class single name restart]: the status,
    [Information] and the bytes written; [NtQueryInformationByName handle name size]:
    the status and the bytes written; [NtQueryDirectoryFile handle class name], whose
    result is only printed. *)
Context (query : Z -> Z -> Z -> Z -> option (list Z) -> Z -> K -> Z * Z * list Z * K)
  (query_by_name : option (Z -> list Z -> Z -> K -> Z * list Z * K))
  (query_no_ex : option (Z -> Z -> list Z -> K -> K)).

Definition query_dir_once_full (handle info_class return_single : Z) (file_name : option (list Z))
    (restart : Z) (k : K) : result (list Z * Z) io_Error * K :=
  let buffer := repeat 0 (Z.to_nat (64 * 1024)) in
  let '(status, information, written, k) :=
    query handle (Z.of_nat (length buffer)) info_class return_single file_name restart k in
  let buffer := written ++ drop (length written) buffer in
  if (status <? 0) && negb (status =? STATUS_NO_MORE_FILES)
  then (Err (Os status (error_kind status)), k)
  else (Ok (take (Z.to_nat information) buffer, information), k).

Definition query_dir_once (handle info_class restart : Z) (k : K) :
    result (list Z * Z) io_Error * K :=
  query_dir_once_full handle info_class 0 None restart k.

(** The sizes 64, 68, ..., 128. *)
Definition probe_sizes : list Z := map (fun i => 64 + 4 * i) (seqZ 0 17).

(** The first size the system accepts. *)
Fixpoint probe (by_name : Z -> K -> Z * list Z * K) (sizes : list Z) (k : K) : option Z * K :=
  match sizes with
  | [] => (None, k)
  | probe_size :: sizes' =>
      let '(status_probe, _, k) := by_name probe_size k in
      if status_probe =? 0 then (Some probe_size, k) else probe by_name sizes' k
  end.

Definition test_single_file_class77 (dir_handle : Z) (entries : list (list Z * Z * Z)) (k : K) :
    option Z * K :=
  match query_by_name, head entries with
  | Some by_name, Some (name, _, _) =>
      match encode_utf16 name with
      | [] => (None, k)
      | wide =>
          let byte_len := (2 * Z.of_nat (length wide)) mod 2 ^ 16 in
          let by_name := by_name dir_handle (take (Z.to_nat (byte_len / 2)) wide) in
          match probe by_name probe_sizes k with
          | (None, k) => (None, k)
          | (Some valid_size, k) =>
              let '(status, written, k) := by_name valid_size k in
              let stat_buf := written ++ drop (length written) (repeat 0 (Z.to_nat valid_size)) in
              if negb (status =? 0) then (None, k)
              else if 68 <=? valid_size then (Some (uint_at 4 stat_buf 64), k)
              else (None, k)
          end
      end
  | _, _ => (None, k)
  end.

(** The three ways to ask for class 77: the first buffer obtained is kept. *)
Definition attempts : list (Z * option (list Z) * Z) :=
  [(0, None, 1); (0, Some (encode_utf16 (bytes "*") ++ [0]), 1); (1, None, 1)].

Fixpoint try_attempts (handle : Z) (l : list (Z * option (list Z) * Z)) (buf77 : option (list Z)) (k : K) :
    option (list Z) * K :=
  match l with
  | [] => (buf77, k)
  | (ret_single, fname, restart) :: l' =>
      let '(r, k) :=
        query_dir_once_full handle FILE_STAT_BASIC_INFORMATION_CLASS ret_single fname restart k in
      let buf77 :=
        match r, buf77 with
        | Ok (b, _), None => Some b
        | _, _ => buf77
        end in
      try_attempts handle l' buf77 k
  end.

(** [main]: the exit status, and what is reported when there is a buffer to analyse. *)
Definition main (order : list (Z * Z) -> list (Z * Z)) (open_dir : K -> result Z io_Error * K)
    (close : Z -> K -> K) (k : K) :
    exec (Z * option (list (list Z * Z * Z * Z) * option (Z * option (Z * option Z))) * K) :=
  match open_dir k with
  | (Err _, k) => Ret (1, None, k)
  | (Ok guard, k) =>
      match query_dir_once guard FILE_ID_BOTH_DIR_INFO_CLASS 1 k with
      | (Err _, k) => Ret (1, None, k)
      | (Ok (buf37, _), k) =>
          let! class37_entries := parse_class37 buf37 in
          match open_dir (close guard k) with
          | (Err _, k) => Ret (1, None, k)
          | (Ok guard2, k) =>
              let '(buf77, k) := try_attempts guard2 attempts None k in
              let k :=
                match query_no_ex with
                | Some query_dir_no_ex =>
                    query_dir_no_ex guard2 FILE_STAT_BASIC_INFORMATION_CLASS (encode_utf16 (bytes "*")) k
                | None => k
                end in
              let '(_, k) := test_single_file_class77 guard2 class37_entries k in
              match buf77 with
              | None => Ret (0, None, close guard2 k)
              | Some buf77 =>
                  let! report := analyse order buf37 buf77 in
                  Ret (0, Some report, close guard2 k)
              end
          end
      end
  end.
End Calls.

(** ** UTF-16 round trips *)

Lemma lossy_encode wide :
  Forall code_unit wide -> well_formed wide = true -> encode_utf16 (to_string_lossy wide) = wide.
Proof.
  remember (length wide) as n eqn:Hn. revert wide Hn. induction n as [n IH] using lt_wf_ind.
  intros [|u wide] -> Hu Hw; [done|]. apply Forall_cons in Hu as [Hu Hus].
  cbn [to_string_lossy well_formed] in *. unfold code_unit in Hu.
  destruct (is_high u) eqn:Eh.
  - destruct wide as [|u' wide]; [done|]. apply andb_prop in Hw as [El Hw]. rewrite El.
    apply Forall_cons in Hus as [_ Hus]. unfold is_high, is_low in *.
    apply andb_prop in Eh as [Eh1%Z.leb_le Eh2%Z.leb_le], El as [El1%Z.leb_le El2%Z.leb_le].
    unfold encode_utf16. cbn [flat_map]. fold (encode_utf16 (to_string_lossy wide)).
    rewrite (IH (length wide)) by (simpl; done || lia). unfold encode_char.
    rewrite (proj2 (Z.ltb_ge _ _)) by lia. simpl app.
    set (a := u - 0xD800). set (b := u' - 0xDC00).
    replace (0x10000 + a * 0x400 + b - 0x10000) with (b + a * 0x400) by lia.
    rewrite Z.div_add, Z.mod_add, Z.div_small, Z.mod_small by (unfold b; lia).
    replace (0xD800 + (0 + a)) with u by (unfold a; lia).
    by replace (0xDC00 + b) with u' by (unfold b; lia).
  - apply andb_prop in Hw as [El Hw]. apply negb_true_iff in El. rewrite El.
    unfold encode_utf16. cbn [flat_map]. fold (encode_utf16 (to_string_lossy wide)).
    rewrite (IH (length wide)) by (simpl; done || lia). unfold encode_char.
    change (2 ^ 16) with 0x10000 in Hu. by rewrite (proj2 (Z.ltb_lt _ _)) by lia.
Qed.

Lemma lossy_cons u wide :
  exists c rest, to_string_lossy (u :: wide) = c :: rest /\
    (c < 0xD800 -> c = u /\ rest = to_string_lossy wide).
Proof.
  cbn [to_string_lossy]. destruct (is_high u) eqn:Eh.
  - destruct wide as [|u' wide]; [by do 2 eexists|]. destruct (is_low u') eqn:El.
    + do 2 eexists. split; [done|]. unfold is_high, is_low in *. lia.
    + do 2 eexists. split; [done|lia].
  - destruct (is_low u); do 2 eexists; (split; [done|]); [lia|done].
Qed.

(** The names left out are "." and "..". *)
Lemma lossy_small l wide :
  Forall (fun c => c < 0xD800) l -> to_string_lossy wide = l -> wide = l.
Proof.
  intros Hl. revert wide. induction Hl as [|c l Hc _ IH]; intros [|u wide] E; [done| | |].
  - destruct (lossy_cons u wide) as (c & rest & E' & _). congruence.
  - done.
  - destruct (lossy_cons u wide) as (c' & rest & E' & H). rewrite E' in E. injection E as -> ->.
    destruct (H Hc) as [-> Hr]. f_equal. by apply IH.
Qed.

Lemma lossy_dot wide :
  negb (bool_decide (to_string_lossy wide = [DOT])) && negb (bool_decide (to_string_lossy wide = [DOT; DOT])) =
  negb (dot_name wide).
Proof.
  unfold dot_name. rewrite negb_orb.
  assert (forall l, Forall (fun c => c < 0xD800) l -> to_string_lossy l = l ->
    bool_decide (to_string_lossy wide = l) = bool_decide (wide = l)) as H.
  { intros l Hl El. apply bool_decide_ext. split; [by apply lossy_small|by intros ->]. }
  rewrite !H; try done; by repeat constructor.
Qed.

(** ** The class 37 listing *)

(** What is kept of a record that starts at [n]. *)
Definition keep (next n : Z) (r : nt_record) : list (list Z * Z * Z) :=
  if dot_name (nt_name r) then [] else [(to_string_lossy (nt_name r), next, as_u32 n)].

(** The entries found in a chain of records that starts at [n], [room] bytes following
    the last record: the last one is found only if there is room for the whole
    structure, which is longer than a record whose name has less than four characters. *)
Fixpoint class37_of (room n : Z) (rs : list nt_record) : list (list Z * Z * Z) :=
  match rs with
  | [] => []
  | [r] => if INFO_SIZE <=? nt_size r + room then keep 0 n r else []
  | r :: rs' => keep (nt_next r) n r ++ class37_of room (n + nt_next r) rs'
  end.

Lemma nt_next_room r : nt_record_ok r -> INFO_SIZE <= nt_next r.
Proof.
  intros Hr. destruct (nt_next_bounds r) as [H [k Hk]], (ok_name _ Hr) as [Hn _].
  assert (nt_size r >= 106) by (unfold nt_size, NAME_OFFSET; destruct (nt_name r); [done|simpl; lia]).
  unfold INFO_SIZE. lia.
Qed.

Lemma class37_turn fuel pre next r tail :
  nt_record_ok r -> 0 <= next < 2 ^ 32 -> INFO_SIZE <= nt_size r + Z.of_nat (length tail) ->
  let buffer := pre ++ record_bytes next r ++ tail in
  parse_class37_loop (S fuel) buffer (Z.of_nat (length pre)) =
    if next =? 0 then Ret (keep next (Z.of_nat (length pre)) r)
    else let! rest := parse_class37_loop fuel buffer (Z.of_nat (length pre) + next) in
         Ret (keep next (Z.of_nat (length pre)) r ++ rest).
Proof.
  intros Hr Hnext Hroom buffer.
  pose proof (length_record_bytes next r (ok_short _ Hr)) as Hl.
  assert (Z.of_nat (length buffer) = Z.of_nat (length pre) + nt_size r + Z.of_nat (length tail)) as Hlen
    by (unfold buffer; rewrite !length_app; lia).
  cbn [parse_class37_loop]. rewrite (proj2 (Z.leb_le _ _)) by lia.
  assert (bytes_at buffer (Z.of_nat (length pre)) = record_bytes next r ++ tail) as ->.
  { unfold buffer. rewrite <- (Z.add_0_r (Z.of_nat (length pre))), bytes_at_app by done. done. }
  rewrite copy_name_length, copy_next by done.
  replace (2 * Z.of_nat (length (nt_name r)) / 2) with (Z.of_nat (length (nt_name r)))
    by (rewrite Z.mul_comm, Z.div_mul; lia).
  rewrite (proj2 (Z.ltb_ge _ _)) by (unfold nt_size, NAME_OFFSET in *; lia).
  unfold buffer at 1. rewrite wide_slice_name by done. cbn [exec_bind].
  rewrite lossy_dot. unfold keep. by destruct (dot_name (nt_name r)).
Qed.

Lemma parse_class37_records fuel pre rs rest :
  rs <> [] -> Forall nt_record_ok rs -> (length rs <= fuel)%nat ->
  parse_class37_loop fuel (pre ++ records_bytes rs ++ rest) (Z.of_nat (length pre)) =
    Ret (class37_of (Z.of_nat (length rest)) (Z.of_nat (length pre)) rs).
Proof.
  intros Hne Hok. revert fuel pre Hne. induction Hok as [|r rs Hr Hrs IH];
    intros fuel pre Hne Hf; [done|]. destruct fuel as [|fuel]; [simpl in Hf; lia|].
  destruct rs as [|r' rs].
  { cbn [records_bytes class37_of]. destruct (Z.leb_spec INFO_SIZE (nt_size r + Z.of_nat (length rest))).
    - by rewrite class37_turn.
    - cbn [parse_class37_loop]. rewrite !length_app.
      pose proof (length_record_bytes 0 r (ok_short _ Hr)).
      by rewrite (proj2 (Z.leb_gt _ _)) by lia. }
  set (pad := repeat 0 (Z.to_nat (nt_next r - nt_size r))).
  change (records_bytes (r :: r' :: rs)) with
    (record_bytes (nt_next r) r ++ pad ++ records_bytes (r' :: rs)) in *.
  pose proof (nt_next_bounds r) as [Hn Hn8]. pose proof (ok_next _ Hr).
  assert (Z.of_nat (length (pre ++ record_bytes (nt_next r) r ++ pad)) =
    Z.of_nat (length pre) + nt_next r) as Hl.
  { pose proof (length_record_bytes (nt_next r) r (ok_short _ Hr)).
    unfold pad. rewrite !length_app, repeat_length. lia. }
  rewrite <- !app_assoc in *. rewrite class37_turn; [|done|unfold nt_size, NAME_OFFSET in *; lia|].
  2: { pose proof (length_records_bytes (r' :: rs) Hrs) as Hlen. cbn [length] in Hlen.
       pose proof (nt_next_room r Hr).
       unfold pad. rewrite !length_app, repeat_length. lia. }
  rewrite (proj2 (Z.eqb_neq _ _)) by (unfold nt_size, NAME_OFFSET in *; lia).
  replace (pre ++ record_bytes (nt_next r) r ++ pad ++ records_bytes (r' :: rs) ++ rest)
    with ((pre ++ record_bytes (nt_next r) r ++ pad) ++ records_bytes (r' :: rs) ++ rest)
    by (by rewrite <- !app_assoc).
  rewrite <- Hl, IH by (done || (simpl in *; lia)). by rewrite Hl.
Qed.

Lemma parse_class37_spec rs rest :
  rs <> [] -> Forall nt_record_ok rs ->
  parse_class37 (records_bytes rs ++ rest) = Ret (class37_of (Z.of_nat (length rest)) 0 rs).
Proof.
  intros Hne Hok. unfold parse_class37.
  rewrite (parse_class37_records _ [] rs rest Hne Hok); [done|].
  pose proof (length_records_bytes rs Hok). rewrite length_app. lia.
Qed.

(** A listing that ends with the file "ab" misses it: the tool cuts the buffer where the
    name ends. *)
Example short_last_name_missed r :
  nt_record_ok r -> nt_name r = bytes "ab" -> parse_class37 (records_bytes [r]) = Ret [].
Proof.
  intros Hr Hn. rewrite <- (app_nil_r (records_bytes [r])), parse_class37_spec by (done || by constructor).
  simpl. unfold nt_size. by rewrite Hn.
Qed.

(** The entry found for a record points to it. *)
Definition points (buffer : list Z) (off : Z) (name : list Z) (r : nt_record) : Prop :=
  dot_name (nt_name r) = false /\ name = to_string_lossy (nt_name r) /\
  exists copy, slice buffer off (off + INFO_SIZE) = Ret copy /\
    LastWriteTime (read_info copy) = nt_write r.

Lemma keep_points pre next r tail name next' off :
  nt_record_ok r -> 0 <= next < 2 ^ 32 ->
  Z.of_nat (length (pre ++ record_bytes next r ++ tail)) < 2 ^ 32 ->
  INFO_SIZE <= nt_size r + Z.of_nat (length tail) ->
  (name, next', off) ∈ keep next (Z.of_nat (length pre)) r ->
  points (pre ++ record_bytes next r ++ tail) off name r.
Proof.
  intros Hr Hnext Hlen Hroom Hk. unfold keep in Hk.
  destruct (dot_name (nt_name r)) eqn:Ed; [by apply elem_of_nil in Hk|].
  apply list_elem_of_singleton in Hk. simplify_eq.
  pose proof (length_record_bytes next r (ok_short _ Hr)) as Hl.
  assert (as_u32 (Z.of_nat (length pre)) = Z.of_nat (length pre)) as ->
    by (unfold as_u32; rewrite Z.mod_small; rewrite ?length_app in Hlen; lia).
  split_and!; [done|done|]. eexists. split.
  - unfold slice. rewrite !length_app. unfold INFO_SIZE in *.
    rewrite (proj2 (Z.leb_le _ _)), (proj2 (Z.leb_le _ _)) by lia. simpl andb. cbv iota.
    rewrite <- (Z.add_0_r (Z.of_nat (length pre))) at 3.
    rewrite bytes_at_app by done. unfold bytes_at. rewrite drop_0.
    replace (Z.to_nat (Z.of_nat (length pre) + 112 - Z.of_nat (length pre))) with (Z.to_nat 112) by lia.
    done.
  - change (Z.to_nat 112) with (Z.to_nat INFO_SIZE). cbn [read_info LastWriteTime]. unfold int_at.
    rewrite (copy_field next r tail 4 8 (nt_write r) 24) by done. apply to_signed_mod, Hr.
Qed.

Lemma class37_points pre rs rest name next off :
  Forall nt_record_ok rs -> Z.of_nat (length (pre ++ records_bytes rs ++ rest)) < 2 ^ 32 ->
  (name, next, off) ∈ class37_of (Z.of_nat (length rest)) (Z.of_nat (length pre)) rs ->
  exists r, r ∈ rs /\ points (pre ++ records_bytes rs ++ rest) off name r.
Proof.
  intros Hok. revert pre. induction Hok as [|r rs Hr Hrs IH]; intros pre Hlen Hin; [by apply elem_of_nil in Hin|].
  destruct rs as [|r' rs].
  { cbn [class37_of] in Hin.
    destruct (Z.leb_spec INFO_SIZE (nt_size r + Z.of_nat (length rest))); [|by apply elem_of_nil in Hin].
    exists r. split; [left|]. by eapply keep_points. }
  set (pad := repeat 0 (Z.to_nat (nt_next r - nt_size r))).
  change (class37_of _ _ (r :: r' :: rs)) with
    (keep (nt_next r) (Z.of_nat (length pre)) r ++
     class37_of (Z.of_nat (length rest)) (Z.of_nat (length pre) + nt_next r) (r' :: rs)) in Hin.
  pose proof (nt_next_bounds r) as [Hn _]. pose proof (ok_next _ Hr). pose proof (nt_next_room r Hr).
  assert (pre ++ records_bytes (r :: r' :: rs) ++ rest =
    pre ++ record_bytes (nt_next r) r ++ pad ++ records_bytes (r' :: rs) ++ rest) as E.
  { change (records_bytes (r :: r' :: rs)) with
      (record_bytes (nt_next r) r ++ pad ++ records_bytes (r' :: rs)). by rewrite <- !app_assoc. }
  apply elem_of_app in Hin as [Hin|Hin].
  - exists r. split; [left|]. rewrite E in Hlen |- *.
    eapply keep_points; try done; [unfold INFO_SIZE in *; lia|].
    unfold pad. rewrite !length_app, repeat_length. lia.
  - set (pre' := pre ++ record_bytes (nt_next r) r ++ pad).
    assert (Z.of_nat (length pre') = Z.of_nat (length pre) + nt_next r) as Hl.
    { pose proof (length_record_bytes (nt_next r) r (ok_short _ Hr)).
      unfold pre', pad. rewrite !length_app, repeat_length. lia. }
    assert (pre ++ records_bytes (r :: r' :: rs) ++ rest = pre' ++ records_bytes (r' :: rs) ++ rest) as E'
      by (rewrite E; unfold pre'; by rewrite <- !app_assoc).
    rewrite E' in Hlen |- *. rewrite <- Hl in Hin.
    destruct (IH pre' Hlen Hin) as (r0 & Hr0 & Hp). exists r0. split; [by right|done].
Qed.

(** ** Searching *)

Definition first_at (needle buffer : list Z) (pos : Z) : Prop :=
  0 <= pos /\ take (length needle) (bytes_at buffer pos) = needle /\
  forall j, 0 <= j < pos -> take (length needle) (bytes_at buffer j) <> needle.

Lemma filter_seq_first (f : nat -> bool) n i k :
  (i < k)%nat -> f (n + i)%nat = true -> (forall j, (j < i)%nat -> f (n + j)%nat = false) ->
  exists l, List.filter f (seq n k) = (n + i)%nat :: l.
Proof.
  revert n k. induction i as [|i IH]; intros n [|k] Hk Hi Hj; [lia| |lia|].
  - rewrite Nat.add_0_r in *. simpl. rewrite Hi. by eexists.
  - simpl. specialize (Hj 0%nat ltac:(lia)) as H0. rewrite Nat.add_0_r in H0. rewrite H0.
    rewrite <- Nat.add_succ_comm in *. apply IH; [lia|done|]. intros j Hlt.
    rewrite Nat.add_succ_comm. apply Hj. lia.
Qed.

Lemma occurrences_first needle buffer pos :
  needle <> [] -> first_at needle buffer pos -> exists l, occurrences needle buffer = pos :: l.
Proof.
  intros Hne (H0 & Hat & Hfirst). unfold bytes_at in *.
  assert (Z.to_nat pos + length needle <= length buffer)%nat as Hlen.
  { apply (f_equal length) in Hat. rewrite length_take, length_drop in Hat.
    assert (length needle <> 0%nat) by (by destruct needle). lia. }
  unfold occurrences. rewrite (proj2 (Nat.ltb_ge _ _)) by lia.
  set (f := fun i => bool_decide (take (length needle) (drop i buffer) = needle)).
  destruct (filter_seq_first f 0 (Z.to_nat pos) (length buffer - length needle + 1)) as [l E].
  - lia.
  - by apply bool_decide_eq_true.
  - intros j Hj. apply bool_decide_eq_false. specialize (Hfirst (Z.of_nat j) ltac:(lia)).
    by rewrite Nat2Z.id in Hfirst.
  - rewrite E. simpl. rewrite Z2Nat.id by done. by eexists.
Qed.

(** ** A chain of records of unknown layout *)

(** [NextEntryOffset], then the rest of the record. *)
Fixpoint chain_bytes (bodies : list (list Z)) : list Z :=
  match bodies with
  | [] => []
  | [b] => to_le_bytes 4 0 ++ b
  | b :: bodies' => to_le_bytes 4 (4 + Z.of_nat (length b)) ++ b ++ chain_bytes bodies'
  end.

Fixpoint starts (n : Z) (bodies : list (list Z)) : list Z :=
  match bodies with
  | [] => []
  | b :: bodies' => n :: starts (n + 4 + Z.of_nat (length b)) bodies'
  end.

Lemma chain_next pre v tail :
  0 <= v < 2 ^ 32 -> uint_at 4 (pre ++ to_le_bytes 4 v ++ tail) (Z.of_nat (length pre)) = v.
Proof.
  intros Hv. unfold uint_at. rewrite <- (Z.add_0_r (Z.of_nat _)), bytes_at_app by done.
  unfold bytes_at. rewrite drop_0, take_app_length' by (by rewrite length_to_le_bytes).
  rewrite of_to_le_bytes. by apply Z.mod_small.
Qed.

Lemma chain_loop_starts iterations pre bodies offsets :
  bodies <> [] -> (length bodies <= S iterations)%nat ->
  Forall (fun b => 4 + Z.of_nat (length b) < 2 ^ 32) bodies ->
  chain_loop iterations (pre ++ chain_bytes bodies) (Z.of_nat (length pre)) offsets =
    offsets ++ tail (starts (Z.of_nat (length pre)) bodies).
Proof.
  intros Hne Hit Hb. revert iterations pre offsets Hne Hit.
  induction Hb as [|b bodies Hb Hbs IH]; intros iterations pre offsets Hne Hit; [done|].
  destruct bodies as [|b' bodies].
  - simpl tail. rewrite app_nil_r. destruct iterations as [|iterations]; [done|].
    cbn [chain_loop chain_bytes]. rewrite chain_next by done. by destruct (_ <? _).
  - destruct iterations as [|iterations]; [simpl in Hit; lia|].
    change (chain_bytes (b :: b' :: bodies)) with
      (to_le_bytes 4 (4 + Z.of_nat (length b)) ++ b ++ chain_bytes (b' :: bodies)).
    assert (4 <= length (chain_bytes (b' :: bodies)))%nat as Hrest
      by (destruct bodies; simpl; lia).
    cbn [chain_loop]. rewrite chain_next by lia. rewrite !length_app, length_to_le_bytes.
    rewrite (proj2 (Z.ltb_ge _ _)), (proj2 (Z.eqb_neq _ _)), (proj2 (Z.leb_gt _ _)) by lia.
    set (pre' := pre ++ to_le_bytes 4 (4 + Z.of_nat (length b)) ++ b).
    assert (Z.of_nat (length pre) + (4 + Z.of_nat (length b)) = Z.of_nat (length pre')) as ->
      by (unfold pre'; rewrite !length_app, length_to_le_bytes; lia).
    replace (pre ++ to_le_bytes 4 (4 + Z.of_nat (length b)) ++ b ++ chain_bytes (b' :: bodies))
      with (pre' ++ chain_bytes (b' :: bodies)) by (unfold pre'; by rewrite <- !app_assoc).
    rewrite IH by (done || (simpl in *; lia)). rewrite <- app_assoc. f_equal.
    cbn [starts tail]. unfold pre'. rewrite !length_app, length_to_le_bytes. simpl app. f_equal; [lia|].
    f_equal. lia.
Qed.

Lemma walk_chain bodies :
  bodies <> [] -> (length bodies <= 1025)%nat ->
  Forall (fun b => 4 + Z.of_nat (length b) < 2 ^ 32) bodies ->
  walk_next_offset_chain (chain_bytes bodies) = starts 0 bodies.
Proof.
  intros Hne Hlen Hb. unfold walk_next_offset_chain.
  pose proof (chain_loop_starts 1024 [] bodies [0] Hne Hlen Hb) as E. simpl app in E.
  change (Z.of_nat (length [])) with 0 in E. rewrite E. by destruct bodies.
Qed.

(** The last start before a position inside a record is that of the record. *)
Lemma last_start n bodies i start body pos :
  starts n bodies !! i = Some start -> bodies !! i = Some body ->
  start <= pos < start + 4 + Z.of_nat (length body) ->
  last (List.filter (fun c => c <=? pos) (starts n bodies)) = Some start.
Proof.
  assert (forall bodies n c, c ∈ starts n bodies -> n <= c) as Hge.
  { clear. induction bodies as [|b bodies IH]; intros n c Hc; [by apply elem_of_nil in Hc|].
    apply elem_of_cons in Hc as [->|Hc]; [lia|]. apply IH in Hc. lia. }
  revert n i. induction bodies as [|b bodies IH]; intros n i Hs Hb Hp; [done|].
  destruct i as [|i]; simpl in Hs, Hb; simplify_eq.
  - cbn [starts List.filter]. rewrite (proj2 (Z.leb_le _ _)) by lia.
    assert (List.filter (fun c => c <=? pos) (starts (start + 4 + Z.of_nat (length body)) bodies) = []) as ->;
      [|done].
    assert (forall l, (forall c, c ∈ l -> pos < c) -> List.filter (fun c => c <=? pos) l = []) as H.
    { clear. induction l as [|c l IH]; intros H; [done|]. simpl.
      rewrite (proj2 (Z.leb_gt _ _)) by (apply H; left). apply IH. intros c' Hc'. apply H. by right. }
    apply H. intros c Hc%Hge. lia.
  - assert (n <= start) as Hn.
    { apply (Hge (b :: bodies)). right. by eapply list_elem_of_lookup_2. }
    specialize (IH _ _ Hs Hb Hp). cbn [starts List.filter]. rewrite (proj2 (Z.leb_le _ _)) by lia.
    by rewrite last_cons, IH.
Qed.

(** ** What the analysis finds *)

Section Layout.
Context (buf77 : list Z) (bodies : list (list Z)) (h L : Z).

(** The record of the file [r] starts at [start]: its name is [h] bytes further and
    nowhere before, and the time of its last write is at [L] in its header and nowhere
    before. *)
Record located (r : nt_record) (start : Z) : Prop := {
  loc_well_formed : well_formed (nt_name r) = true;
  loc_body : exists i body, starts 0 bodies !! i = Some start /\ bodies !! i = Some body /\
    h < 4 + Z.of_nat (length body);
  loc_name : first_at (name_bytes (nt_name r)) buf77 (start + h);
  loc_time : first_at (to_le_bytes 8 (nt_write r)) (take (Z.to_nat h) (bytes_at buf77 start)) L;
  loc_end : start + h <= Z.of_nat (length buf77) /\ start + L + 44 <= Z.of_nat (length buf77);
}.

Lemma starts_nonneg n l i start : starts n l !! i = Some start -> n <= start.
Proof.
  revert n i. induction l as [|b l IH]; intros n [|i] E; simplify_eq/=; [lia|]. apply IH in E. lia.
Qed.

Lemma anchor_located r start next off :
  0 <= h -> nt_record_ok r -> located r start ->
  anchor buf77 (starts 0 bodies) (to_string_lossy (nt_name r), next, off) =
    Some (to_string_lossy (nt_name r), start + h, start, h).
Proof.
  intros Hh Hr [Hw (i & body & Hs & Hb & Hlt) Hname _ _]. destruct (ok_name _ Hr) as [Hne Hu].
  unfold anchor, find_utf16_occurrences. rewrite lossy_encode by done.
  destruct (occurrences_first (name_bytes (nt_name r)) _ _ ltac:(by destruct (nt_name r)) Hname) as [l E].
  unfold name_bytes in E. destruct (nt_name r) as [|c name] eqn:En; [done|]. rewrite <- En in *.
  rewrite E. rewrite (last_start 0 bodies i start body) by (done || lia). simpl.
  do 2 f_equal. lia.
Qed.

Lemma find_links buf37 entries r start name next off pos common rest :
  0 <= h -> common = h -> points buf37 off name r -> located r start ->
  find_link_count buf37 buf77 ((name, next, off) :: entries) common (name, pos, start, rest) =
    Ret (Some (L, Some (uint_at 4 buf77 (start + (L + 40))))).
Proof.
  intros Hh -> (_ & _ & copy & Hcopy & Hwrite) [_ (i & body & Hs & _) _ Htime [He He']].
  apply starts_nonneg in Hs. unfold find_link_count. cbn [List.find].
  rewrite bool_decide_eq_true_2 by done. rewrite Hcopy. cbn [exec_bind]. unfold slice.
  rewrite (proj2 (Z.leb_le _ _)), (proj2 (Z.leb_le _ _)) by lia. simpl andb. cbv iota. cbn [exec_bind].
  replace (start + h - start) with h by lia. rewrite Hwrite.
  destruct (occurrences_first (to_le_bytes 8 (nt_write r)) _ _ ltac:(done) Htime) as [l ->].
  by rewrite (proj2 (Z.leb_le _ _)) by lia.
Qed.
End Layout.

Lemma count_sizes h c l :
  Forall (fun a : list Z * Z * Z * Z => snd a = h) l ->
  exists c', fold_left (fun m '(_, _, _, hs) => count_size hs m) l [(h, c)] = [(h, c')].
Proof.
  intros H. revert c. induction H as [|[[[n p] s] hs] l E _ IH]; intros c; [by eexists|].
  simpl in E. subst hs. cbn [fold_left]. unfold count_size at 2. rewrite Z.eqb_refl. apply IH.
Qed.

Lemma common_header_same order h a l :
  (forall m, order m ≡ₚ m) -> Forall (fun a : list Z * Z * Z * Z => snd a = h) (a :: l) ->
  common_header order (a :: l) = h.
Proof.
  intros Ho H. apply Forall_cons in H as [E H]. destruct a as [[[n p] s] hs]. simpl in E. subst hs.
  unfold common_header. cbn [fold_left]. change (count_size h []) with [(h, 1)].
  destruct (count_sizes h 1 l H) as [c ->].
  assert (order [(h, c)] = [(h, c)]) as -> by (apply Permutation_length_1_inv; symmetry; apply Ho). done.
Qed.

Lemma omap_forall2 {A B} (f : A -> option B) (Q : A -> B -> Prop) l :
  (forall x, x ∈ l -> exists y, f x = Some y /\ Q x y) -> Forall2 Q l (omap f l).
Proof.
  induction l as [|x l IH]; intros H; [constructor|]. destruct (H x ltac:(left)) as (y & E & Hy).
  cbn [omap list_omap]. rewrite E. constructor; [done|]. apply IH. intros z Hz. apply H. by right.
Qed.

(** C40: the tool recovers the layout: if every file of the class 37 listing has a well-formed name and its
    record in the chain of the class 77 buffer, of at most 1025 records, with the name [h] bytes after the start
    and nowhere before in the buffer, and the last write time at [L] in the header and
    nowhere before in it ([located]), then every anchor says [h], whatever the order of the
    hash map, and the reported number of links is what follows the time of the first file by
    40 bytes. *)
Theorem class77_layout_recovered order rs rest bodies h L :
  (forall m, order m ≡ₚ m) ->
  rs <> [] -> Forall nt_record_ok rs -> Z.of_nat (length (records_bytes rs ++ rest)) < 2 ^ 32 ->
  bodies <> [] -> (length bodies <= 1025)%nat ->
  Forall (fun b => 4 + Z.of_nat (length b) < 2 ^ 32) bodies -> 0 <= h ->
  (forall r, r ∈ rs -> dot_name (nt_name r) = false ->
     exists start, located (chain_bytes bodies) bodies h L r start) ->
  class37_of (Z.of_nat (length rest)) 0 rs <> [] ->
  exists anchors r start,
    analyse order (records_bytes rs ++ rest) (chain_bytes bodies) =
      Ret (anchors, Some (h, Some (L, Some (uint_at 4 (chain_bytes bodies) (start + (L + 40)))))) /\
    Forall2 (fun '(name, _, _) '(name', pos, start, hs) => name' = name /\ hs = h /\ pos = start + h)
      (class37_of (Z.of_nat (length rest)) 0 rs) anchors /\
    r ∈ rs /\ located (chain_bytes bodies) bodies h L r start.
Proof.
  intros Ho Hrs Hok Hlen Hne Hmax Hb Hh Hloc He. unfold analyse.
  rewrite parse_class37_spec by done. cbn [exec_bind]. rewrite walk_chain by done.
  set (entries := class37_of _ _ _) in *.
  assert (forall e, e ∈ entries -> exists r start, r ∈ rs /\
    points (records_bytes rs ++ rest) (snd e) (fst (fst e)) r /\
    located (chain_bytes bodies) bodies h L r start /\
    anchor (chain_bytes bodies) (starts 0 bodies) e = Some (fst (fst e), start + h, start, h)) as Hall.
  { intros [[name next] off] Hin.
    destruct (class37_points [] rs rest name next off Hok Hlen Hin) as (r & Hr & Hp).
    pose proof Hp as (Hd & -> & _). destruct (Hloc r Hr Hd) as [start Hs].
    rewrite Forall_forall in Hok. exists r, start. split_and!; try done.
    eapply anchor_located; [done|by apply Hok|exact Hs]. }
  assert (Forall2 (fun '(name, _, _) '(name', pos, start, hs) =>
      name' = name /\ hs = h /\ pos = start + h) entries
    (omap (anchor (chain_bytes bodies) (starts 0 bodies)) entries)) as Hf.
  { apply omap_forall2. intros e Hin. destruct (Hall e Hin) as (r & start & _ & _ & _ & ->).
    destruct e as [[name next] off]. by eexists. }
  destruct entries as [|e entries]; [done|]. destruct (Hall e ltac:(left)) as (r & start & Hr & Hp & Hl & Ea).
  cbn [omap list_omap] in *. rewrite Ea in *. destruct e as [[name next] off]. cbn [fst snd] in *.
  exists ((name, start + h, start, h) :: omap (anchor (chain_bytes bodies) (starts 0 bodies)) entries), r, start.
  rewrite common_header_same with (h := h); [|done|].
  - erewrite find_links by done. by split_and!.
  - constructor; [done|]. apply Forall2_cons in Hf as [_ Hf]. clear -Hf.
    induction Hf as [|[[? ?] ?] [[[? ?] ?] ?] ? ? [_ [-> _]] _ IH]; by constructor.
Qed.

(** ** Witness: a buffer with [NextEntryOffset], the length of the name and the 80 bytes of
    the documented structure before the name, for the files of the sample listing *)

Definition stat_body (links : Z) (name : string) : list Z :=
  to_le_bytes 4 (2 * Z.of_nat (length (bytes name))) ++       (** length of the name *)
  to_le_bytes 8 99 ++ repeat 0 16 ++ to_le_bytes 8 130000000000000000 ++ repeat 0 24 ++
  to_le_bytes 4 0x20 ++ repeat 0 4 ++ to_le_bytes 4 links ++ repeat 0 12 ++
  name_bytes (bytes name) ++ repeat 0 8.

Definition class77_bodies : list (list Z) := [stat_body 1 "."; stat_body 2 "sub"; stat_body 5 "f.txt"].

(** [first_at], decided. *)
Definition first_at_b (needle buffer : list Z) (pos : Z) : bool :=
  bool_decide (take (length needle) (bytes_at buffer pos) = needle) &&
  forallb (fun j => negb (bool_decide (take (length needle) (drop j buffer) = needle)))
    (seq 0 (Z.to_nat pos)).

Lemma first_at_decide needle buffer pos :
  0 <= pos -> first_at_b needle buffer pos = true -> first_at needle buffer pos.
Proof.
  intros H0 H. apply andb_prop in H as [H1%bool_decide_eq_true H2].
  split_and!; [done..|]. intros j Hj. rewrite forallb_forall in H2.
  specialize (H2 (Z.to_nat j) ltac:(apply in_seq; lia)). by apply negb_true_iff, bool_decide_eq_false in H2.
Qed.

Lemma sample_located :
  located (chain_bytes class77_bodies) class77_bodies 88 32 (sample_record 0x10 "sub") 98 /\
  located (chain_bytes class77_bodies) class77_bodies 88 32 (sample_record 0x20 "f.txt") 200.
Proof.
  split; constructor; try (apply first_at_decide; [lia|by vm_compute]); try by vm_compute.
  - exists 1%nat, (stat_body 2 "sub"). by vm_compute.
  - exists 2%nat, (stat_body 5 "f.txt"). by vm_compute.
Qed.

Lemma class77_layout_recovered_witness :
  exists anchors r start,
    analyse (@rev _) (records_bytes sample_records) (chain_bytes class77_bodies) =
      Ret (anchors, Some (88, Some (32, Some (uint_at 4 (chain_bytes class77_bodies) (start + 72))))) /\
    length anchors = 2%nat /\ r ∈ sample_records.
Proof.
  destruct (class77_layout_recovered (@rev _) sample_records [] class77_bodies 88 32)
    as (anchors & r & start & E & Hf & Hr & _).
  - intros m. symmetry. apply Permutation_rev.
  - done.
  - exact sample_records_ok.
  - by vm_compute.
  - done.
  - simpl. lia.
  - repeat constructor; by vm_compute.
  - done.
  - pose proof sample_located as [H1 H2]. intros r Hr Hd. unfold sample_records in Hr.
    repeat (apply elem_of_cons in Hr as [->|Hr]; [first [done|by eexists]|]). by apply elem_of_nil in Hr.
  - by vm_compute.
  - exists anchors, r, start. rewrite app_nil_r in E. split; [exact E|]. split; [|exact Hr].
    apply Forall2_length in Hf. by vm_compute in Hf.
Defined.

(** The reported number of links is that of "sub". *)
Example sample_analysis :
  match analyse (@rev _) (records_bytes sample_records) (chain_bytes class77_bodies) with
  | Ret (_, Some (_, Some (_, links))) => links = Some 2
  | _ => False
  end.
Proof. by vm_compute. Qed.
