(* ===== verification/HexDump.v ===== *)
(** * What examples/class77_poc.rs prints of a buffer: [dump_hex] and the header of an entry

    A line is the list of its characters.  A dump can be read back: nothing of the buffer is
    lost in it, and it has printable characters only. *)
From S2P Require Import Prelude Std Bytes NtEnum.

(** ** [format!] *)

Definition SPACE : Z := 32.

Definition hex_digit (d : Z) : Z := if d <? 10 then 48 + d else 87 + d.

(** The hexadecimal digits of an integer below [16 ^ fuel], at least one. *)
Fixpoint hex_digits (fuel : nat) (n : Z) : list Z :=
  match fuel with
  | O => []
  | S fuel' => (if n <? 16 then [] else hex_digits fuel' (n / 16)) ++ [hex_digit (n mod 16)]
  end.

(** [{:0wx}]; 16 digits are enough for a [usize]. *)
Definition format_hex (w : nat) (n : Z) : list Z :=
  let digits := hex_digits 16 n in repeat 48 (w - length digits) ++ digits.

(** [{:<w}] *)
Definition pad_right (w : nat) (l : list Z) : list Z := l ++ repeat SPACE (w - length l).

(** [join] *)
Fixpoint join (sep : list Z) (ls : list (list Z)) : list Z :=
  match ls with
  | [] => []
  | [l] => l
  | l :: ls' => l ++ sep ++ join sep ls'
  end.

(** ** [dump_hex] *)

Inductive printed :=
| Heading (label : OsString) (n len : nat)
| Line (l : list Z)
| Omitted (n : nat).

Definition hex_of (chunk : list Z) : list Z := join [SPACE] (map (format_hex 2) chunk).
Definition ascii_of (chunk : list Z) : list Z :=
  map (fun b => if (32 <=? b) && (b <=? 126) then b else DOT) chunk.

Definition dump_line (buffer : list Z) (n chunk_start : nat) : list Z :=
  let chunk_end := Nat.min (chunk_start + 16) n in
  let chunk := take (chunk_end - chunk_start) (drop chunk_start buffer) in
  format_hex 8 (Z.of_nat chunk_start) ++ bytes ": " ++ pad_right 48 (hex_of chunk) ++
  [SPACE] ++ ascii_of chunk.

(** [(0..n).step_by(k)] *)
Definition step_by (n k : nat) : list nat := map (fun i => (i * k)%nat) (seq 0 ((n + k - 1) / k)).

Definition dump_hex (buffer : list Z) (max_bytes : nat) (label : OsString) : list printed :=
  let n := Nat.min (length buffer) max_bytes in
  [Heading label n (length buffer)] ++
  map (fun chunk_start => Line (dump_line buffer n chunk_start)) (step_by n 16) ++
  (if (max_bytes <? length buffer)%nat then [Omitted (length buffer - max_bytes)] else []).

Example dump_hex_ex :
  dump_hex (bytes "abcdefghijklmnop" ++ [0; 255; 65; 1]) 19 (bytes "x") =
  [Heading (bytes "x") 19 20;
   Line (bytes "00000000: 61 62 63 64 65 66 67 68 69 6a 6b 6c 6d 6e 6f 70  abcdefghijklmnop");
   Line (bytes "00000010: 00 ff 41                                         ..A");
   Omitted 1].
Proof. by vm_compute. Qed.

(** ** The header of the first entry *)

(** [chunks(8)] *)
Fixpoint chunks (fuel : nat) (k : nat) (l : list Z) : list (list Z) :=
  match fuel, l with
  | O, _ | _, [] => []
  | S fuel', _ => take k l :: chunks fuel' k (drop k l)
  end.

Record header_row := mk_row {
  row_off : Z; row_hex : list Z; as_u32_lo : Z; as_u32_hi : Z; as_i64 : Z;
}.

Definition row_of (i : nat) (chunk : list Z) : header_row := {|
  row_off := Z.of_nat i * 8;
  row_hex := hex_of chunk;
  as_u32_lo := if (4 <=? length chunk)%nat then of_le_bytes (take 4 chunk) else 0;
  as_u32_hi := if (8 <=? length chunk)%nat then of_le_bytes (take 4 (drop 4 chunk)) else 0;
  as_i64 := if (8 <=? length chunk)%nat then to_signed 64 (of_le_bytes (take 8 chunk)) else 0;
|}.

(** The rows printed for [&buf77[entry_start..header_end]]; the slice panics when its bounds
    are not in order. *)
Definition header_rows (buf77 : list Z) (entry_start header_end : nat) : exec (list header_row) :=
  if (entry_start <=? header_end)%nat && (header_end <=? length buf77)%nat then
    let header := take (header_end - entry_start) (drop entry_start buf77) in
    Ret (imap row_of (take 16 (chunks (length header) 8 header)))
  else Panic.

(** ** Reading a dump *)

Definition hex_value (c : Z) : Z := if c <? 58 then c - 48 else c - 87.

(** Two digits and a space, until two spaces. *)
Fixpoint read_pairs (fuel : nat) (l : list Z) : list Z :=
  match fuel with
  | O => []
  | S fuel' =>
      match l with
      | a :: b :: l' =>
          if a =? SPACE then []
          else 16 * hex_value a + hex_value b :: read_pairs fuel' (drop 1 l')
      | _ => []
      end
  end.

(** The bytes of a line of a dump: they start after the offset, eight digits, and [": "]. *)
Definition undump (p : printed) : list Z :=
  match p with Line l => read_pairs 16 (drop 10 l) | _ => [] end.

Definition is_byte (b : Z) : Prop := 0 <= b < 256.
Definition printable (c : Z) : Prop := 32 <= c <= 126.

(** ** What is true of every byte *)

Lemma all_bytes (P : Z -> bool) b : forallb P (seqZ 0 256) = true -> is_byte b -> P b = true.
Proof. rewrite forallb_forall. intros H Hb. apply H, list_elem_of_In, elem_of_seqZ. exact Hb. Qed.

Definition byte_facts (b : Z) : bool :=
  match format_hex 2 b with
  | [x; y] => negb (x =? SPACE) && (16 * hex_value x + hex_value y =? b) &&
      forallb (fun c => (32 <=? c) && (c <=? 126)) [x; y]
  | _ => false
  end.

Lemma format_hex_2 b :
  is_byte b -> exists x y, format_hex 2 b = [x; y] /\ (x =? SPACE) = false /\
    16 * hex_value x + hex_value y = b /\ printable x /\ printable y.
Proof.
  intros Hb. assert (byte_facts b = true) as H by (apply all_bytes; [by vm_compute|done]).
  unfold byte_facts in H. destruct (format_hex 2 b) as [|x [|y []]]; try done. exists x, y.
  cbn [forallb] in H. rewrite !andb_true_iff, negb_true_iff, !Z.leb_le, Z.eqb_eq in H.
  unfold printable. tauto.
Qed.

Lemma hex_of_cons b c chunk : hex_of (b :: c :: chunk) = format_hex 2 b ++ SPACE :: hex_of (c :: chunk).
Proof. done. Qed.

Lemma length_hex_of chunk :
  Forall is_byte chunk -> chunk <> [] -> length (hex_of chunk) = (3 * length chunk - 1)%nat.
Proof.
  induction 1 as [|b chunk Hb Hc IH]; intros Hne; [done|].
  destruct (format_hex_2 b Hb) as (x & y & E & _). destruct chunk as [|c chunk].
  - unfold hex_of. simpl map. rewrite E. done.
  - rewrite hex_of_cons, E. cbn [length app]. rewrite IH by done. simpl. lia.
Qed.

Lemma read_hex_of chunk fuel rest :
  Forall is_byte chunk -> (length chunk <= fuel)%nat ->
  read_pairs fuel (hex_of chunk ++ SPACE :: SPACE :: rest) = chunk.
Proof.
  intros Hc. revert fuel. induction Hc as [|b chunk Hb Hc IH]; intros fuel Hf; [by destruct fuel|].
  destruct fuel as [|fuel]; [simpl in Hf; lia|]. simpl in Hf.
  destruct (format_hex_2 b Hb) as (x & y & E & Ex & Eb & _). destruct chunk as [|c chunk].
  - unfold hex_of. simpl map. rewrite E. cbn [join app read_pairs drop]. rewrite Ex, Eb.
    f_equal. destruct fuel; [done|]. by destruct rest.
  - rewrite hex_of_cons, E. cbn [app read_pairs drop]. rewrite Ex, Eb. f_equal. apply IH. lia.
Qed.

Lemma hex_digits_length fuel n w :
  0 <= n < 16 ^ Z.of_nat w -> (0 < w <= fuel)%nat -> (length (hex_digits fuel n) <= w)%nat.
Proof.
  revert n w. induction fuel as [|fuel IH]; intros n w Hn Hw; [lia|]. cbn [hex_digits].
  rewrite length_app. simpl length. destruct (Z.ltb_spec n 16); [simpl; lia|].
  destruct w as [|[|w]]; [lia|simpl in Hn; lia|].
  specialize (IH (n / 16) (S w)). enough (length (hex_digits fuel (n / 16)) <= S w)%nat by lia.
  apply IH; [|lia]. rewrite Nat2Z.inj_succ, Z.pow_succ_r in Hn by lia.
  split; [apply Z.div_pos; lia|]. apply Z.div_lt_upper_bound; lia.
Qed.

(** The offset takes eight characters in a buffer below 4 GB. *)
Lemma format_hex_8 n : 0 <= n < 2 ^ 32 -> length (format_hex 8 n) = 8%nat.
Proof.
  intros Hn. unfold format_hex. rewrite length_app, repeat_length.
  pose proof (hex_digits_length 16 n 8 Hn ltac:(lia)). lia.
Qed.

Lemma undump_line buffer n start :
  Forall is_byte buffer -> (start < n <= length buffer)%nat -> Z.of_nat n <= 2 ^ 32 ->
  undump (Line (dump_line buffer n start)) =
    take (Nat.min (start + 16) n - start) (drop start buffer).
Proof.
  intros Hb Hs Hn. unfold dump_line. set (chunk := take _ _).
  assert (Forall is_byte chunk) as Hc by (by apply Forall_take, Forall_drop).
  assert (length chunk = Nat.min (start + 16) n - start)%nat as Hl
    by (unfold chunk; rewrite length_take, length_drop; lia).
  assert (length (hex_of chunk) = 3 * length chunk - 1)%nat as Hh
    by (apply length_hex_of; [done|]; intros E; rewrite E in Hl; simpl in Hl; lia).
  unfold undump. rewrite app_assoc, drop_app_length'
    by (rewrite length_app, format_hex_8 by lia; done).
  unfold pad_right. rewrite <- app_assoc.
  destruct (48 - length (hex_of chunk))%nat as [|k] eqn:Ek; [lia|].
  destruct k as [|k]; cbn [repeat app]; (apply read_hex_of; [done|lia]).
Qed.

Lemma flat_map_map {A B D} (f : A -> B) (g : B -> list D) l :
  flat_map g (map f l) = flat_map (fun x => g (f x)) l.
Proof. induction l; simpl; congruence. Qed.

Lemma pieces {A} (l : list A) n m :
  flat_map (fun i => take (Nat.min (i * 16 + 16) n - i * 16) (drop (i * 16) l)) (seq 0 m) =
    take (Nat.min (m * 16) n) l.
Proof.
  induction m as [|m IH]; [by rewrite take_0|]. rewrite seq_S, flat_map_app, IH. simpl flat_map.
  rewrite app_nil_r. destruct (decide (m * 16 <= n)%nat).
  - rewrite (Nat.min_l (m * 16)) by lia. rewrite take_take_drop. f_equal. lia.
  - replace (Nat.min (m * 16 + 16) n - m * 16)%nat with 0%nat by lia.
    rewrite take_0, app_nil_r. f_equal. lia.
Qed.

(** A dump can be read back: it has the bytes of the buffer, up to the maximum, in order. *)
Theorem dump_hex_roundtrip buffer max_bytes label :
  Forall is_byte buffer -> Z.of_nat (length buffer) <= 2 ^ 32 ->
  flat_map undump (dump_hex buffer max_bytes label) = take max_bytes buffer.
Proof.
  intros Hb Hl. unfold dump_hex. cbv zeta. set (n := Nat.min (length buffer) max_bytes).
  rewrite !flat_map_app. cbn [flat_map undump app].
  replace (flat_map undump (if (max_bytes <? length buffer)%nat then _ else [])) with (@nil Z)
    by (by destruct (max_bytes <? length buffer)%nat).
  rewrite app_nil_r, flat_map_map. unfold step_by. rewrite flat_map_map.
  set (m := ((n + 16 - 1) / 16)%nat).
  assert (n <= m * 16 < n + 16)%nat as Hm.
  { pose proof (Nat.div_mod (n + 16 - 1) 16 ltac:(lia)).
    pose proof (Nat.mod_upper_bound (n + 16 - 1) 16 ltac:(lia)). fold m in H. lia. }
  transitivity (take (Nat.min (m * 16) n) buffer).
  - rewrite <- pieces. rewrite !flat_map_concat_map. f_equal. apply map_ext_in. intros i Hi.
    apply in_seq in Hi. apply undump_line; [done|unfold n in *; lia|unfold n; lia].
  - rewrite Nat.min_r by lia. unfold n. destruct (decide (max_bytes <= length buffer)%nat).
    + by rewrite Nat.min_r by lia.
    + by rewrite Nat.min_l, take_ge, take_ge by lia.
Qed.

(** ** The rows of a header *)

Lemma chunks_lookup fuel l i :
  (i * 8 < length l <= fuel)%nat -> chunks fuel 8 l !! i = Some (take 8 (drop (i * 8) l)).
Proof.
  revert l i. induction fuel as [|fuel IH]; intros l i Hi; [lia|].
  destruct l as [|b l]; [simpl in Hi; lia|]. destruct i as [|i]; cbn [chunks]; [done|].
  cbn [lookup list_lookup]. change (list_lookup i) with (lookup (M := list (list Z)) i).
  rewrite IH by (rewrite length_drop; lia). by rewrite drop_drop.
Qed.

Lemma uint_split (l : list Z) :
  (8 <= length l)%nat -> of_le_bytes (take 8 l) = of_le_bytes (take 4 l) + 2 ^ 32 * of_le_bytes (take 4 (drop 4 l)).
Proof.
  intros H. do 8 (destruct l as [|? l]; [simpl in H; lia|]). cbn [take drop of_le_bytes].
  change (2 ^ 32) with (256 * (256 * (256 * 256))). ring.
Qed.

(** There is a row for each of the first sixteen times eight bytes; it shows them once as a
    signed integer and once as two unsigned ones, all of them as the parser of the
    enumeration reads them at this place of the buffer. *)
Theorem header_rows_spec buf77 entry_start header_end i :
  (entry_start + i * 8 + 8 <= header_end <= length buf77)%nat -> (i < 16)%nat ->
  exists rows row, header_rows buf77 entry_start header_end = Ret rows /\ rows !! i = Some row /\
    let offset := Z.of_nat entry_start + row_off row in
    row_off row = Z.of_nat i * 8 /\
    as_i64 row = int_at 8 buf77 offset /\
    as_u32_lo row = uint_at 4 buf77 offset /\ as_u32_hi row = uint_at 4 buf77 (offset + 4) /\
    uint_at 8 buf77 offset = as_u32_lo row + 2 ^ 32 * as_u32_hi row.
Proof.
  intros Hle Hi. unfold header_rows.
  rewrite (proj2 (Nat.leb_le _ _)), (proj2 (Nat.leb_le header_end _)) by lia. cbn [andb].
  set (header := take (header_end - entry_start) _).
  assert (length header = header_end - entry_start)%nat as Hl
    by (unfold header; rewrite length_take, length_drop; lia).
  eexists _, _. split; [done|]. split.
  { rewrite list_lookup_imap, lookup_take_lt, chunks_lookup by lia. done. }
  unfold header. rewrite skipn_firstn_comm, take_take, drop_drop.
  replace (8 `min` (header_end - entry_start - i * 8))%nat with 8%nat by lia.
  set (chunk := drop (entry_start + i * 8) buf77).
  assert (8 <= length chunk)%nat as Hc by (unfold chunk; rewrite length_drop; lia).
  unfold row_of. cbn [row_off row_hex as_u32_lo as_u32_hi as_i64].
  rewrite length_take, Nat.min_l by lia. cbn [Nat.leb].
  unfold int_at, uint_at, bytes_at.
  replace (Z.to_nat (Z.of_nat entry_start + Z.of_nat i * 8)) with (entry_start + i * 8)%nat by lia.
  replace (Z.to_nat (Z.of_nat entry_start + Z.of_nat i * 8 + 4)) with (entry_start + i * 8 + 4)%nat by lia.
  assert (drop (entry_start + i * 8 + 4) buf77 = drop 4 chunk) as -> by (unfold chunk; by rewrite drop_drop).
  fold chunk. rewrite skipn_firstn_comm, !take_take. cbn [Nat.min Nat.sub].
  split_and!; try done. by apply uint_split.
Qed.

Example header_rows_ex :
  header_rows [9; 9; 1; 0; 0; 0; 2; 0; 0; 0; 255; 1; 2] 2 13 =
  Ret [mk_row 0 (bytes "01 00 00 00 02 00 00 00") 1 2 8589934593; mk_row 8 (bytes "ff 01 02") 0 0 0].
Proof. by vm_compute. Qed.
